(* ===== verification/_CoqProject ===== *)
-Q . S2P
Prelude.v
RustStr.v
SemTypes.v
Template.v
MetricTypes.v
SqlText.v
Catalog.v
Graph.v
GraphFacts.v
GraphProps.v
Rollup.v
Compile.v
CompileProps.v
CompileTotal.v
Metric.v
MetricProps.v
RollupProps.v
Leaves.v
Cache.v
CacheProps.v
CacheFiles.v
Vacuum.v
CacheSample.v
Guard.v
GuardProps.v
Json.v
Paginate.v
HttpSpec.v
HttpIo.v
HttpRequest.v
HttpResponse.v
HttpFetch.v
HttpScan.v
HttpFetchProps.v
HttpPages.v
HttpScanProps.v
HttpSample.v
DependentJoin.v
OpenApi.v
RawTable.v
ConfigTypes.v
Validate.v
MetricCheck.v
FunctionCheck.v
MetricCheckProps.v
ValidateProps.v
VarTypes.v
Variables.v
Loader.v
VariablesProps.v
Assemble.v
AssembleProps.v
Functions.v
Calls.v
FunctionProps.v
FileFunctions.v
EngineErrors.v
Engine.v
EngineProps.v
EngineReload.v
Namespaces.v
NamespaceProps.v
Tokens.v
Prog.v
OAuth.v
OAuthRace.v
OAuthProps.v
OAuthDemo.v
OAuthSetup.v
OAuthSetupProps.v
Activity.v
Queries.v
QueryProps.v
Service.v
Wire.v
Grpc.v
GrpcProps.v
DuckDb.v
HttpRegister.v
McpSource.v
