(* ===== verification/Prelude.v ===== *)
(** * A verified model of pawrly

    pawrly answers SQL over remote and local sources. This library models the parts of the
    program that decide what is asked of those sources and what is answered, and proves what
    they promise. Paths below are under [src/crates/].

    ** The program and its model

    - Semantic layer. A query over business names is compiled to SQL. Data:
      [pawrly-core/src/semantic.rs], [safety.rs], [schema.rs] (SemTypes, MetricTypes). Text
      fragments, literals, row-level-security parameters: [pawrly-semantic/src/lib.rs]
      (SqlText, Template). Catalog and lookups (Catalog), join graph (Graph), the compiler
      (Compile), [rollup.rs] (Rollup), [metric.rs] (Metric). The compiler asks the graph for
      reachable models, the rollup matcher for a pre-aggregation, and the metric pass for
      the leaves of a metric; [compile_sql] ties the two passes.
    - Cache. [pawrly-engine/src/cache.rs], [pawrly-core/src/cache.rs] (Cache, CacheFiles,
      Vacuum): the manifest on disk and its copies in memory, the data files, and every
      operation of a manager as a function of the disk and of the outcomes of its I/O; a manifest
      that cannot be read or parsed counts as empty, and a life beyond what the clock can
      represent is a crash.
    - HTTP source. [pawrly-sources/http/src/]: [guard.rs] (Guard), [paginate.rs] (Paginate,
      with JSON values in Json), [expr.rs] and [source.rs] (HttpSpec), [typed.rs] (HttpIo,
      HttpRequest, HttpResponse, HttpFetch, HttpScan). A scan binds its filters, opens one
      fetch per fan-out binding, each fetch sends pages through the guard, and the rows
      become typed columns. [dependent_join.rs], [deferred.rs] (DependentJoin): the rule that
      turns a join with a table that lacks a required key into fetches of the driver's keys.
      [openapi.rs] with [pawrly-schema/src/lib.rs] (OpenApi): tables from a specification.
      [raw.rs] (RawTable): one request per path a query names. [register.rs],
      [function.rs] (HttpRegister): a source and its tables from its configuration, and functions.
    - MCP source. [pawrly-sources/mcp/src/] (McpSource): the client's protocol, the tools that are
      exposed as tables, calling them page by page, registration and functions.
    - DuckDB sources. [pawrly-engine/src/duckdb_source.rs] (DuckDb): the SQL of a scan, of
      readers, attachments and secrets, and the registration of every kind of such a source.
    - Configuration. [pawrly-config/src/]: [types.rs], [validator.rs] (ConfigTypes, Validate,
      MetricCheck, FunctionCheck) say what a workspace file may contain; their theorems are
      about the compiler run on a configuration that was accepted. [interpolate.rs],
      [variables.rs] with [pawrly-core/src/variables.rs], [loader.rs] and [assemble.rs]
      (VarTypes, Variables, Loader, Assemble) read such a file: included files are merged,
      declared variables and secret references are replaced in its scalars, and the result
      is validated.
    - Table-valued functions. [pawrly-core/src/function.rs], [pawrly-engine/src/functions/]
      (Functions, FileFunctions): descriptors, the registry and the table functions of the
      SQL session, the binding of a call, the file functions over a file system given as an
      interface ([FileSystem]); [pawrly-mcp/src/tools.rs] and [pawrly-cli/src/commands/
      function.rs] (Calls): how the two front ends turn named values into a call.
    - Engine. [pawrly-core/src/error.rs] (EngineErrors): errors, their codes and texts, their
      way over the wire. [pawrly-engine/src/local.rs], [registry.rs] (Engine): the registered
      sources, the catalog, the refreshers, functions and variables, and the operations that
      change them. A source owns its schema or is an attached database, whose tables are
      looked up by the driver and cannot be replaced ([Schema]); after the sources the engine
      registers the rollups of its models as cached tables. What the driver of a source finds is
      an outcome ([Registrar]), and so is whether the executor of a function builds
      ([FunctionBuild]). [namespace.rs] with the
      materialize operations of [local.rs] (Namespaces): one cache manager per namespace, and
      the catalogs that name materialized tables in SQL. [activity.rs], [durable_activity.rs],
      [redact.rs] (Activity): the log of queries, in memory and on disk. [stream.rs] with the
      query operations of [local.rs] (Queries): a query from its start to the end of its stream,
      its timeout and cancellation. A poll is two steps, the load of the cancellation flag and
      the poll of the inner stream, and other steps may come between them.
    - Service and remote access. [pawrly-core/src/service.rs] (Service): what an engine answers to,
      as an interface. [pawrly-proto/] (Wire): the messages and their conversions.
      [pawrly-server/src/services/], [auth.rs] and [pawrly-client/src/remote.rs] (Grpc): the gRPC
      handlers over any engine and the client over any server.
    - Values of variables. [pawrly-secrets/src/variables/tokens.rs] (Tokens): the stores of
      static secrets and refresh tokens behind one interface ([ValueStore]), with the default
      store that falls back from the keyring to an encrypted file. [variables/mod.rs] (OAuth,
      OAuthRace): the runtime store that mints and refreshes tokens, one program per caller and
      their interleavings over several stores, with lost replies, failing token stores and
      dropped tasks as steps. [setup.rs], [discovery.rs] (OAuthSetup): the interactive flows.

    Operations keep the names of the code. State is passed explicitly: a manager's
    operations take and return the disk and the manager, a fetch is a state transformer over
    a log of requests and waits ([io]), the compiler returns [result]. Errors are the code's
    variants. Machine integers are [N] or [Z] with saturation, wrapping and overflow written
    out where the code has them. Strings are byte strings. Code that asks its surroundings in a
    fixed order is a program, a tree of requests and of what follows each answer (Prog): it can
    be run, reasoned about for every answer, or interleaved with others. A loop or recursion that is not
    structural carries fuel:

    - [scan], the placeholder loops and [derived_sql]: the length of the text plus one, each
      round consumes a brace;
    - [metric_fuel] and [visit]: one more than the number of metrics, the stack holds
      distinct ones ([metric_expr_cycles], [visit_acc]);
    - [bfs]: one more than the number of models, each visited once ([reachability_shortest]);
    - [compile_sql]: two levels, the inner catalog has no metrics ([compile_sql_equation]);
    - the page loop and the retries: one more than [max_pages] and [max_retries]
      ([fetch_rows_bounded]);
    - [list_tools]: the code's loop has no bound, and no fuel is enough against every server
      ([endless_tools]); a run past its fuel counts as a crash;
    - [deref]: the code's own 32 steps; [template_loop]: the length of the text plus one;
      [unique_name]: one candidate more than there are names taken;
    - the polling of a device and the wait for a callback: the rounds that fit before the
      deadline ([device_polls_bounded]);
    - [assemble]: one more than the number of files, an include may not be on the path that
      reached it ([assemble_terminates]).

    ** Parameters

    What is not code of this repository is an argument: the iteration order of hash
    collections ([HashIter], whose law is that it permutes the elements), file system and
    clock outcomes, the Parquet and Arrow formats, URL parsing, DNS, the public-suffix list,
    the HTTP client and the servers behind it ([Web]), the YAML files of a workspace and the
    secret stores ([Files], [Loading]), serde's reading and writing of declarations
    ([HttpForms], [StorageFormats], [McpForms]), JSON pointers ([JsonText]), Arrow's IPC frames and DataFusion's
    operators. Each law assumed of them is a field of
    the class or a named hypothesis, and a sample instance shows it can hold (CompileProps,
    CacheSample, HttpSample, OAuthDemo, and the end of the other files).

    ** The theorems

    - CompileProps, CompileTotal, RollupProps: no join inflates a measure, every required
      predicate is present, row caps hold, a rollup that is chosen covers the query, metrics
      and filters included, [compile_sql] terminates. SqlText: bound values cannot change the lexical structure of the SQL.
    - GraphFacts, GraphProps: the search finds shortest paths, fan-out and ambiguity.
    - MetricProps, Leaves: expansion terminates, its cycle check is exact, leaves resolve.
    - CacheProps, CacheFiles, Vacuum: the manifest refines a map; interleaved managers merge, and a
      materialized table survives, while the manifest on disk can be read; a failed read drops
      what the manifest held; a materialized table reads back; vacuum reclaims exactly what it reports;
      a corrupt file heals.
    - GuardProps, HttpFetchProps, HttpPages, HttpScanProps, Json: every
      request is confined by the guard and credentials stay with trusted hosts; a fetch is
      bounded and, against a well-behaved server, complete; what is reported as pushed down
      is enforced, where parameters and filter keys are distinct; columns are typed; JSON paths
      read back. DependentJoin: the rewritten plan gives only rows the original may give,
      under laws of the operators that allow any partitioning, any order and joins on null; and
      the join gives the rows of the inner join, of which a limit may lose some. OpenApi:
      distinct identifiers, known types, pagination by declared parameters. RawTable: confined, a
      row per request. HttpRegister: the catalog gets exactly the tables of the configuration.
    - McpSource: only advertised tools that are exposed, or declared ones, become tables; a fetch
      follows the cursors within its bound.
    - DuckDb: credentials stay inside string literals; registration runs only statements of
      an exact form, whose attachments are read-only, provided the source's name has no double
      quote; tables
      are registered in order until the first failure.
    - MetricCheckProps, ValidateProps: the validator's cycle search is exact; a validated
      configuration has metrics that expand and predicates that bind.
    - VariablesProps, AssembleProps: what replacing references does to a text, in which
      scope and with which type; which file each assembled entry comes from, and that
      assembly ends.
    - FunctionProps, FileFunctions: a rendered call reads back as the call it was made from, the
      two front ends agree, the engine binds what they order; a grep is a prefix of the
      unlimited one.
    - EngineProps, EngineReload: errors survive the wire; after any history of operations,
      failed ones included, refreshers and functions belong to what is registered; a reload
      makes the engine the one the file describes, and a second one changes nothing.
    - NamespaceProps: namespaces cannot leave the storage root or touch each other, and a
      materialized table is found under its SQL name, also in a later process. Activity,
      QueryProps: the log keeps what happened, every query that starts is accounted for once, and
      a cancelled one yields at most the batch of the poll that was under way.
    - Tokens: a value store is a map while its host answers the same way. OAuthRace, OAuthProps,
      OAuthSetupProps: concurrent resolutions of one store share one refresh while the token
      store works, and all end; secrets go only to
      the configured endpoints, a callback is accepted only with its state.
    - GrpcProps: the client of a daemon is an engine, as far as the wire carries it, and a token
      is required of every call.

    ** Not modelled

    The loops of background refreshers, the set-up of the SQL session, the pool of DuckDB
    connections, the local file and SQLite sources, the MCP server and transports, the REST server
    and its client, the transports and Flight, the rest of the command line and telemetry are
    I/O around other libraries. To the engine, whether an executor of a function
    builds is an outcome. Of the modelled parts: serde's parsing, the chain of secret stores
    that the loader builds with its back ends, the provider that runs the query of a rollup, health figures, telemetry, tracing and elapsed times are left out.

    This file holds the shared prelude: fallible computations ([result]), stable sorting,
    the iteration order of hash collections, and the automation the components share. *)

From Stdlib Require Export Sorted Ascii NArith ZArith Lia.
From stdpp Require Export base gmap strings list pretty sorting.

#[export] Set Default Goal Selector "!".

(** ** [Result<T, E>] *)

Inductive result (E A : Type) : Type :=
| Ok (a : A)
| Err (e : E).
Arguments Ok {E A} a.
Arguments Err {E A} e.

Definition rbind {E A B} (m : result E A) (f : A → result E B) : result E B :=
  match m with
  | Ok a => f a
  | Err e => Err e
  end.

Definition rmap {E A B} (f : A → B) (m : result E A) : result E B :=
  rbind m (λ a, Ok (f a)).

(** [map_err]. *)
Definition map_err {E F A} (f : E → F) (m : result E A) : result F A :=
  match m with
  | Ok a => Ok a
  | Err e => Err (f e)
  end.

(** [Option::ok_or_else]. *)
Definition ok_or {E A} (e : E) (o : option A) : result E A :=
  match o with
  | Some a => Ok a
  | None => Err e
  end.

(** [Result::ok]. *)
Definition to_option {E A} (m : result E A) : option A :=
  match m with
  | Ok a => Some a
  | Err _ => None
  end.

Declare Scope rust_scope.
Notation "'let?' x := m 'in' k" := (rbind m (λ x, k))
  (at level 10, x name, m at level 100, k at level 200) : rust_scope.
Notation "'let?' ' p := m 'in' k" := (rbind m (λ x, let p := x in k))
  (at level 10, p strict pattern, m at level 100, k at level 200) : rust_scope.
Open Scope rust_scope.

(** A [for] loop whose body may return early with [?], collecting its values. *)
Fixpoint try_map {E A B} (f : A → result E B) (l : list A) : result E (list B) :=
  match l with
  | [] => Ok []
  | x :: l => let? y := f x in let? ys := try_map f l in Ok (y :: ys)
  end.

(** A [for] loop with [?] over an accumulator. *)
Fixpoint try_fold {E A S} (f : S → A → result E S) (s : S) (l : list A) : result E S :=
  match l with
  | [] => Ok s
  | x :: l => let? s := f s x in try_fold f s l
  end.

(** A [for] loop with [?] that only checks. *)
Fixpoint try_each {E A} (f : A → result E ()) (l : list A) : result E () :=
  match l with
  | [] => Ok ()
  | x :: l => let? _ := f x in try_each f l
  end.

Lemma rbind_ok {E A B} (m : result E A) (f : A → result E B) b :
  rbind m f = Ok b ↔ ∃ a, m = Ok a ∧ f a = Ok b.
Proof. destruct m; simpl; naive_solver. Qed.

Lemma rmap_ok {E A B} (m : result E A) (f : A → B) b :
  rmap f m = Ok b ↔ ∃ a, m = Ok a ∧ b = f a.
Proof. destruct m; simpl; naive_solver. Qed.

Lemma map_err_ok {E F A} (f : E → F) (m : result E A) a :
  map_err f m = Ok a ↔ m = Ok a.
Proof. destruct m; naive_solver. Qed.

Lemma ok_or_ok {E A} (e : E) (o : option A) a : ok_or e o = Ok a ↔ o = Some a.
Proof. destruct o; naive_solver. Qed.

Lemma to_option_some {E A} (m : result E A) a : to_option m = Some a ↔ m = Ok a.
Proof. destruct m; naive_solver. Qed.

#[export] Instance Ok_inj {E A} : Inj (=) (=) (@Ok E A).
Proof. by intros ?? [= ->]. Qed.

(** Destructs every successful bind among the hypotheses. *)
Ltac inv_ok :=
  repeat match goal with
  | H : rbind _ _ = Ok _ |- _ =>
      apply rbind_ok in H; let x := fresh "x" in destruct H as (x & ? & H); simpl in H
  | H : rmap _ _ = Ok _ |- _ =>
      apply rmap_ok in H; let x := fresh "x" in destruct H as (x & H & ?)
  | H : map_err _ _ = Ok _ |- _ => apply map_err_ok in H
  | H : ok_or _ _ = Ok _ |- _ => apply ok_or_ok in H
  | H : Ok _ = Ok _ |- _ => apply Ok_inj in H; subst
  | H : Err _ = Ok _ |- _ => discriminate H
  end.

Lemma try_map_ok {E A B} (f : A → result E B) l ys :
  try_map f l = Ok ys ↔ Forall2 (λ x y, f x = Ok y) l ys.
Proof.
  revert ys; induction l as [|x l IH]; intros ys; simpl; split; intros H; inv_ok.
  - constructor.
  - by inversion H.
  - constructor; [done|]. by apply IH.
  - inversion H as [|? y ? ys' Hy Hys]; subst. rewrite Hy; simpl.
    apply IH in Hys. by rewrite Hys.
Qed.

Lemma try_each_ok {E A} (f : A → result E ()) l :
  try_each f l = Ok () ↔ Forall (λ x, f x = Ok ()) l.
Proof.
  induction l as [|x l IH]; simpl; [naive_solver|].
  rewrite Forall_cons, <-IH. destruct (f x) as [[]|]; simpl; naive_solver.
Qed.

Lemma try_map_err {E A B} (f : A → result E B) l e :
  try_map f l = Err e ↔
  ∃ l1 x l2, l = l1 ++ x :: l2 ∧ f x = Err e ∧ Forall (λ y, ∃ b, f y = Ok b) l1.
Proof.
  induction l as [|x l IH]; simpl.
  { split; [done|]. intros (l1 & x & l2 & Hl & _). by destruct l1. }
  destruct (f x) as [b|e'] eqn:Hx; simpl.
  - assert (rbind (try_map f l) (λ ys, Ok (b :: ys)) = Err e ↔ try_map f l = Err e)
      as -> by (destruct (try_map f l); naive_solver).
    rewrite IH. split.
    + intros (l1 & y & l2 & -> & ? & ?). exists (x :: l1), y, l2. split_and!; eauto.
    + intros ([|z l1] & y & l2 & Hl & ? & Hall); injection Hl as <- ->; [congruence|].
      apply Forall_cons in Hall as [_ ?]. exists l1, y, l2. eauto.
  - split.
    + intros [= ->]. exists [], x, l. eauto.
    + intros ([|z l1] & y & l2 & Hl & ? & Hall); injection Hl as <- ->; [congruence|].
      apply Forall_cons in Hall as [[??] _]. congruence.
Qed.

(** ** Stable sorting: [slice::sort], [sort_by], [sort_by_key] *)

Section sort_by.
Context {A : Type} (leb : A → A → bool).

Fixpoint insert_by (x : A) (l : list A) : list A :=
  match l with
  | [] => [x]
  | y :: l' => if leb x y then x :: l else y :: insert_by x l'
  end.

Definition sort_by (l : list A) : list A := foldr insert_by [] l.

Lemma insert_by_perm x l : insert_by x l ≡ₚ x :: l.
Proof.
  induction l as [|y l IH]; simpl; [done|]. destruct (leb x y); [done|].
  rewrite IH. constructor.
Qed.

Lemma sort_by_perm l : sort_by l ≡ₚ l.
Proof. induction l; simpl; [done|]. by rewrite insert_by_perm, IHl. Qed.

Lemma elem_of_sort_by x l : x ∈ sort_by l ↔ x ∈ l.
Proof. by rewrite sort_by_perm. Qed.

Context (leb_total : ∀ x y, leb x y = true ∨ leb y x = true)
        (leb_trans : ∀ x y z, leb x y = true → leb y z = true → leb x z = true).

Lemma insert_by_sorted x l :
  StronglySorted (λ x y, leb x y = true) l →
  StronglySorted (λ x y, leb x y = true) (insert_by x l).
Proof using leb_total leb_trans.
  induction 1 as [|y l Hl IH Hy]; simpl.
  { constructor; [constructor|constructor]. }
  destruct (leb x y) eqn:Hxy.
  - constructor; [by constructor|]. constructor; [done|].
    eapply Forall_impl; [exact Hy|]. simpl. eauto.
  - constructor; [done|].
    rewrite insert_by_perm. constructor; [|done].
    destruct (leb_total x y); congruence.
Qed.

Lemma sort_by_sorted l : StronglySorted (λ x y, leb x y = true) (sort_by l).
Proof using leb_total leb_trans.
  induction l; simpl; [constructor|]. by apply insert_by_sorted.
Qed.
End sort_by.

(** [Vec::dedup]: drops consecutive repetitions. *)
Fixpoint dedup {A} `{EqDecision A} (l : list A) : list A :=
  match l with
  | [] => []
  | x :: l' =>
      match l' with
      | [] => [x]
      | y :: _ => if decide (x = y) then dedup l' else x :: dedup l'
      end
  end.

Lemma elem_of_dedup {A} `{EqDecision A} (x : A) l : x ∈ dedup l ↔ x ∈ l.
Proof.
  induction l as [|y l IH]; [done|]. simpl. destruct l as [|z l]; [done|].
  case_decide as Hd; [subst|]; rewrite ?elem_of_cons, ?IH, ?elem_of_cons; naive_solver.
Qed.

(** ** Iteration order of hash collections
    [HashMap]/[HashSet] iterate in an unspecified order: code that collects from one is
    modelled against an arbitrary enumeration of the set's elements. *)
Class HashIter (K : Type) `{Countable K} := {
  hash_iter : gset K → list K;
  hash_iter_perm : ∀ X, hash_iter X ≡ₚ elements X
}.

(** One admissible enumeration: the one of [gset]. *)
Definition gset_iter {K} `{Countable K} : HashIter K :=
  {| hash_iter := elements; hash_iter_perm := λ _, reflexivity _ |}.

Lemma elem_of_hash_iter {K} `{HashIter K} (x : K) X : x ∈ hash_iter X ↔ x ∈ X.
Proof. by rewrite hash_iter_perm, elem_of_elements. Qed.

(** ** Machine-width integers *)

Definition u32_max : N := 4294967295.
Definition u64_max : N := 18446744073709551615.
Definition i64_min : Z := -9223372036854775808.
Definition i64_max : Z := 9223372036854775807.

Definition u32_saturating_add (a b : N) : N := N.min u32_max (a + b).
Definition u64_saturating_add (a b : N) : N := N.min u64_max (a + b).
Definition u64_saturating_mul (a b : N) : N := N.min u64_max (a * b).

(** Truncating cast [as u32]. *)
Definition as_u32 (n : N) : N := (n `mod` (u32_max + 1))%N.

Create HintDb rust.
#[export] Hint Resolve elem_of_hash_iter elem_of_sort_by elem_of_dedup : rust.
