(* ===== verification/RustStr.v ===== *)
(** * Rust's [str]
    The operations of [str]/[String]/[char] and of integer and float parsing the sources
    use, over UTF-8 bytes ([ascii] is one byte), with the lemmas the components share. *)

From S2P Require Export Prelude.

Local Open Scope char_scope.

Definition code (c : ascii) : N := N_of_ascii c.
Definition squote : ascii := "'".
Definition dquote : ascii := "034".

Definition in_range (lo hi : N) (c : ascii) : bool := ((lo <=? code c) && (code c <=? hi))%N.
Definition is_digit (c : ascii) : bool := in_range 48 57 c.
Definition is_upper (c : ascii) : bool := in_range 65 90 c.
Definition is_lower (c : ascii) : bool := in_range 97 122 c.
Definition is_alpha (c : ascii) : bool := is_upper c || is_lower c.
Definition is_alnum (c : ascii) : bool := is_alpha c || is_digit c.

Local Open Scope stdpp_scope.

Definition chr (c : ascii) : string := String c "".

(** ** Bytewise predicates and maps *)

Fixpoint all_chars (f : ascii → bool) (s : string) : bool :=
  match s with
  | "" => true
  | String c s => f c && all_chars f s
  end.

(** [str::contains(char)]. *)
Fixpoint contains_chr (c : ascii) (s : string) : bool :=
  match s with
  | "" => false
  | String a s => bool_decide (a = c) || contains_chr c s
  end.

Definition lower_chr (c : ascii) : ascii :=
  if is_upper c then ascii_of_N (code c + 32) else c.

(** [to_ascii_lowercase]. *)
Fixpoint to_ascii_lowercase (s : string) : string :=
  match s with
  | "" => ""
  | String c s => String (lower_chr c) (to_ascii_lowercase s)
  end.

Definition eq_ignore_ascii_case (a b : string) : bool :=
  bool_decide (to_ascii_lowercase a = to_ascii_lowercase b).

(** ** Prefixes, splitting, replacing *)

Fixpoint strip_prefix (pat s : string) : option string :=
  match pat, s with
  | "", _ => Some s
  | String _ _, "" => None
  | String p pat, String c s => if decide (p = c) then strip_prefix pat s else None
  end.

Definition starts_with (pat s : string) : bool := bool_decide (is_Some (strip_prefix pat s)).

(** [strip_suffix], scanning for the suffix from the left. *)
Fixpoint strip_suffix (pat s : string) : option string :=
  if decide (s = pat) then Some ""
  else match s with
       | "" => None
       | String c s => match strip_suffix pat s with
                       | Some r => Some (String c r)
                       | None => None
                       end
       end.

Definition ends_with (pat s : string) : bool := bool_decide (is_Some (strip_suffix pat s)).

(** [split_once(char)]: around the first occurrence. *)
Fixpoint split_once (c : ascii) (s : string) : option (string * string) :=
  match s with
  | "" => None
  | String a s' =>
      if decide (a = c) then Some ("", s')
      else match split_once c s' with
           | Some (l, r) => Some (String a l, r)
           | None => None
           end
  end.

(** [find(pat)] for a string pattern, as the text before and after the first match. *)
Fixpoint split_once_str (pat s : string) : option (string * string) :=
  match strip_prefix pat s with
  | Some r => Some ("", r)
  | None =>
      match s with
      | "" => None
      | String a s' =>
          match split_once_str pat s' with
          | Some (l, r) => Some (String a l, r)
          | None => None
          end
      end
  end.

(** [split(char)]; never empty. *)
Fixpoint split (c : ascii) (s : string) : list string :=
  match s with
  | "" => [""]
  | String a s' =>
      if decide (a = c) then "" :: split c s'
      else match split c s' with
           | [] => [chr a]
           | x :: l => String a x :: l
           end
  end.

(** [replace(pat, rep)] for a non-empty pattern: [skip] bytes of the current match are
    still to be dropped. *)
Fixpoint replace_from (pat rep : string) (skip : nat) (s : string) : string :=
  match s with
  | "" => ""
  | String c s' =>
      match skip with
      | S k => replace_from pat rep k s'
      | O => if starts_with pat s
             then rep +:+ replace_from pat rep (String.length pat - 1) s'
             else String c (replace_from pat rep 0 s')
      end
  end.

(** A UTF-8 continuation byte. *)
Definition is_cont (c : ascii) : bool := in_range 128 191 c.

(** [replace("", rep)]: before every character and at the end. *)
Fixpoint replace_empty (rep s : string) : string :=
  match s with
  | "" => rep
  | String c s' =>
      if is_cont c then String c (replace_empty rep s')
      else rep +:+ String c (replace_empty rep s')
  end.

Definition replace (s pat rep : string) : string :=
  match pat with
  | "" => replace_empty rep s
  | _ => replace_from pat rep 0 s
  end.
#[global] Arguments replace : simpl never.

(** ** Trimming *)

Definition is_ascii_ws (c : ascii) : bool := in_range 9 13 c || bool_decide (code c = 32%N).
(** The two- and three-byte encodings of Unicode white space. *)
Definition is_ws2 (a b : ascii) : bool :=
  bool_decide (code a = 194%N) && bool_decide (code b = 133%N ∨ code b = 160%N).
Definition is_ws3 (a b c : ascii) : bool :=
  match code a, code b with
  | 225%N, 154%N => bool_decide (code c = 128%N)
  | 226%N, 128%N => in_range 128 138 c || in_range 168 169 c || bool_decide (code c = 175%N)
  | 226%N, 129%N => bool_decide (code c = 159%N)
  | 227%N, 128%N => bool_decide (code c = 128%N)
  | _, _ => false
  end.

Fixpoint trim_start (s : string) : string :=
  match s with
  | String a s1 =>
      if is_ascii_ws a then trim_start s1
      else match s1 with
           | String b s2 =>
               if is_ws2 a b then trim_start s2
               else match s2 with
                    | String c s3 => if is_ws3 a b c then trim_start s3 else s
                    | "" => s
                    end
           | "" => s
           end
  | "" => ""
  end.

(** Drops the longest suffix made of white space only. *)
Fixpoint trim_end (s : string) : string :=
  if decide (trim_start s = "") then ""
  else match s with
       | "" => ""
       | String c s' => String c (trim_end s')
       end.

Definition trim (s : string) : string := trim_end (trim_start s).

Fixpoint trim_start_matches (c : ascii) (s : string) : string :=
  match s with
  | String a s' => if decide (a = c) then trim_start_matches c s' else s
  | "" => ""
  end.

(** [trim_start_matches(&str)] for a two-byte pattern. *)
Fixpoint trim_start_matches2 (a b : ascii) (s : string) : string :=
  match s with
  | String x (String y s') =>
      if decide (x = a ∧ y = b) then trim_start_matches2 a b s' else s
  | _ => s
  end.

(** [trim_end_matches] for a set of characters. *)
Fixpoint trim_end_matches (f : ascii → bool) (s : string) : string :=
  match s with
  | "" => ""
  | String a s' =>
      let t := trim_end_matches f s' in
      if f a && bool_decide (t = "") then "" else String a t
  end.

Fixpoint trim_start_set (f : ascii → bool) (s : string) : string :=
  match s with
  | String a s' => if f a then trim_start_set f s' else s
  | "" => ""
  end.

(** [trim_matches] for a set of characters. *)
Definition trim_matches (f : ascii → bool) (s : string) : string :=
  trim_end_matches f (trim_start_set f s).

(** ** Paths (Unix) *)

Definition is_absolute (p : string) : bool := starts_with "/" p.

(** [Path::join]: an absolute second path replaces the first. *)
Definition path_join (a b : string) : string :=
  if is_absolute b then b
  else if bool_decide (a = "") then b
  else if ends_with "/" a then a +:+ b
  else a +:+ "/" +:+ b.

(** ** Lines and words *)

(** [str::lines]: the lines that end in a newline lose it and one carriage return before
    it; what follows the last newline is a line if it is not empty. *)
Fixpoint terminated_lines (l : list string) : list string :=
  match l with
  | [] => []
  | [last] => if decide (last = "") then [] else [last]
  | x :: l => match strip_suffix "013" x with Some y => y | None => x end :: terminated_lines l
  end.

Definition lines (s : string) : list string := terminated_lines (split "010" s).

(** [split_whitespace]: the maximal runs between white space, in order; [cur] is the run read
    so far. *)
Definition push_word (cur : string) (l : list string) : list string :=
  if decide (cur = "") then l else cur :: l.

Fixpoint words_from (cur s : string) : list string :=
  match s with
  | "" => push_word cur []
  | String a s1 =>
      if is_ascii_ws a then push_word cur (words_from "" s1)
      else match s1 with
           | String b s2 =>
               if is_ws2 a b then push_word cur (words_from "" s2)
               else match s2 with
                    | String c s3 =>
                        if is_ws3 a b c then push_word cur (words_from "" s3)
                        else words_from (cur +:+ chr a) s1
                    | "" => words_from (cur +:+ chr a) s1
                    end
           | "" => words_from (cur +:+ chr a) s1
           end
  end.

Definition split_whitespace (s : string) : list string := words_from "" s.

(** ** Joining, ordering, parsing numbers *)

Definition join (sep : string) (l : list string) : string := String.concat sep l.

(** [Ord for str]: bytewise. *)
Definition str_leb (a b : string) : bool := String.leb a b.

Definition sort_strings (l : list string) : list string := sort_by str_leb l.

Definition digit_val (c : ascii) : N := (code c - 48)%N.

Fixpoint digits_value (acc : N) (s : string) : option N :=
  match s with
  | "" => Some acc
  | String c s => if is_digit c then digits_value (10 * acc + digit_val c) s else None
  end.

Definition parse_digits (s : string) : option N :=
  match s with
  | "" => None
  | _ => digits_value 0 s
  end.

(** [str::parse] for an unsigned type with the given maximum: one leading [+] allowed. *)
Definition parse_unsigned (max : N) (s : string) : option N :=
  let body := match s with String "+" r => r | _ => s end in
  match parse_digits body with
  | Some n => if (n <=? max)%N then Some n else None
  | None => None
  end.

Definition parse_i64 (s : string) : option Z :=
  let '(neg, body) := match s with
                      | String "-" r => (true, r)
                      | String "+" r => (false, r)
                      | _ => (false, s)
                      end in
  match parse_digits body with
  | Some n =>
      let z := if neg : bool then Z.opp (Z.of_N n) else Z.of_N n in
      if ((i64_min <=? z) && (z <=? i64_max))%Z then Some z else None
  | None => None
  end.

(** A run of decimal digits: its length and what follows it. *)
Fixpoint skip_digits (s : string) : nat * string :=
  match s with
  | String c s' => if is_digit c then let '(n, r) := skip_digits s' in (S n, r) else (0, s)
  | "" => (0, "")
  end.

Definition skip_sign (s : string) : string :=
  match s with
  | String "+" r | String "-" r => r
  | _ => s
  end.

(** The decimal grammar of [f64::from_str]: digits, an optional fraction, an optional
    exponent; at least one digit in the mantissa. *)
Definition is_f64_decimal (s : string) : bool :=
  let '(n1, r1) := skip_digits s in
  let '(n2, r2) := match r1 with
                   | String "." r => skip_digits r
                   | _ => (0, r1)
                   end in
  match n1 + n2 with
  | O => false
  | S _ =>
      match r2 with
      | "" => true
      | String "e" r | String "E" r =>
          let '(n3, r3) := skip_digits (skip_sign r) in
          bool_decide (n3 ≠ 0) && bool_decide (r3 = "")
      | _ => false
      end
  end.

(** [s.parse::<f64>().is_ok()]. *)
Definition parses_as_f64 (s : string) : bool :=
  let body := skip_sign s in
  is_f64_decimal body
  || (eq_ignore_ascii_case body "nan" || eq_ignore_ascii_case body "inf"
      || eq_ignore_ascii_case body "infinity").

(** [format!("{n}")] for an unsigned integer. *)
Definition show_N (n : N) : string := pretty n.
Definition show_Z (z : Z) : string := pretty z.

(** ** Lemmas *)

Lemma app_nil_l' s : "" +:+ s = s.
Proof. reflexivity. Qed.
Lemma app_cons' c a b : String c a +:+ b = String c (a +:+ b).
Proof. reflexivity. Qed.
Lemma app_nil_r' s : s +:+ "" = s.
Proof. induction s; [done|]. by rewrite app_cons', IHs. Qed.
Lemma app_assoc' a b c : (a +:+ b) +:+ c = a +:+ b +:+ c.
Proof. induction a; [done|]. by rewrite !app_cons', IHa. Qed.
Lemma length_app' a b : String.length (a +:+ b) = String.length a + String.length b.
Proof. induction a; [done|]. rewrite app_cons'. simpl. by rewrite IHa. Qed.

Create Rewrite HintDb str.
#[export] Hint Rewrite app_nil_l' app_cons' app_nil_r' app_assoc' length_app' : str.
Ltac str_simpl := autorewrite with str in *; simpl in *.

Lemma app_inj_l a b c : a +:+ b = a +:+ c → b = c.
Proof. induction a; [done|]. rewrite !app_cons'. intros [= ?]. auto. Qed.

Lemma app_inj_r a b c : a +:+ c = b +:+ c → a = b.
Proof.
  assert (Hlen : ∀ s t, String.length (s +:+ t) = (String.length s + String.length t)%nat).
  { intros s t. induction s as [|x s IH]; [done|]. rewrite app_cons'. simpl. by rewrite IH. }
  revert b; induction a as [|x a IH]; intros [|y b]; rewrite ?app_cons', ?app_nil_l'; [done| | |].
  - intros H%(f_equal String.length). simpl in H. rewrite Hlen in H. lia.
  - intros H%(f_equal String.length). simpl in H. rewrite Hlen in H. lia.
  - intros [= -> H]. f_equal. by apply IH.
Qed.

Lemma strip_prefix_some pat s r : strip_prefix pat s = Some r ↔ s = pat +:+ r.
Proof.
  revert s; induction pat as [|p pat IH]; intros s; simpl.
  { rewrite app_nil_l'. naive_solver. }
  rewrite app_cons'. destruct s as [|c s]; [split; discriminate|].
  case_decide as Hd; [subst; rewrite IH; split; [intros ->|intros [= ->]]; done|].
  split; [done|]. intros [= ??]; congruence.
Qed.

Lemma strip_prefix_app pat r : strip_prefix pat (pat +:+ r) = Some r.
Proof. by apply strip_prefix_some. Qed.

Lemma strip_suffix_some pat s r : strip_suffix pat s = Some r → s = r +:+ pat.
Proof.
  revert r; induction s as [|c s IH]; intros r; simpl; case_decide; try (intros [= <-]; by subst).
  destruct (strip_suffix pat s) as [r'|]; [|discriminate].
  intros [= <-]. rewrite app_cons'. f_equal. by apply IH.
Qed.

Lemma strip_suffix_is_some pat r : is_Some (strip_suffix pat (r +:+ pat)).
Proof.
  induction r as [|c r IH].
  - rewrite app_nil_l'. destruct pat; [by eexists|]. simpl. rewrite decide_True by done. eauto.
  - rewrite app_cons'. simpl. case_decide; [eauto|].
    destruct IH as [x ->]. eauto.
Qed.

Lemma ends_with_true pat s : ends_with pat s = true ↔ ∃ r, s = r +:+ pat.
Proof.
  unfold ends_with. rewrite bool_decide_eq_true. split.
  - intros [r Hr]. exists r. by apply strip_suffix_some.
  - intros [r ->]. apply strip_suffix_is_some.
Qed.

Lemma starts_with_true pat s : starts_with pat s = true ↔ ∃ r, s = pat +:+ r.
Proof.
  unfold starts_with. rewrite bool_decide_eq_true. unfold is_Some.
  by setoid_rewrite strip_prefix_some.
Qed.

Lemma contains_chr_app c a b : contains_chr c (a +:+ b) = contains_chr c a || contains_chr c b.
Proof. induction a; [done|]. rewrite app_cons'. simpl. by rewrite IHa, orb_assoc. Qed.

Lemma split_once_some c s l r :
  split_once c s = Some (l, r) ↔ s = l +:+ String c r ∧ contains_chr c l = false.
Proof.
  revert l; induction s as [|a s IH]; intros l; simpl.
  { split; [done|]. intros [H _]. by destruct l. }
  case_decide as Hd.
  - subst a. split; [intros [= <- <-]; done|]. intros [H Hc].
    destruct l as [|b l]; [rewrite app_nil_l' in H; naive_solver|].
    rewrite app_cons' in H. simplify_eq/=. by rewrite bool_decide_eq_true_2 in Hc.
  - assert (∀ l, String a s = l +:+ String c r ∧ contains_chr c l = false ↔
      ∃ l', l = String a l' ∧ s = l' +:+ String c r ∧ contains_chr c l' = false) as ->.
    { intros l0. split.
      - intros [H Hc]. destruct l0 as [|b l0]; rewrite ?app_nil_l', ?app_cons' in H;
          injection H as -> H; [done|]. simpl in Hc.
        apply orb_false_iff in Hc as [_ Hc]. eauto.
      - intros (l' & -> & -> & Hc). simpl. by rewrite app_cons', bool_decide_eq_false_2. }
    setoid_rewrite <-IH. destruct (split_once c s) as [[l' r']|]; split.
    + intros [= <- <-]. eauto.
    + by intros (? & -> & [= -> ->]).
    + done.
    + by intros (? & _ & ?).
Qed.

Lemma split_once_none c s : split_once c s = None ↔ contains_chr c s = false.
Proof.
  induction s as [|a s IH]; simpl; [done|].
  case_decide; [subst; by rewrite bool_decide_eq_true_2|].
  rewrite bool_decide_eq_false_2 by done. simpl.
  destruct (split_once c s) as [[]|]; naive_solver.
Qed.

Lemma split_once_str_sound pat s l r :
  split_once_str pat s = Some (l, r) → s = l +:+ pat +:+ r.
Proof.
  revert l; induction s as [|a s IH]; intros l H; simpl in H.
  - destruct (strip_prefix pat "") eqn:E; [|done]. apply strip_prefix_some in E.
    injection H as <- <-. by rewrite app_nil_l'.
  - destruct (strip_prefix pat (String a s)) eqn:E.
    { apply strip_prefix_some in E. by injection H as <- <-. }
    destruct (split_once_str pat s) as [[l' r']|]; [|done].
    injection H as <- <-. rewrite app_cons'. f_equal. by apply IH.
Qed.

Lemma split_once_length c s l r :
  split_once c s = Some (l, r) → String.length r < String.length s.
Proof. intros [-> _]%split_once_some. str_simpl. lia. Qed.

Lemma split_once_str_length pat s l r :
  pat ≠ "" → split_once_str pat s = Some (l, r) → String.length r < String.length s.
Proof.
  intros Hp ->%split_once_str_sound. destruct pat; [done|]. str_simpl. lia.
Qed.

Lemma split_nonempty c s : split c s ≠ [].
Proof. destruct s; simpl; [done|]. case_decide; [done|]. by destruct (split c s). Qed.

Lemma split_join c s : join (chr c) (split c s) = s.
Proof.
  induction s as [|a s IH]; [done|]. simpl.
  pose proof (split_nonempty c s) as Hne.
  case_decide; [subst|]; destruct (split c s) as [|x l] eqn:E; try done; simpl in *.
  - by rewrite IH.
  - destruct l; simpl in *; rewrite ?app_cons'; by rewrite IH.
Qed.

(** The pieces of [split], one separator at a time. *)
Lemma split_unfold c s :
  split c s = match split_once c s with
              | Some (l, r) => l :: split c r
              | None => [s]
              end.
Proof.
  induction s as [|a s IH]; [done|]. simpl. case_decide; [done|].
  rewrite IH. by destruct (split_once c s) as [[l r]|].
Qed.

Lemma split_no_sep c s x : x ∈ split c s → contains_chr c x = false.
Proof.
  revert x. induction s as [|a s IH]; intros x; simpl.
  { by intros ->%list_elem_of_singleton. }
  case_decide as Hd.
  - intros [->|?]%elem_of_cons; auto.
  - pose proof (split_nonempty c s). destruct (split c s) as [|y l]; [done|].
    intros [->|Hx]%elem_of_cons; [|apply IH; by right].
    simpl. rewrite bool_decide_eq_false_2 by done. apply IH. left.
Qed.

Lemma split_once_of_split c s x l : split c s = x :: l → l ≠ [] →
  split_once c s = Some (x, join (chr c) l).
Proof.
  rewrite split_unfold. destruct (split_once c s) as [[a b]|]; [|by intros [= _ <-]].
  intros [= -> <-] _. by rewrite split_join.
Qed.

(** ** The order of strings *)

Lemma str_leb_total x y : str_leb x y = true ∨ str_leb y x = true.
Proof.
  unfold str_leb, String.leb. rewrite (String.compare_antisym y x).
  destruct (String.compare x y); simpl; auto.
Qed.

Lemma str_leb_cons a b x y :
  str_leb (String a x) (String b y) = true ↔
  (N_of_ascii a < N_of_ascii b)%N ∨ (a = b ∧ str_leb x y = true).
Proof.
  unfold str_leb, String.leb. simpl. unfold Ascii.compare.
  destruct (N.compare_spec (N_of_ascii a) (N_of_ascii b)) as [H|H|H].
  - assert (a = b) as -> by (rewrite <-(ascii_N_embedding a), <-(ascii_N_embedding b); congruence).
    split; [by right|]. intros [?|[_ ?]]; [lia|done].
  - split; [by left|done].
  - split; [done|]. intros [?|[-> _]]; lia.
Qed.

Lemma str_leb_trans x y z : str_leb x y = true → str_leb y z = true → str_leb x z = true.
Proof.
  revert y z. induction x as [|a x IH]; intros y z; [by destruct z|].
  destruct y as [|b y]; [done|]. destruct z as [|d z]; [done|].
  rewrite !str_leb_cons. intros [?|[-> H1]] [?|[-> H2]]; [left; lia|by left|by left|right].
  split; [done|]. by eapply IH.
Qed.

Lemma str_leb_antisym x y : str_leb x y = true → str_leb y x = true → x = y.
Proof.
  revert y. induction x as [|a x IH]; intros [|b y]; try done.
  rewrite !str_leb_cons. intros [?|[-> H1]] [?|[? H2]]; try lia; [by subst; lia|].
  f_equal. by apply IH.
Qed.
