(* ===== verification/SemTypes.v ===== *)
(** * Semantic-layer data ([crates/pawrly-core/src/semantic.rs], [safety.rs], [schema.rs],
    [error.rs])
    Models, dimensions, measures, metrics, the structured query, and the grain lattice.
    Durations are nanosecond counts; [HashMap] is [gmap]. *)

From S2P Require Export RustStr.

(** ** [TableName] *)

Record TableName := mkTableName { tn_schema : string; tn_table : string }.

#[export] Instance TableName_eq_dec : EqDecision TableName.
Proof. solve_decision. Defined.
#[export] Instance TableName_countable : Countable TableName.
Proof.
  apply (inj_countable' (λ t, (tn_schema t, tn_table t)) (λ p, mkTableName p.1 p.2)).
  by intros [].
Defined.

Definition TableName_parse (s : string) : option TableName :=
  match split_once "." s with
  | None => None
  | Some (schema, table) =>
      if bool_decide (schema = "") || bool_decide (table = "") then None
      else Some (mkTableName schema table)
  end.

Definition TableName_display (t : TableName) : string := tn_schema t +:+ "." +:+ tn_table t.

(** ** Cache policy ([crates/pawrly-core/src/cache.rs]) *)

(** [CachePolicy]; durations are nanoseconds. *)
Inductive CachePolicy :=
| PolicyNone
| PolicyTtl (ttl : N)
| PolicyRefresh (every : N)
| PolicyCron (cron : string)
| PolicyAppend (cursor_column : string).

Definition refresh_interval (p : CachePolicy) : option N :=
  match p with
  | PolicyRefresh every => Some every
  | _ => None
  end.

Definition caches (p : CachePolicy) : bool :=
  match p with
  | PolicyNone => false
  | _ => true
  end.

(** ** Safety policy and errors *)

Record SafetyPolicy := {
  sp_require_filters_on : list string;
  sp_require_at_least_one_filter : bool;
  sp_max_rows : option N;
  sp_max_pages : option N;
  sp_timeout : option N;
  sp_required_predicates : list string
}.

Definition SafetyPolicy_permissive : SafetyPolicy :=
  {| sp_require_filters_on := []; sp_require_at_least_one_filter := false;
     sp_max_rows := None; sp_max_pages := None; sp_timeout := None;
     sp_required_predicates := [] |}.

Definition SafetyPolicy_raw_http : SafetyPolicy :=
  {| sp_require_filters_on := ["request_path"]; sp_require_at_least_one_filter := true;
     sp_max_rows := None; sp_max_pages := None; sp_timeout := None;
     sp_required_predicates := [] |}.

Inductive SafetyError :=
| MissingRequiredFilter (table column : string)
| NoFilters (table : string)
| TooManyRows (table : string) (max_rows : N)
| TooManyPages (table : string) (max_pages : N)
| UnboundParam (table name : string)
| PredicateUnsatisfied (table predicate reason : string).

(** The [Display] of [SafetyError]. *)
Definition SafetyError_display (e : SafetyError) : string :=
  match e with
  | MissingRequiredFilter table column =>
      "refusing to scan `" +:+ table +:+ "` without a filter on `" +:+ column +:+ "`"
  | NoFilters table => "refusing to scan `" +:+ table +:+ "` without any filter"
  | TooManyRows table max_rows =>
      "refusing to scan `" +:+ table +:+ "`: would return more than " +:+ show_N max_rows
      +:+ " rows"
  | TooManyPages table max_pages =>
      "refusing to scan `" +:+ table +:+ "`: would page more than " +:+ show_N max_pages
      +:+ " times. A top-level ORDER BY, GROUP BY, or aggregate forces the whole feed to be paged because the LIMIT can no longer push into the scan. Drop the outer sort and rely on the source's default order, or bound the scan first: SELECT ... FROM (SELECT * FROM "
      +:+ table +:+ " LIMIT 200) t ORDER BY ..."
  | UnboundParam table name =>
      "refusing to scan `" +:+ table +:+ "`: required predicate references unbound param `"
      +:+ name +:+ "`"
  | PredicateUnsatisfied table predicate reason =>
      "refusing to scan `" +:+ table +:+ "`: required predicate `" +:+ predicate
      +:+ "` could not be applied: " +:+ reason
  end.

(** ** Grains *)

Inductive TimeGrain := Hour | Day | Week | Month | Quarter | Year.
#[export] Instance TimeGrain_eq_dec : EqDecision TimeGrain.
Proof. solve_decision. Defined.

Definition TimeGrain_as_str (g : TimeGrain) : string :=
  match g with
  | Hour => "hour" | Day => "day" | Week => "week"
  | Month => "month" | Quarter => "quarter" | Year => "year"
  end.

Definition TimeGrain_parse (s : string) : option TimeGrain :=
  if decide (s = "hour") then Some Hour
  else if decide (s = "day") then Some Day
  else if decide (s = "week") then Some Week
  else if decide (s = "month") then Some Month
  else if decide (s = "quarter") then Some Quarter
  else if decide (s = "year") then Some Year
  else None.

Definition TimeGrain_rank (g : TimeGrain) : nat :=
  match g with Hour => 0 | Day => 1 | Week => 2 | Month => 3 | Quarter => 4 | Year => 5 end.

Definition can_roll_up_to (self coarser : TimeGrain) : bool :=
  if decide (self = coarser) then true
  else match self with
       | Hour => true
       | Day => match coarser with Week | Month | Quarter | Year => true | _ => false end
       | Week => false
       | Month => match coarser with Quarter | Year => true | _ => false end
       | Quarter => match coarser with Year => true | _ => false end
       | Year => false
       end.

(** ** Models *)

Inductive RelationshipKind := ManyToOne | OneToMany | OneToOne.
#[export] Instance RelationshipKind_eq_dec : EqDecision RelationshipKind.
Proof. solve_decision. Defined.

Definition join_kind (k : RelationshipKind) : string :=
  match k with
  | OneToMany => "LEFT"
  | ManyToOne | OneToOne => "INNER"
  end.

Record Relationship := {
  rel_name : string;
  rel_kind : RelationshipKind;
  rel_target_model : string;
  rel_join_predicate : string
}.

Record PreAggregation := {
  pre_name : string;
  pre_dimensions : list string;
  pre_measures : list string;
  pre_refresh : option N;
  pre_partition_by : option string
}.

Inductive DimensionType := DTString | DTNumber | DTTime | DTBool.
#[export] Instance DimensionType_eq_dec : EqDecision DimensionType.
Proof. solve_decision. Defined.

Record Dimension := {
  dim_name : string;
  dim_expr : string;
  dim_data_type : DimensionType;
  dim_time_grains : list TimeGrain;
  dim_description : option string
}.

Inductive MeasureAgg :=
| AggSum | AggCount | AggCountDistinct | AggAvg | AggMin | AggMax
| AggCustom (sql : string).

Definition MeasureAgg_label (a : MeasureAgg) : string :=
  match a with
  | AggSum => "sum" | AggCount => "count" | AggCountDistinct => "count_distinct"
  | AggAvg => "avg" | AggMin => "min" | AggMax => "max" | AggCustom _ => "custom"
  end.

Record Measure := {
  mea_name : string;
  mea_agg : MeasureAgg;
  mea_expr : string;
  mea_filters : list string;
  mea_format : option string;
  mea_description : option string
}.

Inductive FilterOp :=
| OpEquals | OpNotEquals | OpIn | OpNotIn | OpGt | OpGte | OpLt | OpLte | OpInRange
| OpContains | OpStartsWith | OpEndsWith | OpIsNull | OpIsNotNull.

Record SemanticFilter := {
  sf_member : string;
  sf_op : FilterOp;
  sf_values : list string
}.

Record Segment := {
  seg_name : string;
  seg_description : option string;
  seg_filters : list SemanticFilter
}.

Record SemanticModel := {
  sm_name : string;
  sm_description : option string;
  sm_source : string;
  sm_primary_key : list string;
  sm_dimensions : list Dimension;
  sm_measures : list Measure;
  sm_relationships : list Relationship;
  sm_pre_aggregations : list PreAggregation;
  sm_segments : list Segment;
  sm_safety : option SafetyPolicy
}.

(** ** The query *)

Inductive OrderDir := Asc | Desc.

Record SemanticOrder := { so_member : string; so_direction : OrderDir }.

Record SemanticQuery := {
  q_measures : list string;
  q_dimensions : list string;
  q_filters : list SemanticFilter;
  q_segments : list string;
  q_order_by : list SemanticOrder;
  q_limit : option N;
  q_time_zone : option string;
  q_params : gmap string string
}.

Record SemanticModelInfo := {
  info_name : string;
  info_description : option string;
  info_source : string;
  info_dimension_count : N;
  info_measure_count : N
}.

Record SemanticModelDescription := {
  desc_name : string;
  desc_description : option string;
  desc_source : string;
  desc_primary_key : list string;
  desc_dimensions : list Dimension;
  desc_measures : list Measure;
  desc_relationships : list Relationship;
  desc_segments : list Segment
}.

(** ** Theorems *)

Lemma TimeGrain_parse_as_str g : TimeGrain_parse (TimeGrain_as_str g) = Some g.
Proof. by destruct g. Qed.

Lemma TimeGrain_parse_some s g : TimeGrain_parse s = Some g → s = TimeGrain_as_str g.
Proof. unfold TimeGrain_parse. repeat case_decide; naive_solver. Qed.

Lemma TimeName_parse_display t :
  tn_schema t ≠ "" → tn_table t ≠ "" → contains_chr "." (tn_schema t) = false →
  TableName_parse (TableName_display t) = Some t.
Proof.
  intros H1 H2 H3. unfold TableName_parse, TableName_display.
  rewrite (proj2 (split_once_some "." _ (tn_schema t) (tn_table t))) by done.
  rewrite !bool_decide_eq_false_2 by done. by destruct t.
Qed.

Lemma can_roll_up_to_refl g : can_roll_up_to g g = true.
Proof. by destruct g. Qed.
Lemma can_roll_up_to_trans a b c :
  can_roll_up_to a b = true → can_roll_up_to b c = true → can_roll_up_to a c = true.
Proof. by destruct a, b, c. Qed.
Lemma can_roll_up_to_antisym a b :
  can_roll_up_to a b = true → can_roll_up_to b a = true → a = b.
Proof. by destruct a, b. Qed.
Lemma can_roll_up_to_rank a b :
  can_roll_up_to a b = true → TimeGrain_rank a ≤ TimeGrain_rank b.
Proof. destruct a, b; simpl; try done; lia. Qed.
