(* ===== verification/Template.v ===== *)
(** * Placeholder templates
    The sources scan [open … "}"] placeholders with a [while let Some(_) = rest.find(open)]
    loop in three places. This file gives the shape of such a text once: a list of
    (literal text, placeholder body) segments and a tail, so the loops' theorems can be
    stated over segments. *)

From S2P Require Export RustStr.

Inductive tail :=
| Closed (text : string)        (* no further placeholder opens *)
| Unterminated (text body : string).  (* one opens and never closes *)

Section template.
Context (open : string).

Fixpoint scan_fuel (fuel : nat) (s : string) : list (string * string) * tail :=
  match fuel with
  | O => ([], Closed s)
  | S fuel =>
      match split_once_str open s with
      | None => ([], Closed s)
      | Some (text, after) =>
          match split_once "}" after with
          | None => ([], Unterminated text after)
          | Some (body, rest) =>
              let '(segs, t) := scan_fuel fuel rest in ((text, body) :: segs, t)
          end
      end
  end.

Definition scan (s : string) : list (string * string) * tail :=
  scan_fuel (S (String.length s)) s.

Definition render_tail (t : tail) : string :=
  match t with
  | Closed text => text
  | Unterminated text body => text +:+ open +:+ body
  end.

Definition render (segs : list (string * string)) (t : tail) : string :=
  foldr (λ seg acc, seg.1 +:+ open +:+ seg.2 +:+ "}" +:+ acc) (render_tail t) segs.

Context (open_nonempty : open ≠ "").

Lemma scan_fuel_enough n m s :
  String.length s < n → String.length s < m → scan_fuel n s = scan_fuel m s.
Proof using open_nonempty.
  revert m s; induction n as [|n IH]; intros [|m] s Hn Hm; try lia. simpl.
  destruct (split_once_str open s) as [[text after]|] eqn:E1; [|done].
  destruct (split_once "}" after) as [[body rest]|] eqn:E2; [|done].
  apply split_once_str_length in E1; [|done]. apply split_once_length in E2.
  rewrite (IH m rest); [done|lia..].
Qed.

(** The loop's equation, with no fuel in it. *)
Lemma scan_unfold s :
  scan s = match split_once_str open s with
           | None => ([], Closed s)
           | Some (text, after) =>
               match split_once "}" after with
               | None => ([], Unterminated text after)
               | Some (body, rest) =>
                   let '(segs, t) := scan rest in ((text, body) :: segs, t)
               end
           end.
Proof using open_nonempty.
  unfold scan at 1. simpl.
  destruct (split_once_str open s) as [[text after]|] eqn:E1; [|done].
  destruct (split_once "}" after) as [[body rest]|] eqn:E2; [|done].
  apply split_once_str_length in E1; [|done]. apply split_once_length in E2.
  unfold scan. rewrite (scan_fuel_enough _ (S (String.length rest))); [done|lia..].
Qed.

(** Induction along the placeholders of a text. *)
Lemma scan_ind (P : string → list (string * string) → tail → Prop) :
  (∀ s, split_once_str open s = None → P s [] (Closed s)) →
  (∀ s text after, split_once_str open s = Some (text, after) →
     split_once "}" after = None → P s [] (Unterminated text after)) →
  (∀ s text after body rest segs t, split_once_str open s = Some (text, after) →
     split_once "}" after = Some (body, rest) → scan rest = (segs, t) → P rest segs t →
     P s ((text, body) :: segs) t) →
  ∀ s segs t, scan s = (segs, t) → P s segs t.
Proof using open_nonempty.
  intros H1 H2 H3 s. remember (S (String.length s)) as n eqn:Hn.
  assert (String.length s < n) as Hlt by lia. clear Hn. revert s Hlt.
  induction n as [|n IH]; intros s Hlt segs t; [lia|].
  rewrite scan_unfold.
  destruct (split_once_str open s) as [[text after]|] eqn:E1; [|by intros [= <- <-]; auto].
  destruct (split_once "}" after) as [[body rest]|] eqn:E2; [|by intros [= <- <-]; eauto].
  destruct (scan rest) as [segs' t'] eqn:E3. intros [= <- <-].
  pose proof (split_once_str_length _ _ _ _ open_nonempty E1).
  pose proof (split_once_length _ _ _ _ E2).
  eapply H3; eauto. apply IH; [lia|done].
Qed.

(** Scanning loses nothing: the segments render back to the text. *)
Lemma scan_render s segs t : scan s = (segs, t) → render segs t = s.
Proof using open_nonempty.
  revert s segs t. apply scan_ind.
  - done.
  - intros s text after H1 _. symmetry. by apply split_once_str_sound.
  - intros s text after body rest segs t H1 H2 _ IH. 
    change (render ((text, body) :: segs) t)
      with (text +:+ open +:+ body +:+ "}" +:+ render segs t). rewrite IH.
    apply split_once_str_sound in H1 as ->. apply split_once_some in H2 as [-> _].
    by rewrite ?app_cons', ?app_nil_l'.
Qed.

Lemma scan_bodies s segs t :
  scan s = (segs, t) → Forall (λ seg, contains_chr "}" seg.2 = false) segs.
Proof using open_nonempty.
  revert s segs t. apply scan_ind; [constructor..|].
  intros s text after body rest segs t _ [_ H2]%split_once_some _ IH. by constructor.
Qed.

Lemma scan_tail_closed s segs text :
  scan s = (segs, Closed text) → split_once_str open text = None.
Proof using open_nonempty.
  intros H.
  refine (scan_ind (λ _ _ t, ∀ text', t = Closed text' → split_once_str open text' = None)
            _ _ _ _ _ _ H _ eq_refl); naive_solver.
Qed.

(** [text] does not interfere with a placeholder that follows it. *)
Definition clean_text (text : string) : Prop :=
  ∀ r, split_once_str open (text +:+ open +:+ r) = Some (text, r).

(** ... and rendering clean segments scans back to them. *)
Lemma render_scan segs text :
  Forall (λ seg, clean_text seg.1 ∧ contains_chr "}" seg.2 = false) segs →
  split_once_str open text = None →
  scan (render segs (Closed text)) = (segs, Closed text).
Proof using open_nonempty.
  intros Hsegs Ht. induction Hsegs as [|[t b] segs [Hc Hb] _ IH]; rewrite scan_unfold.
  { unfold render; simpl. by rewrite Ht. }
  change (render ((t, b) :: segs) (Closed text))
    with (t +:+ open +:+ (b +:+ "}" +:+ render segs (Closed text))).
  simpl in Hc, Hb. rewrite Hc.
  rewrite (proj2 (split_once_some "}" _ b (render segs (Closed text)))) by done.
  by rewrite IH.
Qed.
End template.

Lemma split_once_str_chr c s : split_once_str (chr c) s = split_once c s.
Proof.
  induction s as [|a s IH]; [done|]. cbn -[chr]. rewrite IH. simpl.
  destruct (decide (c = a)), (decide (a = c)); try done; congruence.
Qed.

(** For a one-character [open], a text without that character is clean. *)
Lemma clean_text_chr c text : contains_chr c text = false → clean_text (chr c) text.
Proof. intros H r. rewrite split_once_str_chr. by apply split_once_some. Qed.

Lemma scan_texts_chr c s segs t :
  scan (chr c) s = (segs, t) → Forall (λ seg, contains_chr c seg.1 = false) segs.
Proof.
  revert s segs t. apply scan_ind; [done|constructor..|].
  intros s text after body rest segs t H _ _ IH. constructor; [|done].
  rewrite split_once_str_chr in H. by apply split_once_some in H as [_ ?].
Qed.
