(* ===== verification/MetricTypes.v ===== *)
(** * Metrics as data ([crates/pawrly-core/src/semantic.rs])
    The metric kinds, their configuration-file representations with the conversions
    that validate them, and the [{member | filter}] references of derived metrics. *)

From S2P Require Export SemTypes Template.

Record Operand := { op_member : string; op_filter : option string }.

Inductive WindowAgg := WSum | WAvg | WMin | WMax.
Definition WindowAgg_default : WindowAgg := WSum.

Inductive CumulativeWindow :=
| RunningTotal
| GrainToDate (grain : TimeGrain)
| Trailing (periods : N).
Definition CumulativeWindow_default : CumulativeWindow := RunningTotal.

Inductive OffsetOutput := OutValue | OutDelta | OutGrowth.
Definition OffsetOutput_default : OffsetOutput := OutValue.

Inductive MetricKind :=
| Ratio (numerator denominator : Operand)
| Derived (expr : string)
| Cumulative (measure : string) (window : CumulativeWindow) (agg : WindowAgg)
| Offset (measure : string) (periods : N) (output : OffsetOutput)
| Share (measure : string) (over : list string) (agg : WindowAgg).

Definition one : N := 1.

Definition MetricKind_label (k : MetricKind) : string :=
  match k with
  | Ratio _ _ => "ratio" | Derived _ => "derived" | Cumulative _ _ _ => "cumulative"
  | Offset _ _ _ => "offset" | Share _ _ _ => "share"
  end.

Record Metric := {
  met_name : string;
  met_description : option string;
  met_kind : MetricKind;
  met_filter : option string;
  met_format : option string
}.

Record TimeSpine := { ts_source : string; ts_column : string }.

(** ** References of a derived expression *)

Record DerivedToken := { tok_member : string; tok_filter : option string }.

(** [Some(f.trim().to_string()).filter(|s| !s.is_empty())]. *)
Definition non_empty (s : string) : option string := if decide (s = "") then None else Some s.

(** One [{…}] body split into its member and optional filter. *)
Definition token_body (body : string) : string * option string :=
  match split_once "|" body with
  | Some (m, f) => (trim m, non_empty (trim f))
  | None => (trim body, None)
  end.

(** The [while let Some(start) = rest.find('{')] loop; each round consumes input, so
    [S (length expr)] rounds are enough (see [derived_loop_unfold]). *)
Fixpoint derived_loop (fuel : nat) (expr rest : string) (tokens : list DerivedToken)
    : result string (list DerivedToken * string) :=
  match fuel with
  | O => Ok (tokens, rest)
  | S fuel =>
      match split_once "{" rest with
      | None => Ok (tokens, rest)
      | Some (_, after) =>
          match split_once "}" after with
          | None => Err ("unbalanced `{` in derived expr `" +:+ expr +:+ "`")
          | Some (body, rest') =>
              let '(member, filter) := token_body body in
              if decide (member = "")
              then Err ("empty `{}` reference in derived expr `" +:+ expr +:+ "`")
              else derived_loop fuel expr rest'
                     (tokens ++ [{| tok_member := member; tok_filter := filter |}])
          end
      end
  end.

Definition derived_tokens (expr : string) : result string (list DerivedToken) :=
  let? '(tokens, rest) := derived_loop (S (String.length expr)) expr expr [] in
  if contains_chr "}" rest then Err ("unbalanced `}` in derived expr `" +:+ expr +:+ "`")
  else match tokens with
       | [] => Err ("derived expr `" +:+ expr +:+ "` references no `{member}` token")
       | _ => Ok tokens
       end.

(** [Metric::references]. *)
Definition references (m : Metric) : result string (list (string * option string)) :=
  match met_kind m with
  | Ratio num den => Ok [(op_member num, op_filter num); (op_member den, op_filter den)]
  | Derived expr => rmap (map (λ t, (tok_member t, tok_filter t))) (derived_tokens expr)
  | Cumulative measure _ _ | Offset measure _ _ | Share measure _ _ => Ok [(measure, None)]
  end.

(** ** Configuration-file representations *)

Record RatioRepr := { rr_numerator : Operand; rr_denominator : Operand }.
Record DerivedRepr := { dr_expr : string }.
Record CumulativeRepr := {
  cr_measure : string; cr_window : CumulativeWindow; cr_agg : WindowAgg
}.
Record OffsetRepr := { or_measure : string; or_periods : N; or_output : OffsetOutput }.
Record ShareRepr := { sr_measure : string; sr_over : list string; sr_agg : WindowAgg }.

Record MetricKindRepr := {
  mk_ratio : option RatioRepr;
  mk_derived : option DerivedRepr;
  mk_cumulative : option CumulativeRepr;
  mk_offset : option OffsetRepr;
  mk_share : option ShareRepr
}.

Definition push_kind {R} (f : R → MetricKind) (o : option R) (kinds : list MetricKind)
    : list MetricKind :=
  match o with
  | Some k => kinds ++ [f k]
  | None => kinds
  end.

(** [impl TryFrom<MetricKindRepr> for MetricKind]. *)
Definition MetricKind_try_from (r : MetricKindRepr) : result string MetricKind :=
  let kinds := push_kind (λ k, Ratio (rr_numerator k) (rr_denominator k)) (mk_ratio r) [] in
  let kinds := push_kind (λ k, Derived (dr_expr k)) (mk_derived r) kinds in
  let kinds := push_kind (λ k, Cumulative (cr_measure k) (cr_window k) (cr_agg k))
                 (mk_cumulative r) kinds in
  let kinds := push_kind (λ k, Offset (or_measure k) (or_periods k) (or_output k))
                 (mk_offset r) kinds in
  let kinds := push_kind (λ k, Share (sr_measure k) (sr_over k) (sr_agg k))
                 (mk_share r) kinds in
  match kinds with
  | [kind] => Ok kind
  | _ => Err "`kind:` must set exactly one of `ratio`, `derived`, `cumulative`, `offset`, or `share`"
  end.

Inductive OperandRepr :=
| OperandMember (member : string)
| OperandFull (member : string) (filter : option string).

Definition Operand_from (r : OperandRepr) : Operand :=
  match r with
  | OperandMember member => {| op_member := member; op_filter := None |}
  | OperandFull member filter => {| op_member := member; op_filter := filter |}
  end.

Record GrainToDateRepr := { gr_grain : TimeGrain }.
Record TrailingRepr := { tr_periods : N }.
Inductive CumulativeWindowRepr :=
| WindowName (s : string)
| WindowMap (grain_to_date : option GrainToDateRepr) (trailing : option TrailingRepr).

(** [impl TryFrom<CumulativeWindowRepr> for CumulativeWindow]. *)
Definition CumulativeWindow_try_from (r : CumulativeWindowRepr)
    : result string CumulativeWindow :=
  match r with
  | WindowName s =>
      if decide (s = "running_total") then Ok RunningTotal
      else Err ("unknown window `" +:+ s
                +:+ "` (expected `running_total`, `grain_to_date`, or `trailing`)")
  | WindowMap (Some g) None => Ok (GrainToDate (gr_grain g))
  | WindowMap None (Some t) => Ok (Trailing (tr_periods t))
  | WindowMap _ _ => Err "`window:` must set exactly one of `grain_to_date` or `trailing`"
  end.

(** ** Theorems *)

Definition to_token (seg : string * string) : DerivedToken :=
  {| tok_member := (token_body seg.2).1; tok_filter := (token_body seg.2).2 |}.

(** The loop visits the segments of the expression, left to right. *)
Lemma derived_loop_scan expr fuel rest acc segs t :
  String.length rest < fuel → scan (chr "{") rest = (segs, t) →
  derived_loop fuel expr rest acc =
    let? toks := try_fold (λ acc seg,
        if decide ((token_body seg.2).1 = "")
        then Err ("empty `{}` reference in derived expr `" +:+ expr +:+ "`")
        else Ok (acc ++ [to_token seg])) acc segs in
    match t with
    | Closed text => Ok (toks, text)
    | Unterminated _ _ => Err ("unbalanced `{` in derived expr `" +:+ expr +:+ "`")
    end.
Proof.
  revert rest acc segs t. induction fuel as [|fuel IH]; intros rest acc segs t Hlt; [lia|].
  rewrite scan_unfold, split_once_str_chr by done. simpl.
  destruct (split_once "{" rest) as [[text after]|] eqn:E1; [|by intros [= <- <-]].
  destruct (split_once "}" after) as [[body rest']|] eqn:E2; [|by intros [= <- <-]].
  destruct (scan (chr "{") rest') as [segs' t'] eqn:E3. intros [= <- <-].
  apply split_once_length in E1, E2. simpl.
  unfold to_token; simpl. destruct (token_body body) as [m f]; simpl.
  case_decide; [done|]. simpl. by apply IH; [lia|].
Qed.

Lemma token_fold_ok {E} (e : E) segs acc toks :
  try_fold (λ acc seg, if decide ((token_body seg.2).1 = "") then Err e
                       else Ok (acc ++ [to_token seg])) acc segs = Ok toks ↔
  Forall (λ seg, (token_body seg.2).1 ≠ "") segs ∧ toks = acc ++ map to_token segs.
Proof.
  revert acc; induction segs as [|seg segs IH]; intros acc; simpl.
  { rewrite app_nil_r. naive_solver. }
  rewrite Forall_cons. case_decide; simpl; [naive_solver|].
  rewrite IH, <-app_assoc. naive_solver.
Qed.

(** A text of brace-free fragments and placeholder bodies, ending in [text]. *)
Definition well_formed_segs (segs : list (string * string)) (text : string) : Prop :=
  Forall (λ seg, contains_chr "{" seg.1 = false ∧ contains_chr "}" seg.2 = false ∧
                 (token_body seg.2).1 ≠ "") segs ∧
  contains_chr "{" text = false ∧ contains_chr "}" text = false.

Lemma well_formed_scan segs text :
  well_formed_segs segs text →
  scan (chr "{") (render (chr "{") segs (Closed text)) = (segs, Closed text).
Proof.
  intros (Hsegs & Ht & _). apply render_scan; [done| |].
  - eapply Forall_impl; [exact Hsegs|]. intros [t b] (? & ? & _).
    split; [by apply clean_text_chr|done].
  - rewrite split_once_str_chr. by apply split_once_none.
Qed.

(** The tokens of a derived expression are exactly its placeholders. *)
Lemma derived_tokens_spec expr toks :
  derived_tokens expr = Ok toks ↔
  ∃ segs text, expr = render (chr "{") segs (Closed text) ∧ segs ≠ [] ∧
    well_formed_segs segs text ∧ toks = map to_token segs.
Proof.
  unfold derived_tokens. split.
  - destruct (scan (chr "{") expr) as [segs t] eqn:Hs.
    rewrite (derived_loop_scan _ _ _ _ segs t) by (done || lia). intros H. inv_ok.
    destruct t as [text|]; [|discriminate]. simplify_eq/=.
    destruct (contains_chr "}" text) eqn:Hc; [discriminate|].
    match goal with H : try_fold _ _ _ = Ok _ |- _ =>
      apply token_fold_ok in H as [Hne ->] end. simpl in H.
    exists segs, text. pose proof (scan_texts_chr _ _ _ _ Hs) as H1.
    pose proof (scan_bodies (chr "{") ltac:(done) _ _ _ Hs) as H2.
    apply scan_tail_closed in Hs as H3; [|done].
    rewrite split_once_str_chr, split_once_none in H3.
    apply scan_render in Hs; [|done]. split_and!; [done| | |].
    + by intros ->.
    + split; [|done]. apply Forall_forall. intros seg Hin.
      rewrite Forall_forall in H1, H2, Hne. auto.
    + destruct (map to_token segs); [discriminate|]. by injection H.
  - intros (segs & text & -> & Hne & Hwf & ->).
    pose proof (well_formed_scan _ _ Hwf) as Hs. destruct Hwf as (Hsegs & _ & Hc).
    rewrite (derived_loop_scan _ _ _ _ segs (Closed text)) by (done || lia).
    rewrite (proj2 (token_fold_ok _ segs [] (map to_token segs))).
    + simpl. rewrite Hc. by destruct segs.
    + split; [|done]. eapply Forall_impl; [exact Hsegs|]. naive_solver.
Qed.
