(* ===== verification/SqlText.v ===== *)
(** * SQL text fragments ([crates/pawrly-semantic/src/lib.rs], the free functions)
    Quoting, literals, filter predicates and [${param:NAME}] binding, with the lexical
    structure of the resulting SQL: which characters of a text lie inside string literals. *)

From S2P Require Export SemTypes Template.

Inductive SemanticError :=
| UnknownModel (name : string)
| UnknownMember (member : string)
| EmptyQuery
| AmbiguousRoot (roots : list string)
| UnreachableModel (root model : string)
| FanOut (measure via : string)
| DisconnectedMember (member : string)
| AmbiguousJoinPath (from to : string)
| UnknownSegment (segment : string)
| RelationshipCycle (model : string)
| UnknownRelationshipTarget (model rel target : string)
| InvalidGrain (dim grain : string)
| InvalidSource (model source_table : string)
| Safety (e : SafetyError)
| UnknownMetric (name : string)
| MetricCycle (name : string)
| MetricNeedsTimeGrain (metric : string)
| ShareDimNotGrouped (metric dim : string)
| Compile (msg : string).

(** ** Quoting *)

(** Quote a SQL identifier, doubling embedded double quotes. *)
Definition quote_ident (s : string) : string :=
  chr dquote +:+ replace s (chr dquote) (chr dquote +:+ chr dquote) +:+ chr dquote.

(** Quote a SQL string literal, doubling embedded single quotes. *)
Definition lit (s : string) : string :=
  chr squote +:+ replace s (chr squote) (chr squote +:+ chr squote) +:+ chr squote.

Definition is_some {A} (o : option A) : bool := match o with Some _ => true | None => false end.

Definition scalar_lit (s : string) (numeric : bool) : string :=
  if numeric && (is_some (parse_i64 s) || parses_as_f64 s) then s else lit s.

(** ** Filters *)

(** The closure [one] of [apply_op]. *)
Definition filter_one (f : SemanticFilter) : result SemanticError string :=
  match sf_values f with
  | v :: _ => Ok v
  | [] => Err (Compile ("filter on `" +:+ sf_member f +:+ "` requires a value"))
  end.

Definition apply_op (expr : string) (f : SemanticFilter) (numeric : bool)
    : result SemanticError string :=
  let v s := scalar_lit s numeric in
  let cmp op := let? s := filter_one f in Ok (expr +:+ op +:+ v s) in
  let in_list op :=
    match sf_values f with
    | [] => Err (Compile ("filter on `" +:+ sf_member f +:+ "` requires at least one value"))
    | vs => Ok (expr +:+ " " +:+ op +:+ " (" +:+ join ", " (map v vs) +:+ ")")
    end in
  match sf_op f with
  | OpEquals => cmp " = "
  | OpNotEquals => cmp " <> "
  | OpGt => cmp " > "
  | OpGte => cmp " >= "
  | OpLt => cmp " < "
  | OpLte => cmp " <= "
  | OpIn => in_list "IN"
  | OpNotIn => in_list "NOT IN"
  | OpInRange =>
      match sf_values f with
      | lo :: hi :: _ => Ok (expr +:+ " BETWEEN " +:+ v lo +:+ " AND " +:+ v hi)
      | _ => Err (Compile ("in_range filter on `" +:+ sf_member f +:+ "` requires two values"))
      end
  | OpContains => let? s := filter_one f in Ok (expr +:+ " LIKE " +:+ lit ("%" +:+ s +:+ "%"))
  | OpStartsWith => let? s := filter_one f in Ok (expr +:+ " LIKE " +:+ lit (s +:+ "%"))
  | OpEndsWith => let? s := filter_one f in Ok (expr +:+ " LIKE " +:+ lit ("%" +:+ s))
  | OpIsNull => Ok (expr +:+ " IS NULL")
  | OpIsNotNull => Ok (expr +:+ " IS NOT NULL")
  end.

Definition resolve_order (o : SemanticOrder) : string :=
  quote_ident (so_member o) +:+ " " +:+
  match so_direction o with Asc => "ASC" | Desc => "DESC" end.

(** ** Parameters *)

Definition OPEN : string := "${param:".

(** The [while let Some(start) = rest.find(OPEN)] loop; [S (length pred)] rounds suffice
    (see [bind_loop_scan]). *)
Fixpoint bind_loop (fuel : nat) (pred : string) (params : gmap string string)
    (model : string) (out rest : string) : result SafetyError string :=
  match fuel with
  | O => Ok (out +:+ rest)
  | S fuel =>
      match split_once_str OPEN rest with
      | None => Ok (out +:+ rest)
      | Some (text, after) =>
          match split_once "}" after with
          | None => Err (PredicateUnsatisfied model pred
                           "unterminated ${param:...} placeholder")
          | Some (name, rest') =>
              match params !! name with
              | None => Err (UnboundParam model name)
              | Some value =>
                  bind_loop fuel pred params model (out +:+ text +:+ lit value) rest'
              end
          end
      end
  end.

Definition bind_params (pred : string) (params : gmap string string) (model : string)
    : result SafetyError string :=
  bind_loop (S (String.length pred)) pred params model "" pred.

(** ** Members and expressions *)

(** The model prefix of a member ([orders] in [orders.revenue]). *)
Definition member_model (member : string) : result SemanticError string :=
  match split "." member with
  | x :: _ => if decide (x = "") then Err (UnknownMember member) else Ok x
  | [] => Err (UnknownMember member)
  end.

Definition dimension_of_member (member : string) : option string := split "." member !! 1.

(** The measure name of a two-part member. *)
Definition measure_member_name (member : string) : option string :=
  match split "." member with
  | [_; m] => Some m
  | _ => None
  end.

Definition is_bare_ident (s : string) : bool :=
  match s with
  | String c s' => (is_alpha c || bool_decide (c = "_"%char))
                   && all_chars (λ c, is_alnum c || bool_decide (c = "_"%char)) s'
  | "" => false
  end.

Definition qualify (expr : string) (alias : option string) : string :=
  match alias with
  | Some a => if is_bare_ident expr then a +:+ "." +:+ expr else expr
  | None => expr
  end.

Definition effective_limit (requested cap : option N) : option N :=
  match requested, cap with
  | Some l, Some c => Some (N.min l c)
  | Some l, None => Some l
  | None, cap => cap
  end.

(** ** Resolving members against a model *)

Definition find_dimension (model : SemanticModel) (name : string) : option Dimension :=
  List.find (λ d, bool_decide (dim_name d = name)) (sm_dimensions model).

Definition find_measure (model : SemanticModel) (name : string) : option Measure :=
  List.find (λ m, bool_decide (mea_name m = name)) (sm_measures model).

Definition member_is_measure (model : SemanticModel) (member : string) : bool :=
  match split "." member with
  | [_; m] => is_some (find_measure model m)
  | _ => false
  end.

Definition resolve_dimension_expr (model : SemanticModel) (member : string)
    (alias tz : option string) : result SemanticError string :=
  let? '(dim_nm, grain) :=
    match split "." member with
    | [_; dim] => Ok (dim, None)
    | [_; dim; grain] => Ok (dim, Some grain)
    | _ => Err (UnknownMember member)
    end in
  let? dim := ok_or (UnknownMember member) (find_dimension model dim_nm) in
  let base := qualify (dim_expr dim) alias in
  match grain with
  | None => Ok base
  | Some grain_str =>
      let? grain := ok_or (InvalidGrain dim_nm grain_str) (TimeGrain_parse grain_str) in
      if negb (bool_decide (dim_data_type dim = DTTime)) then Err (InvalidGrain dim_nm grain_str)
      else if negb (bool_decide (dim_time_grains dim = []))
              && negb (bool_decide (grain ∈ dim_time_grains dim))
      then Err (InvalidGrain dim_nm grain_str)
      else
        let trunc_input := match tz with
                           | Some zone => base +:+ " AT TIME ZONE " +:+ lit zone
                           | None => base
                           end in
        Ok ("DATE_TRUNC('" +:+ TimeGrain_as_str grain +:+ "', " +:+ trunc_input +:+ ")")
  end.

Definition agg_sql (m : Measure) (alias : option string) : string :=
  let col := qualify (mea_expr m) alias in
  let base := match mea_agg m with
              | AggSum => "SUM(" +:+ col +:+ ")"
              | AggCount => "COUNT(" +:+ col +:+ ")"
              | AggCountDistinct => "COUNT(DISTINCT " +:+ col +:+ ")"
              | AggAvg => "AVG(" +:+ col +:+ ")"
              | AggMin => "MIN(" +:+ col +:+ ")"
              | AggMax => "MAX(" +:+ col +:+ ")"
              | AggCustom sql => sql
              end in
  match mea_filters m with
  | [] => base
  | fs => base +:+ " FILTER (WHERE " +:+ join " AND " fs +:+ ")"
  end.

Definition resolve_measure_expr (model : SemanticModel) (member : string)
    (alias : option string) : result SemanticError string :=
  let? measure_name :=
    match split "." member with
    | [_; measure] => Ok measure
    | _ => Err (UnknownMember member)
    end in
  let? measure := ok_or (UnknownMember member) (find_measure model measure_name) in
  Ok (agg_sql measure alias).

Definition resolve_filter (model : SemanticModel) (f : SemanticFilter)
    (alias tz : option string) : result SemanticError string :=
  let? expr := resolve_dimension_expr model (sf_member f) alias tz in
  apply_op expr f false.

Definition resolve_measure_filter (model : SemanticModel) (f : SemanticFilter)
    (alias : option string) : result SemanticError string :=
  let? expr := resolve_measure_expr model (sf_member f) alias in
  apply_op expr f true.

(** ** Lexical structure of SQL text
    [lex] runs the quoting automaton of SQL over a text: outside quotes, inside a string
    literal, just after a quote inside one (closing it, or the first half of an escaped
    quote), inside a quoted identifier. It erases the contents of string literals, so two
    texts with equal [lex] differ in literal contents only. *)

Inductive lexmode := MCode | MStr | MQuote | MIdent.
#[export] Instance lexmode_eq_dec : EqDecision lexmode.
Proof. solve_decision. Defined.

Definition lex_code (c : ascii) : lexmode * string :=
  if decide (c = squote) then (MStr, chr c)
  else if decide (c = dquote) then (MIdent, chr c)
  else (MCode, chr c).

Definition lex_step (m : lexmode) (c : ascii) : lexmode * string :=
  match m with
  | MCode => lex_code c
  | MStr => if decide (c = squote) then (MQuote, "") else (MStr, "")
  | MQuote =>
      if decide (c = squote) then (MStr, "")
      else let '(m', e) := lex_code c in (m', chr squote +:+ e)
  | MIdent => if decide (c = dquote) then (MCode, chr c) else (MIdent, chr c)
  end.

Fixpoint lex (m : lexmode) (s : string) : lexmode * string :=
  match s with
  | "" => (m, "")
  | String c s => let '(m1, e1) := lex_step m c in
                  let '(m2, e2) := lex m1 s in (m2, e1 +:+ e2)
  end.

(** Every placeholder stands outside quotes and does not touch one. *)
Fixpoint well_placed (m : lexmode) (segs : list (string * string)) : bool :=
  match segs with
  | [] => true
  | (text, _) :: segs => bool_decide ((lex m text).1 = MCode) && well_placed MQuote segs
  end.

(** A SQL reader's view of a string literal: its value and the text after it. *)
Fixpoint read_body (s : string) : option (string * string) :=
  match s with
  | "" => None
  | String c s' =>
      if decide (c = squote)
      then match s' with
           | String d s'' =>
               if decide (d = squote)
               then match read_body s'' with
                    | Some (v, r) => Some (String squote v, r)
                    | None => None
                    end
               else Some ("", s')
           | "" => Some ("", "")
           end
      else match read_body s' with
           | Some (v, r) => Some (String c v, r)
           | None => None
           end
  end.

Definition read_lit (s : string) : option (string * string) :=
  match s with
  | String c s' => if decide (c = squote) then read_body s' else None
  | "" => None
  end.

(** ** Lemmas *)

Lemma lex_app m a b :
  lex m (a +:+ b) = let '(m1, e1) := lex m a in
                    let '(m2, e2) := lex m1 b in (m2, e1 +:+ e2).
Proof.
  revert m; induction a as [|c a IH]; intros m.
  - rewrite app_nil_l'. simpl. by destruct (lex m b).
  - rewrite app_cons'. simpl. destruct (lex_step m c) as [m1 e1].
    rewrite IH. destruct (lex m1 a) as [m2 e2], (lex m2 b) as [m3 e3].
    by rewrite app_assoc'.
Qed.

(** The escaping [replace] acts character by character. *)
Lemma replace_chr_cons c rep a s :
  replace (String a s) (chr c) rep =
    (if decide (a = c) then rep else chr a) +:+ replace s (chr c) rep.
Proof.
  unfold replace; cbn -[starts_with]. unfold starts_with; simpl.
  destruct (decide (c = a)) as [->|]; simpl.
  - rewrite decide_True by done. done.
  - rewrite decide_False by done. done.
Qed.

Lemma lex_escaped s :
  lex MStr (replace s (chr squote) (chr squote +:+ chr squote)) = (MStr, "").
Proof.
  induction s as [|a s IH]; [done|].
  rewrite replace_chr_cons, lex_app. case_decide.
  - simpl. by rewrite IH.
  - simpl. rewrite decide_False by done. by rewrite IH.
Qed.

(** A literal starts and ends in code, whatever its value: the automaton leaves it having
    seen just a pair of quotes. *)
Lemma lex_lit s : lex MCode (lit s) = (MQuote, chr squote).
Proof. unfold lit. rewrite lex_app; simpl. rewrite lex_app, lex_escaped. done. Qed.

Lemma lex_lit_app s rest :
  lex MCode (lit s +:+ rest) = let '(m, e) := lex MQuote rest in (m, chr squote +:+ e).
Proof. by rewrite lex_app, lex_lit. Qed.

Lemma lex_quote_code c s :
  c ≠ squote →
  lex MQuote (String c s) = let '(m, e) := lex MCode (String c s) in (m, chr squote +:+ e).
Proof.
  intros Hc. simpl. rewrite decide_False by done. destruct (lex_code c) as [m1 e1].
  by destruct (lex m1 s).
Qed.

Lemma read_body_escaped s rest :
  starts_with (chr squote) rest = false →
  read_body (replace s (chr squote) (chr squote +:+ chr squote) +:+ chr squote +:+ rest)
    = Some (s, rest).
Proof.
  intros Hr. induction s as [|a s IH].
  - change (read_body (String squote rest) = Some ("", rest)). simpl.
    destruct rest as [|d rest]; [done|].
    destruct (decide (d = squote)) as [->|]; [|done]. exfalso.
    apply bool_decide_eq_false in Hr. destruct Hr. by eexists.
  - rewrite replace_chr_cons, app_assoc'. case_decide; [subst|].
    + rewrite !app_assoc'. unfold chr; rewrite !app_cons', !app_nil_l'. simpl.
      unfold chr in IH; rewrite !app_cons', !app_nil_l' in IH. by rewrite IH.
    + unfold chr at 1; rewrite app_cons', app_nil_l'. simpl.
      rewrite decide_False by done. by rewrite IH.
Qed.

(** Reading a literal back gives the value, as long as no quote follows it. *)
Lemma read_lit_lit s rest :
  starts_with (chr squote) rest = false → read_lit (lit s +:+ rest) = Some (s, rest).
Proof.
  intros Hr. unfold lit. rewrite !app_assoc'. unfold chr at 1; rewrite app_cons', app_nil_l'.
  simpl. by apply read_body_escaped.
Qed.

(** What [bind_params] computes, placeholder by placeholder. *)
Fixpoint bind_segs (pred : string) (params : gmap string string) (model : string)
    (segs : list (string * string)) (t : tail) : result SafetyError string :=
  match segs with
  | [] => match t with
          | Closed text => Ok text
          | Unterminated _ _ => Err (PredicateUnsatisfied model pred
                                       "unterminated ${param:...} placeholder")
          end
  | (text, name) :: segs =>
      match params !! name with
      | None => Err (UnboundParam model name)
      | Some value =>
          let? r := bind_segs pred params model segs t in Ok (text +:+ lit value +:+ r)
      end
  end.

Lemma bind_loop_scan fuel pred params model out rest segs t :
  String.length rest < fuel → scan OPEN rest = (segs, t) →
  bind_loop fuel pred params model out rest =
    let? r := bind_segs pred params model segs t in Ok (out +:+ r).
Proof.
  revert out rest segs t. induction fuel as [|fuel IH]; intros out rest segs t Hlt; [lia|].
  rewrite scan_unfold by done. simpl.
  destruct (split_once_str OPEN rest) as [[text after]|] eqn:E1; [|by intros [= <- <-]].
  destruct (split_once "}" after) as [[name rest']|] eqn:E2; [|by intros [= <- <-]].
  destruct (scan OPEN rest') as [segs' t'] eqn:E3. intros [= <- <-].
  apply split_once_str_length in E1; [|done]. apply split_once_length in E2. simpl.
  destruct (params !! name) as [v|]; [|done].
  rewrite (IH _ _ segs' t') by (done || lia).
  destruct (bind_segs _ _ _ segs' t'); [|done]. simpl. by rewrite !app_assoc'.
Qed.

Lemma bind_params_segs pred params model :
  bind_params pred params model =
    bind_segs pred params model (scan OPEN pred).1 (scan OPEN pred).2.
Proof.
  unfold bind_params. destruct (scan OPEN pred) as [segs t] eqn:Hs.
  rewrite (bind_loop_scan _ _ _ _ _ _ segs t) by (done || lia). simpl.
  by destruct (bind_segs _ _ _ segs t).
Qed.

Lemma bind_segs_ok pred params model segs t out :
  bind_segs pred params model segs t = Ok out ↔
  ∃ text vals, t = Closed text ∧ Forall2 (λ seg v, params !! seg.2 = Some v) segs vals ∧
    out = foldr (λ p acc, p.1.1 +:+ lit p.2 +:+ acc) text (zip segs vals).
Proof.
  revert out; induction segs as [|[text name] segs IH]; intros out; simpl.
  - split.
    + destruct t as [text|]; [|done]. intros [= <-]. exists text, []. by repeat constructor.
    + intros (text & vals & -> & Hv & ->). by inversion Hv.
  - destruct (params !! name) as [v|] eqn:Hn.
    + split.
      * intros H. inv_ok. match goal with H : bind_segs _ _ _ _ _ = _ |- _ =>
          apply IH in H as (text' & vals & -> & Hv & ->) end.
        exists text', (v :: vals). by repeat constructor.
      * intros (text' & vals & -> & Hv & ->). inversion Hv as [|? v' ? vals' Hv1 Hv2]; subst.
        simpl in *. rewrite Hn in Hv1. injection Hv1 as ->.
        rewrite (proj2 (IH _)) by eauto. done.
    + split; [done|]. intros (text' & vals & -> & Hv & ->).
      inversion Hv as [|? v' ? vals' Hv1 Hv2]; subst. simpl in Hv1. congruence.
Qed.

(** A segment list is bound exactly when it is terminated and every name has a value. *)
Lemma bind_segs_total pred params model segs t :
  (∃ out, bind_segs pred params model segs t = Ok out) ↔
  (∃ text, t = Closed text) ∧ Forall (λ seg, is_Some (params !! seg.2)) segs.
Proof.
  setoid_rewrite bind_segs_ok. split.
  - intros (out & text & vals & -> & Hv & ->). split; [eauto|].
    apply Forall_forall. intros seg Hin. apply list_elem_of_lookup in Hin as [i Hi].
    destruct (Forall2_lookup_l _ _ _ _ _ Hv Hi) as (v & _ & Hv'). eauto.
  - intros [[text ->] Hall].
    assert (∃ vals, Forall2 (λ seg v, params !! seg.2 = Some v) segs vals) as [vals Hv].
    { induction Hall as [|seg segs [v Hv] _ [vals IH]]; [by exists []|].
      exists (v :: vals). by constructor. }
    eauto 10.
Qed.

Lemma lex_bound_segs m segs t pred model ps1 ps2 s1 s2 :
  well_placed m segs = true →
  bind_segs pred ps1 model segs t = Ok s1 → bind_segs pred ps2 model segs t = Ok s2 →
  lex m s1 = lex m s2.
Proof.
  revert m s1 s2. induction segs as [|[text name] segs IH]; intros m s1 s2; simpl.
  { by destruct t; [intros _ [= <-] [= <-]|]. }
  intros [Hm%bool_decide_eq_true Hw]%andb_true_iff H1 H2.
  destruct (ps1 !! name) as [v1|]; [|done]. destruct (ps2 !! name) as [v2|]; [|done].
  inv_ok. rewrite (lex_app m text (lit v1 +:+ _)), (lex_app m text (lit v2 +:+ _)).
  destruct (lex m text) as [m' e]; simpl in Hm; subst m'. rewrite !lex_lit_app.
  by erewrite IH by eauto.
Qed.

Lemma lex_join_lits vs1 vs2 rest :
  length vs1 = length vs2 →
  lex MCode (join ", " (map lit vs1) +:+ rest) = lex MCode (join ", " (map lit vs2) +:+ rest).
Proof.
  revert vs2; induction vs1 as [|v1 vs1 IH]; intros [|v2 vs2] Hl; try done.
  injection Hl as Hl. destruct vs1 as [|w1 vs1], vs2 as [|w2 vs2]; try done.
  { cbn [map join String.concat]. by rewrite !lex_lit_app. }
  specialize (IH (w2 :: vs2) Hl).
  change (join ", " (map lit (v1 :: w1 :: vs1)))
    with (lit v1 +:+ ", " +:+ join ", " (map lit (w1 :: vs1))).
  change (join ", " (map lit (v2 :: w2 :: vs2)))
    with (lit v2 +:+ ", " +:+ join ", " (map lit (w2 :: vs2))).
  rewrite !app_assoc', !lex_lit_app, !(lex_app MQuote ", ").
  change (lex MQuote ", ") with (MCode, "', "). cbv beta iota. by rewrite IH.
Qed.

Lemma lex_after m expr s1 s2 :
  (lex m expr).1 = MCode → lex MCode s1 = lex MCode s2 →
  lex m (expr +:+ s1) = lex m (expr +:+ s2).
Proof. intros Hm Hs. rewrite !lex_app. destruct (lex m expr); simplify_eq/=. by rewrite Hs. Qed.

Definition numeric_chr (c : ascii) : bool :=
  is_alnum c || (bool_decide (c = "+"%char) || bool_decide (c = "-"%char)
                 || bool_decide (c = "."%char)).

Lemma all_chars_app f a b : all_chars f (a +:+ b) = all_chars f a && all_chars f b.
Proof. induction a; [done|]. rewrite app_cons'. simpl. by rewrite IHa, andb_assoc. Qed.

Lemma digit_numeric c : is_digit c = true → numeric_chr c = true.
Proof. unfold numeric_chr, is_alnum. intros ->. by rewrite orb_true_r. Qed.

Lemma digits_value_numeric acc s n :
  digits_value acc s = Some n → all_chars numeric_chr s = true.
Proof.
  revert acc; induction s as [|c s IH]; intros acc; simpl; [done|].
  destruct (is_digit c) eqn:E; [|done]. rewrite digit_numeric by done. apply IH.
Qed.

Lemma parse_digits_numeric s n : parse_digits s = Some n → all_chars numeric_chr s = true.
Proof. destruct s; [done|]. apply digits_value_numeric. Qed.

Lemma skip_sign_numeric s :
  all_chars numeric_chr (skip_sign s) = true → all_chars numeric_chr s = true.
Proof.
  destruct s as [|c s]; [done|]. simpl.
  destruct c as [[] [] [] [] [] [] [] []]; simpl; done.
Qed.

Lemma parse_i64_numeric s z : parse_i64 s = Some z → all_chars numeric_chr s = true.
Proof.
  intros H. apply skip_sign_numeric. unfold parse_i64 in H.
  destruct (match s with String "-" r => (true, r) | String "+" r => (false, r)
            | _ => (false, s) end) as [neg body] eqn:E.
  assert (skip_sign s = body) as ->.
  { destruct s as [|c s]; [by injection E|].
    destruct c as [[] [] [] [] [] [] [] []]; simpl in *; congruence. }
  destruct (parse_digits body) eqn:Hd; [|done]. by eapply parse_digits_numeric.
Qed.

Lemma skip_digits_numeric s n r :
  skip_digits s = (n, r) → all_chars numeric_chr r = true → all_chars numeric_chr s = true.
Proof.
  revert n; induction s as [|c s IH]; intros n; simpl; [done|].
  destruct (is_digit c) eqn:E; [|by intros [= <- <-]].
  destruct (skip_digits s) as [n' r'] eqn:Es. intros [= <- <-] Hr.
  rewrite digit_numeric by done. by eapply IH.
Qed.

Lemma is_f64_decimal_numeric s : is_f64_decimal s = true → all_chars numeric_chr s = true.
Proof.
  unfold is_f64_decimal. destruct (skip_digits s) as [n1 r1] eqn:E1. intros H.
  eapply skip_digits_numeric; [exact E1|].
  assert (∀ n r, match n with O => false | S _ => match r with "" => true
      | String "e" r | String "E" r => let '(n3, r3) := skip_digits (skip_sign r) in
          bool_decide (n3 ≠ 0) && bool_decide (r3 = "") | _ => false end end = true →
      all_chars numeric_chr r = true) as Hexp.
  { clear. intros [|n] r; [done|]. destruct r as [|c r]; [done|].
    assert ((let '(n3, r3) := skip_digits (skip_sign r) in
          bool_decide (n3 ≠ 0) && bool_decide (r3 = "")) = true → all_chars numeric_chr r = true).
    { destruct (skip_digits (skip_sign r)) as [n3 r3] eqn:E3.
      intros [_ ->%bool_decide_eq_true]%andb_true_iff.
      eapply skip_sign_numeric, skip_digits_numeric; [exact E3|done]. }
    destruct c as [[] [] [] [] [] [] [] []]; simpl; done. }
  destruct r1 as [|c r1]; [done|].
  destruct (match String c r1 with String "." r => skip_digits r | _ => (0, String c r1) end)
    as [n2 r2] eqn:E2.
  apply Hexp in H. clear Hexp E1.
  destruct c as [[] [] [] [] [] [] [] []]; simpl in E2;
    try (injection E2 as <- <-; exact H).
  simpl. eapply skip_digits_numeric; [exact E2|done].
Qed.

Lemma all_chars_lower s :
  all_chars is_lower (to_ascii_lowercase s) = true → all_chars numeric_chr s = true.
Proof.
  induction s as [|c s IH]; simpl; [done|].
  intros [Hc Hs]%andb_true_iff. rewrite IH by done. rewrite andb_true_r.
  unfold lower_chr in Hc. unfold numeric_chr, is_alnum, is_alpha.
  destruct (is_upper c); [done|]. by rewrite Hc.
Qed.

Lemma parses_as_f64_numeric s : parses_as_f64 s = true → all_chars numeric_chr s = true.
Proof.
  unfold parses_as_f64. intros H. apply skip_sign_numeric.
  apply orb_true_iff in H as [H|H]; [by apply is_f64_decimal_numeric|].
  apply all_chars_lower.
  repeat (apply orb_true_iff in H as [H|H]); apply bool_decide_eq_true in H; by rewrite H.
Qed.

(** ** Properties *)

(** [bind_params] never panics or loops, and its result is decided by the predicate's
    placeholders: it succeeds exactly when every placeholder is closed and bound, giving the
    text with each placeholder replaced by the quoted value (values are never rescanned);
    otherwise it reports the first unbound name, or the unterminated placeholder. *)
Theorem bind_params_outcome pred params model :
  match bind_params pred params model with
  | Ok out => ∃ segs text vals, scan OPEN pred = (segs, Closed text) ∧
      Forall2 (λ seg v, params !! seg.2 = Some v) segs vals ∧
      out = foldr (λ p acc, p.1.1 +:+ lit p.2 +:+ acc) text (zip segs vals)
  | Err (UnboundParam table name) => table = model ∧
      ∃ segs1 text segs2, (scan OPEN pred).1 = segs1 ++ (text, name) :: segs2 ∧
        params !! name = None ∧ Forall (λ seg, is_Some (params !! seg.2)) segs1
  | Err (PredicateUnsatisfied table predicate _) => table = model ∧ predicate = pred ∧
      (∃ text body, (scan OPEN pred).2 = Unterminated text body) ∧
      Forall (λ seg, is_Some (params !! seg.2)) (scan OPEN pred).1
  | Err _ => False
  end.
Proof.
  rewrite bind_params_segs. destruct (scan OPEN pred) as [segs t]; simpl.
  destruct (bind_segs pred params model segs t) as [out|e] eqn:Hb.
  { apply bind_segs_ok in Hb as (text & vals & -> & ? & ->). eauto 10. }
  revert Hb. induction segs as [|[text name] segs IH]; simpl.
  - destruct t; [done|]. intros [= <-]. eauto 10.
  - destruct (params !! name) as [v|] eqn:Hn.
    + destruct (bind_segs pred params model segs t); simpl; [done|].
      intros [= ->]. specialize (IH eq_refl). destruct e; try done.
      * destruct IH as [-> (segs1 & text' & segs2 & -> & ? & ?)]. split; [done|].
        exists ((text, name) :: segs1), text', segs2. split_and!; [done..|by constructor].
      * destruct IH as (-> & -> & ? & ?). split_and!; [done..|by constructor].
    + intros [= <-]. split; [done|]. by exists [], text, segs.
Qed.

(** C3: Row-level-security binding cannot alter the query: when every placeholder of a
    predicate stands outside quotes, the predicates bound with any two parameter sets have
    the same SQL lexical structure - they differ inside string literals only. *)
Theorem bind_params_noninterference pred model ps1 ps2 s1 s2 :
  well_placed MCode (scan OPEN pred).1 = true →
  bind_params pred ps1 model = Ok s1 → bind_params pred ps2 model = Ok s2 →
  lex MCode s1 = lex MCode s2.
Proof. rewrite !bind_params_segs. apply lex_bound_segs. Qed.

Lemma bind_params_noninterference_witness :
  let pred := "tenant = ${param:t} AND region = ${param:r}" in
  let ps1 : gmap string string := {["t" := "acme"; "r" := "eu"]} in
  let ps2 : gmap string string := {["t" := "x' OR '1'='1"; "r" := "'; --"]} in
  bind_params pred ps2 "orders"
    = Ok "tenant = 'x'' OR ''1''=''1' AND region = '''; --'" ∧
  lex MCode "tenant = 'acme' AND region = 'eu'"
    = lex MCode "tenant = 'x'' OR ''1''=''1' AND region = '''; --'".
Proof.
  intros pred ps1 ps2. split; [by vm_compute|].
  apply (bind_params_noninterference pred "orders" ps1 ps2); by vm_compute.
Defined.

(** The guarantee needs the placeholder outside quotes: in a predicate that quotes its
    placeholder, a (quote-free, non-empty) value ends up in the code part of the query. *)
Theorem quoted_placeholder_injects c v model :
  all_chars (λ d, negb (bool_decide (d = squote)) && negb (bool_decide (d = dquote)))
    (String c v) = true →
  ∃ s, bind_params "owner = '${param:o}'" {["o" := String c v]} model = Ok s ∧
       (lex MCode s).2 = "owner = '" +:+ "'" +:+ String c v +:+ "'".
Proof.
  intros Hv.
  assert (∀ w, all_chars (λ d, negb (bool_decide (d = squote)) && negb (bool_decide (d = dquote))) w
    = true → lex MCode w = (MCode, w) ∧ 
      replace w (chr squote) (chr squote +:+ chr squote) = w) as Hcode.
  { clear. induction w as [|a w IH]; [done|]. cbn [all_chars].
    intros [[Ha Hb]%andb_true_iff Hw]%andb_true_iff.
    apply negb_true_iff, bool_decide_eq_false in Ha, Hb.
    rewrite replace_chr_cons, decide_False by done. destruct (IH Hw) as [Hl Hr]. rewrite Hr.
    cbn [lex]. unfold lex_step, lex_code. rewrite !decide_False by done.
    cbv beta iota. by rewrite Hl. }
  exists ("owner = '" +:+ lit (String c v) +:+ "'"). split.
  - rewrite bind_params_segs.
    change (scan OPEN "owner = '${param:o}'") with ([("owner = '", "o")], Closed "'").
    cbn [bind_segs fst snd]. by rewrite lookup_singleton_eq.
  - unfold lit. destruct (Hcode _ Hv) as [Hl Hr]. rewrite Hr. change (chr squote) with "'".
    rewrite !app_assoc', lex_app.
    change (lex MCode "owner = '") with (MStr, "owner = '"). cbv beta iota.
    rewrite lex_app. change (lex MStr "'") with (MQuote, ""). cbv beta iota.
    rewrite app_cons', lex_quote_code, <-app_cons', lex_app, Hl; [done|].
    cbn [all_chars] in Hv. intros ->. by rewrite bool_decide_eq_true_2 in Hv.
Qed.

Lemma quoted_placeholder_injects_witness :
  ∃ s, bind_params "owner = '${param:o}'" {["o" := " OR true OR 1 = "]} "orders" = Ok s ∧
       (lex MCode s).2 = "owner = '' OR true OR 1 = '".
Proof.
  apply (quoted_placeholder_injects " "%char "OR true OR 1 = " "orders"). by vm_compute.
Defined.

(** A quoted value reads back as itself: no value, whatever quotes it holds, can close
    its own literal. *)
Theorem lit_read_back s rest :
  starts_with "'" rest = false → read_lit (lit s +:+ rest) = Some (s, rest).
Proof. apply read_lit_lit. Qed.

Lemma lit_read_back_witness :
  read_lit (lit "x' OR '1'='1" +:+ " AND b") = Some ("x' OR '1'='1", " AND b").
Proof. apply (lit_read_back "x' OR '1'='1" " AND b"). by vm_compute. Defined.

(** A bare (unquoted) scalar is made of digits, letters, signs and dots only; every
    other value is quoted. *)
Theorem scalar_lit_shape s numeric :
  scalar_lit s numeric = lit s ∨
  (scalar_lit s numeric = s ∧ numeric = true ∧ all_chars numeric_chr s = true).
Proof.
  unfold scalar_lit. destruct numeric; simpl; [|by left].
  destruct (parse_i64 s) eqn:E; simpl.
  { right. split_and!; [done..|]. by eapply parse_i64_numeric. }
  destruct (parses_as_f64 s) eqn:F; [|by left].
  right. split_and!; [done..|]. by apply parses_as_f64_numeric.
Qed.

(** Filter values cannot alter a row-level predicate: two filters with the same operator
    and number of values compile, over the same expression, to predicates with the same
    lexical structure. *)
Theorem apply_op_noninterference expr f1 f2 s1 s2 :
  (lex MCode expr).1 = MCode → sf_op f1 = sf_op f2 →
  length (sf_values f1) = length (sf_values f2) →
  apply_op expr f1 false = Ok s1 → apply_op expr f2 false = Ok s2 →
  lex MCode s1 = lex MCode s2.
Proof.
  intros He Hop Hlen. unfold apply_op, filter_one. rewrite <-Hop.
  destruct (sf_values f1) as [|v1 vs1], (sf_values f2) as [|v2 vs2]; try done;
    [by destruct (sf_op f1); simpl; intros; inv_ok|].
  assert (∀ op w1 w2, (lex MCode op).1 = MCode →
    lex MCode (expr +:+ op +:+ lit w1) = lex MCode (expr +:+ op +:+ lit w2)) as Hcmp.
  { intros op w1 w2 Ho. apply lex_after, lex_after; [done..|]. by rewrite !lex_lit. }
  assert (∀ op, (lex MCode (" " +:+ op)).1 = MCode →
    lex MCode (expr +:+ " " +:+ op +:+ " (" +:+ join ", " (map lit (v1 :: vs1)) +:+ ")") =
    lex MCode (expr +:+ " " +:+ op +:+ " (" +:+ join ", " (map lit (v2 :: vs2)) +:+ ")"))
    as Hin.
  { intros op Ho. apply lex_after; [done|]. rewrite <-!(app_assoc' " " op).
    apply lex_after, lex_after; [done..|]. by apply lex_join_lits. }
  destruct (sf_op f1); cbn -[lex lit join map]; intros H1 H2; inv_ok;
    try (by apply Hcmp); try (by apply Hin); try done.
  destruct vs1 as [|w1 vs1], vs2 as [|w2 vs2]; try done. inv_ok.
  apply lex_after, lex_after; [done..|]. rewrite !lex_lit_app, !(lex_app MQuote " AND ").
  change (lex MQuote " AND ") with (MCode, "' AND "). cbv beta iota. by rewrite !lex_lit.
Qed.

Lemma apply_op_noninterference_witness :
  lex MCode "o.status IN ('paid')" = lex MCode "o.status IN ('x'') OR (1=1')".
Proof.
  apply (apply_op_noninterference "o.status"
    {| sf_member := "o.status"; sf_op := OpIn; sf_values := ["paid"] |}
    {| sf_member := "o.status"; sf_op := OpIn; sf_values := ["x') OR (1=1"] |}); by vm_compute.
Defined.
