(* ===== verification/Catalog.v ===== *)
(** * The semantic catalog ([crates/pawrly-semantic/src/lib.rs], [impl SemanticCatalog])
    The models and metrics of a workspace, listing, segment expansion, and the lookups the
    compiler shares. [HashMap] values are enumerated through [HashIter]. *)

From S2P Require Export SqlText MetricTypes.

Record SemanticCatalog := {
  models : gmap string SemanticModel;
  metrics : gmap string Metric;
  time_spine : option TimeSpine
}.

Definition collect {A} (name : A → string) (l : list A) : gmap string A :=
  foldl (λ m x, <[name x := x]> m) ∅ l.

Definition new_with_metrics (ms : list SemanticModel) (mets : list Metric) : SemanticCatalog :=
  {| models := collect sm_name ms; metrics := collect met_name mets; time_spine := None |}.

Definition new (ms : list SemanticModel) : SemanticCatalog := new_with_metrics ms [].

Definition with_time_spine (c : SemanticCatalog) (spine : option TimeSpine) : SemanticCatalog :=
  {| models := models c; metrics := metrics c; time_spine := spine |}.

Definition is_empty (c : SemanticCatalog) : bool := bool_decide (models c = ∅).
Definition len (c : SemanticCatalog) : nat := size (models c).

Section listing.
Context `{!HashIter string}.

(** [HashMap::values]. *)
Definition values {A} (m : gmap string A) : list A :=
  omap (λ k, m !! k) (hash_iter (dom m)).

Definition list_models (c : SemanticCatalog) : list SemanticModelInfo :=
  sort_by (λ a b, str_leb (info_name a) (info_name b))
    (map (λ m, {| info_name := sm_name m; info_description := sm_description m;
                  info_source := sm_source m;
                  info_dimension_count := as_u32 (N.of_nat (length (sm_dimensions m)));
                  info_measure_count := as_u32 (N.of_nat (length (sm_measures m))) |})
       (values (models c))).

Definition list_metrics (c : SemanticCatalog) : list Metric :=
  sort_by (λ a b, str_leb (met_name a) (met_name b)) (values (metrics c)).

(** A declared pre-aggregation to materialize. *)
Record RollupSpec := {
  rs_model : string; rs_preagg : string; rs_refresh : option N
}.

(** Lexicographic order of [(model, preagg)]. *)
Definition rollup_leb (a b : RollupSpec) : bool :=
  match String.compare (rs_model a) (rs_model b) with
  | Lt => true
  | Gt => false
  | Eq => str_leb (rs_preagg a) (rs_preagg b)
  end.

Definition rollups (c : SemanticCatalog) : list RollupSpec :=
  sort_by rollup_leb
    (m ← values (models c);
     map (λ p, {| rs_model := sm_name m; rs_preagg := pre_name p;
                  rs_refresh := pre_refresh p |}) (sm_pre_aggregations m)).
End listing.

Definition describe_metric (c : SemanticCatalog) (name : string) : option Metric :=
  metrics c !! name.

Definition describe (c : SemanticCatalog) (name : string) : option SemanticModelDescription :=
  (λ m, {| desc_name := sm_name m; desc_description := sm_description m;
           desc_source := sm_source m; desc_primary_key := sm_primary_key m;
           desc_dimensions := sm_dimensions m; desc_measures := sm_measures m;
           desc_relationships := sm_relationships m; desc_segments := sm_segments m |})
  <$> models c !! name.

(** ** Segments *)

Definition with_filters (q : SemanticQuery) (filters : list SemanticFilter)
    (segments : list string) : SemanticQuery :=
  {| q_measures := q_measures q; q_dimensions := q_dimensions q; q_filters := filters;
     q_segments := segments; q_order_by := q_order_by q; q_limit := q_limit q;
     q_time_zone := q_time_zone q; q_params := q_params q |}.

(** The filters one [model.segment] reference stands for. *)
Definition segment_filters (c : SemanticCatalog) (seg_ref : string)
    : result SemanticError (list SemanticFilter) :=
  let? '(model_name, seg_nm) := ok_or (UnknownSegment seg_ref) (split_once "." seg_ref) in
  let? model := ok_or (UnknownModel model_name) (models c !! model_name) in
  let? seg := ok_or (UnknownSegment seg_ref)
                (List.find (λ s, bool_decide (seg_name s = seg_nm)) (sm_segments model)) in
  Ok (seg_filters seg).

Definition expand_segments (c : SemanticCatalog) (q : SemanticQuery)
    : result SemanticError SemanticQuery :=
  match q_segments q with
  | [] => Ok q
  | segs =>
      let? filters := try_fold (λ fs seg_ref, let? extra := segment_filters c seg_ref in
                                              Ok (fs ++ extra)) (q_filters q) segs in
      Ok (with_filters q filters [])
  end.

(** ** Lookups *)

Definition contains_key (c : SemanticCatalog) (name : string) : bool :=
  is_some (models c !! name).

(** Appends a name seen for the first time. *)
Definition push_new (l : list string) (x : string) : list string :=
  if bool_decide (x ∈ l) then l else l ++ [x].

Definition push_model (c : SemanticCatalog) (roots : list string) (member : string)
    : result SemanticError (list string) :=
  let? model := member_model member in
  if contains_key c model then Ok (push_new roots model) else Err (UnknownModel model).

Definition measure_roots (c : SemanticCatalog) (q : SemanticQuery)
    : result SemanticError (list string) :=
  try_fold (push_model c) [] (q_measures q).

Definition query_members (q : SemanticQuery) : list string :=
  q_measures q ++ q_dimensions q ++ map sf_member (q_filters q).

Definition referenced_models (c : SemanticCatalog) (q : SemanticQuery)
    : result SemanticError (list string) :=
  try_fold (push_model c) [] (query_members q).

Definition model_for_member (c : SemanticCatalog) (member : string)
    : result SemanticError SemanticModel :=
  let? name := member_model member in ok_or (UnknownModel name) (models c !! name).

(** [member_model(m).map(|mm| mm == model).unwrap_or(false)]. *)
Definition member_of (model member : string) : bool :=
  match member_model member with
  | Ok mm => bool_decide (mm = model)
  | Err _ => false
  end.

Definition first_measure_member (q : SemanticQuery) (root : string) : string :=
  default root (List.find (member_of root) (q_measures q)).

Definition first_member_for_model (q : SemanticQuery) (model : string) : string :=
  default model (List.find (member_of model) (query_members q)).

Definition resolve_orders (q : SemanticQuery) : result SemanticError (list string) :=
  let selected := q_dimensions q ++ q_measures q in
  try_map (λ o, if bool_decide (so_member o ∈ selected) then Ok (resolve_order o)
                else Err (UnknownMember (so_member o))) (q_order_by q).

Definition qualified_table (c : SemanticCatalog) (model_name : string)
    : result SemanticError string :=
  let? model := ok_or (UnknownModel model_name) (models c !! model_name) in
  let? table := ok_or (InvalidSource (sm_name model) (sm_source model))
                  (TableName_parse (sm_source model)) in
  Ok (quote_ident (tn_schema table) +:+ "." +:+ quote_ident (tn_table table)).

Definition model_safety (c : SemanticCatalog) (root : string) : option SafetyPolicy :=
  m ← models c !! root; sm_safety m.

Definition enforce_filter_safety (c : SemanticCatalog) (root : string) (q : SemanticQuery)
    : result SemanticError () :=
  match model_safety c root with
  | None => Ok ()
  | Some safety =>
      if sp_require_at_least_one_filter safety && bool_decide (length (q_filters q) = 0)
      then Err (Safety (NoFilters root))
      else try_each (λ col,
             if existsb (λ f, member_of root (sf_member f)
                              && bool_decide (dimension_of_member (sf_member f) = Some col))
                  (q_filters q)
             then Ok () else Err (Safety (MissingRequiredFilter root col)))
             (sp_require_filters_on safety)
  end.

Definition max_rows (c : SemanticCatalog) (root : string) : option N :=
  s ← model_safety c root; sp_max_rows s.
