(* ===== verification/Graph.v ===== *)
(** * The join graph ([crates/pawrly-semantic/src/lib.rs]: [adjacency], [reachability],
    [needed_models], [render_from])
    The bidirectional relationship graph, the fan-out-aware breadth-first search from a
    root model, and the joins a query needs. *)

From S2P Require Export Catalog.

Record Edge := {
  e_target : string;
  e_kind : RelationshipKind;
  e_on : string;
  e_fans_out : bool
}.

Record Node := {
  n_depth : nat;
  n_fans_out : bool;
  n_parent : option string;
  n_on : option string;
  n_kind : option RelationshipKind;
  n_ambiguous : bool
}.

Definition Node_root : Node :=
  {| n_depth := 0; n_fans_out := false; n_parent := None; n_on := None;
     n_kind := None; n_ambiguous := false |}.

Definition set_ambiguous (n : Node) : Node :=
  {| n_depth := n_depth n; n_fans_out := n_fans_out n; n_parent := n_parent n;
     n_on := n_on n; n_kind := n_kind n; n_ambiguous := true |}.

(** [Reach]: the reached models. *)
Abbreviation Reach := (gmap string Node).
Abbreviation Adj := (gmap string (list Edge)).

Definition invert_kind (k : RelationshipKind) : RelationshipKind :=
  match k with
  | OneToMany => ManyToOne
  | ManyToOne => OneToMany
  | OneToOne => OneToOne
  end.

(** ** Adjacency *)

Definition edges_of (adj : Adj) (from : string) : list Edge := default [] (adj !! from).

(** The closure [push]: at most one edge per (from, target). *)
Definition push_edge (from : string) (edge : Edge) (adj : Adj) : Adj :=
  let v := edges_of adj from in
  if existsb (λ e, bool_decide (e_target e = e_target edge)) v then <[from := v]> adj
  else <[from := v ++ [edge]]> adj.

Definition mk_edge (target : string) (kind : RelationshipKind) (on : string) : Edge :=
  {| e_target := target; e_kind := kind; e_on := on;
     e_fans_out := bool_decide (kind = OneToMany) |}.

(** One relationship of [model]: its edge and the inverted one. *)
Definition push_relationship (c : SemanticCatalog) (model : SemanticModel) (adj : Adj)
    (rel : Relationship) : Adj :=
  if contains_key c (rel_target_model rel) then
    let on := replace (rel_join_predicate rel) "this." (sm_name model +:+ ".") in
    let adj := push_edge (sm_name model) (mk_edge (rel_target_model rel) (rel_kind rel) on) adj in
    push_edge (rel_target_model rel)
      (mk_edge (sm_name model) (invert_kind (rel_kind rel)) on) adj
  else adj.

(** [self.models.keys().collect()] then [sort()]. *)
Definition sorted_names (c : SemanticCatalog) : list string :=
  sort_strings (elements (dom (models c))).

Definition adjacency (c : SemanticCatalog) : Adj :=
  foldl (λ adj name,
      match models c !! name with
      | Some model => foldl (push_relationship c model) adj (sm_relationships model)
      | None => adj
      end) ∅ (sorted_names c).

(** ** Breadth-first search *)

(** The body of [for e in edges]: [(depth, fans_out)] are those of [cur]. *)
Definition visit_edge (cur : string) (depth : nat) (fans_out : bool)
    (st : Reach * list string) (e : Edge) : Reach * list string :=
  let '(nodes, queue) := st in
  let nd := S depth in
  let nf := fans_out || e_fans_out e in
  match nodes !! e_target e with
  | None =>
      (<[e_target e := {| n_depth := nd; n_fans_out := nf; n_parent := Some cur;
                          n_on := Some (e_on e); n_kind := Some (e_kind e);
                          n_ambiguous := false |}]> nodes,
       queue ++ [e_target e])
  | Some existing =>
      if bool_decide (n_depth existing = nd) && negb (bool_decide (n_parent existing = Some cur))
      then (<[e_target e := set_ambiguous existing]> nodes, queue)
      else (nodes, queue)
  end.
#[global] Arguments visit_edge : simpl never.

(** [while let Some(cur) = queue.pop_front()]. [None]: out of fuel, or [&nodes[&cur]]
    panics; [reachability_total] shows that neither happens. *)
Fixpoint bfs (fuel : nat) (adj : Adj) (nodes : Reach) (queue : list string) : option Reach :=
  match queue with
  | [] => Some nodes
  | cur :: queue =>
      match fuel with
      | O => None
      | S fuel =>
          match nodes !! cur with
          | None => None
          | Some n =>
              let '(nodes, queue) :=
                foldl (visit_edge cur (n_depth n) (n_fans_out n)) (nodes, queue)
                  (edges_of adj cur) in
              bfs fuel adj nodes queue
          end
      end
  end.

(** Each model enters the queue at most once, and the root need not be a model. *)
Definition bfs_fuel (c : SemanticCatalog) : nat := S (size (models c)).

Definition reachability_opt (c : SemanticCatalog) (root : string) : option Reach :=
  bfs (bfs_fuel c) (adjacency c) {[root := Node_root]} [root].

Definition reachability (c : SemanticCatalog) (root : string) : Reach :=
  default ∅ (reachability_opt c root).

(** ** Needed joins *)

(** [while cur != root]: climbs to the root, collecting the models on the way. Every climb
    goes one level up, so [S depth] rounds are enough. *)
Fixpoint climb (fuel : nat) (reach : Reach) (root cur : string) (set : gset string)
    : result SemanticError (gset string) :=
  if decide (cur = root) then Ok set
  else match fuel with
       | O => Err (RelationshipCycle cur)
       | S fuel =>
           let? node := ok_or (RelationshipCycle cur) (reach !! cur) in
           let? parent := ok_or (RelationshipCycle cur) (n_parent node) in
           climb fuel reach root parent ({[cur]} ∪ set)
       end.

Definition climb_fuel (reach : Reach) (cur : string) : nat :=
  match reach !! cur with
  | Some n => S (n_depth n)
  | None => 1
  end.

Definition depth_key (reach : Reach) (m : string) : N :=
  match reach !! m with
  | Some n => N.of_nat (n_depth n)
  | None => u32_max
  end.

Section needed.
Context `{!HashIter string}.

Definition needed_models (reach : Reach) (referenced : list string) (root : string)
    : result SemanticError (list string) :=
  let? set := try_fold (λ set model,
      if decide (model = root) then Ok set
      else climb (climb_fuel reach model) reach root model set) ∅ referenced in
  Ok (sort_by (λ a b, depth_key reach a <=? depth_key reach b)%N (hash_iter set)).
End needed.

Definition render_join (c : SemanticCatalog) (reach : Reach) (model : string)
    : result SemanticError string :=
  let? node := ok_or (RelationshipCycle model) (reach !! model) in
  match n_kind node, n_on node with
  | Some kind, Some on =>
      let? table := qualified_table c model in
      Ok (chr "010" +:+ join_kind kind +:+ " JOIN " +:+ table +:+ " AS " +:+ model
          +:+ chr "010" +:+ "  ON " +:+ on)
  | _, _ => Err (RelationshipCycle model)
  end.

Definition render_from (c : SemanticCatalog) (root : string) (reach : Reach)
    (needed : list string) (joined : bool) : result SemanticError string :=
  let? root_table := qualified_table c root in
  if joined then
    try_fold (λ from model, let? j := render_join c reach model in Ok (from +:+ j))
      (root_table +:+ " AS " +:+ root) needed
  else Ok root_table.
