(* ===== verification/GraphFacts.v ===== *)
(** * Correctness of the join-graph search
    The search from a root terminates, reaches exactly the models connected to it, records
    shortest paths with their fan-out, and flags a model ambiguous exactly when a second
    predecessor at the same distance exists. *)

From S2P Require Export Graph.

(** ** Specification: paths of the relationship graph *)

Definition edge (adj : Adj) (a b : string) : Prop :=
  ∃ e, e ∈ edges_of adj a ∧ e_target e = b.

Inductive path (adj : Adj) : nat → string → string → Prop :=
| path_nil a : path adj 0 a a
| path_snoc n a b c : path adj n a b → edge adj b c → path adj (S n) a c.

(** [x] hangs off its recorded parent by an edge of the graph. *)
Definition hangs_on (adj : Adj) (nodes : Reach) (x : string) (n : Node) : Prop :=
  ∃ p np e, n_parent n = Some p ∧ nodes !! p = Some np ∧
    e ∈ edges_of adj p ∧ e_target e = x ∧
    n_depth n = S (n_depth np) ∧ n_fans_out n = n_fans_out np || e_fans_out e ∧
    n_on n = Some (e_on e) ∧ n_kind n = Some (e_kind e).

(** The edge from [p] has been accounted for at its target. *)
Definition accounted (p : string) (np nx : Node) : Prop :=
  n_depth nx ≤ S (n_depth np) ∧
  (n_depth nx = S (n_depth np) → n_parent nx = Some p ∨ n_ambiguous nx = true).

(** A second predecessor of [x] one level up. *)
Definition contested (adj : Adj) (nodes : Reach) (x : string) (n : Node) : Prop :=
  ∃ p np, nodes !! p = Some np ∧ n_parent n ≠ Some p ∧
    n_depth n = S (n_depth np) ∧ edge adj p x.

Lemma size_remove (X Y : gset string) x :
  x ∈ X → x ∉ Y → size (X ∖ Y) = S (size (X ∖ ({[x]} ∪ Y))).
Proof.
  intros HX HY. assert (X ∖ Y = {[x]} ∪ X ∖ ({[x]} ∪ Y)) as ->.
  { apply set_eq. intros y. destruct (decide (y = x)); set_solver. }
  rewrite size_union, size_singleton by set_solver. done.
Qed.

(** ** The search only adds nodes and raises flags *)

Record same_core (n n' : Node) : Prop := {
  sc_depth : n_depth n' = n_depth n;
  sc_fans : n_fans_out n' = n_fans_out n;
  sc_parent : n_parent n' = n_parent n;
  sc_on : n_on n' = n_on n;
  sc_kind : n_kind n' = n_kind n;
  sc_amb : n_ambiguous n = true → n_ambiguous n' = true
}.

#[export] Instance same_core_refl : Reflexive same_core.
Proof. by constructor. Qed.
#[export] Instance same_core_trans : Transitive same_core.
Proof. intros ??? [] []. constructor; congruence || auto. Qed.

Definition grows (nodes nodes' : Reach) : Prop :=
  ∀ x n, nodes !! x = Some n → ∃ n', nodes' !! x = Some n' ∧ same_core n n'.

#[export] Instance grows_preorder : PreOrder grows.
Proof.
  split; [by intros nodes x n; eauto using same_core_refl|].
  intros a b c Hab Hbc x n Hn. destruct (Hab x n Hn) as (n' & Hn' & H1).
  destruct (Hbc x n' Hn') as (n'' & Hn'' & H2). exists n''. split; [done|]. by etrans.
Qed.

Lemma hangs_on_grows adj nodes nodes' x n n' :
  grows nodes nodes' → same_core n n' → hangs_on adj nodes x n → hangs_on adj nodes' x n'.
Proof.
  intros Hg [] (p & np & e & ? & Hp & ? & ? & ? & ? & ? & ?).
  destruct (Hg p np Hp) as (np' & ? & []). exists p, np', e. split_and!; congruence.
Qed.

Lemma contested_grows adj nodes nodes' x n n' :
  grows nodes nodes' → same_core n n' → contested adj nodes x n → contested adj nodes' x n'.
Proof.
  intros Hg [] (p & np & Hp & ? & ? & ?).
  destruct (Hg p np Hp) as (np' & ? & []). exists p, np'. split_and!; congruence.
Qed.

Lemma accounted_core p np np' nx nx' :
  same_core np np' → same_core nx nx' → accounted p np nx → accounted p np' nx'.
Proof.
  intros [] [] [? H]. unfold accounted. rewrite sc_depth0, sc_depth1, sc_parent1.
  split; [done|]. intros Hd. destruct (H Hd); auto.
Qed.

(** ** The invariant of the search *)

Section search.
Context (adj : Adj) (root : string).

(** Queue entries are at depth [d], then at depth [S d]; nothing is deeper. *)
Definition levels (nodes : Reach) (d : nat) (queue : list string) : Prop :=
  (∃ q1 q2, queue = q1 ++ q2 ∧
     Forall (λ x, n_depth <$> nodes !! x = Some d) q1 ∧
     Forall (λ x, n_depth <$> nodes !! x = Some (S d)) q2) ∧
  (∀ x n, nodes !! x = Some n → n_depth n ≤ S d).

(** [cur] is being expanded and the edges [seen] of it are done. *)
Record searching (cur : option string) (seen : list Edge) (d : nat)
    (nodes : Reach) (queue : list string) : Prop := {
  s_root : nodes !! root = Some Node_root;
  s_tree : ∀ x n, nodes !! x = Some n → x ≠ root → hangs_on adj nodes x n;
  s_nodup : NoDup queue;
  s_queue : ∀ x, x ∈ queue → is_Some (nodes !! x);
  s_levels : levels nodes d queue;
  s_closed : ∀ p np, nodes !! p = Some np → p ∉ queue → Some p ≠ cur →
    ∀ e, e ∈ edges_of adj p → ∃ nx, nodes !! e_target e = Some nx ∧ accounted p np nx;
  s_seen : ∀ p np e, cur = Some p → nodes !! p = Some np → e ∈ seen →
    ∃ nx, nodes !! e_target e = Some nx ∧ accounted p np nx;
  s_cur : ∀ p, cur = Some p → p ∉ queue ∧ n_depth <$> nodes !! p = Some d;
  s_amb : ∀ x n, nodes !! x = Some n → n_ambiguous n = true → contested adj nodes x n
}.

Lemma grows_flag nodes x n :
  nodes !! x = Some n → grows nodes (<[x := set_ambiguous n]> nodes).
Proof.
  intros Hx y m Hy. destruct (decide (x = y)) as [<-|].
  - exists (set_ambiguous n). rewrite lookup_insert_eq. split; [done|].
    simplify_eq. by constructor.
  - exists m. by rewrite lookup_insert_ne.
Qed.

Lemma grows_new nodes x n : nodes !! x = None → grows nodes (<[x := n]> nodes).
Proof.
  intros Hx y m Hy. exists m. rewrite lookup_insert_ne by congruence. done.
Qed.

Lemma levels_depth nodes nodes' d queue :
  grows nodes nodes' → levels nodes d queue →
  (∀ x n, nodes' !! x = Some n → nodes !! x = None → n_depth n ≤ S d) →
  levels nodes' d queue.
Proof.
  intros Hg [(q1 & q2 & -> & H1 & H2) Hle] Hnew. split.
  - assert (∀ k x, n_depth <$> nodes !! x = Some k → n_depth <$> nodes' !! x = Some k) as Hk.
    { intros k x. destruct (nodes !! x) as [n|] eqn:E; [|done].
      destruct (Hg x n E) as (n' & -> & []). simpl. congruence. }
    exists q1, q2. split_and!; [done|eapply Forall_impl; eauto..].
  - intros x n' Hx. destruct (nodes !! x) as [n|] eqn:E; [|by eapply Hnew].
    destruct (Hg x n E) as (n'' & ? & []). simplify_eq. rewrite sc_depth0. eauto.
Qed.

Lemma levels_push nodes d queue x :
  levels nodes d queue → n_depth <$> nodes !! x = Some (S d) → levels nodes d (queue ++ [x]).
Proof.
  intros [(q1 & q2 & -> & H1 & H2) Hle] Hx. split; [|done].
  exists q1, (q2 ++ [x]). rewrite app_assoc. split_and!; [done..|].
  apply Forall_app; split; [done|]. by constructor.
Qed.
(** The node a newly discovered edge target gets. *)
Definition discovered (cur : string) (np : Node) (e : Edge) : Node :=
  {| n_depth := S (n_depth np); n_fans_out := n_fans_out np || e_fans_out e;
     n_parent := Some cur; n_on := Some (e_on e); n_kind := Some (e_kind e);
     n_ambiguous := false |}.

(** What one visited edge may change, and that it preserves the invariant. *)
Lemma searching_upd cur seen d nodes queue nodes' queue' e np :
  searching (Some cur) seen d nodes queue → nodes !! cur = Some np →
  e ∈ edges_of adj cur → grows nodes nodes' →
  (∀ x n, nodes' !! x = Some n → nodes !! x = None →
     x = e_target e ∧ n = discovered cur np e) →
  (∀ x n n', nodes !! x = Some n → nodes' !! x = Some n' → n_ambiguous n' = true →
     n_ambiguous n = true ∨
     (x = e_target e ∧ n_depth n = S (n_depth np) ∧ n_parent n ≠ Some cur)) →
  (queue' = queue ∧ is_Some (nodes !! e_target e)) ∨
  (queue' = queue ++ [e_target e] ∧ nodes !! e_target e = None) →
  nodes' !! root = Some Node_root →
  (∃ nx, nodes' !! e_target e = Some nx ∧ accounted cur np nx) →
  searching (Some cur) (e :: seen) d nodes' queue'.
Proof.
  intros [] Hcur He Hg Hnew Hflag Hq Hroot (nx & Hnx & Hacc).
  destruct (s_cur0 cur eq_refl) as [Hcq Hcd]. rewrite Hcur in Hcd. injection Hcd as Hcd.
  destruct (Hg cur np Hcur) as (np' & Hnp' & Hcore).
  assert (∀ x n', nodes' !! x = Some n' → (∃ n, nodes !! x = Some n ∧ same_core n n') ∨
    (nodes !! x = None ∧ x = e_target e ∧ n' = discovered cur np e)) as Hcase.
  { intros x n' Hx. destruct (nodes !! x) as [n|] eqn:E.
    - left. exists n. split; [done|]. destruct (Hg x n E) as (? & ? & ?). by simplify_eq.
    - right. split; [done|]. by apply Hnew. }
  assert (levels nodes' d queue) as Hlv.
  { eapply levels_depth; eauto. intros x n Hx Hn.
    destruct (Hnew x n Hx Hn) as [_ ->]. simpl. lia. }
  constructor.
  - done.
  - intros x n' Hx Hxr. destruct (Hcase x n' Hx) as [(n & Hn & Hc)|(_ & -> & ->)].
    + eapply hangs_on_grows; eauto.
    + exists cur, np', e. destruct Hcore. simpl. split_and!; congruence.
  - destruct Hq as [[-> _]|[-> Hn]]; [done|]. apply NoDup_app. split_and!; [done| |].
    + intros x Hx ->%list_elem_of_singleton. destruct (s_queue0 _ Hx). congruence.
    + apply NoDup_singleton.
  - intros x Hx. destruct Hq as [[-> _]|[-> Hn]].
    + destruct (s_queue0 x Hx) as [n Hn]. destruct (Hg x n Hn) as (n' & ? & _). eauto.
    + apply elem_of_app in Hx as [Hx| ->%list_elem_of_singleton]; [|eauto].
      destruct (s_queue0 x Hx) as [n Hn']. destruct (Hg x n Hn') as (n' & ? & _). eauto.
  - destruct Hq as [[-> _]|[-> Hn]]; [done|]. apply levels_push; [done|].
    destruct (Hcase _ _ Hnx) as [(n & ? & _)|(_ & _ & ->)]; [congruence|].
    rewrite Hnx. simpl. by rewrite Hcd.
  - intros p pn Hp Hpq Hpc e' He'.
    assert (p ∉ queue) as Hpq' by (destruct Hq as [[-> _]|[-> _]]; set_solver).
    destruct (Hcase p pn Hp) as [(pn0 & Hpn0 & Hpc0)|(Hpn & -> & _)].
    + destruct (s_closed0 p pn0 Hpn0 Hpq' Hpc e' He') as (y & Hy & Hya).
      destruct (Hg _ _ Hy) as (y' & Hy' & ?). exists y'. split; [done|].
      by eapply accounted_core.
    + exfalso. destruct Hq as [[-> []]|[-> _]]; [congruence|set_solver].
  - intros p pn e' [= <-] Hp He'. simplify_eq.
    apply elem_of_cons in He' as [->|He'].
    + exists nx. split; [done|]. by eapply accounted_core.
    + destruct (s_seen0 _ _ e' eq_refl Hcur He') as (y & Hy & Hya).
      destruct (Hg _ _ Hy) as (y' & Hy' & ?). exists y'. split; [done|].
      by eapply accounted_core.
  - intros p [= <-]. split.
    + destruct Hq as [[-> _]|[-> Hn]]; [done|].
      intros [?| ->%list_elem_of_singleton]%elem_of_app; [done|congruence].
    + rewrite Hnp'. simpl. destruct Hcore. congruence.
  - intros x n' Hx Ha. destruct (Hcase x n' Hx) as [(n & Hn & Hc)|(_ & -> & ->)]; [|done].
    destruct (Hflag x n n' Hn Hx Ha) as [Ha'|(-> & Hd & Hpar)].
    + eapply contested_grows; eauto.
    + exists cur, np'. destruct Hcore, Hc. split_and!; [done|congruence..|by exists e].
Qed.

Lemma visit_edge_searching cur seen d nodes queue e np st :
  searching (Some cur) seen d nodes queue → nodes !! cur = Some np →
  e ∈ edges_of adj cur →
  visit_edge cur (n_depth np) (n_fans_out np) (nodes, queue) e = st →
  searching (Some cur) (e :: seen) d st.1 st.2 ∧ grows nodes st.1.
Proof.
  intros Hs Hcur He <-. unfold visit_edge.
  destruct (s_cur _ _ _ _ _ Hs cur eq_refl) as [_ Hcd]. rewrite Hcur in Hcd.
  injection Hcd as Hcd.
  destruct (nodes !! e_target e) as [ex|] eqn:Ht.
  - pose proof (proj2 (s_levels _ _ _ _ _ Hs) _ _ Ht) as Hle.
    assert (¬ (n_depth ex = S (n_depth np) ∧ n_parent ex ≠ Some cur) →
      searching (Some cur) (e :: seen) d nodes queue) as Hsame.
    { intros Hno. eapply searching_upd; [exact Hs|exact Hcur|exact He|done|..].
      - congruence.
      - intros x n n' Hn Hn'. rewrite Hn in Hn'. injection Hn' as ->. auto.
      - eauto.
      - apply Hs.
      - exists ex. split; [done|]. split; [lia|]. intros Hd. left.
        apply dec_stable. tauto. }
    case_bool_decide as Hd; [case_bool_decide as Hp|]; simpl; try (split; [tauto|done]).
    assert (grows nodes (<[e_target e:=set_ambiguous ex]> nodes)) as Hg
      by by apply grows_flag.
    split; [|done]. eapply searching_upd; [exact Hs|exact Hcur|exact He|exact Hg|..].
    + intros x n. destruct (decide (e_target e = x)) as [<-|];
        [congruence|rewrite lookup_insert_ne by done; congruence].
    + intros x n n' Hn. destruct (decide (e_target e = x)) as [<-|].
      * rewrite Ht in Hn. injection Hn as <-. auto.
      * rewrite lookup_insert_ne, Hn by done. intros [= ->]. auto.
    + eauto.
    + rewrite lookup_insert_ne; [apply Hs|]. intros Heq.
      rewrite Heq, (s_root _ _ _ _ _ Hs) in Ht. by injection Ht as <-.
    + exists (set_ambiguous ex). rewrite lookup_insert_eq. split; [done|].
      split; simpl; [lia|by right].
  - simpl. assert (grows nodes (<[e_target e:=discovered cur np e]> nodes)) as Hg by
      by apply grows_new.
    split; [|done]. eapply searching_upd; [exact Hs|exact Hcur|exact He|exact Hg|..].
    + intros x n. destruct (decide (e_target e = x)) as [<-|].
      * rewrite lookup_insert_eq. by intros [= <-].
      * rewrite lookup_insert_ne by done. congruence.
    + intros x n n' Hx. rewrite lookup_insert_ne by congruence. rewrite Hx.
      intros [= ->]. auto.
    + auto.
    + rewrite lookup_insert_ne; [apply Hs|]. intros Heq.
      by rewrite Heq, (s_root _ _ _ _ _ Hs) in Ht.
    + exists (discovered cur np e). rewrite lookup_insert_eq. split; [done|].
      split; simpl; [lia|by left].
Qed.
Lemma expand_searching cur d es seen np nodes queue :
  searching (Some cur) seen d nodes queue → nodes !! cur = Some np →
  (∀ e, e ∈ es → e ∈ edges_of adj cur) →
  ∀ st, foldl (visit_edge cur (n_depth np) (n_fans_out np)) (nodes, queue) es = st →
  searching (Some cur) (reverse es ++ seen) d st.1 st.2 ∧ grows nodes st.1.
Proof.
  revert seen np nodes queue. induction es as [|e es IH]; intros seen np nodes queue Hs Hcur Hes
    st Hst; cbn [foldl] in Hst; [by subst|].
  destruct (visit_edge cur (n_depth np) (n_fans_out np) (nodes, queue) e) as [nodes1 queue1]
    eqn:Hv.
  destruct (visit_edge_searching _ _ _ _ _ _ _ _ Hs Hcur (Hes e ltac:(set_solver)) Hv)
    as [Hs1 Hg1]. simpl in Hs1, Hg1.
  destruct (Hg1 cur np Hcur) as (np1 & Hcur1 & Hcore).
  rewrite <-(sc_depth _ _ Hcore), <-(sc_fans _ _ Hcore) in Hst.
  destruct (IH (e :: seen) np1 nodes1 queue1 Hs1 Hcur1 ltac:(set_solver) st Hst) as [Hs2 Hg2].
  rewrite reverse_cons, <-app_assoc. split; [done|]. by etrans.
Qed.

Lemma pop_searching d nodes cur queue :
  searching None [] d nodes (cur :: queue) →
  ∃ np, nodes !! cur = Some np ∧ searching (Some cur) [] (n_depth np) nodes queue.
Proof.
  intros [Hroot Htree Hnd Hq Hlv Hcl _ _ Hamb].
  destruct (Hq cur ltac:(set_solver)) as [np Hnp]. exists np. split; [done|].
  apply NoDup_cons in Hnd as [Hcq Hnd].
  constructor; [done|done|done| | | | | |done].
  - set_solver.
  - destruct Hlv as [(q1 & q2 & Heq & H1 & H2) Hle].
    destruct q1 as [|x q1]; simplify_eq/=.
    + apply Forall_cons in H2 as [Hd H2]. rewrite Hnp in Hd. injection Hd as Hd. rewrite Hd.
      split; [exists queue, []; by rewrite app_nil_r|]. intros. transitivity (S d); eauto.
    + apply Forall_cons in H1 as [Hd H1]. rewrite Hnp in Hd. injection Hd as ->.
      split; [by exists q1, q2|done].
  - intros p pn Hp Hpq Hpc. apply Hcl; [done| |done]. set_solver.
  - set_solver.
  - intros p [= <-]. by rewrite Hnp.
Qed.

Lemma done_searching cur seen d nodes queue :
  searching (Some cur) seen d nodes queue → (∀ e, e ∈ edges_of adj cur → e ∈ seen) →
  searching None [] d nodes queue.
Proof.
  intros [] Hseen. constructor; try done.
  intros p np Hp Hpq _ e He. destruct (decide (p = cur)) as [->|]; [eauto|].
  apply s_closed0; congruence.
Qed.

Lemma start_searching : searching None [] 0 {[root := Node_root]} [root].
Proof.
  constructor; try done.
  - by rewrite lookup_singleton_eq.
  - intros x n [<- <-]%lookup_singleton_Some. done.
  - apply NoDup_singleton.
  - intros x ->%list_elem_of_singleton. rewrite lookup_singleton_eq. eauto.
  - split.
    + exists [root], []. split_and!; [done| |constructor]. constructor; [|constructor].
      by rewrite lookup_singleton_eq.
    + intros x n [<- <-]%lookup_singleton_Some. simpl. lia.
  - intros p np [<- _]%lookup_singleton_Some Hq. destruct Hq. constructor.
  - by intros x n [<- <-]%lookup_singleton_Some.
Qed.

(** Termination: each round dequeues, and only undiscovered models are enqueued. *)
Definition work (U : gset string) (nodes : Reach) (queue : list string) : nat :=
  size (U ∖ dom nodes) + length queue.

Lemma visit_edge_work U cur d f nodes queue e :
  e_target e ∈ U →
  work U (visit_edge cur d f (nodes, queue) e).1 (visit_edge cur d f (nodes, queue) e).2
    ≤ work U nodes queue.
Proof.
  intros HU. unfold visit_edge, work. destruct (nodes !! e_target e) as [ex|] eqn:Ht.
  - case_match; simpl; [|done]. rewrite dom_insert_L.
    assert ({[e_target e]} ∪ dom nodes = dom nodes) as ->; [|done].
    apply subseteq_union_L, singleton_subseteq_l, elem_of_dom. eauto.
  - simpl. rewrite dom_insert_L, length_app. simpl.
    assert (e_target e ∉ dom nodes) by by apply not_elem_of_dom.
    rewrite (size_remove U (dom nodes) (e_target e)) by done. lia.
Qed.

Lemma expand_work U cur d f es nodes queue :
  (∀ e, e ∈ es → e_target e ∈ U) →
  let st := foldl (visit_edge cur d f) (nodes, queue) es in
  work U st.1 st.2 ≤ work U nodes queue.
Proof.
  revert nodes queue. induction es as [|e es IH]; intros nodes queue HU; simpl; [done|].
  pose proof (visit_edge_work U cur d f nodes queue e ltac:(apply HU; set_solver)) as H1.
  destruct (visit_edge cur d f (nodes, queue) e) as [nodes1 queue1]. simpl in *.
  etrans; [apply IH; set_solver|done].
Qed.

(** With enough fuel the search ends, with the invariant and an empty queue. *)
Lemma bfs_searching U fuel d nodes queue :
  (∀ a e, e ∈ edges_of adj a → e_target e ∈ U) →
  searching None [] d nodes queue → work U nodes queue ≤ fuel →
  ∃ reach d', bfs fuel adj nodes queue = Some reach ∧ searching None [] d' reach [].
Proof.
  intros HU. revert d nodes queue.
  induction fuel as [|fuel IH]; intros d nodes [|cur queue] Hs Hw; simpl; [by eauto| |by eauto|].
  { unfold work in Hw; simpl in Hw. lia. }
  destruct (pop_searching _ _ _ _ Hs) as (np & Hnp & Hs1). rewrite Hnp.
  pose proof (expand_work U cur (n_depth np) (n_fans_out np) (edges_of adj cur) nodes queue
                (HU cur)) as Hw1.
  destruct (foldl _ _ _) as [nodes1 queue1] eqn:Hf. simpl in Hw1.
  destruct (expand_searching _ _ _ _ _ _ _ Hs1 Hnp (λ _ H, H) _ Hf) as [Hs2 _].
  assert (work U nodes (cur :: queue) = S (work U nodes queue)) as Hw2
    by (unfold work; simpl; lia).
  eapply IH; [|lia].
  eapply done_searching; [exact Hs2|]. intros e He. simpl.
  rewrite app_nil_r. by apply elem_of_reverse.
Qed.
End search.

(** ** What a finished search says *)

Record search_result (adj : Adj) (root : string) (reach : Reach) : Prop := {
  sr_root : reach !! root = Some Node_root;
  sr_tree : ∀ x n, reach !! x = Some n → x ≠ root → hangs_on adj reach x n;
  sr_closed : ∀ p np e, reach !! p = Some np → e ∈ edges_of adj p →
    ∃ nx, reach !! e_target e = Some nx ∧ accounted p np nx;
  sr_amb : ∀ x n, reach !! x = Some n → n_ambiguous n = true → contested adj reach x n
}.

Lemma searching_result adj root d reach :
  searching adj root None [] d reach [] → search_result adj root reach.
Proof. intros []. constructor; try done. intros p np e Hp. apply s_closed0; set_solver. Qed.

Section result.
Context {adj : Adj} {root : string} {reach : Reach} (Hsr : search_result adj root reach).

Lemma sr_complete k x : path adj k root x → ∃ n, reach !! x = Some n ∧ n_depth n ≤ k.
Proof using Hsr.
  remember root as r eqn:Hr. intros Hp. revert Hr.
  induction Hp as [a|n a b y Hp IH (e & He & <-)]; intros ->.
  - exists Node_root. split; [by apply (sr_root _ _ _ Hsr)|simpl; lia].
  - destruct (IH Hsr eq_refl) as (nb & Hb & Hle).
    destruct (sr_closed _ _ _ Hsr _ _ _ Hb He) as (ny & Hy & [Hd _]).
    exists ny. split; [done|lia].
Qed.

Lemma sr_depth_root x n : reach !! x = Some n → n_depth n = 0 → x = root.
Proof using Hsr.
  intros Hx Hd. destruct (decide (x = root)) as [|Hne]; [done|].
  destruct (sr_tree _ _ _ Hsr x n Hx Hne) as (p & np & e & _ & _ & _ & _ & Hd' & _). lia.
Qed.

Lemma sr_sound x n : reach !! x = Some n → path adj (n_depth n) root x.
Proof using Hsr.
  remember (n_depth n) as k eqn:Hk. revert x n Hk.
  induction k as [|k IH]; intros x n Hk Hx.
  { rewrite (sr_depth_root x n) by done. constructor. }
  destruct (decide (x = root)) as [->|Hne].
  { rewrite (sr_root _ _ _ Hsr) in Hx. by injection Hx as <-. }
  destruct (sr_tree _ _ _ Hsr x n Hx Hne) as (p & np & e & _ & Hp & He & Ht & Hd & _).
  econstructor; [eapply IH; [|exact Hp]; lia|]. by exists e.
Qed.

Lemma sr_contested x n :
  reach !! x = Some n → contested adj reach x n → n_ambiguous n = true.
Proof using Hsr.
  intros Hx (p & np & Hp & Hpar & Hd & e & He & <-).
  destruct (sr_closed _ _ _ Hsr _ _ _ Hp He) as (ny & Hy & [_ Hor]).
  rewrite Hx in Hy. injection Hy as <-. destruct (Hor Hd); [done|done].
Qed.

(** The recorded join path of [x]: its edges, root first. *)
Inductive join_path : string → list Edge → Prop :=
| jp_root : join_path root []
| jp_step x n p e es : reach !! x = Some n → x ≠ root → n_parent n = Some p →
    e ∈ edges_of adj p → e_target e = x → n_on n = Some (e_on e) → n_kind n = Some (e_kind e) →
    join_path p es → join_path x (es ++ [e]).

Lemma sr_join_path x n :
  reach !! x = Some n →
  ∃ es, join_path x es ∧ length es = n_depth n ∧ n_fans_out n = existsb e_fans_out es.
Proof using Hsr.
  remember (n_depth n) as k eqn:Hk. revert x n Hk.
  induction k as [|k IH]; intros x n Hk Hx.
  - assert (x = root) as -> by by eapply sr_depth_root.
    rewrite (sr_root _ _ _ Hsr) in Hx. injection Hx as <-.
    exists []. split_and!; [constructor|done..].
  - destruct (decide (x = root)) as [->|Hne].
    { rewrite (sr_root _ _ _ Hsr) in Hx. by injection Hx as <-. }
    destruct (sr_tree _ _ _ Hsr x n Hx Hne)
      as (p & np & e & Hpar & Hp & He & Ht & Hd & Hf & Hon & Hkind).
    destruct (IH p np ltac:(lia) Hp) as (es & Hjp & Hlen & Hfo).
    exists (es ++ [e]). split_and!; [by eapply jp_step|rewrite length_app; simpl; lia|].
    rewrite existsb_app, <-Hfo, Hf. simpl. by rewrite orb_false_r.
Qed.
End result.

(** ** The adjacency map *)

(** The type invariant of a catalog: models are filed under their names. *)
Definition catalog_wf (c : SemanticCatalog) : Prop :=
  ∀ k m, models c !! k = Some m → sm_name m = k.

Record adj_ok (c : SemanticCatalog) (adj : Adj) : Prop := {
  ao_target : ∀ a e, e ∈ edges_of adj a → is_Some (models c !! e_target e);
  ao_unique : ∀ a, NoDup (map e_target (edges_of adj a));
  ao_fans : ∀ a e, e ∈ edges_of adj a → e_fans_out e = bool_decide (e_kind e = OneToMany)
}.

Lemma edges_of_push from edge adj a :
  edges_of (push_edge from edge adj) a =
    if decide (a = from)
    then if existsb (λ e, bool_decide (e_target e = e_target edge)) (edges_of adj from)
         then edges_of adj from else edges_of adj from ++ [edge]
    else edges_of adj a.
Proof.
  unfold push_edge. destruct (existsb _ _); unfold edges_of at 1; case_decide; subst;
    rewrite ?lookup_insert_eq, ?lookup_insert_ne by done; done.
Qed.

Lemma existsb_target l t :
  existsb (λ e, bool_decide (e_target e = t)) l = true ↔ t ∈ map e_target l.
Proof.
  rewrite existsb_exists. setoid_rewrite bool_decide_eq_true.
  rewrite list_elem_of_In, in_map_iff. naive_solver.
Qed.

Lemma push_edge_cases from edge adj a :
  edges_of (push_edge from edge adj) a = edges_of adj a ∨
  (a = from ∧ edges_of (push_edge from edge adj) a = edges_of adj from ++ [edge] ∧
   e_target edge ∉ map e_target (edges_of adj from)).
Proof.
  rewrite edges_of_push. case_decide as Ha; [subst a|by left].
  destruct (existsb _ _) eqn:Hex; [by left|right]. split_and!; [done..|].
  intros Hin%existsb_target. congruence.
Qed.

Lemma push_edge_ok c from target kind on adj :
  adj_ok c adj → is_Some (models c !! target) →
  adj_ok c (push_edge from (mk_edge target kind on) adj).
Proof.
  intros [] Ht. split; intros a;
    destruct (push_edge_cases from (mk_edge target kind on) adj a) as [-> |(-> & -> & Hn)]; eauto.
  - intros e [?| ->%list_elem_of_singleton]%elem_of_app; eauto.
  - rewrite map_app. apply NoDup_app. split_and!; [done| |apply NoDup_singleton].
    by intros t Hin ->%list_elem_of_singleton.
  - intros e [?| ->%list_elem_of_singleton]%elem_of_app; eauto.
Qed.

Lemma adjacency_ok c : catalog_wf c → adj_ok c (adjacency c).
Proof.
  intros Hwf. unfold adjacency.
  assert (adj_ok c ∅) as H0.
  { split; unfold edges_of; intros a; rewrite lookup_empty; simpl; [set_solver|constructor|set_solver]. }
  revert H0. generalize (∅ : Adj). induction (sorted_names c) as [|name names IH]; [done|].
  intros adj Hadj. simpl. apply IH. destruct (models c !! name) as [m|] eqn:Hm; [|done].
  clear IH. revert adj Hadj. induction (sm_relationships m) as [|rel rels IH]; [done|].
  intros adj Hadj. simpl. apply IH. unfold push_relationship, contains_key.
  destruct (models c !! rel_target_model rel) eqn:Ht; simpl; [|done].
  apply push_edge_ok; [apply push_edge_ok; [done|by rewrite Ht]|].
  rewrite (Hwf _ _ Hm). eauto.
Qed.

(** ** The graph is the symmetric closure of the declared relationships *)

(** [a] declares a relationship to the (known) model [b]. *)
Definition declares (c : SemanticCatalog) (a b : string) : Prop :=
  ∃ m rel, models c !! a = Some m ∧ rel ∈ sm_relationships m ∧
    rel_target_model rel = b ∧ is_Some (models c !! b).

Lemma edge_push from e adj a b :
  edge (push_edge from e adj) a b ↔ edge adj a b ∨ (a = from ∧ b = e_target e).
Proof.
  unfold edge. destruct (push_edge_cases from e adj a) as [H|(-> & -> & Hn)].
  - rewrite H. split; [by left|]. intros [?|[-> ->]]; [done|].
    rewrite edges_of_push, decide_True in H by done.
    destruct (existsb _ _) eqn:Hex.
    + apply existsb_target in Hex. apply list_elem_of_In, in_map_iff in Hex as (e' & ? & ?).
      exists e'. by rewrite list_elem_of_In.
    + exfalso. apply (f_equal length) in H. rewrite length_app in H. simpl in H. lia.
  - split.
    + intros (e' & [?| ->%list_elem_of_singleton]%elem_of_app & <-); eauto.
    + intros [(e' & ? & <-)|[_ ->]]; [exists e'|exists e]; set_solver.
Qed.

Lemma edge_push_relationship c m adj rel a b :
  edge (push_relationship c m adj rel) a b ↔ edge adj a b ∨
    (is_Some (models c !! rel_target_model rel) ∧
     ((a = sm_name m ∧ b = rel_target_model rel) ∨ (b = sm_name m ∧ a = rel_target_model rel))).
Proof.
  unfold push_relationship, contains_key.
  destruct (models c !! rel_target_model rel) eqn:Ht; simpl.
  - rewrite !edge_push. simpl. split; [naive_solver|]. naive_solver.
  - split; [by left|]. intros [?|[[]%is_Some_None _]]. done.
Qed.

Lemma edge_fold_rels c m rels adj a b :
  edge (foldl (push_relationship c m) adj rels) a b ↔ edge adj a b ∨
    ∃ rel, rel ∈ rels ∧ is_Some (models c !! rel_target_model rel) ∧
      ((a = sm_name m ∧ b = rel_target_model rel) ∨ (b = sm_name m ∧ a = rel_target_model rel)).
Proof.
  revert adj. induction rels as [|rel rels IH]; intros adj; simpl.
  - split; [by left|]. intros [?|(rel & []%elem_of_nil & _)]. done.
  - rewrite IH, edge_push_relationship. setoid_rewrite elem_of_cons. naive_solver.
Qed.

Lemma edge_adjacency c a b :
  catalog_wf c → edge (adjacency c) a b ↔ declares c a b ∨ declares c b a.
Proof.
  intros Hwf. unfold adjacency.
  assert (∀ names adj, (∀ n, n ∈ names → is_Some (models c !! n)) →
    edge (foldl (λ adj name, match models c !! name with
      | Some model => foldl (push_relationship c model) adj (sm_relationships model)
      | None => adj end) adj names) a b ↔
    edge adj a b ∨ (a ∈ names ∧ declares c a b) ∨ (b ∈ names ∧ declares c b a)) as Hfold.
  { induction names as [|name names IH]; intros adj Hn; simpl.
    - split; [by left|]. by intros [?|[[[]%elem_of_nil _]|[[]%elem_of_nil _]]].
    - destruct (Hn name ltac:(set_solver)) as [m Hm]. rewrite Hm, IH by set_solver.
      rewrite edge_fold_rels, (Hwf _ _ Hm), !elem_of_cons. unfold declares.
      split; [|naive_solver]. intros [[?|(rel & ? & Ht & [[-> ->]|[-> ->]])]|]; naive_solver. }
  rewrite Hfold.
  - assert (¬ edge ∅ a b) as Hno.
    { intros (e & He & _). unfold edges_of in He. rewrite lookup_empty in He. set_solver. }
    assert (∀ x y, declares c x y → x ∈ sorted_names c) as Hin.
    { intros x y (m & rel & Hm & _). apply elem_of_sort_by, elem_of_elements, elem_of_dom. eauto. }
    naive_solver.
  - intros n Hn. by apply elem_of_sort_by, elem_of_elements, elem_of_dom in Hn.
Qed.

(** ** Properties of [reachability] *)

Lemma reachability_result c root :
  catalog_wf c →
  reachability_opt c root = Some (reachability c root) ∧
  search_result (adjacency c) root (reachability c root).
Proof.
  intros Hwf. destruct (adjacency_ok c Hwf) as [Ht _ _].
  destruct (bfs_searching (adjacency c) root ({[root]} ∪ dom (models c)) (bfs_fuel c) 0
              {[root := Node_root]} [root]) as (reach & d & Hb & Hs).
  - intros a e He. apply elem_of_union_r, elem_of_dom. by eapply Ht.
  - apply start_searching.
  - unfold work, bfs_fuel. rewrite dom_singleton_L. simpl.
    assert (({[root]} ∪ dom (models c)) ∖ {[root]} ⊆@{gset string} dom (models c)) as Hsub
      by set_solver.
    apply subseteq_size in Hsub. rewrite size_dom in Hsub. lia.
  - unfold reachability, reachability_opt. rewrite Hb. split; [done|].
    by eapply searching_result.
Qed.

(** ** Climbing from a referenced model to the root *)

(** [y] is met on the way from [x] to the root. *)
Inductive on_climb (reach : Reach) (root : string) : string → string → Prop :=
| oc_here x : x ≠ root → on_climb reach root x x
| oc_up x n p y : x ≠ root → reach !! x = Some n → n_parent n = Some p →
    on_climb reach root p y → on_climb reach root x y.

Section climbing.
Context {adj : Adj} {root : string} {reach : Reach} (Hsr : search_result adj root reach).

Lemma climb_spec fuel x n set :
  reach !! x = Some n → n_depth n < fuel →
  ∃ set', climb fuel reach root x set = Ok set' ∧
    ∀ y, y ∈ set' ↔ y ∈ set ∨ on_climb reach root x y.
Proof using Hsr.
  revert x n set. induction fuel as [|fuel IH]; intros x n set Hx Hf; [lia|]. simpl.
  case_decide as Hr.
  - subst. exists set. split; [done|]. intros y. split; [by left|].
    intros [?|Hc]; [done|]. by inversion Hc.
  - rewrite Hx. simpl.
    destruct (sr_tree _ _ _ Hsr x n Hx Hr) as (p & np & e & Hpar & Hp & _ & _ & Hd & _).
    rewrite Hpar. simpl. destruct (IH p np ({[x]} ∪ set) Hp ltac:(lia)) as (s & Hs & Hin).
    exists s. split; [done|]. intros y. rewrite Hin, elem_of_union, elem_of_singleton. split.
    + intros [[->|?]|?]; [right; by constructor|by left|right; by eapply oc_up].
    + intros [?|Hc]; [by left; right|].
      inversion Hc as [|? n' p' ? ? Hx' Hpar' Hc']; subst; [by left; left|].
      right. congruence.
Qed.

Lemma on_climb_reached x y n :
  reach !! x = Some n → on_climb reach root x y → y ≠ root ∧ is_Some (reach !! y).
Proof using Hsr.
  intros Hx Hc. revert n Hx.
  induction Hc as [x Hne|x n p y Hne Hx Hpar Hc IH]; intros m Hm; [eauto|].
  destruct (sr_tree _ _ _ Hsr x n Hx Hne) as (p' & np & _ & Hpar' & Hp & _).
  apply (IH np). congruence.
Qed.

(** A model on the climb has its parent on the climb, or hanging off the root. *)
Lemma on_climb_parent x y n :
  reach !! y = Some n → on_climb reach root x y →
  ∃ p, n_parent n = Some p ∧ (p = root ∨ on_climb reach root x p).
Proof using Hsr.
  intros Hy Hc. revert n Hy.
  induction Hc as [x Hne|x nx p y Hne Hx Hpar Hc IH]; intros n Hy.
  - destruct (sr_tree _ _ _ Hsr x n Hy Hne) as (p & np & _ & Hpar & _).
    exists p. split; [done|]. destruct (decide (p = root)); [by left|right].
    eapply oc_up; [done..|]. by constructor.
  - destruct (IH n Hy) as (p' & ? & [?|?]); exists p'; split; auto. right. by eapply oc_up.
Qed.

Lemma climb_all referenced set :
  (∀ x, x ∈ referenced → is_Some (reach !! x)) →
  ∃ set', try_fold (λ set model, if decide (model = root) then Ok set
      else climb (climb_fuel reach model) reach root model set) set referenced = Ok set' ∧
    ∀ y, y ∈ set' ↔ y ∈ set ∨ ∃ x, x ∈ referenced ∧ on_climb reach root x y.
Proof using Hsr.
  revert set. induction referenced as [|x l IH]; intros set Hall; simpl.
  { exists set. split; [done|]. set_solver. }
  destruct (Hall x ltac:(set_solver)) as [n Hx]. case_decide as Hr.
  - simpl. destruct (IH set ltac:(set_solver)) as (s & Hs & Hin). exists s. split; [done|].
    intros y. rewrite Hin. setoid_rewrite elem_of_cons. split; [naive_solver|].
    intros [?|(z & [->|?] & Hc)]; [by left| |by right; eauto]. subst. by inversion Hc.
  - assert (climb_fuel reach x = S (n_depth n)) as -> by (unfold climb_fuel; by rewrite Hx).
    destruct (climb_spec (S (n_depth n)) x n set Hx ltac:(lia)) as (s1 & Hs1 & Hin1).
    rewrite Hs1. simpl. destruct (IH s1 ltac:(set_solver)) as (s & Hs & Hin).
    exists s. split; [done|]. intros y. rewrite Hin, Hin1. setoid_rewrite elem_of_cons.
    naive_solver.
Qed.
End climbing.

Lemma depth_key_total reach x y :
  (depth_key reach x <=? depth_key reach y)%N = true ∨
  (depth_key reach y <=? depth_key reach x)%N = true.
Proof. rewrite !N.leb_le. lia. Qed.

Lemma depth_key_trans reach x y z :
  (depth_key reach x <=? depth_key reach y)%N = true →
  (depth_key reach y <=? depth_key reach z)%N = true →
  (depth_key reach x <=? depth_key reach z)%N = true.
Proof. rewrite !N.leb_le. lia. Qed.

Lemma needed_models_result `{!HashIter string} adj root reach referenced :
  search_result adj root reach → (∀ x, x ∈ referenced → is_Some (reach !! x)) →
  ∃ out, needed_models reach referenced root = Ok out ∧ NoDup out ∧
    (∀ y, y ∈ out ↔ ∃ x, x ∈ referenced ∧ on_climb reach root x y) ∧
    (∀ l1 y l2, out = l1 ++ y :: l2 →
       ∃ n p, reach !! y = Some n ∧ n_parent n = Some p ∧ (p = root ∨ p ∈ l1)).
Proof.
  intros Hsr Hall. unfold needed_models.
  destruct (climb_all Hsr referenced ∅ Hall) as (s & -> & Hin). simpl.
  eexists. split; [done|].
  assert (∀ y, y ∈ sort_by (λ a b, depth_key reach a <=? depth_key reach b)%N (hash_iter s) ↔
    ∃ x, x ∈ referenced ∧ on_climb reach root x y) as Hout.
  { intros y. rewrite elem_of_sort_by, elem_of_hash_iter, Hin. set_solver. }
  split_and!; [|done|].
  { rewrite sort_by_perm, hash_iter_perm. apply NoDup_elements. }
  intros l1 y l2 Heq.
  destruct (proj1 (Hout y)) as (x & Hx & Hc); [rewrite Heq; set_solver|].
  destruct (Hall x Hx) as [nx Hnx].
  destruct (on_climb_reached Hsr x y nx Hnx Hc) as [Hyr [n Hn]].
  destruct (on_climb_parent Hsr x y n Hn Hc) as (p & Hpar & Hp).
  exists n, p. split_and!; [done..|]. destruct Hp as [->|Hp]; [by left|].
  destruct (decide (p = root)) as [|Hpr]; [by left|right].
  assert (p ∈ l1 ++ y :: l2) as Hmem by (rewrite <-Heq; apply Hout; eauto).
  destruct (sr_tree _ _ _ Hsr y n Hn Hyr) as (p' & np & e & Hpar' & Hp' & _ & _ & Hd & _).
  assert (p' = p) as -> by congruence.
  apply elem_of_app in Hmem as [|[->|Hl2]%elem_of_cons]; [done| |].
  { rewrite Hn in Hp'. injection Hp' as ->. lia. }
  pose proof (sort_by_sorted _ (depth_key_total reach) (depth_key_trans reach) (hash_iter s))
    as Hsort. rewrite Heq in Hsort.
  apply StronglySorted_app in Hsort as (_ & _ & Hsort).
  apply StronglySorted_inv in Hsort as [_ Hsort].
  rewrite Forall_forall in Hsort. specialize (Hsort p Hl2).
  unfold depth_key in Hsort. rewrite Hn, Hp' in Hsort. apply N.leb_le in Hsort. lia.
Qed.
