(* ===== verification/GraphProps.v ===== *)
(** * Properties of the join graph
    The claims about [adjacency], [reachability] and [needed_models], stated on the declared
    relationships, with a sample catalog on which they are applied. *)

From S2P Require Export GraphFacts.

(** ** Catalogs are well formed *)

Lemma collect_lookup {A} (name : A → string) l k :
  collect name l !! k = list_find (λ x, name x = k) (reverse l) ≫= (λ p, Some p.2).
Proof.
  unfold collect. induction l as [|x l IH] using rev_ind; [done|].
  rewrite foldl_app, reverse_snoc. simpl. destruct (decide (name x = k)) as [<-|Hne].
  - by rewrite lookup_insert_eq.
  - rewrite lookup_insert_ne, IH by done.
    by destruct (list_find _ _) as [[]|].
Qed.

Lemma collect_named {A} (name : A → string) l k x :
  collect name l !! k = Some x → name x = k ∧ x ∈ l.
Proof.
  rewrite collect_lookup. destruct (list_find _ _) as [[i y]|] eqn:Hf; [|done].
  simpl. intros [= ->]. apply list_find_Some in Hf as (Hl & ? & _).
  split; [done|]. apply elem_of_reverse. by eapply list_elem_of_lookup_2.
Qed.

Lemma collect_some {A} (name : A → string) l x :
  x ∈ l → is_Some (collect name l !! name x).
Proof.
  intros Hx. rewrite collect_lookup.
  destruct (list_find_elem_of (λ y, name y = name x) (reverse l) x) as [p ->];
    [by apply elem_of_reverse|done|eauto].
Qed.

Lemma collect_catalog_wf ms mets : catalog_wf (new_with_metrics ms mets).
Proof. intros k m H. by apply collect_named in H as []. Qed.

(** ** Walks along declared relationships *)

Definition related (c : SemanticCatalog) (a b : string) : Prop :=
  declares c a b ∨ declares c b a.

Inductive walk (c : SemanticCatalog) : nat → string → string → Prop :=
| walk_nil a : walk c 0 a a
| walk_snoc n a b d : walk c n a b → related c b d → walk c (S n) a d.

Lemma walk_path c n a b : catalog_wf c → walk c n a b ↔ path (adjacency c) n a b.
Proof.
  intros Hwf. split; induction 1; econstructor; eauto; by apply edge_adjacency.
Qed.

(** A catalog of three models: [a] declares two, of which [y] is declared back. *)
Definition bare_model (name : string) (rels : list Relationship) : SemanticModel :=
  {| sm_name := name; sm_description := None; sm_source := "main." +:+ name;
     sm_primary_key := []; sm_dimensions := []; sm_measures := [];
     sm_relationships := rels; sm_pre_aggregations := []; sm_segments := [];
     sm_safety := None |}.

Definition rel_to (target : string) (kind : RelationshipKind) : Relationship :=
  {| rel_name := target; rel_kind := kind; rel_target_model := target;
     rel_join_predicate := "this.id = " +:+ target +:+ ".id" |}.

(** [a] reaches [d] through both [b] and [e]; [f] hangs off [d] by a one-to-many edge. *)
Definition diamond : SemanticCatalog :=
  new [bare_model "a" [rel_to "b" ManyToOne; rel_to "e" ManyToOne];
       bare_model "b" [rel_to "d" ManyToOne];
       bare_model "d" [rel_to "f" OneToMany];
       bare_model "e" [rel_to "d" ManyToOne];
       bare_model "f" []].

Lemma diamond_wf : catalog_wf diamond.
Proof. apply collect_catalog_wf. Qed.

Definition depth_of (c : SemanticCatalog) (root x : string) : option nat :=
  n_depth <$> reachability c root !! x.

Example diamond_search :
  map (depth_of diamond "a") ["a"; "b"; "e"; "d"; "f"; "g"]
  = [Some 0; Some 1; Some 1; Some 2; Some 3; None].
Proof. vm_compute. reflexivity. Qed.

(** ** Edges of the graph *)

(** The edge [e] out of [a] renders the relationship [rel] of [m]. *)
Definition renders (c : SemanticCatalog) (a : string) (e : Edge) : Prop :=
  ∃ owner m rel, models c !! owner = Some m ∧ rel ∈ sm_relationships m ∧
    is_Some (models c !! rel_target_model rel) ∧
    e_on e = replace (rel_join_predicate rel) "this." (owner +:+ ".") ∧
    ((a = owner ∧ e_target e = rel_target_model rel ∧ e_kind e = rel_kind rel) ∨
     (a = rel_target_model rel ∧ e_target e = owner ∧ e_kind e = invert_kind (rel_kind rel))).

Lemma push_renders c from e adj :
  (∀ a x, x ∈ edges_of adj a → renders c a x) → renders c from e →
  ∀ a x, x ∈ edges_of (push_edge from e adj) a → renders c a x.
Proof.
  intros Hadj He a x. destruct (push_edge_cases from e adj a) as [-> |(-> & -> & _)]; [by eauto|].
  intros [?| ->%list_elem_of_singleton]%elem_of_app; eauto.
Qed.

Lemma adjacency_renders c : catalog_wf c → ∀ a e, e ∈ edges_of (adjacency c) a → renders c a e.
Proof.
  intros Hwf. unfold adjacency.
  assert (∀ a e, e ∈ edges_of ∅ a → renders c a e) as H0.
  { intros a e He. unfold edges_of in He. rewrite lookup_empty in He. set_solver. }
  revert H0. generalize (∅ : Adj). induction (sorted_names c) as [|name names IH]; [done|].
  intros adj Hadj. simpl. apply IH. clear IH.
  destruct (models c !! name) as [m|] eqn:Hm; [|done].
  assert (∀ rel, rel ∈ sm_relationships m → rel ∈ sm_relationships m) as Hin by done.
  revert Hin adj Hadj. generalize (sm_relationships m) at 1 3 as rels.
  induction rels as [|rel rels IH]; intros Hin adj Hadj; simpl; [done|].
  apply IH; [set_solver|]. unfold push_relationship, contains_key.
  destruct (models c !! rel_target_model rel) eqn:Ht; simpl; [|done].
  pose proof (Hwf _ _ Hm) as Hn.
  apply push_renders; [apply push_renders; [done|]|];
    exists name, m, rel; rewrite Hn, Ht; split_and!; eauto; set_solver.
Qed.

(** The relationship graph is the symmetric closure of the declared relationships
    between known models: every edge renders a declaration of either end (its cardinality
    inverted, and [this.] rewritten to the declaring model, when travelled backwards), every
    declaration has an edge in both directions, there is at most one edge per ordered pair
    of models, and an edge multiplies rows exactly when its cardinality in the direction
    of travel is [one_to_many]. *)
Theorem adjacency_symmetric c :
  catalog_wf c →
  (∀ a e, e ∈ edges_of (adjacency c) a →
     renders c a e ∧ e_fans_out e = bool_decide (e_kind e = OneToMany)) ∧
  (∀ a b, edge (adjacency c) a b ↔ related c a b) ∧
  (∀ a e e', e ∈ edges_of (adjacency c) a → e' ∈ edges_of (adjacency c) a →
     e_target e = e_target e' → e = e').
Proof.
  intros Hwf. destruct (adjacency_ok c Hwf) as [_ Huniq Hfans]. split_and!.
  - intros a e He. split; [by apply adjacency_renders|by eapply Hfans].
  - intros a b. by apply edge_adjacency.
  - intros a e e' He He' Ht. specialize (Huniq a).
    apply list_elem_of_lookup in He as [i Hi]. apply list_elem_of_lookup in He' as [j Hj].
    assert (i = j) as ->.
    { eapply (NoDup_lookup _ i j (e_target e) Huniq);
        rewrite list_lookup_fmap; [by rewrite Hi|by rewrite Hj, Ht]. }
    congruence.
Qed.

Lemma adjacency_symmetric_witness :
  edge (adjacency diamond) "f" "d" ∧ related diamond "f" "d".
Proof.
  assert (edge (adjacency diamond) "f" "d") as H.
  { exists (mk_edge "d" ManyToOne "d.id = f.id"). split; [vm_compute; left|reflexivity]. }
  split; [exact H|]. apply (adjacency_symmetric diamond diamond_wf), H.
Defined.

(** The breadth-first search over the join graph always finishes, reaches exactly the
    models connected to the root by declared relationships (in either direction), and
    records for each the length of a shortest such connection. *)
Theorem reachability_shortest c root :
  catalog_wf c →
  reachability_opt c root = Some (reachability c root) ∧
  (∀ x, is_Some (reachability c root !! x) ↔ ∃ k, walk c k root x) ∧
  (∀ x n, reachability c root !! x = Some n →
     walk c (n_depth n) root x ∧ ∀ k, walk c k root x → n_depth n ≤ k).
Proof.
  intros Hwf. destruct (reachability_result c root Hwf) as [Ht Hsr].
  split_and!; [done| |].
  - intros x. split.
    + intros [n Hn]. exists (n_depth n). apply walk_path; [done|]. by eapply sr_sound.
    + intros [k Hk]. apply walk_path in Hk; [|done].
      destruct (sr_complete Hsr k x Hk) as (n & Hn & _). eauto.
  - intros x n Hn. split.
    + apply walk_path; [done|]. by eapply sr_sound.
    + intros k Hk. apply walk_path in Hk; [|done].
      destruct (sr_complete Hsr k x Hk) as (n' & Hn' & Hle). congruence.
Qed.

Lemma reachability_shortest_witness :
  walk diamond 3 "a" "f" ∧ ¬ walk diamond 2 "a" "f".
Proof.
  destruct (reachability_shortest diamond "a" diamond_wf) as (_ & _ & H).
  destruct (reachability diamond "a" !! "f") as [n|] eqn:Hn; [|vm_compute in Hn; discriminate].
  assert (n_depth n = 3) as Hd by (vm_compute in Hn; injection Hn as <-; reflexivity).
  destruct (H "f" n Hn) as [Hw Hmin]. rewrite Hd in Hw, Hmin. split; [exact Hw|].
  intros H2. specialize (Hmin 2 H2). lia.
Defined.

Lemma join_path_fans c root x n :
  catalog_wf c → reachability c root !! x = Some n →
  ∃ es, join_path (adj := adjacency c) (root := root) (reach := reachability c root) x es ∧
    length es = n_depth n ∧
    (n_fans_out n = true ↔ ∃ e, e ∈ es ∧ e_kind e = OneToMany) ∧
    (x ≠ root → ∃ e, last es = Some e ∧ n_on n = Some (e_on e) ∧ n_kind n = Some (e_kind e)).
Proof.
  intros Hwf Hx. destruct (reachability_result c root Hwf) as [_ Hsr].
  destruct (adjacency_ok c Hwf) as [_ _ Hfans].
  destruct (sr_join_path Hsr x n Hx) as (es & Hp & Hlen & Hf).
  exists es. split_and!; [done..| |].
  - assert (∀ e, e ∈ es → e_fans_out e = bool_decide (e_kind e = OneToMany)) as Hes.
    { clear Hlen Hf Hx. intros e He. induction Hp; [by apply elem_of_nil in He|].
      apply elem_of_app in He as [?|He]; [by auto|].
      apply list_elem_of_singleton in He as ->. by eapply Hfans. }
    rewrite Hf, existsb_exists. setoid_rewrite <-list_elem_of_In.
    split; intros (e & He & H); exists e; (split; [done|]);
      rewrite (Hes e He) in *; by rewrite bool_decide_eq_true in *.
  - intros Hne. destruct Hp as [|x n' p e es' Hn' _ _ _ _ Hon Hkind]; [done|].
    exists e. rewrite last_snoc. split_and!; congruence.
Qed.

(** A reached model is flagged as fanning out exactly when the shortest join path
    recorded for it crosses a [one_to_many] edge; the path has the recorded length and
    its last edge supplies the recorded join condition and cardinality. *)
Theorem reachability_fans_out c root x n :
  catalog_wf c → reachability c root !! x = Some n →
  ∃ es, join_path (adj := adjacency c) (root := root) (reach := reachability c root) x es ∧
    length es = n_depth n ∧
    (n_fans_out n = true ↔ ∃ e, e ∈ es ∧ e_kind e = OneToMany) ∧
    (x ≠ root → ∃ e, last es = Some e ∧ n_on n = Some (e_on e) ∧ n_kind n = Some (e_kind e)).
Proof. apply join_path_fans. Qed.

Lemma reachability_fans_out_witness :
  ∃ n es e, reachability diamond "a" !! "f" = Some n ∧ n_fans_out n = true ∧
    length es = 3 ∧ e ∈ es ∧ e_kind e = OneToMany.
Proof.
  destruct (reachability diamond "a" !! "f") as [n|] eqn:Hn; [|vm_compute in Hn; discriminate].
  destruct (reachability_fans_out diamond "a" "f" n diamond_wf Hn) as (es & _ & Hlen & Hf & _).
  vm_compute in Hn. injection Hn as <-. destruct Hf as [Hf _].
  destruct (Hf eq_refl) as (e & He & Hk). eexists. exists es, e. split_and!; [reflexivity|done..].
Defined.

(** A reached model is flagged ambiguous exactly when two different models one step
    closer to the root are both related to it, i.e. when a second shortest join path enters
    it through another predecessor. *)
Theorem reachability_ambiguous c root x n :
  catalog_wf c → reachability c root !! x = Some n →
  n_ambiguous n = true ↔
  ∃ p q np nq, p ≠ q ∧
    reachability c root !! p = Some np ∧ reachability c root !! q = Some nq ∧
    n_depth n = S (n_depth np) ∧ n_depth n = S (n_depth nq) ∧
    related c p x ∧ related c q x.
Proof.
  intros Hwf Hx. destruct (reachability_result c root Hwf) as [_ Hsr].
  assert (∀ p, edge (adjacency c) p x ↔ related c p x) as He by (intros; by apply edge_adjacency).
  split.
  - intros Ha. destruct (sr_amb _ _ _ Hsr x n Hx Ha) as (p & np & Hp & Hpar & Hd & Hex).
    destruct (decide (x = root)) as [->|Hne].
    { rewrite (sr_root _ _ _ Hsr) in Hx. by injection Hx as <-. }
    destruct (sr_tree _ _ _ Hsr x n Hx Hne) as (q & nq & e & Hq & Hnq & Heq & Ht & Hdq & _).
    exists p, q, np, nq. split_and!; try done; [congruence|by apply He|].
    apply He. by exists e.
  - intros (p & q & np & nq & Hpq & Hp & Hq & Hdp & Hdq & Hrp & Hrq).
    apply (sr_contested Hsr x n Hx). destruct (decide (n_parent n = Some p)).
    + exists q, nq. split_and!; [done|congruence|done|by apply He].
    + exists p, np. split_and!; [done..|by apply He].
Qed.

Lemma reachability_ambiguous_witness :
  ∃ n p q, reachability diamond "a" !! "d" = Some n ∧ n_ambiguous n = true ∧ p ≠ q ∧
    related diamond p "d" ∧ related diamond q "d".
Proof.
  destruct (reachability diamond "a" !! "d") as [n|] eqn:Hn; [|vm_compute in Hn; discriminate].
  destruct (proj1 (reachability_ambiguous diamond "a" "d" n diamond_wf Hn))
    as (p & q & np & nq & Hpq & _ & _ & _ & _ & Hp & Hq).
  { vm_compute in Hn. injection Hn as <-. reflexivity. }
  exists n, p, q. split; [reflexivity|]. split; [|exact (conj Hpq (conj Hp Hq))].
  vm_compute in Hn. injection Hn as <-. reflexivity.
Defined.

(** When every referenced model is reachable, [needed_models] succeeds; it lists
    exactly the models on the recorded ways from the referenced models up to the root,
    each once, and always after the model its join condition hangs off, whatever the
    iteration order of the hash set it collects them in. *)
Theorem needed_models_ordered `{!HashIter string} c root referenced :
  catalog_wf c → (∀ x, x ∈ referenced → is_Some (reachability c root !! x)) →
  ∃ out, needed_models (reachability c root) referenced root = Ok out ∧ NoDup out ∧
    (∀ y, y ∈ out ↔ ∃ x, x ∈ referenced ∧ on_climb (reachability c root) root x y) ∧
    (∀ l1 y l2, out = l1 ++ y :: l2 → ∃ n p, reachability c root !! y = Some n ∧
       n_parent n = Some p ∧ related c p y ∧ (p = root ∨ p ∈ l1)).
Proof.
  intros Hwf Hall. destruct (reachability_result c root Hwf) as [_ Hsr].
  destruct (needed_models_result _ _ _ _ Hsr Hall) as (out & Hout & Hnd & Hin & Hord).
  exists out. split_and!; [done..|]. intros l1 y l2 Heq.
  destruct (Hord l1 y l2 Heq) as (n & p & Hy & Hpar & Hp). exists n, p. split_and!; try done.
  apply edge_adjacency; [done|].
  assert (y ≠ root) as Hne.
  { intros ->. rewrite (sr_root _ _ _ Hsr) in Hy. by injection Hy as <-. }
  destruct (sr_tree _ _ _ Hsr y n Hy Hne) as (p' & np & e & Hpar' & _ & He & Ht & _).
  assert (p' = p) as -> by congruence. by exists e.
Qed.

Lemma needed_models_ordered_witness :
  ∃ out, needed_models (HashIter0 := gset_iter) (reachability diamond "a") ["a"; "f"] "a"
           = Ok out ∧ NoDup out.
Proof.
  assert (∀ x, x ∈ ["a"; "f"] → is_Some (reachability diamond "a" !! x)) as Hall.
  { intros x. rewrite !elem_of_cons. intros [->|[->|[]%elem_of_nil]]; vm_compute; eexists;
      reflexivity. }
  destruct (needed_models_ordered (HashIter0 := gset_iter) diamond "a" ["a"; "f"] diamond_wf Hall)
    as (out & H1 & H2 & _).
  exists out. split; [exact H1|exact H2].
Defined.
