(* ===== verification/Rollup.v ===== *)
(** * Rollup matching ([crates/pawrly-semantic/src/rollup.rs])
    Which declared pre-aggregation covers a query, and which covering one is chosen. *)

From S2P Require Export GraphProps.

Definition ROLLUP_SCHEMA : string := "semantic".

Definition is_rollup_safe (agg : MeasureAgg) : bool :=
  match agg with
  | AggSum | AggCount | AggMin | AggMax => true
  | _ => false
  end.

(** [Member]: a dimension name and its grain. *)
Record DimRef := { mb_name : string; mb_grain : option TimeGrain }.

Definition parse_bare_dim (s : string) : DimRef :=
  match split_once "." s with
  | Some (name, grain) => {| mb_name := name; mb_grain := TimeGrain_parse grain |}
  | None => {| mb_name := s; mb_grain := None |}
  end.

Definition parse_query_dim (member : string) : DimRef :=
  let rest := match split_once "." member with Some (_, r) => r | None => member end in
  parse_bare_dim rest.

(** [member.rsplit('.').next()]. *)
Definition measure_name (member : string) : string := default member (last (split "." member)).

Definition grain_covers (pre q : option TimeGrain) : bool :=
  match pre, q with
  | None, None => true
  | Some _, None => false
  | None, Some _ => true
  | Some p, Some qg => can_roll_up_to p qg
  end.

(** The closure [dim_covered]. *)
Definition dim_covered (pre_dims : list DimRef) (want : DimRef) : bool :=
  existsb (λ have, bool_decide (mb_name have = mb_name want)
                   && grain_covers (mb_grain have) (mb_grain want)) pre_dims.

Definition covers (pre : PreAggregation) (q : SemanticQuery) : bool :=
  let pre_dims := map parse_bare_dim (pre_dimensions pre) in
  forallb (λ member, dim_covered pre_dims (parse_query_dim member)) (q_dimensions q)
  && forallb (λ f, existsb (λ d, bool_decide (mb_name d = mb_name (parse_query_dim (sf_member f))))
                     pre_dims) (q_filters q)
  && forallb (λ member, existsb (λ pm, bool_decide (pm = measure_name member)) (pre_measures pre))
       (q_measures q).

(** [Iterator::min_by_key]: the first of the minimal elements. *)
Definition min_by_key {A} (key : A → nat) (l : list A) : option A :=
  foldl (λ best x, match best with
                   | None => Some x
                   | Some b => if decide (key x < key b) then Some x else Some b
                   end) None l.

Definition match_rollup (model : SemanticModel) (q : SemanticQuery) : option PreAggregation :=
  min_by_key (λ pre, length (pre_dimensions pre))
    (List.filter (λ pre, covers pre q) (sm_pre_aggregations model)).

Definition rollup_table_name (model preagg : string) : string := model +:+ "__" +:+ preagg.

(** ** Correctness of the choice *)

Lemma min_by_key_step {A} (key : A → nat) l x :
  min_by_key key (l ++ [x]) =
    match min_by_key key l with
    | None => Some x
    | Some b => if decide (key x < key b) then Some x else Some b
    end.
Proof. unfold min_by_key. by rewrite foldl_app. Qed.

Lemma min_by_key_none {A} (key : A → nat) l : min_by_key key l = None ↔ l = [].
Proof.
  destruct l as [|x l _] using rev_ind; [done|]. rewrite min_by_key_step.
  split; [|by intros []%app_nil]. destruct (min_by_key key l); [by case_decide|done].
Qed.

Lemma min_by_key_spec {A} (key : A → nat) l x :
  min_by_key key l = Some x ↔
  ∃ l1 l2, l = l1 ++ x :: l2 ∧ Forall (λ y, key x < key y) l1 ∧ Forall (λ y, key x ≤ key y) l2.
Proof.
  revert x. induction l as [|y l IH] using rev_ind; intros x.
  { split; [done|]. by intros ([] & ? & ? & _). }
  rewrite min_by_key_step. split.
  - destruct (min_by_key key l) as [b|] eqn:Hb.
    + destruct (proj1 (IH b) eq_refl) as (l1 & l2 & -> & H1 & H2). case_decide as Hlt; intros [= <-].
      * exists (l1 ++ b :: l2), []. split_and!; [done| |done].
        rewrite Forall_app, Forall_cons. split_and!; [|done|];
          (eapply Forall_impl; [eassumption|]); simpl; lia.
      * exists l1, (l2 ++ [y]). rewrite <-app_assoc. split_and!; [done..|].
        rewrite Forall_app, Forall_singleton. split; [done|lia].
    + apply min_by_key_none in Hb as ->. intros [= <-]. exists [], []. done.
  - intros (l1 & l2 & Heq & H1 & H2).
    destruct l2 as [|z l2 _] using rev_ind.
    + apply app_inj_tail in Heq as [-> ->]. destruct (min_by_key key l1) as [b|] eqn:Hb; [|done].
      destruct (proj1 (IH b) eq_refl) as (k1 & k2 & -> & _ & _). rewrite Forall_app, Forall_cons in H1.
      by rewrite decide_True by tauto.
    + rewrite app_comm_cons, app_assoc in Heq. apply app_inj_tail in Heq as [-> ->].
      rewrite Forall_app, Forall_singleton in H2. destruct H2 as [H2 Hz].
      rewrite (proj2 (IH x)) by eauto. rewrite decide_False by lia. done.
Qed.

(** What it means for a query's dimension to be derivable from a rollup's. *)
Definition dim_derivable (pre : PreAggregation) (member : string) : Prop :=
  ∃ d, d ∈ pre_dimensions pre ∧
    mb_name (parse_bare_dim d) = mb_name (parse_query_dim member) ∧
    match mb_grain (parse_bare_dim d), mb_grain (parse_query_dim member) with
    | Some g, Some g' => can_roll_up_to g g' = true
    | Some _, None => False
    | None, _ => True
    end.

Record covering (pre : PreAggregation) (q : SemanticQuery) : Prop := {
  cov_dims : ∀ m, m ∈ q_dimensions q → dim_derivable pre m;
  cov_filters : ∀ f, f ∈ q_filters q → ∃ d, d ∈ pre_dimensions pre ∧
    mb_name (parse_bare_dim d) = mb_name (parse_query_dim (sf_member f));
  cov_measures : ∀ m, m ∈ q_measures q → measure_name m ∈ pre_measures pre
}.

Lemma existsb_elem {A} (f : A → bool) l : existsb f l = true ↔ ∃ x, x ∈ l ∧ f x = true.
Proof. rewrite existsb_exists. by setoid_rewrite list_elem_of_In. Qed.

Lemma forallb_elem {A} (f : A → bool) l : forallb f l = true ↔ ∀ x, x ∈ l → f x = true.
Proof. rewrite forallb_forall. by setoid_rewrite list_elem_of_In. Qed.

Lemma elem_of_map {A B} (f : A → B) l y : y ∈ map f l ↔ ∃ x, x ∈ l ∧ y = f x.
Proof. rewrite list_elem_of_fmap. naive_solver. Qed.

Lemma dim_covered_spec pre member :
  dim_covered (map parse_bare_dim (pre_dimensions pre)) (parse_query_dim member) = true ↔
  dim_derivable pre member.
Proof.
  unfold dim_covered, dim_derivable. rewrite existsb_elem. split.
  - intros (have & (d & Hd & ->)%elem_of_map & [Hn%bool_decide_eq_true Hg]%andb_true_iff).
    exists d. split_and!; [done..|]. unfold grain_covers in Hg.
    destruct (mb_grain (parse_bare_dim d)), (mb_grain (parse_query_dim member)); done.
  - intros (d & Hd & Hn & Hg). exists (parse_bare_dim d). split; [apply elem_of_map; eauto|].
    apply andb_true_iff. split; [by apply bool_decide_eq_true|]. unfold grain_covers.
    destruct (mb_grain (parse_bare_dim d)), (mb_grain (parse_query_dim member)); done.
Qed.

Lemma covers_spec pre q : covers pre q = true ↔ covering pre q.
Proof.
  unfold covers. rewrite !andb_true_iff, !forallb_elem. setoid_rewrite dim_covered_spec.
  setoid_rewrite existsb_elem. split.
  - intros [[Hd Hf] Hm]. split; [done| |].
    + intros f Hq. destruct (Hf f Hq) as (x & (d & ? & ->)%elem_of_map & ?%bool_decide_eq_true).
      eauto.
    + intros m Hq. by destruct (Hm m Hq) as (x & ? & <-%bool_decide_eq_true).
  - intros [Hd Hf Hm]. split_and!; [done| |].
    + intros f Hq. destruct (Hf f Hq) as (d & ? & ?). exists (parse_bare_dim d).
      rewrite elem_of_map, bool_decide_eq_true. eauto.
    + intros m Hq. exists (measure_name m). by rewrite bool_decide_eq_true; auto.
Qed.

(** ** The calendar behind the grains
    Instants are hours since 1970-01-01T00; the proleptic Gregorian calendar gives the
    bucket an instant falls in at each grain (weeks start on Monday). *)

Definition civil_of_day (z : Z) : Z * Z :=
  let z := (z + 719468)%Z in
  let era := (z / 146097)%Z in
  let doe := (z - era * 146097)%Z in
  let yoe := ((doe - doe / 1460 + doe / 36524 - doe / 146096) / 365)%Z in
  let doy := (doe - (365 * yoe + yoe / 4 - yoe / 100))%Z in
  let mp := ((5 * doy + 2) / 153)%Z in
  let m := if (mp <? 10)%Z then (mp + 3)%Z else (mp - 9)%Z in
  let y := (yoe + era * 400)%Z in
  (if (m <=? 2)%Z then (y + 1)%Z else y, m).

Definition bucket (g : TimeGrain) (hour : Z) : Z * Z :=
  let day := (hour / 24)%Z in
  let '(y, m) := civil_of_day day in
  match g with
  | Hour => (hour, 0)%Z
  | Day => (day, 0)%Z
  | Week => ((day + 3) / 7, 0)%Z
  | Month => (y, m)
  | Quarter => (y, (m - 1) / 3)%Z
  | Year => (y, 0)%Z
  end.

(** Every bucket of [a] lies within one bucket of [b]. *)
Definition refines (a b : TimeGrain) : Prop :=
  ∀ t u, bucket a t = bucket a u → bucket b t = bucket b u.

Lemma refines_day b : b ≠ Hour → refines Day b.
Proof.
  intros Hb t u H. unfold bucket in *.
  destruct (civil_of_day (t / 24)) as [y m] eqn:E1, (civil_of_day (u / 24)) as [y' m'] eqn:E2.
  injection H as H. rewrite H, E2 in E1. rewrite H. injection E1 as <- <-. by destruct b.
Qed.

(** Two instants in one bucket of [a] and in two of [b], at every refused pair. *)
Definition splitting (a b : TimeGrain) : Z * Z :=
  match b with
  | Hour => (0, 1)%Z
  | Day => (96, 120)%Z
  | Week => (0, 144)%Z
  | Month => match a with Week => (672, 744)%Z | _ => (0, 744)%Z end
  | Quarter => match a with Week => (2136, 2160)%Z | _ => (0, 2208)%Z end
  | Year => (-24, 0)%Z
  end.

Lemma splitting_splits a b :
  can_roll_up_to a b = false → TimeGrain_rank b < TimeGrain_rank a ∨ a = Week →
  bucket a (splitting a b).1 = bucket a (splitting a b).2 ∧
  bucket b (splitting a b).1 ≠ bucket b (splitting a b).2.
Proof.
  destruct a, b; intros H Hr; try discriminate H; simpl in Hr; try lia;
    split; vm_compute; congruence.
Qed.

(** [can_roll_up_to] is exactly calendar refinement: a grain [a] rolls up to [b] when,
    and only when, any two instants of the Gregorian calendar that fall in the same [a]
    bucket fall in the same [b] bucket. In particular weeks roll up to nothing coarser. *)
Theorem can_roll_up_to_refines a b : can_roll_up_to a b = true ↔ refines a b.
Proof.
  split.
  - intros H t u Ht. destruct a.
    + unfold bucket in Ht.
      destruct (civil_of_day (t / 24)), (civil_of_day (u / 24)). by injection Ht as ->.
    + apply (refines_day b); [by intros -> |done].
    + by destruct b.
    + destruct b; try discriminate H; try done; unfold bucket in *;
        destruct (civil_of_day (t / 24)), (civil_of_day (u / 24)); by injection Ht as -> ->.
    + destruct b; try discriminate H; try done; unfold bucket in *;
        destruct (civil_of_day (t / 24)), (civil_of_day (u / 24)); by injection Ht as -> _.
    + by destruct b.
  - intros Hr. destruct (can_roll_up_to a b) eqn:H; [done|].
    destruct (splitting_splits a b H) as [Heq Hne].
    { destruct a, b; try discriminate H; simpl; auto; lia. }
    by apply Hr in Heq.
Qed.

Lemma filter_split {A} (f : A → bool) l k1 x k2 :
  List.filter f l = k1 ++ x :: k2 →
  ∃ l1 l2, l = l1 ++ x :: l2 ∧ List.filter f l1 = k1 ∧ List.filter f l2 = k2.
Proof.
  revert k1. induction l as [|y l IH]; intros k1; simpl; [by destruct k1|].
  destruct (f y) eqn:Hy.
  - destruct k1 as [|z k1]; simpl; intros [= -> Heq]; [by exists [], l|].
    destruct (IH _ Heq) as (l1 & l2 & -> & <- & <-). exists (z :: l1), l2. simpl. by rewrite Hy.
  - intros Heq. destruct (IH _ Heq) as (l1 & l2 & -> & <- & <-).
    exists (y :: l1), l2. simpl. by rewrite Hy.
Qed.

(** [match_rollup] returns a pre-aggregation exactly when one covers the query (its
    dimensions derive every selected dimension at its grain, carry every filtered
    dimension, and its measures include the query's): the one with the fewest dimensions,
    the earliest declared among equals. *)
Theorem match_rollup_spec model q :
  (match_rollup model q = None ↔ ∀ pre, pre ∈ sm_pre_aggregations model → ¬ covering pre q) ∧
  ∀ pre, match_rollup model q = Some pre ↔
    covering pre q ∧ ∃ l1 l2, sm_pre_aggregations model = l1 ++ pre :: l2 ∧
      (∀ p, p ∈ l1 → covering p q → length (pre_dimensions pre) < length (pre_dimensions p)) ∧
      (∀ p, p ∈ l2 → covering p q → length (pre_dimensions pre) ≤ length (pre_dimensions p)).
Proof.
  unfold match_rollup. set (key := λ pre, length (pre_dimensions pre)).
  assert (∀ l p, p ∈ List.filter (λ pre, covers pre q) l ↔ p ∈ l ∧ covering p q) as Hin.
  { intros l p. rewrite list_elem_of_In, filter_In, <-list_elem_of_In, covers_spec. done. }
  split.
  - rewrite min_by_key_none. split.
    + intros Hnil pre Hp Hc. assert (pre ∈ List.filter (λ pre, covers pre q)
        (sm_pre_aggregations model)) as H by by apply Hin.
      rewrite Hnil in H. by apply elem_of_nil in H.
    + intros Hall. apply elem_of_nil_inv. intros p [? ?]%Hin. by eapply Hall.
  - intros pre. rewrite min_by_key_spec. split.
    + intros (k1 & k2 & Heq & H1 & H2). rewrite Forall_forall in H1, H2.
      destruct (filter_split _ _ _ _ _ Heq) as (l1 & l2 & Hl & <- & <-).
      split; [eapply (proj1 (Hin (sm_pre_aggregations model) pre)); rewrite Heq; set_solver|].
      exists l1, l2. split_and!; [done| |]; intros p Hp Hc; [apply H1|apply H2]; by apply Hin.
    + intros (Hc & l1 & l2 & Hl & H1 & H2).
      exists (List.filter (λ pre, covers pre q) l1), (List.filter (λ pre, covers pre q) l2).
      rewrite !Forall_forall, Hl, List.filter_app. simpl. rewrite (proj2 (covers_spec pre q) Hc).
      split_and!; [done| |]; intros p [? ?]%Hin; unfold key; eauto.
Qed.
