(* ===== verification/Compile.v ===== *)
(** * Compiling a query ([crates/pawrly-semantic/src/lib.rs]: [compile_single],
    [compile_aggregate_locality], the rollup rewrite)
    From a structured query to SQL text: the single-fact form, the aggregate-locality form
    for several facts, pre-aggregation materialization and reads of a rollup. *)

From S2P Require Export Rollup.

Definition newline : string := chr "010".

(** ** The text of a [SELECT]
    The local variables a compile function has gathered when it formats its SQL. *)

Record Select := {
  s_items : list string;
  s_from : string;
  s_wheres : list string;
  s_groups : list string;
  s_havings : list string;
  s_orders : list string;
  s_limit : option N
}.

(** [if !items.is_empty() { sql.push_str(keyword); sql.push_str(&items.join(sep)) }]. *)
Definition clause (keyword sep : string) (items : list string) : string :=
  match items with
  | [] => ""
  | _ => newline +:+ keyword +:+ " " +:+ join sep items
  end.

Definition limit_clause (limit : option N) : string :=
  match limit with
  | Some l => newline +:+ "LIMIT " +:+ show_N l
  | None => ""
  end.

Definition render_select (s : Select) : string :=
  "SELECT " +:+ join ", " (s_items s) +:+ newline +:+ "FROM " +:+ s_from s
  +:+ clause "WHERE" " AND " (s_wheres s) +:+ clause "GROUP BY" ", " (s_groups s)
  +:+ clause "HAVING" " AND " (s_havings s) +:+ clause "ORDER BY" ", " (s_orders s)
  +:+ limit_clause (s_limit s).

(** [format!("{expr} AS {}", quote_ident(member))]. *)
Definition select_as (expr member : string) : string := expr +:+ " AS " +:+ quote_ident member.

(** The expressions of a list of dimension or measure members. *)
Definition dimension_exprs (c : SemanticCatalog) (alias_for : string → option string)
    (tz : option string) (members : list string) : result SemanticError (list string) :=
  try_map (λ member, let? model := model_for_member c member in
    resolve_dimension_expr model member (alias_for (sm_name model)) tz) members.

Definition measure_exprs (c : SemanticCatalog) (alias_for : string → option string)
    (members : list string) : result SemanticError (list string) :=
  try_map (λ member, let? model := model_for_member c member in
    resolve_measure_expr model member (alias_for (sm_name model))) members.

(** One round of the loop over [q.filters]: row-level filters go to [WHERE], measure
    filters to [HAVING]. *)
Definition place_filter (c : SemanticCatalog) (alias_for : string → option string)
    (tz : option string) (acc : list string * list string) (f : SemanticFilter)
    : result SemanticError (list string * list string) :=
  let '(wheres, havings) := acc in
  let? model := model_for_member c (sf_member f) in
  let alias := alias_for (sm_name model) in
  if member_is_measure model (sf_member f) then
    let? h := resolve_measure_filter model f alias in Ok (wheres, havings ++ [h])
  else
    let? w := resolve_filter model f alias tz in Ok (wheres ++ [w], havings).

(** The required predicates of one model, bound. *)
Definition model_predicates (c : SemanticCatalog) (params : gmap string string)
    (model_name : string) : result SemanticError (list string) :=
  match model_safety c model_name with
  | Some safety => try_map (λ pred, map_err Safety (bind_params pred params model_name))
                     (sp_required_predicates safety)
  | None => Ok []
  end.

(** The loop over the touched models that appends their required predicates. *)
Definition required_predicates (c : SemanticCatalog) (params : gmap string string)
    (referenced : list string) : result SemanticError (list string) :=
  try_fold (λ ws model_name, let? ps := model_predicates c params model_name in
                             Ok (ws ++ ps)) [] referenced.

(** ** Single-fact queries *)

(** Connectivity, ambiguity and fan-out of one referenced model. *)
Definition check_referenced (c : SemanticCatalog) (q : SemanticQuery) (reach : Reach)
    (root : string) (has_measures : bool) (model : string) : result SemanticError () :=
  if decide (model = root) then Ok ()
  else
    let? node := ok_or (DisconnectedMember (first_member_for_model q model)) (reach !! model) in
    if n_ambiguous node then Err (AmbiguousJoinPath root model)
    else if has_measures && n_fans_out node then Err (FanOut (first_measure_member q root) model)
    else Ok ().

Section compile.
Context `{!HashIter string}.

(** [compile_single] up to its final [format!]. *)
Definition single_select (c : SemanticCatalog) (q : SemanticQuery) (root : string)
    (has_measures : bool) : result SemanticError Select :=
  let? referenced := referenced_models c q in
  let reach := reachability c root in
  let? _ := try_each (check_referenced c q reach root has_measures) referenced in
  let joined := bool_decide (1 < length referenced) in
  let alias_for model := if joined then Some model else None in
  let tz := q_time_zone q in
  let? dims := dimension_exprs c alias_for tz (q_dimensions q) in
  let? measures := measure_exprs c alias_for (q_measures q) in
  let? needed := needed_models reach referenced root in
  let? from := render_from c root reach needed joined in
  let? _ := enforce_filter_safety c root q in
  let? '(wheres, havings) := try_fold (place_filter c alias_for tz) ([], []) (q_filters q) in
  let? required := required_predicates c (q_params q) referenced in
  let? orders := resolve_orders q in
  Ok {| s_items := zip_with select_as dims (q_dimensions q)
                   ++ zip_with select_as measures (q_measures q);
        s_from := from; s_wheres := wheres ++ required; s_groups := dims;
        s_havings := havings; s_orders := orders;
        s_limit := effective_limit (q_limit q) (max_rows c root) |}.

Definition compile_single (c : SemanticCatalog) (q : SemanticQuery) (root : string)
    (has_measures : bool) : result SemanticError string :=
  rmap render_select (single_select c q root has_measures).

(** ** Multi-fact queries *)

Definition cte_name (root : string) : string := quote_ident ("_" +:+ root).

(** Splits the filters into row-level and measure-level ones. *)
Definition split_filter (c : SemanticCatalog)
    (acc : list SemanticFilter * list SemanticFilter) (f : SemanticFilter)
    : result SemanticError (list SemanticFilter * list SemanticFilter) :=
  let '(dim_filters, measure_filters) := acc in
  let? model := model_for_member c (sf_member f) in
  if member_is_measure model (sf_member f) then Ok (dim_filters, measure_filters ++ [f])
  else Ok (dim_filters ++ [f], measure_filters).

(** Per-root guard rails and the tightest row cap. *)
Definition root_cap (c : SemanticCatalog) (q : SemanticQuery) (cap : option N)
    (root : string) : result SemanticError (option N) :=
  let? _ := enforce_filter_safety c root q in
  Ok (match max_rows c root with
      | Some m => Some (match cap with Some x => N.min x m | None => m end)
      | None => cap
      end).

(** The closure [consider]. *)
Definition consider (c : SemanticCatalog) (q : SemanticQuery) (reach : Reach)
    (root : string) (referenced : list string) (member : string)
    : result SemanticError (list string) :=
  let? m := member_model member in
  if contains_key c m then
    let? _ :=
      if decide (m = root) then Ok ()
      else
        let? node := ok_or (DisconnectedMember member) (reach !! m) in
        if n_ambiguous node then Err (AmbiguousJoinPath root m)
        else if n_fans_out node then Err (FanOut (first_measure_member q root) m)
        else Ok () in
    Ok (push_new referenced m)
  else Err (UnknownModel m).

(** The CTE of one measure root, up to its [format!]. *)
Definition cte_select (c : SemanticCatalog) (q : SemanticQuery)
    (dim_filters : list SemanticFilter) (root : string) : result SemanticError Select :=
  let reach := reachability c root in
  let tz := q_time_zone q in
  let? referenced := try_fold (consider c q reach root) [root]
                       (q_dimensions q ++ map sf_member dim_filters) in
  let? needed := needed_models reach referenced root in
  let? from := render_from c root reach needed true in
  let own := List.filter (member_of root) (q_measures q) in
  let? dims := dimension_exprs c Some tz (q_dimensions q) in
  let? measures := measure_exprs c Some own in
  let? wheres := try_map (λ f, let? model := model_for_member c (sf_member f) in
                    resolve_filter model f (Some (sm_name model)) tz) dim_filters in
  let? required := required_predicates c (q_params q) referenced in
  Ok {| s_items := zip_with select_as dims (q_dimensions q)
                   ++ zip_with select_as measures own;
        s_from := from; s_wheres := wheres ++ required; s_groups := dims;
        s_havings := []; s_orders := []; s_limit := None |}.

Definition render_cte (root : string) (body : Select) : string :=
  cte_name root +:+ " AS (" +:+ newline +:+ render_select body +:+ newline +:+ ")".

(** [COALESCE] of a shared dimension over some CTEs. *)
Definition coalesce (roots : list string) (col : string) : string :=
  "COALESCE(" +:+ join ", " (map (λ r, cte_name r +:+ "." +:+ col) roots) +:+ ")".

(** The [FULL OUTER JOIN] of the [i]-th CTE onto the ones before it. *)
Definition join_cte (shared_dims previous : list string) (root : string) : string :=
  match shared_dims with
  | [] => newline +:+ "CROSS JOIN " +:+ cte_name root
  | _ => newline +:+ "FULL OUTER JOIN " +:+ cte_name root +:+ " ON "
         +:+ join " AND " (map (λ d, let col := quote_ident d in
               coalesce previous col +:+ " IS NOT DISTINCT FROM "
               +:+ cte_name root +:+ "." +:+ col) shared_dims)
  end.

Definition join_ctes (shared_dims measure_roots : list string) : string :=
  match measure_roots with
  | [] => ""
  | first :: rest =>
      foldl (λ acc p, acc +:+ p) (cte_name first)
        (imap (λ i root, join_cte shared_dims (take (S i) measure_roots) root) rest)
  end.

(** The column of a member in the CTE that owns it. *)
Definition cte_column (member : string) : result SemanticError string :=
  let? root := member_model member in Ok (cte_name root +:+ "." +:+ quote_ident member).

(** [compile_aggregate_locality] up to its final [format!]: the CTE bodies and the outer
    [SELECT]. *)
Definition locality_select (c : SemanticCatalog) (q : SemanticQuery)
    (measure_roots : list string) : result SemanticError (list Select * Select) :=
  let? '(dim_filters, measure_filters) := try_fold (split_filter c) ([], []) (q_filters q) in
  let? cap := try_fold (root_cap c q) None measure_roots in
  let? ctes := try_map (cte_select c q dim_filters) measure_roots in
  let? measures := try_map (λ m, let? col := cte_column m in
                     Ok (select_as col m)) (q_measures q) in
  let? wheres := try_map (λ f, let? col := cte_column (sf_member f) in
                   apply_op col f true) measure_filters in
  let? orders := resolve_orders q in
  Ok (ctes,
      {| s_items := map (λ d, select_as (coalesce measure_roots (quote_ident d)) d)
                      (q_dimensions q) ++ measures;
         s_from := join_ctes (q_dimensions q) measure_roots;
         s_wheres := wheres; s_groups := []; s_havings := []; s_orders := orders;
         s_limit := effective_limit (q_limit q) cap |}).

Definition render_locality (measure_roots : list string) (p : list Select * Select) : string :=
  "WITH " +:+ join ("," +:+ newline) (zip_with render_cte measure_roots p.1)
  +:+ newline +:+ render_select p.2.

Definition compile_aggregate_locality (c : SemanticCatalog) (q : SemanticQuery)
    (measure_roots : list string) : result SemanticError string :=
  rmap (render_locality measure_roots) (locality_select c q measure_roots).

(** ** [compile_sql] *)

(** The tail of [compile_sql], for a query whose measures are all [model.measure]. *)
Definition compile_measures (c : SemanticCatalog) (q : SemanticQuery)
    : result SemanticError string :=
  let? roots := measure_roots c q in
  match roots with
  | _ :: _ :: _ => compile_aggregate_locality c q roots
  | [root] => compile_single c q root true
  | [] =>
      let? first := ok_or EmptyQuery (head (q_dimensions q)) in
      let? root := member_model first in
      compile_single c q root false
  end.

(** A dot-free measure names a metric. *)
Definition has_metric (q : SemanticQuery) : bool :=
  existsb (λ m, negb (contains_chr "." m)) (q_measures q).

(** [compile_sql], with the metric pass as a parameter. *)
Definition compile_sql_with
    (metric_pass : SemanticCatalog → SemanticQuery → result SemanticError string)
    (c : SemanticCatalog) (q : SemanticQuery) : result SemanticError string :=
  let? q := expand_segments c q in
  if bool_decide (q_measures q = []) && bool_decide (q_dimensions q = []) then Err EmptyQuery
  else if has_metric q then metric_pass c q
  else compile_measures c q.
End compile.

(** ** Pre-aggregations *)

Definition compile_preagg_sql (c : SemanticCatalog) (model preagg : string)
    : result SemanticError string :=
  let? m := ok_or (UnknownModel model) (models c !! model) in
  let? pre := ok_or (Compile ("unknown pre-aggregation `" +:+ model +:+ "." +:+ preagg +:+ "`"))
                (List.find (λ p, bool_decide (pre_name p = preagg)) (sm_pre_aggregations m)) in
  let bare d := default d (head (split "." d)) in
  let? group := try_map (λ d, resolve_dimension_expr m (model +:+ "." +:+ d) None None)
                  (pre_dimensions pre) in
  let? measures := try_map (λ name,
      let? measure := ok_or (UnknownMember (model +:+ "." +:+ name)) (find_measure m name) in
      Ok (select_as (agg_sql measure None) name)) (pre_measures pre) in
  let? from := qualified_table c model in
  Ok (render_select
        {| s_items := zip_with (λ expr d, select_as expr (bare d)) group (pre_dimensions pre)
                      ++ measures;
           s_from := from; s_wheres := []; s_groups := group; s_havings := [];
           s_orders := []; s_limit := None |}).

Record RollupMatch := { rm_model : string; rm_preagg : string }.

Definition RollupMatch_schema (r : RollupMatch) : string := ROLLUP_SCHEMA.
Definition RollupMatch_table (r : RollupMatch) : string :=
  rollup_table_name (rm_model r) (rm_preagg r).

Definition rollup_col (alias col : string) : string := alias +:+ "." +:+ quote_ident col.

Definition rollup_dim_expr (member alias : string) : result SemanticError string :=
  let? '(dim, grain) :=
    match split "." member with
    | [_; dim] => Ok (dim, None)
    | [_; dim; grain] => Ok (dim, Some grain)
    | _ => Err (UnknownMember member)
    end in
  let col := rollup_col alias dim in
  match grain with
  | None => Ok col
  | Some g =>
      let? grain := ok_or (InvalidGrain dim g) (TimeGrain_parse g) in
      Ok ("DATE_TRUNC('" +:+ TimeGrain_as_str grain +:+ "', " +:+ col +:+ ")")
  end.

(** Re-aggregates a stored partial. *)
Definition combine_sql (agg : MeasureAgg) (col : string) : string :=
  match agg with
  | AggMin => "MIN(" +:+ col +:+ ")"
  | AggMax => "MAX(" +:+ col +:+ ")"
  | _ => "SUM(" +:+ col +:+ ")"
  end.

Definition rollup_measure_expr (model : SemanticModel) (alias member : string)
    : result SemanticError string :=
  let? name := ok_or (UnknownMember member) (measure_member_name member) in
  let? measure := ok_or (UnknownMember member) (find_measure model name) in
  Ok (combine_sql (mea_agg measure) (rollup_col alias name)).

(** One filter of a rollup read. *)
Definition place_rollup_filter (model : SemanticModel) (alias : string)
    (acc : list string * list string) (f : SemanticFilter)
    : result SemanticError (list string * list string) :=
  let '(wheres, havings) := acc in
  if member_is_measure model (sf_member f) then
    let? expr := rollup_measure_expr model alias (sf_member f) in
    let? h := apply_op expr f true in Ok (wheres, havings ++ [h])
  else
    let? expr := rollup_dim_expr (sf_member f) alias in
    let? w := apply_op expr f false in Ok (wheres ++ [w], havings).

(** [rollup_measure_sql] up to its final [format!]. *)
Definition rollup_select (c : SemanticCatalog) (q : SemanticQuery) (r : RollupMatch)
    : result SemanticError Select :=
  let? model := ok_or (UnknownModel (rm_model r)) (models c !! rm_model r) in
  let alias := rm_model r in
  let table := quote_ident ROLLUP_SCHEMA +:+ "."
               +:+ quote_ident (rollup_table_name (rm_model r) (rm_preagg r)) in
  let? dims := try_map (λ member, rollup_dim_expr member alias) (q_dimensions q) in
  let? measures := try_map (rollup_measure_expr model alias) (q_measures q) in
  let? _ := enforce_filter_safety c (rm_model r) q in
  let? '(wheres, havings) := try_fold (place_rollup_filter model alias) ([], [])
                               (q_filters q) in
  let? orders := resolve_orders q in
  Ok {| s_items := zip_with select_as dims (q_dimensions q)
                   ++ zip_with select_as measures (q_measures q);
        s_from := table +:+ " AS " +:+ alias; s_wheres := wheres; s_groups := dims;
        s_havings := havings; s_orders := orders;
        s_limit := effective_limit (q_limit q) (max_rows c (rm_model r)) |}.

Definition rollup_measure_sql (c : SemanticCatalog) (q : SemanticQuery) (r : RollupMatch)
    : result SemanticError string := rmap render_select (rollup_select c q r).
