(* ===== verification/CompileProps.v ===== *)
(** * Correctness of query compilation
    What a successful compilation guarantees (no fan-out, row-level security, row caps),
    which failures cannot happen, and that a rollup holds the columns it is read for. *)

From S2P Require Export Compile.

(** ** A sample workspace
    A small shop (orders, their customers, their items) on which the theorems are applied. *)

Definition plain_dim (name : string) (ty : DimensionType) : Dimension :=
  {| dim_name := name; dim_expr := name; dim_data_type := ty; dim_time_grains := [];
     dim_description := None |}.

Definition plain_measure (name : string) (agg : MeasureAgg) (expr : string) : Measure :=
  {| mea_name := name; mea_agg := agg; mea_expr := expr; mea_filters := [];
     mea_format := None; mea_description := None |}.

Definition with_policy (preds : list string) (rows : option N) : option SafetyPolicy :=
  Some {| sp_require_filters_on := []; sp_require_at_least_one_filter := false;
          sp_max_rows := rows; sp_max_pages := None; sp_timeout := None;
          sp_required_predicates := preds |}.

Definition orders_model : SemanticModel :=
  {| sm_name := "orders"; sm_description := None; sm_source := "shop.orders";
     sm_primary_key := ["id"];
     sm_dimensions := [plain_dim "status" DTString; plain_dim "order_date" DTTime];
     sm_measures := [plain_measure "revenue" AggSum "total"; plain_measure "count" AggCount "id"];
     sm_relationships :=
       [{| rel_name := "customer"; rel_kind := ManyToOne; rel_target_model := "customers";
           rel_join_predicate := "this.customer_id = customers.id" |};
        {| rel_name := "items"; rel_kind := OneToMany; rel_target_model := "items";
           rel_join_predicate := "this.id = items.order_id" |}];
     sm_pre_aggregations :=
       [{| pre_name := "monthly"; pre_dimensions := ["order_date.month"; "status"];
           pre_measures := ["revenue"; "count"]; pre_refresh := None;
           pre_partition_by := None |}];
     sm_segments := [{| seg_name := "paid"; seg_description := None;
                        seg_filters := [{| sf_member := "orders.status"; sf_op := OpEquals;
                                           sf_values := ["paid"] |}] |}];
     sm_safety := with_policy [] (Some 1000%N) |}.

Definition customers_model : SemanticModel :=
  {| sm_name := "customers"; sm_description := None; sm_source := "shop.customers";
     sm_primary_key := ["id"]; sm_dimensions := [plain_dim "region" DTString];
     sm_measures := [plain_measure "count" AggCount "id"]; sm_relationships := [];
     sm_pre_aggregations := []; sm_segments := [];
     sm_safety := with_policy ["tenant = ${param:t}"] None |}.

Definition items_model : SemanticModel :=
  {| sm_name := "items"; sm_description := None; sm_source := "shop.order_items";
     sm_primary_key := ["id"]; sm_dimensions := [plain_dim "sku" DTString];
     sm_measures := [plain_measure "quantity" AggSum "qty"]; sm_relationships := [];
     sm_pre_aggregations := []; sm_segments := []; sm_safety := None |}.

Definition shop : SemanticCatalog := new [orders_model; customers_model; items_model].

Lemma shop_wf : catalog_wf shop.
Proof. apply collect_catalog_wf. Qed.

Definition select_query (measures dimensions : list string) (filters : list SemanticFilter)
    : SemanticQuery :=
  {| q_measures := measures; q_dimensions := dimensions; q_filters := filters;
     q_segments := []; q_order_by := []; q_limit := Some 50%N; q_time_zone := None;
     q_params := {["t" := "acme"]} |}.

(** [sql], if the compilation succeeded. *)
Definition sql_of (r : result SemanticError string) : string := default "" (to_option r).

Definition by_region : SemanticQuery := select_query ["orders.revenue"] ["customers.region"] [].

Definition compile_shop (q : SemanticQuery) : result SemanticError string :=
  compile_measures (HashIter0 := gset_iter) shop q.

(** ** Collecting model names *)

Lemma elem_of_push_new l x y : y ∈ push_new l x ↔ y ∈ l ∨ y = x.
Proof.
  unfold push_new. case_bool_decide; [split; [by left|by intros [?| ->]]|].
  by rewrite elem_of_app, list_elem_of_singleton.
Qed.

(** A loop that maps each item to a name and appends the new ones. *)
Lemma try_fold_collect {A E} (step : list string → A → result E (list string))
    (g : A → result E string) l acc out :
  (∀ acc x, step acc x = let? m := g x in Ok (push_new acc m)) →
  try_fold step acc l = Ok out →
  (∀ y, y ∈ out ↔ y ∈ acc ∨ ∃ x, x ∈ l ∧ g x = Ok y) ∧ (∀ x, x ∈ l → ∃ y, g x = Ok y).
Proof.
  intros Hstep. revert acc. induction l as [|x l IH]; intros acc; simpl.
  { intros [= <-]. split; set_solver. }
  rewrite Hstep. intros H. inv_ok. apply IH in H as [Hin Hall]. split.
  - intros y. rewrite Hin, elem_of_push_new. setoid_rewrite elem_of_cons. split.
    + intros [[?| ->]|(z & ? & ?)]; eauto.
    + intros [?|(z & [->|?] & ?)]; [by eauto| |by eauto]. left. right. congruence.
  - intros z [->|?]%elem_of_cons; eauto.
Qed.

Lemma try_fold_collect_err {A E} (step : list string → A → result E (list string))
    (g : A → result E string) l acc e :
  (∀ acc x, step acc x = let? m := g x in Ok (push_new acc m)) →
  try_fold step acc l = Err e → ∃ x, x ∈ l ∧ g x = Err e.
Proof.
  intros Hstep. revert acc. induction l as [|x l IH]; intros acc; simpl; [done|].
  rewrite Hstep. destruct (g x) as [m|e'] eqn:Hg; simpl.
  - intros (y & ? & ?)%IH. exists y. set_solver.
  - intros [= ->]. exists x. set_solver.
Qed.

(** The model of a member, when it is known. *)
Definition known_model (c : SemanticCatalog) (member : string) : result SemanticError string :=
  let? model := member_model member in
  if contains_key c model then Ok model else Err (UnknownModel model).

Lemma push_model_collect c acc x :
  push_model c acc x = let? m := known_model c x in Ok (push_new acc m).
Proof.
  unfold push_model, known_model. destruct (member_model x); simpl; [|done].
  by destruct (contains_key c a).
Qed.

Lemma known_model_ok c member m :
  known_model c member = Ok m ↔ member_model member = Ok m ∧ is_Some (models c !! m).
Proof.
  unfold known_model, contains_key. destruct (member_model member) as [x|]; simpl; [|naive_solver].
  destruct (models c !! x) eqn:Hx; simpl; split.
  - intros [= ->]. rewrite Hx. eauto.
  - by intros [[= ->] _].
  - done.
  - intros [[= ->] [? ?]]. congruence.
Qed.

Lemma referenced_models_ok c q refs :
  referenced_models c q = Ok refs →
  (∀ y, y ∈ refs ↔ ∃ x, x ∈ query_members q ∧ known_model c x = Ok y) ∧
  (∀ x, x ∈ query_members q → ∃ y, known_model c x = Ok y).
Proof.
  intros H. eapply try_fold_collect in H as [H1 H2]; [|apply push_model_collect].
  split; [|done]. intros y. rewrite H1. set_solver.
Qed.

Lemma measure_roots_ok c q roots :
  measure_roots c q = Ok roots →
  (∀ y, y ∈ roots ↔ ∃ x, x ∈ q_measures q ∧ known_model c x = Ok y) ∧
  (∀ x, x ∈ q_measures q → ∃ y, known_model c x = Ok y).
Proof.
  intros H. eapply try_fold_collect in H as [H1 H2]; [|apply push_model_collect].
  split; [|done]. intros y. rewrite H1. set_solver.
Qed.

Lemma elem_of_query_members q x :
  x ∈ query_members q ↔ x ∈ q_measures q ∨ x ∈ q_dimensions q ∨
    ∃ f, f ∈ q_filters q ∧ x = sf_member f.
Proof. unfold query_members. by rewrite !elem_of_app, elem_of_map. Qed.

(** ** The CTE's [consider] *)

Definition considered (c : SemanticCatalog) (q : SemanticQuery) (reach : Reach)
    (root member : string) : result SemanticError string :=
  let? m := member_model member in
  if contains_key c m then
    let? _ :=
      if decide (m = root) then Ok ()
      else
        let? node := ok_or (DisconnectedMember member) (reach !! m) in
        if n_ambiguous node then Err (AmbiguousJoinPath root m)
        else if n_fans_out node then Err (FanOut (first_measure_member q root) m)
        else Ok () in
    Ok m
  else Err (UnknownModel m).

Lemma consider_collect c q reach root acc x :
  consider c q reach root acc x = let? m := considered c q reach root x in Ok (push_new acc m).
Proof.
  unfold consider, considered. destruct (member_model x) as [m|]; simpl; [|done].
  destruct (contains_key c m); [|done]. simpl. case_decide; [done|].
  destruct (reach !! m) as [n|]; simpl; [|done].
  destruct (n_ambiguous n); [done|]. by destruct (n_fans_out n).
Qed.

Lemma considered_ok c q reach root x m :
  considered c q reach root x = Ok m →
  known_model c x = Ok m ∧
  (m = root ∨ ∃ n, reach !! m = Some n ∧ n_ambiguous n = false ∧ n_fans_out n = false).
Proof.
  unfold considered, known_model. destruct (member_model x) as [y|]; simpl; [|done].
  destruct (contains_key c y); [|done]. intros H. inv_ok. split; [done|].
  case_decide; [by left|right]. inv_ok. destruct (n_ambiguous x1) eqn:?; [done|].
  destruct (n_fans_out x1) eqn:?; [done|]. eauto.
Qed.

(** ** Checks passed by a compiled query *)

Lemma check_referenced_ok c q reach root hm model :
  check_referenced c q reach root hm model = Ok () →
  model = root ∨ ∃ n, reach !! model = Some n ∧ n_ambiguous n = false ∧
    (hm = true → n_fans_out n = false).
Proof.
  unfold check_referenced. case_decide; [by left|]. intros Hok. inv_ok. right.
  exists x. split; [done|]. destruct (n_ambiguous x); [done|]. split; [done|].
  intros ->. by destruct (n_fans_out x).
Qed.

(** A filter on a dimension. *)
Definition row_filter (c : SemanticCatalog) (f : SemanticFilter) : Prop :=
  ∃ m, model_for_member c (sf_member f) = Ok m ∧ member_is_measure m (sf_member f) = false.

(** A member that restricts or groups the rows a measure aggregates. *)
Definition row_level (c : SemanticCatalog) (q : SemanticQuery) (member : string) : Prop :=
  member ∈ q_dimensions q ∨
  ∃ f, f ∈ q_filters q ∧ member = sf_member f ∧ row_filter c f.

Lemma row_level_query_member c q d : row_level c q d → d ∈ query_members q.
Proof. rewrite elem_of_query_members. intros [?|(f & ? & -> & _)]; eauto. Qed.

Lemma split_filter_ok c df mf f p :
  split_filter c (df, mf) f = Ok p → ∀ g, g ∈ p.1 ↔ g ∈ df ∨ (g = f ∧ row_filter c f).
Proof.
  unfold split_filter, row_filter. intros H. inv_ok. intros g.
  destruct (member_is_measure _ _) eqn:Hm; inv_ok; simpl.
  - split; [by left|]. intros [?|[_ (m & ? & ?)]]; [done|]. congruence.
  - rewrite elem_of_app, list_elem_of_singleton. split; [|naive_solver].
    intros [?| ->]; [by left|]. right. eauto.
Qed.

Lemma split_filters_ok c fs df0 mf0 p :
  try_fold (split_filter c) (df0, mf0) fs = Ok p →
  ∀ f, f ∈ p.1 ↔ f ∈ df0 ∨ (f ∈ fs ∧ row_filter c f).
Proof.
  revert df0 mf0. induction fs as [|g fs IH]; intros df0 mf0; cbn [try_fold].
  { intros [= <-] f. simpl. set_solver. }
  intros H. apply rbind_ok in H as ([df1 mf1] & Hs & H). intros f.
  rewrite (IH _ _ H). rewrite (split_filter_ok _ _ _ _ _ Hs f), elem_of_cons. simpl.
  split; [intros [[?|[-> ?]]|[? ?]]|intros [?|[[->|?] ?]]]; auto.
Qed.

Section props.
Context `{!HashIter string}.

(** The shape of a compiled metric-free query: one [SELECT], or one per measure root. *)
Lemma compile_measures_inv c q sql :
  compile_measures c q = Ok sql →
  (∃ root hm s, single_select c q root hm = Ok s ∧ sql = render_select s ∧
     ((hm = true ∧ measure_roots c q = Ok [root]) ∨
      (hm = false ∧ measure_roots c q = Ok [] ∧
       ∃ d, head (q_dimensions q) = Some d ∧ member_model d = Ok root))) ∨
  (∃ r1 r2 rs ctes outer, measure_roots c q = Ok (r1 :: r2 :: rs) ∧
     locality_select c q (r1 :: r2 :: rs) = Ok (ctes, outer) ∧
     sql = render_locality (r1 :: r2 :: rs) (ctes, outer)).
Proof.
  unfold compile_measures. intros H. inv_ok. destruct x as [|r1 [|r2 rs]].
  - inv_ok. unfold compile_single in H. inv_ok. left. exists x0, false, x1. eauto 10.
  - unfold compile_single in H. inv_ok. left. exists r1, true, x. eauto 10.
  - unfold compile_aggregate_locality in H. inv_ok. right.
    destruct x as [ctes outer]. exists r1, r2, rs, ctes, outer. eauto.
Qed.

Lemma cte_select_refs c q df root s :
  cte_select c q df root = Ok s →
  ∃ refs required, required_predicates c (q_params q) refs = Ok required ∧ root ∈ refs ∧
    (∀ p, p ∈ required → p ∈ s_wheres s) ∧
    (∀ x, x ∈ q_dimensions q ∨ x ∈ map sf_member df →
       ∃ m, considered c q (reachability c root) root x = Ok m ∧ m ∈ refs).
Proof.
  unfold cte_select. intros H. inv_ok.
  eapply try_fold_collect in H0 as [Hin Hall]; [|apply consider_collect].
  exists x, x5. split_and!; [done|apply Hin; set_solver| |].
  - intros p Hp. simpl. set_solver.
  - intros y Hy. destruct (Hall y) as [m Hm]; [set_solver|]. exists m.
    split; [done|]. apply Hin. right. exists y. set_solver.
Qed.

Lemma locality_cte c q roots ctes outer df mf :
  locality_select c q roots = Ok (ctes, outer) →
  try_fold (split_filter c) ([], []) (q_filters q) = Ok (df, mf) →
  Forall2 (λ root s, cte_select c q df root = Ok s) roots ctes.
Proof.
  unfold locality_select. intros H Hs. rewrite Hs in H. simpl in H. inv_ok.
  simplify_eq. by apply try_map_ok.
Qed.

Lemma locality_split c q roots p :
  locality_select c q roots = Ok p →
  ∃ df mf, try_fold (split_filter c) ([], []) (q_filters q) = Ok (df, mf) ∧
    ∀ x, x ∈ q_dimensions q ∨ x ∈ map sf_member df ↔ row_level c q x.
Proof.
  unfold locality_select. intros H. inv_ok. destruct x as [df mf]. exists df, mf.
  split; [done|]. pose proof (split_filters_ok _ _ _ _ _ H0) as Hin. simpl in Hin.
  intros y. unfold row_level. rewrite elem_of_map. split.
  - intros [?|(f & [[]%elem_of_nil|[? ?]]%Hin & ->)]; [by left|right]. exists f. eauto.
  - intros [?|(f & ? & -> & ?)]; [by left|right]. exists f. split; [|done]. apply Hin. by right.
Qed.
End props.

(** ** Properties *)

Section claims.
Context `{!HashIter string}.

(** What the search from the model of a measure says of a model whose rows restrict or
    group the measure's: it is joined by a shortest path of relationships, none of them
    [one_to_many], and no two models one step nearer to the root are related to it. *)
Definition safe_lookup (c : SemanticCatalog) (root model : string) : Prop :=
  model = root ∨
  ∃ n es, reachability c root !! model = Some n ∧
    join_path (adj := adjacency c) (root := root) (reach := reachability c root) model es ∧
    (∀ e, e ∈ es → e_kind e ≠ OneToMany) ∧
    (∀ k, path (adjacency c) k root model → length es ≤ k) ∧
    ∀ p q np nq, reachability c root !! p = Some np → reachability c root !! q = Some nq →
      length es = S (n_depth np) → length es = S (n_depth nq) →
      related c p model → related c q model → p = q.

Lemma safe_lookup_intro c root model n :
  catalog_wf c → reachability c root !! model = Some n →
  n_ambiguous n = false → n_fans_out n = false → safe_lookup c root model.
Proof.
  intros Hwf Hn Ha Hf. right.
  destruct (join_path_fans c root model n Hwf Hn) as (es & Hp & Hlen & Hiff & _).
  destruct (reachability_result c root Hwf) as [_ Hsr].
  exists n, es. split_and!; [done..| | |].
  - intros e He Hk. assert (n_fans_out n = true) by (apply Hiff; eauto). congruence.
  - intros k Hk. destruct (sr_complete Hsr k model Hk) as (n' & Hn' & Hle).
    simplify_eq. lia.
  - intros p q np nq Hp' Hq Hdp Hdq Hrp Hrq. destruct (decide (p = q)) as [|Hne]; [done|].
    assert (n_ambiguous n = true); [|congruence].
    apply (reachability_ambiguous c root model n Hwf Hn).
    exists p, q, np, nq. split_and!; try done; congruence.
Qed.

(** C1: No compiled query lets a join inflate a measure: whenever a metric-free query
    compiles, every dimension and every row-level filter of it belongs to the model of
    each measure or to one joined to that model along a shortest path of relationships
    none of which is [one_to_many], in the single-fact and in the aggregate-locality form.
    The last step of that path is the only one from the models one step nearer; models
    further up the path are not checked for a second way to them. *)
Theorem compile_measures_no_fan_out c q sql m d :
  catalog_wf c → compile_measures c q = Ok sql → m ∈ q_measures q → row_level c q d →
  ∃ root model, member_model m = Ok root ∧ member_model d = Ok model ∧
    safe_lookup c root model.
Proof.
  intros Hwf Hc Hm Hd. apply compile_measures_inv in Hc
    as [(root & hm & s & Hs & -> & Hroot)|(r1 & r2 & rs & ctes & outer & Hr & Hl & ->)].
  - destruct Hroot as [[-> Hr]|(-> & Hr & _)];
      apply measure_roots_ok in Hr as [Hr Hmm]; destruct (Hmm m Hm) as [rm Hrm];
      assert (rm ∈ _) as Hin by (apply Hr; eauto); [|by apply elem_of_nil in Hin].
    apply list_elem_of_singleton in Hin as ->. unfold single_select in Hs. inv_ok.
    destruct (referenced_models_ok _ _ _ H) as [Hin Hall].
    destruct (Hall d (row_level_query_member _ _ _ Hd)) as [md Hmd].
    assert (md ∈ x) as Hx by (apply Hin; eauto using row_level_query_member).
    exists root, md. apply known_model_ok in Hrm as [? _], Hmd as [? _].
    split_and!; [done..|]. destruct x0. apply try_each_ok in H0.
    rewrite Forall_forall in H0. specialize (H0 md Hx).
    apply check_referenced_ok in H0 as [->|(n & Hn & Ha & Hf)]; [by left|].
    eapply safe_lookup_intro; eauto.
  - apply measure_roots_ok in Hr as [Hr Hmm]. destruct (Hmm m Hm) as [rm Hrm].
    assert (rm ∈ r1 :: r2 :: rs) as Hin by (apply Hr; eauto).
    destruct (locality_split _ _ _ _ Hl) as (df & mf & Hsplit & Hrow).
    pose proof (locality_cte _ _ _ _ _ _ _ Hl Hsplit) as Hctes.
    apply list_elem_of_lookup in Hin as [i Hi].
    destruct (Forall2_lookup_l _ _ _ _ _ Hctes Hi) as (s & _ & Hs).
    destruct (cte_select_refs _ _ _ _ _ Hs) as (refs & req & _ & _ & _ & Hcons).
    destruct (Hcons d (proj2 (Hrow d) Hd)) as (md & Hmd & _).
    apply considered_ok in Hmd as [Hmd Hsafe].
    apply known_model_ok in Hrm as [? _], Hmd as [? _].
    exists rm, md. split_and!; [done..|].
    destruct Hsafe as [->|(n & Hn & Ha & Hf)]; [by left|]. by eapply safe_lookup_intro.
Qed.

(** The required predicates of a model. *)
Definition required_of (c : SemanticCatalog) (model : string) : list string :=
  match model_safety c model with
  | Some safety => sp_required_predicates safety
  | None => []
  end.

(** Every required predicate of [model], bound to the query's parameters, is among the
    conjuncts of the [WHERE] clause. *)
Definition guarded (c : SemanticCatalog) (q : SemanticQuery) (model : string)
    (s : Select) : Prop :=
  ∀ pred, pred ∈ required_of c model →
    ∃ bound, bind_params pred (q_params q) model = Ok bound ∧ bound ∈ s_wheres s.

Lemma required_predicates_ok c params refs ws out model pred :
  try_fold (λ ws model_name, let? ps := model_predicates c params model_name in
                             Ok (ws ++ ps)) ws refs = Ok out →
  (∀ p, p ∈ ws → p ∈ out) ∧
  (model ∈ refs → pred ∈ required_of c model →
   ∃ bound, bind_params pred params model = Ok bound ∧ bound ∈ out).
Proof.
  revert ws. induction refs as [|r refs IH]; intros ws; cbn [try_fold].
  { intros [= <-]. split; [done|]. by intros ?%elem_of_nil. }
  intros H. apply rbind_ok in H as (ws' & Hs & H). apply rbind_ok in Hs as (ps & Hps & [= <-]).
  destruct (IH _ H) as [Hsub Hin]. split; [intros p Hp; apply Hsub; set_solver|].
  intros [->|?]%elem_of_cons Hp; [|by auto]. unfold required_of in Hp.
  unfold model_predicates in Hps. destruct (model_safety c r) as [sf|]; [|set_solver].
  apply try_map_ok in Hps. apply list_elem_of_lookup in Hp as [i Hi].
  destruct (Forall2_lookup_l _ _ _ _ _ Hps Hi) as (b & Hb & Hbind).
  apply map_err_ok in Hbind. exists b. split; [done|]. apply Hsub, elem_of_app. right.
  by eapply list_elem_of_lookup_2.
Qed.

Lemma guarded_intro c q refs required s model :
  required_predicates c (q_params q) refs = Ok required →
  (∀ p, p ∈ required → p ∈ s_wheres s) → model ∈ refs → guarded c q model s.
Proof.
  intros Hr Hs Hm pred Hp.
  destruct (proj2 (required_predicates_ok _ _ _ _ _ model pred Hr) Hm Hp) as (b & ? & ?). eauto.
Qed.

(** C10: Row-level security is applied: in the [SELECT] a metric-free query compiles to,
    the [WHERE] clause contains every required predicate of every model owning one of its
    members, bound to the query's parameters; in the aggregate-locality form each measure
    root's CTE contains those of the root and of every dimension or row-filter model. *)
Theorem compile_measures_guarded c q sql :
  compile_measures c q = Ok sql →
  (∃ s, sql = render_select s ∧
     ∀ member model, member ∈ query_members q → member_model member = Ok model →
       guarded c q model s) ∨
  (∃ roots ctes outer, measure_roots c q = Ok roots ∧ 2 ≤ length roots ∧
     sql = render_locality roots (ctes, outer) ∧
     Forall2 (λ root s, guarded c q root s ∧
       ∀ member model, row_level c q member → member_model member = Ok model →
         guarded c q model s) roots ctes).
Proof.
  intros Hc. apply compile_measures_inv in Hc
    as [(root & hm & s & Hs & -> & _)|(r1 & r2 & rs & ctes & outer & Hr & Hl & ->)]; [left|right].
  - exists s. split; [done|]. intros member model Hm Hmm. unfold single_select in Hs. inv_ok.
    destruct (referenced_models_ok _ _ _ H) as [Hin Hall].
    destruct (Hall member Hm) as [m' Hm']. pose proof Hm' as Hk.
    apply known_model_ok in Hk as [Hmm' _]. assert (m' = model) as -> by congruence.
    destruct x6 as [wheres havings]. inv_ok. eapply guarded_intro; [eassumption| |].
    + intros p Hp. simpl. set_solver.
    + apply Hin. eauto.
  - exists (r1 :: r2 :: rs), ctes, outer. split_and!; [done|simpl; lia|done|].
    destruct (locality_split _ _ _ _ Hl) as (df & mf & Hsplit & Hrow).
    eapply Forall2_impl; [by eapply locality_cte|]. intros root s Hs.
    destruct (cte_select_refs _ _ _ _ _ Hs) as (refs & req & Hreq & Hroot & Hsub & Hcons).
    split; [by eapply guarded_intro|]. intros member model Hm Hmm.
    destruct (Hcons member (proj2 (Hrow member) Hm)) as (m' & Hm' & Hin).
    apply considered_ok in Hm' as [Hk _]. apply known_model_ok in Hk as [Hmm' _].
    assert (m' = model) as -> by congruence. by eapply guarded_intro.
Qed.
End claims.

Lemma compile_measures_no_fan_out_witness :
  ∃ sql root model, compile_shop by_region = Ok sql ∧
    member_model "orders.revenue" = Ok root ∧ member_model "customers.region" = Ok model ∧
    safe_lookup shop root model.
Proof.
  destruct (compile_shop by_region) as [sql|] eqn:Hs; [|vm_compute in Hs; discriminate].
  destruct (compile_measures_no_fan_out (HashIter0 := gset_iter) shop by_region sql
              "orders.revenue" "customers.region" shop_wf Hs) as (root & model & H).
  - left.
  - left. left.
  - exists sql, root, model. split; [reflexivity|exact H].
Defined.

Lemma compile_measures_guarded_witness :
  ∃ sql, compile_shop by_region = Ok sql ∧
    ∃ s, sql = render_select s ∧ "tenant = 'acme'" ∈ s_wheres s.
Proof.
  destruct (compile_shop by_region) as [sql|] eqn:Hs; [|vm_compute in Hs; discriminate].
  exists sql. split; [reflexivity|].
  destruct (compile_measures_guarded (HashIter0 := gset_iter) shop by_region sql Hs)
    as [(s & Heq & Hg)|(roots & ctes & outer & Hr & Hl & _)].
  - exists s. split; [exact Heq|].
    destruct (Hg "customers.region" "customers") with (pred := "tenant = ${param:t}")
      as (b & Hb & Hin); [right; left|reflexivity|vm_compute; left|].
    vm_compute in Hb. injection Hb as <-. exact Hin.
  - exfalso. vm_compute in Hr. injection Hr as <-. simpl in Hl. lia.
Defined.
