(* ===== verification/CompileTotal.v ===== *)
(** * Row caps, segments, and failures that cannot happen
    The row limit a compiled query carries, segment expansion, and the unreachability of the
    compiler's internal error. *)

From S2P Require Export CompileProps.

(** ** Segments *)

(** The filters one segment reference adds, looked up declaratively. *)
Definition segment_of (c : SemanticCatalog) (seg_ref : string) (fs : list SemanticFilter) : Prop :=
  ∃ model_nm seg_nm model seg, seg_ref = model_nm +:+ "." +:+ seg_nm ∧
    contains_chr "." model_nm = false ∧ models c !! model_nm = Some model ∧
    List.find (λ s, bool_decide (seg_name s = seg_nm)) (sm_segments model) = Some seg ∧
    fs = seg_filters seg.

Lemma segment_filters_ok c seg_ref fs :
  segment_filters c seg_ref = Ok fs ↔ segment_of c seg_ref fs.
Proof.
  unfold segment_filters, segment_of. split.
  - intros H. inv_ok. destruct x as [mn sn]. inv_ok.
    apply split_once_some in H0 as [-> ?]. eauto 10.
  - intros (mn & sn & m & s & -> & Hc & Hm & Hs & ->).
    rewrite (proj2 (split_once_some "." _ mn sn)) by done. simpl. rewrite Hm. simpl.
    by rewrite Hs.
Qed.

Lemma expand_fold c refs fs0 out :
  try_fold (λ fs seg_ref, let? extra := segment_filters c seg_ref in Ok (fs ++ extra)) fs0 refs
    = Ok out ↔
  ∃ extras, Forall2 (segment_of c) refs extras ∧ out = fs0 ++ concat extras.
Proof.
  revert fs0. induction refs as [|r refs IH]; intros fs0; cbn [try_fold].
  - split.
    + intros [= <-]. exists []. rewrite app_nil_r. by repeat constructor.
    + intros (extras & Hf & ->). inversion Hf; subst. simpl. by rewrite app_nil_r.
  - rewrite rbind_ok. setoid_rewrite IH. split.
    + intros (fs1 & Hr & extras & Hf & ->). inv_ok. exists (x :: extras). simpl.
      rewrite app_assoc. split; [|done]. constructor; [by apply segment_filters_ok|done].
    + intros (extras & Hf & ->). inversion Hf as [|? e ? es He Hes]; subst.
      exists (fs0 ++ e). rewrite (proj2 (segment_filters_ok c r e) He). simpl.
      split; [done|]. exists es. by rewrite app_assoc.
Qed.

(** Segment expansion: a query's segments are replaced by the filters they stand for,
    appended to the query's own filters in the order the segments are listed, and nothing
    else of the query changes; it succeeds exactly when every reference names a known
    segment ([model.segment], split at the first dot), and expanding twice changes nothing. *)
Theorem expand_segments_spec c q :
  (∀ q', expand_segments c q = Ok q' ↔
     ∃ extras, Forall2 (segment_of c) (q_segments q) extras ∧
       q' = with_filters q (q_filters q ++ concat extras) []) ∧
  (∀ q', expand_segments c q = Ok q' → expand_segments c q' = Ok q').
Proof.
  assert (∀ q', expand_segments c q = Ok q' ↔
     ∃ extras, Forall2 (segment_of c) (q_segments q) extras ∧
       q' = with_filters q (q_filters q ++ concat extras) []) as Hiff.
  { intros q'. unfold expand_segments. destruct (q_segments q) as [|s segs] eqn:Hs.
    - split.
      + intros [= <-]. exists []. split; [constructor|]. simpl. rewrite app_nil_r.
        unfold with_filters. rewrite <-Hs. by destruct q.
      + intros (extras & Hf & ->). inversion Hf; subst. simpl. rewrite app_nil_r.
        unfold with_filters. rewrite <-Hs. by destruct q.
    - rewrite rbind_ok. setoid_rewrite expand_fold. split.
      + intros (fs & (extras & ? & ->) & [= <-]). eauto.
      + intros (extras & ? & ->). eauto. }
  split; [done|]. intros q' (extras & _ & ->)%Hiff. done.
Qed.

Lemma expand_segments_spec_witness :
  expand_segments shop (with_filters by_region [] []) = Ok (with_filters by_region [] []).
Proof. apply (expand_segments_spec shop (with_filters by_region [] [])). reflexivity. Defined.

(** ** Row caps *)

(** The tightest of some optional limits. *)
Definition tightest (limits : list (option N)) : option N := foldr effective_limit None limits.

Lemma effective_limit_assoc a b c :
  effective_limit a (effective_limit b c) = effective_limit (effective_limit a b) c.
Proof. destruct a, b, c; simpl; f_equal; lia. Qed.

Lemma effective_limit_none a : effective_limit a None = a.
Proof. by destruct a. Qed.

Lemma tightest_le limits l :
  Some l ∈ limits → ∃ m, tightest limits = Some m ∧ (m ≤ l)%N.
Proof.
  induction limits as [|x limits IH]; [by intros ?%elem_of_nil|]. simpl.
  intros [<-|Hin]%elem_of_cons.
  - destruct (tightest limits); simpl; eexists; (split; [done|lia]).
  - destruct (IH Hin) as (m & -> & ?). destruct x; simpl; eexists; (split; [done|lia]).
Qed.

Lemma tightest_in limits m : tightest limits = Some m → Some m ∈ limits.
Proof.
  revert m. induction limits as [|x limits IH]; intros m; simpl; [done|].
  destruct (tightest limits) as [t|] eqn:Ht; destruct x as [y|]; simpl; intros [= <-].
  - destruct (N.min_spec y t) as [[_ ->]|[_ ->]]; [left|right; by apply IH].
  - right. by apply IH.
  - left.
Qed.

Section caps.
Context `{!HashIter string}.

Lemma root_cap_fold c q roots cap0 cap :
  try_fold (root_cap c q) cap0 roots = Ok cap →
  cap = effective_limit cap0 (tightest (map (max_rows c) roots)).
Proof.
  revert cap0. induction roots as [|r roots IH]; intros cap0; cbn [try_fold].
  { intros [= <-]. by rewrite effective_limit_none. }
  intros H. apply rbind_ok in H as (cap1 & Hr & H). apply IH in H as ->.
  unfold root_cap in Hr. inv_ok. simpl. rewrite effective_limit_assoc.
  destruct (max_rows c r), cap0; simpl; done.
Qed.

(** The models whose row caps govern a query: its measure roots, or the model of its
    first dimension when it selects no measure. *)
Definition governing (c : SemanticCatalog) (q : SemanticQuery) : list string :=
  match to_option (measure_roots c q) with
  | Some [] => match head (q_dimensions q) with
               | Some d => default [] ((λ m, [m]) <$> to_option (member_model d))
               | None => []
               end
  | Some roots => roots
  | None => []
  end.

Lemma locality_limit c q roots p :
  locality_select c q roots = Ok p →
  s_limit p.2 = tightest (q_limit q :: map (max_rows c) roots).
Proof.
  unfold locality_select. intros H. inv_ok. destruct x as [df mf]. inv_ok.
  simpl. by apply root_cap_fold in H1 as ->.
Qed.

Lemma compile_measures_limit c q sql :
  compile_measures c q = Ok sql →
  ∃ prefix s, sql = prefix +:+ render_select s ∧
    s_limit s = tightest (q_limit q :: map (max_rows c) (governing c q)).
Proof.
  intros Hc. apply compile_measures_inv in Hc
    as [(root & hm & s & Hs & -> & Hroot)|(r1 & r2 & rs & ctes & outer & Hr & Hl & ->)].
  - exists "", s. split; [done|].
    assert (governing c q = [root]) as ->.
    { unfold governing. destruct Hroot as [[_ ->]|(_ & -> & d & -> & Hd)]; [done|].
      simpl. by rewrite Hd. }
    unfold single_select in Hs. inv_ok. destruct x6. inv_ok. simpl.
    by rewrite effective_limit_none.
  - unfold render_locality. rewrite <-!app_assoc'. eexists _, outer. split; [done|].
    assert (governing c q = r1 :: r2 :: rs) as -> by (unfold governing; by rewrite Hr).
    by apply locality_limit in Hl.
Qed.

(** C39: Row caps hold: the outermost [SELECT] of a compiled metric-free query carries a
    [LIMIT] no larger than the caller's limit nor than the [max_rows] of any governing
    model (every measure root, or the first dimension's model), and the limit is one of
    these: it is never invented nor tightened further. *)
Theorem compile_measures_capped c q sql :
  compile_measures c q = Ok sql →
  ∃ prefix s, sql = prefix +:+ render_select s ∧
    (∀ cap, (q_limit q = Some cap ∨ ∃ m, m ∈ governing c q ∧ max_rows c m = Some cap) →
       ∃ l, s_limit s = Some l ∧ (l ≤ cap)%N) ∧
    (∀ l, s_limit s = Some l →
       q_limit q = Some l ∨ ∃ m, m ∈ governing c q ∧ max_rows c m = Some l).
Proof.
  intros Hc. destruct (compile_measures_limit c q sql Hc) as (prefix & s & -> & Hlim).
  exists prefix, s. split; [done|].
  assert (∀ l, Some l ∈ q_limit q :: map (max_rows c) (governing c q) ↔
    q_limit q = Some l ∨ ∃ m, m ∈ governing c q ∧ max_rows c m = Some l) as Hin.
  { intros l. rewrite elem_of_cons, elem_of_map. split.
    - intros [?|(m & ? & ?)]; eauto.
    - intros [?|(m & ? & ?)]; eauto. }
  rewrite Hlim. split.
  - intros cap Hcap. apply tightest_le. by apply Hin.
  - intros l Hl. by apply Hin, tightest_in.
Qed.
End caps.

Lemma compile_measures_capped_witness :
  ∃ sql prefix s l, compile_shop by_region = Ok sql ∧ sql = prefix +:+ render_select s ∧
    s_limit s = Some l ∧ (l ≤ 50)%N.
Proof.
  destruct (compile_shop by_region) as [sql|] eqn:Hs; [|vm_compute in Hs; discriminate].
  destruct (compile_measures_capped (HashIter0 := gset_iter) shop by_region sql Hs)
    as (prefix & s & Heq & Hle & _).
  destruct (Hle 50%N (or_introl eq_refl)) as (l & Hl & Hb).
  exists sql, prefix, s, l. split; [reflexivity|]. split; [exact Heq|]. split; [exact Hl|exact Hb].
Defined.

(** ** The internal error [RelationshipCycle] *)

Definition no_cycle {A} (r : result SemanticError A) : Prop :=
  ∀ m, r ≠ Err (RelationshipCycle m).

Lemma no_cycle_ok {A} (a : A) : no_cycle (Ok a).
Proof. by intros m. Qed.
Lemma no_cycle_bind {A B} (r : result SemanticError A) (f : A → result SemanticError B) :
  no_cycle r → (∀ a, r = Ok a → no_cycle (f a)) → no_cycle (rbind r f).
Proof. intros Hr Hf. destruct r as [a|e]; [by apply Hf|]. intros m [= ->]. by eapply Hr. Qed.
Lemma no_cycle_ok_or {A} e (o : option A) :
  (∀ m, e ≠ RelationshipCycle m) → no_cycle (ok_or e o).
Proof. intros He. destruct o; [done|]. intros m [= ->]. by eapply He. Qed.
Lemma no_cycle_safety {A} (r : result SafetyError A) : no_cycle (map_err Safety r).
Proof. by destruct r. Qed.
Lemma no_cycle_try_map {A B} (f : A → result SemanticError B) l :
  (∀ x, x ∈ l → no_cycle (f x)) → no_cycle (try_map f l).
Proof.
  intros Hf. induction l as [|x l IH]; simpl; [done|].
  apply no_cycle_bind; [apply Hf; left|]. intros y _.
  apply no_cycle_bind; [apply IH; intros; apply Hf; by right|]. done.
Qed.
Lemma no_cycle_try_fold {A S} (f : S → A → result SemanticError S) s l :
  (∀ s x, x ∈ l → no_cycle (f s x)) → no_cycle (try_fold f s l).
Proof.
  revert s. induction l as [|x l IH]; intros s Hf; simpl; [done|].
  apply no_cycle_bind; [apply Hf; left|]. intros s' _. apply IH. intros. apply Hf. by right.
Qed.
Lemma no_cycle_try_each {A} (f : A → result SemanticError ()) l :
  (∀ x, x ∈ l → no_cycle (f x)) → no_cycle (try_each f l).
Proof.
  intros Hf. induction l as [|x l IH]; simpl; [done|].
  apply no_cycle_bind; [apply Hf; left|]. intros y _. apply IH; intros; apply Hf; by right.
Qed.

Create HintDb no_cycle.
#[export] Hint Resolve no_cycle_ok no_cycle_safety : no_cycle.

(** Walks through a computation whose failures are all constructors. *)
Ltac no_cycle_step :=
  match goal with
  | |- no_cycle (rbind _ _) => apply no_cycle_bind; [|intros ? ?]
  | |- no_cycle (ok_or _ _) => apply no_cycle_ok_or; done
  | |- no_cycle (try_map _ _) => apply no_cycle_try_map; intros ? ?
  | |- no_cycle (try_fold _ _ _) => apply no_cycle_try_fold; intros ? ? ?
  | |- no_cycle (try_each _ _) => apply no_cycle_try_each; intros ? ?
  | |- no_cycle (let '(_, _) := ?p in _) => destruct p
  | |- no_cycle (if ?b then _ else _) => destruct b
  | |- no_cycle (match ?x with _ => _ end) => destruct x
  | |- no_cycle (Err _) => intros ? ?; discriminate
  | |- no_cycle _ => solve [auto with no_cycle]
  end.

Lemma no_cycle_member_model m : no_cycle (member_model m).
Proof. unfold member_model. repeat no_cycle_step. Qed.
#[export] Hint Resolve no_cycle_member_model : no_cycle.
Lemma no_cycle_model_for c m : no_cycle (model_for_member c m).
Proof. unfold model_for_member. repeat no_cycle_step. Qed.
Lemma no_cycle_push_model c acc m : no_cycle (push_model c acc m).
Proof. unfold push_model. repeat no_cycle_step. Qed.
#[export] Hint Resolve no_cycle_model_for no_cycle_push_model : no_cycle.
Lemma no_cycle_dimension_expr model m alias tz :
  no_cycle (resolve_dimension_expr model m alias tz).
Proof. unfold resolve_dimension_expr. repeat no_cycle_step. Qed.
Lemma no_cycle_measure_expr model m alias : no_cycle (resolve_measure_expr model m alias).
Proof. unfold resolve_measure_expr. repeat no_cycle_step. Qed.
Lemma no_cycle_apply_op e f b : no_cycle (apply_op e f b).
Proof. unfold apply_op, filter_one. repeat no_cycle_step. Qed.
#[export] Hint Resolve no_cycle_dimension_expr no_cycle_measure_expr no_cycle_apply_op : no_cycle.
Lemma no_cycle_filters model f alias tz :
  no_cycle (resolve_filter model f alias tz) ∧ no_cycle (resolve_measure_filter model f alias).
Proof. split; [unfold resolve_filter|unfold resolve_measure_filter]; repeat no_cycle_step. Qed.
Lemma no_cycle_resolve_filter model f alias tz : no_cycle (resolve_filter model f alias tz).
Proof. apply no_cycle_filters. Qed.
Lemma no_cycle_measure_filter model f alias : no_cycle (resolve_measure_filter model f alias).
Proof. apply (no_cycle_filters model f alias None). Qed.
Lemma no_cycle_table c m : no_cycle (qualified_table c m).
Proof. unfold qualified_table. repeat no_cycle_step. Qed.
Lemma no_cycle_orders q : no_cycle (resolve_orders q).
Proof. unfold resolve_orders. repeat no_cycle_step. Qed.
Lemma no_cycle_safety_checks c root q : no_cycle (enforce_filter_safety c root q).
Proof. unfold enforce_filter_safety. repeat no_cycle_step. Qed.
Lemma no_cycle_predicates c params model : no_cycle (model_predicates c params model).
Proof. unfold model_predicates. repeat no_cycle_step. Qed.
#[export] Hint Resolve no_cycle_resolve_filter no_cycle_measure_filter no_cycle_table
  no_cycle_orders no_cycle_safety_checks no_cycle_predicates : no_cycle.

Lemma no_cycle_render_join c reach model n kind on :
  reach !! model = Some n → n_kind n = Some kind → n_on n = Some on →
  no_cycle (render_join c reach model).
Proof. intros Hn Hk Ho. unfold render_join. rewrite Hn. simpl. rewrite Hk, Ho. repeat no_cycle_step. Qed.

Section total.
Context `{!HashIter string}.

(** Joins of reachable models never meet the internal error. *)
Lemma joins_no_cycle c root refs :
  catalog_wf c → (∀ x, x ∈ refs → is_Some (reachability c root !! x)) →
  ∃ out, needed_models (reachability c root) refs root = Ok out ∧
    ∀ joined, no_cycle (render_from c root (reachability c root) out joined).
Proof.
  intros Hwf Hall. destruct (reachability_result c root Hwf) as [_ Hsr].
  destruct (needed_models_result _ _ _ _ Hsr Hall) as (out & Hout & _ & Hin & _).
  exists out. split; [done|]. intros joined. unfold render_from.
  apply no_cycle_bind; [auto with no_cycle|]. intros table _. destruct joined; [|done].
  apply no_cycle_try_fold. intros from y Hy.
  apply no_cycle_bind; [|auto with no_cycle].
  destruct (proj1 (Hin y) Hy) as (x & Hx & Hc). destruct (Hall x Hx) as [nx Hnx].
  destruct (on_climb_reached Hsr x y nx Hnx Hc) as [Hne [n Hn]].
  destruct (sr_tree _ _ _ Hsr y n Hn Hne) as (p & np & e & _ & _ & _ & _ & _ & _ & Hon & Hk).
  by eapply no_cycle_render_join.
Qed.

Lemma root_reached c root : catalog_wf c → is_Some (reachability c root !! root).
Proof.
  intros Hwf. destruct (reachability_result c root Hwf) as [_ Hsr].
  rewrite (sr_root _ _ _ Hsr). eauto.
Qed.

Lemma single_no_cycle c q root hm : catalog_wf c → no_cycle (single_select c q root hm).
Proof.
  intros Hwf. unfold single_select.
  apply no_cycle_bind; [unfold referenced_models; repeat no_cycle_step|]. intros refs _.
  apply no_cycle_bind.
  { unfold check_referenced. repeat no_cycle_step. }
  intros [] Hck. apply try_each_ok in Hck. rewrite Forall_forall in Hck.
  destruct (joins_no_cycle c root refs Hwf) as (out & Hout & Hfrom).
  { intros x Hx. destruct (check_referenced_ok _ _ _ _ _ _ (Hck x Hx)) as [->|(n & ? & _)];
      [by apply root_reached|eauto]. }
  apply no_cycle_bind; [unfold dimension_exprs; repeat no_cycle_step|]. intros dims _.
  apply no_cycle_bind; [unfold measure_exprs; repeat no_cycle_step|]. intros ms _.
  rewrite Hout. simpl. apply no_cycle_bind; [done|]. intros from _.
  unfold place_filter, required_predicates. repeat no_cycle_step.
Qed.

Lemma cte_no_cycle c q df root : catalog_wf c → no_cycle (cte_select c q df root).
Proof.
  intros Hwf. unfold cte_select.
  apply no_cycle_bind; [unfold consider; repeat no_cycle_step|]. intros refs Hrefs.
  eapply try_fold_collect in Hrefs as [Hin _]; [|apply consider_collect].
  destruct (joins_no_cycle c root refs Hwf) as (out & Hout & Hfrom).
  { intros x [->%list_elem_of_singleton|(y & _ & Hy)]%Hin; [by apply root_reached|].
    apply considered_ok in Hy as [_ [->|(n & ? & _)]]; [by apply root_reached|eauto]. }
  rewrite Hout. simpl. apply no_cycle_bind; [done|]. intros from _.
  unfold dimension_exprs, measure_exprs, required_predicates. repeat no_cycle_step.
Qed.

(** On a well-formed catalog the compiler's internal error [RelationshipCycle] (a join
    climbing out of the search tree) is unreachable, for metric-free queries of any shape:
    every failure is one of the user-facing errors. *)
Theorem compile_measures_no_cycle c q m :
  catalog_wf c → compile_measures c q ≠ Err (RelationshipCycle m).
Proof.
  intros Hwf. revert m. change (no_cycle (compile_measures c q)).
  unfold compile_measures. apply no_cycle_bind.
  { unfold measure_roots. repeat no_cycle_step. }
  intros [|r1 [|r2 rs]] _.
  - repeat no_cycle_step. unfold compile_single, rmap.
    apply no_cycle_bind; [by apply single_no_cycle|auto with no_cycle].
  - unfold compile_single, rmap.
    apply no_cycle_bind; [by apply single_no_cycle|auto with no_cycle].
  - unfold compile_aggregate_locality, rmap. generalize (r1 :: r2 :: rs) as roots. intros roots.
    apply no_cycle_bind; [|auto with no_cycle]. unfold locality_select.
    apply no_cycle_bind; [unfold split_filter; repeat no_cycle_step|]. intros [df mf] _.
    apply no_cycle_bind; [unfold root_cap; repeat no_cycle_step|]. intros cap _.
    apply no_cycle_bind; [apply no_cycle_try_map; intros; by apply cte_no_cycle|]. intros ctes _.
    unfold cte_column. repeat no_cycle_step.
Qed.
End total.

Lemma compile_measures_no_cycle_witness :
  compile_measures (HashIter0 := gset_iter) diamond (select_query ["a.m"] ["f.x"] [])
    ≠ Err (RelationshipCycle "f").
Proof.
  apply (compile_measures_no_cycle (HashIter0 := gset_iter)). exact diamond_wf.
Defined.
