(* ===== verification/Metric.v ===== *)
(** * The metric pass ([crates/pawrly-semantic/src/metric.rs])
    Dot-free members name metrics: they are expanded into leaf measures (synthetic ones when
    filtered), the expanded query is compiled as usual, and each metric is projected as
    arithmetic over the aggregated columns, on a dense time axis for window metrics. *)

From S2P Require Export CompileTotal.

Definition AGG_ALIAS : string := "__agg".
Definition AXIS_ALIAS : string := "__axis".

Definition window_fn (agg : WindowAgg) : string :=
  match agg with
  | WSum => "SUM"
  | WAvg => "AVG"
  | WMin => "MIN"
  | WMax => "MAX"
  end.

Definition grain_step (grain : TimeGrain) : string :=
  match grain with
  | Hour => "1 hour"
  | Day => "1 day"
  | Week => "1 week"
  | Month => "1 month"
  | Quarter => "3 months"
  | Year => "1 year"
  end.

Definition gap_filled (col : string) (zero_fill : bool) : string :=
  let col := quote_ident col in
  if zero_fill then "COALESCE(" +:+ AGG_ALIAS +:+ "." +:+ col +:+ ", 0)"
  else AGG_ALIAS +:+ "." +:+ col.

Definition partition_by (terms : list string) : string :=
  match terms with
  | [] => ""
  | _ => "PARTITION BY " +:+ join ", " terms +:+ " "
  end.

Definition and_filter (base : list string) (extra : option string) : list string :=
  match extra with
  | Some f => base ++ [f]
  | None => base
  end.

(** A member that is not [model.measure] names a metric. *)
Definition dotted (member : string) : bool := contains_chr "." member.

(** ** Window metrics *)

(** [any] over the references of a metric, threading the visited list. *)
Fixpoint any_window (has : string → list string → bool * list string)
    (members : list string) (visited : list string) : bool * list string :=
  match members with
  | [] => (false, visited)
  | member :: members =>
      if dotted member then any_window has members visited
      else let '(b, visited) := has member visited in
           if b then (true, visited) else any_window has members visited
  end.

(** [has_window] and the visited list it leaves. Each call that recurses adds a metric to
    [visited], so [S (size metrics)] levels are enough ([has_window_fuel_enough]). *)
Fixpoint has_window_at (fuel : nat) (c : SemanticCatalog) (name : string)
    (visited : list string) : bool * list string :=
  match fuel with
  | O => (false, visited)
  | S fuel =>
      match metrics c !! name with
      | None => (false, visited)
      | Some metric =>
          if bool_decide (name ∈ visited) then (false, visited)
          else
            let visited := visited ++ [name] in
            match met_kind metric with
            | Cumulative _ _ _ | Offset _ _ _ => (true, visited)
            | Share _ _ _ => (false, visited)
            | Ratio _ _ | Derived _ =>
                any_window (has_window_at fuel c)
                  (map fst (default [] (to_option (references metric)))) visited
            end
      end
  end.

Definition metric_fuel (c : SemanticCatalog) : nat := S (size (metrics c)).

Definition has_window (c : SemanticCatalog) (name : string) : bool :=
  (has_window_at (metric_fuel c) c name []).1.

(** [q.measures.iter().filter(|m| !m.contains('.')).any(has_window)]. *)
Definition spine_mode (c : SemanticCatalog) (q : SemanticQuery) : bool :=
  existsb (has_window c) (List.filter (λ m, negb (dotted m)) (q_measures q)).

(** ** The expansion state *)

Record Expansion := {
  ex_leaves : list string;
  ex_leaf_index : gmap (string * list string) string;
  ex_synthetic : gmap string (list Measure)
}.

Definition Expansion_new : Expansion :=
  {| ex_leaves := []; ex_leaf_index := ∅; ex_synthetic := ∅ |}.

(** A computation over the expansion; an error abandons it. *)
Abbreviation expanding A := (Expansion → result SemanticError (A * Expansion)).

Definition synthetic_measure (measure : Measure) (name : string) (filters : list string)
    : Measure :=
  {| mea_name := name; mea_agg := mea_agg measure; mea_expr := mea_expr measure;
     mea_filters := mea_filters measure ++ filters; mea_format := mea_format measure;
     mea_description := mea_description measure |}.

Definition leaf_key (member : string) (filters : list string) : string * list string :=
  (member, dedup (sort_strings filters)).

(** The inner member of a leaf seen for the first time, with its synthetic measure. *)
Definition new_leaf (c : SemanticCatalog) (member : string) (filters : list string)
    (st : Expansion) : result SemanticError (string * gmap string (list Measure)) :=
  match filters with
  | [] => Ok (member, ex_synthetic st)
  | _ =>
      let? '(model_name, measure_name) := ok_or (UnknownMember member) (split_once "." member) in
      let? model := ok_or (UnknownModel model_name) (models c !! model_name) in
      let? measure := ok_or (UnknownMember member) (find_measure model measure_name) in
      let name := "__mf" +:+ show_N (N.of_nat (size (ex_leaf_index st))) +:+ "_"
                  +:+ measure_name in
      let synthetic := synthetic_measure measure name (leaf_key member filters).2 in
      Ok (model_name +:+ "." +:+ name,
          <[model_name := default [] (ex_synthetic st !! model_name) ++ [synthetic]]>
            (ex_synthetic st))
  end.

Definition leaf (c : SemanticCatalog) (member : string) (filters : list string)
    : expanding string := λ st,
  let key := leaf_key member filters in
  match ex_leaf_index st !! key with
  | Some col => Ok (col, st)
  | None =>
      let? '(inner_member, synthetic) := new_leaf c member filters st in
      Ok (inner_member,
          {| ex_leaves := ex_leaves st ++ [inner_member];
             ex_leaf_index := <[key := inner_member]> (ex_leaf_index st);
             ex_synthetic := synthetic |})
  end.

(** [window_axis]: the window's ordering column and its partition terms. *)
Definition window_axis (q : SemanticQuery) (time_dims : list (string * TimeGrain))
    (metric : string) : result SemanticError (string * list string) :=
  match time_dims with
  | [(member, _)] =>
      Ok (AXIS_ALIAS +:+ "." +:+ quote_ident member,
          map (λ d, AXIS_ALIAS +:+ "." +:+ quote_ident d)
            (List.filter (λ d, negb (bool_decide (d = member))) (q_dimensions q)))
  | [] => Err (MetricNeedsTimeGrain metric)
  | _ => Err (Compile ("metric `" +:+ metric +:+
           "`: group by exactly one time-grained dimension (found several)"))
  end.

(** ** Metric expressions *)

Section expression.
Context (c : SemanticCatalog) (q : SemanticQuery) (time_dims : list (string * TimeGrain))
        (dims_alias : string).

(** [member_expr], with [metric_expr] as a parameter. *)
Definition member_expr_with (metric : string → list string → expanding string)
    (member : string) (filters : list string) : expanding string := λ st,
  if dotted member then
    let? '(col, st) := leaf c member filters st in
    Ok (AGG_ALIAS +:+ "." +:+ quote_ident col, st)
  else metric member filters st.

(** The [while let Some(start) = rest.find('{')] loop over a derived expression. *)
Fixpoint derived_sql (fuel : nat) (sub : string → list string → expanding string)
    (base : list string) (out rest : string) : expanding string := λ st,
  match fuel with
  | O => Ok (out +:+ rest, st)
  | S fuel =>
      match split_once "{" rest with
      | None => Ok (out +:+ rest, st)
      | Some (text, after) =>
          match split_once "}" after with
          | None => Ok (out +:+ rest, st)
          | Some (body, rest') =>
              let '(member, filter) := token_body body in
              let? '(e, st) := sub member (and_filter base filter) st in
              derived_sql fuel sub base (out +:+ text +:+ "(" +:+ e +:+ ")") rest' st
          end
      end
  end.

Definition ratio_sql (sub : string → list string → expanding string) (base : list string)
    (numerator denominator : Operand) : expanding string := λ st,
  let? '(num, st) := sub (op_member numerator) (and_filter base (op_filter numerator)) st in
  let? '(den, st) := sub (op_member denominator) (and_filter base (op_filter denominator)) st in
  Ok ("CAST(" +:+ num +:+ " AS DOUBLE) / NULLIF(" +:+ den +:+ ", 0)", st).

Definition derived_metric_sql (sub : string → list string → expanding string)
    (base : list string) (expr : string) : expanding string := λ st,
  let? _ := map_err Compile (derived_tokens expr) in
  derived_sql (S (String.length expr)) sub base "" expr st.

Definition window_frame (window : CumulativeWindow) : string :=
  match window with
  | RunningTotal | GrainToDate _ => "ROWS UNBOUNDED PRECEDING"
  | Trailing periods => "ROWS BETWEEN " +:+ show_N (periods - 1) +:+
                        " PRECEDING AND CURRENT ROW"
  end.

Definition cumulative_sql (name : string) (base : list string) (measure : string)
    (window : CumulativeWindow) (agg : WindowAgg) : expanding string := λ st,
  let? '(col, st) := leaf c measure base st in
  let? '(time_col, partition) := window_axis q time_dims name in
  let partition := match window with
    | GrainToDate grain => partition ++
        ["DATE_TRUNC('" +:+ TimeGrain_as_str grain +:+ "', " +:+ time_col +:+ ")"]
    | _ => partition
    end in
  let zero_fill := match agg with WSum | WAvg => true | _ => false end in
  Ok (window_fn agg +:+ "(" +:+ gap_filled col zero_fill +:+ ") OVER ("
      +:+ partition_by partition +:+ "ORDER BY " +:+ time_col +:+ " "
      +:+ window_frame window +:+ ")", st).

Definition offset_sql (name : string) (base : list string) (measure : string)
    (periods : N) (output : OffsetOutput) : expanding string := λ st,
  let? '(col, st) := leaf c measure base st in
  let? '(time_col, partition) := window_axis q time_dims name in
  let cur := gap_filled col true in
  let lag := "LAG(" +:+ cur +:+ ", " +:+ show_N periods +:+ ") OVER ("
             +:+ partition_by partition +:+ "ORDER BY " +:+ time_col +:+ ")" in
  Ok (match output with
      | OutValue => lag
      | OutDelta => "(" +:+ cur +:+ " - " +:+ lag +:+ ")"
      | OutGrowth => "CAST((" +:+ cur +:+ " - " +:+ lag +:+ ") AS DOUBLE) / NULLIF("
                     +:+ lag +:+ ", 0)"
      end, st).

Definition share_sql (name : string) (base : list string) (measure : string)
    (over : list string) (agg : WindowAgg) : expanding string := λ st,
  let? _ := try_each (λ dim, if bool_decide (dim ∈ q_dimensions q) then Ok ()
                             else Err (ShareDimNotGrouped name dim)) over in
  let? '(col, st) := leaf c measure base st in
  let col := AGG_ALIAS +:+ "." +:+ quote_ident col in
  let partition := map (λ d, dims_alias +:+ "." +:+ quote_ident d) over in
  Ok ("CAST(" +:+ col +:+ " AS DOUBLE) / NULLIF(" +:+ window_fn agg +:+ "(" +:+ col
      +:+ ") OVER (" +:+ trim_end (partition_by partition) +:+ "), 0)", st).

(** [metric_expr]; [visiting] is the stack of metrics being expanded, which grows at each
    level and holds distinct known metrics, so [metric_fuel] levels are enough
    ([metric_expr_fuel_enough]). *)
Fixpoint metric_expr_at (fuel : nat) (visiting : list string) (name : string)
    (inherited : list string) : expanding string := λ st,
  let? metric := ok_or (UnknownMetric name) (metrics c !! name) in
  if bool_decide (name ∈ visiting) then Err (MetricCycle name)
  else
    match fuel with
    | O => Err (MetricCycle name)
    | S fuel =>
        let base := and_filter inherited (met_filter metric) in
        let sub := member_expr_with (metric_expr_at fuel (visiting ++ [name])) in
        match met_kind metric with
        | Ratio num den => ratio_sql sub base num den st
        | Derived expr => derived_metric_sql sub base expr st
        | Cumulative measure window agg => cumulative_sql name base measure window agg st
        | Offset measure periods output => offset_sql name base measure periods output st
        | Share measure over agg => share_sql name base measure over agg st
        end
    end.

Definition metric_expr (name : string) (inherited : list string) : expanding string :=
  metric_expr_at (metric_fuel c) [] name inherited.
End expression.

(** ** The augmented catalog and the time axis *)

(** The query's time-grained dimensions. *)
Definition time_dims_of (q : SemanticQuery) : list (string * TimeGrain) :=
  omap (λ d, match split "." d with
             | [_; _; grain] => (λ g, (d, g)) <$> TimeGrain_parse grain
             | _ => None
             end) (q_dimensions q).

Definition with_measures (m : SemanticModel) (extra : list Measure) : SemanticModel :=
  {| sm_name := sm_name m; sm_description := sm_description m; sm_source := sm_source m;
     sm_primary_key := sm_primary_key m; sm_dimensions := sm_dimensions m;
     sm_measures := sm_measures m ++ extra; sm_relationships := sm_relationships m;
     sm_pre_aggregations := sm_pre_aggregations m; sm_segments := sm_segments m;
     sm_safety := sm_safety m |}.

(** [augmented_catalog]: one pass over the synthetic measures, whose keys are distinct, so
    the iteration order of the map is immaterial. *)
Definition augmented_catalog (c : SemanticCatalog) (synthetic : gmap string (list Measure))
    : SemanticCatalog :=
  {| models := foldl (λ ms '(name, extra),
         match ms !! name with
         | Some model => <[name := with_measures model extra]> ms
         | None => ms
         end) (models c) (map_to_list synthetic);
     metrics := ∅; time_spine := None |}.

Definition axis_sql (c : SemanticCatalog) (q : SemanticQuery)
    (time_dims : list (string * TimeGrain)) : result SemanticError string :=
  let? '(time_member, grain) :=
    match time_dims with
    | [d] => Ok d
    | _ => Err (Compile "window metrics need exactly one time-grained dimension")
    end in
  let tc := quote_ident time_member in
  let bound f := "(SELECT " +:+ f +:+ "(" +:+ tc +:+ ") FROM " +:+ AGG_ALIAS +:+ ")" in
  let? spine :=
    match time_spine c with
    | None => Ok ("SELECT unnest(generate_series(" +:+ bound "MIN" +:+ ", " +:+ bound "MAX"
                  +:+ ", INTERVAL '" +:+ grain_step grain +:+ "')) AS " +:+ tc)
    | Some ts =>
        let? table := ok_or (Compile ("time_spine source `" +:+ ts_source ts +:+
                               "` must be `source.table`")) (TableName_parse (ts_source ts)) in
        let col := quote_ident (ts_column ts) in
        let trunc := "DATE_TRUNC('" +:+ TimeGrain_as_str grain +:+ "', " +:+ col +:+ ")" in
        Ok ("SELECT DISTINCT " +:+ trunc +:+ " AS " +:+ tc +:+ " FROM "
            +:+ quote_ident (tn_schema table) +:+ "." +:+ quote_ident (tn_table table)
            +:+ " WHERE " +:+ trunc +:+ " BETWEEN " +:+ bound "MIN" +:+ " AND " +:+ bound "MAX")
    end in
  let keys := map quote_ident
                (List.filter (λ d, negb (bool_decide (d = time_member))) (q_dimensions q)) in
  match keys with
  | [] => Ok spine
  | _ =>
      let axis_cols := ("__t." +:+ tc) :: map (λ k, "__k." +:+ k) keys in
      Ok ("SELECT " +:+ join ", " axis_cols +:+ newline +:+ "FROM (" +:+ spine +:+ ") AS __t"
          +:+ newline +:+ "CROSS JOIN (SELECT DISTINCT " +:+ join ", " keys +:+ " FROM "
          +:+ AGG_ALIAS +:+ ") AS __k")
  end.

(** ** Expanding a query *)

(** One measure of the query: its projection. *)
Definition project_measure (c : SemanticCatalog) (q : SemanticQuery)
    (time_dims : list (string * TimeGrain)) (dims_alias : string)
    (acc : list string * Expansion) (m : string)
    : result SemanticError (list string * Expansion) :=
  let '(projections, st) := acc in
  if dotted m then
    let? '(_, st) := leaf c m [] st in
    Ok (projections ++ [select_as (AGG_ALIAS +:+ "." +:+ quote_ident m) m], st)
  else
    let? '(expr, st) := metric_expr c q time_dims dims_alias m [] st in
    Ok (projections ++ [select_as expr m], st).

Definition expand_query (c : SemanticCatalog) (q : SemanticQuery)
    (time_dims : list (string * TimeGrain)) (dims_alias : string)
    : result SemanticError (list string * Expansion) :=
  let dims := map (λ d, select_as (dims_alias +:+ "." +:+ quote_ident d) d) (q_dimensions q) in
  try_fold (project_measure c q time_dims dims_alias) (dims, Expansion_new) (q_measures q).

(** The inner query: the leaves, without the caller's ordering and limit. *)
Definition inner_query (q : SemanticQuery) (leaves : list string) : SemanticQuery :=
  {| q_measures := leaves; q_dimensions := q_dimensions q; q_filters := q_filters q;
     q_segments := q_segments q; q_order_by := []; q_limit := None;
     q_time_zone := q_time_zone q; q_params := q_params q |}.

Definition compile_with_metrics_via
    (compile_inner : SemanticCatalog → SemanticQuery → result SemanticError string)
    (c : SemanticCatalog) (q : SemanticQuery) : result SemanticError string :=
  let spine := spine_mode c q in
  let dims_alias := if spine then AXIS_ALIAS else AGG_ALIAS in
  let time_dims := time_dims_of q in
  let? '(projections, ex) := expand_query c q time_dims dims_alias in
  let? inner_sql := compile_inner (augmented_catalog c (ex_synthetic ex))
                      (inner_query q (ex_leaves ex)) in
  let? sql :=
    if spine then
      let? axis := axis_sql c q time_dims in
      let on := join " AND " (map (λ d, let col := quote_ident d in
        AXIS_ALIAS +:+ "." +:+ col +:+ " IS NOT DISTINCT FROM " +:+ AGG_ALIAS +:+ "." +:+ col)
        (q_dimensions q)) in
      Ok ("WITH " +:+ AGG_ALIAS +:+ " AS (" +:+ newline +:+ inner_sql +:+ newline +:+ "),"
          +:+ newline +:+ AXIS_ALIAS +:+ " AS (" +:+ newline +:+ axis +:+ newline +:+ ")"
          +:+ newline +:+ "SELECT " +:+ join ", " projections +:+ newline
          +:+ "FROM " +:+ AXIS_ALIAS +:+ newline
          +:+ "LEFT JOIN " +:+ AGG_ALIAS +:+ " ON " +:+ on)
    else
      Ok ("SELECT " +:+ join ", " projections +:+ newline +:+ "FROM (" +:+ newline
          +:+ inner_sql +:+ newline +:+ ") AS " +:+ AGG_ALIAS) in
  let? orders := resolve_orders q in
  Ok (sql +:+ clause "ORDER BY" ", " orders +:+ limit_clause (q_limit q)).

(** [rollup_leaf_query]: the metric-free query a rollup could serve. *)
Definition rollup_leaf_query (c : SemanticCatalog) (q : SemanticQuery) : option SemanticQuery :=
  if spine_mode c q then None
  else
    '(_, ex) ← to_option (try_fold (project_measure c q [] AGG_ALIAS) ([], Expansion_new)
                            (q_measures q));
    if bool_decide (ex_synthetic ex = ∅) then Some (inner_query q (ex_leaves ex)) else None.

(** ** [compile_sql] and the rollup entry points *)

Section compile.
Context `{!HashIter string}.

(** [compile_sql] calls itself through the metric pass, on a catalog without metrics;
    two levels are enough ([compile_sql_unfold]). *)
Fixpoint compile_sql_at (fuel : nat) (c : SemanticCatalog) (q : SemanticQuery)
    : result SemanticError string :=
  compile_sql_with
    (match fuel with
     | O => λ _ _, Err EmptyQuery
     | S fuel => compile_with_metrics_via (compile_sql_at fuel)
     end) c q.

Definition compile_sql : SemanticCatalog → SemanticQuery → result SemanticError string :=
  compile_sql_at 2.

Definition compile_with_metrics : SemanticCatalog → SemanticQuery → result SemanticError string :=
  compile_with_metrics_via compile_sql.
End compile.

Definition candidate_rollup (c : SemanticCatalog) (q : SemanticQuery) : option RollupMatch :=
  q ← to_option (expand_segments c q);
  q ← (if has_metric q then rollup_leaf_query c q else Some q);
  if is_some (q_time_zone q) then None
  else
    roots ← to_option (measure_roots c q);
    match roots with
    | [root] =>
        model ← models c !! root;
        referenced ← to_option (referenced_models c q);
        if existsb (λ m, negb (bool_decide (m = root))) referenced then None
        else if match sm_safety model with
                | Some s => negb (bool_decide (sp_required_predicates s = []))
                | None => false
                end then None
        else if forallb (λ member,
                  match name ← measure_member_name member; find_measure model name with
                  | Some measure => is_rollup_safe (mea_agg measure)
                  | None => false
                  end) (q_measures q)
        then (λ pre, {| rm_model := root; rm_preagg := pre_name pre |}) <$> match_rollup model q
        else None
    | _ => None
    end.

Definition compile_rollup_sql (c : SemanticCatalog) (q : SemanticQuery) (r : RollupMatch)
    : result SemanticError string :=
  let? q := expand_segments c q in
  if has_metric q then compile_with_metrics_via (λ _ inner, rollup_measure_sql c inner r) c q
  else rollup_measure_sql c q r.
