(* ===== verification/MetricProps.v ===== *)
(** * Properties of the metric pass
    Metric expansion terminates, accepts exactly the acyclic references, shares leaves, and
    needs at most one nested compilation. *)

From S2P Require Export Metric.

(** ** References between metrics *)

Definition compound (k : MetricKind) : bool :=
  match k with Ratio _ _ | Derived _ => true | _ => false end.

(** [a] inlines the metric [b]. *)
Definition refers (c : SemanticCatalog) (a b : string) : Prop :=
  ∃ metric refs f, metrics c !! a = Some metric ∧ compound (met_kind metric) = true ∧
    references metric = Ok refs ∧ (b, f) ∈ refs ∧ dotted b = false.

(** The expression of a compound metric. *)
Definition compound_sql (sub : string → list string → expanding string) (base : list string)
    (k : MetricKind) : expanding string := λ st,
  match k with
  | Ratio num den => ratio_sql sub base num den st
  | Derived expr => derived_metric_sql sub base expr st
  | _ => Err EmptyQuery
  end.

(** One placeholder of a derived expression. *)
Definition derived_step (sub : string → list string → expanding string) (base : list string)
    (acc : string * Expansion) (seg : string * string)
    : result SemanticError (string * Expansion) :=
  let? '(e, st) := sub (tok_member (to_token seg))
                     (and_filter base (tok_filter (to_token seg))) acc.2 in
  Ok (acc.1 +:+ seg.1 +:+ "(" +:+ e +:+ ")", st).

Lemma derived_sql_scan fuel sub base out rest st segs text :
  String.length rest < fuel → scan (chr "{") rest = (segs, Closed text) →
  derived_sql fuel sub base out rest st =
    let? '(out, st) := try_fold (derived_step sub base) (out, st) segs in
    Ok (out +:+ text, st).
Proof.
  revert out rest st segs. induction fuel as [|fuel IH]; intros out rest st segs Hlt; [lia|].
  rewrite scan_unfold, split_once_str_chr by done. simpl.
  destruct (split_once "{" rest) as [[t after]|] eqn:E1; [|by intros [= <- <-]].
  destruct (split_once "}" after) as [[body rest']|] eqn:E2; [|done].
  destruct (scan (chr "{") rest') as [segs' t'] eqn:E3. intros [= <- ->].
  apply split_once_length in E1, E2. cbn [try_fold].
  assert (derived_step sub base (out, st) (t, body) =
    let '(m, f) := token_body body in
    let? '(e, st) := sub m (and_filter base f) st in Ok (out +:+ t +:+ "(" +:+ e +:+ ")", st)) as ->.
  { unfold derived_step, to_token. simpl. by destruct (token_body body). }
  destruct (token_body body) as [m f]. destruct (sub m (and_filter base f) st) as [[e st1]|];
    simpl; [|done]. apply IH; [lia|done].
Qed.

Lemma derived_tokens_scan expr toks :
  derived_tokens expr = Ok toks →
  ∃ segs text, scan (chr "{") expr = (segs, Closed text) ∧ toks = map to_token segs.
Proof.
  intros (segs & text & -> & _ & Hwf & ->)%derived_tokens_spec.
  exists segs, text. split; [by apply well_formed_scan|done].
Qed.

Lemma derived_metric_fold sub base expr st toks segs text :
  derived_tokens expr = Ok toks → scan (chr "{") expr = (segs, Closed text) →
  derived_metric_sql sub base expr st =
    let? '(out, st) := try_fold (derived_step sub base) ("", st) segs in
    Ok (out +:+ text, st).
Proof.
  intros Ht Hs. unfold derived_metric_sql. rewrite Ht. cbn [map_err rbind].
  apply derived_sql_scan; [lia|done].
Qed.

Lemma derived_refs expr metric toks :
  met_kind metric = Derived expr → derived_tokens expr = Ok toks →
  references metric = Ok (map (λ t, (tok_member t, tok_filter t)) toks).
Proof. intros Hk Ht. unfold references. by rewrite Hk, Ht. Qed.

Lemma try_fold_each {A E S} (f : S → A → result E S) s l out :
  try_fold f s l = Ok out → ∀ x, x ∈ l → ∃ s1 s2, f s1 x = Ok s2.
Proof.
  revert s. induction l as [|y l IH]; intros s; cbn [try_fold]; [by intros _ x ?%elem_of_nil|].
  intros H. apply rbind_ok in H as (s1 & H1 & H2). intros x [->|?]%elem_of_cons; eauto.
Qed.

Lemma try_fold_fails {A E S} (f : S → A → result E S) s l e :
  try_fold f s l = Err e → ∃ x s1, x ∈ l ∧ f s1 x = Err e.
Proof.
  revert s. induction l as [|y l IH]; intros s; cbn [try_fold]; [done|].
  destruct (f s y) as [s1|e'] eqn:Hy; simpl.
  - intros (x & s2 & ? & ?)%IH. exists x, s2. split; [by right|done].
  - intros [= ->]. exists y, s. split; [left|done].
Qed.

Lemma try_fold_ext {A E S} (f g : S → A → result E S) s l :
  (∀ x s, x ∈ l → f s x = g s x) → try_fold f s l = try_fold g s l.
Proof.
  revert s. induction l as [|y l IH]; intros s Hfg; simpl; [done|].
  rewrite (Hfg y s) by left. destruct (g s y); simpl; [|done]. apply IH. intros. apply Hfg. by right.
Qed.

(** A compound metric succeeds only if each of its references does. *)
Lemma compound_ok sub base metric st r :
  compound (met_kind metric) = true →
  compound_sql sub base (met_kind metric) st = Ok r →
  ∃ refs, references metric = Ok refs ∧
    ∀ b f, (b, f) ∈ refs → ∃ st1 r1, sub b (and_filter base f) st1 = Ok r1.
Proof.
  unfold compound_sql. destruct (met_kind metric) as [num den|expr| | |] eqn:Hk; try done; intros _ H.
  - unfold references. rewrite Hk. eexists; split; [done|]. unfold ratio_sql in H.
    apply rbind_ok in H as ([n st1] & H1 & H). apply rbind_ok in H as ([d st2] & H2 & _).
    intros b f [[= -> ->]|[= -> ->]%list_elem_of_singleton]%elem_of_cons; eauto.
  - destruct (derived_tokens expr) as [toks|] eqn:Ht; [|unfold derived_metric_sql in H;
      by rewrite Ht in H].
    destruct (derived_tokens_scan _ _ Ht) as (segs & text & Hs & ->).
    rewrite (derived_metric_fold _ _ _ _ _ _ _ Ht Hs) in H.
    apply rbind_ok in H as ([out st1] & H & _). rewrite (derived_refs _ _ _ Hk Ht).
    eexists; split; [done|]. intros b f (t & Hin & [= -> ->])%elem_of_map.
    apply elem_of_map in Hin as (seg & Hin & ->).
    destruct (try_fold_each _ _ _ _ H seg Hin) as (s1 & s2 & Hstep).
    unfold derived_step in Hstep. apply rbind_ok in Hstep as (p & Hp & _). eauto.
Qed.

(** It fails by itself (ill-formed text) or because a reference does. *)
Lemma compound_err sub base metric st e :
  compound (met_kind metric) = true →
  compound_sql sub base (met_kind metric) st = Err e →
  (∃ msg, references metric = Err msg ∧ e = Compile msg) ∨
  ∃ refs b f st1, references metric = Ok refs ∧ (b, f) ∈ refs ∧
    sub b (and_filter base f) st1 = Err e.
Proof.
  unfold compound_sql. destruct (met_kind metric) as [num den|expr| | |] eqn:Hk; try done; intros _ H.
  - right. unfold references. rewrite Hk. unfold ratio_sql in H.
    destruct (sub (op_member num) _ st) as [[n st1]|e'] eqn:Hn; simpl in H.
    + destruct (sub (op_member den) _ st1) as [[d st2]|e'] eqn:Hd; simpl in H; [done|].
      injection H as ->. do 4 eexists. split_and!; [done| |done]. right. left.
    + injection H as ->. do 4 eexists. split_and!; [done| |done]. left.
  - destruct (derived_tokens expr) as [toks|msg] eqn:Ht.
    + right. destruct (derived_tokens_scan _ _ Ht) as (segs & text & Hs & ->).
      rewrite (derived_metric_fold _ _ _ _ _ _ _ Ht Hs) in H. rewrite (derived_refs _ _ _ Hk Ht).
      destruct (try_fold _ _ _) as [[]|e'] eqn:Hf; simpl in H; [done|]. injection H as ->.
      apply try_fold_fails in Hf as (seg & s1 & Hin & Hstep). unfold derived_step in Hstep.
      destruct (sub _ _ _) as [[]|e'] eqn:Hsub; simpl in Hstep; [done|]. injection Hstep as ->.
      do 4 eexists. split_and!; [done| |exact Hsub]. apply elem_of_map.
      exists (to_token seg). split; [|done]. apply elem_of_map. eauto.
    + left. unfold derived_metric_sql in H. rewrite Ht in H. simpl in H. injection H as <-.
      exists msg. unfold references. by rewrite Hk, Ht.
Qed.

(** Its value depends on its references' only. *)
Lemma compound_ext sub sub' base metric st :
  (∀ refs b f st, references metric = Ok refs → (b, f) ∈ refs →
     sub b (and_filter base f) st = sub' b (and_filter base f) st) →
  compound_sql sub base (met_kind metric) st = compound_sql sub' base (met_kind metric) st.
Proof.
  unfold compound_sql. destruct (met_kind metric) as [num den|expr| | |] eqn:Hk; try done; intros H.
  - unfold references in H. rewrite Hk in H. unfold ratio_sql.
    rewrite (H _ _ _ st eq_refl) by left. destruct (sub' _ _ st) as [[n st1]|]; simpl; [|done].
    rewrite (H _ _ _ st1 eq_refl) by (right; left). done.
  - destruct (derived_tokens expr) as [toks|] eqn:Ht; [|unfold derived_metric_sql; by rewrite Ht].
    destruct (derived_tokens_scan _ _ Ht) as (segs & text & Hs & ->).
    rewrite !(derived_metric_fold _ _ _ _ _ _ _ Ht Hs).
    rewrite (try_fold_ext (derived_step sub base) (derived_step sub' base)); [done|].
    intros seg [o st1] Hin. unfold derived_step. simpl.
    rewrite (H _ _ _ st1 (derived_refs _ _ _ Hk Ht)); [done|]. apply elem_of_map.
    exists (to_token seg). split; [|done]. apply elem_of_map. eauto.
Qed.

(** Distinct known metrics are no more than the catalog's. *)
Lemma known_bound c visited name :
  NoDup visited → (∀ y, y ∈ visited → is_Some (metrics c !! y)) →
  is_Some (metrics c !! name) → name ∉ visited → S (length visited) ≤ size (metrics c).
Proof.
  intros Hnd Hk Hn Hni. rewrite <-size_dom.
  assert (size (list_to_set (visited ++ [name]) : gset string) = S (length visited)) as <-.
  { rewrite size_list_to_set; [rewrite length_app; simpl; lia|].
    apply NoDup_app. split_and!; [done| |apply NoDup_singleton].
    by intros x Hx ->%list_elem_of_singleton. }
  apply subseteq_size. intros x Hx. apply elem_of_list_to_set in Hx.
  apply elem_of_dom. apply elem_of_app in Hx as [?| ->%list_elem_of_singleton]; auto.
Qed.

(** ** Expansion terminates, and rejects exactly the cycles *)

Section expansion.
Context (c : SemanticCatalog) (q : SemanticQuery) (time_dims : list (string * TimeGrain))
        (dims_alias : string).
Abbreviation expr_at := (metric_expr_at c q time_dims dims_alias).

(** The metrics that read a leaf directly. *)
Definition simple_sql (name : string) (base : list string) (k : MetricKind)
    : expanding string := λ st,
  match k with
  | Cumulative measure window agg => cumulative_sql c q time_dims name base measure window agg st
  | Offset measure periods output => offset_sql c q time_dims name base measure periods output st
  | Share measure over agg => share_sql c q dims_alias name base measure over agg st
  | _ => Err EmptyQuery
  end.

Lemma expr_at_eq fuel visiting name inherited st :
  expr_at (S fuel) visiting name inherited st =
    match metrics c !! name with
    | None => Err (UnknownMetric name)
    | Some metric =>
        if bool_decide (name ∈ visiting) then Err (MetricCycle name)
        else if compound (met_kind metric)
        then compound_sql (member_expr_with c (expr_at fuel (visiting ++ [name])))
               (and_filter inherited (met_filter metric)) (met_kind metric) st
        else simple_sql name (and_filter inherited (met_filter metric)) (met_kind metric) st
    end.
Proof.
  simpl. destruct (metrics c !! name) as [metric|]; simpl; [|done].
  case_bool_decide; [done|]. by destruct (met_kind metric).
Qed.

Lemma refers_intro name metric refs b f :
  metrics c !! name = Some metric → compound (met_kind metric) = true →
  references metric = Ok refs → (b, f) ∈ refs → dotted b = false → refers c name b.
Proof. intros. unfold refers. eauto 10. Qed.

Lemma expr_ok_acc fuel visiting name inherited st r :
  expr_at fuel visiting name inherited st = Ok r → Acc (flip (refers c)) name.
Proof.
  revert visiting name inherited st r. induction fuel as [|fuel IH]; intros v name inh st r H.
  { simpl in H. destruct (metrics c !! name); simpl in H; [|done]. by case_bool_decide. }
  rewrite expr_at_eq in H. constructor. intros b (metric & refs & f & Hm & Hk & Hr & Hin & Hd).
  rewrite Hm, Hk in H. case_bool_decide; [done|].
  destruct (compound_ok _ _ _ _ _ Hk H) as (refs' & Hr' & Hall).
  assert (refs' = refs) as -> by congruence.
  destruct (Hall b f Hin) as (st1 & r1 & Hsub). unfold member_expr_with in Hsub.
  rewrite Hd in Hsub. by eapply IH.
Qed.

(** The stack of metrics being expanded leads to the current one. *)
Record stack_ok (visiting : list string) (name : string) : Prop := {
  so_nodup : NoDup visiting;
  so_known : ∀ y, y ∈ visiting → is_Some (metrics c !! y);
  so_leads : ∀ y, y ∈ visiting → tc (refers c) y name
}.

Lemma stack_length visiting name :
  stack_ok visiting name → is_Some (metrics c !! name) → name ∉ visiting →
  S (length visiting) ≤ size (metrics c).
Proof. intros [Hnd Hk _]. by apply known_bound. Qed.

Lemma stack_push visiting name b :
  stack_ok visiting name → is_Some (metrics c !! name) → name ∉ visiting →
  refers c name b → stack_ok (visiting ++ [name]) b.
Proof.
  intros [Hnd Hk Hl] Hn Hni Hr. split.
  - apply NoDup_app. split_and!; [done| |apply NoDup_singleton].
    by intros x Hx ->%list_elem_of_singleton.
  - intros y [?| ->%list_elem_of_singleton]%elem_of_app; auto.
  - intros y [?| ->%list_elem_of_singleton]%elem_of_app; [|by apply tc_once].
    eapply tc_r; [by apply Hl|done].
Qed.

Lemma leaf_no_cycle member filters st x : leaf c member filters st ≠ Err (MetricCycle x).
Proof.
  unfold leaf, new_leaf. destruct (ex_leaf_index st !! _); [done|].
  destruct filters; simpl; [done|].
  destruct (split_once "." member) as [[mn me]|]; simpl; [|done].
  destruct (models c !! mn) as [model|]; simpl; [|done].
  by destruct (find_measure model me).
Qed.

Lemma simple_no_cycle name base k st x : simple_sql name base k st ≠ Err (MetricCycle x).
Proof.
  unfold simple_sql. destruct k as [| |measure w agg|measure p o|measure over agg]; try done.
  - unfold cumulative_sql. pose proof (leaf_no_cycle measure base st x) as Hl.
    destruct (leaf c measure base st) as [[col st1]|e]; simpl; [|congruence].
    unfold window_axis. by destruct time_dims as [|[m g] []].
  - unfold offset_sql. pose proof (leaf_no_cycle measure base st x) as Hl.
    destruct (leaf c measure base st) as [[col st1]|e]; simpl; [|congruence].
    unfold window_axis. by destruct time_dims as [|[m g] []].
  - unfold share_sql. intros H. destruct (try_each _ over) as [[]|e] eqn:He; simpl in H.
    + pose proof (leaf_no_cycle measure base st x) as Hl.
      destruct (leaf c measure base st) as [[col st1]|e]; simpl in H; congruence.
    + injection H as ->. clear -He. induction over as [|d over IH]; simpl in He; [done|].
      case_bool_decide; simpl in He; [auto|done].
Qed.

Lemma expr_cycle fuel visiting name inherited st x :
  stack_ok visiting name → length visiting + fuel = metric_fuel c →
  expr_at fuel visiting name inherited st = Err (MetricCycle x) →
  rtc (refers c) name x ∧ tc (refers c) x x.
Proof.
  revert visiting name inherited st. induction fuel as [|fuel IH]; intros v name inh st Hst Hlen H.
  - simpl in H. destruct (metrics c !! name) eqn:Hm; simpl in H; [|done]. case_bool_decide.
    + injection H as <-. split; [done|]. by apply (so_leads _ _ Hst).
    + pose proof (stack_length v name Hst ltac:(eauto) ltac:(done)). unfold metric_fuel in Hlen. lia.
  - rewrite expr_at_eq in H. destruct (metrics c !! name) as [metric|] eqn:Hm; [|done].
    case_bool_decide as Hv.
    { injection H as <-. split; [done|]. by apply (so_leads _ _ Hst). }
    destruct (compound (met_kind metric)) eqn:Hk; [|by apply simple_no_cycle in H].
    apply compound_err in H as [(msg & _ & ?)|(refs & b & f & st1 & Hr & Hin & Hsub)]; [done| |done].
    unfold member_expr_with in Hsub. destruct (dotted b) eqn:Hd.
    { pose proof (leaf_no_cycle b (and_filter (and_filter inh (met_filter metric)) f) st1 x) as Hl.
      destruct (leaf c b _ st1) as [[]|]; simpl in Hsub; congruence. }
    assert (refers c name b) as Hrb by by eapply refers_intro.
    destruct (IH _ _ _ _ (stack_push _ _ _ Hst ltac:(eauto) Hv Hrb)
                ltac:(rewrite length_app; simpl; lia) Hsub) as [H1 H2].
    split; [by eapply rtc_l|done].
Qed.

Lemma expr_fuel n m visiting name inherited st :
  stack_ok visiting name → metric_fuel c ≤ length visiting + n → n ≤ m →
  expr_at m visiting name inherited st = expr_at n visiting name inherited st.
Proof.
  revert m visiting name inherited st.
  induction n as [|n IH]; intros m v name inh st Hst Hlen Hle.
  - simpl. destruct (metrics c !! name) eqn:Hm; simpl;
      [|by destruct m; simpl; rewrite Hm].
    case_bool_decide as Hv.
    { destruct m; simpl; rewrite Hm; simpl; by rewrite bool_decide_eq_true_2. }
    pose proof (stack_length v name Hst ltac:(eauto) Hv). unfold metric_fuel in Hlen. lia.
  - destruct m as [|m]; [lia|]. rewrite !expr_at_eq.
    destruct (metrics c !! name) as [metric|] eqn:Hm; [|done].
    case_bool_decide as Hv; [done|]. destruct (compound (met_kind metric)) eqn:Hk; [|done].
    apply compound_ext. intros refs b f st1 Hr Hin. unfold member_expr_with.
    destruct (dotted b) eqn:Hd; [done|]. apply IH; [|rewrite length_app; simpl; lia|lia].
    eapply stack_push; eauto using refers_intro.
Qed.

Lemma stack_nil name : stack_ok [] name.
Proof. split; [constructor|by intros ? ?%elem_of_nil..]. Qed.

(** C15: Metric expansion terminates and its cycle check is exact: the nesting bound used
    for it is never reached (more fuel changes nothing); an expansion that succeeds has
    only references from which every chain of inlined metrics ends; and when it reports
    [MetricCycle x], [x] really refers back to itself through a chain of references, and
    is reached from the expanded metric. *)
Theorem metric_expr_cycles name inherited st :
  (∀ n, metric_fuel c ≤ n → expr_at n [] name inherited st
                            = metric_expr c q time_dims dims_alias name inherited st) ∧
  (∀ r, metric_expr c q time_dims dims_alias name inherited st = Ok r →
     Acc (flip (refers c)) name) ∧
  (∀ x, metric_expr c q time_dims dims_alias name inherited st = Err (MetricCycle x) →
     rtc (refers c) name x ∧ tc (refers c) x x).
Proof.
  unfold metric_expr. split_and!.
  - intros n Hn. by apply expr_fuel; [apply stack_nil|lia|].
  - intros r. apply expr_ok_acc.
  - intros x. by apply expr_cycle; [apply stack_nil|].
Qed.
End expansion.

(** ** [compile_sql] needs two levels *)

Lemma augmented_no_metrics c syn : metrics (augmented_catalog c syn) = ∅.
Proof. done. Qed.

(** Without metrics, a query naming one fails before anything is compiled. *)
Lemma expand_no_metrics c q tds da :
  metrics c = ∅ → has_metric q = true → ∃ e, expand_query c q tds da = Err e.
Proof.
  intros Hm. unfold has_metric, expand_query. intros (m & Hin & Hd)%existsb_elem.
  destruct (try_fold _ _ _) as [[ps st]|e] eqn:Hf; [exfalso|eauto].
  destruct (try_fold_each _ _ _ _ Hf m Hin) as ([ps1 st1] & s2 & Hstep).
  unfold project_measure, dotted in Hstep. apply negb_true_iff in Hd. rewrite Hd in Hstep.
  unfold metric_expr, metric_fuel in Hstep. simpl in Hstep. by rewrite Hm, lookup_empty in Hstep.
Qed.

Lemma via_no_metrics f g c q :
  metrics c = ∅ → has_metric q = true →
  compile_with_metrics_via f c q = compile_with_metrics_via g c q.
Proof.
  intros Hm Hq. unfold compile_with_metrics_via.
  by destruct (expand_no_metrics c q (time_dims_of q)
    (if spine_mode c q then AXIS_ALIAS else AGG_ALIAS) Hm Hq) as [e ->].
Qed.

Lemma via_ext f g c q :
  (∀ c' q', metrics c' = ∅ → f c' q' = g c' q') →
  compile_with_metrics_via f c q = compile_with_metrics_via g c q.
Proof.
  intros Hfg. unfold compile_with_metrics_via.
  destruct (expand_query _ _ _ _) as [[ps ex]|]; simpl; [|done]. by rewrite (Hfg (augmented_catalog c (ex_synthetic ex))).
Qed.

Section levels.
Context `{!HashIter string}.

Lemma compile_sql_no_metrics n c q :
  metrics c = ∅ → compile_sql_at (S n) c q = compile_sql_at 1 c q.
Proof.
  intros Hm. simpl. unfold compile_sql_with.
  destruct (expand_segments c q) as [q'|]; simpl; [|done].
  destruct (_ && _); [done|]. destruct (has_metric q') eqn:Hq; [|done].
  by apply via_no_metrics.
Qed.

Lemma compile_sql_levels n c q : compile_sql_at (S (S n)) c q = compile_sql c q.
Proof.
  unfold compile_sql.
  change (compile_sql_at (S (S n)) c q) with
    (compile_sql_with (compile_with_metrics_via (compile_sql_at (S n))) c q).
  change (compile_sql_at 2 c q) with
    (compile_sql_with (compile_with_metrics_via (compile_sql_at 1)) c q).
  unfold compile_sql_with.
  destruct (expand_segments c q) as [q'|]; simpl; [|done].
  destruct (_ && _); [done|]. destruct (has_metric q'); [|done].
  apply via_ext. intros c' q'' Hm. by apply compile_sql_no_metrics.
Qed.

(** [compile_sql] terminates although it calls itself through the metric pass: the
    inner call runs on a catalog without metrics, so two levels of the recursion are
    enough (deeper ones compute the same) and the function satisfies the equation the
    code writes: expand the segments, refuse the empty query, then either the metric
    pass over [compile_sql] itself or the metric-free compiler. *)
Theorem compile_sql_equation c q :
  (∀ n, 2 ≤ n → compile_sql_at n c q = compile_sql c q) ∧
  compile_sql c q =
    let? q := expand_segments c q in
    if bool_decide (q_measures q = []) && bool_decide (q_dimensions q = []) then Err EmptyQuery
    else if has_metric q then compile_with_metrics_via compile_sql c q
    else compile_measures c q.
Proof.
  split.
  - intros [|[|n]] Hn; try lia. apply compile_sql_levels.
  - rewrite <-(compile_sql_levels 1). change (compile_sql_at 3 c q) with
      (compile_sql_with (compile_with_metrics_via compile_sql) c q). done.
Qed.

(** A metric query without window metrics compiles its leaves on the augmented catalog;
    with one, it needs exactly one time-grained dimension. *)
Lemma via_ok_inv f c q sql :
  compile_with_metrics_via f c q = Ok sql →
  (spine_mode c q = true → ∃ d g, time_dims_of q = [(d, g)]) ∧
  ∃ ps ex inner, expand_query c q (time_dims_of q)
      (if spine_mode c q then AXIS_ALIAS else AGG_ALIAS) = Ok (ps, ex) ∧
    f (augmented_catalog c (ex_synthetic ex)) (inner_query q (ex_leaves ex)) = Ok inner.
Proof.
  unfold compile_with_metrics_via. intros H. apply rbind_ok in H as ([ps ex] & He & H).
  apply rbind_ok in H as (inner & Hi & H). apply rbind_ok in H as (s & Hs & _). split.
  - intros Hsp. rewrite Hsp in Hs. apply rbind_ok in Hs as (axis & Ha & _).
    unfold axis_sql in Ha. apply rbind_ok in Ha as (p & Hp & _).
    destruct (time_dims_of q) as [|[d g] []]; try done. eauto.
  - eauto 10.
Qed.
End levels.

(** ** Window metrics are found wherever they are inlined *)

Definition windowed (c : SemanticCatalog) (name : string) : Prop :=
  ∃ metric, metrics c !! name = Some metric ∧
    match met_kind metric with Cumulative _ _ _ | Offset _ _ _ => True | _ => False end.

Section window.
Context (c : SemanticCatalog).

(** [name] has been looked at. *)
Definition covered (visited : list string) (name : string) : Prop :=
  name ∈ visited ∨ metrics c !! name = None.

Record visit_ok (visited : list string) : Prop := {
  vo_nodup : NoDup visited;
  vo_known : ∀ y, y ∈ visited → is_Some (metrics c !! y)
}.

(** What a search that found nothing has visited. *)
Record swept (v v' : list string) : Prop := {
  sw_ok : visit_ok v';
  sw_grows : ∀ x, x ∈ v → x ∈ v';
  sw_length : length v ≤ length v';
  sw_new : ∀ x, x ∈ v' → x ∈ v ∨
    (¬ windowed c x ∧ ∀ y, refers c x y → covered v' y)
}.

Lemma swept_refl v : visit_ok v → swept v v.
Proof. intros Hv. split; auto. Qed.

Lemma swept_trans v1 v2 v3 : swept v1 v2 → swept v2 v3 → swept v1 v3.
Proof.
  intros [_ Hg1 Hl1 Hn1] [Hok Hg2 Hl2 Hn2]. split; [done|by auto|lia|].
  intros x Hx. destruct (Hn2 x Hx) as [Hx2|?]; [|by right].
  destruct (Hn1 x Hx2) as [?|[? Hy]]; [by left|right]. split; [done|].
  intros y [?|?]%Hy; [left; by apply Hg2|by right].
Qed.

Lemma any_window_spec (has : string → list string → bool * list string) members v b v' :
  visit_ok v →
  (∀ m w b w', m ∈ members → dotted m = false → visit_ok w → length v ≤ length w →
     has m w = (b, w') →
     if b then ∃ x, rtc (refers c) m x ∧ windowed c x else swept w w' ∧ covered w' m) →
  any_window has members v = (b, v') →
  if b then ∃ m x, m ∈ members ∧ dotted m = false ∧ rtc (refers c) m x ∧ windowed c x
  else swept v v' ∧ ∀ m, m ∈ members → dotted m = false → covered v' m.
Proof.
  revert v. induction members as [|m members IH]; intros v Hv Hhas; simpl.
  { intros [= <- <-]. split; [by apply swept_refl|]. by intros m ?%elem_of_nil. }
  destruct (dotted m) eqn:Hd.
  - intros H. apply IH in H; [|done|intros; eapply Hhas; eauto; by right]. destruct b.
    + destruct H as (m' & x & ? & ?). exists m', x. split; [by right|done].
    + destruct H as [? Hc]. split; [done|]. intros m' [->|?]%elem_of_cons ?; [congruence|auto].
  - destruct (has m v) as [b1 v1] eqn:Hm.
    assert (if b1 then ∃ x, rtc (refers c) m x ∧ windowed c x else swept v v1 ∧ covered v1 m)
      as H1 by (eapply Hhas; eauto; by left). destruct b1.
    + intros [= <- <-]. destruct H1 as (x & ? & ?). exists m, x. split; [left|done].
    + destruct H1 as [Hs Hc]. intros H.
      apply IH in H; [|by apply (sw_ok _ _ Hs)|].
      2:{ intros m' w b2 w' ? ? ? Hw. apply Hhas; [by right|done|done|].
          pose proof (sw_length _ _ Hs). lia. }
      destruct b.
      * destruct H as (m' & x & ? & ?). exists m', x. split; [by right|done].
      * destruct H as [Hs2 Hc2]. split; [by eapply swept_trans|].
        intros m' [->|?]%elem_of_cons ?; [|by auto]. destruct Hc as [?|?]; [left|by right].
        by apply (sw_grows _ _ Hs2).
Qed.

Lemma visit_push v name :
  visit_ok v → is_Some (metrics c !! name) → name ∉ v → visit_ok (v ++ [name]).
Proof.
  intros [Hnd Hk] Hn Hni. split.
  - apply NoDup_app. split_and!; [done| |apply NoDup_singleton].
    by intros x Hx ->%list_elem_of_singleton.
  - intros y [?| ->%list_elem_of_singleton]%elem_of_app; auto.
Qed.

Lemma swept_push v v' name :
  swept (v ++ [name]) v' → ¬ windowed c name → (∀ y, refers c name y → covered v' y) →
  swept v v' ∧ covered v' name.
Proof.
  intros [Hok Hg Hl Hn] Hw Hr. rewrite length_app in Hl. simpl in Hl.
  split; [split|left; apply Hg, elem_of_app; right; left]; [done| |lia|].
  - intros x Hx. apply Hg, elem_of_app. by left.
  - intros x Hx. destruct (Hn x Hx) as [[?| ->%list_elem_of_singleton]%elem_of_app|?]; auto.
Qed.

Lemma has_window_spec fuel name v b v' :
  visit_ok v → metric_fuel c ≤ length v + fuel → has_window_at fuel c name v = (b, v') →
  if b then ∃ x, rtc (refers c) name x ∧ windowed c x else swept v v' ∧ covered v' name.
Proof.
  revert name v b v'. induction fuel as [|fuel IH]; intros name v b v' Hv Hf; simpl.
  { intros [= <- <-]. split; [by apply swept_refl|].
    destruct (decide (name ∈ v)) as [?|Hni]; [by left|right].
    destruct (metrics c !! name) eqn:Hm; [|done].
    pose proof (known_bound c v name (vo_nodup _ Hv) (vo_known _ Hv) ltac:(eauto) Hni).
    unfold metric_fuel in Hf. lia. }
  destruct (metrics c !! name) as [metric|] eqn:Hm.
  2:{ intros [= <- <-]. split; [by apply swept_refl|by right]. }
  case_bool_decide as Hin.
  { intros [= <- <-]. split; [by apply swept_refl|by left]. }
  assert (visit_ok (v ++ [name])) as Hv1 by (apply visit_push; eauto).
  assert (compound (met_kind metric) = false → ∀ y, ¬ refers c name y) as Hnr.
  { intros Hk y (m & refs & f & Hm' & Hk' & _). congruence. }
  assert (∀ b v', any_window (has_window_at fuel c)
      (map fst (default [] (to_option (references metric)))) (v ++ [name]) = (b, v') →
    compound (met_kind metric) = true → ¬ windowed c name →
    if b then ∃ x, rtc (refers c) name x ∧ windowed c x else swept v v' ∧ covered v' name)
    as Hany.
  { clear b v'. intros b v' H Hk Hw.
    assert (∀ m, dotted m = false →
      m ∈ map fst (default [] (to_option (references metric))) ↔ refers c name m) as Hrefs.
    { intros m Hd. split.
      - intros ([m' f] & Hin' & ->)%elem_of_map. destruct (references metric) as [refs|] eqn:Hr;
          simpl in Hin'; [|by apply elem_of_nil in Hin']. by eapply refers_intro.
      - intros (metric' & refs & f & Hm' & _ & Hr & Hin' & _).
        assert (metric' = metric) as -> by congruence. rewrite Hr. simpl.
        apply elem_of_map. by exists (m, f). }
    apply any_window_spec in H; [|done|].
    2:{ intros m w b1 w' Hm1 Hd Hw1 Hlen Hhas. eapply IH; [done| |done].
        rewrite length_app in Hlen. simpl in Hlen. lia. }
    destruct b.
    - destruct H as (m & x & Hm1 & Hd & Hx & Hwx). exists x. split; [|done].
      eapply rtc_l; [by apply Hrefs|done].
    - destruct H as [Hs Hc]. apply swept_push; [done..|].
      intros y Hy. assert (dotted y = false) by (by destruct Hy as (? & ? & ? & _ & _ & _ & _ & ?)).
      apply Hc; [by apply Hrefs|done]. }
  destruct (met_kind metric) as [num den|expr|me wi ag|me pe ou|me ov ag] eqn:Hk.
  1,2: intros H; apply Hany; [done..|]; intros (m & Hm' & Hw); rewrite Hm in Hm';
    injection Hm' as <-; by rewrite Hk in Hw.
  1,2: intros [= <- <-]; exists name; split; [done|]; exists metric; by rewrite Hk.
  intros [= <- <-]. apply swept_push; [by apply swept_refl| |].
  - intros (m & Hm' & Hw). rewrite Hm in Hm'. injection Hm' as <-. by rewrite Hk in Hw.
  - intros y Hy. by destruct (Hnr eq_refl y).
Qed.

(** [has_window] decides whether a metric is, or inlines through any chain of ratio
    and derived metrics, a cumulative or offset metric - also over cyclic references,
    where the visited list cuts the search short. *)
Theorem has_window_reaches name :
  has_window c name = true ↔ ∃ x, rtc (refers c) name x ∧ windowed c x.
Proof.
  unfold has_window. destruct (has_window_at _ c name []) as [b v'] eqn:Hh.
  assert (visit_ok []) as Hv by (split; [constructor|by intros ? ?%elem_of_nil]).
  apply has_window_spec in Hh; [|done|simpl; lia]. simpl. destruct b; [done|].
  split; [done|]. intros (x & Hx & w & Hw & Hk). exfalso. destruct Hh as [[_ _ _ Hn] Hc].
  assert (covered v' x) as Hcx.
  { clear Hw Hk. induction Hx as [|a b x Hab _ IH]; [done|]. apply IH.
    destruct Hc as [Ha|Ha].
    - destruct (Hn a Ha) as [?%elem_of_nil|[_ ?]]; [done|auto].
    - destruct Hab as (m & _ & _ & Hm & _). congruence. }
  destruct Hcx as [Hin|?]; [|congruence].
  destruct (Hn x Hin) as [?%elem_of_nil|[Hnw _]]; [done|]. apply Hnw. by exists w.
Qed.
End window.

(** ** Without window metrics the time axis is not read *)

Lemma windowless_expr c q td td' da fuel v name inh st :
  (∀ x, rtc (refers c) name x → ¬ windowed c x) →
  metric_expr_at c q td da fuel v name inh st = metric_expr_at c q td' da fuel v name inh st.
Proof.
  revert v name inh st. induction fuel as [|fuel IH]; intros v name inh st Hw; [done|].
  rewrite !expr_at_eq. destruct (metrics c !! name) as [metric|] eqn:Hm; [|done].
  case_bool_decide; [done|]. destruct (compound (met_kind metric)) eqn:Hk.
  - apply compound_ext. intros refs b f st1 Hr Hin. unfold member_expr_with.
    destruct (dotted b) eqn:Hd; [done|]. apply IH. intros x Hx. apply Hw.
    eapply rtc_l; [by eapply refers_intro|done].
  - assert (¬ windowed c name) as Hn by by apply Hw.
    unfold simple_sql. destruct (met_kind metric) eqn:E; try done;
      destruct Hn; exists metric; by rewrite E.
Qed.

Lemma spine_mode_false c q :
  spine_mode c q = false →
  ∀ m x, m ∈ q_measures q → dotted m = false → rtc (refers c) m x → ¬ windowed c x.
Proof.
  unfold spine_mode. intros H m x Hm Hd Hx Hw.
  assert (existsb (has_window c) (List.filter (λ m, negb (dotted m)) (q_measures q)) = true);
    [|congruence].
  apply existsb_elem. exists m. split; [|apply has_window_reaches; eauto].
  by rewrite list_elem_of_In, filter_In, <-list_elem_of_In, Hd.
Qed.

(** The two expansions of a query without window metrics - for the choice of a rollup and
    for its SQL - ask for the same leaves. *)
Lemma expand_windowless c q td td' da ps ps' st :
  spine_mode c q = false →
  match try_fold (project_measure c q td da) (ps, st) (q_measures q),
        try_fold (project_measure c q td' da) (ps', st) (q_measures q) with
  | Ok a, Ok b => a.2 = b.2
  | Err e, Err e' => e = e'
  | _, _ => False
  end.
Proof.
  intros Hs. pose proof (spine_mode_false c q Hs) as Hw. clear Hs.
  revert ps ps' st. induction (q_measures q) as [|m l IH]; intros ps ps' st; [done|].
  assert (∀ m' x, m' ∈ l → dotted m' = false → rtc (refers c) m' x → ¬ windowed c x) as Hl.
  { intros m' x Hm. apply Hw. by right. }
  cbn [try_fold].
  assert (∀ td ps, project_measure c q td da (ps, st) m =
            if dotted m
            then let? '(_, st) := leaf c m [] st in
                 Ok (ps ++ [select_as (AGG_ALIAS +:+ "." +:+ quote_ident m) m], st)
            else let? '(e, st) := metric_expr c q td da m [] st in
                 Ok (ps ++ [select_as e m], st)) as Hstep by done.
  rewrite !Hstep. destruct (dotted m) eqn:Hd.
  - destruct (leaf c m [] st) as [[col st1]|e]; [|done]. cbn [rbind]. apply (IH Hl).
  - unfold metric_expr. rewrite (windowless_expr c q td td').
    2:{ intros x. apply Hw; [by left|done]. }
    destruct (metric_expr_at _ _ _ _ _ _ _ _ _) as [[e st1]|e]; [|done]. cbn [rbind]. apply (IH Hl).
Qed.
