(* ===== verification/RollupProps.v ===== *)
(** * Soundness of the rollup rewrite
    A candidate rollup stores the columns it is read for, and re-aggregating its partials
    computes the aggregate: the aggregates [is_rollup_safe] admits are exactly those for
    which this holds. *)

From Stdlib Require Import QArith.Qcanon.
From S2P Require Export MetricProps.

Open Scope nat_scope.

(** ** SQL aggregates
    The value of an aggregate over a column with [NULL]s; [None] is [NULL]. *)

Abbreviation column := (list (option Qc)).

Definition non_null (l : column) : list Qc := omap id l.
Definition qc_min (x y : Qc) : Qc := if Qclt_le_dec x y then x else y.
Definition qc_max (x y : Qc) : Qc := if Qclt_le_dec x y then y else x.

(** Folds a non-empty list; an empty one is [NULL]. *)
Definition fold_null (f : Qc → Qc → Qc) (l : list Qc) : option Qc :=
  match l with
  | [] => None
  | x :: l => Some (foldr f x l)
  end.

Definition count (l : list Qc) : Qc := Q2Qc (QArith_base.inject_Z (Z.of_nat (length l))).

Fixpoint distinct (l : list Qc) : list Qc :=
  match l with
  | [] => []
  | x :: l => if existsb (Qc_eq_bool x) l then distinct l else x :: distinct l
  end.

Definition eval_agg (custom : string → column → option Qc) (agg : MeasureAgg) (l : column)
    : option Qc :=
  match agg with
  | AggSum => fold_null Qcplus (non_null l)
  | AggCount => Some (count (non_null l))
  | AggCountDistinct => Some (count (distinct (non_null l)))
  | AggAvg => (λ s, Qcdiv s (count (non_null l))) <$> fold_null Qcplus (non_null l)
  | AggMin => fold_null qc_min (non_null l)
  | AggMax => fold_null qc_max (non_null l)
  | AggCustom sql => custom sql l
  end.

(** The aggregate [combine_sql] re-aggregates with. *)
Definition combine_agg (agg : MeasureAgg) : MeasureAgg :=
  match agg with
  | AggMin => AggMin
  | AggMax => AggMax
  | _ => AggSum
  end.

Lemma combine_sql_agg agg alias col name :
  combine_sql agg (rollup_col alias col)
  = agg_sql (plain_measure name (combine_agg agg) (rollup_col alias col)) None.
Proof. by destruct agg. Qed.

(** ** Re-aggregation *)

Section fold_null.
Context (f : Qc → Qc → Qc) (f_assoc : ∀ x y z, f x (f y z) = f (f x y) z)
        (f_comm : ∀ x y, f x y = f y x).

Definition merge (a b : option Qc) : option Qc :=
  match a, b with
  | Some x, Some y => Some (f x y)
  | Some x, None => Some x
  | None, b => b
  end.

Lemma fold_null_cons x l : fold_null f (x :: l) = merge (Some x) (fold_null f l).
Proof using f_assoc f_comm.
  simpl. destruct l as [|y l]; simpl; [done|]. f_equal.
  assert (∀ a b c, f a (f b c) = f b (f a c)) as f_left_comm.
  { intros a b c. by rewrite !f_assoc, (f_comm a). }
  induction l as [|z l IH]; simpl; [apply f_comm|].
  by rewrite f_left_comm, IH, f_left_comm.
Qed.

Lemma merge_assoc a b c : merge a (merge b c) = merge (merge a b) c.
Proof using f_assoc. destruct a, b, c; simpl; by rewrite ?f_assoc. Qed.

Lemma fold_null_app l1 l2 : fold_null f (l1 ++ l2) = merge (fold_null f l1) (fold_null f l2).
Proof using f_assoc f_comm.
  induction l1 as [|x l1 IH]; [done|]. rewrite <-app_comm_cons, !fold_null_cons, IH.
  apply merge_assoc.
Qed.

(** Folding the folds of the groups folds everything. *)
Lemma fold_null_groups (groups : list column) :
  fold_null f (non_null (concat groups))
  = fold_null f (non_null (map (λ g, fold_null f (non_null g)) groups)).
Proof using f_assoc f_comm.
  induction groups as [|g groups IH]; [done|]. simpl concat. unfold non_null in *.
  rewrite omap_app, fold_null_app, IH. simpl.
  destruct (fold_null f (omap id g)) as [x|] eqn:Hg; simpl; [|done].
  symmetry. apply (fold_null_cons x).
Qed.
End fold_null.

(** [qc_min] is the greatest lower bound, [qc_max] the least upper bound. *)
Lemma qc_min_glb z x y : (z <= qc_min x y)%Qc ↔ (z <= x)%Qc ∧ (z <= y)%Qc.
Proof.
  unfold qc_min. destruct (Qclt_le_dec x y) as [H|H]; split; try tauto; intros Hz;
    split; try done; eapply Qcle_trans; eauto using Qclt_le_weak.
Qed.
Lemma qc_max_lub z x y : (qc_max x y <= z)%Qc ↔ (x <= z)%Qc ∧ (y <= z)%Qc.
Proof.
  unfold qc_max. destruct (Qclt_le_dec x y) as [H|H]; split; try tauto; intros Hz;
    split; try done; eapply Qcle_trans; eauto using Qclt_le_weak.
Qed.

Lemma below_eq x y : (∀ z, (z <= x)%Qc ↔ (z <= y)%Qc) → x = y.
Proof. intros H. apply Qcle_antisym; apply H, Qcle_refl. Qed.
Lemma above_eq x y : (∀ z, (x <= z)%Qc ↔ (y <= z)%Qc) → x = y.
Proof. intros H. apply Qcle_antisym; apply H, Qcle_refl. Qed.

Lemma qc_min_assoc x y z : qc_min x (qc_min y z) = qc_min (qc_min x y) z.
Proof. apply below_eq. intros t. rewrite !qc_min_glb. tauto. Qed.
Lemma qc_min_comm x y : qc_min x y = qc_min y x.
Proof. apply below_eq. intros t. rewrite !qc_min_glb. tauto. Qed.
Lemma qc_max_assoc x y z : qc_max x (qc_max y z) = qc_max (qc_max x y) z.
Proof. apply above_eq. intros t. rewrite !qc_max_lub. tauto. Qed.
Lemma qc_max_comm x y : qc_max x y = qc_max y x.
Proof. apply above_eq. intros t. rewrite !qc_max_lub. tauto. Qed.

Lemma count_app l1 l2 : count (l1 ++ l2) = (count l1 + count l2)%Qc.
Proof.
  unfold count. rewrite length_app, Nat2Z.inj_add. apply Qc_is_canon. simpl.
  rewrite !Qreduction.Qred_correct, QArith_base.inject_Z_plus. reflexivity.
Qed.

(** Summing the group counts counts everything, given a group. *)
Lemma count_groups (groups : list column) :
  groups ≠ [] →
  Some (count (non_null (concat groups)))
  = fold_null Qcplus (non_null (map (λ g, Some (count (non_null g))) groups)).
Proof.
  destruct groups as [|g groups]; [done|]. intros _. simpl. f_equal.
  unfold non_null. rewrite omap_app, count_app.
  revert g. induction groups as [|h groups IH]; intros g; simpl.
  - unfold count at 2. simpl. apply Qcplus_0_r.
  - rewrite omap_app, count_app.
    transitivity (count (omap id h) + (count (omap id g) + count (omap id (concat groups))))%Qc.
    + rewrite !Qcplus_assoc. f_equal. apply Qcplus_comm.
    + f_equal. apply (IH g).
Qed.

(** Columns that the refused aggregates cannot be re-aggregated over. *)
Definition one_q : Qc := 1%Qc.
Definition uneven : list column := [[Some 0%Qc; Some 0%Qc]; [Some 1%Qc]].
Definition repeated : list column := [[Some 1%Qc]; [Some 1%Qc]].
Definition counterexample (agg : MeasureAgg) : list column :=
  match agg with AggAvg => uneven | _ => repeated end.

(** [is_rollup_safe] admits exactly the built-in aggregates that can be re-aggregated:
    for [SUM], [COUNT], [MIN] and [MAX], applying [combine_sql]'s aggregate to the partials
    of any non-empty family of row groups (with [NULL]s) gives the aggregate of all the
    rows; for [AVG] and [COUNT(DISTINCT)] it does not. *)
Theorem is_rollup_safe_reaggregates custom agg :
  (∀ sql, agg ≠ AggCustom sql) →
  is_rollup_safe agg = true ↔
  ∀ groups, groups ≠ [] →
    eval_agg custom agg (concat groups)
    = eval_agg custom (combine_agg agg) (map (eval_agg custom agg) groups).
Proof.
  intros Hc. split.
  - intros Hs groups Hg. destruct agg; try discriminate Hs; simpl.
    + apply fold_null_groups; [apply Qcplus_assoc|apply Qcplus_comm].
    + by apply count_groups.
    + apply fold_null_groups; [apply qc_min_assoc|apply qc_min_comm].
    + apply fold_null_groups; [apply qc_max_assoc|apply qc_max_comm].
  - intros H. destruct agg; try done.
    + specialize (H repeated ltac:(done)). apply (f_equal (λ o, (λ q, QArith_base.Qnum (this q)) <$> o)) in H.
      vm_compute in H. discriminate.
    + specialize (H uneven ltac:(done)). apply (f_equal (λ o, (λ q, QArith_base.Qden (this q)) <$> o)) in H.
      vm_compute in H. discriminate.
    + by destruct (Hc sql).
Qed.

Lemma is_rollup_safe_reaggregates_witness :
  eval_agg (λ _ _, None) AggCount (concat repeated)
  = eval_agg (λ _ _, None) AggSum (map (eval_agg (λ _ _, None) AggCount) repeated).
Proof.
  apply (is_rollup_safe_reaggregates (λ _ _, None) AggCount);
    [intros sql; discriminate|reflexivity|discriminate].
Defined.

(** ** What a candidate rollup holds *)

(** The name a pre-aggregation stores a dimension under, and the one a query reads. *)
Lemma stored_name d : mb_name (parse_bare_dim d) = default d (head (split "." d)).
Proof.
  unfold parse_bare_dim. rewrite split_unfold. by destruct (split_once "." d) as [[l r]|].
Qed.

Lemma read_name m x dim l : split "." m = x :: dim :: l → mb_name (parse_query_dim m) = dim.
Proof.
  intros H. pose proof (split_once_of_split _ _ _ _ H ltac:(done)) as Ho.
  unfold parse_query_dim. rewrite Ho.
  assert (split "." (join (chr ".") (dim :: l)) = dim :: l) as Hs.
  { rewrite split_unfold, Ho in H. by injection H. }
  rewrite stored_name, Hs. done.
Qed.

Lemma measure_member_last m name :
  measure_member_name m = Some name → measure_name m = name.
Proof.
  unfold measure_member_name, measure_name. destruct (split "." m) as [|x [|y [|z l]]]; try done.
  by intros [= ->].
Qed.

(** A SQL read of one stored column, possibly re-truncated. *)
Definition reads_column (alias col expr : string) : Prop :=
  expr = rollup_col alias col ∨
  ∃ g, expr = "DATE_TRUNC('" +:+ TimeGrain_as_str g +:+ "', " +:+ rollup_col alias col +:+ ")".

Lemma rollup_dim_expr_reads m alias expr :
  rollup_dim_expr m alias = Ok expr → reads_column alias (mb_name (parse_query_dim m)) expr.
Proof.
  unfold rollup_dim_expr, reads_column.
  destruct (split "." m) as [|x [|y [|z [|]]]] eqn:Hs; simpl; try done.
  - intros [= <-]. rewrite (read_name _ _ _ _ Hs). by left.
  - intros H. inv_ok. rewrite (read_name _ _ _ _ Hs). right. eauto.
Qed.

Lemma covering_dim pre q m expr alias :
  covering pre q → m ∈ q_dimensions q → rollup_dim_expr m alias = Ok expr →
  ∃ d, d ∈ pre_dimensions pre ∧ reads_column alias (default d (head (split "." d))) expr.
Proof.
  intros [Hd _ _] Hm He. destruct (Hd m Hm) as (d & Hin & Hn & _). exists d. split; [done|].
  rewrite <-stored_name, Hn. by apply rollup_dim_expr_reads.
Qed.

(** The query whose coverage is checked: the query itself, or the leaves of its metrics. *)
Definition served_query (c : SemanticCatalog) (q leaves : SemanticQuery) : Prop :=
  if has_metric q then
    (∀ m x, m ∈ q_measures q → dotted m = false → rtc (refers c) m x → ¬ windowed c x) ∧
    ∃ projections ex, expand_query c q (time_dims_of q) AGG_ALIAS = Ok (projections, ex) ∧
      ex_synthetic ex = ∅ ∧ leaves = inner_query q (ex_leaves ex)
  else leaves = q.

(** What the remaining conditions of [candidate_rollup] say of that query. *)
Definition servable (c : SemanticCatalog) (q : SemanticQuery) (r : RollupMatch)
    (model : SemanticModel) (pre : PreAggregation) : Prop :=
  measure_roots c q = Ok [rm_model r] ∧ models c !! rm_model r = Some model ∧
  q_time_zone q = None ∧ required_of c (rm_model r) = [] ∧
  (∃ refs, referenced_models c q = Ok refs ∧ ∀ m, m ∈ refs → m = rm_model r) ∧
  match_rollup model q = Some pre ∧ pre_name pre = rm_preagg r ∧
  (∀ m, m ∈ q_measures q → ∃ name mea, measure_member_name m = Some name ∧
     find_measure model name = Some mea ∧ is_rollup_safe (mea_agg mea) = true).

Lemma rollup_leaf_served c q leaves :
  has_metric q = true → rollup_leaf_query c q = Some leaves → served_query c q leaves.
Proof.
  intros Hm. unfold rollup_leaf_query, served_query. rewrite Hm.
  destruct (spine_mode c q) eqn:Hs; [done|]. intros H. split; [by apply spine_mode_false|].
  pose proof (expand_windowless c q [] (time_dims_of q) AGG_ALIAS []
    (map (λ d, select_as (AGG_ALIAS +:+ "." +:+ quote_ident d) d) (q_dimensions q))
    Expansion_new Hs) as Hex. unfold expand_query.
  destruct (try_fold (project_measure c q [] AGG_ALIAS) _ _) as [[ps ex]|]; [|done].
  destruct (try_fold (project_measure c q (time_dims_of q) AGG_ALIAS) _ _) as [[ps' ex']|]; [|done].
  simpl in *. subst ex'. case_bool_decide; [|done]. injection H as <-. eauto.
Qed.

Lemma candidate_rollup_inv c q r :
  candidate_rollup c q = Some r →
  ∃ q1 q2 model pre, expand_segments c q = Ok q1 ∧ served_query c q1 q2 ∧
    servable c q2 r model pre.
Proof.
  unfold candidate_rollup. destruct (expand_segments c q) as [q1|]; [|done]. simpl.
  destruct (if has_metric q1 then _ else _) as [q2|] eqn:Hq; [|done]. simpl. intros H.
  exists q1, q2.
  enough (∃ model pre, servable c q2 r model pre) as (model & pre & Hs).
  { exists model, pre. split_and!; [done| |done]. destruct (has_metric q1) eqn:Hm.
    - by apply rollup_leaf_served.
    - unfold served_query. rewrite Hm. by injection Hq. }
  clear Hq. destruct (q_time_zone q2) eqn:Htz; [done|]. simpl in H.
  destruct (measure_roots c q2) as [[|root [|]]|] eqn:Hroots; try done. simpl in H.
  destruct (models c !! root) as [model|] eqn:Hm; [|done]. simpl in H.
  destruct (referenced_models c q2) as [refs|] eqn:Hr; [|done]. simpl in H.
  destruct (existsb _ refs) eqn:Hex; [done|].
  destruct (match sm_safety model with Some s => _ | None => _ end) eqn:Hs; [done|].
  destruct (forallb _ _) eqn:Hf; [|done].
  destruct (match_rollup model q2) as [pre|] eqn:Hp; [|done]. injection H as <-.
  exists model, pre. unfold servable. simpl. split_and!; try done.
  - unfold required_of, model_safety. rewrite Hm. simpl.
    destruct (sm_safety model) as [s|]; [|done].
    by apply negb_false_iff, bool_decide_eq_true in Hs.
  - exists refs. split; [done|]. intros m Hin. destruct (decide (m = root)) as [|Hne]; [done|].
    assert (existsb (λ m, negb (bool_decide (m = root))) refs = true); [|congruence].
    apply existsb_elem. exists m. split; [done|]. by rewrite bool_decide_eq_false_2.
  - intros m Hin. rewrite forallb_elem in Hf. specialize (Hf m Hin).
    destruct (measure_member_name m) as [name|]; [|done]. simpl in Hf.
    destruct (find_measure model name) as [mea|] eqn:Hmea; [|done]. by exists name, mea.
Qed.

(** The rewrite reads the rollup with the query whose coverage was checked. *)
Lemma compile_rollup_served c q q1 q2 r :
  expand_segments c q = Ok q1 → served_query c q1 q2 →
  compile_rollup_sql c q r =
    if has_metric q1 then compile_with_metrics_via (λ _ _, rollup_measure_sql c q2 r) c q1
    else rollup_measure_sql c q2 r.
Proof.
  intros Hq. unfold compile_rollup_sql, served_query. rewrite Hq. cbn [rbind].
  destruct (has_metric q1) eqn:Hm; [|by intros ->]. intros (Hw & ps & ex & Hex & _ & ->).
  unfold compile_with_metrics_via. destruct (spine_mode c q1) eqn:Hs; [|by rewrite Hex].
  apply existsb_elem in Hs as (m & Hin & Hx).
  rewrite list_elem_of_In, filter_In, <-list_elem_of_In, negb_true_iff in Hin.
  apply has_window_reaches in Hx as (x & Hr & Hwx). destruct Hin as [Hin Hd].
  by destruct (Hw m x Hin Hd Hr).
Qed.

Lemma match_rollup_covering model q pre :
  match_rollup model q = Some pre → pre ∈ sm_pre_aggregations model ∧ covering pre q.
Proof.
  unfold match_rollup. intros (k1 & k2 & Heq & _)%min_by_key_spec.
  assert (In pre (List.filter (λ pre, covers pre q) (sm_pre_aggregations model))) as Hin
    by (rewrite Heq; apply in_elt).
  apply filter_In in Hin as [Hin Hc]. split; [by apply list_elem_of_In|by apply covers_spec].
Qed.

Lemma covering_filter pre q f expr alias :
  covering pre q → f ∈ q_filters q → rollup_dim_expr (sf_member f) alias = Ok expr →
  ∃ d, d ∈ pre_dimensions pre ∧ reads_column alias (default d (head (split "." d))) expr.
Proof.
  intros [_ Hf _] Hin He. destruct (Hf f Hin) as (d & Hd & Hn). exists d. split; [done|].
  rewrite <-stored_name, Hn. by apply rollup_dim_expr_reads.
Qed.

(** C16: What [candidate_rollup] has established of the rollup it chooses, for plain queries
    and for metric queries: after the segments are expanded, the query - or, if it has metrics,
    the query of their leaves, none of which is a window metric or a filtered measure - has one
    measure root, to whose model every member belongs; no required predicate is bypassed and
    no time zone is pending; a declared pre-aggregation covers it. The SQL of the rewrite reads
    the rollup with that very query, in which each dimension and each dimension a filter names
    is a column the materialization stores and each measure is stored under its own name with
    a re-aggregatable aggregate. The grain of a filter is not checked
    ([filter_grain_unchecked]). *)
Theorem candidate_rollup_served c q r :
  candidate_rollup c q = Some r →
  ∃ q1 leaves model pre, expand_segments c q = Ok q1 ∧ served_query c q1 leaves ∧
    compile_rollup_sql c q r =
      (if has_metric q1 then compile_with_metrics_via (λ _ _, rollup_measure_sql c leaves r) c q1
       else rollup_measure_sql c leaves r) ∧
    models c !! rm_model r = Some model ∧ pre ∈ sm_pre_aggregations model ∧
    pre_name pre = rm_preagg r ∧ covering pre leaves ∧
    measure_roots c leaves = Ok [rm_model r] ∧ q_time_zone leaves = None ∧
    required_of c (rm_model r) = [] ∧
    (∀ m, m ∈ query_members leaves → member_model m = Ok (rm_model r)) ∧
    (∀ m expr, m ∈ q_dimensions leaves ∨ m ∈ (sf_member <$> q_filters leaves) →
       rollup_dim_expr m (rm_model r) = Ok expr →
       ∃ d, d ∈ pre_dimensions pre ∧
         reads_column (rm_model r) (default d (head (split "." d))) expr) ∧
    (∀ m, m ∈ q_measures leaves → ∃ name mea, measure_member_name m = Some name ∧
       name ∈ pre_measures pre ∧ find_measure model name = Some mea ∧
       is_rollup_safe (mea_agg mea) = true ∧
       rollup_measure_expr model (rm_model r) m
         = Ok (combine_sql (mea_agg mea) (rollup_col (rm_model r) name))).
Proof.
  intros Hc. apply candidate_rollup_inv in Hc as (q1 & leaves & model & pre & Hq1 & Hserved & Hs).
  destruct Hs as (Hroots & Hm & Htz & Hreq & (refs & Hrefs & Hone) & Hp & Hn & Hmeas).
  apply match_rollup_covering in Hp as [Hpre Hcov].
  exists q1, leaves, model, pre. split_and!; try done.
  - by apply compile_rollup_served.
  - intros m Hin. destruct (referenced_models_ok _ _ _ Hrefs) as [Href Hall].
    destruct (Hall m Hin) as [y Hy]. assert (y = rm_model r) as -> by (apply Hone, Href; eauto).
    by apply known_model_ok in Hy as [].
  - intros m expr [Hin|(f & -> & Hin)%list_elem_of_fmap] He;
      [by eapply covering_dim|by eapply covering_filter].
  - intros m Hin. destruct (Hmeas m Hin) as (name & mea & Hname & Hf & Hs).
    exists name, mea. split_and!; try done.
    + rewrite <-(measure_member_last _ _ Hname). by apply (cov_measures _ _ Hcov).
    + unfold rollup_measure_expr. rewrite Hname. simpl. by rewrite Hf.
Qed.

(** The average order, asked for per quarter. *)
Definition average_order : Metric :=
  {| met_name := "average_order"; met_description := None; met_filter := None; met_format := None;
     met_kind := Ratio {| op_member := "orders.revenue"; op_filter := None |}
                       {| op_member := "orders.count"; op_filter := None |} |}.

Definition shop_metrics : SemanticCatalog :=
  {| models := models shop; metrics := {["average_order" := average_order]};
     time_spine := None |}.

Definition quarterly : SemanticQuery :=
  select_query ["average_order"] ["orders.order_date.quarter"] [].

Lemma candidate_rollup_served_witness :
  ∃ leaves model pre, served_query shop_metrics quarterly leaves ∧
    models shop_metrics !! "orders" = Some model ∧ pre ∈ sm_pre_aggregations model ∧
    covering pre leaves.
Proof.
  destruct (candidate_rollup_served shop_metrics quarterly
              {| rm_model := "orders"; rm_preagg := "monthly" |})
    as (q1 & leaves & model & pre & Hq & Hs & _ & H1 & H2 & _ & H3 & _);
    [vm_compute; reflexivity|].
  injection Hq as <-. exists leaves, model, pre. exact (conj Hs (conj H1 (conj H2 H3))).
Defined.

(** The coverage test ignores the grain of a filter: a filter on the day of [order_date]
    selects the monthly rollup, whose stored months it then compares with days. *)
Definition on_a_day : SemanticQuery :=
  select_query ["orders.revenue"] []
    [{| sf_member := "orders.order_date.day"; sf_op := OpEquals;
        sf_values := ["2024-01-15"] |}].

Lemma filter_grain_unchecked :
  candidate_rollup shop on_a_day = Some {| rm_model := "orders"; rm_preagg := "monthly" |} ∧
  ∀ pre, pre ∈ sm_pre_aggregations orders_model → ¬ dim_derivable pre "orders.order_date.day".
Proof.
  split; [by vm_compute|]. intros pre ->%list_elem_of_singleton (d & Hd & Hn & Hg).
  apply elem_of_cons in Hd as [->|Hd]; [by vm_compute in Hg|].
  apply list_elem_of_singleton in Hd as ->. by vm_compute in Hn.
Qed.

(** With no group at all (a grand total over no rows) the rollup's [COUNT] is [NULL], the
    base table's is zero. *)
Lemma empty_count_differs custom :
  eval_agg custom AggCount (concat []) = Some 0%Qc ∧
  eval_agg custom (combine_agg AggCount) (map (eval_agg custom AggCount) []) = None.
Proof. split; [|done]. simpl. f_equal. Qed.
