(* ===== verification/Leaves.v ===== *)
(** * The leaves of an expanded metric query
    Each (measure, filters) pair has one inner column, and that column resolves, in the
    augmented catalog, to the measure with the filters added. *)

From S2P Require Export MetricProps.

(** ** Names of synthetic measures *)

Definition mf_name (n : N) (measure : string) : string :=
  "__mf" +:+ show_N n +:+ "_" +:+ measure.

Lemma pretty_digits x s :
  contains_chr "_" s = false → contains_chr "_" (pretty_N_go x s) = false.
Proof.
  revert s. induction (N.lt_wf_0 x) as [x _ IH]; intros s Hs.
  assert (x = 0 ∨ 0 < x)%N as [->|?] by lia; [done|].
  rewrite pretty_N_go_step by done. apply IH; [by apply N.div_lt|].
  simpl. rewrite Hs, orb_false_r. apply bool_decide_eq_false.
  unfold pretty_N_char. by repeat case_match.
Qed.

Lemma show_N_no_underscore n : contains_chr "_" (show_N n) = false.
Proof. unfold show_N, pretty, pretty_N. case_decide; [done|]. by apply pretty_digits. Qed.

Lemma mf_name_inj n1 n2 m1 m2 : mf_name n1 m1 = mf_name n2 m2 → n1 = n2 ∧ m1 = m2.
Proof.
  unfold mf_name. intros H%app_inj_l. change "_" with (chr "_") in H.
  assert (∀ n m, split_once "_" (show_N n +:+ chr "_" +:+ m) = Some (show_N n, m)) as Hs.
  { intros n m. apply split_once_some. split; [done|apply show_N_no_underscore]. }
  pose proof (Hs n1 m1) as H1. rewrite H, Hs in H1. injection H1 as Hn ->.
  split; [|done]. symmetry. by apply (inj pretty).
Qed.

(** ** The invariant of the expansion state *)

Section invariant.
Context (c : SemanticCatalog).

(** [col] carries [measure] of [model], filtered by [fs]. *)
Definition grafted (st : Expansion) (member : string) (fs : list string) (col : string) : Prop :=
  ∃ mn me model measure n ms, split_once "." member = Some (mn, me) ∧
    models c !! mn = Some model ∧ find_measure model me = Some measure ∧
    col = mn +:+ "." +:+ mf_name n me ∧ ex_synthetic st !! mn = Some ms ∧
    synthetic_measure measure (mf_name n me) fs ∈ ms.

Record expansion_ok (st : Expansion) : Prop := {
  eo_leaves : ∀ key col, ex_leaf_index st !! key = Some col → col ∈ ex_leaves st;
  eo_index : ∀ member fs col, ex_leaf_index st !! (member, fs) = Some col →
    (fs = [] ∧ col = member) ∨ (fs ≠ [] ∧ grafted st member fs col);
  eo_names : ∀ mn ms, ex_synthetic st !! mn = Some ms → NoDup (map mea_name ms) ∧
    ∀ m, m ∈ ms → ∃ n me, (n < N.of_nat (size (ex_leaf_index st)))%N ∧ mea_name m = mf_name n me
}.

Lemma expansion_ok_new : expansion_ok Expansion_new.
Proof.
  split; [intros key col H|intros m fs col H|intros mn ms H]; simpl in H;
    rewrite lookup_empty in H; discriminate.
Qed.

Lemma new_leaf_ok member filters st col syn :
  new_leaf c member filters st = Ok (col, syn) →
  (filters = [] ∧ col = member ∧ syn = ex_synthetic st) ∨
  (filters ≠ [] ∧ ∃ mn me model measure, split_once "." member = Some (mn, me) ∧
     models c !! mn = Some model ∧ find_measure model me = Some measure ∧
     let name := mf_name (N.of_nat (size (ex_leaf_index st))) me in
     col = mn +:+ "." +:+ name ∧
     syn = <[mn := default [] (ex_synthetic st !! mn)
                   ++ [synthetic_measure measure name (leaf_key member filters).2]]>
             (ex_synthetic st)).
Proof.
  unfold new_leaf. destruct filters as [|f fs]; [intros [= <- <-]; by left|].
  intros H. right. split; [done|]. apply rbind_ok in H as ([mn me] & H1 & H). inv_ok.
  injection H as <- <-. exists mn, me, x, x0. by split_and!.
Qed.

(** A synthetic measure stays where it is. *)
Lemma grafted_mono st st' member fs col :
  (∀ mn ms, ex_synthetic st !! mn = Some ms →
     ∃ ms', ex_synthetic st' !! mn = Some ms' ∧ ms ⊆ ms') →
  grafted st member fs col → grafted st' member fs col.
Proof.
  intros Hsub (mn & me & model & measure & n & ms & ? & ? & ? & ? & Hms & Hin).
  destruct (Hsub mn ms Hms) as (ms' & ? & Hs). exists mn, me, model, measure, n, ms'.
  split_and!; try done. by apply Hs.
Qed.

Lemma leaf_ok member filters st r :
  expansion_ok st → leaf c member filters st = Ok r →
  expansion_ok r.2 ∧ ex_leaf_index r.2 !! leaf_key member filters = Some r.1.
Proof.
  intros Hok H. unfold leaf in H.
  destruct (ex_leaf_index st !! leaf_key member filters) as [col|] eqn:Hkey.
  { injection H as <-. done. }
  apply rbind_ok in H as ([col syn] & Hnew & [= <-]). simpl.
  split; [|by rewrite lookup_insert_eq]. apply new_leaf_ok in Hnew.
  assert (∀ mn ms, ex_synthetic st !! mn = Some ms → ∃ ms', syn !! mn = Some ms' ∧ ms ⊆ ms')
    as Hmono.
  { intros mn ms Hms. destruct Hnew as [(_ & _ & ->)|(_ & mn' & me & model & measure & _ & _ & _ & _ & ->)];
      [eauto|]. destruct (decide (mn' = mn)) as [->|].
    - rewrite lookup_insert_eq, Hms. simpl. eexists. split; [done|]. set_solver.
    - rewrite lookup_insert_ne by done. eauto. }
  assert (size (<[leaf_key member filters := col]> (ex_leaf_index st))
          = S (size (ex_leaf_index st))) as Hsize by by apply map_size_insert_None.
  split; simpl.
  - intros key col' Hl. apply elem_of_app.
    destruct (decide (leaf_key member filters = key)) as [<-|Hne].
    + rewrite lookup_insert_eq in Hl. injection Hl as <-. right. left.
    + rewrite lookup_insert_ne in Hl by done. left. by eapply eo_leaves.
  - intros m fs col' Hl. destruct (decide (leaf_key member filters = (m, fs))) as [Heq|Hne].
    + rewrite Heq, lookup_insert_eq in Hl. injection Hl as <-. injection Heq as -> <-.
      destruct Hnew as [(-> & -> & _)|(Hne & mn & me & model & measure & ? & ? & ? & -> & ->)].
      * by left.
      * right. split.
        { intros Hnil. destruct filters as [|f fs']; [done|].
          assert (f ∈ dedup (sort_strings (f :: fs'))) as Hin
            by (apply elem_of_dedup, elem_of_sort_by; left).
          rewrite Hnil in Hin. by apply elem_of_nil in Hin. }
        exists mn, me, model, measure, (N.of_nat (size (ex_leaf_index st))). eexists.
        simpl. rewrite lookup_insert_eq. split_and!; [done..|]. set_solver.
    + rewrite lookup_insert_ne in Hl by done.
      destruct (eo_index _ Hok _ _ _ Hl) as [?|[? ?]]; [by left|right].
      split; [done|]. by eapply grafted_mono.
  - rewrite Hsize. intros mn ms Hms.
    assert (∀ ms0, ex_synthetic st !! mn = Some ms0 → NoDup (map mea_name ms0) ∧
      ∀ m, m ∈ ms0 → ∃ n me, (n < N.of_nat (S (size (ex_leaf_index st))))%N ∧
                             mea_name m = mf_name n me) as Hold.
    { intros ms0 Hms0. destruct (eo_names _ Hok _ _ Hms0) as [? Hn]. split; [done|].
      intros m (n & me & ? & ?)%Hn. exists n, me. split; [lia|done]. }
    destruct Hnew as [(_ & _ & ->)|(_ & mn' & me & model & measure & _ & _ & _ & _ & ->)]; [by auto|].
    destruct (decide (mn' = mn)) as [->|]; [|rewrite lookup_insert_ne in Hms by done; by auto].
    rewrite lookup_insert_eq in Hms. injection Hms as <-. rewrite map_app. simpl. split.
    + destruct (ex_synthetic st !! mn) as [ms0|] eqn:Hms0; simpl; [|apply NoDup_singleton].
      destruct (eo_names _ Hok _ _ Hms0) as [Hnd Hn].
      apply NoDup_app. split_and!; [done| |apply NoDup_singleton].
      intros x (m & Hm & ->)%elem_of_map Hx%list_elem_of_singleton.
      destruct (Hn m Hm) as (n & me' & Hlt & Heq). rewrite Heq in Hx.
      apply mf_name_inj in Hx as [-> _]. lia.
    + intros m [Hm| ->%list_elem_of_singleton]%elem_of_app.
      * destruct (ex_synthetic st !! mn) as [ms0|] eqn:Hms0; simpl in Hm;
          [|by apply elem_of_nil in Hm]. by apply (Hold ms0).
      * eexists _, _. split; [|done]. lia.
Qed.

(** ** What the whole expansion preserves *)

Section preserves.
Context (P : Expansion → Prop)
  (HP : ∀ member filters st r, P st → leaf c member filters st = Ok r → P r.2).

Definition preserves (f : expanding string) : Prop := ∀ st r, P st → f st = Ok r → P r.2.

Lemma preserves_compound sub base k :
  (∀ b fs, preserves (sub b fs)) → preserves (compound_sql sub base k).
Proof using HP.
  intros Hsub st r Hst. unfold compound_sql. destruct k as [num den|expr| | |]; try done.
  - unfold ratio_sql. intros H. apply rbind_ok in H as ([n st1] & H1 & H).
    apply rbind_ok in H as ([d st2] & H2 & [= <-]).
    apply (Hsub _ _ _ _ (Hsub _ _ _ _ Hst H1) H2).
  - intros H. destruct (derived_tokens expr) as [toks|] eqn:Ht;
      [|unfold derived_metric_sql in H; by rewrite Ht in H].
    destruct (derived_tokens_scan _ _ Ht) as (segs & text & Hs & ->).
    rewrite (derived_metric_fold _ _ _ _ _ _ _ Ht Hs) in H.
    apply rbind_ok in H as ([out st1] & H & [= <-]). simpl.
    clear Ht Hs. revert H. generalize "" as o. revert st Hst.
    induction segs as [|seg segs IH]; intros st Hst o; cbn [try_fold]; [by intros [= _ <-]|].
    intros H. apply rbind_ok in H as ([o1 st2] & H1 & H). unfold derived_step in H1.
    apply rbind_ok in H1 as ([e st3] & H1 & [= _ <-]). eapply IH, H. by apply (Hsub _ _ _ _ Hst H1).
Qed.

Lemma preserves_simple q tds da name base k : preserves (simple_sql c q tds da name base k).
Proof using HP.
  intros st r Hst. unfold simple_sql. destruct k as [| |me w ag|me p o|me ov ag]; try done.
  - unfold cumulative_sql. intros H. apply rbind_ok in H as ([col st1] & H1 & H).
    apply rbind_ok in H as ([tc pa] & _ & [= <-]). apply (HP _ _ _ _ Hst H1).
  - unfold offset_sql. intros H. apply rbind_ok in H as ([col st1] & H1 & H).
    apply rbind_ok in H as ([tc pa] & _ & [= <-]). apply (HP _ _ _ _ Hst H1).
  - unfold share_sql. intros H. apply rbind_ok in H as (u & _ & H).
    apply rbind_ok in H as ([col st1] & H1 & [= <-]). apply (HP _ _ _ _ Hst H1).
Qed.

Lemma preserves_expr q tds da fuel visiting name inherited :
  preserves (metric_expr_at c q tds da fuel visiting name inherited).
Proof using HP.
  revert visiting name inherited. induction fuel as [|fuel IH]; intros v name inh st r Hst H.
  { simpl in H. destruct (metrics c !! name); simpl in H; [|done]. by case_bool_decide. }
  rewrite expr_at_eq in H. destruct (metrics c !! name) as [metric|]; [|done].
  case_bool_decide; [done|]. destruct (compound (met_kind metric)).
  - eapply preserves_compound; [|done|exact H]. intros b fs st1 r1 Hst1 Hb.
    unfold member_expr_with in Hb. destruct (dotted b); [|by eapply IH].
    apply rbind_ok in Hb as ([col st2] & Hl & [= <-]). apply (HP _ _ _ _ Hst1 Hl).
  - by eapply preserves_simple.
Qed.

Lemma preserves_expand q tds da ps ex :
  P Expansion_new → expand_query c q tds da = Ok (ps, ex) → P ex.
Proof using HP.
  unfold expand_query. generalize (map (λ d, select_as (da +:+ "." +:+ quote_ident d) d)
    (q_dimensions q)) as ps0. generalize Expansion_new as st0.
  induction (q_measures q) as [|m ms IH]; intros st0 ps0 Hst; cbn [try_fold];
    [by intros [= _ <-]|].
  intros H. apply rbind_ok in H as ([ps1 st1] & H1 & H). eapply IH, H.
  unfold project_measure in H1. destruct (dotted m);
    apply rbind_ok in H1 as ([e st2] & H1 & [= _ <-]).
  - apply (HP _ _ _ _ Hst H1).
  - apply (preserves_expr _ _ _ _ _ _ _ _ _ Hst H1).
Qed.
End preserves.

Lemma expand_ok q tds da ps ex : expand_query c q tds da = Ok (ps, ex) → expansion_ok ex.
Proof.
  apply (preserves_expand expansion_ok); [|apply expansion_ok_new].
  intros member filters st r Hst H. by apply leaf_ok in H as [].
Qed.
End invariant.

(** ** Resolution in the augmented catalog *)

Lemma augmented_lookup c syn mn :
  models (augmented_catalog c syn) !! mn =
    (λ m, match syn !! mn with Some extra => with_measures m extra | None => m end)
    <$> models c !! mn.
Proof.
  simpl. assert (∀ (l : list (string * list Measure)) (ms : gmap string SemanticModel), NoDup l.*1 →
    foldl (λ ms '(name, extra), match ms !! name with
        | Some model => <[name := with_measures model extra]> ms
        | None => ms
        end) ms l !! mn =
    (λ m, match (list_to_map l : gmap string (list Measure)) !! mn with
          | Some extra => with_measures m extra | None => m end) <$> ms !! mn)
    as Hfold.
  { induction l as [|[name extra] l IH]; intros ms Hnd; cbn [foldl].
    { simpl. rewrite lookup_empty. by destruct (ms !! mn). }
    apply NoDup_cons in Hnd as [Hni Hnd]. rewrite IH by done. simpl.
    destruct (decide (name = mn)) as [->|Hne].
    - rewrite lookup_insert_eq. rewrite (not_elem_of_list_to_map_1 l mn Hni).
      destruct (ms !! mn) as [m|] eqn:Hm; [by rewrite lookup_insert_eq|by rewrite Hm].
    - rewrite lookup_insert_ne by done.
      destruct (ms !! name); [by rewrite lookup_insert_ne|done]. }
  rewrite Hfold by apply NoDup_fst_map_to_list. by rewrite list_to_map_to_list.
Qed.

Lemma find_unique {A} (f : A → bool) l x :
  x ∈ l → f x = true → (∀ y, y ∈ l → f y = true → y = x) → List.find f l = Some x.
Proof.
  intros Hx Hf Hu. induction l as [|y l IH]; [by apply elem_of_nil in Hx|]. simpl.
  destruct (f y) eqn:Hy; [f_equal; apply Hu; [left|done]|].
  apply elem_of_cons in Hx as [->|?]; [congruence|]. apply IH; [done|]. intros z ?. apply Hu. by right.
Qed.

Lemma NoDup_map_inj {A B} (f : A → B) l x y :
  NoDup (map f l) → x ∈ l → y ∈ l → f x = f y → x = y.
Proof.
  intros Hnd Hx Hy Hf. induction l as [|z l IH]; [by apply elem_of_nil in Hx|].
  simpl in Hnd. apply NoDup_cons in Hnd as [Hz Hnd].
  apply elem_of_cons in Hx as [->|Hx], Hy as [->|Hy]; try done.
  - destruct Hz. rewrite Hf. apply elem_of_map. eauto.
  - destruct Hz. rewrite <-Hf. apply elem_of_map. eauto.
  - by apply IH.
Qed.

(** No declared measure uses the prefix of the synthetic ones. *)
Definition no_mf_measures (c : SemanticCatalog) : Prop :=
  ∀ mn model m, models c !! mn = Some model → m ∈ sm_measures model →
    starts_with "__mf" (mea_name m) = false.

(** The leaves of an expanded metric query are right: each (measure, filters) pair that
    a metric refers to has one column of the inner query, which for an unfiltered leaf is
    the measure itself, and for a filtered one is a synthetic member that, in the augmented
    catalog the inner query compiles on, resolves to the owning model's measure with exactly
    those filters added - provided no declared measure name starts with [__mf]. *)
Theorem expanded_leaves_resolve c q tds da ps ex member fs col :
  no_mf_measures c → expand_query c q tds da = Ok (ps, ex) →
  ex_leaf_index ex !! (member, fs) = Some col →
  col ∈ ex_leaves ex ∧
  ((fs = [] ∧ col = member) ∨
   ∃ mn me name model measure augmented,
     split_once "." member = Some (mn, me) ∧ models c !! mn = Some model ∧
     find_measure model me = Some measure ∧ col = mn +:+ "." +:+ name ∧
     models (augmented_catalog c (ex_synthetic ex)) !! mn = Some augmented ∧
     find_measure augmented name = Some (synthetic_measure measure name fs)).
Proof.
  intros Hmf Hex Hcol. pose proof (expand_ok c q tds da ps ex Hex) as Hok.
  split; [by eapply eo_leaves|].
  destruct (eo_index _ _ Hok _ _ _ Hcol)
    as [?|[_ (mn & me & model & measure & n & ms & H1 & H2 & H3 & -> & Hms & Hin)]]; [by left|right].
  exists mn, me, (mf_name n me), model, measure, (with_measures model ms).
  split_and!; [done..| |].
  - rewrite augmented_lookup, H2, Hms. done.
  - unfold find_measure. simpl. apply find_unique.
    + apply elem_of_app. by right.
    + by apply bool_decide_eq_true.
    + intros y Hy Hn%bool_decide_eq_true. apply elem_of_app in Hy as [Hy|Hy].
      * pose proof (Hmf _ _ _ H2 Hy) as Hpre. rewrite Hn in Hpre.
        assert (starts_with "__mf" (mf_name n me) = true); [|congruence].
        apply starts_with_true. by eexists.
      * destruct (eo_names _ _ Hok _ _ Hms) as [Hnd _].
        apply (NoDup_map_inj _ _ _ _ Hnd Hy Hin). by rewrite Hn.
Qed.

(** ** A sample with metrics *)

Definition operand (member : string) (filter : option string) : Operand :=
  {| op_member := member; op_filter := filter |}.

Definition metric (name : string) (kind : MetricKind) (filter : option string) : Metric :=
  {| met_name := name; met_description := None; met_kind := kind; met_filter := filter;
     met_format := None |}.

Definition shop_metrics : SemanticCatalog :=
  new_with_metrics [orders_model; customers_model; items_model]
    [metric "aov" (Ratio (operand "orders.revenue" None)
                     (operand "orders.count" (Some "status = 'paid'"))) None;
     metric "double_aov" (Derived "{aov} * 2") None;
     metric "loop" (Derived "{pool} + {orders.count}") None;
     metric "pool" (Derived "{loop}") None;
     metric "running" (Cumulative "orders.revenue" RunningTotal WSum) None;
     metric "trend" (Derived "{running} / {aov}") None].

Lemma shop_metrics_no_mf : no_mf_measures shop_metrics.
Proof.
  intros mn model m Hm Hin. apply collect_named in Hm as [_ Hm].
  repeat (apply elem_of_cons in Hm as [->|Hm]; [|]); [..|by apply elem_of_nil in Hm];
    repeat (apply elem_of_cons in Hin as [->|Hin]; [by vm_compute|]); by apply elem_of_nil in Hin.
Qed.

Definition by_aov : SemanticQuery := select_query ["double_aov"] ["orders.status"] [].

(** The expansion of [by_aov], evaluated. *)
Definition aov_expansion : list string * Expansion :=
  default ([], Expansion_new) (to_option (expand_query shop_metrics by_aov [] AGG_ALIAS)).

Lemma by_aov_expands :
  expand_query shop_metrics by_aov [] AGG_ALIAS = Ok (aov_expansion.1, aov_expansion.2).
Proof. vm_compute. reflexivity. Qed.

Lemma by_aov_leaf :
  ex_leaf_index aov_expansion.2 !! ("orders.count", ["status = 'paid'"])
  = Some "orders.__mf1_count".
Proof. vm_compute. reflexivity. Qed.

Lemma expanded_leaves_resolve_witness :
  ∃ mn me name model measure augmented,
    split_once "." "orders.count" = Some (mn, me) ∧
    models shop_metrics !! mn = Some model ∧ find_measure model me = Some measure ∧
    find_measure augmented name = Some (synthetic_measure measure name ["status = 'paid'"]).
Proof.
  destruct (expanded_leaves_resolve _ _ _ _ _ _ _ _ _ shop_metrics_no_mf by_aov_expands by_aov_leaf)
    as [_ [[H _]|(mn & me & name & model & measure & augmented & Hs & Hm & Hf & _ & _ & Hr)]].
  - discriminate H.
  - exists mn, me, name, model, measure, augmented. exact (conj Hs (conj Hm (conj Hf Hr))).
Defined.

Lemma loop_cycles :
  metric_expr shop_metrics by_aov [] AGG_ALIAS "loop" [] Expansion_new = Err (MetricCycle "loop").
Proof. vm_compute. reflexivity. Qed.

Lemma metric_expr_cycles_witness : tc (refers shop_metrics) "loop" "loop".
Proof.
  exact (proj2 (proj2 (proj2 (metric_expr_cycles shop_metrics by_aov [] AGG_ALIAS "loop" []
                                Expansion_new)) "loop" loop_cycles)).
Defined.

Lemma compile_sql_equation_witness :
  compile_sql_at (HashIter0 := gset_iter) 5 shop_metrics by_region
  = compile_sql (HashIter0 := gset_iter) shop_metrics by_region.
Proof.
  exact (proj1 (compile_sql_equation (HashIter0 := gset_iter) shop_metrics by_region) 5
           ltac:(lia)).
Defined.

Lemma has_window_reaches_witness :
  ∃ x, rtc (refers shop_metrics) "trend" x ∧ windowed shop_metrics x.
Proof. apply (has_window_reaches shop_metrics "trend"). vm_compute. reflexivity. Defined.
