(* ===== verification/Cache.v ===== *)
(** * The cache manager ([crates/pawrly-engine/src/cache.rs], [crates/pawrly-core/src/cache.rs])
    Per-table Parquet copies and a JSON manifest shared by every process on the same root.
    The disk holds the manifest and the files; a manager keeps its own copy of the manifest.
    Every operation takes the outcome of its I/O calls ([Io]) and the clock as arguments. *)

From S2P Require Export SemTypes.

(** ** Policies and entries *)

Inductive CacheMode := ModeNone | ModeTtl | ModeRefresh | ModeCron | ModeAppend | ModePinned.

(** [From<&CachePolicy> for CacheMode]. *)
Definition CacheMode_from (p : CachePolicy) : CacheMode :=
  match p with
  | PolicyNone => ModeNone
  | PolicyTtl _ => ModeTtl
  | PolicyRefresh _ => ModeRefresh
  | PolicyCron _ => ModeCron
  | PolicyAppend _ => ModeAppend
  end.

Inductive MaterializeFormat := FormatParquet | FormatCsv | FormatJson.

(** [MaterializeFormat::from_path]. *)
Definition from_path (path : string) : option MaterializeFormat :=
  let ext := to_ascii_lowercase (default "" (last (split "." path))) in
  if decide (ext = "parquet") then Some FormatParquet
  else if decide (ext = "csv") then Some FormatCsv
  else if decide (ext = "json" ∨ ext = "ndjson" ∨ ext = "jsonl") then Some FormatJson
  else None.

Inductive MaterializeSpec :=
| SpecQuery (sql : string) (params : gmap string string)
| SpecFile (path : string) (format : option MaterializeFormat)
| SpecUrl (url : string) (format : option MaterializeFormat)
| SpecInline (bytes : string) (format : MaterializeFormat).

Definition MATERIALIZED_SCHEMA : string := "materialized".

Inductive Origin :=
| CacheCopy
| Materialized (spec : MaterializeSpec).

Definition is_materialized (o : Origin) : bool :=
  match o with
  | Materialized _ => true
  | CacheCopy => false
  end.

Record ManifestEntry := {
  en_source : string;
  en_table : string;
  en_written_at : Z;
  en_expires_at : option Z;
  en_row_count : N;
  en_size_bytes : N;
  en_file_path : string;
  en_origin : Origin
}.

Record Manifest := { mf_version : N; mf_entries : list ManifestEntry }.

Definition with_entries (m : Manifest) (es : list ManifestEntry) : Manifest :=
  {| mf_version := mf_version m; mf_entries := es |}.

Definition entry_key (e : ManifestEntry) : TableName := mkTableName (en_source e) (en_table e).

(** [e.source == key.schema && e.table == key.table]. *)
Definition is_entry (key : TableName) (e : ManifestEntry) : bool :=
  bool_decide (en_source e = tn_schema key) && bool_decide (en_table e = tn_table key).

(** [e.expires_at.is_none_or(|exp| now < exp)]. *)
Definition unexpired (now : Z) (e : ManifestEntry) : bool :=
  match en_expires_at e with
  | Some exp => (now <? exp)%Z
  | None => true
  end.

Record CacheEntryInfo := {
  ci_name : TableName;
  ci_mode : CacheMode;
  ci_written_at : Z;
  ci_expires_at : option Z;
  ci_row_count : N;
  ci_size_bytes : N;
  ci_file_count : N
}.

Record VacuumReport := {
  vr_entries_removed : N;
  vr_files_removed : N;
  vr_bytes_reclaimed : N
}.

Definition VacuumReport_default : VacuumReport :=
  {| vr_entries_removed := 0; vr_files_removed := 0; vr_bytes_reclaimed := 0 |}.

(** ** Paths (Unix) *)

(** [Path::file_name]. *)
Definition file_name (p : string) : option string :=
  match last (List.filter (λ s, negb (bool_decide (s = "") || bool_decide (s = "."))) (split "/" p)) with
  | Some ".." => None
  | o => o
  end.

Definition data_path (root source table : string) : string :=
  path_join (path_join (path_join (path_join root "data") source) table) "part-000000.parquet".

(** ** I/O outcomes and errors *)

(** Which of an operation's I/O calls succeed. *)
Record Io := {
  io_lock : bool;      (* opening and locking [manifest.lock] *)
  io_read : bool;      (* reading and parsing the manifest, where there is one *)
  io_manifest : bool;  (* writing, syncing and renaming the new manifest *)
  io_create : bool;    (* creating the temporary Parquet file *)
  io_data : bool;      (* writing and syncing its contents *)
  io_rename : bool;    (* creating the target directory and renaming into it *)
  io_remove : string → bool
}.

Definition Io_ok : Io :=
  {| io_lock := true; io_read := true; io_manifest := true; io_create := true; io_data := true;
     io_rename := true; io_remove := λ _, true |}.

Inductive CacheError :=
| UnknownTable (name : string)
| Internal (msg : string).

(** How code that may panic fails: a panic unwinds through the callers. *)
Inductive Fault (E : Type) :=
| Failed (e : E)
| Panicked.
#[global] Arguments Failed {_} _.
#[global] Arguments Panicked {_}.

(** The chrono crate: [Duration::from_std], and [DateTime + Duration], which panics when
    the sum is not a date ([None]). *)
Record Chrono := { from_std : N → option Z; date_add : Z → Z → option Z }.

(** How a scan fails: an error, or a panic that unwinds through the caller. *)
Inductive ScanError :=
| ScanFailed (msg : string)
| ScanPanic.

(** [TMP_MAX_AGE], in nanoseconds. *)
Definition TMP_MAX_AGE : Z := 3600 * 1000000000.

Section cache.
(** The arrow, parquet, datafusion and chrono crates: batches with their columns and row
    counts, [RecordBatch::try_new_with_options]; the size of a Parquet file and the batches
    a reader gets back from it; a live provider's schema and its collected scan; dates. *)
Context {Field Column Batch Provider Filter : Type}
  (num_rows : Batch → N)
  (columns : Batch → list Column)
  (try_new : list Field → list Column → option N → result string Batch)
  (parquet_len : list Field → list Batch → N)
  (parquet_read : list Field → list Batch → list Batch)
  (schema_of : Provider → list Field)
  (scan_live : Provider → list Filter → option N → result string (list Batch))
  (chrono : Chrono).

(** A file: its length, its modification time, and its schema and batches if it reads as
    Parquet. *)
Record File := {
  fi_len : N;
  fi_mtime : option Z;
  fi_data : option (list Field * list Batch)
}.

Record Disk := { dk_manifest : option Manifest; dk_files : gmap string File }.

Definition with_files (d : Disk) (fs : gmap string File) : Disk :=
  {| dk_manifest := dk_manifest d; dk_files := fs |}.

Record RegisteredInner := { ri_provider : Provider; ri_policy : CachePolicy }.

Record CacheManager := {
  cm_root : string;
  cm_manifest : Manifest;
  cm_inner : gmap TableName RegisteredInner
}.

Definition with_manifest (m : CacheManager) (mf : Manifest) : CacheManager :=
  {| cm_root := cm_root m; cm_manifest := mf; cm_inner := cm_inner m |}.

(** An operation of a manager on the shared disk. *)
Abbreviation cache_op A := (CacheManager → Disk → A * CacheManager * Disk).

(** ** The manifest file *)

Definition Manifest_empty : Manifest := {| mf_version := 1; mf_entries := [] |}.

(** The manifest on disk, or a fresh empty one when it is absent, cannot be read or does
    not parse. *)
Definition read_manifest_disk (io : Io) (d : Disk) : Manifest :=
  if io_read io then default Manifest_empty (dk_manifest d) else Manifest_empty.

(** Write to a temporary file, sync, rename: all or nothing. *)
Definition write_manifest_disk (io : Io) (mf : Manifest) (d : Disk) : result () () * Disk :=
  if io_manifest io then (Ok (), {| dk_manifest := Some mf; dk_files := dk_files d |})
  else (Err (), d).

(** [with_locked_manifest]: the read-modify-write on which everything rests. *)
Definition with_locked_manifest {T} (io : Io) (f : Manifest → T * Manifest)
    : cache_op (result () T) := λ m d,
  if negb (io_lock io) then (Err (), m, d)
  else
    let '(out, mf) := f (read_manifest_disk io d) in
    match write_manifest_disk io mf d with
    | (Ok _, d) => (Ok out, with_manifest m mf, d)
    | (Err _, d) => (Err (), m, d)
    end.

(** ** Reads *)

Definition fresh (now : Z) (m : CacheManager) (name : TableName) : option ManifestEntry :=
  List.find (λ e, is_entry name e && unexpired now e) (mf_entries (cm_manifest m)).

Definition is_fresh (now : Z) (m : CacheManager) (name : TableName) : bool :=
  match fresh now m name with Some _ => true | None => false end.

(** [file_path.exists()]. *)
Definition exists_file (d : Disk) (path : string) : bool :=
  match dk_files d !! path with Some _ => true | None => false end.

Definition namespace_sources (m : CacheManager) (d : Disk) : list string :=
  dedup (sort_strings (map en_source
    (List.filter (λ e, exists_file d (en_file_path e)) (mf_entries (cm_manifest m))))).

Definition namespace_tables (source : string) (m : CacheManager) (d : Disk) : list string :=
  dedup (sort_strings (map en_table
    (List.filter (λ e, bool_decide (en_source e = source) && exists_file d (en_file_path e))
       (mf_entries (cm_manifest m))))).

Definition namespace_path (source table : string) (m : CacheManager) (d : Disk)
    : option string :=
  en_file_path <$>
    List.find (λ e, is_entry (mkTableName source table) e && exists_file d (en_file_path e))
      (mf_entries (cm_manifest m)).

(** The stored spec of a materialized table. *)
Definition spec_of (name : string) (e : ManifestEntry) : option MaterializeSpec :=
  if is_entry (mkTableName MATERIALIZED_SCHEMA name) e then
    match en_origin e with
    | Materialized spec => Some spec
    | CacheCopy => None
    end
  else None.

Definition materialized_spec (name : string) (m : CacheManager) : option MaterializeSpec :=
  head (omap (spec_of name) (mf_entries (cm_manifest m))).

Definition entry_mode (m : CacheManager) (e : ManifestEntry) : CacheMode :=
  if is_materialized (en_origin e) then ModePinned
  else match cm_inner m !! entry_key e with
       | Some r => CacheMode_from (ri_policy r)
       | None => ModeTtl
       end.

(** [CacheManager::list]. *)
Definition list_entries (m : CacheManager) : list CacheEntryInfo :=
  map (λ e, {| ci_name := entry_key e; ci_mode := entry_mode m e;
               ci_written_at := en_written_at e; ci_expires_at := en_expires_at e;
               ci_row_count := en_row_count e; ci_size_bytes := en_size_bytes e;
               ci_file_count := 1 |}) (mf_entries (cm_manifest m)).

(** ** Removals *)

(** [position] then [remove]. *)
Fixpoint take_first (f : ManifestEntry → bool) (es : list ManifestEntry)
    : option ManifestEntry * list ManifestEntry :=
  match es with
  | [] => (None, [])
  | e :: es => if f e then (Some e, es)
               else let '(o, es) := take_first f es in (o, e :: es)
  end.

Definition remove_first (f : ManifestEntry → bool) (mf : Manifest)
    : option ManifestEntry * Manifest :=
  let '(o, es) := take_first f (mf_entries mf) in (o, with_entries mf es).

Definition remove_file (io : Io) (path : string) (d : Disk) : Disk :=
  if io_remove io path then with_files d (delete path (dk_files d)) else d.

(** The tail shared by [invalidate] and [drop_materialized]: delete the removed entry's
    file. *)
Definition drop_file (io : Io) (removed : result () (option ManifestEntry))
    (m : CacheManager) (d : Disk) : result CacheError bool * CacheManager * Disk :=
  match removed with
  | Err _ => (Err (Internal "cache manifest flush"), m, d)
  | Ok None => (Ok false, m, d)
  | Ok (Some entry) => (Ok true, m, remove_file io (en_file_path entry) d)
  end.

Definition invalidate (io : Io) (key : TableName) : cache_op (result CacheError bool) := λ m d,
  let '(removed, m, d) := with_locked_manifest io (remove_first (is_entry key)) m d in
  drop_file io removed m d.

Definition drop_materialized (io : Io) (name : string) : cache_op (result CacheError bool) :=
  λ m d,
  let key := mkTableName MATERIALIZED_SCHEMA name in
  let '(removed, m, d) := with_locked_manifest io
    (remove_first (λ e, is_entry key e && is_materialized (en_origin e))) m d in
  drop_file io removed m d.

(** Drops the entry of a corrupt file. *)
Definition quarantine_entry (key : TableName) (path : string) (mf : Manifest) : () * Manifest :=
  ((), with_entries mf (List.filter (λ e, negb (is_entry key e
         && bool_decide (en_file_path e = path))) (mf_entries mf))).

(** [quarantine]; [uuid] is the fresh name of the file moved aside. *)
Definition quarantine (io : Io) (uuid : string) (key : TableName) (entry : ManifestEntry)
    : cache_op () := λ m d,
  let '(_, m, d) := with_locked_manifest io (quarantine_entry key (en_file_path entry)) m d in
  match dk_files d !! en_file_path entry with
  | None => ((), m, d)
  | Some file =>
      let dest_dir := path_join (path_join (path_join (cm_root m) "corrupt") (tn_schema key))
                        (tn_table key) in
      match file_name (en_file_path entry) with
      | Some fname =>
          if io_rename io then
            ((), m, with_files d (<[path_join dest_dir (uuid +:+ "-" +:+ fname) := file]>
                                    (delete (en_file_path entry) (dk_files d))))
          else ((), m, remove_file io (en_file_path entry) d)
      | None => ((), m, remove_file io (en_file_path entry) d)
      end
  end.

(** ** Writes *)

Definition tmp_dir (root : string) : string := path_join root "tmp".
Definition tmp_path (root uuid : string) : string :=
  path_join (tmp_dir root) (uuid +:+ ".parquet").

(** Write to [tmp/], sync, rename into [final_path]; the size of the finished file. *)
Definition atomic_write_parquet (io : Io) (uuid : string) (now : Z) (root final_path : string)
    (schema : list Field) (batches : list Batch) (d : Disk) : result () N * Disk :=
  let tmp := tmp_path root uuid in
  if negb (io_create io) then (Err (), d)
  else if negb (io_data io) then
    (Err (), with_files d (<[tmp := {| fi_len := 0; fi_mtime := Some now; fi_data := None |}]>
                             (dk_files d)))
  else
    let file := {| fi_len := parquet_len schema batches; fi_mtime := Some now;
                   fi_data := Some (schema, parquet_read schema batches) |} in
    if negb (io_rename io) then (Err (), with_files d (<[tmp := file]> (dk_files d)))
    else (Ok (fi_len file), with_files d (<[final_path := file]> (dk_files d))).

Definition total_rows (batches : list Batch) : N :=
  foldr (λ b acc, num_rows b + acc)%N 0%N batches.

(** [Some(now + ttl)] in TTL mode; a sum past the last date panics. *)
Definition ttl_expiry (policy : CachePolicy) (now : Z) : result (Fault ()) (option Z) :=
  match policy with
  | PolicyTtl ttl =>
      match from_std chrono ttl with
      | Some d => rmap Some (ok_or Panicked (date_add chrono now d))
      | None => Ok None
      end
  | _ => Ok None
  end.

(** The closure of [upsert]: replaces any entry of the same name. *)
Definition upsert_entry (entry : ManifestEntry) (mf : Manifest) : () * Manifest :=
  ((), with_entries mf (List.filter (λ e, negb (is_entry (entry_key entry) e)) (mf_entries mf)
                        ++ [entry])).

Definition upsert (io : Io) (entry : ManifestEntry) : cache_op (result () ()) :=
  with_locked_manifest io (upsert_entry entry).

(** The entry [write_through] and [materialize] record for a file just written. *)
Definition new_entry (source table path : string) (now : Z) (expires_at : option Z)
    (batches : list Batch) (size : N) (origin : Origin) : ManifestEntry :=
  {| en_source := source; en_table := table; en_written_at := now;
     en_expires_at := expires_at; en_row_count := total_rows batches;
     en_size_bytes := size; en_file_path := path; en_origin := origin |}.

Definition write_through (io : Io) (uuid : string) (now : Z) (key : TableName)
    (schema : list Field) (batches : list Batch) (policy : CachePolicy)
    : cache_op (result (Fault ()) ManifestEntry) := λ m d,
  let final_path := data_path (cm_root m) (tn_schema key) (tn_table key) in
  match atomic_write_parquet io uuid now (cm_root m) final_path schema batches d with
  | (Err e, d) => (Err (Failed e), m, d)
  | (Ok size, d) =>
      match ttl_expiry policy now with
      | Err e => (Err e, m, d)
      | Ok expires_at =>
          let entry := new_entry (tn_schema key) (tn_table key) final_path now
                         expires_at batches size CacheCopy in
          let '(r, m, d) := upsert io entry m d in (map_err Failed (rmap (λ _, entry) r), m, d)
      end
  end.

Definition materialize (io : Io) (uuid : string) (now : Z) (name : string)
    (schema : list Field) (batches : list Batch) (spec : MaterializeSpec) : cache_op (result () ManifestEntry) := λ m d,
  let final_path := data_path (cm_root m) MATERIALIZED_SCHEMA name in
  match atomic_write_parquet io uuid now (cm_root m) final_path schema batches d with
  | (Err e, d) => (Err e, m, d)
  | (Ok size, d) =>
      let entry := new_entry MATERIALIZED_SCHEMA name final_path now None batches size
                     (Materialized spec) in
      let '(r, m, d) := upsert io entry m d in (rmap (λ _, entry) r, m, d)
  end.

Definition register_inner (key : TableName) (provider : Provider) (policy : CachePolicy)
    (m : CacheManager) : CacheManager :=
  {| cm_root := cm_root m; cm_manifest := cm_manifest m;
     cm_inner := <[key := {| ri_provider := provider; ri_policy := policy |}]> (cm_inner m) |}.

Record RefreshOutcome := {
  ro_table : TableName;
  ro_rows_written : N;
  ro_size_bytes : N;
  ro_expires_at : option Z
}.

(** [refresh]: re-fetch the live table and write it through. *)
Definition refresh (io : Io) (uuid : string) (now : Z) (key : TableName)
    : cache_op (result (Fault CacheError) RefreshOutcome) := λ m d,
  match cm_inner m !! key with
  | None => (Err (Failed (UnknownTable (TableName_display key))), m, d)
  | Some reg =>
      match scan_live (ri_provider reg) [] None with
      | Err e => (Err (Failed (Internal ("cache refresh scan: " +:+ e))), m, d)
      | Ok batches =>
          match write_through io uuid now key (schema_of (ri_provider reg)) batches
                  (ri_policy reg) m d with
          | (Err (Failed _), m, d) => (Err (Failed (Internal "cache refresh write")), m, d)
          | (Err Panicked, m, d) => (Err Panicked, m, d)
          | (Ok entry, m, d) =>
              (Ok {| ro_table := key; ro_rows_written := en_row_count entry;
                     ro_size_bytes := en_size_bytes entry;
                     ro_expires_at := en_expires_at entry |}, m, d)
          end
      end
  end.

(** ** Vacuum *)

(** The closure of [vacuum]: expired copies go, materialized tables stay. *)
Definition survives (now : Z) (e : ManifestEntry) : bool :=
  is_materialized (en_origin e) || unexpired now e.

Definition drop_expired (now : Z) (mf : Manifest) : list ManifestEntry * Manifest :=
  (List.filter (λ e, negb (survives now e)) (mf_entries mf),
   with_entries mf (List.filter (survives now) (mf_entries mf))).

Definition file_len (d : Disk) (path : string) : N :=
  match dk_files d !! path with Some f => fi_len f | None => 0%N end.

(** Deletes a file and accounts for it: its length counts even if the deletion fails. *)
Definition reclaim (io : Io) (path : string) (acc : VacuumReport * Disk)
    : VacuumReport * Disk :=
  let '(r, d) := acc in
  ({| vr_entries_removed := vr_entries_removed r;
      vr_files_removed := vr_files_removed r
        + (if exists_file d path && io_remove io path then 1 else 0);
      vr_bytes_reclaimed := vr_bytes_reclaimed r + file_len d path |}%N,
   remove_file io path d).

Definition reclaim_entry (io : Io) (acc : VacuumReport * Disk) (e : ManifestEntry)
    : VacuumReport * Disk :=
  let '(r, d) := reclaim io (en_file_path e) acc in
  ({| vr_entries_removed := vr_entries_removed r + 1; vr_files_removed := vr_files_removed r;
      vr_bytes_reclaimed := vr_bytes_reclaimed r |}%N, d).

(** [collect_files(root/data)]: every file below the data directory. *)
Definition collect_files (root : string) (d : Disk) : list string :=
  List.filter (starts_with (path_join root "data" +:+ "/")) (elements (dom (dk_files d))).

(** Step 2: data files no entry of the manager's copy refers to. *)
Definition reclaim_orphans (io : Io) (m : CacheManager) (acc : VacuumReport * Disk)
    : VacuumReport * Disk :=
  let referenced := map en_file_path (mf_entries (cm_manifest m)) in
  foldl (λ acc f, if bool_decide (f ∈ referenced) then acc else reclaim io f acc) acc
    (collect_files (cm_root m) acc.2).

(** A direct child of [tmp/], old enough; an unknown or future time counts as old. *)
Definition is_old_tmp (now : Z) (root : string) (path : string) (f : File) : bool :=
  match strip_prefix (tmp_dir root +:+ "/") path with
  | Some name => negb (contains_chr "/" name) &&
      match fi_mtime f with
      | Some t => (now <? t)%Z || (TMP_MAX_AGE <=? now - t)%Z
      | None => true
      end
  | None => false
  end.

Definition clean_old_tmp (io : Io) (now : Z) (root : string) (d : Disk) : (N * N) * Disk :=
  foldl (λ '((files, bytes), d) path,
      match dk_files d !! path with
      | Some f =>
          if is_old_tmp now root path f && io_remove io path
          then ((files + 1, bytes + fi_len f)%N, remove_file io path d)
          else ((files, bytes), d)
      | None => ((files, bytes), d)
      end) ((0, 0)%N, d) (elements (dom (dk_files d))).

(** Steps 2 and 3 of [vacuum], after the manifest lock is released. *)
Definition vacuum_files (io : Io) (now : Z) (expired : list ManifestEntry) (m : CacheManager)
    (d : Disk) : VacuumReport * Disk :=
  let acc := foldl (reclaim_entry io) (VacuumReport_default, d) expired in
  let '(r, d) := reclaim_orphans io m acc in
  let '((files, bytes), d) := clean_old_tmp io now (cm_root m) d in
  ({| vr_entries_removed := vr_entries_removed r;
      vr_files_removed := vr_files_removed r + files;
      vr_bytes_reclaimed := vr_bytes_reclaimed r + bytes |}%N, d).

Definition vacuum (io : Io) (now : Z) : cache_op (result CacheError VacuumReport) := λ m d,
  match with_locked_manifest io (drop_expired now) m d with
  | (Err _, m, d) => (Err (Internal "cache manifest flush"), m, d)
  | (Ok expired, m, d) =>
      let '(r, d) := vacuum_files io now expired m d in (Ok r, m, d)
  end.

(** [CacheManager::new], the directory being there. *)
Definition new_manager (io : Io) (now : Z) (root : string) (d : Disk) : CacheManager * Disk :=
  let '(_, d') := clean_old_tmp io now root d in
  ({| cm_root := root; cm_manifest := read_manifest_disk io d; cm_inner := ∅ |}, d').

(** ** Cached tables *)

Record CachedTableProvider := {
  ct_inner : Provider;
  ct_name : TableName;
  ct_policy : CachePolicy
}.

(** [CachedTableProvider::wrap]: the provider itself when nothing is cached. *)
Definition wrap (inner : Provider) (name : TableName) (policy : CachePolicy) (m : CacheManager)
    : (Provider + CachedTableProvider) * CacheManager :=
  match policy with
  | PolicyNone => (inl inner, m)
  | _ => (inr {| ct_inner := inner; ct_name := name; ct_policy := policy |},
          register_inner name inner policy m)
  end.

(** The indexed elements; indexing out of range panics. *)
Definition pick {A} (xs : list A) (p : list nat) : result ScanError (list A) :=
  try_map (λ i, match xs !! i with Some x => Ok x | None => Err ScanPanic end) p.

Definition arrow_error {A} (r : result string A) : result ScanError A :=
  match r with Ok x => Ok x | Err e => Err (ScanFailed e) end.

(** One batch of [project_batches]. *)
Definition project_batch (projected_schema : list Field) (p : list nat) (b : Batch)
    : result ScanError Batch :=
  if decide (p = []) then arrow_error (try_new projected_schema [] (Some (num_rows b)))
  else
    let? cols := pick (columns b) p in
    arrow_error (try_new projected_schema cols None).

Definition project_batches (schema : list Field) (batches : list Batch)
    (projection : option (list nat)) : result ScanError (list Batch) :=
  match projection with
  | None => Ok batches
  | Some p =>
      let? projected_schema := pick schema p in
      try_map (project_batch projected_schema p) batches
  end.

(** [read_parquet_as_exec]. *)
Definition read_parquet (path : string) (projection : option (list nat)) (d : Disk)
    : result ScanError (list Batch) :=
  match dk_files d !! path with
  | None => Err (ScanFailed "No such file or directory")
  | Some f =>
      match fi_data f with
      | None => Err (ScanFailed "not a Parquet file")
      | Some (schema, batches) => project_batches schema batches projection
      end
  end.

(** The cache miss of [scan]: fetch live, write through (best effort), project. *)
Definition scan_miss (io : Io) (uuid : string) (now : Z) (t : CachedTableProvider)
    (projection : option (list nat)) (filters : list Filter) (limit : option N)
    : cache_op (result ScanError (list Batch)) := λ m d,
  match scan_live (ct_inner t) filters limit with
  | Err e => (Err (ScanFailed e), m, d)
  | Ok batches =>
      let schema := schema_of (ct_inner t) in
      let '(r, m, d) := write_through io uuid now (ct_name t) schema batches (ct_policy t) m d in
      match r with
      | Err Panicked => (Err ScanPanic, m, d)
      | _ => (project_batches schema batches projection, m, d)
      end
  end.

(** [scan]: a fresh, readable copy is served; an unreadable one is moved aside, with the
    I/O outcomes [qio] and the fresh name [quuid]. *)
Definition scan (qio : Io) (quuid : string) (io : Io) (uuid : string) (now : Z)
    (t : CachedTableProvider) (projection : option (list nat)) (filters : list Filter) (limit : option N)
    : cache_op (result ScanError (list Batch)) := λ m d,
  match fresh now m (ct_name t) with
  | Some entry =>
      match read_parquet (en_file_path entry) projection d with
      | Ok batches => (Ok batches, m, d)
      | Err ScanPanic => (Err ScanPanic, m, d)
      | Err (ScanFailed _) =>
          let '(_, m, d) := quarantine qio quuid (ct_name t) entry m d in
          scan_miss io uuid now t projection filters limit m d
      end
  | None => scan_miss io uuid now t projection filters limit m d
  end.

(** ** Snapshots: a Parquet file read directly, with no live upstream *)

Record ParquetSnapshotProvider := { ps_path : string; ps_schema : list Field }.

(** [ParquetSnapshotProvider::open]. *)
Definition snapshot_open (path : string) (d : Disk) : result string ParquetSnapshotProvider :=
  match dk_files d !! path with
  | None => Err "No such file or directory"
  | Some f =>
      match fi_data f with
      | None => Err "not a Parquet file"
      | Some (schema, _) => Ok {| ps_path := path; ps_schema := schema |}
      end
  end.

(** [ParquetSnapshotProvider::scan]: no filter and no limit is applied. *)
Definition snapshot_scan (s : ParquetSnapshotProvider) (projection : option (list nat))
    (d : Disk) : result ScanError (list Batch) :=
  read_parquet (ps_path s) projection d.
End cache.
