(* ===== verification/CacheProps.v ===== *)
(** * Properties of the cache
    Managers sharing a root merge their changes; the manifest implements a map; TTLs, reads
    through the cache, and what vacuum may remove. *)

From S2P Require Export Cache.

Lemma existsb_filter_in {A} (f : A → bool) l x : x ∈ List.filter f l ↔ x ∈ l ∧ f x = true.
Proof. by rewrite list_elem_of_In, filter_In, <-list_elem_of_In. Qed.

(** ** The changes of a manifest *)

Inductive change :=
| Upsert (entry : ManifestEntry)
| Remove (key : TableName)
| DropMaterialized (name : string)
| DropExpired (now : Z)
| Quarantine (key : TableName) (path : string).

(** What each operation's closure makes of the manifest. *)
Definition apply_change (ch : change) (mf : Manifest) : Manifest :=
  match ch with
  | Upsert entry => (upsert_entry entry mf).2
  | Remove key => (remove_first (is_entry key) mf).2
  | DropMaterialized name =>
      (remove_first (λ e, is_entry (mkTableName MATERIALIZED_SCHEMA name) e
                          && is_materialized (en_origin e)) mf).2
  | DropExpired now => (drop_expired now mf).2
  | Quarantine key path => (quarantine_entry key path mf).2
  end.

(** ** The manifest as a map *)

Definition unique_keys (mf : Manifest) : Prop := NoDup (map entry_key (mf_entries mf)).

(** The entry filed under a name. *)
Definition find_entry (mf : Manifest) (key : TableName) : option ManifestEntry :=
  List.find (is_entry key) (mf_entries mf).

(** What each change means for the entry of a name. *)
Definition spec_change (ch : change) (table : TableName → option ManifestEntry)
    : TableName → option ManifestEntry := λ k,
  match ch with
  | Upsert entry => if decide (k = entry_key entry) then Some entry else table k
  | Remove key => if decide (k = key) then None else table k
  | DropMaterialized name =>
      e ← table k;
      if bool_decide (k = mkTableName MATERIALIZED_SCHEMA name) && is_materialized (en_origin e)
      then None else Some e
  | DropExpired now => e ← table k; if survives now e then Some e else None
  | Quarantine key path =>
      e ← table k;
      if bool_decide (k = key) && bool_decide (en_file_path e = path) then None else Some e
  end.

Lemma is_entry_key key e : is_entry key e = true ↔ entry_key e = key.
Proof.
  unfold is_entry, entry_key. rewrite andb_true_iff, !bool_decide_eq_true.
  destruct key as [s t]. simpl. split; [by intros [-> ->]|by intros [= -> ->]].
Qed.

Lemma is_entry_false key e : is_entry key e = false ↔ entry_key e ≠ key.
Proof. rewrite <-is_entry_key. by destruct (is_entry key e). Qed.

Lemma find_app_list {A} (f : A → bool) l1 l2 :
  List.find f (l1 ++ l2) = match List.find f l1 with Some x => Some x | None => List.find f l2 end.
Proof. induction l1 as [|x l1 IH]; [done|]. simpl. by destruct (f x). Qed.

(** A filtered list of distinct keys, looked up. *)
Lemma find_filter (f : ManifestEntry → bool) es k :
  NoDup (map entry_key es) →
  List.find (is_entry k) (List.filter f es) =
    (e ← List.find (is_entry k) es; if f e then Some e else None).
Proof.
  induction es as [|e es IH]; [done|]. simpl. intros [Hni Hnd]%NoDup_cons.
  destruct (is_entry k e) eqn:Hk; simpl.
  - apply is_entry_key in Hk as <-.
    destruct (f e); simpl; [by rewrite (proj2 (is_entry_key _ _))|]. rewrite IH by done.
    destruct (List.find (is_entry (entry_key e)) es) as [e'|] eqn:Hf; [|done].
    apply find_some in Hf as [Hin Hk]. destruct Hni. apply is_entry_key in Hk.
    rewrite <-Hk. apply list_elem_of_In, in_map. done.
  - destruct (f e); simpl; rewrite ?Hk; by apply IH.
Qed.

Lemma filter_unique (f : ManifestEntry → bool) es :
  NoDup (map entry_key es) → NoDup (map entry_key (List.filter f es)).
Proof.
  induction es as [|e es IH]; [done|]. simpl. intros [Hni Hnd]%NoDup_cons.
  destruct (f e); simpl; [|by apply IH]. constructor; [|by apply IH].
  intros Hin. apply Hni. apply list_elem_of_In, in_map_iff in Hin as (e' & He & Hin).
  apply filter_In in Hin as [Hin _]. apply list_elem_of_In. rewrite <-He. by apply in_map.
Qed.

(** Removing the first match is filtering, when at most one entry matches. *)
Lemma take_first_filter (f : ManifestEntry → bool) key es :
  NoDup (map entry_key es) → (∀ e, f e = true → entry_key e = key) →
  (take_first f es).2 = List.filter (λ e, negb (f e)) es.
Proof.
  intros Hnd Hf. induction es as [|e es IH]; [done|]. simpl in *.
  apply NoDup_cons in Hnd as [Hni Hnd]. destruct (f e) eqn:He; simpl.
  - symmetry. clear IH. induction es as [|e' es IH]; [done|]. simpl in *.
    apply NoDup_cons in Hnd as [Hni' Hnd]. rewrite not_elem_of_cons in Hni.
    destruct Hni as [Hne Hni]. destruct (f e') eqn:He'; simpl.
    { exfalso. apply Hne. by rewrite (Hf e He), (Hf e' He'). }
    f_equal. by apply IH.
  - rewrite <-IH by done. by destruct (take_first f es).
Qed.

Lemma remove_first_entries f mf : mf_entries (remove_first f mf).2 = (take_first f (mf_entries mf)).2.
Proof. unfold remove_first. by destruct (take_first f (mf_entries mf)). Qed.

(** Every removal is a filter. *)
Definition keeps (ch : change) (e : ManifestEntry) : bool :=
  match ch with
  | Upsert entry => negb (is_entry (entry_key entry) e)
  | Remove key => negb (is_entry key e)
  | DropMaterialized name =>
      negb (is_entry (mkTableName MATERIALIZED_SCHEMA name) e && is_materialized (en_origin e))
  | DropExpired now => survives now e
  | Quarantine key path => negb (is_entry key e && bool_decide (en_file_path e = path))
  end.

Lemma apply_change_entries ch mf :
  unique_keys mf →
  mf_entries (apply_change ch mf) =
    List.filter (keeps ch) (mf_entries mf) ++ match ch with Upsert e => [e] | _ => [] end.
Proof.
  intros Hu. destruct ch as [entry|key|name|now|key path]; simpl.
  - done.
  - rewrite remove_first_entries, app_nil_r. apply (take_first_filter _ key); [done|].
    intros e. apply is_entry_key.
  - rewrite remove_first_entries, app_nil_r.
    apply (take_first_filter _ (mkTableName MATERIALIZED_SCHEMA name)); [done|].
    intros e [He _]%andb_true_iff. by apply is_entry_key.
  - by rewrite app_nil_r.
  - by rewrite app_nil_r.
Qed.

Lemma change_refines ch mf :
  unique_keys mf →
  unique_keys (apply_change ch mf) ∧
  ∀ k, find_entry (apply_change ch mf) k = spec_change ch (find_entry mf) k.
Proof.
  intros Hu. unfold unique_keys, find_entry. rewrite apply_change_entries by done. split.
  - destruct ch as [entry| | | |]; rewrite ?app_nil_r; try by apply filter_unique.
    rewrite map_app. apply NoDup_app. split_and!; [by apply filter_unique| |apply NoDup_singleton].
    intros k Hk ->%list_elem_of_singleton. apply list_elem_of_In, in_map_iff in Hk as (e & He & Hin).
    apply filter_In in Hin as [_ Hin]. unfold keeps in Hin.
    apply negb_true_iff, is_entry_false in Hin. done.
  - intros k. rewrite find_app_list, find_filter by done.
    destruct (List.find (is_entry k) (mf_entries mf)) as [e|] eqn:Hf; simpl.
    + assert (entry_key e = k) as Hk by (apply find_some in Hf as [_ ?]; by apply is_entry_key).
      assert (∀ key, is_entry key e = bool_decide (k = key)) as Hie.
      { intros key. destruct (is_entry key e) eqn:Hie; symmetry.
        - apply bool_decide_eq_true. apply is_entry_key in Hie. congruence.
        - apply bool_decide_eq_false. apply is_entry_false in Hie. congruence. }
      destruct ch as [entry|key|name|now|key path]; simpl; rewrite ?Hf; simpl; rewrite ?Hie; simpl.
      * case_bool_decide as Hd; simpl.
        -- rewrite (proj2 (is_entry_key k entry)) by done. by rewrite decide_True.
        -- by rewrite decide_False.
      * case_bool_decide as Hd; simpl; [by rewrite decide_True by done|by rewrite decide_False by done].
      * by destruct (bool_decide _ && _).
      * by destruct (survives now e).
      * by destruct (bool_decide _ && _).
    + destruct ch as [entry|key|name|now|key path]; simpl; rewrite ?Hf; try done.
      * destruct (is_entry k entry) eqn:Hk.
        -- apply is_entry_key in Hk as <-. by rewrite decide_True.
        -- apply is_entry_false in Hk. by rewrite decide_False.
      * by case_decide.
Qed.

(** C13: The manifest implements a map from table names to entries: every change - a
    create-or-replace, an invalidation, a drop of a materialized table, vacuum's expiry, a
    quarantine - keeps at most one entry per name, and changes the entry found under each
    name exactly as the map operation says, leaving every other name alone. *)
Theorem manifest_refines_map ch mf :
  unique_keys mf →
  unique_keys (apply_change ch mf) ∧
  ∀ k, find_entry (apply_change ch mf) k = spec_change ch (find_entry mf) k.
Proof. apply change_refines. Qed.

(** ** Managers sharing a disk *)

(** The manifest the disk holds. *)
Definition stored {Field Batch} (d : @Disk Field Batch) : Manifest :=
  default Manifest_empty (dk_manifest d).

Lemma read_manifest_stored {Field Batch} io (d : @Disk Field Batch) :
  io_read io = true → read_manifest_disk io d = stored d.
Proof. unfold read_manifest_disk. by intros ->. Qed.

(** A change that went through, and whether it could read the manifest it changes. *)
Record commit := { co_read : bool; co_change : change }.

Definition apply_commit (c : commit) (mf : Manifest) : Manifest :=
  apply_change (co_change c) (if co_read c then mf else Manifest_empty).

(** On the map: the change, of the map as it was or of the empty one. *)
Definition spec_commit (c : commit) (table : TableName → option ManifestEntry)
    : TableName → option ManifestEntry :=
  spec_change (co_change c) (if co_read c then table else λ _, None).

Lemma commit_refines c mf :
  unique_keys mf →
  unique_keys (apply_commit c mf) ∧
  ∀ k, find_entry (apply_commit c mf) k = spec_commit c (find_entry mf) k.
Proof.
  intros Hu. unfold apply_commit, spec_commit. destruct (co_read c).
  - by apply change_refines.
  - apply (change_refines (co_change c) Manifest_empty). constructor.
Qed.

Section world.
Context {Field Column Batch Provider Filter : Type}
  (num_rows : Batch → N)
  (columns : Batch → list Column)
  (try_new : list Field → list Column → option N → result string Batch)
  (parquet_len : list Field → list Batch → N)
  (parquet_read : list Field → list Batch → list Batch)
  (schema_of : Provider → list Field)
  (scan_live : Provider → list Filter → option N → result string (list Batch))
  (chrono : Chrono).

Abbreviation Disk := (@Disk Field Batch).
Abbreviation scan := (scan num_rows columns try_new parquet_len parquet_read schema_of scan_live chrono).
Abbreviation scan_miss :=
  (scan_miss num_rows columns try_new parquet_len parquet_read schema_of scan_live chrono).
Abbreviation materialize := (materialize num_rows parquet_len parquet_read).
Abbreviation write_through := (write_through num_rows parquet_len parquet_read chrono).
Abbreviation refresh := (refresh num_rows parquet_len parquet_read schema_of scan_live chrono).
Abbreviation CacheManager := (@CacheManager Provider).

(** The requests a manager serves. *)
Inductive request :=
| ReqInvalidate (key : TableName)
| ReqDropMaterialized (name : string)
| ReqQuarantine (key : TableName) (entry : ManifestEntry)
| ReqVacuum
| ReqMaterialize (name : string) (schema : list Field) (batches : list Batch) (spec : MaterializeSpec)
| ReqRefresh (key : TableName)
| ReqScan (qio : Io) (quuid : string) (t : @CachedTableProvider Provider) (projection : option (list nat))
    (filters : list Filter) (limit : option N).

Record event := {
  ev_manager : nat; ev_io : Io; ev_uuid : string; ev_now : Z; ev_request : request
}.

Definition serve (ev : event) (m : CacheManager) (d : Disk) : CacheManager * Disk :=
  let io := ev_io ev in
  let uuid := ev_uuid ev in
  let now := ev_now ev in
  match ev_request ev with
  | ReqInvalidate key => let '(_, m, d) := invalidate io key m d in (m, d)
  | ReqDropMaterialized name => let '(_, m, d) := drop_materialized io name m d in (m, d)
  | ReqQuarantine key entry => let '(_, m, d) := quarantine io uuid key entry m d in (m, d)
  | ReqVacuum => let '(_, m, d) := vacuum io now m d in (m, d)
  | ReqMaterialize name schema batches spec =>
      let '(_, m, d) := materialize io uuid now name schema batches spec m d in (m, d)
  | ReqRefresh key =>
      let '(_, m, d) := refresh io uuid now key m d in (m, d)
  | ReqScan qio quuid t projection filters limit =>
      let '(_, m, d) := scan qio quuid io uuid now t projection filters limit m d in (m, d)
  end.

(** ** The changes a request commits *)

(** A change goes through when the lock and the manifest write work ... *)
Definition committed (io : Io) (ch : change) : list commit :=
  if io_lock io && io_manifest io then [{| co_read := io_read io; co_change := ch |}] else [].

(** ... and, for a new file, its write. *)
Definition written (io : Io) (entry : ManifestEntry) : list commit :=
  if io_create io && io_data io && io_rename io then committed io (Upsert entry) else [].

Definition cached_entry (now : Z) (root : string) (key : TableName) (schema : list Field)
    (batches : list Batch) (expires_at : option Z) : ManifestEntry :=
  new_entry num_rows (tn_schema key) (tn_table key) (data_path root (tn_schema key) (tn_table key))
    now expires_at batches (parquet_len schema batches) CacheCopy.

Definition write_changes (io : Io) (now : Z) (root : string) (key : TableName)
    (schema : list Field) (batches : list Batch) (policy : CachePolicy) : list commit :=
  match ttl_expiry chrono policy now with
  | Ok expires_at => written io (cached_entry now root key schema batches expires_at)
  | Err _ => []
  end.

Definition fetch_changes (io : Io) (now : Z) (root : string) (key : TableName) (p : Provider)
    (policy : CachePolicy) (filters : list Filter) (limit : option N) : list commit :=
  match scan_live p filters limit with
  | Ok batches => write_changes io now root key (schema_of p) batches policy
  | Err _ => []
  end.

Definition changes_of (ev : event) (m : CacheManager) (d : Disk) : list commit :=
  let io := ev_io ev in
  let now := ev_now ev in
  match ev_request ev with
  | ReqInvalidate key => committed io (Remove key)
  | ReqDropMaterialized name => committed io (DropMaterialized name)
  | ReqQuarantine key entry => committed io (Quarantine key (en_file_path entry))
  | ReqVacuum => committed io (DropExpired now)
  | ReqMaterialize name schema batches spec =>
      written io (new_entry num_rows MATERIALIZED_SCHEMA name
                    (data_path (cm_root m) MATERIALIZED_SCHEMA name) now None batches
                    (parquet_len schema batches) (Materialized spec))
  | ReqRefresh key =>
      match cm_inner m !! key with
      | Some reg =>
          fetch_changes io now (cm_root m) key (ri_provider reg) (ri_policy reg) [] None
      | None => []
      end
  | ReqScan qio _ t projection filters limit =>
      let fetch := fetch_changes io now (cm_root m) (ct_name t) (ct_inner t) (ct_policy t) filters limit in
      match fresh now m (ct_name t) with
      | Some entry =>
          match read_parquet num_rows columns try_new (en_file_path entry) projection d with
          | Err (ScanFailed _) =>
              committed qio (Quarantine (ct_name t) (en_file_path entry)) ++ fetch
          | _ => []
          end
      | None => fetch
      end
  end.

(** The changes made between two states of a manager and the disk: the manifest on disk
    is their result, and a manager that changed it has that manifest as its copy. *)
Record commits (chs : list commit) (m : CacheManager) (d : Disk) (m' : CacheManager)
    (d' : Disk) : Prop := {
  cs_disk : stored d' = foldl (flip apply_commit) (stored d) chs;
  cs_copy : if decide (chs = []) then cm_manifest m' = cm_manifest m
            else cm_manifest m' = stored d';
  cs_root : cm_root m' = cm_root m;
  cs_inner : cm_inner m' = cm_inner m
}.

Lemma commits_nil m d d' :
  dk_manifest d' = dk_manifest d → commits [] m d m d'.
Proof. intros H. split; try done. unfold stored. simpl. by rewrite H. Qed.

Lemma commits_app chs1 chs2 m0 d0 m1 d1 m2 d2 :
  commits chs1 m0 d0 m1 d1 → commits chs2 m1 d1 m2 d2 → commits (chs1 ++ chs2) m0 d0 m2 d2.
Proof.
  intros [H1 C1 R1 I1] [H2 C2 R2 I2]. split; [by rewrite foldl_app, <-H1| |congruence..].
  destruct chs2 as [|c chs2]; simpl in *.
  - rewrite app_nil_r. destruct (decide (chs1 = [])); congruence.
  - rewrite decide_False; [done|]. by destruct chs1.
Qed.

(** Changing files only. *)
Lemma commits_files chs m d m' d' d'' :
  commits chs m d m' d' → dk_manifest d'' = dk_manifest d' → commits chs m d m' d''.
Proof.
  intros H Hd. rewrite <-(app_nil_r chs). eapply commits_app; [done|]. by apply commits_nil.
Qed.

Lemma with_locked_cases {T} io (f : Manifest → T * Manifest) (m : CacheManager) (d : Disk) r m' d' :
  with_locked_manifest io f m d = (r, m', d') →
  (∃ out mf, f (read_manifest_disk io d) = (out, mf) ∧ r = Ok out ∧ m' = with_manifest m mf ∧
     d' = {| dk_manifest := Some mf; dk_files := dk_files d |}) ∨
  (r = Err () ∧ m' = m ∧ d' = d).
Proof.
  unfold with_locked_manifest, write_manifest_disk.
  destruct (io_lock io); simpl; [|intros [= <- <- <-]; by right].
  destruct (f (read_manifest_disk io d)) as [out mf] eqn:Hf.
  destruct (io_manifest io); intros [= <- <- <-]; [left|by right]. by exists out, mf.
Qed.

Lemma with_locked_commits {T} io (f : Manifest → T * Manifest) ch (m : CacheManager) (d : Disk)
    r m' d' :
  (∀ mf, (f mf).2 = apply_change ch mf) → with_locked_manifest io f m d = (r, m', d') →
  commits (committed io ch) m d m' d'.
Proof.
  unfold with_locked_manifest, write_manifest_disk, committed. intros Hf.
  destruct (io_lock io); simpl; [|intros [= <- <- <-]; by apply commits_nil].
  specialize (Hf (read_manifest_disk io d)). destruct (f (read_manifest_disk io d)) as [out mf].
  destruct (io_manifest io); intros [= <- <- <-]; [|by apply commits_nil].
  simpl in Hf. subst. by split.
Qed.

Lemma atomic_write_manifest io uuid now root path schema batches (d : Disk) r d' :
  atomic_write_parquet parquet_len parquet_read io uuid now root path schema batches d = (r, d') →
  dk_manifest d' = dk_manifest d.
Proof.
  unfold atomic_write_parquet. destruct (io_create io), (io_data io), (io_rename io); simpl;
    by intros [= <- <-].
Qed.

Lemma remove_file_manifest io path (d : Disk) :
  dk_manifest (remove_file io path d) = dk_manifest d.
Proof. unfold remove_file. by destruct (io_remove io path). Qed.

Lemma drop_file_commits io removed chs m d (m1 : CacheManager) (d1 : Disk) r m' d' :
  commits chs m d m1 d1 → drop_file io removed m1 d1 = (r, m', d') → commits chs m d m' d'.
Proof.
  intros Hc. unfold drop_file. destruct removed as [[e|]|]; intros [= <- <- <-]; try done.
  eapply commits_files; [done|]. apply remove_file_manifest.
Qed.

(** The tail shared by [write_through] and [materialize]. *)
Lemma write_commits io uuid now root path schema batches entry (m : CacheManager) (d : Disk) r m' d' :
  match atomic_write_parquet parquet_len parquet_read io uuid now root path schema batches d with
  | (Err e, d) => (Err e, m, d)
  | (Ok size, d) => let '(r, m, d) := upsert io entry m d in (rmap (λ _, entry) r, m, d)
  end = (r, m', d') →
  commits (written io entry) m d m' d'.
Proof.
  destruct (atomic_write_parquet _ _ _ _ _ _ _ _ _ _) as [w d1] eqn:Hw.
  apply atomic_write_manifest in Hw as Hman. unfold atomic_write_parquet in Hw. unfold written.
  destruct (io_create io), (io_data io), (io_rename io); simpl in *; injection Hw as <- <-;
    try by intros [= <- <- <-]; apply commits_nil.
  destruct (upsert _ _ _ _) as [[r1 m1] d2] eqn:Hu. intros [= <- <- <-].
  apply (with_locked_commits _ _ (Upsert entry)) in Hu; [|done].
  eapply (commits_app []); [by apply commits_nil|exact Hu].
Qed.

Lemma write_through_commits io uuid now key schema batches policy (m : CacheManager) (d : Disk) r m' d' :
  write_through io uuid now key schema batches policy m d = (r, m', d') →
  commits (write_changes io now (cm_root m) key schema batches policy) m d m' d'.
Proof.
  unfold Cache.write_through, write_changes. intros H.
  destruct (atomic_write_parquet _ _ _ _ _ _ _ _ _ _) as [w d1] eqn:Hw.
  pose proof (atomic_write_manifest _ _ _ _ _ _ _ _ _ _ Hw) as Hman.
  destruct (ttl_expiry chrono policy now) as [exp|e].
  - unfold atomic_write_parquet in Hw. unfold written.
    destruct (io_create io), (io_data io), (io_rename io); simpl in *; simplify_eq/=;
      try by apply commits_nil.
    destruct (upsert _ _ _ _) as [[r1 m1] d2] eqn:Hu in H. injection H as _ <- <-.
    apply (with_locked_commits _ _ (Upsert (cached_entry now (cm_root m) key schema batches exp)))
      in Hu; [|done].
    match type of Hu with commits _ _ ?d1 _ _ =>
      pose proof (commits_app _ _ _ _ _ _ _ _ (commits_nil m d d1 eq_refl) Hu) as Hc end.
    exact Hc.
  - destruct w; injection H as _ <- <-; by apply commits_nil.
Qed.

Lemma materialize_commits io uuid now name schema batches spec (m : CacheManager) (d : Disk) r m' d' :
  materialize io uuid now name schema batches spec m d = (r, m', d') →
  commits (written io (new_entry num_rows MATERIALIZED_SCHEMA name
    (data_path (cm_root m) MATERIALIZED_SCHEMA name) now None batches
    (parquet_len schema batches) (Materialized spec))) m d m' d'.
Proof.
  intros H. eapply (write_commits io uuid now (cm_root m)). rewrite <-H.
  unfold Cache.materialize, atomic_write_parquet.
  by destruct (io_create io), (io_data io), (io_rename io).
Qed.

Lemma quarantine_commits io uuid key entry (m : CacheManager) (d : Disk) u m' d' :
  quarantine io uuid key entry m d = (u, m', d') →
  commits (committed io (Quarantine key (en_file_path entry))) m d m' d'.
Proof.
  unfold quarantine. destruct (with_locked_manifest _ _ _ _) as [[r1 m1] d1] eqn:Hl.
  apply (with_locked_commits _ _ (Quarantine key (en_file_path entry))) in Hl; [|done].
  destruct (dk_files d1 !! _); [|by intros [= <- <- <-]].
  destruct (file_name _); [destruct (io_rename io)|]; intros [= <- <- <-];
    (eapply commits_files; [exact Hl|]); by rewrite ?remove_file_manifest.
Qed.

Lemma reclaim_manifest io path acc :
  dk_manifest (reclaim (Field := Field) (Batch := Batch) io path acc).2 = dk_manifest acc.2.
Proof. destruct acc as [r d]. apply remove_file_manifest. Qed.

Lemma foldl_manifest {A} (f : VacuumReport * Disk → A → VacuumReport * Disk) l acc :
  (∀ acc x, dk_manifest (f acc x).2 = dk_manifest acc.2) →
  dk_manifest (foldl f acc l).2 = dk_manifest acc.2.
Proof.
  intros Hf. revert acc. induction l as [|x l IH]; intros acc; simpl; [done|]. by rewrite IH, Hf.
Qed.

Lemma clean_old_tmp_manifest io now root (d : Disk) :
  dk_manifest (clean_old_tmp io now root d).2 = dk_manifest d.
Proof.
  unfold clean_old_tmp. generalize (0, 0)%N as n. generalize (elements (dom (dk_files d))) as ps.
  intros ps. revert d. induction ps as [|p ps IH]; intros d n; simpl; [done|].
  destruct n as [fi by_]. destruct (dk_files d !! p) as [f|]; [|by rewrite IH].
  destruct (is_old_tmp _ _ _ _ && _); rewrite IH; [by rewrite remove_file_manifest|done].
Qed.

Lemma vacuum_files_manifest io now expired (m : CacheManager) (d : Disk) :
  dk_manifest (vacuum_files io now expired m d).2 = dk_manifest d.
Proof.
  unfold vacuum_files.
  destruct (reclaim_orphans io m _) as [r d1] eqn:Ho.
  destruct (clean_old_tmp io now (cm_root m) d1) as [[fi by_] d2] eqn:Hc. simpl.
  assert (dk_manifest d2 = dk_manifest d1) as ->.
  { pose proof (clean_old_tmp_manifest io now (cm_root m) d1) as H. by rewrite Hc in H. }
  assert (d1 = (reclaim_orphans io m (foldl (reclaim_entry io) (VacuumReport_default, d) expired)).2)
    as -> by by rewrite Ho.
  unfold reclaim_orphans. rewrite foldl_manifest.
  - apply (foldl_manifest _ expired (VacuumReport_default, d)). intros acc x. unfold reclaim_entry.
    destruct (reclaim io (en_file_path x) acc) as [r1 d3] eqn:Hr. simpl.
    pose proof (reclaim_manifest io (en_file_path x) acc) as H. by rewrite Hr in H.
  - intros acc x. case_bool_decide; [done|]. apply reclaim_manifest.
Qed.

Lemma refresh_commits io uuid now key (m : CacheManager) (d : Disk) r m' d' :
  refresh io uuid now key m d = (r, m', d') →
  commits (match cm_inner m !! key with
           | Some reg => fetch_changes io now (cm_root m) key (ri_provider reg) (ri_policy reg) [] None
           | None => []
           end) m d m' d'.
Proof.
  unfold Cache.refresh, fetch_changes.
  destruct (cm_inner m !! key) as [reg|]; [|intros [= <- <- <-]; by apply commits_nil].
  destruct (scan_live _ _ _) as [batches|e]; [|intros [= <- <- <-]; by apply commits_nil].
  destruct (write_through _ _ _ _ _ _ _ _ _) as [[r1 m1] d1] eqn:Hw.
  apply write_through_commits in Hw. by destruct r1 as [|[]]; intros [= <- <- <-].
Qed.

Lemma scan_miss_commits io uuid now t pr fs li (m : CacheManager) (d : Disk) r m' d' :
  scan_miss io uuid now t pr fs li m d = (r, m', d') →
  commits (fetch_changes io now (cm_root m) (ct_name t) (ct_inner t) (ct_policy t) fs li) m d m' d'.
Proof.
  unfold Cache.scan_miss, fetch_changes.
  destruct (scan_live _ _ _) as [batches|e]; [|intros [= <- <- <-]; by apply commits_nil].
  destruct (write_through _ _ _ _ _ _ _ _ _) as [[r1 m1] d1] eqn:Hw.
  apply write_through_commits in Hw. by destruct r1 as [|[]]; intros [= <- <- <-].
Qed.

Lemma drop_commits {T} io (f : Manifest → T * Manifest) (g : T → option ManifestEntry) ch
    (m : CacheManager) (d : Disk) r m' d' :
  (∀ mf, (f mf).2 = apply_change ch mf) →
  (let '(removed, m1, d1) := with_locked_manifest io f m d in
   drop_file io (rmap g removed) m1 d1) = (r, m', d') →
  commits (committed io ch) m d m' d'.
Proof.
  intros Hf. destruct (with_locked_manifest _ _ _ _) as [[r1 m1] d1] eqn:Hl.
  apply (with_locked_commits _ _ ch) in Hl; [|done]. by apply drop_file_commits.
Qed.

Lemma rmap_id {E A} (r : result E A) : rmap (λ x, x) r = r.
Proof. by destruct r. Qed.

Lemma vacuum_commits io now (m : CacheManager) (d : Disk) r m' d' :
  vacuum io now m d = (r, m', d') → commits (committed io (DropExpired now)) m d m' d'.
Proof.
  unfold vacuum. destruct (with_locked_manifest _ _ _ _) as [[r1 m1] d1] eqn:Hl.
  apply (with_locked_commits _ _ (DropExpired now)) in Hl; [|done].
  destruct r1 as [expired|e]; [|by intros [= <- <- <-]].
  destruct (vacuum_files _ _ _ _ _) as [rep d2] eqn:Hv. intros [= <- <- <-].
  eapply commits_files; [done|].
  pose proof (vacuum_files_manifest io now expired m1 d1) as Hm. by rewrite Hv in Hm.
Qed.

(** Each request commits exactly its changes. *)
Lemma serve_commits ev m d :
  commits (changes_of ev m d) m d (serve ev m d).1 (serve ev m d).2.
Proof.
  unfold serve, changes_of.
  destruct (ev_request ev) as [key|name|key entry| |name sch bs spec|key|qio quuid t pr fs li].
  - destruct (invalidate _ _ _ _) as [[r m'] d'] eqn:H. unfold invalidate in H.
    eapply (drop_commits _ (remove_first (is_entry key)) (λ x, x)); [done|].
    destruct (with_locked_manifest _ _ _ _) as [[r1 m1] d1]. by rewrite rmap_id.
  - destruct (drop_materialized _ _ _ _) as [[r m'] d'] eqn:H. unfold drop_materialized in H.
    eapply (drop_commits _ (remove_first (λ e, is_entry (mkTableName MATERIALIZED_SCHEMA name) e
      && is_materialized (en_origin e))) (λ x, x)); [done|].
    destruct (with_locked_manifest _ _ _ _) as [[r1 m1] d1]. by rewrite rmap_id.
  - destruct (quarantine _ _ _ _ _ _) as [[r m'] d'] eqn:H. by apply quarantine_commits in H.
  - destruct (vacuum _ _ _ _) as [[r m'] d'] eqn:H. by apply vacuum_commits in H.
  - destruct (materialize _ _ _ _ _ _ _ _ _) as [[r m'] d'] eqn:H. by apply materialize_commits in H.
  - destruct (refresh _ _ _ _ _ _) as [[r m'] d'] eqn:H. by apply refresh_commits in H.
  - destruct (scan _ _ _ _ _ _ _ _ _ _ _) as [[r m'] d'] eqn:H. unfold Cache.scan in H.
    destruct (fresh (ev_now ev) m (ct_name t)) as [entry|]; [|by apply scan_miss_commits in H].
    destruct (read_parquet _ _ _ _ _ _) as [bs|[e|]];
      [injection H as <- <- <-; by apply commits_nil| |injection H as <- <- <-; by apply commits_nil].
    destruct (quarantine _ _ _ _ _ _) as [[u m1] d1] eqn:Hq. apply quarantine_commits in Hq.
    apply scan_miss_commits in H. rewrite (cs_root _ _ _ _ _ Hq) in H. by eapply commits_app.
Qed.

(** Several managers (processes, or threads of one) on one disk. *)
Record World := { w_managers : gmap nat CacheManager; w_disk : Disk }.

Definition step (w : World) (ev : event) : World :=
  match w_managers w !! ev_manager ev with
  | None => w
  | Some m => let '(m, d) := serve ev m (w_disk w) in
              {| w_managers := <[ev_manager ev := m]> (w_managers w); w_disk := d |}
  end.

Definition run (w : World) (trace : list event) : World := foldl step w trace.

(** The changes of a whole run, in order. *)
Fixpoint history (w : World) (trace : list event) : list commit :=
  match trace with
  | [] => []
  | ev :: trace =>
      match w_managers w !! ev_manager ev with
      | Some m => changes_of ev m (w_disk w)
      | None => []
      end ++ history (step w ev) trace
  end.

Lemma run_history w trace :
  stored (w_disk (run w trace))
  = foldl (flip apply_commit) (stored (w_disk w)) (history w trace).
Proof.
  revert w. induction trace as [|ev trace IH]; intros w; [done|]. simpl.
  rewrite foldl_app. unfold run in *. simpl. rewrite IH. f_equal. unfold step.
  destruct (w_managers w !! ev_manager ev) as [m|]; [|done].
  destruct (serve_commits ev m (w_disk w)) as [Hd _ _ _].
  by destruct (serve ev m (w_disk w)) as [m' d'].
Qed.

Lemma spec_commit_ext c (t1 t2 : TableName → option ManifestEntry) :
  (∀ k, t1 k = t2 k) → ∀ k, spec_commit c t1 k = spec_commit c t2 k.
Proof.
  intros Ht k. unfold spec_commit, spec_change. destruct (co_read c), (co_change c); by rewrite ?Ht.
Qed.

Lemma spec_commits_ext chs (t1 t2 : TableName → option ManifestEntry) :
  (∀ k, t1 k = t2 k) →
  ∀ k, foldl (flip spec_commit) t1 chs k = foldl (flip spec_commit) t2 chs k.
Proof.
  revert t1 t2. induction chs as [|c chs IH]; intros t1 t2 Ht k; simpl; [done|].
  apply IH. intros k'. by apply spec_commit_ext.
Qed.

Lemma changes_refine chs mf :
  unique_keys mf →
  unique_keys (foldl (flip apply_commit) mf chs) ∧
  ∀ k, find_entry (foldl (flip apply_commit) mf chs) k
       = foldl (flip spec_commit) (find_entry mf) chs k.
Proof.
  revert mf. induction chs as [|ch chs IH]; intros mf Hu; [done|]. simpl.
  destruct (commit_refines ch mf Hu) as [Hu1 Hf1]. destruct (IH _ Hu1) as [Hu2 Hf2].
  split; [done|]. intros k. rewrite Hf2. by apply spec_commits_ext.
Qed.

(** Commits that could all read the manifest are their changes. *)
Lemma spec_commits_read chs (table : TableName → option ManifestEntry) :
  Forall (λ c, co_read c = true) chs →
  foldl (flip spec_commit) table chs = foldl (flip spec_change) table (map co_change chs).
Proof.
  revert table. induction chs as [|c chs IH]; intros table; [done|].
  intros [Hc Hchs]%Forall_cons. simpl. rewrite IH by done. f_equal.
  unfold flip, spec_commit. by rewrite Hc.
Qed.

(** C4: Managers sharing a cache merge their changes: whatever requests any number of
    managers serve, in any order and with any of their I/O calls failing, the manifest on
    disk never holds two entries of one name and is, as a map, the initial one with the
    changes those requests commit applied in order, a change whose read of the manifest
    fails being applied to an empty one. So a manager's stale copy clobbers nothing and a
    failed lock or write commits nothing; when every commit could read the manifest the
    result is exactly that of the changes in order. *)
Theorem managers_merge w trace :
  unique_keys (stored (w_disk w)) →
  unique_keys (stored (w_disk (run w trace))) ∧
  (∀ k, find_entry (stored (w_disk (run w trace))) k
        = foldl (flip spec_commit) (find_entry (stored (w_disk w))) (history w trace) k) ∧
  (Forall (λ c, co_read c = true) (history w trace) →
   ∀ k, find_entry (stored (w_disk (run w trace))) k
        = foldl (flip spec_change) (find_entry (stored (w_disk w)))
            (map co_change (history w trace)) k).
Proof.
  intros Hu. rewrite run_history. destruct (changes_refine (history w trace) _ Hu) as [Hu' Hf].
  split_and!; [done..|]. intros Hr k. by rewrite Hf, spec_commits_read.
Qed.

(** The requests that name a table. *)
Definition names_table (key : TableName) (ev : event) : Prop :=
  match ev_request ev with
  | ReqInvalidate k | ReqQuarantine k _ | ReqRefresh k => k = key
  | ReqDropMaterialized name | ReqMaterialize name _ _ _ => key = mkTableName MATERIALIZED_SCHEMA name
  | ReqScan _ _ t _ _ _ => ct_name t = key
  | ReqVacuum => False
  end.

(** The name a change concerns, if it is one. *)
Definition change_names (key : TableName) (ch : change) : Prop :=
  match ch with
  | Upsert e => entry_key e = key
  | Remove k | Quarantine k _ => k = key
  | DropMaterialized name => mkTableName MATERIALIZED_SCHEMA name = key
  | DropExpired _ => False
  end.

Lemma elem_of_committed io c ch :
  c ∈ committed io ch → co_change c = ch ∧ co_read c = io_read io.
Proof.
  unfold committed. destruct (_ && _); [by intros ->%list_elem_of_singleton|by intros ?%elem_of_nil].
Qed.

Lemma elem_of_written io c e :
  c ∈ written io e → co_change c = Upsert e ∧ co_read c = io_read io.
Proof. unfold written. destruct (_ && _ && _); [apply elem_of_committed|by intros ?%elem_of_nil]. Qed.

Lemma elem_of_fetch io now root key p policy fs li c :
  c ∈ fetch_changes io now root key p policy fs li →
  (∃ e, co_change c = Upsert e ∧ entry_key e = key) ∧ co_read c = io_read io.
Proof.
  unfold fetch_changes, write_changes. destruct (scan_live _ _ _); [|by intros ?%elem_of_nil].
  destruct (ttl_expiry _ _ _); [|by intros ?%elem_of_nil].
  intros [-> ->]%elem_of_written. split; [|done]. eexists. split; [done|]. by destruct key.
Qed.

(** Every read of the manifest that a request's changes rest on succeeds. *)
Definition reads_manifest (ev : event) : Prop :=
  io_read (ev_io ev) = true ∧
  match ev_request ev with ReqScan qio _ _ _ _ _ => io_read qio = true | _ => True end.

Lemma changes_of_spec key ev m d c :
  c ∈ changes_of ev m d →
  (change_names key (co_change c) → names_table key ev) ∧
  (reads_manifest ev → co_read c = true).
Proof.
  unfold changes_of, names_table, reads_manifest. intros Hch.
  destruct (ev_request ev) as [k|name|k en| |name sch bs spec|k|qio quuid t pr fs li].
  - by apply elem_of_committed in Hch as [-> ->]; split; [|intros []].
  - by apply elem_of_committed in Hch as [-> ->]; split; [|intros []].
  - by apply elem_of_committed in Hch as [-> ->]; split; [|intros []].
  - by apply elem_of_committed in Hch as [-> ->]; split; [|intros []].
  - by apply elem_of_written in Hch as [-> ->]; split; [|intros []].
  - destruct (cm_inner m !! k); [|by apply elem_of_nil in Hch].
    apply elem_of_fetch in Hch as [(e & -> & <-) ->]; split; [done|by intros []].
  - destruct (fresh _ _ _);
      [|by apply elem_of_fetch in Hch as [(e & -> & <-) ->]; split; [|intros []]].
    destruct (read_parquet _ _ _ _ _ _) as [|[]];
      [by apply elem_of_nil in Hch| |by apply elem_of_nil in Hch].
    apply elem_of_app in Hch as [[-> ->]%elem_of_committed|[(e & -> & <-) ->]%elem_of_fetch];
      split; first [done|by intros []].
Qed.

Lemma spec_change_other key ch (table : TableName → option ManifestEntry) e :
  ¬ change_names key ch → table key = Some e → is_materialized (en_origin e) = true →
  spec_change ch table key = Some e.
Proof.
  intros Hn Ht He. destruct ch as [en|k|name|now|k p]; simpl in *; rewrite ?Ht; simpl.
  - by rewrite decide_False by congruence.
  - by rewrite decide_False by congruence.
  - by rewrite bool_decide_eq_false_2 by congruence.
  - unfold survives. by rewrite He.
  - by rewrite bool_decide_eq_false_2 by congruence.
Qed.

Lemma history_other key w trace c :
  Forall (λ ev, ¬ names_table key ev ∧ reads_manifest ev) trace →
  c ∈ history w trace → ¬ change_names key (co_change c) ∧ co_read c = true.
Proof.
  revert w. induction trace as [|ev trace IH]; intros w; simpl; [by intros _ ?%elem_of_nil|].
  intros [[Hev Hr] Hall]%Forall_cons [Hch|Hch]%elem_of_app; [|by eapply IH].
  destruct (w_managers w !! ev_manager ev); [|by apply elem_of_nil in Hch].
  destruct (changes_of_spec key _ _ _ _ Hch) as [H1 H2]. split; [|by apply H2]. auto.
Qed.

(** C14: Materialized tables are pinned: the manifest entry of a materialized table survives
    every sequence of requests by any managers - vacuums at any time and failed locks and
    writes included - as long as none of them names that table and none fails to read the
    manifest it rewrites. *)
Theorem materialized_pinned w trace key e :
  unique_keys (stored (w_disk w)) →
  find_entry (stored (w_disk w)) key = Some e →
  is_materialized (en_origin e) = true →
  Forall (λ ev, ¬ names_table key ev ∧ reads_manifest ev) trace →
  find_entry (stored (w_disk (run w trace))) key = Some e.
Proof.
  intros Hu He Hm Hall. rewrite run_history, (proj2 (changes_refine _ _ Hu)).
  pose proof (history_other key w trace) as Hh.
  revert Hh He. generalize (find_entry (stored (w_disk w))) as table.
  generalize (history w trace) as chs. induction chs as [|c chs IH]; intros table Hh Ht; [done|].
  simpl. apply IH; [intros c' _ Hch; apply Hh; [done|by right]|].
  destruct (Hh c Hall) as [Hn Hr]; [by left|]. unfold flip, spec_commit. rewrite Hr.
  by apply spec_change_other.
Qed.

(** A request that cannot read the manifest loses every entry but its own. *)
Lemma unread_manifest_lost w trace key :
  unique_keys (stored (w_disk w)) →
  (∃ c, last (history w trace) = Some c ∧ co_read c = false ∧ ¬ change_names key (co_change c)) →
  find_entry (stored (w_disk (run w trace))) key = None.
Proof.
  intros Hu (c & Hl & Hr & Hn). rewrite run_history, (proj2 (changes_refine _ _ Hu)).
  apply last_Some in Hl as [chs ->]. rewrite foldl_app. simpl. unfold flip, spec_commit. rewrite Hr.
  destruct (co_change c); simpl in *; try done; by rewrite decide_False by congruence.
Qed.
End world.
