(* ===== verification/CacheFiles.v ===== *)
(** * Cached data: freshness, reads through the cache, corrupt copies, materialized tables *)

From S2P Require Export CacheProps.

Section files.
Context {Field Column Batch Provider Filter : Type}
  (num_rows : Batch → N)
  (columns : Batch → list Column)
  (try_new : list Field → list Column → option N → result string Batch)
  (parquet_len : list Field → list Batch → N)
  (parquet_read : list Field → list Batch → list Batch)
  (schema_of : Provider → list Field)
  (scan_live : Provider → list Filter → option N → result string (list Batch))
  (chrono : Chrono).

Abbreviation Disk := (@Disk Field Batch).
Abbreviation CacheManager := (@CacheManager Provider).
Abbreviation write_through := (write_through num_rows parquet_len parquet_read chrono).
Abbreviation project_batches := (project_batches num_rows columns try_new).
Abbreviation read_parquet := (read_parquet num_rows columns try_new).
Abbreviation scan := (scan num_rows columns try_new parquet_len parquet_read schema_of scan_live chrono).
Abbreviation scan_miss :=
  (scan_miss num_rows columns try_new parquet_len parquet_read schema_of scan_live chrono).

(** ** Freshness *)

Lemma fresh_find now (m : CacheManager) key :
  unique_keys (cm_manifest m) →
  fresh now m key = (e ← find_entry (cm_manifest m) key;
                     if unexpired now e then Some e else None).
Proof.
  unfold fresh, find_entry, unique_keys. intros Hu.
  rewrite <-(find_filter (unexpired now)) by done.
  induction (mf_entries (cm_manifest m)) as [|e es IH]; [done|]. simpl in *.
  apply NoDup_cons in Hu as [_ Hu]. destruct (unexpired now e); simpl.
  - rewrite andb_true_r. destruct (is_entry key e); [done|]. by apply IH.
  - rewrite andb_false_r. by apply IH.
Qed.

(** A successful write-through, in full. *)
Lemma write_through_ok io uuid now key schema batches policy (m : CacheManager) (d : Disk) e m' d' :
  write_through io uuid now key schema batches policy m d = (Ok e, m', d') →
  let path := data_path (cm_root m) (tn_schema key) (tn_table key) in
  (∃ expires_at, ttl_expiry chrono policy now = Ok expires_at ∧
     e = new_entry num_rows (tn_schema key) (tn_table key) path now
           expires_at batches (parquet_len schema batches) CacheCopy) ∧
  cm_manifest m' = stored d' ∧
  stored d' = apply_change (Upsert e) (read_manifest_disk io d) ∧
  dk_files d' = <[path := {| fi_len := parquet_len schema batches; fi_mtime := Some now;
                             fi_data := Some (schema, parquet_read schema batches) |}]> (dk_files d) ∧
  cm_root m' = cm_root m ∧ cm_inner m' = cm_inner m.
Proof.
  unfold Cache.write_through, atomic_write_parquet, upsert.
  destruct (io_create io), (io_data io), (io_rename io); simpl; try done.
  destruct (ttl_expiry chrono policy now) as [exp|]; [|done].
  match goal with |- context [upsert_entry ?e] => set (entry := e) end.
  destruct (with_locked_manifest _ _ _ _) as [[r1 m1] d1] eqn:Hl.
  apply with_locked_cases in Hl as [(out & mf & Hf & -> & -> & ->)|(-> & -> & ->)]; [|done].
  simpl. intros [= <- <- <-]. unfold upsert_entry in Hf. injection Hf as <- <-. eauto 10.
Qed.

(** It panics only where the expiry is no date. *)
Lemma write_through_panics io uuid now key schema batches policy (m : CacheManager) (d : Disk) m' d' :
  write_through io uuid now key schema batches policy m d = (Err Panicked, m', d') →
  ttl_expiry chrono policy now = Err Panicked.
Proof.
  unfold Cache.write_through. destruct (atomic_write_parquet _ _ _ _ _ _ _ _ _ _) as [[] ?]; [|done].
  destruct (ttl_expiry chrono policy now) as [exp|e]; [|by intros [= ->]].
  destruct (upsert _ _ _ _) as [[[] ?] ?]; done.
Qed.

(** When a table written at [now] stops being fresh, if ever. *)
Definition fresh_until (policy : CachePolicy) (now t : Z) : Prop :=
  match policy with
  | PolicyTtl ttl =>
      match d ← from_std chrono ttl; date_add chrono now d with
      | Some exp => (t < exp)%Z
      | None => True
      end
  | _ => True
  end.

Lemma unexpired_until policy now e t :
  ttl_expiry chrono policy now = Ok (en_expires_at e) →
  unexpired t e = true ↔ fresh_until policy now t.
Proof.
  unfold unexpired, fresh_until, ttl_expiry.
  destruct policy as [|ttl| | |]; try by intros [= <-].
  destruct (from_std chrono ttl) as [dur|]; simpl; [|by intros [= <-]].
  destruct (date_add chrono now dur); simpl; [|done]. intros [= <-]. apply Z.ltb_lt.
Qed.

(** What the writer finds fresh afterwards. *)
Lemma write_through_is_fresh io uuid now key schema batches policy (m : CacheManager) (d : Disk)
    e m' d' t :
  unique_keys (stored d) →
  write_through io uuid now key schema batches policy m d = (Ok e, m', d') →
  fresh t m' key = (if unexpired t e then Some e else None) ∧
  (unexpired t e = true ↔ fresh_until policy now t).
Proof.
  intros Hu H. destruct (write_through_ok _ _ _ _ _ _ _ _ _ _ _ _ H) as ((exp & Ht & He) & Hc & Hd & _).
  assert (entry_key e = key) as Hk by (subst e; by destruct key).
  assert (unique_keys (read_manifest_disk io d)) as Hr.
  { unfold read_manifest_disk. destruct (io_read io); [done|]. constructor. }
  destruct (change_refines (Upsert e) _ Hr) as [Hu' Hf]. split.
  - rewrite fresh_find; rewrite Hc, Hd; [|done]. rewrite Hf. simpl.
    by rewrite decide_True by done.
  - apply unexpired_until. by rewrite Ht, He.
Qed.

(** Cache freshness: once a table has been written through at time [now], it is fresh
    for its writer at exactly the times before [now + ttl] under a [ttl] policy (one
    representable as a chrono duration), and at all times under the other policies. *)
Theorem write_through_fresh io uuid now key schema batches policy (m : CacheManager) (d : Disk) e m' d' t :
  unique_keys (stored d) →
  write_through io uuid now key schema batches policy m d = (Ok e, m', d') →
  is_fresh t m' key = true ↔ fresh_until policy now t.
Proof.
  intros Hu H. destruct (write_through_is_fresh _ _ _ _ _ _ _ _ _ _ _ _ t Hu H) as [Hf <-].
  unfold is_fresh. rewrite Hf. by destruct (unexpired t e).
Qed.

(** ** Reads through the cache *)

(** Reads go through the cache: after a scan that found nothing fresh, fetched
    [batches] from the source and wrote them through, every later scan of the table while
    the entry is fresh serves what the file holds of those same [batches] (projected as it
    asks) without touching the source, the manifest or the files - whatever its own filters
    and limit are. *)
Theorem scan_serves_first_fetch qio quuid io uuid now t projection filters limit batches
    (m : CacheManager) (d : Disk) e m' d' :
  unique_keys (stored d) →
  fresh now m (ct_name t) = None →
  scan_live (ct_inner t) filters limit = Ok batches →
  write_through io uuid now (ct_name t) (schema_of (ct_inner t)) batches (ct_policy t) m d
    = (Ok e, m', d') →
  scan qio quuid io uuid now t projection filters limit m d
    = (project_batches (schema_of (ct_inner t)) batches projection, m', d') ∧
  ∀ qio2 quuid2 io2 uuid2 now2 projection2 filters2 limit2 out,
    fresh_until (ct_policy t) now now2 →
    project_batches (schema_of (ct_inner t))
      (parquet_read (schema_of (ct_inner t)) batches) projection2 = Ok out →
    scan qio2 quuid2 io2 uuid2 now2 t projection2 filters2 limit2 m' d' = (Ok out, m', d').
Proof.
  intros Hu Hmiss Hlive Hw. split.
  - unfold Cache.scan. rewrite Hmiss. unfold Cache.scan_miss. by rewrite Hlive, Hw.
  - intros qio2 quuid2 io2 uuid2 now2 pr2 fs2 li2 out Hf Hp.
    destruct (write_through_is_fresh _ _ _ _ _ _ _ _ _ _ _ _ now2 Hu Hw) as [Hfr Hun].
    destruct (write_through_ok _ _ _ _ _ _ _ _ _ _ _ _ Hw) as ((exp & _ & He) & _ & _ & Hfiles & _).
    unfold Cache.scan. rewrite Hfr, (proj2 Hun Hf). unfold Cache.read_parquet.
    rewrite Hfiles, He. simpl. rewrite lookup_insert_eq. simpl. by rewrite Hp.
Qed.
(** Changes that concern one name leave the others alone. *)
Lemma changes_elsewhere key chs mf k :
  unique_keys mf → k ≠ key →
  (∀ c, c ∈ chs → co_read c = true ∧
     ((∃ p, co_change c = Quarantine key p) ∨ ∃ e, co_change c = Upsert e ∧ entry_key e = key)) →
  find_entry (foldl (flip apply_commit) mf chs) k = find_entry mf k.
Proof.
  intros Hu Hk. rewrite (proj2 (changes_refine _ _ Hu)).
  generalize (find_entry mf). clear Hu. induction chs as [|c chs IH]; intros tb Hs; [done|]. simpl.
  rewrite IH by (intros; apply Hs; by right). unfold flip, spec_commit.
  destruct (Hs c) as [-> [[p ->]|(e & -> & Hke)]]; [left|..]; simpl.
  - rewrite bool_decide_eq_false_2 by done. simpl. by destruct (tb k).
  - by rewrite decide_False by congruence.
Qed.

Abbreviation scan_event qio quuid io uuid now t projection filters limit :=
  {| ev_manager := 0; ev_io := io; ev_uuid := uuid; ev_now := now;
     ev_request := ReqScan qio quuid t projection filters limit |}.
Abbreviation changes_of :=
  (changes_of num_rows columns try_new parquet_len schema_of scan_live chrono).

Lemma scan_commits qio quuid io uuid now t pr fs li (m : CacheManager) (d : Disk) r m' d' :
  scan qio quuid io uuid now t pr fs li m d = (r, m', d') →
  commits (changes_of (scan_event qio quuid io uuid now t pr fs li) m d) m d m' d'.
Proof.
  intros H. pose proof (serve_commits num_rows columns try_new parquet_len parquet_read schema_of
    scan_live chrono (scan_event qio quuid io uuid now t pr fs li) m d) as Hc.
  unfold serve in Hc. simpl ev_request in Hc. cbv iota in Hc. simpl in Hc. by rewrite H in Hc.
Qed.

Lemma scan_changes_names qio quuid io uuid now t pr fs li (m : CacheManager) (d : Disk) c :
  io_read qio = true → io_read io = true →
  c ∈ changes_of (scan_event qio quuid io uuid now t pr fs li) m d →
  co_read c = true ∧ ((∃ p, co_change c = Quarantine (ct_name t) p) ∨
                      ∃ e, co_change c = Upsert e ∧ entry_key e = ct_name t).
Proof.
  intros Hq Hr. unfold CacheProps.changes_of. simpl.
  destruct (fresh _ _ _); [|intros [? ->]%elem_of_fetch; auto].
  destruct (Cache.read_parquet _ _ _ _ _ _) as [|[]]; [by intros ?%elem_of_nil| |by intros ?%elem_of_nil].
  intros [[-> ->]%elem_of_committed|[? ->]%elem_of_fetch]%elem_of_app; eauto.
Qed.

(** With the lock and the manifest write working, quarantine drops the entry. *)
Lemma quarantine_drops io uuid key entry (m : CacheManager) (d : Disk) u m' d' :
  io_lock io = true → io_manifest io = true → io_read io = true →
  quarantine io uuid key entry m d = (u, m', d') →
  stored d' = apply_change (Quarantine key (en_file_path entry)) (stored d).
Proof.
  intros Hl Hm Hr. unfold quarantine, with_locked_manifest, write_manifest_disk.
  rewrite Hl, Hm. simpl. unfold read_manifest_disk, stored. rewrite Hr.
  destruct (dk_files d !! _); [|by intros [= <- <- <-]].
  destruct (file_name _); [destruct (io_rename io)|]; intros [= <- <- <-];
    rewrite ?remove_file_manifest; done.
Qed.

(** A corrupt copy heals itself: when the fresh entry's file cannot be read, the scan
    answers from the source exactly as a miss would (unless the expiry is no date, which
    panics); as long as the manifest can be read, the entry of every other table is
    untouched whatever happens to its own; and when the source fails too, with the lock
    and the manifest working, the bad entry is gone from the disk. *)
Theorem scan_heals qio quuid io uuid now t projection filters limit (m : CacheManager) (d : Disk) entry err
    r m' d' :
  unique_keys (stored d) → cm_manifest m = stored d →
  fresh now m (ct_name t) = Some entry →
  read_parquet (en_file_path entry) projection d = Err (ScanFailed err) →
  scan qio quuid io uuid now t projection filters limit m d = (r, m', d') →
  (r = match scan_live (ct_inner t) filters limit with
       | Ok batches => project_batches (schema_of (ct_inner t)) batches projection
       | Err e => Err (ScanFailed e)
       end ∨ r = Err ScanPanic ∧ ttl_expiry chrono (ct_policy t) now = Err Panicked) ∧
  (io_read qio = true → io_read io = true → ∀ k, k ≠ ct_name t →
     find_entry (stored d') k = find_entry (stored d) k) ∧
  (io_lock qio = true → io_manifest qio = true → io_read qio = true →
   (∃ e, scan_live (ct_inner t) filters limit = Err e) →
   find_entry (stored d') (ct_name t) = None).
Proof.
  intros Hu Hcopy Hfresh Hread Hscan. split_and!.
  - revert Hscan. unfold Cache.scan. rewrite Hfresh, Hread.
    destruct (quarantine _ _ _ _ _ _) as [[u m1] d1]. unfold Cache.scan_miss.
    destruct (scan_live _ _ _) as [bs|e0]; [|intros [= <- _ _]; by left].
    destruct (Cache.write_through _ _ _ _ _ _ _ _ _ _ _ _ _) as [[r1 m2] d2] eqn:Hw.
    destruct r1 as [|[]]; intros [= <- _ _]; [by left..|right]. split; [done|].
    by eapply write_through_panics.
  - intros Hq Hr k Hk. apply scan_commits in Hscan as [-> _ _ _].
    apply (changes_elsewhere (ct_name t)); [done..|]. intros c. by apply scan_changes_names.
  - intros Hl Hm Hr [e He]. revert Hscan. unfold Cache.scan. rewrite Hfresh, Hread.
    destruct (quarantine _ _ _ _ _ _) as [[u m1] d1] eqn:Hq. unfold Cache.scan_miss.
    rewrite He. intros [= _ _ <-]. apply quarantine_drops in Hq as ->; [|done..].
    rewrite (proj2 (change_refines _ _ Hu)). simpl.
    rewrite fresh_find in Hfresh by (by rewrite Hcopy). rewrite Hcopy in Hfresh.
    destruct (find_entry _ _) as [e'|]; [|done]. simpl in *.
    destruct (unexpired now e'); [|done]. injection Hfresh as ->.
    by rewrite !bool_decide_eq_true_2.
Qed.

(** ** Materialized tables *)

(** A successful materialization, in full. *)
Lemma materialize_ok io uuid now name schema batches spec (m : CacheManager) (d : Disk) e m' d' :
  materialize num_rows parquet_len parquet_read io uuid now name schema batches spec m d
    = (Ok e, m', d') →
  let path := data_path (cm_root m) MATERIALIZED_SCHEMA name in
  e = new_entry num_rows MATERIALIZED_SCHEMA name path now None batches
        (parquet_len schema batches) (Materialized spec) ∧
  cm_manifest m' = stored d' ∧
  stored d' = apply_change (Upsert e) (read_manifest_disk io d) ∧
  dk_files d' = <[path := {| fi_len := parquet_len schema batches; fi_mtime := Some now;
                             fi_data := Some (schema, parquet_read schema batches) |}]> (dk_files d).
Proof.
  unfold materialize, atomic_write_parquet, upsert.
  destruct (io_create io), (io_data io), (io_rename io); simpl; try done.
  match goal with |- context [upsert_entry ?e] => set (entry := e) end.
  destruct (with_locked_manifest _ _ _ _) as [[r1 m1] d1] eqn:Hl.
  apply with_locked_cases in Hl as [(out & mf & Hf & -> & -> & ->)|(-> & -> & ->)]; [|done].
  simpl. intros [= <- <- <-]. unfold upsert_entry in Hf. injection Hf as <- <-. done.
Qed.

Lemma omap_none {A B} (f : A → option B) xs : (∀ x, x ∈ xs → f x = None) → omap f xs = [].
Proof.
  induction xs as [|x xs IH]; intros H; [done|]. simpl. rewrite H by by left.
  apply IH. intros y Hy. apply H. by right.
Qed.

(** The entry a create-or-replace leaves is the only one of its name. *)
Lemma upsert_find_first (f : ManifestEntry → bool) e mf :
  (∀ x, f x = true → is_entry (entry_key e) x = true) → f e = true →
  List.find f (mf_entries (apply_change (Upsert e) mf)) = Some e.
Proof.
  intros Hf He. simpl. rewrite find_app_list. simpl. rewrite He.
  destruct (List.find f _) as [x|] eqn:Hx; [|done].
  apply find_some in Hx as [[_ Hn]%filter_In Hx]. by rewrite (Hf x Hx) in Hn.
Qed.

(** A materialized table reads back: after [materialize name] succeeds, replacing
    whatever that name held, the namespace catalog lists the table and resolves it to a
    file whose snapshot has the written schema and yields, unprojected, what a Parquet
    reader gets back from the written batches; its spec is the given one; and no time
    makes it stale. *)
Theorem materialize_reads_back io uuid now name schema batches spec (m : CacheManager) (d : Disk)
    e m' d' :
  materialize num_rows parquet_len parquet_read io uuid now name schema batches spec m d
    = (Ok e, m', d') →
  MATERIALIZED_SCHEMA ∈ namespace_sources m' d' ∧
  name ∈ namespace_tables MATERIALIZED_SCHEMA m' d' ∧
  (∃ path s, namespace_path MATERIALIZED_SCHEMA name m' d' = Some path ∧
     snapshot_open path d' = Ok s ∧ ps_schema s = schema ∧
     snapshot_scan num_rows columns try_new s None d' = Ok (parquet_read schema batches)) ∧
  materialized_spec name m' = Some spec ∧
  (∀ t, is_fresh t m' (mkTableName MATERIALIZED_SCHEMA name) = true).
Proof.
  intros H%materialize_ok. cbv zeta in H. destruct H as (He & Hcm & Hd & Hfiles).
  rewrite Hd in Hcm.
  assert (entry_key e = mkTableName MATERIALIZED_SCHEMA name) as Hk by by rewrite He.
  assert (is_entry (mkTableName MATERIALIZED_SCHEMA name) e = true) as Hie by by apply is_entry_key.
  assert (Hex : exists_file d' (en_file_path e) = true).
  { unfold exists_file. rewrite Hfiles, He. simpl. by rewrite lookup_insert_eq. }
  assert (Hin : List.In e (mf_entries (cm_manifest m'))).
  { rewrite Hcm. apply in_or_app. right. by left. }
  split_and!.
  - unfold namespace_sources. rewrite elem_of_dedup; unfold sort_strings; rewrite elem_of_sort_by, list_elem_of_In.
    apply in_map_iff. exists e. split; [by rewrite He|]. by apply filter_In.
  - unfold namespace_tables. rewrite elem_of_dedup; unfold sort_strings; rewrite elem_of_sort_by, list_elem_of_In.
    apply in_map_iff. exists e. split; [by rewrite He|]. apply filter_In. split; [done|].
    rewrite Hex, He. done.
  - exists (en_file_path e), {| ps_path := en_file_path e; ps_schema := schema |}.
    unfold namespace_path. rewrite Hcm, (upsert_find_first _ e); [| |by rewrite Hie, Hex].
    2:{ intros x [Hx _]%andb_true_iff. by rewrite Hk. }
    unfold snapshot_open, snapshot_scan, Cache.read_parquet. simpl.
    assert (Hl : dk_files d' !! en_file_path e = Some {| fi_len := parquet_len schema batches;
      fi_mtime := Some now; fi_data := Some (schema, parquet_read schema batches) |}).
    { rewrite Hfiles, He. simpl. by rewrite lookup_insert_eq. }
    by rewrite Hl.
  - unfold materialized_spec. rewrite Hcm. simpl. rewrite omap_app, omap_none.
    + simpl. unfold spec_of. rewrite Hie. by rewrite He.
    + intros x [_ Hx]%list_elem_of_In%filter_In. unfold spec_of. rewrite Hk in Hx.
      by destruct (is_entry _ x).
  - intros t. unfold is_fresh, fresh. rewrite Hcm, (upsert_find_first _ e); [done| |].
    + intros x [Hx _]%andb_true_iff. by rewrite Hk.
    + rewrite Hie. by rewrite He.
Qed.
End files.
