(* ===== verification/Vacuum.v ===== *)
(** * What vacuum deletes, and what its report counts *)

From S2P Require Export CacheProps.

Section vacuum.
Context {Field Batch Provider : Type}
  (parquet_len : list Field → list Batch → N)
  (parquet_read : list Field → list Batch → list Batch).

Abbreviation Disk := (@Disk Field Batch).
Abbreviation CacheManager := (@CacheManager Provider).

(** ** Removals *)

(** The files of [d'] are those of [d] less the ones [P] selects. *)
Definition removes (P : string → @File Field Batch → bool) (d d' : Disk) : Prop :=
  ∀ p, dk_files d' !! p = (f ← dk_files d !! p; if P p f then None else Some f).

Lemma removes_trans P Q d d1 d2 :
  removes P d d1 → removes Q d1 d2 → removes (λ p f, P p f || Q p f) d d2.
Proof.
  intros H1 H2 p. rewrite H2, H1. destruct (dk_files d !! p) as [f|]; [|done]. simpl.
  by destruct (P p f).
Qed.

Lemma removes_ext P Q d d' : removes P d d' → (∀ p f, P p f = Q p f) → removes Q d d'.
Proof. intros H Heq p. rewrite H. destruct (dk_files d !! p); simpl; [by rewrite Heq|done]. Qed.

Lemma removes_ext_on P Q d d' :
  removes P d d' → (∀ p f, dk_files d !! p = Some f → P p f = Q p f) → removes Q d d'.
Proof. intros H Heq p. rewrite H. destruct (dk_files d !! p) eqn:Hf; simpl; [by rewrite Heq|done]. Qed.

Lemma removes_refl P d : (∀ p f, dk_files d !! p = Some f → P p f = false) → removes P d d.
Proof. intros H p. destruct (dk_files d !! p) as [f|] eqn:Hf; simpl; [by rewrite H|done]. Qed.

Lemma remove_file_removes io path (d : Disk) :
  removes (λ p _, bool_decide (p = path) && io_remove io p) d (remove_file io path d).
Proof.
  intros p. unfold remove_file. case_bool_decide as Hp; simpl.
  - subst. destruct (io_remove io path); simpl; [|by destruct (dk_files d !! path)].
    rewrite lookup_delete_eq. by destruct (dk_files d !! path).
  - destruct (io_remove io path); simpl; rewrite ?lookup_delete_ne by done;
      by destruct (dk_files d !! p).
Qed.

(** A fold of removals removes what any of its steps does. *)
Lemma foldl_removes {S A} (disk : S → Disk) (step : S → A → S)
    (P : A → string → @File Field Batch → bool) (xs : list A) acc :
  (∀ acc x, removes (P x) (disk acc) (disk (step acc x))) →
  removes (λ p f, existsb (λ x, P x p f) xs) (disk acc) (disk (foldl step acc xs)).
Proof.
  intros Hs. revert acc. induction xs as [|x xs IH]; intros acc; simpl.
  - by apply removes_refl.
  - eapply (removes_trans (P x)); [apply Hs|apply IH].
Qed.

Lemma reclaim_snd io path (acc : VacuumReport * Disk) :
  (reclaim io path acc).2 = remove_file io path acc.2.
Proof. by destruct acc. Qed.

Lemma reclaim_entry_snd io (acc : VacuumReport * Disk) e :
  (reclaim_entry io acc e).2 = remove_file io (en_file_path e) acc.2.
Proof.
  unfold reclaim_entry. rewrite <-reclaim_snd. by destruct (reclaim io (en_file_path e) acc).
Qed.

(** Step 1. *)
Lemma reclaim_entries_removes io es (acc : VacuumReport * Disk) :
  removes (λ p _, io_remove io p && bool_decide (p ∈ map en_file_path es)) acc.2
    (foldl (reclaim_entry io) acc es).2.
Proof.
  eapply removes_ext;
    [apply (foldl_removes snd _ (λ e p _, bool_decide (p = en_file_path e) && io_remove io p))|].
  - intros acc' e. rewrite reclaim_entry_snd. apply remove_file_removes.
  - intros p f. cbv beta. clear f acc. induction es as [|e es IH]; simpl; [by rewrite andb_false_r|].
    rewrite IH. destruct (io_remove io p); simpl; rewrite ?andb_false_r, ?andb_true_r; [|done].
    rewrite <-bool_decide_or. apply bool_decide_ext. by rewrite elem_of_cons.
Qed.

(** Step 2. *)
Lemma reclaim_orphans_removes io (m : CacheManager) (acc : VacuumReport * Disk) :
  removes (λ p _, io_remove io p && starts_with (path_join (cm_root m) "data" +:+ "/") p
                  && negb (bool_decide (p ∈ map en_file_path (mf_entries (cm_manifest m)))))
    acc.2 (reclaim_orphans io m acc).2.
Proof.
  unfold reclaim_orphans. set (refs := map en_file_path (mf_entries (cm_manifest m))).
  set (files := collect_files (cm_root m) acc.2).
  eapply removes_ext_on; [apply (foldl_removes snd _
    (λ f p _, negb (bool_decide (f ∈ refs)) && (bool_decide (p = f) && io_remove io p)))|].
  - intros acc' f. case_bool_decide; simpl; [by apply removes_refl|].
    rewrite reclaim_snd. apply remove_file_removes.
  - intros p f Hf. simpl. apply eq_true_iff_eq.
    rewrite existsb_exists, !andb_true_iff. split.
    + intros (x & Hx & [Hn [->%bool_decide_eq_true ?]%andb_true_iff]%andb_true_iff).
      unfold files, collect_files in Hx. apply filter_In in Hx as [_ Hx]. done.
    + intros [[Hr Hs] Hn]. exists p. rewrite Hn, Hr, bool_decide_eq_true_2 by done. split; [|done].
      apply filter_In. split; [|done]. apply list_elem_of_In, elem_of_elements, elem_of_dom. eauto.
Qed.

(** Step 3. *)
Lemma clean_old_tmp_removes io now root (d : Disk) :
  removes (λ p f, is_old_tmp now root p f && io_remove io p) d (clean_old_tmp io now root d).2.
Proof.
  unfold clean_old_tmp.
  set (step := λ '((files, bytes), d) path, _).
  eapply removes_ext_on; [apply (foldl_removes snd step
    (λ x p f, bool_decide (p = x) && (is_old_tmp now root p f && io_remove io p)))|].
  - intros [[fi by_] d0] x. simpl.
    destruct (dk_files d0 !! x) as [fx|] eqn:Hx;
      [destruct (is_old_tmp now root x fx && io_remove io x) eqn:Ho|]; simpl.
    + intros p. rewrite (remove_file_removes io x d0 p). destruct (dk_files d0 !! p) as [f|] eqn:Hp; [|done].
      simpl. case_bool_decide; [|done]. simplify_eq. apply andb_true_iff in Ho as [-> ->]. done.
    + apply removes_refl. intros q f Hq. case_bool_decide; [|done]. by simplify_eq.
    + apply removes_refl. intros q f Hq. case_bool_decide; [|done]. by simplify_eq.
  - intros p f Hf. simpl. apply eq_true_iff_eq. rewrite existsb_exists. split.
    + by intros (x & _ & [_ ?]%andb_true_iff).
    + intros Ho. exists p. rewrite bool_decide_eq_true_2, Ho by done. split; [|done].
      apply list_elem_of_In, elem_of_elements, elem_of_dom. eauto.
Qed.

(** *** What the report accounts for *)

Definition total_len (d : Disk) : N := map_fold (λ _ f acc, fi_len f + acc)%N 0%N (dk_files d).

(** The report of a clean-up plus what is left on the disk. *)
Definition account (files bytes : N) (d : Disk) : N * N :=
  (files + N.of_nat (size (dk_files d)), bytes + total_len d)%N.

Lemma account_remove io path (d : Disk) f files bytes :
  dk_files d !! path = Some f → io_remove io path = true →
  account (files + 1) (bytes + fi_len f) (remove_file io path d) = account files bytes d.
Proof.
  intros Hf Hr. unfold account, remove_file, total_len. rewrite Hr. simpl. f_equal.
  - rewrite map_size_delete_Some by eauto.
    enough (size (dk_files d) ≠ 0) by lia. intros H0%map_size_empty_inv. by rewrite H0 in Hf.
  - rewrite (map_fold_delete_L _ _ path f (dk_files d)); [lia|intros; lia|done].
Qed.

Lemma account_reclaim io path (acc : VacuumReport * Disk) :
  (∀ p, io_remove io p = true) →
  let acc' := reclaim io path acc in
  account (vr_files_removed acc'.1) (vr_bytes_reclaimed acc'.1) acc'.2
  = account (vr_files_removed acc.1) (vr_bytes_reclaimed acc.1) acc.2.
Proof.
  intros Hr. destruct acc as [r d]. simpl. unfold exists_file, file_len. rewrite Hr, andb_true_r.
  destruct (dk_files d !! path) as [f|] eqn:Hf; [by apply account_remove|].
  unfold remove_file. rewrite Hr. unfold account, total_len. simpl.
  by rewrite !delete_id, !N.add_0_r.
Qed.

Lemma foldl_invariant {S A B} (g : S → B) (step : S → A → S) xs acc :
  (∀ acc x, g (step acc x) = g acc) → g (foldl step acc xs) = g acc.
Proof. intros Hs. revert acc. induction xs as [|x xs IH]; intros acc; [done|]. simpl. by rewrite IH, Hs. Qed.

Definition acc_account (acc : VacuumReport * Disk) : N * N :=
  account (vr_files_removed acc.1) (vr_bytes_reclaimed acc.1) acc.2.

Lemma account_vacuum_files io now expired (m : CacheManager) (d : Disk) :
  (∀ p, io_remove io p = true) →
  acc_account (vacuum_files io now expired m d) = account 0 0 d.
Proof.
  intros Hr. unfold vacuum_files.
  set (acc1 := foldl _ _ expired).
  assert (acc_account acc1 = account 0 0 d) as <-.
  { apply (foldl_invariant acc_account (reclaim_entry io) expired (VacuumReport_default, d)).
    intros acc e. unfold acc_account, reclaim_entry.
    pose proof (account_reclaim io (en_file_path e) acc Hr) as H.
    by destruct (reclaim io (en_file_path e) acc). }
  assert (acc_account (reclaim_orphans io m acc1) = acc_account acc1) as <-.
  { apply foldl_invariant. intros acc f. case_bool_decide; [done|]. by apply account_reclaim. }
  destruct (reclaim_orphans io m acc1) as [r d1].
  set (g := λ x : N * N * Disk,
    account (vr_files_removed r + x.1.1) (vr_bytes_reclaimed r + x.1.2) x.2).
  assert (g (clean_old_tmp io now (cm_root m) d1) = g ((0, 0)%N, d1)) as H.
  { apply foldl_invariant. intros [[fi by_] d0] p.
    destruct (dk_files d0 !! p) as [f|] eqn:Hf; [|done].
    destruct (is_old_tmp _ _ _ _ && _); [|done]. unfold g. simpl.
    rewrite !N.add_assoc. by apply account_remove. }
  destruct (clean_old_tmp io now (cm_root m) d1) as [[fi by_] d2]. unfold g in H. simpl in H.
  rewrite !N.add_0_r in H. done.
Qed.

Lemma foldl_counts {S A} (g : S → N) (step : S → A → S) xs acc :
  (∀ acc x, g (step acc x) = g acc + 1)%N → g (foldl step acc xs) = (g acc + N.of_nat (length xs))%N.
Proof.
  intros Hs. revert acc. induction xs as [|x xs IH]; intros acc; simpl; [lia|]. rewrite IH, Hs. lia.
Qed.

Lemma vacuum_files_entries io now expired (m : CacheManager) (d : Disk) :
  vr_entries_removed (vacuum_files io now expired m d).1 = N.of_nat (length expired).
Proof.
  unfold vacuum_files. set (acc1 := foldl _ _ expired). set (g := λ acc : VacuumReport * Disk,
    vr_entries_removed acc.1).
  assert (g (reclaim_orphans io m acc1) = g acc1) as Ho.
  { apply foldl_invariant. intros [r0 d0] f. by case_bool_decide. }
  assert (g acc1 = N.of_nat (length expired)) as H1.
  { unfold acc1. rewrite (foldl_counts g); [done|]. intros [r0 d0] e. done. }
  unfold g in *. destruct (reclaim_orphans io m acc1) as [r d1].
  destruct (clean_old_tmp io now (cm_root m) d1) as [[fi by_] d2]. simpl in *. congruence.
Qed.

(** What [vacuum] deletes, given the entries that expire and those that survive. *)
Definition vacuumed (io : Io) (now : Z) (root : string) (expired kept : list ManifestEntry)
    (p : string) (f : @File Field Batch) : bool :=
  io_remove io p &&
  (bool_decide (p ∈ map en_file_path expired)
   || starts_with (path_join root "data" +:+ "/") p && negb (bool_decide (p ∈ map en_file_path kept))
   || is_old_tmp now root p f).

Lemma vacuum_files_removes io now expired (m : CacheManager) (d : Disk) :
  removes (vacuumed io now (cm_root m) expired (mf_entries (cm_manifest m))) d
    (vacuum_files io now expired m d).2.
Proof.
  unfold vacuum_files.
  pose proof (reclaim_entries_removes io expired (VacuumReport_default, d)) as H1.
  pose proof (reclaim_orphans_removes io m
    (foldl (reclaim_entry io) (VacuumReport_default, d) expired)) as H2.
  destruct (reclaim_orphans io m _) as [r d1]. simpl in H1, H2.
  pose proof (clean_old_tmp_removes io now (cm_root m) d1) as H3.
  destruct (clean_old_tmp io now (cm_root m) d1) as [[fi by_] d2]. simpl in H3 |- *.
  eapply removes_ext; [apply (removes_trans _ _ _ _ _ H1 (removes_trans _ _ _ _ _ H2 H3))|].
  intros p f. unfold vacuumed. destruct (io_remove io p); simpl; [|by rewrite andb_false_r].
  by rewrite andb_true_r, orb_assoc.
Qed.

(** A successful vacuum is [drop_expired] under the lock, then the file work. *)
Lemma vacuum_ok io now (m : CacheManager) (d : Disk) r m' d' :
  vacuum io now m d = (Ok r, m', d') →
  let '(expired, mf) := drop_expired now (read_manifest_disk io d) in
  cm_manifest m' = mf ∧ cm_root m' = cm_root m ∧ stored d' = mf ∧
  (r, d') = vacuum_files io now expired m' {| dk_manifest := Some mf; dk_files := dk_files d |}.
Proof.
  unfold vacuum. destruct (with_locked_manifest _ _ _ _) as [[r1 m1] d1] eqn:Hl.
  apply with_locked_cases in Hl as [(out & mf & Hf & -> & -> & ->)|(-> & -> & ->)]; [|done].
  rewrite Hf. destruct (vacuum_files _ _ _ _ _) as [r2 d2] eqn:Hv. intros [= <- <- <-].
  split_and!; try done.
  pose proof (vacuum_files_manifest io now out (with_manifest m mf)
    {| dk_manifest := Some mf; dk_files := dk_files d |}) as H.
  rewrite Hv in H. unfold stored. simpl in H. by rewrite H.
Qed.

(** What vacuum reclaims, exactly: of the entries it reads, those that expired and are
    not materialized; of the files, those it can remove that are an expired entry's, or
    lie under [data/] with no surviving entry referring to them, or are old files of
    [tmp/] - and nothing else. The report counts the dropped entries, and, when every
    removal works, the files and bytes that are gone. *)
Theorem vacuum_reclaims io now (m : CacheManager) (d : Disk) r m' d' :
  vacuum io now m d = (Ok r, m', d') →
  let es := mf_entries (read_manifest_disk io d) in
  let expired := List.filter (λ e, negb (is_materialized (en_origin e)) && negb (unexpired now e)) es in
  let kept := List.filter (λ e, is_materialized (en_origin e) || unexpired now e) es in
  mf_entries (stored d') = kept ∧ cm_manifest m' = stored d' ∧
  removes (vacuumed io now (cm_root m) expired kept) d d' ∧
  vr_entries_removed r = N.of_nat (length expired) ∧
  ((∀ p, io_remove io p = true) →
   (vr_files_removed r + N.of_nat (size (dk_files d')) = N.of_nat (size (dk_files d)) ∧
    vr_bytes_reclaimed r + total_len d' = total_len d)%N).
Proof.
  intros H%vacuum_ok. simpl in H. destruct H as (Hm & Hroot & Hd & Hv). intros es expired kept.
  assert (List.filter (λ e, negb (survives now e)) es = expired) as Hexp.
  { apply filter_ext. intros e. unfold survives. by rewrite negb_orb. }
  fold es in Hv, Hm, Hd. rewrite Hexp in Hv. rewrite Hd, Hm. split_and!; [done..| | |].
  - pose proof (vacuum_files_removes io now expired m' {| dk_manifest :=
      Some (with_entries (read_manifest_disk io d) kept); dk_files := dk_files d |}) as H.
    rewrite Hm, Hroot in H. change (List.filter (survives now) es) with kept in Hv.
    rewrite <-Hv in H. exact H.
  - change (List.filter (survives now) es) with kept in Hv.
    pose proof (vacuum_files_entries io now expired m' {| dk_manifest :=
      Some (with_entries (read_manifest_disk io d) kept); dk_files := dk_files d |}) as H.
    rewrite <-Hv in H. exact H.
  - intros Hr. pose proof (account_vacuum_files io now expired m' {| dk_manifest :=
      Some (with_entries (read_manifest_disk io d) kept); dk_files := dk_files d |} Hr) as H.
    change (List.filter (survives now) es) with kept in Hv.
    rewrite <-Hv in H. unfold acc_account, account in H. simpl in H. by injection H.
Qed.

(** A vacuum that runs between a [materialize]'s rename and its manifest write deletes the
    new table's file: the entry is recorded, pinned, with nothing behind it. *)
Lemma vacuum_races_materialize uuid now path schema batches (a b : CacheManager) (d d1 d2 d3 : Disk)
    entry size r a' b' :
  atomic_write_parquet parquet_len parquet_read Io_ok uuid now (cm_root b) path schema batches d
    = (Ok size, d1) →
  cm_root a = cm_root b → starts_with (path_join (cm_root b) "data" +:+ "/") path = true →
  path ∉ map en_file_path (mf_entries (stored d)) →
  vacuum Io_ok now a d1 = (Ok r, a', d2) →
  en_file_path entry = path →
  upsert Io_ok entry b d2 = (Ok (), b', d3) →
  entry ∈ mf_entries (stored d3) ∧ dk_files d3 !! path = None.
Proof.
  intros Hw Hroot Hdata Hni Hv Hpath Hup.
  apply atomic_write_manifest in Hw as Hman.
  apply vacuum_ok in Hv. rewrite read_manifest_stored in Hv by done. simpl in Hv. destruct Hv as (Hm & Hroota & Hd2 & Hv).
  assert (stored d1 = stored d) as Hrd by (unfold stored; by rewrite Hman).
  pose proof (vacuum_files_removes Io_ok now
    (List.filter (λ e, negb (survives now e)) (mf_entries (stored d1))) a'
    {| dk_manifest := Some (with_entries (stored d1)
         (List.filter (survives now) (mf_entries (stored d1)))); dk_files := dk_files d1 |} path) as H.
  rewrite <-Hv in H. simpl in H.
  apply with_locked_cases in Hup as [(out & mf & Hf & _ & -> & ->)|(? & _)]; [|done].
  unfold upsert_entry in Hf. injection Hf as <- <-. simpl. split.
  - apply elem_of_app. right. by apply list_elem_of_singleton.
  - rewrite H. destruct (dk_files d1 !! path) as [f|]; [|done]. simpl. unfold vacuumed.
    rewrite Hm, Hroota, Hroot, Hdata. simpl.
    rewrite (bool_decide_eq_false_2 (path ∈ map en_file_path (List.filter (survives now) _)));
      [by rewrite !orb_true_r|].
    intros (e & He & Hin)%list_elem_of_In%in_map_iff. apply filter_In in Hin as [Hin _].
    apply Hni. apply list_elem_of_In. rewrite <-He, <-Hrd. by apply in_map.
Qed.
End vacuum.
