(* ===== verification/CacheSample.v ===== *)
(** * A concrete cache
    Batches as lists of columns, a provider that serves or fails, and the cache theorems
    applied to it. *)

From S2P Require Export CacheFiles Vacuum.

(** ** The crates' side *)

Definition sBatch := list (list nat).
Record sProvider := { sp_schema : list string; sp_live : result string (list sBatch) }.

Definition s_num_rows (b : sBatch) : N := N.of_nat (length (default [] (head b))).
Definition s_columns (b : sBatch) : list (list nat) := b.
Definition s_try_new (schema : list string) (cols : list (list nat)) (rows : option N)
    : result string sBatch :=
  if decide (length schema = length cols) then Ok cols else Err "number of columns".
Definition s_parquet_len (schema : list string) (bs : list sBatch) : N := N.of_nat (length bs).
Definition s_parquet_read (schema : list string) (bs : list sBatch) : list sBatch := bs.
(** A limit bounds the number of batches, a filter keeps none of them. *)
Definition s_scan_live (p : sProvider) (filters : list unit) (limit : option N)
    : result string (list sBatch) :=
  rmap (λ bs, match filters, limit with
              | _ :: _, _ => []
              | [], Some n => take (N.to_nat n) bs
              | [], None => bs
              end) (sp_live p).
(** Dates end at 1000. *)
Definition s_chrono : Chrono :=
  {| from_std := λ n, Some (Z.of_N n);
     date_add := λ t d, if (t + d <=? 1000)%Z then Some (t + d)%Z else None |}.

(** ** A cache root, two managers *)

Definition s_disk : @Disk string sBatch := {| dk_manifest := None; dk_files := ∅ |}.
Definition s_manager : @CacheManager sProvider :=
  (new_manager Io_ok 0 "/cache" s_disk).1.

Definition b1 : sBatch := [[1; 2]; [3; 4]].
Definition b2 : sBatch := [[5]; [6]].
Definition s_users : @CachedTableProvider sProvider :=
  {| ct_inner := {| sp_schema := ["id"; "age"]; sp_live := Ok [b1; b2] |};
     ct_name := mkTableName "app" "users"; ct_policy := PolicyTtl 10 |}.
Definition s_down : @CachedTableProvider sProvider :=
  {| ct_inner := {| sp_schema := ["id"; "age"]; sp_live := Err "unreachable" |};
     ct_name := mkTableName "app" "users"; ct_policy := PolicyTtl 10 |}.

(** After a materialization of [m] and a write-through of [app.users]. *)
Definition s_after_m := materialize s_num_rows s_parquet_len s_parquet_read Io_ok "u0" 5 "m" ["id"; "age"]
  [b1] (SpecQuery "select 1" ∅) s_manager s_disk.
Definition s_spec : MaterializeSpec := SpecQuery "select 1" ∅.
Definition s_after_u := write_through s_num_rows s_parquet_len s_parquet_read s_chrono Io_ok "u1" 7
  (ct_name s_users) ["id"; "age"] [b1; b2] (ct_policy s_users) s_after_m.1.2 s_after_m.2.
Definition s_entry : ManifestEntry :=
  match s_after_u.1.1 with Ok e => e
  | Err _ => new_entry s_num_rows "" "" "" 0 None [] 0 CacheCopy end.

(** The two entries, and the table's file damaged. *)
Definition s_corrupt : @Disk string sBatch :=
  with_files s_after_u.2 (<["/cache/data/app/users/part-000000.parquet" :=
    {| fi_len := 3; fi_mtime := Some 8%Z; fi_data := None |}]> (dk_files s_after_u.2)).

Definition s_world : @World string sBatch sProvider :=
  {| w_managers := {[ 0 := s_after_u.1.2; 1 := s_manager ]}; w_disk := s_after_u.2 |}.
Definition s_trace : list (@event string sBatch sProvider unit) :=
  [ {| ev_manager := 1; ev_io := Io_ok; ev_uuid := "u2"; ev_now := 100; ev_request := ReqVacuum |};
    {| ev_manager := 1; ev_io := Io_ok; ev_uuid := "u3"; ev_now := 101;
       ev_request := ReqScan Io_ok "q3" s_users None [] None |};
    {| ev_manager := 0; ev_io := Io_ok; ev_uuid := "u4"; ev_now := 102;
       ev_request := ReqInvalidate (mkTableName "app" "users") |} ].

Lemma s_unique : unique_keys (stored s_after_u.2).
Proof. apply (bool_decide_unpack _). vm_compute. exact I. Qed.

Lemma manifest_refines_map_witness :
  unique_keys (apply_change (DropExpired 100) (stored s_after_u.2)) ∧
  find_entry (apply_change (DropExpired 100) (stored s_after_u.2)) (mkTableName "app" "users")
  = None.
Proof.
  destruct (manifest_refines_map (DropExpired 100) (stored s_after_u.2) s_unique) as [H1 H2].
  split; [exact H1|]. rewrite H2. vm_compute. reflexivity.
Defined.

(** Manager 1 started before either write: its vacuum and scan merge with manager 0's. *)
Lemma managers_merge_witness :
  find_entry (stored (w_disk (run s_num_rows s_columns s_try_new s_parquet_len s_parquet_read
    sp_schema s_scan_live s_chrono s_world s_trace))) (mkTableName "app" "users") = None.
Proof.
  rewrite (proj1 (proj2 (managers_merge s_num_rows s_columns s_try_new s_parquet_len s_parquet_read
    sp_schema s_scan_live s_chrono s_world s_trace s_unique))).
  vm_compute. reflexivity.
Defined.

Lemma materialized_pinned_witness :
  ∃ e, find_entry (stored (w_disk (run s_num_rows s_columns s_try_new s_parquet_len
    s_parquet_read sp_schema s_scan_live s_chrono s_world s_trace)))
    (mkTableName MATERIALIZED_SCHEMA "m") = Some e.
Proof.
  eexists. apply (materialized_pinned s_num_rows s_columns s_try_new s_parquet_len
    s_parquet_read sp_schema s_scan_live s_chrono s_world s_trace); [exact s_unique| | |].
  - vm_compute. reflexivity.
  - reflexivity.
  - repeat constructor; intros H; vm_compute in H; (exact H || discriminate H).
Defined.

Lemma write_through_fresh_witness :
  is_fresh 16 s_after_u.1.2 (mkTableName "app" "users") = true ∧
  is_fresh 17 s_after_u.1.2 (mkTableName "app" "users") = false.
Proof.
  assert (∀ t, is_fresh t s_after_u.1.2 (mkTableName "app" "users") = true ↔ (t < 17)%Z) as H.
  { intros t. apply (write_through_fresh s_num_rows s_parquet_len s_parquet_read s_chrono Io_ok "u1" 7
      (mkTableName "app" "users") ["id"; "age"] [b1; b2] (PolicyTtl 10) s_after_m.1.2 s_after_m.2
      s_entry s_after_u.1.2 s_after_u.2 t); [|vm_compute; reflexivity].
    apply (bool_decide_unpack _). vm_compute. exact I. }
  split; [by apply H|]. apply not_true_iff_false. intros Hf%H. lia.
Defined.

(** The first fetch was limited to one batch, and so is everything served afterwards. *)
Lemma scan_serves_first_fetch_witness :
  ∃ m' d', scan s_num_rows s_columns s_try_new s_parquet_len s_parquet_read sp_schema s_scan_live
    s_chrono Io_ok "q9" Io_ok "u9" 9 s_users (Some [1]) [] None m' d' = (Ok [[[3; 4]]], m', d').
Proof.
  eexists _, _.
  refine (proj2 (scan_serves_first_fetch s_num_rows s_columns s_try_new s_parquet_len s_parquet_read
    sp_schema s_scan_live s_chrono Io_ok "q1" Io_ok "u1" 7 s_users None [] (Some 1%N) [b1] s_manager s_disk
    _ _ _ _ _ _ _) Io_ok "q9" Io_ok "u9" 9%Z (Some [1]) [] None _ _ _).
  - constructor.
  - reflexivity.
  - reflexivity.
  - vm_compute. reflexivity.
  - vm_compute. reflexivity.
  - vm_compute. reflexivity.
Defined.

Lemma scan_heals_witness :
  ∃ m' d', scan s_num_rows s_columns s_try_new s_parquet_len s_parquet_read sp_schema s_scan_live
    s_chrono Io_ok "q9" Io_ok "u9" 9 s_down None [] None s_after_u.1.2 s_corrupt
    = (Err (ScanFailed "unreachable"), m', d') ∧
  find_entry (stored d') (mkTableName "app" "users") = None.
Proof.
  eexists _, _.
  assert (scan s_num_rows s_columns s_try_new s_parquet_len s_parquet_read sp_schema s_scan_live
    s_chrono Io_ok "q9" Io_ok "u9" 9 s_down None [] None s_after_u.1.2 s_corrupt
    = (Err (ScanFailed "unreachable"), _, _)) as H by (vm_compute; reflexivity).
  split; [exact H|].
  apply (scan_heals s_num_rows s_columns s_try_new s_parquet_len s_parquet_read sp_schema s_scan_live
    s_chrono Io_ok "q9" Io_ok "u9" 9 s_down None [] None s_after_u.1.2 s_corrupt s_entry "not a Parquet file"
    _ _ _) in H as (_ & _ & H).
  - apply H; [reflexivity..|]. by eexists.
  - apply (bool_decide_unpack _). vm_compute. exact I.
  - vm_compute. reflexivity.
  - vm_compute. reflexivity.
  - vm_compute. reflexivity.
Defined.

Lemma materialize_reads_back_witness :
  "m" ∈ namespace_tables MATERIALIZED_SCHEMA s_after_m.1.2 s_after_m.2 ∧
  materialized_spec "m" s_after_m.1.2 = Some s_spec.
Proof.
  assert (∃ e, s_after_m = (Ok e, s_after_m.1.2, s_after_m.2)) as [e He]
    by (eexists; vm_compute; reflexivity).
  apply (materialize_reads_back s_num_rows s_columns s_try_new s_parquet_len s_parquet_read) in He
    as (_ & H1 & _ & H2 & _).
  split; [exact H1|exact H2].
Defined.

(** At time 17 the copy of [app.users] goes and the materialized table stays. *)
Lemma vacuum_reclaims_witness :
  ∃ r m' d', vacuum Io_ok 17 s_manager s_after_u.2 = (Ok r, m', d') ∧
    map en_table (mf_entries (stored d')) = ["m"] ∧
    vr_entries_removed r = 1%N.
Proof.
  assert (∃ r m' d', vacuum Io_ok 17 s_manager s_after_u.2 = (Ok r, m', d')) as (r & m' & d' & H)
    by (do 3 eexists; vm_compute; reflexivity).
  exists r, m', d'. split; [exact H|].
  apply vacuum_reclaims in H as (H1 & _ & _ & H2 & _). rewrite H1, H2.
  vm_compute. split; reflexivity.
Defined.

(** A second manager's vacuum, between the two halves of a materialization. *)
Definition s_m_path : string := "/cache/data/materialized/m/part-000000.parquet".
Definition s_written := atomic_write_parquet s_parquet_len s_parquet_read Io_ok "u0" 5 "/cache" s_m_path
  ["id"; "age"] [b1] s_disk.
Definition s_m_entry : ManifestEntry :=
  new_entry s_num_rows MATERIALIZED_SCHEMA "m" s_m_path 5 None [b1] 1 (Materialized s_spec).
Definition s_vacuumed := vacuum (Provider := sProvider) Io_ok 6 s_manager s_written.2.
Definition s_upserted := upsert Io_ok s_m_entry s_manager s_vacuumed.2.

Lemma vacuum_races_materialize_witness :
  s_m_entry ∈ mf_entries (stored s_upserted.2) ∧
  dk_files s_upserted.2 !! s_m_path = None.
Proof.
  assert (∃ r m', s_vacuumed = (Ok r, m', s_vacuumed.2)) as (r & a' & Hv)
    by (do 2 eexists; vm_compute; reflexivity).
  apply (vacuum_races_materialize s_parquet_len s_parquet_read "u0" 5 s_m_path ["id"; "age"] [b1]
    s_manager s_manager s_disk s_written.2 s_vacuumed.2 s_upserted.2 s_m_entry 1%N r a' s_upserted.1.2).
  - vm_compute. reflexivity.
  - reflexivity.
  - vm_compute. reflexivity.
  - vm_compute. intros H. inversion H.
  - exact Hv.
  - reflexivity.
  - vm_compute. reflexivity.
Defined.
