(* ===== verification/Guard.v ===== *)
(** * The outbound-target guard ([crates/pawrly-sources/http/src/guard.rs])
    Which hosts a SQL-driven HTTP request may reach: lexically on URLs, on redirects, and on
    the addresses a name resolves to. *)

From S2P Require Export SemTypes.

(** ** Addresses, as numbers of 32 and 128 bits *)

Inductive IpAddr :=
| V4 (a : Z)
| V6 (a : Z).

(** [Ipv4Addr::octets]. *)
Definition octet (i : Z) (a : Z) : Z := Z.land (Z.shiftr a (8 * (3 - i))) 255.

(** [Ipv6Addr::segments()[0]]. *)
Definition segment0 (a : Z) : Z := Z.land (Z.shiftr a 112) 65535.

Definition is_link_local (a : Z) : bool := (octet 0 a =? 169)%Z && (octet 1 a =? 254)%Z.

(** [Ipv4Addr::is_private]. *)
Definition is_private (a : Z) : bool :=
  (octet 0 a =? 10)%Z
  || (octet 0 a =? 172)%Z && (16 <=? octet 1 a)%Z && (octet 1 a <=? 31)%Z
  || (octet 0 a =? 192)%Z && (octet 1 a =? 168)%Z.

Inductive IpClass := Allow | Private | AlwaysRefuse.

Definition classify (ip : IpAddr) : IpClass :=
  match ip with
  | V4 a =>
      if (octet 0 a =? 127)%Z then Allow
      else if is_link_local a || (a =? 0)%Z || (a =? 4294967295)%Z then AlwaysRefuse
      else if is_private a
           || (octet 0 a =? 100)%Z && ((64 <=? octet 1 a)%Z && (octet 1 a <? 128)%Z) then Private
      else Allow
  | V6 a =>
      if (a =? 1)%Z then Allow
      else
        let seg := segment0 a in
        if (a =? 0)%Z || (Z.land seg 65472 =? 65152)%Z then AlwaysRefuse
        else if (Z.land seg 65024 =? 64512)%Z then Private
        else Allow
  end.

(** [Ipv6Addr::to_ipv4_mapped]: [::ffff:a.b.c.d]. *)
Definition to_ipv4_mapped (a : Z) : option Z :=
  if (Z.shiftr a 32 =? 65535)%Z then Some (Z.land a 4294967295) else None.

Definition normalize (ip : IpAddr) : IpAddr :=
  match ip with
  | V6 a => match to_ipv4_mapped a with Some b => V4 b | None => ip end
  | V4 _ => ip
  end.

(** ** URLs: what the [url] crate's accessors return *)

Inductive Host :=
| Domain (d : string)
| Ipv4 (a : Z)
| Ipv6 (a : Z).

(** [u_text] is the displayed URL, [u_host_str] the host as [host_str()] writes it. *)
Record Url := {
  u_text : string;
  u_scheme : string;
  u_host : option Host;
  u_host_str : option string;
  u_port : option N
}.

(** ** Host patterns *)

Inductive HostPattern :=
| Exact (h : string)
| Suffix (s : string).

Definition trim_dots (s : string) : string := trim_end_matches (λ c, bool_decide (c = "."%char)) s.

(** [matches]. *)
Definition matches (p : HostPattern) (host : string) : bool :=
  let host := to_ascii_lowercase (trim_dots host) in
  match p with
  | Exact h => bool_decide (host = h)
  | Suffix suffix => bool_decide (String.length suffix < String.length host) && ends_with suffix host
  end.

Section guard.
(** [psl::suffix_str]: the public suffix of a host name. *)
Context (suffix_str : string → option string).

(** [HostPattern::parse]. *)
Definition HostPattern_parse (s : string) : result string HostPattern :=
  let s := to_ascii_lowercase (trim s) in
  match strip_prefix "*." s with
  | Some rest =>
      let rest := trim_dots rest in
      if bool_decide (rest = "") then Err "wildcard needs a suffix"
      else if match suffix_str rest with Some suf => eq_ignore_ascii_case suf rest | None => false end
      then Err ("`*." +:+ rest +:+ "` spans a whole public suffix; list exact hosts instead")
      else Ok (Suffix ("." +:+ rest))
  | None =>
      let s := trim_dots s in
      if bool_decide (s = "") || contains_chr "*" s then
        Err "expected a hostname or `*.suffix`"
      else Ok (Exact s)
  end.

End guard.

Definition is_wildcard (p : HostPattern) : bool :=
  match p with Suffix _ => true | Exact _ => false end.

(** ** Trust *)

Definition same_origin (a b : Url) : bool :=
  bool_decide (u_scheme a = u_scheme b) && bool_decide (u_host_str a = u_host_str b)
  && bool_decide (u_port a = u_port b).

Definition host_allowed (url : Url) (allowed : list HostPattern) : bool :=
  match u_host_str url with
  | Some h => existsb (λ p, matches p h) allowed
  | None => false
  end.

Definition is_trusted (url base : Url) (allowed : list HostPattern) : bool :=
  same_origin url base || host_allowed url allowed.

(** ** The lexical check *)

Definition refusal (url : Url) (what : string) : string :=
  "refusing cross-origin request to `" +:+ u_text url +:+ "`: " +:+ what
  +:+ " targets are not reachable from a query (declare the host as a source's `base_url` or `allowed_hosts`)".

Definition check_ip (ip : IpAddr) (url : Url) (allowed : list HostPattern) : result string () :=
  match classify ip with
  | Allow => Ok ()
  | AlwaysRefuse =>
      Err ("refusing cross-origin request to `" +:+ u_text url
           +:+ "`: link-local/metadata targets are never reachable from a query")
  | Private => if host_allowed url allowed then Ok () else Err (refusal url "private")
  end.

Definition check_target (url base : Url) (allowed : list HostPattern) : result string () :=
  if same_origin url base then Ok ()
  else if negb (bool_decide (u_scheme url = "http" ∨ u_scheme url = "https")) then
    Err ("refusing `" +:+ u_text url +:+ "`: only http(s) targets are allowed")
  else
    match u_host url with
    | None => Err (refusal url "host-less")
    | Some (Domain d) =>
        let d := to_ascii_lowercase (trim_dots d) in
        if host_allowed url allowed || bool_decide (d = "localhost") || ends_with ".localhost" d
        then Ok ()
        else if ends_with ".internal" d then Err (refusal url "`.internal`")
        else Ok ()
    | Some (Ipv4 a) => check_ip (V4 a) url allowed
    | Some (Ipv6 a) => check_ip (normalize (V6 a)) url allowed
    end.

(** ** Redirects *)

Inductive Action :=
| Follow
| Refuse (msg : string).

(** [redirect_policy]'s closure; [previous] counts the URLs already visited, the original
    request's included. *)
Definition redirect_policy (base : Url) (allowed : list HostPattern) (has_auth : bool)
    (previous : nat) (url : Url) : Action :=
  if bool_decide (5 < previous) then Refuse "too many redirects"
  else match check_target url base allowed with
       | Err e => Refuse e
       | Ok _ =>
           if has_auth && negb (is_trusted url base allowed) then
             Refuse "refusing to follow a credentialed redirect to an untrusted host"
           else Follow
       end.

(** ** Resolved addresses *)

Record GuardedResolver := { gr_base_host : option string; gr_allowed : list HostPattern }.

(** [GuardedResolver::new]. *)
Definition GuardedResolver_new (base : Url) (allowed : list HostPattern) : GuardedResolver :=
  {| gr_base_host := to_ascii_lowercase <$> u_host_str base; gr_allowed := allowed |}.

Definition name_trusted (name : string) (base_host : option string) (allowed : list HostPattern)
    : bool :=
  match base_host with Some b => eq_ignore_ascii_case b name | None => false end
  || existsb (λ p, matches p name) allowed.

Section resolver.
(** [IpAddr]'s [Display], and the DNS. *)
Context (ip_display : IpAddr → string) (lookup_host : string → result string (list IpAddr)).

Definition screen_address (name : string) (trusted : bool) (addr : IpAddr) : result string () :=
  match classify (normalize addr) with
  | Allow => Ok ()
  | AlwaysRefuse => Err ("refusing `" +:+ name +:+ "`: resolves to a link-local/metadata address")
  | Private =>
      if negb trusted then
        Err ("refusing `" +:+ name +:+ "`: resolves to a private address " +:+ ip_display addr)
      else Ok ()
  end.

Definition screen_resolved (name : string) (addrs : list IpAddr) (base_host : option string)
    (allowed : list HostPattern) : result string () :=
  let trusted := name_trusted name base_host allowed in
  try_each (screen_address name trusted) addrs.

(** [GuardedResolver::resolve]. *)
Definition resolve (g : GuardedResolver) (name : string) : result string (list IpAddr) :=
  let host := to_ascii_lowercase name in
  let? addrs := lookup_host host in
  let? _ := screen_resolved host addrs (gr_base_host g) (gr_allowed g) in
  Ok addrs.
End resolver.
