(* ===== verification/GuardProps.v ===== *)
(** * Properties of the outbound-target guard *)

From S2P Require Export Guard.

(** ** Address ranges *)

(** The addresses from [lo] on that share its prefix; [bits] is the length of the rest. *)
Definition cidr (lo bits a : Z) : bool := (lo <=? a)%Z && (a <? lo + 2 ^ bits)%Z.

(** Link-local (cloud metadata), unspecified and broadcast addresses. *)
Definition metadata (ip : IpAddr) : bool :=
  match ip with
  | V4 a => cidr 0xA9FE0000 16 a (* 169.254.0.0/16 *) || (a =? 0)%Z || (a =? 0xFFFFFFFF)%Z
  | V6 a => (a =? 0)%Z || cidr (0xFE80 * 2 ^ 112) 118 a (* fe80::/10 *)
  end.

Definition private (ip : IpAddr) : bool :=
  match ip with
  | V4 a => cidr 0x0A000000 24 a (* 10.0.0.0/8 *) || cidr 0xAC100000 20 a (* 172.16.0.0/12 *)
            || cidr 0xC0A80000 16 a (* 192.168.0.0/16 *) || cidr 0x64400000 22 a (* 100.64.0.0/10 *)
  | V6 a => cidr (0xFC00 * 2 ^ 112) 121 a (* fc00::/7 *)
  end.

Definition ip_ok (ip : IpAddr) : Prop :=
  match ip with
  | V4 a => (0 ≤ a < 2 ^ 32)%Z
  | V6 a => (0 ≤ a < 2 ^ 128)%Z
  end.

Lemma octet0 a : (0 ≤ a < 2 ^ 32)%Z → octet 0 a = (a / 16777216)%Z.
Proof.
  intros Ha. unfold octet. change 255%Z with (Z.ones 8).
  rewrite Z.land_ones, Z.shiftr_div_pow2 by lia. simpl (2 ^ _)%Z.
  apply Z.mod_small. change (8 * (3 - 0))%Z with 24%Z. simpl (2 ^ _)%Z in *.
  split; [apply Z.div_pos; lia|apply Z.div_lt_upper_bound; lia].
Qed.

Lemma octet1 a : octet 1 a = ((a / 65536) mod 256)%Z.
Proof.
  unfold octet. change 255%Z with (Z.ones 8).
  by rewrite Z.land_ones, Z.shiftr_div_pow2 by lia.
Qed.

Lemma segment0_div a : (0 ≤ a < 2 ^ 128)%Z → segment0 a = (a / 2 ^ 112)%Z.
Proof.
  intros Ha. unfold segment0. change 65535%Z with (Z.ones 16).
  rewrite Z.land_ones, Z.shiftr_div_pow2 by lia. apply Z.mod_small.
  split; [apply Z.div_pos; lia|apply Z.div_lt_upper_bound; lia].
Qed.

(** Masking the high [m] of [m + k] bits. *)
Lemma land_high m k x :
  (0 ≤ m)%Z → (0 ≤ k)%Z → (0 ≤ x < 2 ^ (m + k))%Z →
  Z.land x (Z.shiftl (Z.ones m) k) = (x / 2 ^ k * 2 ^ k)%Z.
Proof.
  intros Hm Hk Hx. rewrite <-Z.shiftr_div_pow2, <-Z.shiftl_mul_pow2 by done.
  assert (Z.shiftr x k = Z.land (Z.shiftr x k) (Z.ones m)) as ->.
  { rewrite Z.land_ones, Z.mod_small; [done| |done]. rewrite Z.shiftr_div_pow2 by done.
    split; [apply Z.div_pos; lia|]. apply Z.div_lt_upper_bound; [lia|].
    rewrite <-Z.pow_add_r by lia. rewrite Z.add_comm. lia. }
  apply Z.bits_inj'. intros n Hn. rewrite Z.land_spec.
  destruct (Z.ltb_spec n k) as [Hlt|Hge].
  - rewrite !Z.shiftl_spec_low by done. apply andb_false_r.
  - rewrite !Z.shiftl_spec by done. rewrite Z.land_spec, Z.shiftr_spec by lia.
    by replace (n - k + k)%Z with n by lia.
Qed.

(** A 32-bit address by its first two octets and the rest. *)
Lemma octets_of a :
  ip_ok (V4 a) →
  ∃ x y r, a = (16777216 * x + 65536 * y + r)%Z ∧ octet 0 a = x ∧ octet 1 a = y ∧
    (0 ≤ x < 256)%Z ∧ (0 ≤ y < 256)%Z ∧ (0 ≤ r < 65536)%Z.
Proof.
  intros Ha. rewrite octet0, octet1 by done. simpl in Ha. change (2 ^ 32)%Z with 4294967296%Z in Ha.
  exists (a / 16777216)%Z, ((a / 65536) mod 256)%Z, (a mod 65536)%Z.
  change 16777216%Z with (65536 * 256)%Z. rewrite <-Z.div_div by lia.
  pose proof (Z.div_mod a 65536 ltac:(lia)). pose proof (Z.mod_pos_bound a 65536 ltac:(lia)).
  pose proof (Z.div_mod (a / 65536) 256 ltac:(lia)).
  pose proof (Z.mod_pos_bound (a / 65536) 256 ltac:(lia)).
  split_and!; lia || done.
Qed.

Ltac zbool :=
  repeat match goal with
  | |- context [(?x =? ?y)%Z] => destruct (Z.eqb_spec x y); subst; simpl
  | |- context [(?x <=? ?y)%Z] => destruct (Z.leb_spec x y); simpl
  | |- context [(?x <? ?y)%Z] => destruct (Z.ltb_spec x y); simpl
  end; try done; try lia.

(** A prefix range in terms of the octets. *)
Lemma cidr_octets x y r p q bits :
  (0 ≤ y < 256)%Z → (0 ≤ r < 65536)%Z → (0 ≤ q)%Z → (16 ≤ bits ≤ 24)%Z → (q + 2 ^ (bits - 16) ≤ 256)%Z →
  cidr (16777216 * p + 65536 * q) bits (16777216 * x + 65536 * y + r)
  = (x =? p)%Z && ((q <=? y)%Z && (y <? q + 2 ^ (bits - 16))%Z).
Proof.
  intros Hy Hr Hq Hb Hw. unfold cidr.
  assert (2 ^ bits = 65536 * 2 ^ (bits - 16))%Z as ->.
  { change 65536%Z with (2 ^ 16)%Z. rewrite <-Z.pow_add_r by lia. f_equal. lia. }
  assert (0 < 2 ^ (bits - 16))%Z by lia.
  generalize dependent (2 ^ (bits - 16))%Z. intros w Hw Hpos. zbool; nia.
Qed.

Lemma classify_v4 a :
  ip_ok (V4 a) →
  classify (V4 a) = if metadata (V4 a) then AlwaysRefuse else if private (V4 a) then Private else Allow.
Proof.
  intros (x & y & r & Ha & Hx & Hy & H1 & H2 & H3)%octets_of.
  unfold classify, metadata, private, is_link_local, is_private. rewrite Hx, Hy, Ha.
  change 0xA9FE0000%Z with (16777216 * 169 + 65536 * 254)%Z.
  change 0x0A000000%Z with (16777216 * 10 + 65536 * 0)%Z.
  change 0xAC100000%Z with (16777216 * 172 + 65536 * 16)%Z.
  change 0xC0A80000%Z with (16777216 * 192 + 65536 * 168)%Z.
  change 0x64400000%Z with (16777216 * 100 + 65536 * 64)%Z.
  rewrite !cidr_octets by (simpl; lia). clear Ha Hx Hy.
  change (2 ^ (16 - 16))%Z with 1%Z. change (2 ^ (24 - 16))%Z with 256%Z.
  change (2 ^ (20 - 16))%Z with 16%Z. change (2 ^ (22 - 16))%Z with 64%Z.
  destruct (Z.eqb_spec x 127) as [->|]; [zbool|].
  destruct (Z.eqb_spec x 169) as [->|]; [zbool|].
  destruct (Z.eqb_spec x 10) as [->|]; [zbool|].
  destruct (Z.eqb_spec x 172) as [->|]; [zbool|].
  destruct (Z.eqb_spec x 192) as [->|]; [zbool|].
  destruct (Z.eqb_spec x 100) as [->|]; [zbool|]. simpl. zbool.
Qed.

(** A prefix range in terms of the high part [s] of [w * s + r]. *)
Lemma cidr_high w s r k m bits a :
  a = (w * s + r)%Z → (0 ≤ r < w)%Z → (2 ^ bits = m * w)%Z →
  cidr (k * w) bits a = (k <=? s)%Z && (s <? k + m)%Z.
Proof.
  intros -> Hr Hb. unfold cidr. rewrite Hb. f_equal.
  - destruct (Z.leb_spec k s), (Z.leb_spec (k * w) (w * s + r)); (done || nia).
  - destruct (Z.ltb_spec s (k + m)), (Z.ltb_spec (w * s + r) (k * w + m * w)); (done || nia).
Qed.

Lemma classify_v6 a :
  ip_ok (V6 a) →
  classify (V6 a) = if metadata (V6 a) then AlwaysRefuse else if private (V6 a) then Private else Allow.
Proof.
  intros Ha. unfold ip_ok in Ha. unfold classify, metadata, private. cbv zeta.
  rewrite segment0_div by done.
  assert (0 ≤ a / 2 ^ 112 < 2 ^ 16)%Z as Hs.
  { split; [apply Z.div_pos; lia|]. apply Z.div_lt_upper_bound; [lia|].
    rewrite <-Z.pow_add_r by lia. apply Ha. }
  change 65472%Z with (Z.shiftl (Z.ones 10) 6). change 65024%Z with (Z.shiftl (Z.ones 7) 9).
  rewrite !land_high by (rewrite ?Z.pow_add_r by lia; lia).
  pose proof (Z.div_mod a (2 ^ 112) ltac:(lia)) as Hd.
  pose proof (Z.mod_pos_bound a (2 ^ 112) ltac:(lia)) as Hm.
  set (s := (a / 2 ^ 112)%Z) in *. set (r := (a mod 2 ^ 112)%Z) in *.
  pose proof (Z.div_mod s (2 ^ 6) ltac:(lia)). pose proof (Z.mod_pos_bound s (2 ^ 6) ltac:(lia)).
  pose proof (Z.div_mod s (2 ^ 9) ltac:(lia)). pose proof (Z.mod_pos_bound s (2 ^ 9) ltac:(lia)).
  change (2 ^ 6)%Z with 64%Z in *. change (2 ^ 9)%Z with 512%Z in *.
  change (2 ^ 16)%Z with 65536%Z in *.
  rewrite (cidr_high (2 ^ 112) s r _ 64), (cidr_high (2 ^ 112) s r _ 512) by done.
  assert ((a =? 1)%Z = (s =? 0)%Z && (r =? 1)%Z) as -> by zbool.
  assert ((a =? 0)%Z = (s =? 0)%Z && (r =? 0)%Z) as -> by zbool.
  clear Hd Hm Ha. zbool.
Qed.

#[global] Arguments ip_ok : simpl never.

Lemma classify_spec ip :
  ip_ok ip →
  classify ip = if metadata ip then AlwaysRefuse else if private ip then Private else Allow.
Proof. destruct ip; [apply classify_v4|apply classify_v6]. Qed.

Lemma normalize_ok ip : ip_ok ip → ip_ok (normalize ip).
Proof.
  destruct ip as [a|a]; [exact id|]. unfold normalize, to_ipv4_mapped.
  destruct (Z.shiftr a 32 =? 65535)%Z; [|exact id]. intros _. unfold ip_ok.
  change 4294967295%Z with (Z.ones 32). rewrite Z.land_ones by lia.
  apply Z.mod_pos_bound. lia.
Qed.

(** An IPv4-mapped address is judged as the IPv4 address it stands for. *)
Lemma normalize_mapped b : (0 ≤ b < 2 ^ 32)%Z → normalize (V6 (0xFFFF * 2 ^ 32 + b)) = V4 b.
Proof.
  intros Hb. unfold normalize, to_ipv4_mapped.
  change 4294967295%Z with (Z.ones 32). rewrite Z.land_ones, Z.shiftr_div_pow2 by lia.
  rewrite Z.add_comm, Z.div_add, Z.mod_add, Z.div_small, Z.mod_small by lia. done.
Qed.

(** ** Host names *)

(** The last character. *)
Fixpoint last_chr (s : string) : option ascii :=
  match s with
  | "" => None
  | String c "" => Some c
  | String _ s => last_chr s
  end.

Lemma last_chr_app a b : b ≠ "" → last_chr (a +:+ b) = last_chr b.
Proof.
  intros Hb. induction a as [|c a IH]; [done|]. rewrite app_cons'. simpl.
  rewrite IH. destruct (a +:+ b) eqn:He; [|done]. by destruct a, b.
Qed.

Lemma internal_not_localhost d :
  ends_with ".internal" d = true → d ≠ "localhost" ∧ ends_with ".localhost" d = false.
Proof.
  intros (r & ->)%ends_with_true. split.
  - intros H. apply (f_equal last_chr) in H. by rewrite last_chr_app in H.
  - apply not_true_iff_false. intros (r' & H)%ends_with_true.
    apply (f_equal last_chr) in H. by rewrite !last_chr_app in H.
Qed.

(** ** What the guard promises *)

(** An address is out of the refused ranges, and out of the private ones unless trusted. *)
Definition reachable (trusted : bool) (ip : IpAddr) : Prop :=
  metadata ip = false ∧ (private ip = true → trusted = true).

Lemma classify_reachable trusted ip :
  ip_ok ip →
  match classify ip with Allow => True | AlwaysRefuse => False | Private => trusted = true end
  ↔ reachable trusted ip.
Proof.
  intros Hok. rewrite classify_spec by done. unfold reachable.
  destruct (metadata ip), (private ip); naive_solver.
Qed.

Lemma check_ip_ok ip url allowed :
  ip_ok ip → check_ip ip url allowed = Ok () ↔ reachable (host_allowed url allowed) ip.
Proof.
  intros Hok. rewrite <-classify_reachable by done. unfold check_ip.
  destruct (classify ip), (host_allowed url allowed); naive_solver.
Qed.

Definition host_ok (h : Host) : Prop :=
  match h with
  | Domain _ => True
  | Ipv4 a => ip_ok (V4 a)
  | Ipv6 a => ip_ok (V6 a)
  end.

(** The cross-origin targets a query may name. *)
Definition allowed_target (url : Url) (allowed : list HostPattern) : Prop :=
  (u_scheme url = "http" ∨ u_scheme url = "https") ∧
  match u_host url with
  | None => False
  | Some (Domain d) =>
      ends_with ".internal" (to_ascii_lowercase (trim_dots d)) = true → host_allowed url allowed = true
  | Some (Ipv4 a) => reachable (host_allowed url allowed) (V4 a)
  | Some (Ipv6 a) => reachable (host_allowed url allowed) (normalize (V6 a))
  end.

Lemma check_target_ok url base allowed :
  from_option host_ok True (u_host url) →
  check_target url base allowed = Ok () ↔ same_origin url base = true ∨ allowed_target url allowed.
Proof.
  intros Hok. unfold check_target, allowed_target.
  destruct (same_origin url base); [split; [intros _; by left|reflexivity]|].
  transitivity (allowed_target url allowed); [|split; [exact (@or_intror _ _)|intros [H|H]; [discriminate H|exact H]]].
  unfold allowed_target. case_bool_decide as Hs; cbn [negb]; [|split; [discriminate|intros [? _]; contradiction]].
  transitivity (match u_host url with
    | None => False
    | Some (Domain d) =>
        ends_with ".internal" (to_ascii_lowercase (trim_dots d)) = true → host_allowed url allowed = true
    | Some (Ipv4 a) => reachable (host_allowed url allowed) (V4 a)
    | Some (Ipv6 a) => reachable (host_allowed url allowed) (normalize (V6 a))
    end); [|split; [intros H; exact (conj Hs H)|intros [_ H]; exact H]].
  destruct (u_host url) as [[d|a|a]|]; simpl in Hok.
  - set (d' := to_ascii_lowercase (trim_dots d)).
    destruct (host_allowed url allowed); [by split|]. rewrite orb_false_l.
    destruct (ends_with ".internal" d') eqn:Hi.
    + apply internal_not_localhost in Hi as [Hl ->]. rewrite bool_decide_eq_false_2 by done.
      split; [discriminate|]. intros H. discriminate (H eq_refl).
    + split; [discriminate|]. intros _. by destruct (_ || _).
  - by apply check_ip_ok.
  - by apply check_ip_ok, normalize_ok.
  - done.
Qed.

(** The lexical guard decides exactly its policy: a target passes when it is same-origin
    with the base, or is http(s) with a host that is: a name, not under [.internal] unless
    allow-listed; or an address (IPv4-mapped IPv6 unwrapped) outside 169.254/16, fe80::/10,
    the unspecified and broadcast addresses, and outside 10/8, 172.16/12, 192.168/16,
    100.64/10 and fc00::/7 unless allow-listed. *)
Theorem check_target_exact url base allowed :
  from_option host_ok True (u_host url) →
  check_target url base allowed = Ok () ↔ same_origin url base = true ∨ allowed_target url allowed.
Proof. apply check_target_ok. Qed.

(** ** Requests, their redirects and the addresses they connect to *)

(** A chain of redirects that the policy follows; [previous] URLs were visited before. *)
Fixpoint followed (base : Url) (allowed : list HostPattern) (has_auth : bool) (previous : nat)
    (hops : list Url) : Prop :=
  match hops with
  | [] => True
  | url :: hops => redirect_policy base allowed has_auth previous url = Follow ∧
                   followed base allowed has_auth (S previous) hops
  end.

Lemma redirect_follows base allowed has_auth previous url :
  redirect_policy base allowed has_auth previous url = Follow →
  previous ≤ 5 ∧ check_target url base allowed = Ok () ∧
  (has_auth = true → is_trusted url base allowed = true).
Proof.
  unfold redirect_policy. case_bool_decide; [done|].
  destruct (check_target url base allowed) as [[]|]; [|done].
  destruct has_auth; simpl; [|intros _; split_and!; by try lia].
  destruct (is_trusted url base allowed); simpl; [|done]. intros _. split_and!; by try lia.
Qed.

Lemma followed_hops base allowed has_auth previous hops :
  followed base allowed has_auth previous hops →
  length hops ≤ 6 - previous ∧
  Forall (λ url, check_target url base allowed = Ok () ∧
                 (has_auth = true → is_trusted url base allowed = true)) hops.
Proof.
  revert previous. induction hops as [|url hops IH]; intros previous; simpl; [split; [lia|done]|].
  intros [(Hp & Hc & Ht)%redirect_follows [Hl Hall]%IH]. split; [lia|]. by constructor.
Qed.

Section connect.
Context (ip_display : IpAddr → string) (lookup_host : string → result string (list IpAddr)).

(** The addresses a request for a URL connects to: the literal one, or what the guarded
    resolver lets through. *)
Inductive connects (g : GuardedResolver) (url : Url) : IpAddr → Prop :=
| connects_v4 a : u_host url = Some (Ipv4 a) → connects g url (V4 a)
| connects_v6 a : u_host url = Some (Ipv6 a) → connects g url (V6 a)
| connects_name d addrs ip :
    u_host url = Some (Domain d) → resolve ip_display lookup_host g d = Ok addrs → ip ∈ addrs →
    connects g url ip.

Definition is_literal (url : Url) : bool :=
  match u_host url with Some (Ipv4 _ | Ipv6 _) => true | _ => false end.

(** The trust a connection is made with: of the name resolved, or of the literal host. *)
Definition trusted_host (g : GuardedResolver) (url : Url) : bool :=
  match u_host url with
  | Some (Domain d) => name_trusted (to_ascii_lowercase d) (gr_base_host g) (gr_allowed g)
  | _ => host_allowed url (gr_allowed g)
  end.

Lemma screened name addrs base_host allowed ip :
  screen_resolved ip_display name addrs base_host allowed = Ok () → ip ∈ addrs → ip_ok ip →
  reachable (name_trusted name base_host allowed) (normalize ip).
Proof.
  intros H Hin Hok. apply try_each_ok in H.
  apply (Forall_forall _ _) with (x := ip) in H; [|done]. unfold screen_address in H.
  apply classify_reachable; [by apply normalize_ok|].
  destruct (classify (normalize ip)); [exact I| |discriminate H].
  by destruct (name_trusted name base_host allowed).
Qed.

Lemma connects_screened base allowed url ip :
  from_option host_ok True (u_host url) →
  (∀ name addrs, lookup_host name = Ok addrs → Forall ip_ok addrs) →
  check_target url base allowed = Ok () →
  connects (GuardedResolver_new base allowed) url ip →
  (same_origin url base = true ∧ is_literal url = true) ∨
  reachable (trusted_host (GuardedResolver_new base allowed) url) (normalize ip).
Proof.
  intros Hok Hdns Hc Hcon. unfold is_literal, trusted_host.
  destruct Hcon as [a Hh|a Hh|d addrs ip Hh Hr Hin]; rewrite Hh in *.
  - apply check_target_ok in Hc as [Hc|[_ Hc]]; [by left|rewrite Hh in Hc; by right|by rewrite Hh].
  - apply check_target_ok in Hc as [Hc|[_ Hc]]; [by left|rewrite Hh in Hc; by right|by rewrite Hh].
  - right. unfold resolve in Hr. apply rbind_ok in Hr as (addrs' & Hl & Hr).
    apply rbind_ok in Hr as ([] & Hs & [= ->]). eapply screened; [exact Hs|done|].
    specialize (Hdns _ _ Hl). by eapply (Forall_forall _ _) in Hdns.
Qed.

(** C38: Requests cannot be steered into internal networks, end to end: for a request whose
    target passed the guard, every URL it visits - itself and each redirect followed, five
    at most - connects only to addresses that, as literals or as what the name resolves to
    at that moment, are never link-local, metadata, unspecified or broadcast, and private
    only under a trusted name. An IPv4-mapped address is read as the IPv4 address it
    carries; any other IPv6 address is judged as itself, so one that embeds an IPv4 address
    otherwise (NAT64, 6to4) counts as public. The one exception is an address literal of the
    configured origin itself. A credentialed request is redirected to trusted hosts only. *)
Theorem request_confined base allowed has_auth first hops url ip :
  Forall (λ u, from_option host_ok True (u_host u)) (first :: hops) →
  (∀ name addrs, lookup_host name = Ok addrs → Forall ip_ok addrs) →
  check_target first base allowed = Ok () → followed base allowed has_auth 1 hops →
  url ∈ first :: hops → connects (GuardedResolver_new base allowed) url ip →
  length hops ≤ 5 ∧
  ((same_origin url base = true ∧ is_literal url = true) ∨
   reachable (trusted_host (GuardedResolver_new base allowed) url) (normalize ip)) ∧
  (has_auth = true → url ∈ hops → is_trusted url base allowed = true).
Proof.
  intros Hok Hdns Hfirst [Hlen Hall]%followed_hops Hin Hcon. split; [simpl in Hlen; lia|split].
  - apply (connects_screened base allowed); [|done| |done].
    + by eapply (Forall_forall _ _) in Hok.
    + apply elem_of_cons in Hin as [->|Hin]; [done|].
      by eapply (Forall_forall _ _) in Hall as [? _].
  - intros Hauth Hhop. eapply (Forall_forall _ _) in Hall as [_ H]; [by apply H|done].
Qed.
End connect.

(** ** Host patterns *)

Lemma matches_spec p host :
  matches p host = true ↔
  match p with
  | Exact h => to_ascii_lowercase (trim_dots host) = h
  | Suffix s => ∃ label, label ≠ "" ∧ to_ascii_lowercase (trim_dots host) = label +:+ s
  end.
Proof.
  unfold matches. destruct p as [h|s]; [by rewrite bool_decide_eq_true|].
  rewrite andb_true_iff, bool_decide_eq_true, ends_with_true. split.
  - intros [Hl [label Heq]]. exists label. split; [|done]. intros ->.
    rewrite Heq in Hl. rewrite app_nil_l' in Hl. lia.
  - intros (label & Hne & Heq). split; [|eauto]. rewrite Heq, length_app'.
    destruct label; [done|]. simpl. lia.
Qed.

(** Host patterns mean what they say: a parsed [*.suffix] entry matches exactly the
    proper subdomains of the suffix - which is no public suffix - and any other entry exactly
    its own name, up to ASCII case and trailing dots. *)
Theorem host_pattern_matches suffix_str s p host :
  HostPattern_parse suffix_str s = Ok p →
  let want := to_ascii_lowercase (trim s) in
  let have := to_ascii_lowercase (trim_dots host) in
  match strip_prefix "*." want with
  | Some rest =>
      (matches p host = true ↔ ∃ label, label ≠ "" ∧ have = label +:+ "." +:+ trim_dots rest) ∧
      is_wildcard p = true ∧
      ∀ suf, suffix_str (trim_dots rest) = Some suf → eq_ignore_ascii_case suf (trim_dots rest) = false
  | None => (matches p host = true ↔ have = trim_dots want) ∧ is_wildcard p = false
  end.
Proof.
  unfold HostPattern_parse. destruct (strip_prefix "*." _) as [rest|] eqn:Hp; intros H; cbv zeta.
  - case_bool_decide as He; [done|].
    destruct (suffix_str (trim_dots rest)) as [suf|] eqn:Hs.
    + destruct (eq_ignore_ascii_case suf (trim_dots rest)) eqn:Hi; [done|]. injection H as <-.
      split_and!; [apply matches_spec|done|]. intros suf' [= <-]. done.
    + injection H as <-. split_and!; [apply matches_spec|done|done].
  - destruct (_ || _); [done|]. injection H as <-. split; [apply matches_spec|done].
Qed.

(** ** At concrete URLs *)

Definition url (text scheme : string) (host : Host) (host_str : string) (port : N) : Url :=
  {| u_text := text; u_scheme := scheme; u_host := Some host; u_host_str := Some host_str;
     u_port := Some port |}.

Definition api : Url := url "https://api.example.com/" "https" (Domain "api.example.com") "api.example.com" 443.
Definition cdn : Url := url "https://cdn.example.net/" "https" (Domain "cdn.example.net") "cdn.example.net" 443.
(** [http://[::ffff:169.254.169.254]/]. *)
Definition mapped_metadata : Url :=
  url "http://[::ffff:a9fe:a9fe]/" "http" (Ipv6 (0xFFFF * 2 ^ 32 + 0xA9FEA9FE)) "[::ffff:a9fe:a9fe]" 80.

Lemma check_target_exact_witness : check_target mapped_metadata api [] ≠ Ok ().
Proof.
  intros H. apply (check_target_exact mapped_metadata api []) in H as [H|[_ [H _]]].
  - vm_compute in H. discriminate H.
  - vm_compute in H. discriminate H.
  - vm_compute. split; [discriminate|reflexivity].
Defined.

Definition sample_dns (name : string) : result string (list IpAddr) :=
  if decide (name = "cdn.example.net") then Ok [V4 0x5DB8D822] else Ok [].

Lemma sample_dns_ok name addrs : sample_dns name = Ok addrs → Forall ip_ok addrs.
Proof.
  unfold sample_dns. case_decide; intros [= <-]; repeat constructor; by vm_compute.
Qed.

Lemma request_confined_witness :
  metadata (normalize (V4 0x5DB8D822)) = false ∧ is_trusted cdn api [Suffix ".example.net"] = true.
Proof.
  destruct (request_confined (λ _, "") sample_dns api [Suffix ".example.net"] true api [cdn] cdn
              (V4 0x5DB8D822)) as (_ & [[_ H]|[H _]] & Ht).
  - repeat constructor.
  - exact sample_dns_ok.
  - vm_compute. reflexivity.
  - vm_compute. split; [reflexivity|exact I].
  - right. left.
  - eapply (connects_name _ _ _ _ "cdn.example.net" [V4 0x5DB8D822]); [reflexivity| |left].
    vm_compute. reflexivity.
  - discriminate H.
  - split; [exact H|]. apply Ht; [reflexivity|left].
Defined.

Lemma host_pattern_matches_witness :
  matches (Suffix ".example.com") "API.Example.com." = true.
Proof.
  destruct (host_pattern_matches (λ _, Some "com") "*.Example.com" (Suffix ".example.com")
              "API.Example.com.") as (H & _); [vm_compute; reflexivity|].
  apply H. exists "api". split; [discriminate|]. vm_compute. reflexivity.
Defined.
