(* ===== verification/Json.v ===== *)
(** * JSON values and the paths into them
    [serde_json::Value] as the HTTP source uses it, and the path language of
    [crates/pawrly-sources/http/src/paginate.rs]. An object is a [BTreeMap]: its fields in
    key order. *)

From S2P Require Export SemTypes.

(** A number: an unsigned or a negative integer, or a float by its shortest text. *)
Inductive Number :=
| PosInt (n : N)
| NegInt (z : Z)
| Float (text : string).

Inductive Json :=
| JNull
| JBool (b : bool)
| JNumber (n : Number)
| JString (s : string)
| JArray (items : list Json)
| JObject (fields : list (string * Json)).

#[export] Instance Number_eq_dec : EqDecision Number.
Proof. solve_decision. Defined.

(** Induction through the items of arrays and objects. *)
Section induction.
Context (P : Json → Prop)
  (Hnull : P JNull) (Hbool : ∀ b, P (JBool b)) (Hnum : ∀ n, P (JNumber n))
  (Hstr : ∀ s, P (JString s))
  (Harr : ∀ items, Forall P items → P (JArray items))
  (Hobj : ∀ fields, Forall (λ kv, P kv.2) fields → P (JObject fields)).

Fixpoint Json_ind' (v : Json) : P v :=
  match v with
  | JNull => Hnull
  | JBool b => Hbool b
  | JNumber n => Hnum n
  | JString s => Hstr s
  | JArray items =>
      Harr items ((fix go l : Forall P l :=
        match l with
        | [] => Forall_nil_2 _
        | v :: l => Forall_cons_2 _ _ _ (Json_ind' v) (go l)
        end) items)
  | JObject fields =>
      Hobj fields ((fix go l : Forall (λ kv, P kv.2) l :=
        match l with
        | [] => Forall_nil_2 _
        | kv :: l => Forall_cons_2 _ _ _ (Json_ind' kv.2) (go l)
        end) fields)
  end.
End induction.

(** ** Objects *)

(** [Map::get]. *)
Fixpoint obj_get (k : string) (fields : list (string * Json)) : option Json :=
  match fields with
  | [] => None
  | (k', v) :: fields => if decide (k = k') then Some v else obj_get k fields
  end.

(** [Map::insert]. *)
Fixpoint obj_insert (k : string) (v : Json) (fields : list (string * Json)) : list (string * Json) :=
  match fields with
  | [] => [(k, v)]
  | (k', v') :: rest =>
      if decide (k = k') then (k, v) :: rest
      else if str_leb k k' then (k, v) :: fields
      else (k', v') :: obj_insert k v rest
  end.

(** [Map::remove]. *)
Definition obj_remove (k : string) (fields : list (string * Json)) : list (string * Json) :=
  List.filter (λ kv, negb (bool_decide (kv.1 = k))) fields.

(** ** Accessors *)

(** [value.get(key)] for a string key and for an index. *)
Definition get (v : Json) (key : string) : option Json :=
  match v with JObject fields => obj_get key fields | _ => None end.

Definition get_idx (v : Json) (i : N) : option Json :=
  match v with
  | JArray items => if (i <? N.of_nat (length items))%N then items !! N.to_nat i else None
  | _ => None
  end.

Definition as_array (v : Json) : option (list Json) :=
  match v with JArray items => Some items | _ => None end.

Definition as_object (v : Json) : option (list (string * Json)) :=
  match v with JObject fields => Some fields | _ => None end.

Definition as_bool (v : Json) : option bool :=
  match v with JBool b => Some b | _ => None end.

Definition as_str (v : Json) : option string :=
  match v with JString s => Some s | _ => None end.

Definition as_u64 (v : Json) : option N :=
  match v with JNumber (PosInt n) => Some n | _ => None end.

(** [Number]'s [Display]. *)
Definition number_to_string (n : Number) : string :=
  match n with
  | PosInt n => show_N n
  | NegInt z => show_Z z
  | Float text => text
  end.

(** ** Paths *)

(** [trim_start_matches("$.").trim_start_matches('$')]. *)
Definition trim_path (path : string) : string :=
  trim_start_matches "$" (trim_start_matches2 "$" "." path).

(** The non-empty segments of a path. *)
Definition path_parts (path : string) : list string :=
  List.filter (λ p, negb (bool_decide (p = ""))) (split "." (trim_path path)).

(** The descent of [set_json_at_path], with the value the root is left as. *)
Fixpoint set_parts (parts : list string) (leaf : Json) (cur : Json) : bool * Json :=
  match parts with
  | [] => (true, leaf)
  | [last] =>
      match cur with
      | JObject fields => (true, JObject (obj_insert last leaf fields))
      | _ => (false, cur)
      end
  | part :: parts =>
      match cur with
      | JObject fields =>
          let child := default (JObject []) (obj_get part fields) in
          let '(ok, child) := set_parts parts leaf child in
          (ok, JObject (obj_insert part child fields))
      | _ => (false, cur)
      end
  end.

(** [set_json_at_path]: whether it succeeded, and the body afterwards. *)
Definition set_json_at_path (root : Json) (path : string) (leaf : Json) : bool * Json :=
  set_parts (path_parts path) leaf root.

(** [get_key_or_index]. *)
Definition get_key_or_index (v : Json) (key : string) : option Json :=
  match get v key with
  | Some v => Some v
  | None =>
      match v with
      | JArray _ => i ← parse_unsigned u64_max key; get_idx v i
      | _ => None
      end
  end.

(** The [while let] over trailing [[i]] indices; each turn consumes two characters. *)
Fixpoint index_loop (fuel : nat) (current : Json) (rest : string) : option Json :=
  match fuel with
  | O => Some current
  | S fuel =>
      match strip_prefix "[" rest with
      | None => Some current
      | Some stripped =>
          '(digits, rest) ← split_once "]" stripped;
          idx ← parse_unsigned u64_max (trim digits);
          current ← get_idx current idx;
          index_loop fuel current rest
      end
  end.

(** [segment_get]. *)
Definition segment_get (value : Json) (segment : string) : option Json :=
  let '(key, rest) := match split_once "[" segment with
                      | Some (key, rest) => (key, "[" +:+ rest)
                      | None => (segment, "")
                      end in
  current ← (if decide (key = "") then Some value else get_key_or_index value key);
  index_loop (String.length rest) current rest.

Fixpoint walk_parts (parts : list string) (current : Json) : option Json :=
  match parts with
  | [] => Some current
  | part :: parts =>
      if decide (part = "") then walk_parts parts current
      else current ← segment_get current part; walk_parts parts current
  end.

(** [json_at_path]. *)
Definition json_at_path (body : Json) (path : string) : option Json :=
  if decide (path = "$") then Some body
  else walk_parts (split "." (trim_path path)) body.

(** [value_to_cursor]. *)
Definition value_to_cursor (v : Json) : option string :=
  match v with
  | JString s => if decide (s = "") then None else Some s
  | JNumber n => Some (number_to_string n)
  | _ => None
  end.

(** [cursor_at_path]. *)
Definition cursor_at_path (body : Json) (path : string) : option string :=
  json_at_path body path ≫= value_to_cursor.

(** ** Writing and reading at a JSON path *)

(** ** Objects as maps *)

Lemma obj_get_insert k v fields : obj_get k (obj_insert k v fields) = Some v.
Proof.
  induction fields as [|[k' v'] fields IH]; simpl; [by rewrite decide_True|].
  destruct (decide (k = k')) as [->|Hne]; simpl; [by rewrite decide_True|].
  destruct (str_leb k k'); simpl; [by rewrite decide_True|]. by rewrite decide_False.
Qed.

Lemma obj_get_insert_ne k k' v fields : k ≠ k' → obj_get k' (obj_insert k v fields) = obj_get k' fields.
Proof.
  intros Hne. induction fields as [|[k1 v1] fields IH]; simpl; [by rewrite decide_False|].
  destruct (decide (k = k1)) as [->|]; simpl; [by rewrite !decide_False by congruence|].
  destruct (str_leb k k1); simpl; [by rewrite (decide_False (P := k' = k)) by congruence|].
  by rewrite IH.
Qed.

(** Fields in strictly increasing key order. *)
Definition sorted_fields (fields : list (string * Json)) : Prop :=
  StronglySorted (λ x y, str_leb x.1 y.1 = true ∧ x.1 ≠ y.1) fields.

(** Every object, at any depth, is a [BTreeMap]. *)
Fixpoint json_wf (v : Json) : Prop :=
  match v with
  | JArray items => foldr (λ v acc, json_wf v ∧ acc) True items
  | JObject fields => sorted_fields fields ∧ foldr (λ kv acc, json_wf kv.2 ∧ acc) True fields
  | _ => True
  end.

Lemma obj_insert_same k v fields :
  sorted_fields fields → obj_get k fields = Some v → obj_insert k v fields = fields.
Proof.
  induction fields as [|[k1 v1] fields IH]; [done|]. simpl. intros [Hs Hall]%StronglySorted_inv.
  destruct (decide (k = k1)) as [->|Hne]; [by intros [= ->]|]. intros Hg.
  destruct (str_leb k k1) eqn:Hle; [|by rewrite IH]. exfalso.
  assert (∃ v', (k, v') ∈ fields) as (v' & Hin).
  { clear -Hg. induction fields as [|[k2 v2] fields IH]; [done|]. simpl in Hg.
    destruct (decide (k = k2)) as [->|]; [exists v2; by left|].
    destruct (IH Hg) as [v' ?]. exists v'. by right. }
  rewrite list.Forall_forall in Hall. destruct (Hall _ Hin) as [Hle' _]. simpl in Hle'.
  apply Hne. by apply str_leb_antisym.
Qed.

Lemma json_wf_get fields k v : json_wf (JObject fields) → obj_get k fields = Some v → json_wf v.
Proof.
  simpl. intros [_ Hall]. induction fields as [|[k1 v1] fields IH]; [done|]. simpl in *.
  destruct Hall as [Hv Hall]. destruct (decide (k = k1)); [by intros [= <-]|by apply IH].
Qed.

(** ** [set_json_at_path] *)

Lemma set_parts_cons part parts leaf fields :
  parts ≠ [] →
  set_parts (part :: parts) leaf (JObject fields) =
    let '(ok, child) := set_parts parts leaf (default (JObject []) (obj_get part fields)) in
    (ok, JObject (obj_insert part child fields)).
Proof. by destruct parts. Qed.

(** Below a freshly made object the descent cannot be blocked. *)
Lemma set_parts_fresh parts leaf : (set_parts parts leaf (JObject [])).1 = true.
Proof.
  induction parts as [|part parts IH]; [done|]. destruct parts as [|part' parts]; [done|].
  rewrite set_parts_cons by done. simpl obj_get. simpl default.
  by destruct (set_parts (part' :: parts) leaf (JObject [])).
Qed.

Lemma set_parts_blocked parts leaf v v' :
  json_wf v → set_parts parts leaf v = (false, v') → v' = v.
Proof.
  revert v v'. induction parts as [|part parts IH]; intros v v' Hwf; [done|].
  destruct v as [| | | | |fields]; try (by destruct parts; intros [= <-]).
  destruct parts as [|part' parts]; [done|]. rewrite set_parts_cons by done.
  destruct (obj_get part fields) as [child|] eqn:Hg; simpl default.
  - destruct (set_parts _ _ child) as [ok child'] eqn:Hs. intros [= -> <-].
    apply IH in Hs as ->; [|by eapply json_wf_get]. f_equal. apply obj_insert_same; [apply Hwf|done].
  - pose proof (set_parts_fresh (part' :: parts) leaf) as Hf.
    destruct (set_parts _ _ (JObject [])) as [ok child']. simpl in Hf. subst. done.
Qed.

(** ** Reading back *)

(** A segment that names a key, with no index. *)
Definition plain (part : string) : Prop := part ≠ "" ∧ contains_chr "[" part = false.

Lemma segment_get_plain v part : plain part → segment_get v part = get_key_or_index v part.
Proof.
  intros [Hne Hc]. unfold segment_get. apply split_once_none in Hc as ->.
  rewrite decide_False by done. by destruct (get_key_or_index v part).
Qed.

Lemma segment_get_object fields part :
  plain part → segment_get (JObject fields) part = obj_get part fields.
Proof.
  intros Hp. rewrite segment_get_plain by done. unfold get_key_or_index. simpl.
  by destruct (obj_get part fields).
Qed.

(** The walk without its empty segments. *)
Fixpoint descend (parts : list string) (v : Json) : option Json :=
  match parts with
  | [] => Some v
  | part :: parts => segment_get v part ≫= descend parts
  end.

Lemma walk_parts_descend parts v :
  walk_parts parts v = descend (List.filter (λ p, negb (bool_decide (p = ""))) parts) v.
Proof.
  revert v. induction parts as [|part parts IH]; intros v; [done|]. simpl.
  case_bool_decide as Hp; simpl; [by rewrite decide_True|]. rewrite decide_False by done.
  destruct (segment_get v part); simpl; [apply IH|done].
Qed.

Lemma json_at_path_descend body path : json_at_path body path = descend (path_parts path) body.
Proof.
  unfold json_at_path. case_decide as Hp; [by subst|]. apply walk_parts_descend.
Qed.

Lemma descend_set parts leaf v v' :
  Forall plain parts → set_parts parts leaf v = (true, v') → descend parts v' = Some leaf.
Proof.
  revert v v'. induction parts as [|part parts IH]; intros v v' Hp; [by intros [= ->]|].
  apply Forall_cons in Hp as [Hpart Hp].
  destruct v as [| | | | |fields]; try (by destruct parts).
  destruct parts as [|part' parts].
  - intros [= <-]. simpl. by rewrite segment_get_object, obj_get_insert.
  - rewrite set_parts_cons by done. destruct (set_parts _ _ _) as [ok child] eqn:Hs. intros [= -> <-].
    cbn [descend]. rewrite segment_get_object, obj_get_insert by done. by eapply IH.
Qed.

(** Two paths that part ways after a common prefix. *)
Definition diverges (ps qs : list string) : Prop :=
  ∃ common p ps' q qs', ps = common ++ p :: ps' ∧ qs = common ++ q :: qs' ∧ p ≠ q.

Lemma descend_fresh qs part parts leaf v :
  qs ≠ [] → Forall plain qs → diverges (part :: parts) qs →
  set_parts (part :: parts) leaf (JObject []) = (true, v) → descend qs v = None.
Proof.
  revert qs part v. induction parts as [|part' parts IH]; intros qs part v Hne Hq Hd Hs.
  - injection Hs as <-. destruct Hd as ([|c common] & p & ps' & q & qs' & Hp & -> & Hpq).
    + simpl in Hp. injection Hp as -> <-. apply Forall_cons in Hq as [Hq _]. cbn [app descend].
      rewrite segment_get_object by done. simpl. by rewrite decide_False by congruence.
    + simpl in Hp. injection Hp as _ Hp. by destruct common.
  - rewrite set_parts_cons in Hs by done. simpl default in Hs.
    destruct (set_parts _ _ _) as [ok child'] eqn:Hc. injection Hs as -> <-.
    destruct Hd as ([|c common] & p & ps' & q & qs' & Hp & -> & Hpq).
    + simpl in Hp. injection Hp as -> <-. apply Forall_cons in Hq as [Hq _]. cbn [app descend].
      rewrite segment_get_object by done. simpl. by rewrite decide_False by congruence.
    + simpl in Hp. injection Hp as <- Hp. apply Forall_cons in Hq as [Hq0 Hq]. cbn [app descend].
      rewrite segment_get_object by done. simpl. rewrite decide_True by done. simpl.
      apply (IH (common ++ q :: qs') part' child'); [by destruct common|done| |done].
      by exists common, p, ps', q, qs'.
Qed.

Lemma descend_set_other ps qs leaf v v' :
  Forall plain qs → diverges ps qs → set_parts ps leaf v = (true, v') → descend qs v' = descend qs v.
Proof.
  intros Hq (common & p & ps' & q & qs' & -> & -> & Hpq). revert v v'.
  induction common as [|c common IH]; intros v v' Hs; cbn [app] in *; cbn [descend].
  - apply Forall_cons in Hq as [Hq _].
    destruct v as [| | | | |fields]; try (by destruct ps').
    destruct ps' as [|p' ps'].
    + injection Hs as <-. by rewrite !segment_get_object, obj_get_insert_ne.
    + rewrite set_parts_cons in Hs by done. destruct (set_parts _ _ _) as [ok child].
      injection Hs as -> <-. by rewrite !segment_get_object, obj_get_insert_ne.
  - apply Forall_cons in Hq as [Hc Hq].
    destruct v as [| | | | |fields]; try (by destruct common).
    rewrite set_parts_cons in Hs by by destruct common.
    destruct (set_parts _ _ _) as [ok child] eqn:Hch. injection Hs as -> <-.
    rewrite !segment_get_object, obj_get_insert by done. simpl.
    destruct (obj_get c fields) as [old|]; cbn [default mbind option_bind] in *; [by eapply IH|].
    destruct common as [|c' common]; cbn [app] in *.
    + eapply (descend_fresh (q :: qs') p ps'); [done|done| |exact Hch].
      by exists [], p, ps', q, qs'.
    + eapply (descend_fresh (c' :: common ++ q :: qs') c' (common ++ p :: ps')); [done|done| |exact Hch].
      by exists (c' :: common), p, ps', q, qs'.
Qed.

(** Writing at a JSON path and reading it back: when [set_json_at_path] succeeds, the
    path (of plain keys) reads as the value written, and every other plain path that parts
    ways with it reads as before; when it fails, the body is unchanged - also although
    intermediate objects are created on the way. *)
Theorem set_json_reads_back root path leaf ok root' :
  json_wf root → set_json_at_path root path leaf = (ok, root') →
  if ok then
    (Forall plain (path_parts path) → json_at_path root' path = Some leaf) ∧
    (∀ other, Forall plain (path_parts other) → diverges (path_parts path) (path_parts other) →
       json_at_path root' other = json_at_path root other)
  else root' = root.
Proof.
  unfold set_json_at_path. intros Hwf Hs. destruct ok; [|by eapply set_parts_blocked].
  split; [|intros other Hp Hd]; rewrite !json_at_path_descend.
  - intros Hp. by eapply descend_set.
  - by eapply descend_set_other.
Qed.

Definition sample_body : Json :=
  JObject [("query", JString "q"); ("variables", JObject [("first", JNumber (PosInt 50))])].

Lemma set_json_reads_back_witness :
  ∃ root', set_json_at_path sample_body "$.variables.page.after" (JString "c1") = (true, root') ∧
    json_at_path root' "$.variables.page.after" = Some (JString "c1") ∧
    json_at_path root' "variables.first" = Some (JNumber (PosInt 50)).
Proof.
  eexists. split; [vm_compute; reflexivity|].
  destruct (set_json_reads_back sample_body "$.variables.page.after" (JString "c1") true
    (set_json_at_path sample_body "$.variables.page.after" (JString "c1")).2) as [H1 H2].
  - repeat split; repeat constructor; done.
  - vm_compute. reflexivity.
  - split.
    + apply H1. vm_compute. repeat constructor; done.
    + transitivity (json_at_path sample_body "variables.first"); [|vm_compute; reflexivity].
      apply H2; [vm_compute; repeat constructor; done|].
      exists ["variables"], "page", ["after"], "first", []. vm_compute. done.
Defined.
