(* ===== verification/Paginate.v ===== *)
(** * Pagination ([crates/pawrly-sources/http/src/paginate.rs])
    From a response and the state of the current request to the next one. Row counts and
    page indices are [usize], 64 bits wide. *)

From S2P Require Export Json.

(** [PaginationConfig] of [source.rs]. *)
Inductive PaginationConfig :=
| LinkHeader
| Cursor (next_path param : string)
| RowCursor (param field : string) (more_path : option string)
| Page (param : string) (start : N) (size_param : option string) (size : option N)
| Offset (param size_param : string) (size : N)
| BodyCursor (cursor_path next_path : string).

(** [NextPage]. *)
Inductive NextPage :=
| NextParams (params : gmap string string)
| NextUrl (url : string)
| NextBodyCursor (cursor : string).

(** ** The [Link] header *)

(** The attributes after the URL: whether one says [rel=next], and one [results=false]. *)
Definition link_attr (st : bool * bool) (attr : string) : bool * bool :=
  let '(is_next, results_false) := st in
  let attr := trim attr in
  let unquote := trim_matches (λ c, bool_decide (c = dquote) || bool_decide (c = squote)) in
  match strip_prefix "rel=" attr with
  | Some v => (is_next || bool_decide (unquote v = "next"), results_false)
  | None =>
      match strip_prefix "results=" attr with
      | Some v => (is_next, results_false || bool_decide (unquote v = "false"))
      | None => st
      end
  end.

(** One comma-separated entry. *)
Definition link_entry (part : string) : option string :=
  match split ";" part with
  | [] => None
  | url_seg :: segments =>
      let url := trim_end_matches (λ c, bool_decide (c = ">"%char))
                   (trim_start_matches "<" (trim url_seg)) in
      if decide (url = "") then None
      else
        let '(is_next, results_false) := foldl link_attr (false, false) segments in
        if is_next && negb results_false then Some url else None
  end.

(** [parse_link_next], on the header's text when it has one. *)
Definition parse_link_next (link : option string) : option string :=
  header ← link; head (omap link_entry (split "," header)).

(** ** Requests *)

(** [entry(key).or_insert(value)]. *)
Definition or_insert (k v : string) (params : gmap string string) : gmap string string :=
  match params !! k with
  | Some _ => params
  | None => <[k := v]> params
  end.

(** [seed_initial]. *)
Definition seed_initial (config : PaginationConfig) (params : gmap string string)
    : gmap string string :=
  match config with
  | Page param start size_param size =>
      let params := or_insert param (show_N start) params in
      match size_param, size with
      | Some sp, Some sz => or_insert sp (show_N sz) params
      | _, _ => params
      end
  | Offset param size_param size =>
      or_insert size_param (show_N size) (or_insert param "0" params)
  | _ => params
  end.

(** [next_page]. *)
Definition next_page (config : PaginationConfig) (params : gmap string string) (body : Json)
    (link : option string) (rows : list Json) (page_index : N) : option NextPage :=
  let row_count := N.of_nat (length rows) in
  match config with
  | LinkHeader => NextUrl <$> parse_link_next link
  | Cursor next_path param =>
      if decide (rows = []) then None
      else
        cursor ← cursor_at_path body next_path;
        if decide (params !! param = Some cursor) then None
        else Some (NextParams (<[param := cursor]> params))
  | RowCursor param field more_path =>
      let stop := match more_path with
                  | Some path => negb (bool_decide ((json_at_path body path ≫= as_bool) = Some true))
                  | None => bool_decide (rows = [])
                  end in
      if stop : bool then None
      else
        row ← last rows;
        v ← get row field;
        cursor ← value_to_cursor v;
        Some (NextParams (<[param := cursor]> params))
  | Page param start size_param size =>
      if decide (row_count = 0%N) then None
      else
        let next_num := u32_saturating_add start (u32_saturating_add (as_u32 page_index) 1) in
        let next := <[param := show_N next_num]> params in
        Some (NextParams (match size_param, size with
                          | Some sp, Some sz => <[sp := show_N sz]> next
                          | _, _ => next
                          end))
  | Offset param size_param size =>
      if (row_count <? size)%N then None
      else
        let next_offset := u64_saturating_mul size (u64_saturating_add page_index 1) in
        Some (NextParams (<[size_param := show_N size]> (<[param := show_N next_offset]> params)))
  | BodyCursor _ next_path =>
      if decide (rows = []) then None
      else NextBodyCursor <$> cursor_at_path body next_path
  end.
