(* ===== verification/HttpSpec.v ===== *)
(** * HTTP source declarations ([crates/pawrly-sources/http/src/source.rs])
    Tables, parameters, requests and responses as a configuration declares them, with the
    operations that only read the declaration. A [BTreeMap] is a [gmap], iterated in key
    order by [btree_iter]. *)

From S2P Require Export Paginate Guard.

(** ** [BTreeMap] iteration *)

Definition key_leb {A} (x y : string * A) : bool := str_leb x.1 y.1.

Definition btree_iter {A} (m : gmap string A) : list (string * A) :=
  sort_by key_leb (map_to_list m).

(** [bound_in]. *)
Definition bound_in {A} (k : string) (m : gmap string A) : bool :=
  bool_decide (is_Some (m !! k)).

(** [str::contains(&str)]. *)
Definition contains_str (pat s : string) : bool := bool_decide (is_Some (split_once_str pat s)).

(** ** Credentials *)

Record AuthHeader := { ah_name : string; ah_bearer : option string; ah_value : option string }.

Record QueryCredential := { qc_name : string; qc_value : string }.

(** [AuthSpec]; the constructor [None] of the source is [NoAuth]. *)
Inductive AuthSpec :=
| NoAuth
| Header (headers : list AuthHeader)
| Basic (username password : string)
| Custom (query body : list QueryCredential)
| Oauth2 (token_url client_id client_secret : string) (scope audience : option string).

(** [AuthSpec::bearer]. *)
Definition bearer (token : string) : AuthSpec :=
  Header [{| ah_name := "Authorization"; ah_bearer := Some token; ah_value := None |}].

(** Collecting pairs into a [serde_json::Map]: later entries replace earlier ones. *)
Definition obj_extend (fields : list (string * Json)) (new : list (string * Json))
    : list (string * Json) :=
  foldl (λ acc kv, obj_insert kv.1 kv.2 acc) fields new.

(** [custom_body_object]. *)
Definition custom_body_object (fields : list QueryCredential) : list (string * Json) :=
  obj_extend [] ((λ c, (qc_name c, JString (qc_value c))) <$> fields).

(** [expires_at] in nanoseconds since the epoch. *)
Record CachedToken := { ct_token : string; ct_expires_at : N }.

(** ** Parameters *)

Inductive Derive :=
| Ago (seconds : N)
| Split (from separator : string) (part : N).

(** [str.split(&str)] for a non-empty separator. *)
Fixpoint split_str_loop (fuel : nat) (sep s : string) : list string :=
  match fuel with
  | O => [s]
  | S fuel =>
      match split_once_str sep s with
      | None => [s]
      | Some (l, r) => l :: split_str_loop fuel sep r
      end
  end.

(** The characters of a text: a byte that continues a character joins the one before. *)
Fixpoint utf8_chars (s : string) : list string :=
  match s with
  | "" => []
  | String c s =>
      match utf8_chars s with
      | String d x :: l => if is_cont d then String c (String d x) :: l
                           else chr c :: String d x :: l
      | l => chr c :: l
      end
  end.

(** [str.split(&str)]; an empty separator matches before every character and at the end. *)
Definition split_str (sep s : string) : list string :=
  if decide (sep = "") then "" :: utf8_chars s ++ [""]
  else split_str_loop (S (String.length s)) sep s.

(** [Derive::resolve]; [now_epoch] is an [i64]. *)
Definition Derive_resolve (d : Derive) (params : gmap string string) (now_epoch : Z)
    : option string :=
  match d with
  | Ago seconds => Some (show_Z (now_epoch - Z.min (Z.of_N seconds) i64_max))
  | Split from separator part =>
      v ← params !! from;
      let pieces := split_str separator v in
      if (part <? N.of_nat (length pieces))%N then pieces !! N.to_nat part else None
  end.

Record ParamSpec := {
  p_name : string;
  p_type : string;
  p_required : bool;
  p_default : option string;
  p_accepts : list string;
  p_emit : gmap string string;
  p_explode : bool;
  p_derive : option Derive;
  p_filterable : bool
}.

(** ** Retries and rate limits; milliseconds *)

Record RetryConfig := {
  max_retries : N;
  base_backoff_ms : N;
  max_backoff_ms : N
}.

(** [RetryConfig::default]. *)
Definition RetryConfig_default : RetryConfig :=
  {| max_retries := 3; base_backoff_ms := 200; max_backoff_ms := 5000 |}.

(** [limiter] says whether the source has a token bucket. *)
Record RateLimitPolicy := {
  limiter : bool;
  remaining_header : option string;
  reset_header : option string;
  extra_statuses : list N
}.

(** [RateLimitPolicy::default]. *)
Definition RateLimitPolicy_default : RateLimitPolicy :=
  {| limiter := false; remaining_header := None; reset_header := None; extra_statuses := [] |}.

(** ** Requests *)

Inductive BodyKind := BodyJson | BodyForm.
#[export] Instance BodyKind_eq_dec : EqDecision BodyKind.
Proof. solve_decision. Defined.

Record RequestBody := { rb_kind : BodyKind; rb_template : string }.

Record ConditionalRequest := {
  cr_when_filters : list string;
  cr_endpoint : string;
  cr_method : string;
  cr_body : option RequestBody
}.

(** ** Responses *)

Inductive Reshape :=
| DictEntries
| SeriesPoints (series points timestamp value : string).

Inductive StatusMatcher :=
| StatusExact (code : N)
| StatusExpr (expr : string).

Definition u16_max : N := 65535.

(** [u16] arithmetic of the release profile, which wraps. *)
Definition u16_mul (a b : N) : N := ((a * b) mod (u16_max + 1))%N.
Definition u16_add (a b : N) : N := ((a + b) mod (u16_max + 1))%N.

(** The comparison operators of a status expression, in the order they are tried. *)
Definition status_ops : list string := [">="; "<="; ">"; "<"; "=="; "="].

Definition status_compare (op : string) (status code : N) : bool :=
  if decide (op = ">=") then (code <=? status)%N
  else if decide (op = "<=") then (status <=? code)%N
  else if decide (op = ">") then (code <? status)%N
  else if decide (op = "<") then (status <? code)%N
  else (status =? code)%N.

(** The [for op in …] loop: the value it returns, when it does. *)
Fixpoint status_op_loop (ops : list string) (expr : string) (status : N) : option bool :=
  match ops with
  | [] => None
  | op :: ops =>
      match strip_prefix op expr with
      | Some rest =>
          Some (match parse_unsigned u16_max (trim rest) with
                | Some code => status_compare op status code
                | None => false
                end)
      | None => status_op_loop ops expr status
      end
  end.

(** [match_status_expr]. *)
Definition match_status_expr (expr : string) (status : N) : bool :=
  let expr := trim expr in
  match strip_suffix "xx" expr with
  | Some prefix =>
      match parse_unsigned u16_max prefix with
      | Some hundreds =>
          let base := u16_mul hundreds 100 in
          (base <=? status)%N && (status <? u16_add base 100)%N
      | None => false
      end
  | None =>
      match status_op_loop status_ops expr status with
      | Some b => b
      | None => match parse_unsigned u16_max expr with
                | Some c => (c =? status)%N
                | None => false
                end
      end
  end.

(** [StatusMatcher::matches]. *)
Definition status_matches (m : StatusMatcher) (status : N) : bool :=
  match m with
  | StatusExact code => (code =? status)%N
  | StatusExpr expr => match_status_expr expr status
  end.

Record ResponseErrorSpec := { re_status : list StatusMatcher; re_path : option string }.

(** [ColumnExpr] of [expr.rs]. *)
Inductive ColumnExpr :=
| XPath (path : list string)
| XCurrentRow
| XNull
| XFromFilter (filter : string)
| XCoalesce (exprs : list ColumnExpr)
| XToTimestamp (unit : string) (expr : ColumnExpr)
| XJoin (path : list string)
| XMapJoin (path item_path : list string)
| XFirstOf (path item_path : list string)
| XLookup (path : list string) (key key_field value_field : string)
| XLookupJoin (path : list string) (key key_field value_field : string)
| XPick (path : list string) (by_ : string) (item_path : list string)
| XLiteral (value : Json)
| XIfPresent (check : ColumnExpr) (then_value : Json)
| XFromBase64 (expr : ColumnExpr)
| XReplace (expr : ColumnExpr) (from to : string).

Record ResponseColumn := {
  c_name : string;
  c_type : string;
  c_source : option string;
  c_expr : option ColumnExpr
}.

Record ResponseSpec := {
  r_path : string;
  r_schema : list ResponseColumn;
  r_allow_404_empty : bool;
  r_error : option ResponseErrorSpec;
  r_reshape : option Reshape
}.

Record HttpTableSpec := {
  t_name : string;
  t_endpoint : string;
  t_method : string;
  t_params : list ParamSpec;
  t_headers : gmap string string;
  t_body : option RequestBody;
  t_requests : list ConditionalRequest;
  t_response : ResponseSpec;
  t_pagination : option PaginationConfig;
  t_description : option string
}.

(** [HttpSource], without its client, its variable store and its token cache, which the
    effects of [HttpIo] stand for; headers as name and value texts. *)
Record HttpSource := {
  s_name : string;
  s_base_url : Url;
  s_allowed_hosts : list HostPattern;
  s_auth : AuthSpec;
  s_headers : list (string * string);
  s_retry : RetryConfig;
  s_rate_limit : RateLimitPolicy;
  s_dynamic : gmap string string
}.

(** [custom_body_fields]. *)
Definition custom_body_fields (s : HttpSource) : list QueryCredential :=
  match s_auth s with
  | Custom _ body => body
  | _ => []
  end.

(** ** Columns *)

Inductive DataType :=
| Boolean | Int32 | Int64 | Float32 | Float64 | Date32 | Utf8
| TimestampMicro (tz : option string).
#[export] Instance DataType_eq_dec : EqDecision DataType.
Proof. solve_decision. Defined.

(** [parse_arrow_type]. *)
Definition parse_arrow_type (s : string) : DataType :=
  let s := to_ascii_lowercase s in
  let is_one_of l := bool_decide (s ∈ l) in
  if is_one_of ["bool"; "boolean"] then Boolean
  else if is_one_of ["int"; "int32"] then Int32
  else if is_one_of ["bigint"; "int64"; "long"] then Int64
  else if is_one_of ["float"; "float32"] then Float32
  else if is_one_of ["double"; "float64"] then Float64
  else if is_one_of ["date"] then Date32
  else if is_one_of ["timestamp"] then TimestampMicro None
  else if is_one_of ["timestamptz"] then TimestampMicro (Some "UTC")
  else Utf8.

(** [effective_columns]. *)
Definition effective_columns (table : HttpTableSpec) : list ResponseColumn :=
  let cols := r_schema (t_response table) in
  let declared := c_name <$> cols in
  cols ++ omap (λ p,
    if p_filterable p && negb (bool_decide (p_name p ∈ declared)) then
      Some {| c_name := p_name p; c_type := p_type p; c_source := Some "param"; c_expr := None |}
    else None) (t_params table).

Record Field := { f_name : string; f_type : DataType; f_nullable : bool }.

(** [schema_for]. *)
Definition schema_for (table : HttpTableSpec) : list Field :=
  (λ c, {| f_name := c_name c; f_type := parse_arrow_type (c_type c); f_nullable := true |})
    <$> effective_columns table.

(** [parse_var_ref]. *)
Definition parse_var_ref (s : string) : option string :=
  body ← strip_prefix "${" (trim s) ≫= strip_suffix "}";
  '(prefix, target) ← split_once ":" body;
  if decide (prefix = "var") then Some target else None.
