(* ===== verification/HttpIo.v ===== *)
(** * Effects of the HTTP source
    What a scan does to the world: requests, waits, variable lookups. The libraries below the
    source (reqwest, url, serde_json, governor, the variable store) are an interface, [Web];
    a computation is a state transformer that may fail and that logs what it sends and how
    long it waits. Times are nanoseconds since the Unix epoch. *)

From S2P Require Export HttpSpec.

(** ** Messages *)

Record Request := {
  rq_method : string;
  rq_url : Url;
  rq_headers : list (string * string);
  rq_body : option string
}.

(** Header names are in lower case; values are raw bytes. [rs_text] is what reading the body
    as text gives. *)
Record Response := {
  rs_status : N;
  rs_headers : list (string * string);
  rs_text : result string string
}.

(** A transport error: whether a redirect was refused, and the error's display followed by
    those of its sources. *)
Inductive SendResult :=
| Received (resp : Response)
| Failed (is_redirect : bool) (chain : list string).

(** [reqwest::RequestBuilder]: a request, or the error its construction met. *)
Definition Builder := result (list string) Request.

(** [DataFusionError], and the panic of an arithmetic overflow in the standard library. The
    last case is the model's own: a loop that used up its fuel. *)
Inductive Fault :=
| Plan (msg : string)
| External (msg : string)
| Panic (msg : string)
| OutOfFuel.

Inductive Event :=
| Sent (rq : Request)
| TokenSent (rq : Request)
| Slept (ns : N).

(** ** The libraries *)

Class Web := {
  World : Type;
  (* reqwest *)
  transport : Request → World → SendResult * World;
  parse_method : string → option string;
  header_error : string → string → option string;
  basic_value : string → string → string;
  form_body : list (string * string) → string;
  show_status : N → string;
  (* the clock, timers and the rate limiter *)
  clock : World → N;
  sleep_for : N → World → World;
  until_ready : World → World;
  (* the variable store *)
  resolve_var : string → World → result string string * World;
  (* url *)
  url_parse : string → result string Url;
  url_join : Url → string → result string Url;
  append_pairs : Url → list (string * string) → Url;
  (* serde_json *)
  from_str : string → result string Json;
  to_string : Json → string;
  to_debug : Json → string
}.

(** What the source relies on: appending query pairs leaves the rest of a URL alone. *)
Class WebLaws (w : Web) := {
  append_pairs_origin u kvs :
    u_scheme (append_pairs u kvs) = u_scheme u ∧ u_host (append_pairs u kvs) = u_host u ∧
    u_host_str (append_pairs u kvs) = u_host_str u ∧ u_port (append_pairs u kvs) = u_port u
}.

(** ** Computations *)

Section io.
Context {w : Web}.

Record St := { st_world : World; st_token : option CachedToken; st_log : list Event }.

Definition io (A : Type) : Type := St → result Fault A * St.

Definition ret {A} (a : A) : io A := λ s, (Ok a, s).
Definition fail {A} (e : Fault) : io A := λ s, (Err e, s).

Definition iobind {A B} (m : io A) (f : A → io B) : io B := λ s,
  match m s with
  | (Ok a, s) => f a s
  | (Err e, s) => (Err e, s)
  end.

(** [?] on a pure result. *)
Definition lift {A} (m : result Fault A) : io A := λ s, (m, s).

Definition log (e : Event) (s : St) : St :=
  {| st_world := st_world s; st_token := st_token s; st_log := st_log s ++ [e] |}.

Definition with_world (w' : World) (s : St) : St :=
  {| st_world := w'; st_token := st_token s; st_log := st_log s |}.

(** Sends a request; [ev] names what it is sent for. *)
Definition send_as (ev : Request → Event) (rq : Request) : io SendResult := λ s,
  let '(r, w') := transport rq (st_world s) in (Ok r, with_world w' (log (ev rq) s)).

Definition now : io N := λ s, (Ok (clock (st_world s)), s).

Definition sleep (ns : N) : io () := λ s,
  (Ok (), with_world (sleep_for ns (st_world s)) (log (Slept ns) s)).

Definition wait_permit : io () := λ s, (Ok (), with_world (until_ready (st_world s)) s).

Definition get_var (id : string) : io (result string string) := λ s,
  let '(r, w') := resolve_var id (st_world s) in (Ok r, with_world w' s).

Definition get_token : io (option CachedToken) := λ s, (Ok (st_token s), s).

Definition set_token (t : CachedToken) : io () := λ s,
  (Ok (), {| st_world := st_world s; st_token := Some t; st_log := st_log s |}).

End io.

Arguments io {_} _%_type_scope.

Declare Scope io_scope.
Notation "'let!' x := m 'in' k" := (iobind m (λ x, k))
  (at level 10, x name, m at level 100, k at level 200) : io_scope.
Notation "'let!' ' p := m 'in' k" := (iobind m (λ x, let p := x in k))
  (at level 10, p strict pattern, m at level 100, k at level 200) : io_scope.
Open Scope io_scope.

(** ** Headers and time *)

(** [HeaderMap::get(name)], by a name in any case, then [to_str().ok()]. *)
Definition visible_ascii (c : ascii) : bool := in_range 32 126 c || bool_decide (code c = 9%N).

Fixpoint header_get (headers : list (string * string)) (name : string) : option string :=
  match headers with
  | [] => None
  | (k, v) :: headers => if decide (k = to_ascii_lowercase name) then Some v
                         else header_get headers name
  end.

Definition header_str (headers : list (string * string)) (name : string) : option string :=
  v ← header_get headers name; if all_chars visible_ascii v then Some v else None.

Definition ns_per_ms : N := 1000000.
Definition ns_per_s : N := 1000000000.

(** [SystemTime + Duration::from_secs(secs)]: seconds are kept as an [i64]. *)
Definition time_add_secs (t secs : N) : result Fault N :=
  if (t / ns_per_s + secs <=? Z.to_N i64_max)%N then Ok (t + secs * ns_per_s)%N
  else Err (Panic "overflow when adding duration to instant").

(** [later.duration_since(earlier).ok()]. *)
Definition duration_since (later earlier : N) : option N :=
  if (earlier <=? later)%N then Some (later - earlier)%N else None.

(** ** Facts *)

Section facts.
Context {w : Web}.

Lemma iobind_ok {A B} (m : io A) (f : A → io B) s b s' :
  iobind m f s = (Ok b, s') ↔ ∃ a s1, m s = (Ok a, s1) ∧ f a s1 = (Ok b, s').
Proof.
  unfold iobind. destruct (m s) as [[a|e] s1]; split.
  - eauto.
  - by intros (? & ? & [= <- <-] & ?).
  - intros [=].
  - by intros (? & ? & [=] & _).
Qed.

(** Every run of [m] only appends to the log; what it appends satisfies [L] and its
    outcome satisfies [Q]. *)
Definition runs {A} (L : list Event → Prop) (m : io A) (Q : result Fault A → Prop) : Prop :=
  ∀ s, ∃ l, st_log (m s).2 = st_log s ++ l ∧ L l ∧ Q (m s).1.

Definition on_ok {A} (Q : A → Prop) (r : result Fault A) : Prop :=
  match r with Ok a => Q a | Err _ => True end.

(** Each event satisfies [P], and a value that is returned [Q]. *)
Definition does {A} (P : Event → Prop) (m : io A) (Q : A → Prop) : Prop :=
  runs (Forall P) m (on_ok Q).

Definition is_sent (e : Event) : bool := match e with Sent _ => true | _ => false end.

Definition count_sent (l : list Event) : nat := length (List.filter is_sent l).

(** At most [n] requests are sent, and no loop runs out of fuel. *)
Definition sends {A} (n : nat) (m : io A) : Prop :=
  runs (λ l, count_sent l ≤ n) m (λ r, r ≠ Err OutOfFuel).

Lemma runs_silent {A} (L : list Event → Prop) (m : io A) (Q : result Fault A → Prop) :
  (∀ s, st_log (m s).2 = st_log s) → L [] → (∀ s, Q (m s).1) → runs L m Q.
Proof. intros Hm HL HQ s. exists []. by rewrite Hm, (right_id_L [] (++)). Qed.

Lemma does_bind {A B} P (m : io A) Q (f : A → io B) R :
  does P m Q → (∀ a, Q a → does P (f a) R) → does P (iobind m f) R.
Proof.
  intros Hm Hf s. unfold iobind. destruct (Hm s) as (l1 & Hl1 & HP1 & HQ).
  destruct (m s) as [[a|e] s1]; simpl in *; [|eauto].
  destruct (Hf a HQ s1) as (l2 & -> & ? & ?). exists (l1 ++ l2).
  rewrite Hl1, (assoc_L (++)). split_and!; [done| |done]. by apply Forall_app.
Qed.

Lemma does_weaken {A} P (m : io A) (Q R : A → Prop) :
  does P m Q → (∀ a, Q a → R a) → does P m R.
Proof.
  intros Hm HQR s. destruct (Hm s) as (l & ? & ? & HQ). exists l. split_and!; [done..|].
  destruct (m s).1; simpl in *; auto.
Qed.

Lemma does_true {A} P (m : io A) (Q : A → Prop) : does P m Q → does P m (λ _, True).
Proof. intros H. eapply does_weaken; eauto. Qed.

Lemma does_ret {A} P (a : A) (Q : A → Prop) : Q a → does P (ret a) Q.
Proof. intros. apply runs_silent; [done|constructor|done]. Qed.
Lemma does_fail {A} P e (Q : A → Prop) : does P (fail e) Q.
Proof. apply runs_silent; [done|constructor|done]. Qed.
Lemma does_lift {A} P (m : result Fault A) (Q : A → Prop) : on_ok Q m → does P (lift m) Q.
Proof. intros. apply runs_silent; [done|constructor|done]. Qed.
Lemma does_now P : does P now (λ _, True).
Proof. apply runs_silent; [done|constructor|done]. Qed.
Lemma does_wait_permit P : does P wait_permit (λ _, True).
Proof. apply runs_silent; [done|constructor|done]. Qed.
Lemma does_get_token P : does P get_token (λ _, True).
Proof. apply runs_silent; [done|constructor|done]. Qed.
Lemma does_set_token P t : does P (set_token t) (λ _, True).
Proof. apply runs_silent; [done|constructor|done]. Qed.
Lemma does_get_var P id : does P (get_var id) (λ _, True).
Proof.
  apply runs_silent; [|constructor|]; intros s; unfold get_var;
    by destruct (resolve_var id (st_world s)).
Qed.
Lemma does_sleep (P : Event → Prop) ns : P (Slept ns) → does P (sleep ns) (λ _, True).
Proof. intros ? s. exists [Slept ns]. by repeat constructor. Qed.
Lemma does_send (P : Event → Prop) ev rq : P (ev rq) → does P (send_as ev rq) (λ _, True).
Proof.
  intros ? s. exists [ev rq]. unfold send_as. destruct (transport rq (st_world s)).
  by repeat constructor.
Qed.

Lemma count_sent_app l1 l2 : count_sent (l1 ++ l2) = count_sent l1 + count_sent l2.
Proof. unfold count_sent. by rewrite List.filter_app, length_app. Qed.

Lemma sends_bind {A B} n1 n2 n (m : io A) (f : A → io B) :
  sends n1 m → (∀ a, sends n2 (f a)) → n1 + n2 ≤ n → sends n (iobind m f).
Proof.
  intros Hm Hf ? s. unfold iobind. destruct (Hm s) as (l1 & Hl1 & HP1 & HQ).
  destruct (m s) as [[a|e] s1]; simpl in *.
  - destruct (Hf a s1) as (l2 & -> & ? & ?). exists (l1 ++ l2).
    rewrite Hl1, (assoc_L (++)), count_sent_app. split_and!; [done|lia|done].
  - exists l1. split_and!; [done|lia|congruence].
Qed.

(** The common case: the rest of the computation sends what the whole may send. *)
Lemma sends_bind_0 {A B} n (m : io A) (f : A → io B) :
  sends 0 m → (∀ a, sends n (f a)) → sends n (iobind m f).
Proof. intros. by eapply sends_bind. Qed.

Lemma sends_le {A} n n' (m : io A) : sends n m → n ≤ n' → sends n' m.
Proof. intros Hm ? s. destruct (Hm s) as (l & ? & ? & ?). exists l. split_and!; [done|lia|done]. Qed.

Lemma sends_ret {A} n (a : A) : sends n (ret a).
Proof. apply runs_silent; [done|apply Nat.le_0_l|done]. Qed.
Lemma sends_fail {A} n e : e ≠ OutOfFuel → sends n (fail (A:=A) e).
Proof. intros ?. apply runs_silent; [done|apply Nat.le_0_l|]. intros s. simpl. congruence. Qed.
Lemma sends_lift {A} n (m : result Fault A) : m ≠ Err OutOfFuel → sends n (lift m).
Proof. intros. apply runs_silent; [done|apply Nat.le_0_l|done]. Qed.
Lemma sends_now n : sends n now.
Proof. apply runs_silent; [done|apply Nat.le_0_l|done]. Qed.
Lemma sends_wait_permit n : sends n wait_permit.
Proof. apply runs_silent; [done|apply Nat.le_0_l|done]. Qed.
Lemma sends_get_token n : sends n get_token.
Proof. apply runs_silent; [done|apply Nat.le_0_l|done]. Qed.
Lemma sends_set_token n t : sends n (set_token t).
Proof. apply runs_silent; [done|apply Nat.le_0_l|done]. Qed.
Lemma sends_get_var n id : sends n (get_var id).
Proof.
  apply runs_silent; [|apply Nat.le_0_l|]; intros s; unfold get_var;
    by destruct (resolve_var id (st_world s)).
Qed.
Lemma sends_sleep n ns : sends n (sleep ns).
Proof. intros s. exists [Slept ns]. split_and!; [done|apply Nat.le_0_l|done]. Qed.
Lemma sends_send rq : sends 1 (send_as Sent rq).
Proof.
  intros s. exists [Sent rq]. unfold send_as. by destruct (transport rq (st_world s)).
Qed.
Lemma sends_token rq : sends 0 (send_as TokenSent rq).
Proof.
  intros s. exists [TokenSent rq]. unfold send_as. by destruct (transport rq (st_world s)).
Qed.
End facts.

Create HintDb io.
#[export] Hint Resolve does_fail does_now does_wait_permit does_get_token
  does_set_token does_get_var does_sleep does_send : io.
#[export] Hint Resolve sends_ret sends_now sends_wait_permit sends_get_token
  sends_set_token sends_get_var sends_sleep sends_token : io.
#[export] Hint Extern 2 (does _ (ret _) _) => apply does_ret : io.
#[export] Hint Extern 2 (sends _ (fail _)) => apply sends_fail; discriminate : io.
#[export] Hint Extern 1 (on_ok _ (Err _)) => exact I : io.
