(* ===== verification/HttpRequest.v ===== *)
(** * Building a request ([typed.rs], [source.rs])
    From a table's declaration and bound parameters to the URL, headers, credentials and
    body of one HTTP request. *)

From S2P Require Export HttpIo.

(** [HttpTableProvider]. *)
Record HttpTableProvider := {
  h_source : HttpSource;
  h_spec : HttpTableSpec;
  h_schema : list Field;
  h_out_columns : list ResponseColumn;
  h_max_pages : option N;
  h_max_rows : option N
}.

(** [HttpTableProvider::with_safety]. *)
Definition with_safety (source : HttpSource) (spec : HttpTableSpec) (max_pages max_rows : option N)
    : HttpTableProvider :=
  {| h_source := source; h_spec := spec; h_schema := schema_for spec;
     h_out_columns := effective_columns spec; h_max_pages := max_pages;
     h_max_rows := max_rows |}.

(** ** Templates *)

(** [format!("{{{name}}}")]. *)
Definition needle (name : string) : string := "{" +:+ name +:+ "}".

Definition render_template (template : string) (params : gmap string string) : string :=
  foldl (λ out kv, replace out (needle kv.1) kv.2) template (btree_iter params).

Definition UNBOUND_SENTINEL : string := "__pawrly_unbound_placeholder__".

(** [filter_map]. *)
Definition filter_map {A B} (f : A → option B) : list A → list B :=
  fix go l :=
    match l with
    | [] => []
    | x :: l => match f x with Some y => y :: go l | None => go l end
    end.

Fixpoint prune_unbound_filters (value : Json) : option Json :=
  match value with
  | JString s => if decide (s = UNBOUND_SENTINEL) then None else Some value
  | JObject map =>
      let out := obj_extend [] (filter_map (λ kv,
                   match prune_unbound_filters kv.2 with
                   | Some pruned => Some (kv.1, pruned)
                   | None => None
                   end) map) in
      match map, out with
      | _ :: _, [] => None
      | _, _ => Some (JObject out)
      end
  | JArray arr => Some (JArray (filter_map prune_unbound_filters arr))
  | _ => Some value
  end.

Definition quoted (s : string) : string := chr dquote +:+ s +:+ chr dquote.

(** The [for name in unbound] loop. *)
Definition mark_unbound (rendered : string) (unbound : list string) : string :=
  foldl (λ marked name,
    replace (replace marked (quoted (needle name)) (quoted UNBOUND_SENTINEL))
            (needle name) (quoted UNBOUND_SENTINEL)) rendered unbound.

Section request.
Context {w : Web}.

Definition render_json_body (template : string) (bound : gmap string string)
    (declared : list ParamSpec) : string :=
  let rendered := render_template template bound in
  let unbound := p_name <$> List.filter (λ p, negb (bound_in (p_name p) bound)) declared in
  match unbound with
  | [] => rendered
  | _ :: _ =>
      match from_str (mark_unbound rendered unbound) with
      | Ok v => match prune_unbound_filters v with
                | Some pruned => to_string pruned
                | None => "{}"
                end
      | Err _ => rendered
      end
  end.

(** ** The URL *)

(** The loop over the bound parameters: the path so far, the query pairs so far. *)
Definition place_param (body_template : option string) (st : string * list (string * string))
    (kv : string * string) : string * list (string * string) :=
  let '(path, query) := st in
  let '(k, v) := kv in
  if contains_str (needle k) path then (replace path (needle k) v, query)
  else if match body_template with Some t => contains_str (needle k) t | None => false end
  then (path, query)
  else (path, query ++ [(k, v)]).

Definition build_url (base : Url) (allowed : list HostPattern) (endpoint : string)
    (params : gmap string string) (body_template : option string)
    (explode : gmap string (list string)) : result Fault Url :=
  let '(path, query) := foldl (place_param body_template) (endpoint, []) (btree_iter params) in
  let query := query ++ mjoin ((λ kv, (λ v, (kv.1, v)) <$> kv.2) <$> btree_iter explode) in
  let trimmed := trim_start_matches "/" path in
  let? url := map_err (λ e, Plan ("bad url: " +:+ e)) (url_join base trimmed) in
  let? _ := map_err Plan (check_target url base allowed) in
  Ok (match query with [] => url | _ => append_pairs url query end).

(** ** Which request *)

(** [is_path_param]. *)
Definition is_path_param (spec : HttpTableSpec) (name : string) : bool :=
  contains_str (needle name) (t_endpoint spec)
  || existsb (λ r, contains_str (needle name) (cr_endpoint r)) (t_requests spec).

(** [select_request]: endpoint, method, body. *)
Definition select_request (spec : HttpTableSpec) (params : gmap string string)
    : string * string * option RequestBody :=
  match List.find (λ r, forallb (λ f, bound_in f params) (cr_when_filters r))
          (t_requests spec) with
  | Some r => (cr_endpoint r, cr_method r, cr_body r)
  | None => (t_endpoint spec, t_method spec, t_body spec)
  end.

(** [has_content_type]. *)
Definition has_content_type (p : HttpTableProvider) : bool :=
  existsb (λ kv, eq_ignore_ascii_case kv.1 "content-type") (s_headers (h_source p))
  || existsb (λ kv, eq_ignore_ascii_case kv.1 "content-type")
       (btree_iter (t_headers (h_spec p))).

(** ** The builder *)

(** [RequestBuilder::header]: appends, or remembers the first error. *)
Definition rb_header (k v : string) (b : Builder) : Builder :=
  let? rq := b in
  match header_error k v with
  | Some e => Err [e]
  | None => Ok {| rq_method := rq_method rq; rq_url := rq_url rq;
                  rq_headers := rq_headers rq ++ [(to_ascii_lowercase k, v)];
                  rq_body := rq_body rq |}
  end.

(** [RequestBuilder::body]. *)
Definition rb_body_set (body : string) (b : Builder) : Builder :=
  rmap (λ rq, {| rq_method := rq_method rq; rq_url := rq_url rq; rq_headers := rq_headers rq;
                 rq_body := Some body |}) b.

(** [RequestBuilder::query]. *)
Definition rb_query (kvs : list (string * string)) (b : Builder) : Builder :=
  rmap (λ rq, {| rq_method := rq_method rq; rq_url := append_pairs (rq_url rq) kvs;
                 rq_headers := rq_headers rq; rq_body := rq_body rq |}) b.

(** Source headers a table header does not override, then the table's. *)
Definition add_headers (p : HttpTableProvider) (b : Builder) : Builder :=
  let table := btree_iter (t_headers (h_spec p)) in
  let kept := List.filter (λ kv, negb (existsb (λ tk, eq_ignore_ascii_case tk.1 kv.1) table))
                (s_headers (h_source p)) in
  foldl (λ b kv, rb_header kv.1 kv.2 b) b (kept ++ table).

(** ** Credentials *)

(** [resolve_dynamic]. *)
Definition resolve_dynamic (s : HttpSource) (raw : string) : io (result string string) :=
  match parse_var_ref raw with
  | Some name =>
      match s_dynamic s !! name with
      | Some id =>
          let! v := get_var id in
          ret (map_err (λ e, "resolve `${var:" +:+ name +:+ "}`: " +:+ e) v)
      | None => ret (Ok raw)
      end
  | None => ret (Ok raw)
  end.

(** The client-credentials exchange of [oauth_bearer]; its error is a text. *)
Definition token_form (client_id client_secret : string) (scope audience : option string)
    : list (string * string) :=
  [("grant_type", "client_credentials"); ("client_id", client_id);
   ("client_secret", client_secret)]
  ++ match scope with Some s => [("scope", s)] | None => [] end
  ++ match audience with Some a => [("audience", a)] | None => [] end.

Definition is_success (status : N) : bool := (200 <=? status)%N && (status <? 300)%N.

(** [error_chain]: each source's text, unless the message already contains it. *)
Definition error_chain (chain : list string) : string :=
  match chain with
  | [] => ""
  | e :: sources =>
      foldl (λ s inner, if contains_str inner s then s else s +:+ ": " +:+ inner) e sources
  end.

Definition token_request (token_url : string) (form : list (string * string)) : Builder :=
  let? url := map_err (λ e, [e]) (url_parse token_url) in
  Ok {| rq_method := "POST"; rq_url := url;
        rq_headers := [("content-type", "application/x-www-form-urlencoded")];
        rq_body := Some (form_body form) |}.

(** The request and what is read from its response; [text] stands for the body bytes. *)
Definition exchange_token (token_url : string) (form : list (string * string))
    : io (result string string) :=
  match token_request token_url form with
  | Err chain => ret (Err ("oauth token request failed: " +:+ hd "" chain))
  | Ok rq =>
      let! sent := send_as TokenSent rq in
      match sent with
      | Failed _ chain => ret (Err ("oauth token request failed: " +:+ hd "" chain))
      | Received resp =>
          if negb (is_success (rs_status resp)) then
            ret (Err ("oauth token request returned " +:+ show_status (rs_status resp)))
          else
            match rbind (rs_text resp) from_str with
            | Err e => ret (Err ("oauth token response was not JSON: " +:+ e))
            | Ok body =>
                match get body "access_token" ≫= as_str with
                | None => ret (Err "oauth token response missing `access_token`")
                | Some token =>
                    let expires_in := default 300%N (get body "expires_in" ≫= as_u64) in
                    let! t := now in
                    let! expires_at := lift (time_add_secs t expires_in) in
                    let! _ := set_token {| ct_token := token; ct_expires_at := expires_at |} in
                    ret (Ok token)
                end
            end
      end
  end.

(** [oauth_bearer]; the error is a text. *)
Definition oauth_bearer (s : HttpSource) : io (result string string) :=
  match s_auth s with
  | Oauth2 token_url client_id client_secret scope audience =>
      let! cached := get_token in
      let! t := now in
      let! soon := lift (time_add_secs t 30) in
      let exchange := exchange_token token_url (token_form client_id client_secret scope audience) in
      match cached with
      | Some c => if (soon <? ct_expires_at c)%N then ret (Ok (ct_token c)) else exchange
      | None => exchange
      end
  | _ => ret (Err "oauth_bearer called for non-OAuth2 source")
  end.

(** [?] on a text error inside an effectful function that returns one. *)
Definition and_then {A B} (m : io (result string A)) (f : A → io (result string B))
    : io (result string B) :=
  let! r := m in
  match r with
  | Ok a => f a
  | Err e => ret (Err e)
  end.

(** The headers of a [type: header] block. *)
Fixpoint auth_headers (s : HttpSource) (headers : list AuthHeader) (b : Builder)
    : io (result string Builder) :=
  match headers with
  | [] => ret (Ok b)
  | h :: headers =>
      match ah_bearer h, ah_value h with
      | Some bearer, _ =>
          and_then (resolve_dynamic s bearer) (λ token,
            auth_headers s headers (rb_header (ah_name h) ("Bearer " +:+ token) b))
      | None, Some v =>
          and_then (resolve_dynamic s v) (λ value,
            auth_headers s headers (rb_header (ah_name h) value b))
      | None, None => auth_headers s headers b
      end
  end.

(** The query pairs of a [type: custom] block. *)
Fixpoint auth_pairs (s : HttpSource) (query : list QueryCredential)
    : io (result string (list (string * string))) :=
  match query with
  | [] => ret (Ok [])
  | q :: query =>
      and_then (resolve_dynamic s (qc_value q)) (λ v,
        and_then (auth_pairs s query) (λ pairs, ret (Ok ((qc_name q, v) :: pairs))))
  end.

(** Attaching the credentials, once the target is trusted. *)
Definition attach_auth (s : HttpSource) (b : Builder) : io (result string Builder) :=
  match s_auth s with
  | NoAuth => ret (Ok b)
  | Header headers => auth_headers s headers b
  | Basic username password =>
      and_then (resolve_dynamic s password) (λ password,
        ret (Ok (rb_header "Authorization" (basic_value username password) b)))
  | Custom query _ =>
      and_then (auth_pairs s query) (λ pairs, ret (Ok (rb_query pairs b)))
  | Oauth2 _ _ _ _ _ =>
      and_then (oauth_bearer s) (λ token,
        ret (Ok (rb_header "Authorization" ("Bearer " +:+ token) b)))
  end.

Definition is_NoAuth (a : AuthSpec) : bool := match a with NoAuth => true | _ => false end.

(** [apply_auth]. *)
Definition apply_auth (s : HttpSource) (b : Builder) : io (result string Builder) :=
  if is_NoAuth (s_auth s) then ret (Ok b)
  else match b with
       | Err _ => ret (Err "cannot inspect request target for auth")
       | Ok probe =>
           if negb (is_trusted (rq_url probe) (s_base_url s) (s_allowed_hosts s)) then
             ret (Err ("refusing to send `" +:+ s_name s +:+ "` credentials to `"
                       +:+ u_text (rq_url probe) +:+ "` (cross-origin)"))
           else attach_auth s b
       end.

(** ** The body *)

Definition JSON_TYPE : string := "application/json".

Definition content_type_of (kind : BodyKind) : string :=
  match kind with
  | BodyJson => JSON_TYPE
  | BodyForm => "application/x-www-form-urlencoded"
  end.

Definition default_type (p : HttpTableProvider) (ty : string) (b : Builder) : Builder :=
  if has_content_type p then b else rb_header "content-type" ty b.

(** The cursor written into an already rendered body, when it parses and the path fits. *)
Definition inject_cursor (rendered : string) (cursor cursor_path : option string) : string :=
  match cursor, cursor_path with
  | Some c, Some path =>
      match from_str rendered with
      | Ok v => let '(ok, v) := set_json_at_path v path (JString c) in
                if ok : bool then to_string v else rendered
      | Err _ => rendered
      end
  | _, _ => rendered
  end.

Definition render_body (p : HttpTableProvider) (tbody : RequestBody) (params : gmap string string)
    : string :=
  match rb_kind tbody with
  | BodyJson => render_json_body (rb_template tbody) params (t_params (h_spec p))
  | BodyForm => render_template (rb_template tbody) params
  end.

(** The [match (body, auth_body.is_empty())] of [fetch_rows]. *)
Definition attach_body (p : HttpTableProvider) (body : option RequestBody)
    (params : gmap string string) (cursor cursor_path : option string) (b : Builder)
    : result Fault Builder :=
  let auth_body := custom_body_fields (h_source p) in
  match body, auth_body with
  | Some tbody, [] =>
      let rendered := inject_cursor (render_body p tbody params) cursor cursor_path in
      Ok (rb_body_set rendered (default_type p (content_type_of (rb_kind tbody)) b))
  | Some tbody, _ :: _ =>
      if negb (bool_decide (rb_kind tbody = BodyJson)) then
        Err (Plan "custom auth `body` requires a JSON table body to merge into")
      else
        let rendered := render_json_body (rb_template tbody) params (t_params (h_spec p)) in
        let? value := map_err (λ e, Plan ("table body is not valid JSON: " +:+ e))
                        (from_str rendered) in
        let? obj := ok_or (Plan "table body must be a JSON object to merge custom auth body")
                      (as_object value) in
        let value := JObject (obj_extend obj (custom_body_object auth_body)) in
        let value := match cursor, cursor_path with
                     | Some c, Some path => (set_json_at_path value path (JString c)).2
                     | _, _ => value
                     end in
        Ok (rb_body_set (to_string value) (default_type p JSON_TYPE b))
  | None, _ :: _ =>
      Ok (rb_body_set (to_string (JObject (custom_body_object auth_body)))
            (default_type p JSON_TYPE b))
  | None, [] => Ok b
  end.
End request.
