(* ===== verification/HttpResponse.v ===== *)
(** * Reading a response ([typed.rs], [expr.rs])
    Error detection, row extraction, computed columns, and the typed cells of a batch. *)

From S2P Require Export HttpRequest.

(** ** Errors and rows *)

Section response.
Context {w : Web}.

(** The message found at [error.path]. *)
Definition path_message (spec : ResponseErrorSpec) (body : Json) : option string :=
  p ← re_path spec;
  v ← json_at_path body p;
  match v with
  | JNull => None
  | JString s => if decide (s = "") then None else Some s
  | other => Some (to_string other)
  end.

(** [detect_error]. *)
Definition detect_error (spec : ResponseErrorSpec) (status : N) (body : Json) : option string :=
  let status_hit := existsb (λ m, status_matches m status) (re_status spec) in
  let path_msg := path_message spec body in
  if status_hit || bool_decide (is_Some path_msg) then
    Some (default ("HTTP " +:+ show_N status) path_msg)
  else None.

(** [as_array] of [typed.rs]. *)
Definition rows_of (v : Json) : result Fault (list Json) :=
  match v with
  | JArray a => Ok a
  | JObject _ => Ok [v]
  | JNull => Ok []
  | other => Err (Plan ("expected array or object at response path, got " +:+ to_debug other))
  end.

(** [reshape_dict_entries]. *)
Definition dict_row (kv : string * Json) : Json :=
  let '(k, val) := kv in
  match val with
  | JObject m => JObject (obj_insert "_key" (JString k) m)
  | _ => JObject [("_key", JString k); ("_value", val)]
  end.

Definition reshape_dict_entries (v : Json) : list Json :=
  match as_object v with
  | Some obj => dict_row <$> obj
  | None => []
  end.

(** [reshape_series_points]. *)
Definition point_row (points timestamp value : string) (s pt : Json) : option Json :=
  pair ← as_array pt;
  t ← pair !! 0;
  val ← pair !! 1;
  Some (match s with
        | JObject m =>
            JObject (obj_insert value val (obj_insert timestamp t (obj_remove points m)))
        | _ => s
        end).

Definition series_rows (points timestamp value : string) (s : Json) : list Json :=
  match get s points ≫= as_array with
  | Some pts => omap (point_row points timestamp value s) pts
  | None => []
  end.

Definition reshape_series_points (v : Json) (series points timestamp value : string)
    : list Json :=
  match get v series ≫= as_array with
  | Some arr => mjoin (series_rows points timestamp value <$> arr)
  | None => []
  end.

(** [extract_rows]. *)
Definition extract_rows (body : Json) (spec : ResponseSpec) : result Fault (list Json) :=
  match json_at_path body (r_path spec) with
  | None => Ok []
  | Some at_ =>
      match r_reshape spec with
      | None => rows_of at_
      | Some DictEntries => Ok (reshape_dict_entries at_)
      | Some (SeriesPoints series points timestamp value) =>
          Ok (reshape_series_points at_ series points timestamp value)
      end
  end.
End response.

(** ** Computed columns *)

(** [walk]. *)
Fixpoint walk (current : Json) (path : list string) : option Json :=
  match path with
  | [] => Some current
  | seg :: path => current ← get current seg; walk current path
  end.

Definition is_null (v : Json) : bool := match v with JNull => true | _ => false end.

(** ** The libraries below cells
    [base64], [chrono], [f64] and the array types of Arrow. *)
Class Data := {
  decode_base64 : string → option string;              (* STANDARD, then from_utf8 *)
  epoch_to_rfc3339 : Number → bool → option string;    (* of as_f64(), in milliseconds or not *)
  F64 : Type;
  num_as_f64 : Number → option F64;
  f64_as_i64 : F64 → Z;
  parse_f64 : string → option F64;
  parse_from_rfc3339 : string → option Z;              (* microseconds *)
  parse_naive : string → string → option Z;            (* format, text; microseconds *)
  parse_day : string → option Z                        (* %Y-%m-%d; days *)
}.

Section expr.
Context {w : Web} {data : Data}.

Definition value_to_text (v : Json) : string :=
  match v with
  | JString s => s
  | JNull => ""
  | other => to_string other
  end.

(** [join] of [expr.rs]. *)
Definition join_values (values : list Json) : string := join "," (value_to_text <$> values).

Definition to_rfc3339 (v : Json) (unit : string) : option string :=
  match v with
  | JString s => Some s
  | JNumber n => epoch_to_rfc3339 n (bool_decide (unit ∈ ["millis"; "milliseconds"]))
  | _ => None
  end.

(** The test of [lookup] and [lookup_join]. *)
Definition has_key (key key_field : string) (el : Json) : bool :=
  bool_decide ((get el key_field ≫= as_str) = Some key).

(** [ColumnExpr::eval]. *)
Fixpoint eval (e : ColumnExpr) (row : Json) (params : gmap string string) : option Json :=
  match e with
  | XPath path => walk row path
  | XCurrentRow => Some row
  | XNull => None
  | XFromFilter filter => JString <$> params !! filter
  | XCoalesce exprs =>
      List.find (λ v, negb (is_null v)) (filter_map (λ e, eval e row params) exprs)
  | XToTimestamp unit expr =>
      v ← eval expr row params; JString <$> to_rfc3339 v unit
  | XJoin path =>
      arr ← walk row path ≫= as_array; Some (JString (join_values arr))
  | XMapJoin path item_path =>
      arr ← walk row path ≫= as_array;
      Some (JString (join_values (filter_map (λ el, walk el item_path) arr)))
  | XFirstOf path item_path =>
      arr ← walk row path ≫= as_array; first ← head arr; walk first item_path
  | XLookup path key key_field value_field =>
      arr ← walk row path ≫= as_array;
      el ← List.find (has_key key key_field) arr; get el value_field
  | XLookupJoin path key key_field value_field =>
      arr ← walk row path ≫= as_array;
      Some (JString (join_values
        (filter_map (λ el, get el value_field) (List.filter (has_key key key_field) arr))))
  | XPick path by_ item_path =>
      obj ← walk row path; key ← params !! by_; entry ← get obj key; walk entry item_path
  | XLiteral value => Some value
  | XIfPresent check then_value =>
      match eval check row params with
      | Some v => if is_null v then None else Some then_value
      | None => None
      end
  | XFromBase64 expr =>
      v ← eval expr row params; s ← as_str v; JString <$> decode_base64 (trim s)
  | XReplace expr from to =>
      v ← eval expr row params; s ← as_str v; Some (JString (replace s from to))
  end.

(** ** Cells *)

(** The path loop of [pull_value], which skips empty segments. *)
Fixpoint walk_nonempty (current : Json) (parts : list string) : option Json :=
  match parts with
  | [] => Some current
  | part :: parts =>
      if decide (part = "") then walk_nonempty current parts
      else current ← get current part; walk_nonempty current parts
  end.

(** [pull_value]. *)
Definition pull_value (row : Json) (col : ResponseColumn) (params : gmap string string)
    : option Json :=
  match c_expr col with
  | Some e => eval e row params
  | None =>
      match c_source col with
      | None => get row (c_name col)
      | Some source =>
          if decide (source = "param") then JString <$> params !! c_name col
          else if decide (source = "$") then Some row
          else if starts_with "$" source then
            walk_nonempty row (split "." (trim_start_matches2 "$" "." source))
          else get row source
      end
  end.

(** A value of an Arrow array. *)
Inductive Cell :=
| CBool (b : bool)
| CInt (z : Z)
| CFloat (f : F64)
| CText (s : string).

Definition i32_min : Z := -2147483648.
Definition i32_max : Z := 2147483647.

(** [Number::as_i64]. *)
Definition num_as_i64 (n : Number) : option Z :=
  match n with
  | PosInt n => if (Z.of_N n <=? i64_max)%Z then Some (Z.of_N n) else None
  | NegInt z => Some z
  | Float _ => None
  end.

(** [n.as_i64().or_else(|| n.as_f64().map(|f| f as i64))]. *)
Definition num_to_i64 (n : Number) : option Z :=
  match num_as_i64 n with
  | Some i => Some i
  | None => f64_as_i64 <$> num_as_f64 n
  end.

Definition to_i32 (z : Z) : option Z :=
  if ((i32_min <=? z) && (z <=? i32_max))%Z then Some z else None.

Definition bool_text (b : bool) : string := if b then "true" else "false".

(** One cell of a [json] column. *)
Definition json_cell (v : option Json) : option Cell :=
  match v with
  | None | Some JNull => None
  | Some v => Some (CText (to_string v))
  end.

(** One cell of each array type of [build_batch]. *)
Definition utf8_cell (v : option Json) : option Cell :=
  match v with
  | Some (JString s) => Some (CText s)
  | Some (JNumber n) => Some (CText (number_to_string n))
  | Some (JBool b) => Some (CText (bool_text b))
  | Some JNull | None => None
  | Some other => Some (CText (to_string other))
  end.

Definition int64_cell (v : option Json) : option Cell :=
  match v with
  | Some (JNumber n) => CInt <$> num_to_i64 n
  | Some (JString s) => CInt <$> parse_i64 s
  | _ => None
  end.

(** [s.parse::<i32>()]: the same grammar, a smaller range. *)
Definition parse_i32 (s : string) : option Z := parse_i64 s ≫= to_i32.

Definition int32_cell (v : option Json) : option Cell :=
  match v with
  | Some (JNumber n) => CInt <$> (num_to_i64 n ≫= to_i32)
  | Some (JString s) => CInt <$> parse_i32 s
  | _ => None
  end.

Definition float64_cell (v : option Json) : option Cell :=
  match v with
  | Some (JNumber n) => CFloat <$> num_as_f64 n
  | Some (JString s) => CFloat <$> parse_f64 (trim s)
  | _ => None
  end.

Definition bool_cell (v : option Json) : option Cell :=
  match v with
  | Some (JBool b) => Some (CBool b)
  | Some (JString s) =>
      let s := to_ascii_lowercase (trim s) in
      if decide (s = "true") then Some (CBool true)
      else if decide (s = "false") then Some (CBool false)
      else None
  | _ => None
  end.

Definition timestamp_formats : list string :=
  ["%Y-%m-%dT%H:%M:%S%.f"; "%Y-%m-%d %H:%M:%S%.f"; "%Y-%m-%dT%H:%M:%S"; "%Y-%m-%d %H:%M:%S"].

Definition micros_per_day : Z := 86400000000.

(** [parse_timestamp_micros]. *)
Definition parse_timestamp_micros (v : Json) : option Z :=
  s ← as_str v;
  match parse_from_rfc3339 s with
  | Some t => Some t
  | None =>
      match head (filter_map (λ fmt, parse_naive fmt s) timestamp_formats) with
      | Some t => Some t
      | None => (λ d, (d * micros_per_day)%Z) <$> parse_day s
      end
  end.

(** [parse_date32]. *)
Definition parse_date32 (v : Json) : option Z :=
  s ← as_str v; d ← parse_day s; to_i32 d.

Definition timestamp_cell (v : option Json) : option Cell :=
  v ← v; CInt <$> parse_timestamp_micros v.
Definition date_cell (v : option Json) : option Cell :=
  v ← v; CInt <$> parse_date32 v.

(** An array: its Arrow type and its values, null where [None]. *)
Record Array := { a_type : DataType; a_values : list (option Cell) }.

Definition field_with_name (schema : list Field) (name : string) : option Field :=
  List.find (λ f, bool_decide (f_name f = name)) schema.

(** The body of the column loop of [build_batch]. *)
Definition build_column (schema : list Field) (rows : list Json) (params : gmap string string)
    (col : ResponseColumn) : Array :=
  let cells f := (λ row, f (pull_value row col params)) <$> rows in
  let nulls := {| a_type := Utf8; a_values := (λ _, None) <$> rows |} in
  if eq_ignore_ascii_case (c_type col) "json" then
    {| a_type := Utf8; a_values := cells json_cell |}
  else match field_with_name schema (c_name col) with
       | None => nulls
       | Some f =>
           match f_type f with
           | Utf8 => {| a_type := Utf8; a_values := cells utf8_cell |}
           | Int64 => {| a_type := Int64; a_values := cells int64_cell |}
           | Int32 => {| a_type := Int32; a_values := cells int32_cell |}
           | Float64 => {| a_type := Float64; a_values := cells float64_cell |}
           | Boolean => {| a_type := Boolean; a_values := cells bool_cell |}
           | TimestampMicro tz =>
               {| a_type := TimestampMicro tz; a_values := cells timestamp_cell |}
           | Date32 => {| a_type := Date32; a_values := cells date_cell |}
           | Float32 => nulls
           end
       end.

(** [RecordBatch::try_new], and what it checks when every field is nullable: an array for
    each field, at least one, all of one length and each of its field's type. *)
Definition conforms (schema : list Field) (arrays : list Array) : bool :=
  match arrays with
  | [] => false
  | a :: _ =>
      (length schema =? length arrays)%nat
      && forallb (λ b, length (a_values b) =? length (a_values a))%nat arrays
      && forallb (λ fa, bool_decide (f_type fa.1 = a_type fa.2)) (zip schema arrays)
  end.

Context (Batch : Type) (try_new : list Field → list Array → result string Batch).

(** [build_batch]. *)
Definition build_batch (schema : list Field) (columns : list ResponseColumn) (rows : list Json)
    (params : gmap string string) : result Fault Batch :=
  map_err External (try_new schema (build_column schema rows params <$> columns)).
End expr.
