(* ===== verification/HttpFetch.v ===== *)
(** * Fetching pages ([typed.rs])
    One request with its retries, then the page loop of a scan. The loops carry fuel;
    [HttpFetchProps] shows that the fuel given here is enough. *)

From S2P Require Export HttpResponse.

(** ** Waits, in milliseconds *)

(** [1u64.checked_shl(attempt).unwrap_or(u64::MAX)]. *)
Definition shl_factor (attempt : N) : N :=
  if (attempt <? 64)%N then N.shiftl 1 attempt else u64_max.

(** [backoff_ms]. *)
Definition backoff_ms (retry : RetryConfig) (attempt : N) : N :=
  N.min (u64_saturating_mul (base_backoff_ms retry) (shl_factor attempt)) (max_backoff_ms retry).

(** [retry_after_ms]. *)
Definition retry_after_ms (resp : Response) : option N :=
  v ← header_str (rs_headers resp) "retry-after";
  secs ← parse_unsigned u64_max (trim v);
  Some (u64_saturating_mul secs 1000).

(** [reset_at]; adding to the epoch may overflow. *)
Definition reset_at (policy : RateLimitPolicy) (headers : list (string * string))
    : result Fault (option N) :=
  match (h ← reset_header policy; v ← header_str headers h; parse_unsigned u64_max (trim v)) with
  | None => Ok None
  | Some reset_epoch => rmap Some (time_add_secs 0 reset_epoch)
  end.

(** [reset_wait_ms], at the time [t]; the count of milliseconds fits [u64] or is dropped. *)
Definition reset_wait_ms (policy : RateLimitPolicy) (resp : Response) (t : N)
    : result Fault (option N) :=
  let? target := reset_at policy (rs_headers resp) in
  Ok (at_ ← target; dur ← duration_since at_ t;
      let ms := (dur / ns_per_ms)%N in
      if (ms <=? u64_max)%N then Some ms else None).

(** [compute_throttle]. *)
Definition compute_throttle (policy : RateLimitPolicy) (headers : list (string * string))
    : result Fault (option N) :=
  match (h ← remaining_header policy; v ← header_str headers h; parse_i64 (trim v)) with
  | None => Ok None
  | Some remaining =>
      if (0 <? remaining)%Z then Ok None else reset_at policy headers
  end.

(** ** One request *)

Definition is_rate_limit (policy : RateLimitPolicy) (status : N) : bool :=
  (status =? 429)%N || (status =? 503)%N || bool_decide (status ∈ extra_statuses policy).

(** [is_server_error]. *)
Definition is_server_error (status : N) : bool := (500 <=? status)%N && (status <? 600)%N.

Section fetch.
Context {w : Web}.

Definition request_failed (chain : list string) : Fault :=
  External ("http request failed: " +:+ error_chain chain).

(** How long to wait before the next attempt after [resp], in milliseconds. *)
Definition response_wait (retry : RetryConfig) (policy : RateLimitPolicy) (resp : Response)
    (attempt t : N) : result Fault N :=
  if is_rate_limit policy (rs_status resp) then
    let? reset := reset_wait_ms policy resp t in
    Ok (match reset with
        | Some ms => ms
        | None => default (backoff_ms retry attempt) (retry_after_ms resp)
        end)
  else Ok (backoff_ms retry attempt).

Fixpoint retry_loop (fuel : nat) (attempt : N) (rq : Request) (retry : RetryConfig)
    (policy : RateLimitPolicy) : io Response :=
  match fuel with
  | O => fail OutOfFuel
  | S fuel =>
      let! sent := send_as Sent rq in
      match sent with
      | Received resp =>
          let status := rs_status resp in
          let retryable := is_server_error status || is_rate_limit policy status in
          if negb retryable || (max_retries retry <=? attempt)%N then ret resp
          else
            let! t := now in
            let! wait_ms := lift (response_wait retry policy resp attempt t) in
            let! _ := sleep (wait_ms * ns_per_ms) in
            retry_loop fuel (attempt + 1) rq retry policy
      | Failed is_redirect chain =>
          if is_redirect || (max_retries retry <=? attempt)%N then
            fail (request_failed chain)
          else
            let! _ := sleep (backoff_ms retry attempt * ns_per_ms) in
            retry_loop fuel (attempt + 1) rq retry policy
      end
  end.

(** [send_with_retry] and [send_with_retry_inner]: a request that failed to build is not sent. *)
Definition send_with_retry (b : Builder) (retry : RetryConfig) (policy : RateLimitPolicy)
    : io Response :=
  match b with
  | Err chain => fail (request_failed chain)
  | Ok rq => retry_loop (S (N.to_nat (max_retries retry))) 0 rq retry policy
  end.

(** ** The page loop *)

Definition DEFAULT_MAX_PAGES : N := 1000.

(** The variables [fetch_rows] carries from one page to the next. *)
Record Paging := {
  pg_rows : list Json;
  pg_params : gmap string string;
  pg_url : option Url;
  pg_cursor : option string;
  pg_index : N;
  pg_throttle : option N
}.

Section scan.
Context (p : HttpTableProvider) (explode : gmap string (list string)) (limit : option N)
  (* what [select_request] chose *)
  (endpoint method_str : string) (body : option RequestBody).

Definition spec := h_spec p.
Definition source := h_source p.

(** [io::Error::other(err.to_string())]. *)
Definition safety_fault (e : SafetyError) : Fault := External (SafetyError_display e).

(** Waiting for the quota of the previous page, then for a permit. *)
Definition wait_turn (throttle_until : option N) : io () :=
  let! t := now in
  let! _ := match (when ← throttle_until; duration_since when t) with
            | Some dur => sleep dur
            | None => ret ()
            end in
  if limiter (s_rate_limit source) then wait_permit else ret ().

Definition cursor_path_of : option string :=
  match t_pagination spec with
  | Some (BodyCursor cursor_path _) => Some cursor_path
  | _ => None
  end.

(** The URL of the page: the one a [Link] header gave, or the endpoint's. *)
Definition page_url (pg : Paging) : result Fault Url :=
  match pg_url pg with
  | Some u => Ok u
  | None => build_url (s_base_url source) (s_allowed_hosts source) endpoint (pg_params pg)
              (rb_template <$> body) explode
  end.

Definition method : string := default "GET" (parse_method method_str).

(** The request of the page. *)
Definition page_request (pg : Paging) (url : Url) : io Builder :=
  let bare := {| rq_method := method; rq_url := url; rq_headers := []; rq_body := None |} in
  let! authed := apply_auth source (add_headers p (Ok bare)) in
  let! b := lift (map_err External authed) in
  lift (attach_body p body (pg_params pg) (pg_cursor pg) cursor_path_of b).

(** The response's JSON, once neither its text nor the declared error spec objects. *)
Definition page_body (resp : Response) : result Fault Json :=
  let status := rs_status resp in
  let detect v := r_error (t_response spec) ≫= (λ e, detect_error e status v) in
  let? text := map_err (λ e, External ("reading response body failed (status "
                 +:+ show_status status +:+ "): " +:+ e)) (rs_text resp) in
  match from_str text with
  | Err e =>
      match detect JNull with
      | Some msg => Err (External msg)
      | None => Err (External ("json parse failed (status " +:+ show_status status +:+ "): "
                               +:+ e))
      end
  | Ok v =>
      match detect v with
      | Some msg => Err (External msg)
      | None => Ok v
      end
  end.

(** The next page's [next_params], [next_url] and [body_cursor]; nothing to stop. *)
Definition advance (pg : Paging) (next : NextPage)
    : result Fault (gmap string string * option Url * option string) :=
  match next with
  | NextParams params => Ok (params, None, pg_cursor pg)
  | NextUrl u =>
      let? parsed := map_err (λ e, Plan ("bad pagination url `" +:+ u +:+ "`: " +:+ e))
                       (url_parse u) in
      let? _ := map_err Plan (check_target parsed (s_base_url source) (s_allowed_hosts source)) in
      Ok (pg_params pg, Some parsed, pg_cursor pg)
  | NextBodyCursor c => Ok (pg_params pg, None, Some c)
  end.

(** What follows a page: the rows collected, when the loop breaks, or the next state. *)
Inductive Turn :=
| Break (rows : list Json)
| Continue (pg : Paging).

Definition reached_limit (n : N) : bool :=
  match limit with Some lim => (lim <=? n)%N | None => false end.

(** The ceiling on rows. *)
Definition check_max_rows (count : N) : result Fault () :=
  match h_max_rows p with
  | Some max => if (max <? count)%N then Err (safety_fault (TooManyRows (t_name spec) max))
                else Ok ()
  | None => Ok ()
  end.

(** The part of an iteration after the response was parsed. *)
Definition after_page (pg : Paging) (resp : Response) (throttle : option N) (v : Json)
    : result Fault Turn :=
  let? page_rows := extract_rows v (t_response spec) in
  let rows := pg_rows pg ++ page_rows in
  let count := N.of_nat (length rows) in
  if reached_limit count then Ok (Break rows)
  else
    let? _ := check_max_rows count in
    match t_pagination spec with
    | None => Ok (Break rows)
    | Some config =>
        match next_page config (pg_params pg) v (header_str (rs_headers resp) "link")
                page_rows (pg_index pg) with
        | None => Ok (Break rows)
        | Some next =>
            let? '(params, url, cursor) := advance pg next in
            Ok (Continue {| pg_rows := rows; pg_params := params; pg_url := url;
                            pg_cursor := cursor; pg_index := pg_index pg + 1;
                            pg_throttle := throttle |})
        end
    end.

(** One iteration of the loop. *)
Definition turn (pg : Paging) : io Turn :=
  let max_pages := default DEFAULT_MAX_PAGES (h_max_pages p) in
  if (max_pages <=? pg_index pg)%N then fail (safety_fault (TooManyPages (t_name spec) max_pages))
  else
    let! _ := wait_turn (pg_throttle pg) in
    let! url := lift (page_url pg) in
    let! b := page_request pg url in
    let! resp := send_with_retry b (s_retry source) (s_rate_limit source) in
    let! throttle := lift (compute_throttle (s_rate_limit source) (rs_headers resp)) in
    if (rs_status resp =? 404)%N && r_allow_404_empty (t_response spec) then
      ret (Break (pg_rows pg))
    else
      let! v := lift (page_body resp) in
      lift (after_page pg resp throttle v).

Fixpoint page_loop (fuel : nat) (pg : Paging) : io (list Json) :=
  match fuel with
  | O => fail OutOfFuel
  | S fuel =>
      let! t := turn pg in
      match t with
      | Break rows => ret rows
      | Continue pg => page_loop fuel pg
      end
  end.
End scan.

(** [truncate]. *)
Definition truncate (limit : option N) (rows : list Json) : list Json :=
  match limit with
  | Some lim => if (lim <? N.of_nat (length rows))%N then take (N.to_nat lim) rows else rows
  | None => rows
  end.

(** The state the loop starts in. *)
Definition first_page (p : HttpTableProvider) (params : gmap string string) : Paging :=
  {| pg_rows := [];
     pg_params := match t_pagination (h_spec p) with
                  | Some config => seed_initial config params
                  | None => params
                  end;
     pg_url := None; pg_cursor := None; pg_index := 0; pg_throttle := None |}.

(** [fetch_rows]. *)
Definition fetch_rows (p : HttpTableProvider) (params : gmap string string)
    (explode : gmap string (list string)) (limit : option N) : io (list Json) :=
  let '(endpoint, method_str, body) := select_request (h_spec p) params in
  let max_pages := default DEFAULT_MAX_PAGES (h_max_pages p) in
  let! rows := page_loop p explode limit endpoint method_str body (S (N.to_nat max_pages))
                 (first_page p params) in
  ret (truncate limit rows).
End fetch.
