(* ===== verification/HttpScan.v ===== *)
(** * Planning a scan ([typed.rs])
    Which filters a table absorbs, how they bind its parameters, how an [IN] list becomes
    several requests, and the union of what those fetch. *)

From S2P Require Export HttpFetch.

(** ** Filters
    DataFusion's expressions, as far as the source looks into them. *)

Inductive Operator := Eq | Lt | LtEq | Gt | GtEq | Or | OtherOp.
#[export] Instance Operator_eq_dec : EqDecision Operator.
Proof. solve_decision. Defined.

Inductive ScalarValue :=
| SUtf8 (s : string)
| SInt (z : Z)        (* Int32, Int64 and UInt64 *)
| SBoolean (b : bool)
| SOther.             (* nulls and every other type *)

Inductive Expr :=
| Column (name : string)
| Literal (s : ScalarValue)
| BinaryExpr (l : Expr) (op : Operator) (r : Expr)
| InList (expr : Expr) (list : list Expr) (negated : bool)
| OtherExpr.

Definition scalar_to_string (s : ScalarValue) : option string :=
  match s with
  | SUtf8 s => Some s
  | SInt z => Some (show_Z z)
  | SBoolean b => Some (bool_text b)
  | SOther => None
  end.

(** The canonical operator token; [flipped] when the literal is on the left. *)
Definition op_token (op : Operator) (flipped : bool) : option string :=
  match op, flipped with
  | Eq, _ => Some "="
  | Gt, false | Lt, true => Some ">"
  | Lt, false | Gt, true => Some "<"
  | GtEq, false | LtEq, true => Some ">="
  | LtEq, false | GtEq, true => Some "<="
  | _, _ => None
  end.

(** The column and the literal of a comparison, and whether they are flipped. *)
Definition column_literal (l r : Expr) : option (string * ScalarValue * bool) :=
  match l, r with
  | Column c, Literal s => Some (c, s, false)
  | Literal s, Column c => Some (c, s, true)
  | _, _ => None
  end.

(** [extract_cmp]. *)
Definition extract_cmp (expr : Expr) : option (string * string * string) :=
  match expr with
  | BinaryExpr l op r =>
      '(col, scalar, flipped) ← column_literal l r;
      token ← op_token op flipped;
      val ← scalar_to_string scalar;
      Some (col, token, val)
  | _ => None
  end.

(** [collect_or_equalities]: whether it succeeded, the column and the values so far. *)
Fixpoint collect_or_equalities (expr : Expr) (col : option string) (vals : list string)
    : bool * option string * list string :=
  match expr with
  | BinaryExpr l op r =>
      match op with
      | Or =>
          let '(ok, col, vals) := collect_or_equalities l col vals in
          if ok : bool then collect_or_equalities r col vals else (false, col, vals)
      | Eq =>
          match column_literal l r with
          | None => (false, col, vals)
          | Some (c, scalar, _) =>
              if match col with Some existing => negb (bool_decide (existing = c))
                              | None => false end
              then (false, col, vals)
              else match scalar_to_string scalar with
                   | Some v => (true, Some c, vals ++ [v])
                   | None => (false, Some c, vals)
                   end
          end
      | _ => (false, col, vals)
      end
  | _ => (false, col, vals)
  end.

(** The literals of an [InList]. *)
Fixpoint literal_texts (items : list Expr) : option (list string) :=
  match items with
  | [] => Some []
  | Literal s :: items => v ← scalar_to_string s; vs ← literal_texts items; Some (v :: vs)
  | _ :: _ => None
  end.

(** [extract_in_list]. *)
Definition extract_in_list (expr : Expr) : option (string * list string) :=
  match expr with
  | InList (Column c) items false => (λ vals, (c, vals)) <$> literal_texts items
  | BinaryExpr _ _ _ =>
      let '(ok, col, vals) := collect_or_equalities expr None [] in
      if negb ok || (length vals <? 2)%nat then None
      else (λ c, (c, vals)) <$> col
  | _ => None
  end.

(** ** Pushdown *)

Definition find_param (spec : HttpTableSpec) (name : string) : option ParamSpec :=
  List.find (λ p, bool_decide (p_name p = name)) (t_params spec).

(** [can_push_down]. *)
Definition can_push_down (spec : HttpTableSpec) (expr : Expr) : bool :=
  match extract_in_list expr with
  | Some (col, _) =>
      existsb (λ p, bool_decide (p_name p = col)
                    && (p_explode p || p_required p || is_path_param spec col)) (t_params spec)
  | None =>
      match extract_cmp expr with
      | None => false
      | Some (col, op, _) =>
          match find_param spec col with
          | None => false
          | Some param =>
              bool_decide (op = "=")
              || existsb (λ a, bool_decide (a = op)) (p_accepts param)
                 && bound_in op (p_emit param)
          end
      end
  end.

(** [dynamic_filter_columns]. *)
Definition dynamic_filter_columns (spec : HttpTableSpec) : list string :=
  p_name <$> t_params spec.

(** [supports_filters_pushdown]: true for [Exact], false for [Unsupported]. *)
Definition supports_filters_pushdown (spec : HttpTableSpec) (filters : list Expr) : list bool :=
  can_push_down spec <$> filters.

(** ** Binding *)

(** One turn of the loop over equality and comparison filters. *)
Definition bind_filter (spec : HttpTableSpec) (params : gmap string string) (f : Expr)
    : gmap string string :=
  match extract_cmp f with
  | None => params
  | Some (col, op, val) =>
      match find_param spec col with
      | None => params
      | Some param =>
          if decide (op = "=") then <[col := val]> params
          else match p_emit param !! op with
               | Some query_param => <[query_param := val]> params
               | None => params
               end
      end
  end.

Definition bind_filters (spec : HttpTableSpec) (filters : list Expr) : gmap string string :=
  foldl (bind_filter spec) ∅ filters.

Definition Fanout := list (string * list string).

(** One turn of the loop over [IN] filters. *)
Definition bind_in_list (spec : HttpTableSpec) (st : gmap string (list string) * Fanout) (f : Expr)
    : gmap string (list string) * Fanout :=
  let '(explode, fanout) := st in
  match extract_in_list f with
  | None => st
  | Some (col, vals) =>
      match find_param spec col with
      | None => st
      | Some param =>
          if p_explode param && negb (is_path_param spec col) then
            (<[col := vals]> explode, fanout)
          else if p_required param || is_path_param spec col then
            (explode, fanout ++ [(col, vals)])
          else st
      end
  end.

Definition bind_in_lists (spec : HttpTableSpec) (filters : list Expr)
    : gmap string (list string) * Fanout :=
  foldl (bind_in_list spec) (∅, []) filters.

(** [bound_elsewhere]. *)
Definition bound_elsewhere (name : string) (explode : gmap string (list string)) (fanout : Fanout)
    : bool :=
  bound_in name explode || existsb (λ nv, bool_decide (nv.1 = name)) fanout.

Section binding.
Context (spec : HttpTableSpec) (explode : gmap string (list string)) (fanout : Fanout).

(** Whether nothing binds the parameter yet. *)
Definition unbound (params : gmap string string) (p : ParamSpec) : bool :=
  negb (bound_in (p_name p) params) && negb (bound_elsewhere (p_name p) explode fanout).

(** One turn of the loop over defaults. *)
Definition bind_default (params : gmap string string) (p : ParamSpec) : gmap string string :=
  match p_default p with
  | Some d => if unbound params p then <[p_name p := d]> params else params
  | None => params
  end.

Definition bind_defaults (params : gmap string string) : gmap string string :=
  foldl bind_default params (t_params spec).

(** The derived values, all computed before any is bound. *)
Definition derived (params : gmap string string) (now_epoch : Z) : list (string * string) :=
  omap (λ p,
    if unbound params p then
      d ← p_derive p; v ← Derive_resolve d params now_epoch; Some (p_name p, v)
    else None) (t_params spec).

(** [extend]. *)
Definition extend {A} (params : gmap string A) (kvs : list (string * A)) : gmap string A :=
  foldl (λ m kv, <[kv.1 := kv.2]> m) params kvs.

(** The required parameters nothing binds. *)
Definition unbound_required (params : gmap string string) : list string :=
  p_name <$> List.filter (λ p, p_required p && unbound params p) (t_params spec).
End binding.

(** What the filters of a scan amount to. *)
Record Binding := {
  b_params : gmap string string;
  b_explode : gmap string (list string);
  b_fanout : Fanout
}.

Definition resolve_filters (spec : HttpTableSpec) (filters : list Expr) (now_epoch : Z) : Binding :=
  let params := bind_filters spec filters in
  let '(explode, fanout) := bind_in_lists spec filters in
  let params := bind_defaults spec explode fanout params in
  let params := extend params (derived spec explode fanout params now_epoch) in
  {| b_params := params; b_explode := explode; b_fanout := fanout |}.

(** [expand_fanout]. *)
Definition expand_fanout (base : gmap string string) (fanout : Fanout)
    : list (gmap string string) :=
  foldl (λ sets nv, mjoin ((λ s, (λ v, <[nv.1 := v]> s) <$> nv.2) <$> sets)) [base] fanout.

(** ** The scan *)

Section scan.
Context {w : Web} {data : Data} {Batch : Type}
  (try_new : list Field → list Array → result string Batch)
  (num_rows : Batch → N) (slice : Batch → N → Batch).

(** [SystemTime::now()] in whole seconds, as an [i64]. *)
Definition now_epoch_of (t : N) : Z := Z.min (Z.of_N (t / ns_per_s)) i64_max.

(** The batch of one binding set, trimmed to the limit. *)
Definition trim_batch (limit : option N) (total : N) (batch : Batch) : Batch :=
  match limit with
  | Some l => if (l <? total + num_rows batch)%N then slice batch (l - total) else batch
  | None => batch
  end.

(** The loop over binding sets; it stops once [limit] rows were collected. *)
Fixpoint scan_sets (p : HttpTableProvider) (explode : gmap string (list string)) (limit : option N)
    (sets : list (gmap string string)) (total : N) (out : list Batch) : io (list Batch) :=
  match sets with
  | [] => ret out
  | bind :: sets =>
      if reached_limit limit total then ret out
      else
        let remaining := (λ l, l - total)%N <$> limit in
        let! rows := fetch_rows p bind explode remaining in
        let! _ := lift (check_max_rows p (u64_saturating_add total (N.of_nat (length rows)))) in
        match rows with
        | [] => scan_sets p explode limit sets total out
        | _ :: _ =>
            let! batch := lift (build_batch Batch try_new (h_schema p) (h_out_columns p) rows bind) in
            let batch := trim_batch limit total batch in
            let n := num_rows batch in
            scan_sets p explode limit sets (total + n)
              (if (0 <? n)%N then out ++ [batch] else out)
        end
  end.

(** A scan that ran, or one that waits for a join to bind the missing parameters. *)
Inductive Plan_ :=
| Batches (batches : list Batch)
| Deferred (unbound : list string).

(** [scan_bound] up to the projection of its batches. *)
Definition scan_bound (p : HttpTableProvider) (filters : list Expr) (limit : option N)
    (allow_defer : bool) : io Plan_ :=
  let! t := now in
  let b := resolve_filters (h_spec p) filters (now_epoch_of t) in
  match unbound_required (h_spec p) (b_explode b) (b_fanout b) (b_params b) with
  | first :: rest =>
      if allow_defer then ret (Deferred (first :: rest))
      else fail (Plan ("table `" +:+ t_name (h_spec p) +:+ "` requires filter `" +:+ first
                       +:+ " = ...` (PAWRLY_SAFETY_REQUIRED_FILTER)"))
  | [] =>
      let! batches := scan_sets p (b_explode b) limit
                        (expand_fanout (b_params b) (b_fanout b)) 0 [] in
      match batches with
      | [] =>
          let! empty := lift (build_batch Batch try_new (h_schema p) (h_out_columns p) []
                                (b_params b)) in
          ret (Batches [empty])
      | _ :: _ => ret (Batches batches)
      end
  end.

(** [scan_params]. *)
Definition scan_params (p : HttpTableProvider) (params : gmap string string) (limit : option N)
    : io Batch :=
  let! rows := fetch_rows p params ∅ limit in
  lift (build_batch Batch try_new (h_schema p) (h_out_columns p) rows params).
End scan.
