(* ===== verification/HttpFetchProps.v ===== *)
(** * Theorems of fetching
    What a fetch may contact, how many requests it sends, and how long it backs off. *)

From S2P Require Export HttpScan.

(** ** Origins *)

(** The parts of a URL the guard looks at. *)
Definition same_parts (u v : Url) : Prop :=
  u_scheme u = u_scheme v ∧ u_host u = u_host v ∧ u_host_str u = u_host_str v
  ∧ u_port u = u_port v.

Lemma is_trusted_parts u v base allowed :
  same_parts u v → is_trusted u base allowed = is_trusted v base allowed.
Proof.
  destruct u, v. intros (?&?&?&?). simpl in *. by subst.
Qed.

Lemma check_ip_parts ip u v allowed :
  u_host_str u = u_host_str v → check_ip ip u allowed = Ok () → check_ip ip v allowed = Ok ().
Proof.
  intros H. unfold check_ip, host_allowed. rewrite H.
  destruct (classify ip); [done|by destruct (match u_host_str v with Some h => existsb (λ p, matches p h) allowed | None => false end)|].
  discriminate.
Qed.

Lemma check_target_parts u v base allowed :
  same_parts u v → check_target u base allowed = Ok () → check_target v base allowed = Ok ().
Proof.
  intros (Hs & Hh & Hstr & Hp).
  assert (same_origin v base = same_origin u base) as Ho
    by (unfold same_origin; by rewrite Hs, Hstr, Hp).
  assert (host_allowed v allowed = host_allowed u allowed) as Ha
    by (unfold host_allowed; by rewrite Hstr).
  unfold check_target. rewrite Ho, Ha, Hs, Hh.
  destruct (same_origin u base); [done|]. destruct (negb (bool_decide _)); [discriminate|].
  destruct (u_host v) as [[d|a|a]|].
  - destruct (host_allowed u allowed || _ || _); [done|].
    destruct (ends_with _ _); [discriminate|done].
  - by apply check_ip_parts.
  - by apply check_ip_parts.
  - discriminate.
Qed.

Lemma same_parts_append {w : Web} {laws : WebLaws w} u kvs : same_parts u (append_pairs u kvs).
Proof. destruct (append_pairs_origin u kvs) as (?&?&?&?). by repeat split. Qed.

(** ** Confinement *)

Section confined.
Context {w : Web} {laws : WebLaws w} (p : HttpTableProvider).

Local Notation base := (s_base_url (h_source p)).
Local Notation allowed := (s_allowed_hosts (h_source p)).

Definition url_confined (u : Url) : Prop :=
  check_target u base allowed = Ok ()
  ∧ (s_auth (h_source p) ≠ NoAuth → is_trusted u base allowed = true).

(** What a fetch may do: pages only from approved targets, credentials only to trusted ones. *)
Definition confined (e : Event) : Prop :=
  match e with
  | Sent rq => url_confined (rq_url rq)
  | TokenSent _ | Slept _ => True
  end.

Definition approved (u : Url) : Prop := check_target u base allowed = Ok ().

(** A builder whose request, if it is one, goes to a URL with the parts of one in [Q]. *)
Definition aims (Q : Url → Prop) (b : Builder) : Prop :=
  match b with Ok rq => Q (rq_url rq) | Err _ => True end.

Definition text_ok (Q : Url → Prop) (r : result string Builder) : Prop :=
  match r with Ok b => aims Q b | Err _ => True end.

Lemma rb_header_aims Q k v b : aims Q b → aims Q (rb_header k v b).
Proof. destruct b as [rq|]; [|done]. unfold rb_header; simpl. by destruct (header_error k v). Qed.

Lemma default_type_aims Q ty b : aims Q b → aims Q (default_type p ty b).
Proof. intros. unfold default_type. destruct (has_content_type p); [done|]. by apply rb_header_aims. Qed.

Lemma rb_body_aims Q body b : aims Q b → aims Q (rb_body_set body b).
Proof. by destruct b. Qed.

Lemma add_headers_aims Q b : aims Q b → aims Q (add_headers p b).
Proof.
  unfold add_headers. generalize
    (List.filter (λ kv, negb (existsb (λ tk, eq_ignore_ascii_case tk.1 kv.1)
       (btree_iter (t_headers (h_spec p))))) (s_headers (h_source p))
     ++ btree_iter (t_headers (h_spec p))).
  intros l. revert b. induction l as [|kv l IH]; intros b Hb; simpl; [done|].
  by apply IH, rb_header_aims.
Qed.

Lemma attach_body_aims Q body params cursor path b r :
  aims Q b → attach_body p body params cursor path b = Ok r → aims Q r.
Proof.
  intros Hb. unfold attach_body.
  destruct body as [tbody|], (custom_body_fields (h_source p)); intros H.
  - injection H as <-. by apply rb_body_aims, default_type_aims.
  - destruct (negb _); [discriminate H|]. inv_ok. by apply rb_body_aims, default_type_aims.
  - by injection H as <-.
  - injection H as <-. by apply rb_body_aims, default_type_aims.
Qed.

Lemma resolve_dynamic_does P s raw : does P (resolve_dynamic s raw) (λ _, True).
Proof.
  unfold resolve_dynamic. destruct (parse_var_ref raw) as [n|]; [|auto with io].
  destruct (s_dynamic s !! n); [|auto with io].
  eapply does_bind; [apply does_get_var|]. auto with io.
Qed.

(** Pushing a postcondition through [and_then]. *)
Lemma and_then_does {A B} P (m : io (result string A)) (f : A → io (result string B))
    (R : result string B → Prop) :
  does P m (λ _, True) → (∀ e, R (Err e)) → (∀ a, does P (f a) R) → does P (and_then m f) R.
Proof.
  intros Hm HR Hf. eapply does_bind; [exact Hm|]. intros [a|e] _; [apply Hf|].
  by apply does_ret.
Qed.

Lemma auth_headers_does Q s headers b :
  aims Q b → does confined (auth_headers s headers b) (text_ok Q).
Proof.
  revert b; induction headers as [|h headers IH]; intros b Hb; simpl.
  { by apply does_ret. }
  destruct (ah_bearer h); [|destruct (ah_value h); [|by apply IH]].
  all: apply and_then_does; [apply resolve_dynamic_does|done|].
  all: intros ?; apply IH, rb_header_aims, Hb.
Qed.

Lemma auth_pairs_does s query : does confined (auth_pairs s query) (λ _, True).
Proof.
  induction query as [|q query IH]; simpl; [auto with io|].
  apply and_then_does; [apply resolve_dynamic_does|done|]. intros v.
  apply and_then_does; [exact IH|done|]. auto with io.
Qed.

Lemma exchange_token_does url form : does confined (exchange_token url form) (λ _, True).
Proof.
  unfold exchange_token. destruct (token_request url form); [|auto with io].
  eapply does_bind; [apply does_send; exact I|]. intros [resp|] _; [|auto with io].
  destruct (negb _); [auto with io|]. destruct (rbind _ _); [|auto with io].
  destruct (_ ≫= as_str); [|auto with io].
  eapply does_bind; [apply does_now|]. intros t _.
  eapply (does_bind _ _ (λ _, True)); [apply does_lift; by destruct (time_add_secs _ _)|].
  intros ? _. eapply does_bind; [apply does_set_token|]. auto with io.
Qed.

Lemma oauth_bearer_does s : does confined (oauth_bearer s) (λ _, True).
Proof.
  unfold oauth_bearer. destruct (s_auth s); auto with io.
  eapply does_bind; [apply does_get_token|]. intros cached _.
  eapply does_bind; [apply does_now|]. intros t _.
  eapply (does_bind _ _ (λ _, True)); [apply does_lift; by destruct (time_add_secs _ _)|].
  intros soon _. destruct cached as [c|]; [destruct (_ <? _)%N|]; auto using exchange_token_does.
  auto with io.
Qed.

(** Credentials leave the URL's parts alone, and are attached only to trusted targets. *)
Lemma apply_auth_does b :
  aims approved b → does confined (apply_auth (h_source p) b) (text_ok url_confined).
Proof using laws.
  intros Hb. unfold apply_auth. destruct (s_auth (h_source p)) eqn:Ha; cbn [is_NoAuth];
    [apply does_ret; destruct b; [|done]; split; [exact Hb|by rewrite Ha]|..].
  all: destruct b as [rq|]; [|by apply does_ret].
  all: destruct (is_trusted _ _ _) eqn:Ht; [|by apply does_ret]; cbn [negb].
  all: assert (aims url_confined (Ok rq)) as Hc by (by split).
  all: unfold attach_auth; rewrite Ha.
  - by apply auth_headers_does.
  - apply and_then_does; [apply resolve_dynamic_does|done|]. intros ?.
    by apply does_ret, rb_header_aims.
  - apply and_then_does; [apply auth_pairs_does|done|]. intros kvs.
    apply does_ret. simpl. pose proof (same_parts_append (rq_url rq) kvs) as Hs. split.
    + by eapply check_target_parts.
    + intros _. by rewrite <- (is_trusted_parts _ _ _ _ Hs).
  - apply and_then_does; [apply oauth_bearer_does|done|]. intros ?.
    by apply does_ret, rb_header_aims.
Qed.

Lemma build_url_approved endpoint params body explode u :
  build_url base allowed endpoint params body explode = Ok u → approved u.
Proof using laws.
  unfold build_url. destruct (foldl _ _ _) as [path query]. intros H. inv_ok.
  unfold approved. case_match; [by destruct x0|].
  eapply check_target_parts; [apply same_parts_append|by destruct x0].
Qed.

Lemma retry_loop_does fuel attempt rq retry policy :
  url_confined (rq_url rq) → does confined (retry_loop fuel attempt rq retry policy) (λ _, True).
Proof.
  intros Hrq. revert attempt. induction fuel as [|fuel IH]; intros attempt; simpl; [auto with io|].
  eapply does_bind; [by apply does_send|]. intros [resp|r chain] _.
  - destruct (_ || _); [by apply does_ret|].
    eapply does_bind; [apply does_now|]. intros t _.
    eapply (does_bind _ _ (λ _, True)); [apply does_lift; by destruct (response_wait _ _ _ _ _)|].
    intros wait _. eapply does_bind; [by apply does_sleep|]. intros _ _. apply IH.
  - destruct (_ || _); [auto with io|].
    eapply does_bind; [by apply does_sleep|]. intros _ _. apply IH.
Qed.

Lemma send_with_retry_does b retry policy :
  aims url_confined b → does confined (send_with_retry b retry policy) (λ _, True).
Proof. unfold send_with_retry. destruct b; [apply retry_loop_does|auto with io]. Qed.

Section loop.
Context (explode : gmap string (list string)) (limit : option N)
  (endpoint method_str : string) (body : option RequestBody).

(** The loop's invariant: a URL taken from a response was approved. *)
Definition page_ok (pg : Paging) : Prop :=
  match pg_url pg with Some u => approved u | None => True end.

Definition turn_ok (t : Turn) : Prop :=
  match t with Break _ => True | Continue pg => page_ok pg end.

Lemma page_url_approved pg u :
  page_ok pg → page_url p explode endpoint body pg = Ok u → approved u.
Proof using laws.
  unfold page_ok, page_url. destruct (pg_url pg); [by intros ? [= <-]|].
  intros _. apply build_url_approved.
Qed.

Lemma page_request_does pg u :
  approved u → does confined (page_request p method_str body pg u) (aims url_confined).
Proof using laws.
  intros Hu. eapply does_bind.
  { apply apply_auth_does. by apply add_headers_aims. }
  intros [b|e] Hb; simpl in Hb.
  - eapply (does_bind _ _ (aims url_confined)); [by apply does_lift|]. intros b' Hb'.
    apply does_lift. destruct (attach_body _ _ _ _ _ b') as [r|] eqn:E; [|exact I].
    by eapply attach_body_aims.
  - eapply (does_bind _ _ (λ _, False)); [by apply does_lift|]. by intros ? [].
Qed.

Lemma after_page_ok pg resp throttle v :
  on_ok turn_ok (after_page p limit pg resp throttle v).
Proof.
  unfold after_page. destruct (extract_rows _ _) as [rows|]; [|done]. simpl.
  destruct (reached_limit _ _); [done|]. destruct (check_max_rows _ _); [|done]. simpl.
  destruct (t_pagination (spec p)) as [config|]; [|done].
  destruct (next_page _ _ _ _ _ _) as [next|]; [|done].
  destruct next as [params|u|c]; [done| |done]. simpl.
  destruct (url_parse u) as [parsed|]; [|done]. simpl.
  destruct (check_target parsed _ _) as [[]|] eqn:E; [|done]. exact E.
Qed.

Lemma wait_turn_does throttle : does confined (wait_turn p throttle) (λ _, True).
Proof.
  unfold wait_turn. eapply does_bind; [apply does_now|]. intros t _.
  eapply (does_bind _ _ (λ _, True)).
  { destruct (_ ≫= _); [by apply does_sleep|by apply does_ret]. }
  intros _ _. destruct (limiter _); auto with io.
Qed.

Lemma turn_does pg :
  page_ok pg → does confined (turn p explode limit endpoint method_str body pg) turn_ok.
Proof using laws.
  intros Hpg. unfold turn. destruct (_ <=? _)%N; [auto with io|].
  eapply does_bind; [apply wait_turn_does|]. intros _ _.
  eapply (does_bind _ _ approved).
  { apply does_lift. destruct (page_url _ _ _ _ _) eqn:E; [|done]. by eapply page_url_approved. }
  intros u Hu. eapply does_bind; [by apply page_request_does|]. intros b Hb.
  eapply does_bind; [by apply send_with_retry_does|]. intros resp _.
  eapply (does_bind _ _ (λ _, True)); [apply does_lift; by destruct (compute_throttle _ _)|].
  intros throttle _. destruct (_ && _); [by apply does_ret|].
  eapply (does_bind _ _ (λ _, True)); [apply does_lift; by destruct (page_body _ _)|].
  intros v _. apply does_lift, after_page_ok.
Qed.

Lemma page_loop_does fuel pg :
  page_ok pg →
  does confined (page_loop p explode limit endpoint method_str body fuel pg) (λ _, True).
Proof using laws.
  revert pg. induction fuel as [|fuel IH]; intros pg Hpg; simpl; [auto with io|].
  eapply does_bind; [by apply turn_does|]. intros [rows|pg'] H; [by apply does_ret|].
  by apply IH.
Qed.
End loop.

Lemma fetch_rows_does params explode limit :
  does confined (fetch_rows p params explode limit) (λ _, True).
Proof using laws.
  unfold fetch_rows. destruct (select_request _ _) as [[endpoint method_str] body].
  eapply does_bind; [by apply page_loop_does|]. intros rows _. by apply does_ret.
Qed.
End confined.

(** ** Fuel and the number of requests *)

(** A pure step never reports the model's own error. *)
Definition fueled {A} (m : result Fault A) : Prop := m ≠ Err OutOfFuel.

Lemma fueled_ok {A} (a : A) : fueled (Ok a).
Proof. done. Qed.
Lemma fueled_plan {A} msg : fueled (A:=A) (Err (Plan msg)).
Proof. done. Qed.
Lemma fueled_external {A} msg : fueled (A:=A) (Err (External msg)).
Proof. done. Qed.
Lemma fueled_map_err {E A} (f : E → Fault) (m : result E A) :
  (∀ e, f e ≠ OutOfFuel) → fueled (map_err f m).
Proof. intros Hf. destruct m; simpl; [done|]. intros [= H]. by apply (Hf e). Qed.
Lemma fueled_bind {A B} (m : result Fault A) (f : A → result Fault B) :
  fueled m → (∀ a, fueled (f a)) → fueled (rbind m f).
Proof. destruct m; simpl; [auto|]. intros H _. unfold fueled in *. congruence. Qed.

Create HintDb fuel.
#[export] Hint Resolve fueled_ok fueled_plan fueled_external fueled_bind : fuel.
#[export] Hint Extern 2 (fueled (map_err _ _)) => apply fueled_map_err; discriminate : fuel.
#[export] Hint Extern 3 (fueled (match ?x with _ => _ end)) => destruct x : fuel.
#[export] Hint Extern 3 (fueled (if ?x then _ else _)) => destruct x : fuel.



Section bounds.
Context {w : Web}.

Lemma resolve_dynamic_sends s raw : sends 0 (resolve_dynamic s raw).
Proof.
  unfold resolve_dynamic. destruct (parse_var_ref raw) as [n|]; [|auto with io].
  destruct (s_dynamic s !! n); [|auto with io]. apply sends_bind_0; auto with io.
Qed.

Lemma and_then_sends {A B} (m : io (result string A)) (f : A → io (result string B)) :
  sends 0 m → (∀ a, sends 0 (f a)) → sends 0 (and_then m f).
Proof. intros Hm Hf. apply sends_bind_0; [done|]. intros [a|e]; auto with io. Qed.

Lemma auth_headers_sends s headers b : sends 0 (auth_headers s headers b).
Proof.
  revert b; induction headers as [|h headers IH]; intros b; simpl; [auto with io|].
  destruct (ah_bearer h); [|destruct (ah_value h); [|apply IH]].
  all: apply and_then_sends; [apply resolve_dynamic_sends|intros; apply IH].
Qed.

Lemma auth_pairs_sends s query : sends 0 (auth_pairs s query).
Proof.
  induction query as [|q query IH]; simpl; [auto with io|].
  apply and_then_sends; [apply resolve_dynamic_sends|]. intros v.
  apply and_then_sends; auto with io.
Qed.

Lemma fueled_time t secs : fueled (time_add_secs t secs).
Proof. unfold time_add_secs. by destruct (_ <=? _)%N. Qed.

Lemma exchange_token_sends url form : sends 0 (exchange_token url form).
Proof.
  unfold exchange_token. destruct (token_request url form); [|auto with io].
  apply sends_bind_0; [auto with io|]. intros [resp|]; [|auto with io].
  destruct (negb _); [auto with io|]. destruct (rbind _ _); [|auto with io].
  destruct (_ ≫= as_str); [|auto with io].
  apply sends_bind_0; [auto with io|]. intros t.
  apply sends_bind_0; [apply sends_lift, fueled_time|]. intros ?.
  apply sends_bind_0; auto with io.
Qed.

Lemma oauth_bearer_sends s : sends 0 (oauth_bearer s).
Proof.
  unfold oauth_bearer. destruct (s_auth s); auto with io.
  apply sends_bind_0; [auto with io|]. intros cached.
  apply sends_bind_0; [auto with io|]. intros t.
  apply sends_bind_0; [apply sends_lift, fueled_time|]. intros soon.
  destruct cached as [c|]; [destruct (_ <? _)%N|]; auto using exchange_token_sends.
  auto with io.
Qed.

Lemma apply_auth_sends s b : sends 0 (apply_auth s b).
Proof.
  unfold apply_auth. destruct (is_NoAuth _); [auto with io|].
  destruct b; [|auto with io]. destruct (negb _); [auto with io|].
  unfold attach_auth. destruct (s_auth s); [auto with io|apply auth_headers_sends|..].
  - apply and_then_sends; [apply resolve_dynamic_sends|auto with io].
  - apply and_then_sends; [apply auth_pairs_sends|auto with io].
  - apply and_then_sends; [apply oauth_bearer_sends|auto with io].
Qed.

Lemma fueled_ok_or {A} e (o : option A) : e ≠ OutOfFuel → fueled (ok_or e o).
Proof. destruct o; simpl; unfold fueled; congruence. Qed.

Lemma fueled_attach_body p body params cursor path b :
  fueled (attach_body p body params cursor path b).
Proof.
  unfold attach_body. destruct body, (custom_body_fields (h_source p)); auto with fuel.
  destruct (negb _); [auto with fuel|].
  apply fueled_bind; [auto with fuel|]. intros v.
  apply fueled_bind; [by apply fueled_ok_or|]. auto with fuel.
Qed.

Lemma fueled_page_url p explode endpoint body pg :
  fueled (page_url p explode endpoint body pg).
Proof.
  unfold page_url, build_url. destruct (pg_url pg); [auto with fuel|].
  destruct (foldl _ _ _). auto 6 with fuel.
Qed.

Lemma fueled_page_body p resp : fueled (page_body p resp).
Proof. unfold page_body. apply fueled_bind; [auto with fuel|]. intros text. auto with fuel. Qed.

Lemma fueled_extract_rows body spec : fueled (extract_rows body spec).
Proof.
  unfold extract_rows. destruct (json_at_path body (r_path spec)) as [v|]; [|auto with fuel].
  destruct (r_reshape spec) as [[]|]; [auto with fuel..|]. unfold rows_of. auto with fuel.
Qed.

Lemma fueled_advance p pg next : fueled (advance p pg next).
Proof.
  destruct next; simpl; [auto with fuel| |auto with fuel].
  apply fueled_bind; [auto with fuel|]. intros parsed.
  apply fueled_bind; auto with fuel.
Qed.

Lemma fueled_after_page p limit pg resp throttle v :
  fueled (after_page p limit pg resp throttle v).
Proof.
  unfold after_page. apply fueled_bind; [apply fueled_extract_rows|]. intros rows.
  destruct (reached_limit _ _); [auto with fuel|].
  apply fueled_bind; [unfold check_max_rows, safety_fault; auto with fuel|]. intros _.
  destruct (t_pagination (spec p)); [|auto with fuel].
  destruct (next_page _ _ _ _ _ _); [|auto with fuel].
  apply fueled_bind; [apply fueled_advance|]. intros [[params u] c]. auto with fuel.
Qed.

Lemma fueled_reset_at policy headers : fueled (reset_at policy headers).
Proof.
  unfold reset_at. destruct (_ ≫= _); [|auto with fuel].
  apply fueled_bind; [apply fueled_time|auto with fuel].
Qed.

Lemma fueled_response_wait retry policy resp attempt t :
  fueled (response_wait retry policy resp attempt t).
Proof.
  unfold response_wait. destruct (is_rate_limit _ _); [|auto with fuel].
  apply fueled_bind; [|auto with fuel].
  apply fueled_bind; [apply fueled_reset_at|auto with fuel].
Qed.

Lemma fueled_compute_throttle policy headers : fueled (compute_throttle policy headers).
Proof.
  unfold compute_throttle. destruct (_ ≫= _); [|auto with fuel].
  destruct (_ <? _)%Z; [auto with fuel|apply fueled_reset_at].
Qed.

Lemma page_request_sends p method_str body pg u : sends 0 (page_request p method_str body pg u).
Proof.
  apply sends_bind_0; [apply apply_auth_sends|]. intros r.
  apply sends_bind_0; [apply sends_lift, fueled_map_err; discriminate|]. intros b.
  apply sends_lift, fueled_attach_body.
Qed.

Lemma wait_turn_sends p throttle : sends 0 (wait_turn p throttle).
Proof.
  apply sends_bind_0; [auto with io|]. intros t.
  apply sends_bind_0; [destruct (_ ≫= _); auto with io|]. intros _.
  destruct (limiter _); auto with io.
Qed.

(** The retries of one request: one attempt for each unit of fuel, which never runs out. *)
Lemma retry_loop_sends fuel attempt rq retry policy :
  (attempt <= max_retries retry < attempt + N.of_nat fuel)%N →
  sends (S (N.to_nat (max_retries retry - attempt)))
    (retry_loop fuel attempt rq retry policy).
Proof.
  revert attempt. induction fuel as [|fuel IH]; intros attempt Hf; [lia|]. simpl.
  apply (sends_bind 1 (N.to_nat (max_retries retry - attempt))); [apply sends_send| |lia].
  assert (∀ ns, (max_retries retry <=? attempt)%N = false →
    sends (N.to_nat (max_retries retry - attempt))
      (let! _ := sleep ns in retry_loop fuel (attempt + 1) rq retry policy)) as Hnext.
  { intros ns Hlt%N.leb_gt. apply sends_bind_0; [auto with io|]. intros _.
    eapply sends_le; [apply IH; lia|lia]. }
  intros [resp|r chain].
  - destruct (negb _); cbn [orb]; [auto with io|].
    destruct (_ <=? _)%N eqn:E; [auto with io|].
    apply sends_bind_0; [auto with io|]. intros t.
    apply sends_bind_0; [apply sends_lift, fueled_response_wait|]. auto.
  - destruct r; cbn [orb]; [auto with io|]. destruct (_ <=? _)%N eqn:E; auto with io.
Qed.

Lemma send_with_retry_sends b retry policy :
  sends (S (N.to_nat (max_retries retry))) (send_with_retry b retry policy).
Proof.
  unfold send_with_retry. destruct b; [|auto with io].
  eapply sends_le; [apply retry_loop_sends; lia|lia].
Qed.

Section loop.
Context (p : HttpTableProvider) (explode : gmap string (list string)) (limit : option N)
  (endpoint method_str : string) (body : option RequestBody).

(** The attempts one page may take, and the pages left. *)
Definition attempts : nat := S (N.to_nat (max_retries (s_retry (h_source p)))).
Definition pages_left (pg : Paging) : nat :=
  N.to_nat (default DEFAULT_MAX_PAGES (h_max_pages p) - pg_index pg).

Lemma after_page_index pg resp throttle v pg' :
  after_page p limit pg resp throttle v = Ok (Continue pg') → pg_index pg' = (pg_index pg + 1)%N.
Proof.
  unfold after_page. intros H. inv_ok. destruct (reached_limit _ _); [discriminate H|].
  inv_ok. destruct (t_pagination (spec p)); [|discriminate H].
  destruct (next_page _ _ _ _ _ _); [|discriminate H]. inv_ok. destruct x1 as [[params u] c].
  by injection H as <-.
Qed.

(** A turn either sends nothing and fails, or advances the page index. *)
Lemma turn_sends pg :
  runs (λ l, count_sent l ≤ attempts ∧ (pages_left pg = 0 → count_sent l = 0))
    (turn p explode limit endpoint method_str body pg)
    (λ r, r ≠ Err OutOfFuel ∧
       (∀ pg', r = Ok (Continue pg') → pages_left pg ≠ 0 ∧ pg_index pg' = (pg_index pg + 1)%N)).
Proof.
  unfold turn, pages_left. destruct (_ <=? _)%N eqn:E.
  { intros s. exists []. rewrite (right_id_L [] (++)). repeat split; try done. apply Nat.le_0_l. }
  apply N.leb_gt in E.
  assert (sends attempts (turn p explode limit endpoint method_str body pg)) as Hs.
  { unfold turn. rewrite (proj2 (N.leb_gt _ _) E).
    apply sends_bind_0; [apply wait_turn_sends|]. intros _.
    apply sends_bind_0; [apply sends_lift, fueled_page_url|]. intros u.
    apply sends_bind_0; [apply page_request_sends|]. intros b.
    apply (sends_bind attempts 0); [apply send_with_retry_sends| |lia]. intros resp.
    apply sends_bind_0; [apply sends_lift, fueled_compute_throttle|]. intros throttle.
    destruct (_ && _); [auto with io|].
    apply sends_bind_0; [apply sends_lift, fueled_page_body|]. intros v.
    apply sends_lift, fueled_after_page. }
  intros s. destruct (Hs s) as (l & Hl & ? & ?). unfold turn in Hl, H0.
  rewrite (proj2 (N.leb_gt _ _) E) in Hl, H0. exists l. split; [exact Hl|].
  split; [split; [done|lia]|]. split; [done|]. intros pg' Hr. split; [lia|].
  match type of Hr with (?m s).1 = _ => destruct (m s) as [r s'] eqn:Hm end.
  simpl in Hr; subst r. do 5 (apply iobind_ok in Hm as (? & ? & _ & Hm)).
  destruct (_ && _); [discriminate Hm|]. apply iobind_ok in Hm as (v & s2 & _ & Hm).
  injection Hm as Hm _. by eapply after_page_index.
Qed.

Lemma page_loop_sends fuel pg :
  pages_left pg < fuel →
  sends (pages_left pg * attempts) (page_loop p explode limit endpoint method_str body fuel pg).
Proof.
  revert pg. induction fuel as [|fuel IH]; intros pg Hf; [lia|]. simpl.
  intros s. unfold iobind. destruct (turn_sends pg s) as (l1 & Hl1 & [Hc1 Hz] & Hr & Hn).
  destruct (turn _ _ _ _ _ _ pg s) as [[[rows|pg']|e] s1]; simpl in *.
  - exists l1. split_and!; [done| |done]. destruct (pages_left pg); [rewrite Hz; lia|nia].
  - destruct (Hn _ eq_refl) as [Hp Hi].
    assert (pages_left pg = S (pages_left pg')) as Hpl
      by (unfold pages_left in *; rewrite Hi; lia).
    destruct (IH pg' ltac:(lia) s1) as (l2 & -> & ? & ?). exists (l1 ++ l2).
    rewrite Hl1, (assoc_L (++)), count_sent_app, Hpl. split_and!; [done|lia|done].
  - exists l1. split_and!; [done| |congruence]. destruct (pages_left pg); [rewrite Hz; lia|nia].
Qed.
End loop.

Lemma fetch_rows_sends p params explode limit :
  sends (N.to_nat (default DEFAULT_MAX_PAGES (h_max_pages p)) * attempts p)
    (fetch_rows p params explode limit).
Proof.
  unfold fetch_rows. destruct (select_request _ _) as [[endpoint method_str] body].
  eapply (sends_bind _ 0); [apply page_loop_sends| |].
  - unfold pages_left. simpl. lia.
  - auto with io.
  - unfold pages_left. simpl. rewrite N.sub_0_r. lia.
Qed.
End bounds.

(** ** Backoff *)

(** the exponential backoff does not overflow. On every base, attempt and cap, the shift
    that may exceed its width and the saturating product give the mathematical
    [min (base * 2 ^ attempt) cap]. *)
Theorem backoff_ms_exact retry attempt :
  (max_backoff_ms retry <= u64_max)%N →
  backoff_ms retry attempt
  = N.min (base_backoff_ms retry * 2 ^ attempt) (max_backoff_ms retry).
Proof.
  intros Hm. unfold backoff_ms, u64_saturating_mul, shl_factor.
  destruct (N.ltb_spec attempt 64) as [Ha|Ha].
  { rewrite N.shiftl_1_l. lia. }
  destruct (decide (base_backoff_ms retry = 0%N)) as [->|Hb]; [lia|].
  assert (2 ^ 64 <= 2 ^ attempt)%N as Hp by (apply N.pow_le_mono_r; lia).
  assert (u64_max <= 2 ^ 64)%N as Hu by (vm_compute; discriminate).
  assert (1 * u64_max <= base_backoff_ms retry * u64_max)%N as H1
    by (apply N.mul_le_mono_r; lia).
  assert (1 * 2 ^ attempt <= base_backoff_ms retry * 2 ^ attempt)%N as H2
    by (apply N.mul_le_mono_r; lia).
  rewrite N.mul_1_l in H1, H2. lia.
Qed.

(** ** The theorems *)

(** C2: a fetch stays where the guard lets it. Whatever the filters bind, the server answers
    and the [Link] headers say, every page request goes to a URL the outbound guard accepts for
    the source, and, when the source has credentials, only to a host trusted with them. *)
Theorem fetch_rows_confined {w : Web} {laws : WebLaws w} p params explode limit s :
  ∃ l, st_log (fetch_rows p params explode limit s).2 = st_log s ++ l
    ∧ Forall (λ e, match e with
                   | Sent rq =>
                       check_target (rq_url rq) (s_base_url (h_source p))
                         (s_allowed_hosts (h_source p)) = Ok ()
                       ∧ (s_auth (h_source p) ≠ NoAuth →
                          is_trusted (rq_url rq) (s_base_url (h_source p))
                            (s_allowed_hosts (h_source p)) = true)
                   | TokenSent _ | Slept _ => True
                   end) l.
Proof.
  destruct (fetch_rows_does p params explode limit s) as (l & Hl & HP & _). exists l. by split.
Qed.

(** a fetch ends. Against any server, even one whose cursor never stops, it returns after at
    most [max_pages] pages (1000 when unset) of at most [1 + max_retries] requests each, without
    exhausting the fuel of the model's loops. *)
Theorem fetch_rows_bounded {w : Web} p params explode limit s :
  (fetch_rows p params explode limit s).1 ≠ Err OutOfFuel
  ∧ ∃ l, st_log (fetch_rows p params explode limit s).2 = st_log s ++ l
      ∧ count_sent l ≤ N.to_nat (default DEFAULT_MAX_PAGES (h_max_pages p))
                       * S (N.to_nat (max_retries (s_retry (h_source p)))).
Proof.
  destruct (fetch_rows_sends p params explode limit s) as (l & Hl & Hc & Hr).
  split; [done|]. by exists l.
Qed.
