(* ===== verification/HttpPages.v ===== *)
(** * Completeness of pagination
    A fetch from a server that answers every page of a data set returns the data set, cut to
    the query's limit, for offset and for page-number pagination. *)

From S2P Require Export HttpFetchProps.

Lemma truncate_prefix limit (r rows : list Json) :
  r `prefix_of` rows → (∃ n, limit = Some n ∧ (n <= N.of_nat (length r))%N) ∨ r = rows →
  truncate limit r = truncate limit rows.
Proof.
  intros Hp [(n & -> & Hn)| ->]; [|done]. destruct Hp as [k ->]. unfold truncate. rewrite length_app.
  destruct (N.ltb_spec n (N.of_nat (length r))), (N.ltb_spec n (N.of_nat (length r + length k)));
    try lia.
  - by rewrite take_app_le by lia.
  - rewrite take_app_le by lia. by rewrite take_ge by lia.
  - destruct k; [by rewrite (right_id_L [] (++))|simpl in *; lia].
Qed.

Section pages.
Context {w : Web} (p : HttpTableProvider) (explode : gmap string (list string))
  (limit : option N) (endpoint method_str : string) (body : option RequestBody).

(** The server answers the request built from [params] with the page [v], whose rows are
    [rows], whatever happened before. *)
Definition serves (params : gmap string string) (v : Json) (rows : list Json) : Prop :=
  ∀ pg s, pg_params pg = params → pg_url pg = None → pg_cursor pg = None →
  ∃ u rq s', page_url p explode endpoint body pg = Ok u
    ∧ page_request p method_str body pg u s = (Ok (Ok rq), s')
    ∧ ∀ w0, ∃ resp, (transport rq w0).1 = Received resp ∧ rs_status resp = 200%N
        ∧ page_body p resp = Ok v ∧ extract_rows v (t_response (h_spec p)) = Ok rows
        ∧ compute_throttle (s_rate_limit (h_source p)) (rs_headers resp) = Ok None.

(** The pages a pagination other than by [Link] headers visits from page [i] on. *)
Inductive visits (config : PaginationConfig)
    : N → gmap string string → list (list Json) → Prop :=
| visits_last i params v rows :
    serves params v rows → (∀ link, next_page config params v link rows i = None) →
    visits config i params [rows]
| visits_more i params v rows params' pages :
    serves params v rows →
    (∀ link, next_page config params v link rows i = Some (NextParams params')) →
    visits config (i + 1) params' pages → visits config i params (rows :: pages).

Context (config : PaginationConfig) (Hconfig : t_pagination (h_spec p) = Some config)
  (Hstatus : 200%N ∉ extra_statuses (s_rate_limit (h_source p))).

(** One turn of the loop on a served page. *)
Lemma turn_served pg s v rows :
  serves (pg_params pg) v rows → pg_url pg = None → pg_cursor pg = None →
  (pg_index pg < default DEFAULT_MAX_PAGES (h_max_pages p))%N →
  ∃ resp s', rs_status resp = 200%N ∧ extract_rows v (t_response (h_spec p)) = Ok rows ∧
    turn p explode limit endpoint method_str body pg s
    = (after_page p limit pg resp None v, s').
Proof using Hstatus.
  intros Hserves Hu Hc Hi. unfold turn. rewrite (proj2 (N.leb_gt _ _) Hi).
  unfold iobind at 1.
  destruct (wait_turn p (pg_throttle pg) s) as [r0 s0] eqn:E0.
  assert (r0 = Ok ()) as ->.
  { revert E0. unfold wait_turn, iobind, now. simpl.
    destruct (_ ≫= _); simpl; destruct (limiter _); simpl; by intros [= <- <-]. }
  destruct (Hserves pg s0 eq_refl Hu Hc) as (u & rq & s1 & -> & Hrq & Hresp).
  destruct (Hresp (st_world s1)) as (resp & Ht & Hst & Hb & Hr & Hth).
  exists resp. simpl. unfold iobind at 1. simpl. unfold iobind at 1. rewrite Hrq.
  unfold iobind at 1. unfold send_with_retry. simpl.
  unfold iobind at 1, send_as. destruct (transport rq (st_world s1)) as [x w1]. simpl in Ht; subst x.
  rewrite Hst. change (is_server_error 200) with false.
  assert (is_rate_limit (s_rate_limit (source p)) 200 = false) as ->.
  { unfold is_rate_limit, source. rewrite bool_decide_eq_false_2 by done. done. }
  simpl. unfold iobind at 1, lift at 1. unfold source. rewrite Hth. rewrite Hst. simpl.
  unfold iobind at 1, lift at 1. rewrite Hb. unfold lift. eauto.
Qed.

(** The loop over the visited pages. *)
Lemma page_loop_visits i params pages fuel pg s :
  visits config i params pages → pg_index pg = i → pg_params pg = params →
  pg_url pg = None → pg_cursor pg = None → length pages < fuel →
  (i + N.of_nat (length pages) <= default DEFAULT_MAX_PAGES (h_max_pages p))%N →
  (∀ max, h_max_rows p = Some max →
     (N.of_nat (length (pg_rows pg ++ mjoin pages)) <= max)%N) →
  ∃ r s', page_loop p explode limit endpoint method_str body fuel pg s = (Ok r, s')
    ∧ truncate limit r = truncate limit (pg_rows pg ++ mjoin pages).
Proof using Hstatus Hconfig.
  intros Hv. revert fuel pg s.
  induction Hv as [i params v rows Hs Hn|i params v rows params' pages Hs Hn Hv IH];
    intros [|fuel] pg s Hi Hp Hu Hc Hf Hmax Hrows; simpl in Hf; try lia; subst params;
    destruct (turn_served pg s v rows Hs Hu Hc ltac:(simpl in Hmax; lia))
      as (resp & s1 & Hst & Hr & Ht);
    simpl; unfold iobind; rewrite Ht; unfold after_page, spec; rewrite Hr; simpl;
    (destruct (reached_limit limit _) eqn:Hl;
      [eexists _, s1; split; [done|]; apply truncate_prefix;
       [simpl; apply prefix_app; eexists; done|left; unfold reached_limit in Hl;
        destruct limit as [n|]; [exists n; split; [done|]; by apply N.leb_le|done]]|]).
  - assert (check_max_rows p (N.of_nat (length (pg_rows pg ++ rows))) = Ok ()) as ->.
    { unfold check_max_rows. destruct (h_max_rows p) as [max|]; [|done].
      specialize (Hrows _ eq_refl). simpl in Hrows. rewrite (right_id_L [] (++)) in Hrows.
      destruct (N.ltb_spec max (N.of_nat (length (pg_rows pg ++ rows)))); [lia|done]. }
    simpl. rewrite Hconfig. rewrite Hi, Hn. simpl.
    eexists _, s1. split; [done|]. simpl. by rewrite (right_id_L [] (++)).
  - assert (check_max_rows p (N.of_nat (length (pg_rows pg ++ rows))) = Ok ()) as ->.
    { unfold check_max_rows. destruct (h_max_rows p) as [max|]; [|done].
      specialize (Hrows _ eq_refl). simpl in Hrows. rewrite !length_app in Hrows. rewrite length_app.
      destruct (N.ltb_spec max (N.of_nat (length (pg_rows pg) + length rows))); [lia|done]. }
    simpl. rewrite Hconfig. rewrite Hi, Hn. simpl.
    assert (pg_rows pg ++ mjoin (rows :: pages) = (pg_rows pg ++ rows) ++ mjoin pages) as Hj
      by (simpl; by rewrite (assoc_L (++))).
    simpl in Hj, Hrows, Hmax |- *. rewrite Hj in *.
    apply (IH fuel); simpl; try done; lia.
Qed.

(** A fetch that visits [pages] returns their rows, up to the limit. *)
Lemma fetch_visits params pages s :
  select_request (h_spec p) params = (endpoint, method_str, body) →
  visits config 0 (seed_initial config params) pages →
  (N.of_nat (length pages) <= default DEFAULT_MAX_PAGES (h_max_pages p))%N →
  (∀ max, h_max_rows p = Some max → (N.of_nat (length (mjoin pages)) <= max)%N) →
  (fetch_rows p params explode limit s).1 = Ok (truncate limit (mjoin pages)).
Proof using Hstatus Hconfig.
  intros Hsel Hv Hmax Hrows. unfold fetch_rows. rewrite Hsel.
  destruct (page_loop_visits 0 (seed_initial config params) pages
              (S (N.to_nat (default DEFAULT_MAX_PAGES (h_max_pages p)))) (first_page p params) s)
    as (r & s' & Hl & Ht); [done|done|simpl; by rewrite Hconfig|done|done|lia|lia|done|].
  unfold iobind. rewrite Hl. simpl in *. by rewrite Ht.
Qed.
End pages.

(** ** Offset pagination *)

Section offset.
Context {w : Web} (p : HttpTableProvider) (explode : gmap string (list string))
  (limit : option N) (endpoint method_str : string) (body : option RequestBody).
Context (param size_param : string) (size : N) (params : gmap string string).

(** The parameters of the request for the rows from [offset] on. *)
Definition offset_params (offset : N) : gmap string string :=
  <[size_param := show_N size]> (<[param := show_N offset]> params).

Lemma offset_params_next offset next :
  <[size_param := show_N size]> (<[param := show_N next]> (offset_params offset))
  = offset_params next.
Proof.
  unfold offset_params. apply map_eq. intros k.
  destruct (decide (k = size_param)) as [->|]; [by rewrite !lookup_insert_eq|].
  rewrite !(lookup_insert_ne _ size_param) by done.
  destruct (decide (k = param)) as [->|]; [by rewrite !lookup_insert_eq|].
  by rewrite !lookup_insert_ne by done.
Qed.

Context (data : list Json) (body_at : N → Json).
Context (Hsize : (0 < size)%N) (Hwidth : (N.of_nat (length data) + size <= u64_max)%N).
Context (Hserves : ∀ offset, (offset <= N.of_nat (length data))%N →
  serves p explode endpoint method_str body (offset_params offset) (body_at offset)
    (take (N.to_nat size) (drop (N.to_nat offset) data))).

(** The pages from page [i] on hold what the data has from there. *)
Lemma offset_visits k i :
  (i * size <= N.of_nat (length data) < (i + N.of_nat k) * size)%N →
  ∃ pages, visits p explode endpoint method_str body (Offset param size_param size) i
             (offset_params (i * size)) pages
    ∧ mjoin pages = drop (N.to_nat (i * size)) data
    ∧ (i + N.of_nat (length pages) = N.of_nat (length data) / size + 1)%N.
Proof using Hsize Hserves Hwidth.
  revert i. induction k as [|k IH]; intros i Hi; [lia|].
  set (rows := take (N.to_nat size) (drop (N.to_nat (i * size)) data)).
  assert (Hlen : length rows = N.to_nat (N.min size (N.of_nat (length data) - i * size))).
  { unfold rows. rewrite length_take, length_drop. lia. }
  destruct (N.ltb_spec (N.of_nat (length rows)) size) as [Hlt|Hge].
  - exists [rows]. split_and!.
    + eapply visits_last; [apply Hserves; lia|]. intros link. simpl. fold rows.
      by rewrite (proj2 (N.ltb_lt _ _) Hlt).
    + simpl. rewrite (right_id_L [] (++)). unfold rows. apply take_ge. rewrite length_drop. lia.
    + simpl. assert (N.of_nat (length data) / size = i)%N as ->; [|lia].
      symmetry. apply (N.div_unique _ _ _ (N.of_nat (length data) - i * size)); lia.
  - destruct (IH (i + 1)%N) as (pages & Hv & Hj & Hn); [lia|].
    exists (rows :: pages). split_and!.
    + eapply visits_more; [apply Hserves; lia| |exact Hv]. intros link. simpl. fold rows.
      rewrite (proj2 (N.ltb_ge _ _) Hge). rewrite offset_params_next.
      do 3 f_equal. unfold u64_saturating_mul, u64_saturating_add.
      rewrite (N.min_r _ (i + 1)) by nia. rewrite N.min_r by nia. lia.
    + simpl. rewrite Hj. unfold rows.
      replace (N.to_nat ((i + 1) * size)) with (N.to_nat (i * size) + N.to_nat size) by lia.
      rewrite <- drop_drop. apply take_drop.
    + simpl. lia.
Qed.
End offset.

(** C9: offset pagination is complete. If the server answers offset [o] with the [size] rows
    of its data set from [o] on (fewer at the end, none past it), a fetch whose page and row
    ceilings leave room for the data set ends, and returns exactly the data set in order, each
    row once, cut to the query's limit. *)
Theorem offset_fetch_complete {w : Web} p explode limit endpoint method_str body param size_param
    size params data body_at s :
  t_pagination (h_spec p) = Some (Offset param size_param size) →
  select_request (h_spec p) params = (endpoint, method_str, body) →
  param ≠ size_param → params !! param = None → params !! size_param = None →
  (0 < size)%N → (N.of_nat (length data) + size <= u64_max)%N →
  200%N ∉ extra_statuses (s_rate_limit (h_source p)) →
  (N.of_nat (length data) / size + 1 <= default DEFAULT_MAX_PAGES (h_max_pages p))%N →
  (∀ max, h_max_rows p = Some max → (N.of_nat (length data) <= max)%N) →
  (∀ offset, (offset <= N.of_nat (length data))%N →
     serves p explode endpoint method_str body (offset_params param size_param size params offset)
       (body_at offset) (take (N.to_nat size) (drop (N.to_nat offset) data))) →
  (fetch_rows p params explode limit s).1 = Ok (truncate limit data).
Proof.
  intros Hc Hsel Hne Hp Hsp Hsize Hw Hst Hmax Hrows Hs.
  destruct (offset_visits p explode endpoint method_str body param size_param size params data
              body_at Hsize Hw Hs (S (length data)) 0) as (pages & Hv & Hj & Hn); [nia|].
  rewrite drop_0 in Hj. rewrite <- Hj in Hrows |- *.
  eapply fetch_visits; [done..| |lia|done].
  cbn [seed_initial]. unfold or_insert. rewrite Hp, lookup_insert_ne, Hsp by done. exact Hv.
Qed.
