(* ===== verification/HttpScanProps.v ===== *)
(** * Theorems of scan planning
    The fan-out is a Cartesian product, a filter reported as pushed down is enforced by the
    requests, and a scan without a required filter sends nothing. *)

From S2P Require Export HttpFetchProps HttpResponse.

(** ** The fan-out *)

(** One choice of a value for each parameter, the first varying slowest. *)
Fixpoint choices (fanout : Fanout) : list (list (string * string)) :=
  match fanout with
  | [] => [[]]
  | (name, vals) :: fanout => v ← vals; c ← choices fanout; [(name, v) :: c]
  end.

Lemma mjoin_fmap_bind {A B} (f : A → list B) l : mjoin (f <$> l) = l ≫= f.
Proof. induction l as [|x l IH]; [done|]. simpl. f_equal. exact IH. Qed.

Lemma bind_singleton {A B} (f : A → B) l : (l ≫= λ x, [f x]) = f <$> l.
Proof. induction l as [|x l IH]; [done|]. simpl. by f_equal. Qed.

Lemma bind_bind {A B C} (f : A → list B) (g : B → list C) l :
  (l ≫= f) ≫= g = l ≫= λ x, f x ≫= g.
Proof. induction l as [|x l IH]; [done|]. csimpl. by rewrite bind_app, IH. Qed.

Lemma fmap_bind {A B C} (f : A → B) (g : B → list C) l : (f <$> l) ≫= g = l ≫= λ x, g (f x).
Proof. induction l as [|x l IH]; [done|]. csimpl. by rewrite IH. Qed.

Lemma bind_fmap {A B C} (f : A → list B) (g : B → C) l : g <$> (l ≫= f) = l ≫= λ x, g <$> f x.
Proof. induction l as [|x l IH]; [done|]. csimpl. by rewrite fmap_app, IH. Qed.

Lemma bind_ext' {A B} (f g : A → list B) l : (∀ x, f x = g x) → l ≫= f = l ≫= g.
Proof. intros H. induction l as [|x l IH]; [done|]. csimpl. by rewrite H, IH. Qed.

Lemma expand_fanout_fold sets fanout :
  foldl (λ sets nv, mjoin ((λ s, (λ v, <[nv.1 := v]> s) <$> nv.2) <$> sets)) sets fanout
  = sets ≫= (λ s, extend s <$> choices fanout).
Proof.
  revert sets; induction fanout as [|[name vals] fanout IH]; intros sets.
  { cbn [foldl choices]. unfold extend. cbn. induction sets as [|s sets IHs]; [done|].
    cbn. by f_equal. }
  cbn [foldl choices fst snd]. rewrite IH, mjoin_fmap_bind, bind_bind.
  apply bind_ext'. intros s. rewrite fmap_bind, bind_fmap. apply bind_ext'. intros v.
  rewrite bind_singleton, <- list_fmap_compose. done.
Qed.

Lemma expand_fanout_choices base fanout :
  expand_fanout base fanout = extend base <$> choices fanout.
Proof. unfold expand_fanout. rewrite expand_fanout_fold. csimpl. by rewrite (right_id_L [] (++)). Qed.

Lemma elem_of_choices fanout c :
  c ∈ choices fanout ↔ Forall2 (λ nv kv, kv.1 = nv.1 ∧ kv.2 ∈ nv.2) fanout c.
Proof.
  revert c; induction fanout as [|[name vals] fanout IH]; intros c; simpl.
  { rewrite list_elem_of_singleton. split; [by intros ->|by intros H; inversion H]. }
  rewrite list_elem_of_bind. split.
  - intros (v & Hc & Hv). apply list_elem_of_bind in Hc as (c' & Hc & Hc').
    apply list_elem_of_singleton in Hc as ->. constructor; [done|]. by apply IH.
  - intros H. inversion H as [|? [k v] ? c' [Hk Hv] Hc']; subst. simpl in *. subst k.
    exists v. split; [|done]. apply list_elem_of_bind. exists c'.
    split; [by apply list_elem_of_singleton|by apply IH].
Qed.

(** ** Lookups in bound parameters *)

Lemma lookup_extend {A} (params : gmap string A) kvs k :
  k ∉ kvs.*1 → extend params kvs !! k = params !! k.
Proof.
  unfold extend. revert params; induction kvs as [|[k' v] kvs IH]; intros params Hk; simpl; [done|].
  apply not_elem_of_cons in Hk as [??]. simpl in *. rewrite IH by done. by apply lookup_insert_ne.
Qed.

Lemma extend_cons {A} (params : gmap string A) k v kvs :
  extend params ((k, v) :: kvs) = extend (<[k:=v]> params) kvs.
Proof. done. Qed.

(** A key that is bound gets one of the values it is bound to. *)
Lemma lookup_extend_in {A} (params : gmap string A) kvs k :
  k ∈ kvs.*1 → ∃ v, (k, v) ∈ kvs ∧ extend params kvs !! k = Some v.
Proof.
  revert params; induction kvs as [|[k' v'] kvs IH]; intros params Hk; [by inversion Hk|].
  rewrite extend_cons. destruct (decide (k ∈ kvs.*1)) as [Hin|Hnin].
  - destruct (IH (<[k':=v']> params) Hin) as (v & ? & ?). exists v. split; [by right|done].
  - apply elem_of_cons in Hk as [Hk|]; [|done]. simpl in Hk; subst k'.
    exists v'. split; [by left|]. rewrite lookup_extend by done. by rewrite lookup_insert_eq.
Qed.

Lemma lookup_extend_unique {A} (params : gmap string A) kvs k v :
  (k, v) ∈ kvs → (∀ v', (k, v') ∈ kvs → v' = v) → extend params kvs !! k = Some v.
Proof.
  intros Hin Huniq. destruct (lookup_extend_in params kvs k) as (v' & Hv' & ->).
  - apply list_elem_of_fmap. by exists (k, v).
  - by rewrite (Huniq v').
Qed.

(** ** What a filter binds *)

Section pushdown.
Context (spec : HttpTableSpec).

(** The request parameter an equality or comparison writes. *)
Definition binding_of (f : Expr) : option (string * string) :=
  match extract_cmp f with
  | None => None
  | Some (col, op, val) =>
      match find_param spec col with
      | None => None
      | Some param => if decide (op = "=") then Some (col, val)
                      else (λ q, (q, val)) <$> p_emit param !! op
      end
  end.

Definition explode_of (f : Expr) : option (string * list string) :=
  match extract_in_list f with
  | None => None
  | Some (col, vals) =>
      match find_param spec col with
      | None => None
      | Some param => if p_explode param && negb (is_path_param spec col) then Some (col, vals)
                      else None
      end
  end.

Definition fanout_of (f : Expr) : option (string * list string) :=
  match extract_in_list f with
  | None => None
  | Some (col, vals) =>
      match find_param spec col with
      | None => None
      | Some param => if p_explode param && negb (is_path_param spec col) then None
                      else if p_required param || is_path_param spec col then Some (col, vals)
                      else None
      end
  end.

Lemma bind_filters_extend filters :
  bind_filters spec filters = extend ∅ (omap binding_of filters).
Proof.
  unfold bind_filters. generalize (∅ : gmap string string) as m.
  induction filters as [|f filters IH]; intros m; [done|]. csimpl. rewrite IH.
  unfold bind_filter, binding_of. destruct (extract_cmp f) as [[[col op] val]|]; [|done].
  destruct (find_param spec col) as [param|]; [|done]. destruct (decide (op = "=")); [done|].
  by destruct (p_emit param !! op).
Qed.

Lemma bind_in_lists_extend filters :
  bind_in_lists spec filters = (extend ∅ (omap explode_of filters), omap fanout_of filters).
Proof.
  unfold bind_in_lists.
  assert (∀ m fan, foldl (bind_in_list spec) (m, fan) filters
    = (extend m (omap explode_of filters), fan ++ omap fanout_of filters)) as H; [|by rewrite H].
  induction filters as [|f filters IH]; intros m fan; csimpl.
  { by rewrite (right_id_L [] (++)). }
  unfold explode_of, fanout_of. destruct (extract_in_list f) as [[col vals]|]; [|apply IH].
  destruct (find_param spec col) as [param|]; [|apply IH].
  destruct (_ && _); [apply IH|]. destruct (_ || _); [|apply IH].
  rewrite IH. by rewrite <- (assoc_L (++)).
Qed.

(** An [IN] list is never a comparison as well. *)
Lemma in_list_not_cmp f cv : extract_in_list f = Some cv → extract_cmp f = None.
Proof.
  destruct f as [|?|l op r|? ? ?|]; try done. unfold extract_in_list, extract_cmp.
  destruct op; simpl; try done.
  - destruct (column_literal l r) as [[[c sc] fl]|]; [|done].
    simpl. by destruct (scalar_to_string sc).
  - intros _. destruct (column_literal l r) as [[[c sc] fl]|]; [|done]. by destruct fl.
Qed.

(** The parameter a pushed filter determines. *)
Definition filter_key (f : Expr) : option string :=
  match extract_in_list f with
  | Some (c, _) => Some c
  | None => fst <$> binding_of f
  end.

Lemma filter_key_binding f k v : binding_of f = Some (k, v) → filter_key f = Some k.
Proof.
  intros H. unfold filter_key. destruct (extract_in_list f) as [cv|] eqn:E; [|by rewrite H].
  apply in_list_not_cmp in E. unfold binding_of in H. by rewrite E in H.
Qed.

Lemma filter_key_in_list f c vals : extract_in_list f = Some (c, vals) → filter_key f = Some c.
Proof. intros H. unfold filter_key. by rewrite H. Qed.

Lemma fanout_of_in_list f cv : fanout_of f = Some cv → extract_in_list f = Some cv.
Proof.
  unfold fanout_of. destruct (extract_in_list f) as [[c vals]|]; [|done].
  destruct (find_param spec c); [|done]. repeat case_match; naive_solver.
Qed.

Lemma explode_of_in_list f cv : explode_of f = Some cv → extract_in_list f = Some cv.
Proof.
  unfold explode_of. destruct (extract_in_list f) as [[c vals]|]; [|done].
  destruct (find_param spec c); [|done]. repeat case_match; naive_solver.
Qed.

(** Defaults and derived values keep what is bound. *)
Lemma bind_defaults_keep explode fanout params k v :
  params !! k = Some v → bind_defaults spec explode fanout params !! k = Some v.
Proof.
  unfold bind_defaults. revert params. induction (t_params spec) as [|q l IH]; intros params Hk;
    simpl; [done|].
  apply IH. unfold bind_default. destruct (p_default q) as [d|]; [|done].
  unfold unbound, bound_in. destruct (decide (p_name q = k)) as [->|Hne].
  - rewrite bool_decide_eq_true_2 by (rewrite Hk; eauto). done.
  - destruct (_ && _); [|done]. by rewrite lookup_insert_ne.
Qed.

Lemma derived_unbound explode fanout params now k :
  k ∈ (derived spec explode fanout params now).*1 → params !! k = None.
Proof.
  intros Hk. apply list_elem_of_fmap in Hk as ([k' v] & -> & Hin). simpl.
  unfold derived in Hin. apply list_elem_of_omap in Hin as (q & _ & Hq).
  destruct (unbound explode fanout params q) eqn:Hu; [|done].
  apply bind_Some in Hq as (d & _ & Hq). apply bind_Some in Hq as (v' & _ & [= <- <-]).
  unfold unbound, bound_in in Hu. apply andb_true_iff in Hu as [Hu _].
  apply negb_true_iff, bool_decide_eq_false in Hu. by apply eq_None_not_Some.
Qed.

Lemma resolve_filters_keep filters now k v :
  bind_filters spec filters !! k = Some v →
  b_params (resolve_filters spec filters now) !! k = Some v.
Proof.
  intros Hk. unfold resolve_filters. destruct (bind_in_lists spec filters) as [explode fanout].
  simpl. set (params := bind_defaults spec explode fanout (bind_filters spec filters)).
  assert (params !! k = Some v) as Hp by (by apply bind_defaults_keep).
  rewrite lookup_extend; [done|]. intros Hin%derived_unbound. congruence.
Qed.

Lemma resolve_filters_fanout filters now :
  b_fanout (resolve_filters spec filters now) = omap fanout_of filters
  ∧ b_explode (resolve_filters spec filters now) = extend ∅ (omap explode_of filters).
Proof. unfold resolve_filters. by rewrite bind_in_lists_extend. Qed.
End pushdown.

(** ** Enforcement *)

(** How the requests of a scan enforce a filter: an equality or comparison by the value every
    request binds; an [IN] list by its values, all of them in one request or one in each. *)
Definition enforced (spec : HttpTableSpec) (b : Binding) (f : Expr) : Prop :=
  let sets := expand_fanout (b_params b) (b_fanout b) in
  match extract_in_list f with
  | Some (c, vals) =>
      b_explode b !! c = Some vals
      ∨ Forall (λ set, ∃ v, v ∈ vals ∧ set !! c = Some v) sets
        ∧ (Forall (λ nv, nv.2 ≠ []) (b_fanout b) →
           ∀ v, v ∈ vals → ∃ set, set ∈ sets ∧ set !! c = Some v)
  | None =>
      match binding_of spec f with
      | Some (k, v) => Forall (λ set, set !! k = Some v) sets
      | None => False
      end
  end.

Section enforced.
(** No other filter determines the parameter of [f]. *)
Context (spec : HttpTableSpec) (filters : list Expr) (f : Expr) (Hf : f ∈ filters)
  (Hdistinct : ∀ g k, g ∈ filters → filter_key spec f = Some k →
     filter_key spec g = Some k → f = g).

Lemma fanout_keys ch k :
  filter_key spec f = Some k → ch ∈ choices (omap (fanout_of spec) filters) →
  k ∈ ch.*1 → is_Some (fanout_of spec f).
Proof using Hdistinct.
  intros Hk Hch Hin. apply elem_of_choices in Hch.
  apply list_elem_of_fmap in Hin as ([k' v] & -> & Hin). simpl in *.
  apply list_elem_of_lookup_1 in Hin as [i Hi].
  destruct (Forall2_lookup_r _ _ _ _ _ Hch Hi) as ([c vals] & Hc & [Hk' _]). simpl in Hk'; subst c.
  apply list_elem_of_lookup_2, list_elem_of_omap in Hc as (g & Hg & Hgf).
  pose proof (fanout_of_in_list _ _ _ Hgf) as Hgi. apply filter_key_in_list with (spec:=spec) in Hgi.
  rewrite (Hdistinct g k' Hg Hk Hgi). by eexists.
Qed.

Lemma enforced_binding k v now :
  extract_in_list f = None → binding_of spec f = Some (k, v) →
  let b := resolve_filters spec filters now in
  Forall (λ set, set !! k = Some v) (expand_fanout (b_params b) (b_fanout b)).
Proof using Hdistinct Hf.
  intros Hin Hb b. unfold b. destruct (resolve_filters_fanout spec filters now) as [-> _].
  pose proof (filter_key_binding _ _ _ _ Hb) as Hk.
  rewrite expand_fanout_choices. apply Forall_fmap, Forall_forall. intros ch Hch. simpl.
  rewrite lookup_extend.
  - apply resolve_filters_keep. rewrite bind_filters_extend. apply lookup_extend_unique.
    + apply list_elem_of_omap. eauto.
    + intros v' Hv'. apply list_elem_of_omap in Hv' as (g & Hg & Hgb).
      rewrite (Hdistinct g k) in Hb by eauto using filter_key_binding. congruence.
  - intros Hk'. destruct (fanout_keys _ _ Hk Hch Hk') as [cv Hcv].
    apply fanout_of_in_list in Hcv. congruence.
Qed.

(** A choice that takes [v] wherever it decides [c], and some value elsewhere. *)
Definition choose (c v : string) (nv : string * list string) : string * string :=
  (nv.1, if decide (nv.1 = c) then v else default v (head nv.2)).

Lemma enforced_fanout c vals now :
  extract_in_list f = Some (c, vals) → is_Some (fanout_of spec f) →
  let b := resolve_filters spec filters now in
  let sets := expand_fanout (b_params b) (b_fanout b) in
  Forall (λ set, ∃ v, v ∈ vals ∧ set !! c = Some v) sets
  ∧ (Forall (λ nv, nv.2 ≠ []) (b_fanout b) →
     ∀ v, v ∈ vals → ∃ set, set ∈ sets ∧ set !! c = Some v).
Proof using Hdistinct Hf.
  intros Hin [cv Hcv] b sets. unfold sets, b.
  destruct (resolve_filters_fanout spec filters now) as [-> _]. rewrite expand_fanout_choices.
  assert (cv = (c, vals)) as -> by (apply fanout_of_in_list in Hcv; congruence).
  assert (Honly : ∀ nv, nv ∈ omap (fanout_of spec) filters → nv.1 = c → nv.2 = vals).
  { intros [c' vals'] Hnv Hc. simpl in Hc; subst c'.
    apply list_elem_of_omap in Hnv as (g & Hg & Hgf). apply fanout_of_in_list in Hgf.
    rewrite (Hdistinct g c Hg) in Hin by eauto using filter_key_in_list.
    rewrite Hin in Hgf. by injection Hgf as <-. }
  assert (Hmem : (c, vals) ∈ omap (fanout_of spec) filters) by (apply list_elem_of_omap; eauto).
  split.
  - apply Forall_fmap, Forall_forall. intros ch Hch. simpl. apply elem_of_choices in Hch.
    destruct (lookup_extend_in (b_params (resolve_filters spec filters now)) ch c)
      as (v & Hv & ->).
    { apply list_elem_of_lookup_1 in Hmem as [i Hi].
      destruct (Forall2_lookup_l _ _ _ _ _ Hch Hi) as ([k v] & Hkv & [Hk _]). simpl in Hk; subst k.
      apply list_elem_of_lookup_2 in Hkv. apply list_elem_of_fmap. by exists (c, v). }
    exists v. split; [|done]. apply list_elem_of_lookup_1 in Hv as [i Hi].
    destruct (Forall2_lookup_r _ _ _ _ _ Hch Hi) as (nv & Hnv & [Hk Hvv]). simpl in *.
    apply list_elem_of_lookup_2 in Hnv. by rewrite <- (Honly nv).
  - intros Hne v Hv. exists (extend (b_params (resolve_filters spec filters now))
      (choose c v <$> omap (fanout_of spec) filters)). split.
    + apply list_elem_of_fmap. eexists; split; [done|]. apply elem_of_choices.
      apply Forall2_fmap_r, Forall_Forall2_diag, Forall_forall. intros nv Hnv. split; [done|].
      unfold choose; simpl. case_decide; [by rewrite (Honly nv)|].
      rewrite Forall_forall in Hne. specialize (Hne nv Hnv). destruct nv.2; [done|]. by left.
    + apply lookup_extend_unique.
      * apply list_elem_of_fmap. exists (c, vals). split; [|done]. unfold choose; simpl.
        by rewrite decide_True.
      * intros v' Hv'. apply list_elem_of_fmap in Hv' as (nv & [= -> ->] & _). by rewrite decide_True.
Qed.
End enforced.

Lemma find_param_unique spec q :
  NoDup (p_name <$> t_params spec) → q ∈ t_params spec → find_param spec (p_name q) = Some q.
Proof.
  unfold find_param. induction (t_params spec) as [|x l IH]; intros Hn Hq; [by inversion Hq|].
  csimpl in Hn. apply NoDup_cons in Hn as [Hx Hn]. simpl.
  case_bool_decide as Heq.
  - apply elem_of_cons in Hq as [->|Hq]; [done|]. exfalso. apply Hx. rewrite Heq.
    by apply list_elem_of_fmap_2.
  - apply elem_of_cons in Hq as [->|Hq]; [done|]. by apply IH.
Qed.

(** C12: What a table with distinct parameter names reports as pushed down ([Exact], so the engine
    no longer filters) its requests enforce, provided no other filter of the scan determines the
    same parameter: a pushed equality or comparison is bound, to its literal, in every request of
    the scan, and a pushed [IN] list is either sent whole as repeated pairs or split so that each
    request binds one of its values and, unless another list is empty, every value has a
    request. *)
Theorem pushdown_enforced spec filters f now :
  NoDup (p_name <$> t_params spec) → f ∈ filters → can_push_down spec f = true →
  (∀ g k, g ∈ filters → filter_key spec f = Some k → filter_key spec g = Some k → f = g) →
  enforced spec (resolve_filters spec filters now) f.
Proof.
  intros Hnames Hf Hpush Hd. unfold enforced, can_push_down in *.
  destruct (extract_in_list f) as [[c vals]|] eqn:Hin.
  - apply existsb_exists in Hpush as (q & Hq & Hqp). apply andb_true_iff in Hqp as [Hqc Hqp].
    apply bool_decide_eq_true in Hqc. apply list_elem_of_In in Hq.
    pose proof (find_param_unique _ _ Hnames Hq) as Hfind. rewrite Hqc in Hfind.
    destruct (p_explode q && negb (is_path_param spec c)) eqn:He.
    + left. destruct (resolve_filters_fanout spec filters now) as [_ ->].
      apply lookup_extend_unique.
      * apply list_elem_of_omap. exists f. split; [done|]. unfold explode_of.
        by rewrite Hin, Hfind, He.
      * intros vals' Hv. apply list_elem_of_omap in Hv as (g & Hg & Hge).
        apply explode_of_in_list in Hge.
        rewrite (Hd g c) in Hin by eauto using filter_key_in_list. congruence.
    + right. eapply enforced_fanout; [done..|]. unfold fanout_of. rewrite Hin, Hfind, He.
      assert (p_required q || is_path_param spec c = true) as ->; [|by eexists].
      destruct (p_explode q), (p_required q), (is_path_param spec c); done.
  - destruct (binding_of spec f) as [[k v]|] eqn:Hb; [by eapply enforced_binding|].
    unfold binding_of in Hb. destruct (extract_cmp f) as [[[col op] val]|]; [|done].
    destruct (find_param spec col) as [param|]; [|done].
    destruct (decide (op = "=")) as [->|Hop]; [done|].
    rewrite (bool_decide_eq_false_2 (op = "=")) in Hpush by done. simpl in Hpush.
    apply andb_true_iff in Hpush as [_ Hemit]. unfold bound_in in Hemit.
    apply bool_decide_eq_true in Hemit as [q Hq]. by rewrite Hq in Hb.
Qed.

(** ** Required parameters *)

Section required.
Context (spec : HttpTableSpec) (filters : list Expr) (q : ParamSpec).
Context (Hnames : NoDup (p_name <$> t_params spec)) (Hq : q ∈ t_params spec).
Context (Hdefault : p_default q = None) (Hderive : p_derive q = None).
Context (Hfilters : ∀ f, f ∈ filters → filter_key spec f ≠ Some (p_name q)).

Lemma same_param x : x ∈ t_params spec → p_name x = p_name q → x = q.
Proof using Hnames Hq.
  intros Hx Hn. pose proof (find_param_unique _ _ Hnames Hx) as H1.
  rewrite Hn, (find_param_unique _ _ Hnames Hq) in H1. congruence.
Qed.

Lemma bind_filters_none : bind_filters spec filters !! p_name q = None.
Proof using Hfilters.
  rewrite bind_filters_extend, lookup_extend; [done|]. intros Hin.
  apply list_elem_of_fmap in Hin as ([k v] & Hk & Hin). simpl in Hk; subst k.
  apply list_elem_of_omap in Hin as (f & Hf & Hfb). apply filter_key_binding in Hfb.
  by eapply Hfilters.
Qed.

Lemma bind_defaults_none explode fanout params :
  params !! p_name q = None → bind_defaults spec explode fanout params !! p_name q = None.
Proof using Hnames Hq Hdefault.
  unfold bind_defaults.
  assert (∀ l params, (∀ x, x ∈ l → x ∈ t_params spec) → params !! p_name q = None →
    foldl (bind_default explode fanout) params l !! p_name q = None) as H; [|by apply H].
  induction l as [|x l IH]; intros m Hl Hm; simpl; [done|].
  apply IH; [intros y Hy; apply Hl; by right|]. unfold bind_default.
  destruct (p_default x) as [d|] eqn:Ed; [|done]. destruct (unbound _ _ _ _); [|done].
  rewrite lookup_insert_ne; [done|]. intros Hn.
  rewrite (same_param x) in Ed; [congruence|apply Hl; by left|done].
Qed.

Lemma derived_none explode fanout params now :
  p_name q ∉ (derived spec explode fanout params now).*1.
Proof using Hnames Hq Hderive.
  intros Hin. apply list_elem_of_fmap in Hin as ([k v] & Hk & Hin). simpl in Hk; subst k.
  apply list_elem_of_omap in Hin as (x & Hx & Hd). destruct (unbound _ _ _ _); [|done].
  apply bind_Some in Hd as (d & Ed & Hd). apply bind_Some in Hd as (v' & _ & [= Hn _]).
  rewrite (same_param x) in Ed; [congruence|done|done].
Qed.

Lemma bound_elsewhere_none :
  bound_elsewhere (p_name q) (extend ∅ (omap (explode_of spec) filters))
    (omap (fanout_of spec) filters) = false.
Proof using Hfilters.
  unfold bound_elsewhere, bound_in. apply orb_false_iff. split.
  - apply bool_decide_eq_false. rewrite lookup_extend; [by intros [??]|]. intros Hin.
    apply list_elem_of_fmap in Hin as ([k v] & Hk & Hin). simpl in Hk; subst k.
    apply list_elem_of_omap in Hin as (f & Hf & Hfb). apply explode_of_in_list in Hfb.
    apply (Hfilters f Hf). by eapply filter_key_in_list.
  - apply not_true_iff_false. intros Hex. apply existsb_exists in Hex as ([k v] & Hin & Hk).
    apply bool_decide_eq_true in Hk. simpl in Hk; subst k. apply list_elem_of_In in Hin.
    apply list_elem_of_omap in Hin as (f & Hf & Hfb). apply fanout_of_in_list in Hfb.
    apply (Hfilters f Hf). by eapply filter_key_in_list.
Qed.

Lemma required_unbound now :
  p_required q = true →
  let b := resolve_filters spec filters now in
  p_name q ∈ unbound_required spec (b_explode b) (b_fanout b) (b_params b).
Proof using Hnames Hq Hdefault Hderive Hfilters.
  intros Hr b. unfold unbound_required. apply list_elem_of_fmap. exists q. split; [done|].
  apply list_elem_of_In, filter_In. split; [by apply list_elem_of_In|]. rewrite Hr. simpl.
  unfold b, resolve_filters. rewrite bind_in_lists_extend. simpl.
  unfold unbound. rewrite bound_elsewhere_none. unfold bound_in.
  rewrite lookup_extend by apply derived_none.
  rewrite bind_defaults_none by apply bind_filters_none. by rewrite bool_decide_eq_false_2 by (by intros [??]).
Qed.
End required.

(** a scan without a required filter contacts nobody. When no filter determines a required
    parameter that has neither a default nor a derivation, the scan sends no request and waits
    for nothing; it is deferred with that parameter among the missing ones, or, where it may
    not be deferred, fails at planning. *)
Theorem required_filter_enforced {w : Web} {data : Data} {Batch} try_new num_rows slice p filters
    limit allow_defer q s :
  NoDup (p_name <$> t_params (h_spec p)) → q ∈ t_params (h_spec p) →
  p_required q = true → p_default q = None → p_derive q = None →
  (∀ f, f ∈ filters → filter_key (h_spec p) f ≠ Some (p_name q)) →
  let out := scan_bound (Batch:=Batch) try_new num_rows slice p filters limit allow_defer s in
  out.2 = s ∧
  if allow_defer : bool then ∃ missing, out.1 = Ok (Deferred missing) ∧ p_name q ∈ missing
  else ∃ msg, out.1 = Err (Plan msg).
Proof.
  intros Hn Hq Hr Hd Hv Hf out. unfold out, scan_bound, iobind, HttpIo.now. simpl.
  pose proof (required_unbound _ _ _ Hn Hq Hd Hv Hf (now_epoch_of (clock (st_world s))) Hr) as Hin.
  simpl in Hin. destruct (unbound_required _ _ _ _) as [|first rest]; [by inversion Hin|].
  destruct allow_defer; simpl; split; eauto.
Qed.

(** fanning out is a Cartesian product. The parameter sets of a scan are the bound
    parameters extended by each choice of one value per fanned-out parameter, in order, the
    first parameter varying slowest; a scan without [IN] lists makes exactly one. *)
Theorem expand_fanout_product base fanout :
  expand_fanout base fanout = extend base <$> choices fanout
  ∧ (∀ c, c ∈ choices fanout ↔ Forall2 (λ nv kv, kv.1 = nv.1 ∧ kv.2 ∈ nv.2) fanout c)
  ∧ expand_fanout base [] = [base].
Proof. split_and!; [apply expand_fanout_choices|intros; apply elem_of_choices|done]. Qed.

(** ** Theorems of batches
    Every array a batch is built from has the row count and the Arrow type of its column;
    a column of 32-bit floats is the one exception. *)

Section cells.
Context {w : Web} {data : Data}.

(** A cell of an array of a type: null, or a value of that type. *)
Definition well_typed (ty : DataType) (c : option Cell) : bool :=
  match c with
  | None => true
  | Some c =>
      match ty, c with
      | Boolean, CBool _ | Int64, CInt _ | TimestampMicro _, CInt _ | Float64, CFloat _
      | Utf8, CText _ => true
      | Int32, CInt z | Date32, CInt z => (i32_min <=? z)%Z && (z <=? i32_max)%Z
      | _, _ => false
      end
  end.

Lemma to_i32_range z i : to_i32 z = Some i → (i32_min <=? i)%Z && (i <=? i32_max)%Z = true.
Proof. unfold to_i32. destruct ((i32_min <=? z)%Z && (z <=? i32_max)%Z) eqn:E; naive_solver. Qed.

Lemma to_i32_typed ty o :
  ty = Int32 ∨ ty = Date32 → well_typed ty (CInt <$> (o ≫= to_i32)) = true.
Proof.
  intros Hty. destruct o as [z|]; [|done]. simpl. destruct (to_i32 z) as [i|] eqn:E; [|done].
  apply to_i32_range in E. by destruct Hty as [-> | ->].
Qed.

Lemma json_cell_typed v : well_typed Utf8 (json_cell v) = true.
Proof. by destruct v as [[]|]. Qed.
Lemma utf8_cell_typed v : well_typed Utf8 (utf8_cell v) = true.
Proof. by destruct v as [[]|]. Qed.
Lemma int64_cell_typed v : well_typed Int64 (int64_cell v) = true.
Proof.
  destruct v as [[]|]; try done; simpl; [by destruct (num_to_i64 n)|by destruct (parse_i64 s)].
Qed.
Lemma int32_cell_typed v : well_typed Int32 (int32_cell v) = true.
Proof. destruct v as [[]|]; try done; apply to_i32_typed; by left. Qed.
Lemma float64_cell_typed v : well_typed Float64 (float64_cell v) = true.
Proof.
  destruct v as [[]|]; try done; simpl; [by destruct (num_as_f64 n)|by destruct (parse_f64 _)].
Qed.
Lemma bool_cell_typed v : well_typed Boolean (bool_cell v) = true.
Proof. destruct v as [[]|]; try done; simpl. by repeat case_decide. Qed.
Lemma timestamp_cell_typed tz v : well_typed (TimestampMicro tz) (timestamp_cell v) = true.
Proof. destruct v as [v|]; [|done]. simpl. by destruct (parse_timestamp_micros v). Qed.
Lemma date_cell_typed v : well_typed Date32 (date_cell v) = true.
Proof.
  destruct v as [v|]; [|done]. simpl. unfold parse_date32.
  destruct (as_str v) as [s|]; [|done]. simpl. apply (to_i32_typed Date32 (parse_day s)). by right.
Qed.

(** The type [build_column] gives an array, when it finds the column's own field. *)
Definition column_type (col : ResponseColumn) : DataType :=
  match parse_arrow_type (c_type col) with Float32 => Utf8 | ty => ty end.

Lemma json_type ty : eq_ignore_ascii_case ty "json" = true → parse_arrow_type ty = Utf8.
Proof.
  unfold eq_ignore_ascii_case, parse_arrow_type. intros H%bool_decide_eq_true. rewrite H. reflexivity.
Qed.

Lemma Forall_cells (ty : DataType) (f : Json → option Cell) rows :
  (∀ row, well_typed ty (f row) = true) →
  length (f <$> rows) = length rows ∧ Forall (λ c, well_typed ty c = true) (f <$> rows).
Proof. intros Hf. split; [apply length_fmap|]. apply Forall_fmap, Forall_true. exact Hf. Qed.

Lemma build_column_typed schema rows params col :
  field_with_name schema (c_name col)
  = Some {| f_name := c_name col; f_type := parse_arrow_type (c_type col); f_nullable := true |} →
  let a := build_column schema rows params col in
  a_type a = column_type col ∧ length (a_values a) = length rows
  ∧ Forall (λ c, well_typed (a_type a) c = true) (a_values a).
Proof.
  intros Hf a. unfold a, build_column, column_type.
  destruct (eq_ignore_ascii_case (c_type col) "json") eqn:Ej.
  { rewrite (json_type _ Ej). split; [done|]. apply Forall_cells. intros. apply json_cell_typed. }
  rewrite Hf. cbn [f_type].
  destruct (parse_arrow_type (c_type col)); (split; [done|]); cbn [a_type a_values];
    apply Forall_cells; intros; cbv beta; auto using utf8_cell_typed, int64_cell_typed, int32_cell_typed, float64_cell_typed,
      bool_cell_typed, timestamp_cell_typed, date_cell_typed.
Qed.

Lemma field_with_name_own (cols : list ResponseColumn) (col : ResponseColumn) :
  NoDup (c_name <$> cols) → col ∈ cols →
  field_with_name ((λ c, {| f_name := c_name c; f_type := parse_arrow_type (c_type c);
                            f_nullable := true |}) <$> cols) (c_name col)
  = Some {| f_name := c_name col; f_type := parse_arrow_type (c_type col); f_nullable := true |}.
Proof.
  unfold field_with_name. induction cols as [|c cols IH]; intros Hn Hc; [by inversion Hc|].
  csimpl in *. apply NoDup_cons in Hn as [Hx Hn]. simpl. case_bool_decide as Heq.
  - apply elem_of_cons in Hc as [->|Hc]; [done|]. exfalso. apply Hx. rewrite Heq.
    by apply list_elem_of_fmap_2.
  - apply elem_of_cons in Hc as [->|Hc]; [done|]. by apply IH.
Qed.

(** The arrays of a table with at least one column and distinct column names: what they hold,
    and when they fit the schema. *)
Lemma build_columns_conform spec rows params :
  NoDup (c_name <$> effective_columns spec) → effective_columns spec ≠ [] →
  let arrays := build_column (schema_for spec) rows params <$> effective_columns spec in
  Forall (λ a, length (a_values a) = length rows
               ∧ Forall (λ c, well_typed (a_type a) c = true) (a_values a)) arrays
  ∧ (conforms (schema_for spec) arrays = true
     ↔ Forall (λ c, parse_arrow_type (c_type c) ≠ Float32) (effective_columns spec)).
Proof.
  intros Hn Hne. cbv zeta. unfold schema_for. revert Hn Hne.
  generalize (effective_columns spec). intros cols Hn Hne.
  set (field c := {| f_name := c_name c; f_type := parse_arrow_type (c_type c);
                     f_nullable := true |}) in *.
  set (arrays := build_column (field <$> cols) rows params <$> cols).
  assert (Hcol : Forall (λ c, let a := build_column (field <$> cols) rows params c in
    a_type a = column_type c ∧ length (a_values a) = length rows
    ∧ Forall (λ c, well_typed (a_type a) c = true) (a_values a)) cols).
  { apply Forall_forall. intros c Hc. apply build_column_typed. by apply field_with_name_own. }
  split.
  { apply Forall_fmap. eapply Forall_impl; [exact Hcol|]. by intros c (_ & ? & ?). }
  assert (Hlen : Forall (λ a, length (a_values a) = length rows) arrays).
  { apply Forall_fmap. eapply Forall_impl; [exact Hcol|]. by intros c (_ & ? & _). }
  assert (Htypes : forallb (λ fa, bool_decide (f_type fa.1 = a_type fa.2)) (zip (field <$> cols) arrays)
    = forallb (λ c, bool_decide (parse_arrow_type (c_type c) ≠ Float32)) cols).
  { unfold arrays. revert Hcol. generalize (build_column (field <$> cols) rows params) as build.
    clear. intros build. induction 1 as [|c cols (Ht & _ & _) _ IH]; csimpl; [done|].
    rewrite IH. f_equal. rewrite Ht. unfold column_type, field; cbn [f_type fst snd].
    destruct (parse_arrow_type (c_type c)); try reflexivity.
    rewrite !bool_decide_eq_true_2; [done|discriminate|done]. }
  unfold conforms. rewrite Htypes. destruct arrays as [|a arrays'] eqn:Ha.
  { unfold arrays in Ha. by destruct cols. }
  rewrite <- Ha. rewrite (proj2 (Nat.eqb_eq _ _)) by (unfold arrays; by rewrite !length_fmap).
  assert (forallb (λ b, length (a_values b) =? length (a_values a)) arrays = true) as ->.
  { apply forallb_forall. intros b Hb%list_elem_of_In. rewrite Forall_forall in Hlen.
    apply Nat.eqb_eq. rewrite Hlen by (by rewrite <- Ha). rewrite Hlen; [done|by left]. }
  rewrite andb_true_l, forallb_forall, list.Forall_forall.
  split; intros H c Hc; apply list_elem_of_In in Hc; specialize (H c Hc).
  - by apply bool_decide_eq_true in H.
  - by apply bool_decide_eq_true_2.
Qed.

(** C37: Batches are typed: for a table with at least one column, distinct column names and no
    column of 32-bit floats, the arrays its batches are built from fit the table's schema, as
    Arrow demands - one array for each column, of its declared type, all as long as there are
    rows - and every cell is null or a value of the column's type, 32-bit integers and dates in
    range, whatever JSON the API sent and whatever the columns read. *)
Theorem build_batch_typed spec rows params :
  NoDup (c_name <$> effective_columns spec) → effective_columns spec ≠ [] →
  Forall (λ c, parse_arrow_type (c_type c) ≠ Float32) (effective_columns spec) →
  let arrays := build_column (schema_for spec) rows params <$> effective_columns spec in
  conforms (schema_for spec) arrays = true ∧
  Forall2 (λ c a, a_type a = parse_arrow_type (c_type c) ∧ length (a_values a) = length rows ∧
                  Forall (λ v, well_typed (a_type a) v = true) (a_values a))
    (effective_columns spec) arrays.
Proof.
  intros Hn Hne Hf arrays.
  destruct (build_columns_conform spec rows params Hn Hne) as [Hall Hconf].
  split; [by apply Hconf|]. unfold arrays in *. apply Forall2_fmap_r, Forall_Forall2_diag.
  rewrite Forall_fmap in Hall. rewrite Forall_forall in Hf, Hall |- *. intros c Hc.
  destruct (Hall c Hc) as [Hlen Hvals]. split_and!; [|done..]. unfold schema_for.
  destruct (build_column_typed _ rows params c (field_with_name_own _ c Hn Hc)) as [-> _].
  unfold column_type. specialize (Hf c Hc). by destruct (parse_arrow_type (c_type c)).
Qed.
End cells.
