(* ===== verification/HttpSample.v ===== *)
(** * A small web
    A server of five rows behind an offset API, with toy text formats, to run the HTTP source
    on: a row is a digit and a body the digits of its rows. *)

From S2P Require Export HttpPages HttpScanProps.

Definition sample_base : Url :=
  {| u_text := "https://api.test/"; u_scheme := "https"; u_host := Some (Domain "api.test");
     u_host_str := Some "api.test"; u_port := Some 443%N |}.

Definition with_text (u : Url) (text : string) : Url :=
  {| u_text := text; u_scheme := u_scheme u; u_host := u_host u; u_host_str := u_host_str u;
     u_port := u_port u |}.

(** [k=v] pairs joined by [&]. *)
Definition pairs_text (kvs : list (string * string)) : string :=
  join "&" ((λ kv, kv.1 +:+ "=" +:+ kv.2) <$> kvs).

Definition digits_json (s : string) : Json :=
  JArray ((λ c, JNumber (PosInt (digit_val c))) <$> String.list_ascii_of_string s).

(** The value of [key] in a query. *)
Definition query_value (key text : string) : option string :=
  match split_once_str (key +:+ "=") text with
  | None => None
  | Some (_, rest) => Some (match split_once "&" rest with Some (v, _) => v | None => rest end)
  end.

(** A web whose server is [serve]. *)
Definition web_of (serve : Request → SendResult) : Web :=
  {| World := N;
     transport := λ rq t, (serve rq, (t + 1)%N);
     parse_method := λ m, if decide (m = "") then None else Some m;
     header_error := λ k v, if contains_chr " " k then Some "invalid HTTP header name" else None;
     basic_value := λ u p, "Basic " +:+ u +:+ ":" +:+ p;
     form_body := pairs_text;
     show_status := show_N;
     clock := λ t, t;
     sleep_for := λ ns t, (t + ns)%N;
     until_ready := λ t, t;
     resolve_var := λ id t, (Ok ("value of " +:+ id), t);
     url_parse := λ s, if starts_with "http" s then Ok (with_text sample_base s)
                       else Err "relative URL without a base";
     url_join := λ u s, Ok (with_text u (u_text u +:+ s));
     append_pairs := λ u kvs, with_text u (u_text u +:+ "?" +:+ pairs_text kvs);
     from_str := λ s, if all_chars is_digit s then Ok (digits_json s) else Err "expected value";
     to_string := λ _, "json";
     to_debug := λ _, "json" |}.

#[export] Instance web_of_laws serve : WebLaws (web_of serve).
Proof. by constructor. Qed.

Definition response (status : N) (text : string) : SendResult :=
  Received {| rs_status := status; rs_headers := []; rs_text := Ok text |}.

(** Two rows of ["12345"] from the query's offset on. *)
Definition offset_server (rq : Request) : SendResult :=
  match query_value "offset" (u_text (rq_url rq)) ≫= parse_unsigned u64_max with
  | Some o => response 200 (String.substring (N.to_nat o) 2 "12345")
  | None => response 400 "x"
  end.

Definition sample_source : HttpSource :=
  {| s_name := "api"; s_base_url := sample_base; s_allowed_hosts := []; s_auth := NoAuth;
     s_headers := [("accept", "application/json")]; s_retry := RetryConfig_default;
     s_rate_limit := RateLimitPolicy_default; s_dynamic := ∅ |}.

Definition sample_response : ResponseSpec :=
  {| r_path := "$"; r_schema := [{| c_name := "n"; c_type := "bigint"; c_source := Some "$";
                                    c_expr := None |}];
     r_allow_404_empty := false; r_error := None; r_reshape := None |}.

Definition sample_param (name : string) : ParamSpec :=
  {| p_name := name; p_type := "varchar"; p_required := true; p_default := None;
     p_accepts := []; p_emit := ∅; p_explode := false; p_derive := None; p_filterable := true |}.

Definition sample_spec : HttpTableSpec :=
  {| t_name := "rows"; t_endpoint := "/items/{kind}"; t_method := "GET";
     t_params := [sample_param "kind"]; t_headers := ∅; t_body := None; t_requests := [];
     t_response := sample_response; t_pagination := Some (Offset "offset" "limit" 2);
     t_description := None |}.

Definition sample_provider : HttpTableProvider := with_safety sample_source sample_spec (Some 3%N) None.

Definition start : St (w := web_of offset_server) :=
  {| st_world := 0%N : World (Web := web_of offset_server); st_token := None; st_log := [] |}.

Definition sample_data : list Json :=
  match digits_json "12345" with JArray rows => rows | _ => [] end.

Definition sample_params : gmap string string := {["kind" := "x"]}.

Example sample_fetch :
  (fetch_rows (w := web_of offset_server) sample_provider sample_params ∅ None start).1
  = Ok sample_data.
Proof. vm_compute. reflexivity. Qed.

Example sample_urls :
  omap (λ e, match e with Sent rq => Some (u_text (rq_url rq)) | _ => None end)
    (st_log (fetch_rows (w := web_of offset_server) sample_provider sample_params ∅ None start).2)
  = ["https://api.test/items/x?limit=2&offset=0";
     "https://api.test/items/x?limit=2&offset=2"; "https://api.test/items/x?limit=2&offset=4"].
Proof. vm_compute. reflexivity. Qed.

Lemma sample_serves offset :
  (offset <= 5)%N →
  serves (w := web_of offset_server) sample_provider ∅ "/items/{kind}" "GET" None
    (offset_params "offset" "limit" 2 sample_params offset)
    (digits_json (String.substring (N.to_nat offset) 2 "12345"))
    (take 2 (drop (N.to_nat offset) sample_data)).
Proof.
  intros Ho [rows params url cursor i th] s Hp Hu Hc. simpl in Hp, Hu, Hc; subst.
  destruct s as [w0 tok l].
  assert (offset = 0 ∨ offset = 1 ∨ offset = 2 ∨ offset = 3 ∨ offset = 4 ∨ offset = 5)%N
    as Hcase by lia.
  repeat destruct Hcase as [->|Hcase]; [..|subst offset].
  all: eexists _, _, _; split_and!; [reflexivity|reflexivity|].
  all: intros w1; eexists; split_and!; reflexivity.
Qed.

Lemma offset_fetch_complete_witness :
  (fetch_rows (w := web_of offset_server) sample_provider sample_params ∅ (Some 4%N) start).1
  = Ok (truncate (Some 4%N) sample_data).
Proof.
  apply (offset_fetch_complete (w := web_of offset_server) sample_provider ∅ (Some 4%N)
           "/items/{kind}" "GET" None "offset" "limit" 2 sample_params sample_data
           (λ o, digits_json (String.substring (N.to_nat o) 2 "12345")));
    [reflexivity|vm_compute; reflexivity|discriminate|reflexivity|reflexivity|reflexivity
    |vm_compute; discriminate|intros H; inversion H|vm_compute; discriminate|discriminate|].
  intros offset Ho. by apply sample_serves.
Defined.

Lemma backoff_ms_exact_witness :
  backoff_ms RetryConfig_default 70
  = N.min (200 * 2 ^ 70) 5000.
Proof. apply (backoff_ms_exact RetryConfig_default 70). vm_compute. discriminate. Defined.

(** ** Filters of the sample table *)

Definition eq_filter (col v : string) : Expr := BinaryExpr (Column col) Eq (Literal (SUtf8 v)).

Definition sample_filters : list Expr :=
  [eq_filter "name" "n"; InList (Column "kind") [Literal (SUtf8 "a"); Literal (SInt 7)] false].

Definition two_params : HttpTableSpec :=
  {| t_name := "rows"; t_endpoint := "/items/{kind}"; t_method := "GET";
     t_params := [sample_param "kind"; sample_param "name"]; t_headers := ∅; t_body := None;
     t_requests := []; t_response := sample_response; t_pagination := None;
     t_description := None |}.

Lemma sample_distinct f g k :
  f ∈ sample_filters → g ∈ sample_filters → filter_key two_params f = Some k →
  filter_key two_params g = Some k → f = g.
Proof.
  intros Hf Hg. unfold sample_filters in *.
  repeat (apply elem_of_cons in Hf as [->|Hf]); try by inversion Hf.
  all: repeat (apply elem_of_cons in Hg as [->|Hg]); try by inversion Hg.
  all: try done.
  all: vm_compute; congruence.
Qed.

Lemma pushdown_enforced_witness :
  enforced two_params (resolve_filters two_params sample_filters 0)
    (InList (Column "kind") [Literal (SUtf8 "a"); Literal (SInt 7)] false).
Proof.
  apply (pushdown_enforced two_params sample_filters).
  - apply (bool_decide_unpack _). vm_compute. exact I.
  - right. left.
  - reflexivity.
  - intros g k Hg. apply sample_distinct; [right; left|exact Hg].
Defined.

Example sample_sets :
  (λ m, (m !! "kind", m !! "name")) <$>
    expand_fanout (b_params (resolve_filters two_params sample_filters 0))
      (b_fanout (resolve_filters two_params sample_filters 0))
  = [(Some "a", Some "n"); (Some "7", Some "n")].
Proof. vm_compute. reflexivity. Qed.

(** Two equalities on one parameter are both reported as pushed down, but only the last one
    reaches the request. *)
Example last_equality_wins :
  supports_filters_pushdown two_params [eq_filter "kind" "a"; eq_filter "kind" "b"] = [true; true]
  ∧ bind_filters two_params [eq_filter "kind" "a"; eq_filter "kind" "b"] !! "kind" = Some "b".
Proof. vm_compute. by split. Qed.

#[export] Instance sample_cells : Data :=
  {| decode_base64 := Some; epoch_to_rfc3339 := λ _ _, None; F64 := Z;
     num_as_f64 := λ n, match n with PosInt n => Some (Z.of_N n) | NegInt z => Some z
                                   | Float _ => None end;
     f64_as_i64 := λ z, z; parse_f64 := parse_i64; parse_from_rfc3339 := λ _, None;
     parse_naive := λ _ _, None; parse_day := λ _, None |}.

(** Batches as their arrays. *)
Definition arrays_of (schema : list Field) (arrays : list (Array (data := sample_cells)))
    : result string (list (Array (data := sample_cells))) :=
  if conforms schema arrays then Ok arrays else Err "column types must match schema types".

Definition rows_in (b : list (Array (data := sample_cells))) : N :=
  match b with [] => 0 | a :: _ => N.of_nat (length (a_values a)) end.

Definition slice_of (b : list (Array (data := sample_cells))) (n : N)
    : list (Array (data := sample_cells)) :=
  (λ a, {| a_type := a_type a; a_values := take (N.to_nat n) (a_values a) |}) <$> b.

Lemma required_filter_enforced_witness :
  let out := scan_bound (w := web_of offset_server) arrays_of rows_in slice_of sample_provider []
               None true start in
  out.2 = start ∧ ∃ missing, out.1 = Ok (Deferred missing) ∧ "kind" ∈ missing.
Proof.
  apply (required_filter_enforced (w := web_of offset_server) arrays_of rows_in slice_of
           sample_provider [] None true (sample_param "kind") start);
    [|by left|reflexivity|reflexivity|reflexivity|intros f Hf; by inversion Hf].
  apply (bool_decide_unpack _). vm_compute. exact I.
Defined.

Lemma build_batch_typed_witness :
  let arrays := build_column (w := web_of offset_server) (schema_for sample_spec) sample_data
                  sample_params <$> effective_columns sample_spec in
  conforms (schema_for sample_spec) arrays = true
  ∧ Forall2 (λ c a, a_type a = parse_arrow_type (c_type c) ∧ length (a_values a) = length sample_data
                    ∧ Forall (λ v, well_typed (a_type a) v = true) (a_values a))
      (effective_columns sample_spec) arrays.
Proof.
  apply (build_batch_typed (w := web_of offset_server) sample_spec sample_data sample_params).
  - apply (bool_decide_unpack _). vm_compute. exact I.
  - discriminate.
  - apply (bool_decide_unpack _). vm_compute. exact I.
Defined.

Lemma fetch_rows_confined_witness :
  ∃ l, st_log (fetch_rows (w := web_of offset_server) sample_provider sample_params ∅ None start).2
       = [] ++ l
    ∧ Forall (λ e, match e with
                   | Sent rq =>
                       check_target (rq_url rq) sample_base [] = Ok ()
                       ∧ (NoAuth ≠ NoAuth → is_trusted (rq_url rq) sample_base [] = true)
                   | TokenSent _ | Slept _ => True
                   end) l.
Proof.
  apply (fetch_rows_confined (w := web_of offset_server) (laws := web_of_laws offset_server)
           sample_provider sample_params ∅ None start).
Defined.
