(* ===== verification/DependentJoin.v ===== *)
(** * Dependent joins ([crates/pawrly-sources/http/src/dependent_join.rs], [deferred.rs])
    A table whose required parameter nothing binds is scanned by a placeholder; the optimizer rule
    replaces an inner join over it by an operator that runs the other side first, fetches the
    table for its keys, and joins the two. The rule, the operator, and what they preserve. *)

From S2P Require Export HttpSample.

(** What is used of DataFusion's batches and plans: the rows of a batch, each as wide as the batch,
    their values and the literals those are in a filter; the other operators are opaque. *)
Class DataFusion := {
  cells : Data;
  Batch : Type;
  Value : Type;
  value_eq_dec : EqDecision Value;
  try_new : list Field → list (Array (data := cells)) → result string Batch;
  slice : Batch → N → Batch;
  rows : Batch → list (list Value);
  num_columns : Batch → nat;
  rows_width b row : row ∈ rows b → length row = num_columns b;
  with_columns : list string → list nat → Batch → result string Batch;
  is_null : Value → bool;
  literal_of : Value → ScalarValue;
  Opaque : Type
}.
#[export] Existing Instance value_eq_dec.

Section plans.
Context {w : Web} {df : DataFusion}.

Abbreviation Row := (list Value).

(** ** Plans *)

Inductive JoinType := Inner | OtherJoin.

(** A key of a join: a column by its index, or a computed one. *)
Inductive PhysicalExpr := PColumn (index : nat) | PComputed (e : Opaque).

(** A hash join: its type, its pairs of keys, whether it takes null keys for equal (the rule
    does not look at that); the rest are its filter and projection. *)
Record HashJoin := {
  j_type : JoinType;
  j_on : list (PhysicalExpr * PhysicalExpr);
  j_null_equals_null : bool;
  j_rest : Opaque
}.

Record DeferredHttpScanExec := {
  d_provider : HttpTableProvider;
  d_projection : option (list nat);
  d_filters : list Expr;
  d_key_columns : list string
}.

Inductive Operator_ :=
| GlobalLimitExec (skip : N) (fetch : option N)
| LocalLimitExec | CoalesceBatchesExec | CoalescePartitionsExec | RepartitionExec | ProjectionExec
| OtherExec.

(** Operators carry their [fetch()], if they have one. *)
Inductive Plan :=
| DeferredScan (d : DeferredHttpScanExec)
| HashJoinExec (j : HashJoin) (lhs rhs : Plan)
| MemoryExec (batches : list Batch) (schema : list string)
| OperatorExec (op : Operator_) (fetch : option N) (rest : Opaque) (children : list Plan)
| DependentJoinExec (join : Plan) (probe_is_right : bool) (deferred : Plan)
    (driver_key_idx : nat) (probe_key_col : string) (cap : option N).

(** The names of a plan's columns are DataFusion's, but for the scans of this source. *)
Variable schema_of_other : Plan → list string.

(** [DeferredHttpScanExec::new]: the fields of the table, or those projected. *)
Definition deferred_schema (d : DeferredHttpScanExec) : list string :=
  let full := f_name <$> h_schema (d_provider d) in
  match d_projection d with
  | Some p => (λ i, default "" (full !! i)) <$> p
  | None => full
  end.

Definition schema (p : Plan) : list string :=
  match p with
  | DeferredScan d => deferred_schema d
  | MemoryExec _ s => s
  | _ => schema_of_other p
  end.

(** ** The rule *)

Definition is_prefix_preserving (op : Operator_) : bool :=
  match op with
  | LocalLimitExec | CoalesceBatchesExec | CoalescePartitionsExec | RepartitionExec | ProjectionExec => true
  | _ => false
  end.

Definition u64_saturating (n : N) : N := N.min n u64_max.

Definition limit_for_children (op : Operator_) (fetch current : option N) : option N :=
  match op with
  | GlobalLimitExec skip fetch => (λ f, u64_saturating (f + skip)) <$> fetch
  | _ => if is_prefix_preserving op then match fetch with Some f => Some f | None => current end else None
  end.

Definition is_column_preserving (op : Operator_) : bool :=
  match op with CoalesceBatchesExec | CoalescePartitionsExec | RepartitionExec => true | _ => false end.

Fixpoint find_deferred (p : Plan) : option DeferredHttpScanExec :=
  match p with
  | DeferredScan d => Some d
  | OperatorExec op _ _ children =>
      if is_column_preserving op then match children with [c] => find_deferred c | _ => None end else None
  | _ => None
  end.

(** Which side is the probe: its scan, its key, the driver's key, the child it is in. *)
Definition probe_side (j : HashJoin) (lhs rhs : Plan) (left_key right_key : PhysicalExpr)
    : option (bool * DeferredHttpScanExec * PhysicalExpr * PhysicalExpr * Plan) :=
  match find_deferred lhs, find_deferred rhs with
  | Some d, None => Some (false, d, left_key, right_key, lhs)
  | None, Some d => Some (true, d, right_key, left_key, rhs)
  | _, _ => None
  end.

Definition try_build_dependent_join (j : HashJoin) (lhs rhs : Plan) (limit : option N) : option Plan :=
  match j_type j, j_on j with
  | Inner, [(left_key, right_key)] =>
      '(probe_is_right, d, probe_key, driver_key, probe_child) ← probe_side j lhs rhs left_key right_key;
      match probe_key with
      | PColumn i =>
          probe_name ← schema probe_child !! i;
          if bool_decide (probe_name ∈ d_key_columns d) then
            match driver_key with
            | PColumn driver_key_idx =>
                Some (DependentJoinExec (HashJoinExec j lhs rhs) probe_is_right (DeferredScan d)
                        driver_key_idx probe_name limit)
            | PComputed _ => None
            end
          else None
      | PComputed _ => None
      end
  | _, _ => None
  end.

(** The plan below an enclosing [limit]. *)
Fixpoint rewrite (p : Plan) (limit : option N) : Plan :=
  match p with
  | HashJoinExec j lhs rhs =>
      match try_build_dependent_join j lhs rhs limit with
      | Some dep => dep
      | None => HashJoinExec j (rewrite lhs None) (rewrite rhs None)
      end
  | OperatorExec op fetch rest children =>
      OperatorExec op fetch rest (List.map (λ c, rewrite c (limit_for_children op fetch limit)) children)
  | _ => p
  end.

Definition optimize (p : Plan) : Plan := rewrite p None.

(** ** The operator *)

Definition cap_reached (cap : option N) (out : list Value) : bool :=
  match cap with Some c => (c <=? N.of_nat (length out))%N | None => false end.

(** The loop over the rows of a batch; true once it has returned. *)
Fixpoint keys_of_rows (idx : nat) (cap : option N) (rs : list Row) (out : list Value) : bool * list Value :=
  match rs with
  | [] => (false, out)
  | row :: rs =>
      if cap_reached cap out then (true, out)
      else match row !! idx with
           | Some v => if is_null v || bool_decide (v ∈ out) then keys_of_rows idx cap rs out
                       else keys_of_rows idx cap rs (out ++ [v])
           | None => keys_of_rows idx cap rs out
           end
  end.

Fixpoint keys_of_batches (idx : nat) (cap : option N) (bs : list Batch) (out : list Value) : list Value :=
  match bs with
  | [] => out
  | b :: bs =>
      if (num_columns b <=? idx)%nat then keys_of_batches idx cap bs out
      else let '(returned, out) := keys_of_rows idx cap (rows b) out in
           if returned : bool then out else keys_of_batches idx cap bs out
  end.

Definition distinct_keys (bs : list Batch) (idx : nat) (cap : option N) : list Value :=
  keys_of_batches idx cap bs [].

Definition build_in_list (col : string) (keys : list Value) : Expr :=
  InList (Column col) (Literal ∘ literal_of <$> keys) false.

(** [project_batch]. *)
Definition project_batch (projection : option (list nat)) (projected_schema : list string) (b : Batch)
    : result Fault Batch :=
  match projection with
  | Some p => map_err External (with_columns projected_schema p b)
  | None => Ok b
  end.

(** [scan_with_filters]: the table's scan with all filters, without deferring; the batches it
    fetched become a plan. *)
Definition scan_with_filters (d : DeferredHttpScanExec) (extra_filters : list Expr) : io Plan :=
  let p := d_provider d in
  let provider := with_safety (h_source p) (h_spec p) (h_max_pages p) (h_max_rows p) in
  let! plan := scan_bound try_new (λ b, N.of_nat (length (rows b))) slice provider
                 (d_filters d ++ extra_filters) None false in
  match plan with
  | Batches bs =>
      let! bs := lift (try_map (project_batch (d_projection d) (deferred_schema d)) bs) in
      ret (MemoryExec bs (deferred_schema d))
  | Deferred _ => ret (DeferredScan d)
  end.

(** [execute] of a placeholder. *)
Definition deferred_execute (d : DeferredHttpScanExec) : io (list Batch) :=
  fail (HttpIo.Plan ("table `" +:+ t_name (h_spec (d_provider d)) +:+ "` requires filter `"
                     +:+ default "?" (head (d_key_columns d)) +:+ " = ...` (PAWRLY_SAFETY_REQUIRED_FILTER)")).

(** How DataFusion runs a plan. *)
Variable collect : Plan → io (list Batch).

(** [execute] of the only partition. *)
Definition dependent_execute (join : Plan) (probe_is_right : bool) (deferred : Plan) (driver_key_idx : nat)
    (probe_key_col : string) (cap : option N) : io (list Batch) :=
  match join, deferred with
  | HashJoinExec j lhs rhs, DeferredScan d =>
      let driver := if probe_is_right then lhs else rhs in
      let! driver_batches := collect driver in
      match distinct_keys driver_batches driver_key_idx cap with
      | [] => ret []
      | keys =>
          let! probe := scan_with_filters d [build_in_list probe_key_col keys] in
          let driver_mem := MemoryExec driver_batches (schema driver) in
          collect (if probe_is_right then HashJoinExec j driver_mem probe else HashJoinExec j probe driver_mem)
      end
  | _, _ => fail (HttpIo.Plan "dependent join lost its deferred scan")
  end.
End plans.

(** ** Rows of an inner join *)

Section join_rows.
Context {w : Web} {df : DataFusion}.

Definition rows_of_batches (bs : list Batch) : list (list Value) := bs ≫= rows.

(** The key of a row: a value that is there and not null. *)
Definition key_of (idx : nat) (row : list Value) : option Value :=
  v ← row !! idx; if is_null v then None else Some v.

(** First occurrences, in order. *)
Fixpoint firsts (seen : list Value) (vs : list Value) : list Value :=
  match vs with
  | [] => []
  | v :: vs => if decide (v ∈ seen) then firsts seen vs else v :: firsts (seen ++ [v]) vs
  end.

Definition column_keys (idx : nat) (rs : list (list Value)) : list Value := firsts [] (omap (key_of idx) rs).

Definition take_opt {A} (n : option N) (l : list A) : list A :=
  match n with Some n => take (N.to_nat n) l | None => l end.

Lemma take_opt_nil {A} n : take_opt n ([] : list A) = [].
Proof. destruct n; simpl; [apply take_nil|done]. Qed.

Lemma firsts_app seen vs vs' :
  firsts seen (vs ++ vs') = firsts seen vs ++ firsts (seen ++ firsts seen vs) vs'.
Proof.
  revert seen. induction vs as [|v vs IH]; intros seen; simpl; [by rewrite app_nil_r|].
  case_decide; [apply IH|]. simpl. rewrite IH. by rewrite <-app_assoc.
Qed.

Definition fits (cap : option N) (out : list Value) : Prop :=
  match cap with Some c => (N.of_nat (length out) <= c)%N | None => True end.

Lemma take_opt_full {A} cap (l l' : list A) :
  match cap with Some c => (c <= N.of_nat (length l))%N | None => False end →
  take_opt cap (l ++ l') = take_opt cap l.
Proof. destruct cap as [c|]; [|done]. intros H. simpl. by rewrite take_app_le by lia. Qed.

Lemma take_opt_fits cap (l : list Value) : fits cap l → take_opt cap l = l.
Proof. destruct cap as [c|]; [|done]. simpl. intros H. apply take_ge. lia. Qed.

Lemma fits_take cap l : fits cap (take_opt cap l).
Proof. destruct cap as [c|]; [|done]. simpl. rewrite length_take. lia. Qed.

(** A loop with [out] collected so far: what [cap] leaves of [out] and the new keys. *)
Lemma keys_of_rows_spec idx cap rs out :
  fits cap out →
  (keys_of_rows idx cap rs out).2 = take_opt cap (out ++ firsts out (omap (key_of idx) rs)).
Proof.
  revert out. induction rs as [|row rs IH]; intros out Hout; cbn [keys_of_rows omap list_omap firsts].
  - rewrite app_nil_r. by rewrite take_opt_fits.
  - destruct (cap_reached cap out) eqn:Ec.
    { cbn [snd]. rewrite take_opt_full; [by rewrite take_opt_fits|].
      destruct cap; [|done]. simpl in Ec. by apply N.leb_le. }
    change (key_of idx row) with (v ← row !! idx; if is_null v then None else Some v).
    destruct (row !! idx) as [v|]; cbn [mbind option_bind]; [|by apply IH].
    destruct (is_null v); cbn [orb]; [by apply IH|]. cbn [firsts]. case_decide as Hv.
    + rewrite bool_decide_eq_true_2 by done. by apply IH.
    + rewrite bool_decide_eq_false_2 by done. rewrite IH.
      { by rewrite <-app_assoc. }
      destruct cap as [c|]; [|done]. simpl in *. apply N.leb_gt in Ec. rewrite length_app. simpl. lia.
Qed.

(** The loop stops early only when it has enough. *)
Lemma keys_of_rows_returned idx cap rs out :
  (keys_of_rows idx cap rs out).1 = true → cap_reached cap (keys_of_rows idx cap rs out).2 = true.
Proof.
  revert out. induction rs as [|row rs IH]; intros out; cbn [keys_of_rows]; [done|].
  destruct (cap_reached cap out) eqn:Ec; [done|]. destruct (row !! idx); [|apply IH].
  destruct (is_null _ || _); apply IH.
Qed.

Lemma keys_of_batches_spec idx cap bs out :
  fits cap out →
  keys_of_batches idx cap bs out = take_opt cap (out ++ firsts out (omap (key_of idx) (rows_of_batches bs))).
Proof.
  revert out. induction bs as [|b bs IH]; intros out Hout; cbn [keys_of_batches].
  { apply (keys_of_rows_spec idx cap [] out Hout). }
  change (rows_of_batches (b :: bs)) with (rows b ++ rows_of_batches bs). rewrite omap_app, firsts_app.
  destruct (Nat.leb_spec (num_columns b) idx) as [Hw|Hw].
  - assert (omap (key_of idx) (rows b) = []) as ->.
    { pose proof (rows_width b) as Hr. induction (rows b) as [|row rs IHr]; [done|]. simpl.
      unfold key_of at 1. rewrite lookup_ge_None_2.
      - apply IHr. intros row' Hrow'. apply Hr. by right.
      - rewrite (Hr row) by left. done. }
    simpl. rewrite app_nil_r. by apply IH.
  - pose proof (keys_of_rows_spec idx cap (rows b) out Hout) as H1.
    pose proof (keys_of_rows_returned idx cap (rows b) out) as H2.
    destruct (keys_of_rows idx cap (rows b) out) as [returned out']; cbn [fst snd] in *.
    rewrite app_assoc. set (all := out ++ firsts out (omap (key_of idx) (rows b))) in *.
    assert (cap_reached cap out' = true → take_opt cap (all ++ firsts all (omap (key_of idx) (rows_of_batches bs))) = out') as Hfull.
    { intros Hr. rewrite take_opt_full; [done|]. destruct cap as [c|]; [|done].
      apply N.leb_le in Hr. subst out'. simpl in Hr. rewrite length_take in Hr. lia. }
    destruct returned; [by rewrite Hfull by auto|].
    rewrite IH by (subst out'; apply fits_take).
    destruct (cap_reached cap out') eqn:Ec.
    + rewrite (Hfull eq_refl). rewrite take_opt_full; [by subst out'; rewrite take_opt_fits by apply fits_take|].
      destruct cap; [|done]. by apply N.leb_le in Ec.
    + assert (out' = all) as ->; [|done]. subst out'. destruct cap as [c|]; [|done].
      simpl in *. apply N.leb_gt in Ec. rewrite length_take in Ec. apply take_ge. lia.
Qed.

Lemma distinct_keys_spec bs idx cap :
  distinct_keys bs idx cap = take_opt cap (column_keys idx (rows_of_batches bs)).
Proof. apply keys_of_batches_spec. destruct cap; simpl; [lia|done]. Qed.
(** What a hash join makes of two rows: whether its filter keeps them, and the row they give. *)
Record JoinRows := { keep : list Value → list Value → bool; emit : list Value → list Value → list Value }.

Definition join_pair (jr : JoinRows) (li ri : nat) (l r : list Value) : list (list Value) :=
  match key_of li l, key_of ri r with
  | Some x, Some y => if bool_decide (x = y) && keep jr l r then [emit jr l r] else []
  | _, _ => []
  end.

(** The inner join of two lists of rows, up to order. *)
Definition inner_rows (jr : JoinRows) (li ri : nat) (ls rs : list (list Value)) : list (list Value) :=
  ls ≫= λ l, rs ≫= join_pair jr li ri l.

Lemma cons_bind {A B} (f : A → list B) x l : (x :: l) ≫= f = f x ++ (l ≫= f).
Proof. done. Qed.

Lemma bind_perm {A B} (f g : A → list B) l : (∀ x, f x ≡ₚ g x) → l ≫= f ≡ₚ l ≫= g.
Proof. intros Hfg. induction l as [|x l IH]; [done|]. by rewrite !cons_bind, Hfg, IH. Qed.

Lemma bind_app_perm {A B} (f g : A → list B) l : l ≫= (λ x, f x ++ g x) ≡ₚ (l ≫= f) ++ (l ≫= g).
Proof.
  induction l as [|x l IH]; [done|]. rewrite !cons_bind, IH.
  rewrite <-!app_assoc. apply Permutation_app_head. rewrite !app_assoc. apply Permutation_app_tail, Permutation_app_comm.
Qed.

Lemma bind_swap {A B C} (f : A → B → list C) l l' :
  l ≫= (λ x, l' ≫= f x) ≡ₚ l' ≫= (λ y, l ≫= (λ x, f x y)).
Proof.
  induction l as [|x l IH].
  - simpl. induction l' as [|y l' IH']; [done|]. by rewrite cons_bind.
  - rewrite cons_bind, IH, <-bind_app_perm. by apply bind_perm.
Qed.

Lemma bind_keep {A B} (P : A → Prop) `{∀ x, Decision (P x)} (f : A → list B) l :
  (∀ x, ¬ P x → f x = []) → filter P l ≫= f = l ≫= f.
Proof.
  intros Hf. induction l as [|x l IH]; [done|]. rewrite filter_cons, cons_bind. case_decide as Hp.
  - by rewrite cons_bind, IH.
  - by rewrite (Hf x Hp), IH.
Qed.

Lemma bind_in {A B} (f g : A → list B) l : (∀ x, x ∈ l → f x = g x) → l ≫= f = l ≫= g.
Proof.
  induction l as [|x l IH]; intros Hf; [done|]. rewrite !cons_bind, (Hf x) by left. f_equal. apply IH.
  intros y Hy. apply Hf. by right.
Qed.

Lemma bind_nil {A B} (f : A → list B) l : (∀ x, x ∈ l → f x = []) → l ≫= f = [].
Proof. intros Hf. rewrite (bind_in f (λ _, [])) by done. induction l as [|x l IH]; [done|]. rewrite cons_bind. apply IH.
  intros y Hy. apply Hf. by right.
Qed.

Lemma Permutation_of_eq {A} (l l' : list A) : l = l' → l ≡ₚ l'.
Proof. by intros ->. Qed.

Definition has_key (idx : nat) (keys : list Value) (row : list Value) : Prop :=
  match key_of idx row with Some v => v ∈ keys | None => False end.
#[export] Instance has_key_dec idx keys row : Decision (has_key idx keys row).
Proof. unfold has_key. destruct (key_of idx row); apply _. Defined.

(** The rows of driver and probe joined, driver first; [p]: the probe is the right side. *)
Section driven.
Context (jr : JoinRows) (p : bool) (driver_idx probe_idx : nat).

Definition pair_rows (d x : list Value) : list (list Value) :=
  if p then join_pair jr driver_idx probe_idx d x else join_pair jr probe_idx driver_idx x d.

Definition join_of (ds ps : list (list Value)) : list (list Value) :=
  if p then inner_rows jr driver_idx probe_idx ds ps else inner_rows jr probe_idx driver_idx ps ds.

Lemma join_of_driven ds ps : join_of ds ps ≡ₚ ds ≫= λ d, ps ≫= pair_rows d.
Proof. unfold join_of, inner_rows, pair_rows. destruct p; [done|]. apply bind_swap. Qed.

Lemma pair_rows_key d x :
  pair_rows d x ≠ [] → ∃ v, key_of driver_idx d = Some v ∧ key_of probe_idx x = Some v.
Proof.
  unfold pair_rows, join_pair.
  destruct p, (key_of driver_idx d) as [v|], (key_of probe_idx x) as [v'|]; try done;
    case_bool_decide; simplify_eq; try done; eauto.
Qed.

Lemma pair_rows_none d x : key_of driver_idx d ≠ key_of probe_idx x ∨ key_of driver_idx d = None → pair_rows d x = [].
Proof.
  intros H. destruct (pair_rows d x) eqn:E; [done|]. destruct (pair_rows_key d x) as (v & H1 & H2); [by rewrite E|].
  rewrite H1, H2 in H. by destruct H.
Qed.

(** Fetching only the probe's rows of some keys is joining only the driver's rows of those. *)
Lemma restrict_probe keys ds ps :
  join_of ds (filter (has_key probe_idx keys) ps) ≡ₚ join_of (filter (has_key driver_idx keys) ds) ps.
Proof.
  rewrite !join_of_driven.
  rewrite <-(bind_keep (has_key driver_idx keys) (λ d, filter (has_key probe_idx keys) ps ≫= pair_rows d)).
  - apply Permutation_of_eq, bind_in. intros d [Hd _]%list_elem_of_filter. apply bind_keep. intros x Hx.
    apply pair_rows_none. left. intros He. apply Hx. unfold has_key in *. by rewrite <-He.
  - intros d Hd. apply bind_nil. intros x [Hx _]%list_elem_of_filter. apply pair_rows_none.
    destruct (key_of driver_idx d) eqn:E; [left|by right]. intros He. apply Hd. unfold has_key in *.
    rewrite E. by rewrite <-He in Hx.
Qed.

(** A driver restricted to all of its keys loses nothing. *)
Lemma all_keys keys ds ps :
  (∀ d v, d ∈ ds → key_of driver_idx d = Some v → v ∈ keys) →
  join_of (filter (has_key driver_idx keys) ds) ps ≡ₚ join_of ds ps.
Proof.
  intros Hk. rewrite !join_of_driven. apply Permutation_of_eq. induction ds as [|d ds IH]; [done|].
  rewrite filter_cons, cons_bind, <-IH by (intros d' v Hd; apply Hk; by right).
  case_decide as Hd; [done|]. rewrite (bind_nil _ ps); [done|]. intros x _. apply pair_rows_none. right.
  unfold has_key in Hd. destruct (key_of driver_idx d) as [v|] eqn:E; [|done]. destruct Hd.
  apply (Hk d v); [by left|done].
Qed.

(** The rest of the driver's rows only adds rows. *)
Lemma join_of_part P `{∀ x, Decision (P x)} ds ps :
  join_of ds ps ≡ₚ join_of (filter P ds) ps ++ join_of (filter (λ d, ¬ P d) ds) ps.
Proof.
  rewrite !join_of_driven. induction ds as [|d ds IH]; [done|]. rewrite cons_bind, IH, !filter_cons.
  destruct (decide (P d)) as [Hp|Hp].
  - rewrite (decide_False (P := ¬ P d)) by tauto. by rewrite cons_bind, app_assoc.
  - rewrite (decide_True (P := ¬ P d)) by done. rewrite cons_bind.
    rewrite !app_assoc. apply Permutation_app_tail, Permutation_app_comm.
Qed.
End driven.
End join_rows.

(** ** What the operator computes *)

Section execution.
Context {w : Web} {df : DataFusion} (schema_of_other : Plan → list string) (collect : Plan → io (list Batch)).

(** A scan that does not defer gives batches. *)
Lemma scan_with_filters_memory d extra s plan s' :
  scan_with_filters d extra s = (Ok plan, s') → ∃ bs, plan = MemoryExec bs (deferred_schema d).
Proof.
  unfold scan_with_filters, iobind at 1. destruct (scan_bound _ _ _ _ _ _ _ s) as [[[bs|missing]|e] s1] eqn:E; [..|done].
  - unfold iobind, lift, ret. destruct (try_map _ bs) as [bs'|]; intros H; simplify_eq. eauto.
  - exfalso. revert E. unfold scan_bound, iobind, ret, fail. destruct (now s) as [[t|] s2]; [|done].
    case_match; [|done]. destruct (scan_sets _ _ _ _ _ _ _ _ _ s2) as [[[|b bs]|] s3]; [|done..].
    destruct (lift _ s3) as [[|] ?]; done.
Qed.

(** What is relied on of a hash join: over two inputs in memory an inner join on a pair of columns,
    one that does not take nulls for equal, gives the rows of the inner join, in any order. *)
Definition hash_joins (jr : JoinRows) (j : HashJoin) (li ri : nat) : Prop :=
  ∀ lb lsch rb rsch s out s',
    collect (HashJoinExec j (MemoryExec lb lsch) (MemoryExec rb rsch)) s = (Ok out, s') →
    rows_of_batches out ≡ₚ inner_rows jr li ri (rows_of_batches lb) (rows_of_batches rb).

(** The parts of a dependent join that the rule builds. *)
Lemma try_build_inv j lhs rhs limit dep :
  try_build_dependent_join schema_of_other j lhs rhs limit = Some dep →
  ∃ p d li ri col,
    dep = DependentJoinExec (HashJoinExec j lhs rhs) p (DeferredScan d) (if p then li else ri) col limit ∧
    j_type j = Inner ∧ j_on j = [(PColumn li, PColumn ri)] ∧
    find_deferred (if p then rhs else lhs) = Some d ∧ find_deferred (if p then lhs else rhs) = None ∧
    schema schema_of_other (if p then rhs else lhs) !! (if p then ri else li) = Some col ∧ col ∈ d_key_columns d.
Proof.
  unfold try_build_dependent_join, probe_side.
  destruct (j_type j) eqn:Et; [|done]. destruct (j_on j) as [|[lk rk] [|]] eqn:Eo; [done| |done].
  destruct (find_deferred lhs) as [d|] eqn:El, (find_deferred rhs) as [d'|] eqn:Er; cbn [mbind option_bind]; try done.
  - destruct lk as [li|]; [|done]. destruct (schema _ lhs !! li) as [col|] eqn:Ec; [|done]. cbn [mbind option_bind].
    case_bool_decide; [|done]. destruct rk as [ri|]; [|done]. intros Hdep; simplify_eq.
    by exists false, d, li, ri, col.
  - destruct rk as [ri|]; [|done]. destruct (schema _ rhs !! ri) as [col|] eqn:Ec; [|done]. cbn [mbind option_bind].
    case_bool_decide; [|done]. destruct lk as [li|]; [|done]. intros Hdep; simplify_eq.
    by exists true, d', li, ri, col.
Qed.

(** Distinct keys without a cap are all keys. *)
Lemma elem_of_firsts v seen vs : v ∈ vs → v ∈ seen ∨ v ∈ firsts seen vs.
Proof.
  revert seen. induction vs as [|v' vs IH]; intros seen Hv; [by apply elem_of_nil in Hv|].
  cbn [firsts]. apply elem_of_cons in Hv as [->|Hv].
  - case_decide; [by left|right; left].
  - case_decide; [by apply IH|]. destruct (IH (seen ++ [v']) Hv) as [[?|?%list_elem_of_singleton]%elem_of_app|?].
    + by left.
    + right. subst. left.
    + right. by right.
Qed.

Lemma column_keys_all idx rs d v : d ∈ rs → key_of idx d = Some v → v ∈ column_keys idx rs.
Proof.
  intros Hd Hv. destruct (elem_of_firsts v [] (omap (key_of idx) rs)) as [?%elem_of_nil|]; [|done|done].
  apply list_elem_of_omap. eauto.
Qed.

Lemma firsts_NoDup seen vs : NoDup (firsts seen vs) ∧ ∀ v, v ∈ firsts seen vs → v ∉ seen ∧ v ∈ vs.
Proof.
  revert seen. induction vs as [|v vs IH]; intros seen; cbn [firsts].
  { split; [constructor|]. by intros v ?%elem_of_nil. }
  case_decide as Hv.
  - destruct (IH seen) as [Hn Hs]. split; [done|]. intros v' Hv'. specialize (Hs v' Hv'). split; [tauto|right; tauto].
  - destruct (IH (seen ++ [v])) as [Hn Hs]. split.
    + constructor; [|done]. intros Hin. destruct (Hs v Hin) as [H _]. apply H, elem_of_app. right. by left.
    + intros v' [->|Hv']%elem_of_cons; [split; [done|by left]|]. destruct (Hs v' Hv') as [H Hi].
      split; [|by right]. intros ?. apply H, elem_of_app. by left.
Qed.

Lemma filter_all {A} (P : A → Prop) `{∀ x, Decision (P x)} (l : list A) : (∀ x, x ∈ l → P x) → filter P l = l.
Proof.
  induction l as [|x l IH]; intros Hl; [done|]. rewrite filter_cons, decide_True by (apply Hl; by left).
  f_equal. apply IH. intros y Hy. apply Hl. by right.
Qed.

(** Rows that cover distinct keys, each with something to give, give as much as there are keys. *)
Lemma keys_bound {B} idx (f : list Value → list B) keys ds :
  NoDup keys → (∀ k, k ∈ keys → ∃ d, d ∈ ds ∧ key_of idx d = Some k ∧ f d ≠ []) →
  length keys ≤ length (ds ≫= f).
Proof.
  revert keys. induction ds as [|d ds IH]; intros keys Hn Hk.
  - destruct keys as [|k keys]; [simpl; lia|]. destruct (Hk k) as (d & Hd & _); [by left|]. by apply elem_of_nil in Hd.
  - rewrite cons_bind, length_app. destruct (f d) as [|b bs] eqn:Ef.
    + apply IH; [done|]. intros k Hin. destruct (Hk k Hin) as (d' & [->|Hd]%elem_of_cons & Hkey & Hf); [done|eauto].
    + assert (length keys ≤ S (length (filter (λ k, key_of idx d ≠ Some k) keys))) as Hl.
      { clear -Hn. induction Hn as [|k keys Hk Hn IHk]; [simpl; lia|]. rewrite filter_cons. case_decide as Hd.
        - simpl. lia.
        - rewrite filter_all; [simpl; lia|]. intros k' Hk' Hkey. destruct (decide (key_of idx d = Some k)) as [Hkey'|?]; [by simplify_eq|done]. }
      specialize (IH (filter (λ k, key_of idx d ≠ Some k) keys)). simpl. 
      assert (length (filter (λ k, key_of idx d ≠ Some k) keys) ≤ length (ds ≫= f)); [|lia].
      apply IH; [by apply NoDup_filter|]. intros k [Hne Hin]%list_elem_of_filter.
      destruct (Hk k Hin) as (d' & [->|Hd]%elem_of_cons & Hkey & Hf); [done|eauto].
Qed.

(** Every key of the driver finds a row of the table that the join keeps. *)
Definition matched jr p di pi (ds table : list (list Value)) : Prop :=
  ∀ v, v ∈ column_keys di ds → ∃ d x, d ∈ ds ∧ x ∈ table ∧ key_of di d = Some v ∧ pair_rows jr p di pi d x ≠ [].

(** The join of a driver with the rows fetched for its first keys: a part of the whole, all of it
    without a cap; with a cap, all of it or as many rows as the cap if every key has a match. *)
Lemma capped_rows jr p di pi cap ds table :
  let keys := take_opt cap (column_keys di ds) in
  let part := join_of jr p di pi ds (filter (has_key pi keys) table) in
  ∃ rest, join_of jr p di pi ds table ≡ₚ part ++ rest ∧
    (cap = None → rest = []) ∧
    (∀ n, cap = Some n → matched jr p di pi ds table → rest = [] ∨ (n <= N.of_nat (length part))%N).
Proof.
  intros keys part. assert (fits cap (column_keys di ds) → join_of jr p di pi ds table ≡ₚ part) as Hall.
  { intros Hf. unfold part, keys. rewrite take_opt_fits by done. rewrite restrict_probe. symmetry. apply all_keys.
    intros d v. apply column_keys_all. }
  assert (fits cap (column_keys di ds) ∨ ∃ n, cap = Some n ∧ (n < N.of_nat (length (column_keys di ds)))%N) as [Hf|(n & -> & Hf)].
  { destruct cap as [n|]; [|by left]. simpl. destruct (N.le_gt_cases (N.of_nat (length (column_keys di ds))) n); eauto. }
  - exists []. rewrite app_nil_r. split; [by apply Hall|]. split; [done|]. by left.
  - exists (join_of jr p di pi (filter (λ d, ¬ has_key di keys d) ds) table).
    split; [by unfold part; rewrite restrict_probe, <-join_of_part|]. split; [done|].
    intros n' [= <-] Hm. right. unfold part. rewrite restrict_probe, join_of_driven.
    assert (length keys = N.to_nat n) as Hl.
    { unfold keys. simpl in *. rewrite length_take. lia. }
    enough (length keys ≤ length (filter (has_key di keys) ds ≫= λ d, table ≫= pair_rows jr p di pi d)) by lia.
    apply (keys_bound di).
    + unfold keys. simpl. eapply sublist_NoDup; [apply firsts_NoDup|apply sublist_take].
    + intros k Hk. destruct (Hm k) as (d & x & Hd & Hx & Hkey & Hp).
      { unfold keys in Hk. simpl in Hk. eapply elem_of_sublist; [exact Hk|apply sublist_take]. }
      exists d. split; [apply list_elem_of_filter; split; [|done]; unfold has_key; by rewrite Hkey|].
      split; [done|]. intros Hnil. apply Hp.
      destruct (pair_rows jr p di pi d x) as [|row ?] eqn:E; [done|]. exfalso.
      assert (row ∈ table ≫= pair_rows jr p di pi d) as Hin.
      { apply list_elem_of_bind. exists x. split; [rewrite E; by left|done]. }
      rewrite Hnil in Hin. by apply elem_of_nil in Hin.
Qed.

Lemma no_keys idx (rs : list (list Value)) : filter (has_key idx []) rs = [].
Proof.
  induction rs as [|x rs IH]; [done|]. rewrite filter_cons, decide_False; [done|].
  unfold has_key. destruct (key_of idx x); [by intros ?%elem_of_nil|by intros []].
Qed.

Lemma join_of_perm jr p di pi ds ps ps' : ps ≡ₚ ps' → join_of jr p di pi ds ps ≡ₚ join_of jr p di pi ds ps'.
Proof.
  intros Hp. rewrite !join_of_driven. apply bind_perm. intros d. by apply bind_Permutation.
Qed.

(** The join a dependent join runs in the end. *)
Definition replayed (j : HashJoin) (p : bool) (driver probe : Plan) : Plan :=
  if p then HashJoinExec j driver probe else HashJoinExec j probe driver.

End execution.

(** ** What the rule preserves *)

(** Prefixes of the partitions of [o], of [fetch] rows each where there are that many: at least
    [fetch] rows if the partitions have as many between them. *)
Definition first_of_partitions {A} (fetch : option N) (o out : list A) : Prop :=
  match fetch with
  | None => out = o
  | Some f => sublist out o ∧ (N.min f (N.of_nat (length o)) <= N.of_nat (length out))%N
  end.

(** That is so however [o] is partitioned. *)
Lemma partitions_first {A} f (parts : list (list A)) :
  first_of_partitions (Some f) (concat parts) (concat (take (N.to_nat f) <$> parts)).
Proof.
  split.
  - induction parts as [|p parts IH]; [constructor|]. simpl. apply sublist_app; [apply sublist_take|done].
  - assert (min (N.to_nat f) (length (concat parts)) ≤ length (concat (take (N.to_nat f) <$> parts))); [|lia].
    induction parts as [|p parts IH]; [simpl; lia|]. rewrite fmap_cons. cbn [concat].
    rewrite !length_app, length_take. lia.
Qed.

(** What operators may make of the rows of their inputs. The rows of a plan are those of its
    partitions, one partition after the other. *)
Class Operators {w : Web} {df : DataFusion} := {
  operator : Operator_ → option N → Opaque → list (list (list Value)) → list (list Value) → Prop;
  joins : HashJoin → list (list Value) → list (list Value) → list (list Value) → Prop;
  join_rows : HashJoin → JoinRows;
  projected : Opaque → list Value → list Value;
  (* a global limit takes rows from the front of its only partition *)
  global_limit_law (skip : N) (f fetch : option N) (rest : Opaque) (outs : list (list (list Value))) (out : list (list Value)) :
    operator (GlobalLimitExec skip f) fetch rest outs out ↔ ∃ o, outs = [o] ∧ out = take_opt f (drop (N.to_nat skip) o);
  (* a local limit gives some of the rows of each partition, its first ones: as many as the limit
     at least, if there are *)
  local_limit_law (fetch : option N) (rest : Opaque) (outs : list (list (list Value))) (out : list (list Value)) :
    operator LocalLimitExec fetch rest outs out ↔ ∃ o, outs = [o] ∧ first_of_partitions fetch o out;
  (* so does coalescing batches with a limit *)
  coalesce_batches_law (fetch : option N) (rest : Opaque) (outs : list (list (list Value))) (out : list (list Value)) :
    operator CoalesceBatchesExec fetch rest outs out ↔ ∃ o, outs = [o] ∧ first_of_partitions fetch o out;
  (* coalescing partitions takes their rows as they come, up to its limit *)
  coalesce_partitions_law (fetch : option N) (rest : Opaque) (outs : list (list (list Value))) (out : list (list Value)) :
    operator CoalescePartitionsExec fetch rest outs out ↔ ∃ o r, outs = [o] ∧ r ≡ₚ o ∧ out = take_opt fetch r;
  (* repartitioning, which has no limit, puts rows into other partitions *)
  repartition_law (fetch : option N) (rest : Opaque) (outs : list (list (list Value))) (out : list (list Value)) :
    operator RepartitionExec fetch rest outs out ↔ fetch = None ∧ ∃ o, outs = [o] ∧ out ≡ₚ o;
  (* a projection, which has none either, makes each row into another *)
  projection_law (fetch : option N) (rest : Opaque) (outs : list (list (list Value))) (out : list (list Value)) :
    operator ProjectionExec fetch rest outs out ↔ fetch = None ∧ ∃ o, outs = [o] ∧ out = projected rest <$> o;
  (* an inner join on columns that does not take nulls for equal gives its rows in any order *)
  inner_law (j : HashJoin) (li ri : nat) (ls rs out : list (list Value)) :
    j_type j = Inner → j_on j = [(PColumn li, PColumn ri)] → j_null_equals_null j = false →
    joins j ls rs out ↔ out ≡ₚ inner_rows (join_rows j) li ri ls rs
}.

Section refinement.
Context {w : Web} {df : DataFusion} {ops : Operators} (schema_of_other : Plan → list string)
  (table : DeferredHttpScanExec → list (list Value)).

Lemma Plan_nested_ind (Q : Plan → Prop) :
  (∀ d, Q (DeferredScan d)) → (∀ j lhs rhs, Q lhs → Q rhs → Q (HashJoinExec j lhs rhs)) →
  (∀ bs s, Q (MemoryExec bs s)) →
  (∀ op fetch rest children, Forall Q children → Q (OperatorExec op fetch rest children)) →
  (∀ join p deferred i col cap, Q (DependentJoinExec join p deferred i col cap)) →
  ∀ p, Q p.
Proof.
  intros Hd Hj Hm Ho Hdep. fix IH 1. intros [d|j l r|bs s|op f rest cs|join p dfr i col cap]; [apply Hd| |apply Hm| |apply Hdep].
  - apply Hj; apply IH.
  - apply Ho. induction cs as [|c cs IHcs]; constructor; [apply IH|exact IHcs].
Qed.

(** The rows a plan may give; a placeholder stands for its table, a dependent join gives what
    [dependent_join_rows] says: the driver joined with the table's rows of its first keys. *)
Inductive means : Plan → list (list Value) → Prop :=
| M_deferred d out : out ≡ₚ table d → means (DeferredScan d) out
| M_join j lhs rhs ls rs out :
    means lhs ls → means rhs rs → joins j ls rs out → means (HashJoinExec j lhs rhs) out
| M_memory bs s : means (MemoryExec bs s) (rows_of_batches bs)
| M_operator op fetch rest children outs out :
    Forall2 means children outs → operator op fetch rest outs out → means (OperatorExec op fetch rest children) out
| M_dependent j lhs rhs (p : bool) d li ri di col cap ds out :
    j_on j = [(PColumn li, PColumn ri)] → j_null_equals_null j = false →
    di = (if p then li else ri) →
    means (if p then lhs else rhs) ds →
    out ≡ₚ join_of (join_rows j) p di (if p then ri else li) ds
             (filter (has_key (if p then ri else li) (take_opt cap (column_keys di ds))) (table d)) →
    means (DependentJoinExec (HashJoinExec j lhs rhs) p (DeferredScan d) di col cap) out.

(** The wrappers around a placeholder do not cut it short. *)
Fixpoint uncut (p : Plan) : Prop :=
  match p with
  | OperatorExec _ fetch _ [c] => fetch = None ∧ uncut c
  | _ => True
  end.

(** Where the rule may be applied: joins over placeholders that are not cut short and that do not
    take nulls for equal, below a limit only if every key of the driver has a match; limits
    that do not overflow. *)
Inductive sound : Plan → option N → Prop :=
| S_deferred d limit : sound (DeferredScan d) limit
| S_memory bs s limit : sound (MemoryExec bs s) limit
| S_dependent join p dfr i col cap limit : sound (DependentJoinExec join p dfr i col cap) limit
| S_join j lhs rhs limit :
    try_build_dependent_join schema_of_other j lhs rhs limit = None →
    sound lhs None → sound rhs None → sound (HashJoinExec j lhs rhs) limit
| S_bound j lhs rhs limit (p : bool) d li ri di col :
    try_build_dependent_join schema_of_other j lhs rhs limit =
      Some (DependentJoinExec (HashJoinExec j lhs rhs) p (DeferredScan d) di col limit) →
    j_on j = [(PColumn li, PColumn ri)] → j_null_equals_null j = false →
    uncut (if p then rhs else lhs) →
    (∀ n ds, limit = Some n → means (if p then lhs else rhs) ds →
             matched (join_rows j) p di (if p then ri else li) ds (table d)) →
    sound (HashJoinExec j lhs rhs) limit
| S_operator op fetch rest children limit :
    (∀ skip f, op = GlobalLimitExec skip (Some f) → (f + skip <= u64_max)%N) →
    Forall (λ c, sound c (limit_for_children op fetch limit)) children →
    sound (OperatorExec op fetch rest children) limit.

(** Results of [P] are the front of results of [Q]: all of one, or at least [limit] rows. *)
Definition covers (limit : option N) (P Q : list (list Value) → Prop) : Prop :=
  ∀ out, P out → ∃ more, Q (out ++ more) ∧
    (more = [] ∨ ∃ n, limit = Some n ∧ (n <= N.of_nat (length out))%N).

Lemma covers_refl limit P : covers limit P P.
Proof. intros out Hp. exists []. rewrite app_nil_r. auto. Qed.

Lemma covers_none P Q out : covers None P Q → P out → Q out.
Proof. intros Hc Hp. destruct (Hc out Hp) as (more & Hq & [->|(n & [=] & _)]). by rewrite app_nil_r in Hq. Qed.

Lemma find_deferred_means p d : find_deferred p = Some d → uncut p → means p (table d).
Proof.
  induction p as [d'|j lhs rhs _ _|bs s|op fetch rest cs IH|join b dfr i col cap] using Plan_nested_ind; try done.
  - intros [= ->] _. by constructor.
  - cbn [find_deferred uncut]. destruct (is_column_preserving op) eqn:Eop; [|done].
    destruct cs as [|c [|]]; [done| |done]. intros Hf [-> Hu]. inversion IH as [|? ? Hc _]; subst.
    apply (M_operator _ _ _ _ [table d]); [by repeat constructor; apply Hc|].
    destruct op; try done.
    + apply coalesce_batches_law. by exists (table d).
    + apply coalesce_partitions_law. by exists (table d), (table d).
    + apply repartition_law. split; [done|]. by exists (table d).
Qed.

Lemma first_extended {A} fetch limit n (o more out : list A) :
  match fetch with Some f => Some f | None => limit end = Some n → (n <= N.of_nat (length o))%N →
  first_of_partitions fetch o out →
  ∃ more', first_of_partitions fetch (o ++ more) (out ++ more') ∧
    (more' = [] ∨ ∃ n, limit = Some n ∧ (n <= N.of_nat (length out))%N).
Proof.
  destruct fetch as [f|]; simpl.
  - intros [= ->] Hle [Hs Hl]. exists []. rewrite app_nil_r. split; [|by left]. split.
    + by apply sublist_inserts_r.
    + rewrite length_app. lia.
  - intros -> Hle ->. exists more. split; [done|]. eauto.
Qed.

(** One child below a limit. *)
Lemma covers_child op fetch rest limit P Q out o :
  covers (limit_for_children op fetch limit) P Q → P o → operator op fetch rest [o] out →
  (∀ skip f, op = GlobalLimitExec skip (Some f) → (f + skip <= u64_max)%N) →
  ∃ o' more, Q o' ∧ operator op fetch rest [o'] (out ++ more) ∧
    (more = [] ∨ ∃ n, limit = Some n ∧ (n <= N.of_nat (length out))%N).
Proof.
  intros Hc Hp Ho Hover. destruct (Hc o Hp) as (more & Hq & Hm).
  assert (more = [] → ∃ o' more, Q o' ∧ operator op fetch rest [o'] (out ++ more) ∧
    (more = [] ∨ ∃ n, limit = Some n ∧ (n <= N.of_nat (length out))%N)) as Hnil.
  { intros ->. exists o, []. rewrite !app_nil_r in *. auto. }
  destruct Hm as [Hm|(n & Hn & Hle)]; [by apply Hnil|].
  destruct op as [skip [f|]| | | | | |]; try done; cbn in Hn.
  - simplify_eq. specialize (Hover _ _ eq_refl). unfold u64_saturating in Hle. rewrite N.min_l in Hle by done.
    apply global_limit_law in Ho as (o1 & [= <-] & ->). exists (o ++ more), []. split; [done|]. split; [|by left].
    rewrite app_nil_r. apply global_limit_law. exists (o ++ more). split; [done|]. cbn.
    rewrite drop_app_le by lia. rewrite take_app_le; [done|]. rewrite length_drop. lia.
  - apply local_limit_law in Ho as (o1 & [= <-] & Hf). exists (o ++ more).
    destruct (first_extended fetch limit n o more out Hn Hle Hf) as (more' & Hf' & Hm'). exists more'.
    split; [done|]. split; [|done]. apply local_limit_law. eauto.
  - apply coalesce_batches_law in Ho as (o1 & [= <-] & Hf). exists (o ++ more).
    destruct (first_extended fetch limit n o more out Hn Hle Hf) as (more' & Hf' & Hm'). exists more'.
    split; [done|]. split; [|done]. apply coalesce_batches_law. eauto.
  - apply coalesce_partitions_law in Ho as (o1 & r & [= <-] & Hr & ->). exists (o ++ more).
    pose proof (Permutation_length Hr) as Hlen. pose proof (Permutation_app_tail more Hr) as Hrm.
    destruct fetch as [f|].
    + exists []. split; [done|]. split; [|by left]. rewrite app_nil_r. apply coalesce_partitions_law.
      exists (o ++ more), (r ++ more). split; [done|]. split; [exact Hrm|]. simplify_eq. cbn.
      rewrite take_app_le; [done|]. lia.
    + exists more. split; [done|]. split.
      * apply coalesce_partitions_law. exists (o ++ more), (r ++ more). split; [done|]. split; [exact Hrm|done].
      * right. exists n. split; [done|]. cbn. lia.
  - apply repartition_law in Ho as (-> & o1 & [= <-] & Hr). exists (o ++ more), more.
    pose proof (Permutation_length Hr) as Hlen. split; [done|]. split.
    + apply repartition_law. split; [done|]. exists (o ++ more). split; [done|]. by apply Permutation_app_tail.
    + right. exists n. split; [done|]. lia.
  - apply projection_law in Ho as (-> & o1 & [= <-] & ->). exists (o ++ more), (projected rest <$> more).
    split; [done|]. split.
    + apply projection_law. split; [done|]. exists (o ++ more). by rewrite fmap_app.
    + right. exists n. split; [done|]. by rewrite length_fmap.
Qed.

Lemma rewrite_covers p limit :
  sound p limit → covers limit (means (rewrite schema_of_other p limit)) (means p).
Proof.
  revert limit. induction p as [d|j lhs rhs IHl IHr|bs s|op fetch rest cs IH|join b dfr i col cap] using Plan_nested_ind;
    intros limit Hs; try apply covers_refl; inversion Hs; subst; cbn [rewrite].
  - match goal with H : try_build_dependent_join _ _ _ _ _ = None |- _ => rewrite H end.
    intros out Hm. inversion Hm; subst. exists []. rewrite app_nil_r. split; [|by left].
    eapply M_join; [eapply covers_none; [by apply IHl|done]|eapply covers_none; [by apply IHr|done]|done].
  - match goal with H : try_build_dependent_join _ _ _ _ _ = Some _ |- _ => rename H into Hbuild; rewrite Hbuild end.
    apply try_build_inv in Hbuild as (p' & d' & li' & ri' & col' & Hdep & Ht & Hon & Hprobe & _).
    simplify_eq. intros out Hm. inversion Hm; subst. rewrite Hon in *. simplify_eq.
    match goal with H : out ≡ₚ _ |- _ => rename H into Hout end.
    match goal with H : ∀ n ds, limit = Some n → _ |- _ => rename H into Hmatch end.
    match goal with H : means (if p' then lhs else rhs) ?ds' |- _ => rename H into Hds, ds' into ds end.
    destruct (capped_rows (join_rows j) p' (if p' then li else ri) (if p' then ri else li) limit ds (table d'))
      as (more & Hfull & Hnone & Hsome).
    exists more. split.
    + pose proof (find_deferred_means _ _ Hprobe ltac:(done)) as Htable.
      rewrite <-Hout in Hfull. symmetry in Hfull. unfold join_of in Hfull.
      destruct p'; (eapply M_join; [done|done|]); by apply (inner_law j _ _ _ _ _ Ht Hon).
    + destruct limit as [n|]; [|left; by apply Hnone].
      destruct (Hsome n eq_refl) as [?|?]; [by apply (Hmatch n)|by left|]. right. exists n. by rewrite Hout.
  - match goal with H : Forall (λ c, sound c _) cs |- _ => rename H into Hcs end.
    match goal with H : ∀ skip f, op = _ → _ |- _ => rename H into Hover end.
    intros out Hm. inversion Hm; subst.
    match goal with H : Forall2 means _ ?o |- _ => rename H into Houts, o into outs end.
    match goal with H : operator op fetch rest outs out |- _ => rename H into Hop end.
    assert (Forall2 (λ c P, covers (limit_for_children op fetch limit) P (means c)) cs
              ((λ c, means (rewrite schema_of_other c (limit_for_children op fetch limit))) <$> cs)) as Hcov.
    { apply Forall2_fmap_r, Forall_Forall2_diag. rewrite Forall_forall in IH, Hcs |- *.
      intros c Hc. apply IH; [done|]. by apply Hcs. }
    assert (limit_for_children op fetch limit = None ∨ ∃ o, outs = [o]) as [Hnone|[o ->]].
    { destruct op; try (left; reflexivity); right;
        [apply global_limit_law in Hop as (o & -> & _)|apply local_limit_law in Hop as (o & -> & _)
        |apply coalesce_batches_law in Hop as (o & -> & _)|apply coalesce_partitions_law in Hop as (o & r & -> & _)
        |apply repartition_law in Hop as (_ & o & -> & _)|apply projection_law in Hop as (_ & o & -> & _)]; eauto. }
    + exists []. rewrite app_nil_r. split; [|by left]. apply (M_operator _ _ _ _ outs); [|done].
      rewrite Hnone in *. change (List.map ?f cs) with (f <$> cs) in Houts. rewrite Forall2_fmap_l in Houts.
      rewrite Forall2_fmap_r in Hcov. clear -Houts Hcov.
      induction Houts as [|c o cs outs Ho Houts IH]; [constructor|]. inversion Hcov; subst.
      constructor; [by eapply covers_none|by apply IH].
    + destruct cs as [|c [|]]; [by inversion Houts| |inversion Houts; subst;
        match goal with H : Forall2 _ (List.map _ (_ :: _)) [] |- _ => by inversion H
                      | H : Forall2 _ (_ :: _) [] |- _ => by inversion H end].
      inversion Houts as [|? ? ? ? Ho _]; subst. inversion Hcov as [|? ? ? ? Hc _]; subst.
      destruct (covers_child op fetch rest limit _ _ out o Hc Ho Hop Hover) as (o' & more & Hq & Hop' & Hmore).
      exists more. split; [|done]. apply (M_operator _ _ _ _ [o']); [by repeat constructor|done].
Qed.

(** C7: The optimizer rule is sound: whatever rows the rewritten plan may give, the plan it was made
    from may give, in that order: the enclosing limits that it hands down through the operators of
    which the code says that they emit a prefix of their input, and uses to cap the keys it
    fetches, are never seen in the result - though coalescing and repartitioning may give rows in
    any order and a local limit counts in each partition. This holds wherever placeholders are
    not cut short, joins over them do not take nulls for equal, and capped joins have a match for
    every key ([sound]; no condition on joins that no limit encloses), for every meaning of
    DataFusion's operators that keeps to their laws. *)
Theorem rewrite_refines p out :
  sound p None → means (optimize schema_of_other p) out → means p out.
Proof. intros Hs. by apply covers_none, rewrite_covers. Qed.
End refinement.

(** ** Examples
    A driver in memory with one column of keys, and a table of items that wants an [id]: the server
    has items 1 and 3. *)

#[local] Instance cell_eq_dec : EqDecision (Cell (data := sample_cells)).
Proof. intros x y. unfold Decision. decide equality; first [exact (Z.eq_dec _ _)|exact (decide (_ = _))]. Defined.

Definition sample_rows (arrays : list (Array (data := sample_cells))) : list (list (option (Cell (data := sample_cells)))) :=
  match arrays with
  | [] => []
  | a :: _ => (λ i, (λ a, default None (a_values a !! i)) <$> arrays) <$> seq 0 (length (a_values a))
  end.

(** Batches as their width and their rows; a row of another width is none. *)
#[local] Instance sample_df : DataFusion.
Proof.
  refine {|
    cells := sample_cells;
    Batch := nat * list (list (option (Cell (data := sample_cells))));
    Value := option (Cell (data := sample_cells));
    value_eq_dec := _;
    try_new fields arrays := if conforms fields arrays then Ok (length arrays, sample_rows arrays)
                             else Err "column types must match schema types";
    slice b n := (b.1, take (N.to_nat n) b.2);
    rows b := filter (λ row, length row = b.1) b.2;
    num_columns := fst;
    with_columns _ p b := Ok (length p, (λ row, (λ i, default None (row !! i)) <$> p) <$> b.2);
    is_null v := match v with Some _ => false | None => true end;
    literal_of v := match v with
                    | Some (CInt z) => SInt z
                    | Some (CText s) => SUtf8 s
                    | Some (CBool b) => SBoolean b
                    | _ => SOther
                    end;
    Opaque := ()
  |}.
  intros b row Hrow. apply list_elem_of_filter in Hrow as [Hrow _]. exact Hrow.
Defined.

Definition item_server (rq : Request) : SendResult :=
  if ends_with "/items/1" (u_text (rq_url rq)) then response 200 "7"
  else if ends_with "/items/3" (u_text (rq_url rq)) then response 200 "9"
  else response 200 "".

Definition item_param : ParamSpec :=
  {| p_name := "id"; p_type := "bigint"; p_required := true; p_default := None; p_accepts := []; p_emit := ∅;
     p_explode := false; p_derive := None; p_filterable := true |}.

Definition item_table : HttpTableSpec :=
  {| t_name := "item"; t_endpoint := "/items/{id}"; t_method := "GET"; t_params := [item_param]; t_headers := ∅;
     t_body := None; t_requests := []; t_response := sample_response; t_pagination := None; t_description := None |}.

#[local] Instance item_web : Web := web_of item_server.

Definition item_scan : DeferredHttpScanExec :=
  {| d_provider := with_safety sample_source item_table None None; d_projection := None; d_filters := [];
     d_key_columns := ["id"] |}.

Definition int (z : Z) : option (Cell (data := sample_cells)) := Some (CInt z).
Definition item_rows : list (list Value) := [[int 7; int 1]; [int 9; int 3]].

(** Two batches of keys, one of them twice, one null, one of no item. *)
Definition key_batches : list Batch := [(1, [[int 3]; [None]]); (1, [[int 3]; [int 2]; [int 1]])].
Definition driver_scan : Plan := MemoryExec key_batches ["key"].
Definition on_id : HashJoin := {| j_type := Inner; j_on := [(PColumn 0, PColumn 1)];
  j_null_equals_null := false; j_rest := tt : Opaque |}.
Definition concat_rows : JoinRows := {| keep := λ _ _, true; emit := app |}.

(** Joins of what is in memory. *)
Definition sample_collect (p : Plan) : io (list Batch) :=
  match p with
  | MemoryExec bs _ => ret bs
  | HashJoinExec j (MemoryExec lb _) (MemoryExec rb _) =>
      ret ((λ row, (length row, [row])) <$> inner_rows concat_rows 0 1 (rows_of_batches lb) (rows_of_batches rb))
  | _ => fail (HttpIo.Plan "not run")
  end.

Lemma sample_joins : hash_joins sample_collect concat_rows on_id 0 1.
Proof.
  intros lb lsch rb rsch s out s' H. unfold sample_collect, ret in H. simplify_eq. apply Permutation_of_eq.
  unfold rows_of_batches. induction (inner_rows _ _ _ _ _) as [|row l IH]; [done|].
  rewrite fmap_cons, cons_bind, IH. change (filter (λ r : list Value, length r = length row) [row] ++ l = row :: l).
  by rewrite filter_cons, decide_True.
Qed.

Definition item_start : St := {| st_world := 0%N : World (Web := item_web); st_token := None; st_log := [] |}.

Definition sample_run (limit : option N) : result Fault (list Batch) * St :=
  dependent_execute (λ _, []) sample_collect (HashJoinExec on_id driver_scan (DeferredScan item_scan))
    true (DeferredScan item_scan) 0 "id" limit item_start.

Definition run_rows (limit : option N) : option (list (list Value)) :=
  match (sample_run limit).1 with Ok out => Some (rows_of_batches out) | Err _ => None end.

Definition run_urls (limit : option N) : list string :=
  omap (λ e, match e with Sent rq => Some (u_text (rq_url rq)) | _ => None end) (st_log (sample_run limit).2).

(** The keys 3, 2 and 1 are fetched, once each, in the order of the driver; below a limit of one only
    the first. *)
Example fetched_rows :
  run_rows None = Some [[int 3; int 9; int 3]; [int 3; int 9; int 3]; [int 1; int 7; int 1]].
Proof. apply (bool_decide_unpack _). vm_compute. exact I. Qed.

Example fetched_urls :
  run_urls None = ["https://api.test/items/3"; "https://api.test/items/2"; "https://api.test/items/1"].
Proof. vm_compute. reflexivity. Qed.

Example capped_urls : run_urls (Some 1%N) = ["https://api.test/items/3"].
Proof. vm_compute. reflexivity. Qed.

Definition fetched_by (limit : option N) : option (list (list Value)) :=
  match (scan_with_filters item_scan [build_in_list "id" (distinct_keys key_batches 0 limit)] item_start).1 with
  | Ok (MemoryExec bs _) => Some (rows_of_batches bs)
  | _ => None
  end.

Lemma two_fetched : fetched_by (Some 2%N) = Some [[int 9; int 3]].
Proof. apply (bool_decide_unpack _). vm_compute. exact I. Qed.


(** Projections of every column; every join is an inner join of columns 0 and 1 if it is one. *)
#[local] Instance sample_operators : Operators.
Proof.
  refine {|
    operator op fetch rest outs out :=
      match op with
      | GlobalLimitExec skip f => ∃ o, outs = [o] ∧ out = take_opt f (drop (N.to_nat skip) o)
      | LocalLimitExec | CoalesceBatchesExec => ∃ o, outs = [o] ∧ first_of_partitions fetch o out
      | CoalescePartitionsExec => ∃ o r, outs = [o] ∧ r ≡ₚ o ∧ out = take_opt fetch r
      | RepartitionExec => fetch = None ∧ ∃ o, outs = [o] ∧ out ≡ₚ o
      | ProjectionExec => fetch = None ∧ ∃ o, outs = [o] ∧ out = id <$> o
      | OtherExec => False
      end;
    joins j ls rs out :=
      match j_on j with
      | [(PColumn li, PColumn ri)] => out ≡ₚ inner_rows concat_rows li ri ls rs
      | _ => False
      end;
    join_rows _ := concat_rows;
    projected _ row := row
  |}; [done..|]. intros j li ri ls rs out _ Hon _. by rewrite Hon.
Defined.

Definition names : Plan → list string := λ _, [].
Definition items_of (d : DeferredHttpScanExec) : list (list Value) := item_rows.

(** The first rows of a driver joined with the items. *)
Definition item_join (driver : Plan) : Plan := HashJoinExec on_id driver (DeferredScan item_scan).
Definition limited (n : N) (bs : list Batch) : Plan :=
  OperatorExec (GlobalLimitExec 0 (Some n)) None tt [item_join (MemoryExec bs ["key"])].

Example optimized_limit :
  optimize names (limited 10 key_batches) =
  OperatorExec (GlobalLimitExec 0 (Some 10%N)) None tt
    [DependentJoinExec (item_join driver_scan) true (DeferredScan item_scan) 0 "id" (Some 10%N)].
Proof. reflexivity. Qed.

(** Of two joins over placeholders in one another only the outer one is bound: its driver holds a
    placeholder that will refuse to run. *)
Example chained_joins :
  optimize names (item_join (item_join driver_scan)) =
  DependentJoinExec (item_join (item_join driver_scan)) true (DeferredScan item_scan) 0 "id" None.
Proof. reflexivity. Qed.

Definition matched_batches : list Batch := [(1, [[int 3]; [int 1]])].
Definition unmatched_batches : list Batch := [(1, [[int 2]; [int 1]])].

(** What the rewritten plan gives below a limit of one. *)
Lemma limited_means bs out :
  bool_decide (join_of concat_rows true 0 1 (rows_of_batches bs)
    (filter (has_key 1 (take_opt (Some 1%N) (column_keys 0 (rows_of_batches bs)))) item_rows) = out) = true →
  means items_of (optimize names (limited 1 bs)) (take 1 out).
Proof.
  intros Hout%bool_decide_eq_true. apply (M_operator _ _ _ _ _ [out]); [|by exists out]. constructor; [|constructor].
  apply (M_dependent _ on_id (MemoryExec bs ["key"]) _ true item_scan 0 1 _ _ _ (rows_of_batches bs));
    [done|done|done|apply M_memory|]. by rewrite <-Hout.
Qed.

(** A key without a match uses up the limit: of the driver [2, 1] below a limit of one only the key 2
    is fetched, which has no item, and nothing is left of the row of key 1. *)
Example limit_loses_rows :
  means items_of (optimize names (limited 1 unmatched_batches)) [] ∧ ¬ means items_of (limited 1 unmatched_batches) [].
Proof.
  split; [by apply (limited_means unmatched_batches []); vm_compute|].
  intros Hm. inversion Hm as [| | |? ? ? ? outs ? Houts Ho|]; subst. destruct Ho as (o & -> & Ho).
  inversion Houts as [|? ? ? ? Hj _]; subst.
  inversion Hj as [|? ? ? ls rs ? Hl Hr Hjoin| | |]; subst. inversion Hl; subst. inversion Hr; subst.
  destruct o; [|done]. apply Permutation_nil in Hjoin.
  match goal with H : rs ≡ₚ _ |- _ => apply (join_of_perm concat_rows true 0 1 (rows_of_batches unmatched_batches)) in H;
    rename H into Hp end.
  unfold join_of in Hp at 1. rewrite Hjoin in Hp. apply Permutation_nil in Hp. revert Hp.
  apply (bool_decide_unpack (¬ _)). vm_compute. exact I.
Qed.

Lemma matched_items :
  matched concat_rows true 0 1 (rows_of_batches matched_batches) item_rows.
Proof.
  intros v Hv. change (column_keys 0 (rows_of_batches matched_batches)) with [int 3; int 1] in Hv.
  repeat (apply elem_of_cons in Hv as [->|Hv]); [..|by apply elem_of_nil in Hv].
  - exists [int 3], [int 9; int 3]. split; [left|]. split; [right; left|]. done.
  - exists [int 1], [int 7; int 1]. split; [right; left|]. split; [left|]. done.
Qed.

Lemma rewrite_refines_witness :
  means items_of (optimize names (limited 1 matched_batches)) [[int 3; int 9; int 3]] ∧
  means items_of (limited 1 matched_batches) [[int 3; int 9; int 3]].
Proof.
  assert (means items_of (optimize names (limited 1 matched_batches)) [[int 3; int 9; int 3]]) as Hm
    by (apply (limited_means matched_batches [[int 3; int 9; int 3]]); vm_compute; reflexivity).
  split; [exact Hm|]. apply (rewrite_refines names items_of (limited 1 matched_batches)); [|exact Hm].
  apply S_operator; [intros skip f [= <- <-]; vm_compute; discriminate|]. constructor; [|constructor].
  apply (S_bound _ _ on_id (MemoryExec matched_batches ["key"]) (DeferredScan item_scan) _ true item_scan 0 1 0 "id");
    [reflexivity|reflexivity|reflexivity|exact I|].
  intros n ds _ Hds. inversion Hds; subst. apply matched_items.
Defined.
