(* ===== verification/OpenApi.v ===== *)
(** * Tables from OpenAPI documents ([crates/pawrly-schema/src/lib.rs],
      [crates/pawrly-sources/http/src/openapi.rs])
    Reading JSON Schema nodes, and a table for each selected GET operation of a document: its name,
    parameters, columns and pagination. *)

From S2P Require Export SqlText HttpSpec.

(** [Value::pointer] and the text of a value are [serde_json]'s. *)
Class JsonText := { pointer : Json → string → option Json; json_text : Json → string }.

(** ** JSON Schema ([crates/pawrly-schema]) *)

Section schema.
Context {jt : JsonText}.

(** The first type that is not null. *)
Definition schema_type (schema : Json) : option string :=
  match get schema "type" with
  | Some (JString s) => Some s
  | Some (JArray arr) => head (filter (λ s, s ≠ "null") (omap as_str arr))
  | _ => None
  end.

Definition schema_format (schema : Json) : option string := get schema "format" ≫= as_str.

Definition is_object (schema : Json) : bool :=
  match schema_type schema with
  | Some t => bool_decide (t = "object")
  | None => bool_decide (is_Some (get schema "properties"))
  end.

Definition int_type (schema : Json) : string :=
  if decide (schema_format schema = Some "int32") then "int" else "bigint".

Definition number_type (schema : Json) : string :=
  if decide (schema_format schema = Some "float") then "float" else "double".

Definition column_type (schema : Json) : string :=
  match schema_type schema with
  | Some t =>
      if decide (t = "integer") then int_type schema
      else if decide (t = "number") then number_type schema
      else if decide (t = "boolean") then "bool"
      else if decide (t = "string") then
        (if decide (schema_format schema = Some "date") then "date"
         else if decide (schema_format schema = Some "date-time") then "timestamp"
         else "varchar")
      else "json"
  | None => "json"
  end.

Definition param_type (schema : Json) : string :=
  match schema_type schema with
  | Some t =>
      if decide (t = "integer") then int_type schema
      else if decide (t = "number") then number_type schema
      else if decide (t = "boolean") then "bool"
      else "varchar"
  | None => "varchar"
  end.

(** The loop of [deref], as many times as it has left. *)
Fixpoint deref_loop (n : nat) (doc current : Json) : Json :=
  match n with
  | O => current
  | S n =>
      match get current "$ref" ≫= as_str with
      | None => current
      | Some reference =>
          match strip_prefix "#" reference with
          | None => current
          | Some p => match pointer doc p with Some target => deref_loop n doc target | None => current end
          end
      end
  end.

Definition deref (doc value : Json) : Json := deref_loop 32 doc value.

Definition is_metadata_field (name : string) : bool :=
  bool_decide (name ∈ ["total_count"; "incomplete_results"; "has_more"; "next"; "previous"]).

Definition is_array_schema (schema : Json) : bool := bool_decide (schema_type schema = Some "array").

(** The loop over the names that rows usually have. *)
Fixpoint named_rows (doc : Json) (names : list string) (props : list (string * Json)) : option (string * Json) :=
  match names with
  | [] => None
  | name :: names =>
      match deref doc <$> obj_get name props with
      | Some prop => if is_array_schema prop then Some (name, prop) else named_rows doc names props
      | None => named_rows doc names props
      end
  end.

Definition rows_array (doc : Json) (props : list (string * Json)) : option (string * Json) :=
  match named_rows doc ["items"; "data"; "results"; "rows"] props with
  | Some r => Some r
  | None =>
      match List.filter (λ kv, negb (is_metadata_field kv.1) && is_array_schema (deref doc kv.2)) props with
      | [(name, prop)] => Some (name, deref doc prop)
      | _ => None
      end
  end.
End schema.

(** [deep_merge]: what [base] becomes. *)
Fixpoint deep_merge (base patch : Json) {struct patch} : Json :=
  match patch with
  | JObject p =>
      match base with
      | JObject b =>
          if bool_decide (is_Some (obj_get "type" p)) then patch
          else JObject ((fix merge_fields (b : list (string * Json)) (p : list (string * Json)) :=
                 match p with
                 | [] => b
                 | (key, value) :: p =>
                     merge_fields (obj_insert key (deep_merge (default JNull (obj_get key b)) value) b) p
                 end) b p)
      | _ => patch
      end
  | _ => patch
  end.

(** ** Merging fields *)

Lemma obj_get_removed k fields : obj_get k (obj_remove k fields) = None.
Proof.
  induction fields as [|[k' v] fields IH]; [done|]. unfold obj_remove. cbn [List.filter fst].
  case_bool_decide; simpl; [exact IH|]. rewrite decide_False by done. exact IH.
Qed.


(** The loop of [deep_merge] over the fields of a patch. *)
Lemma deep_merge_get k b p :
  obj_get k p = None → obj_get "type" p = None → get (deep_merge (JObject b) (JObject p)) k = obj_get k b.
Proof.
  intros Hk Ht. cbn [deep_merge]. rewrite bool_decide_eq_false_2 by (rewrite Ht; by intros []). simpl get.
  clear Ht. revert b. induction p as [|[key v] p IH]; intros b; [done|]. simpl in Hk. case_decide as Hne; [done|].
  rewrite IH by done. by apply obj_get_insert_ne.
Qed.


(** ** Names *)

(** The loop of [to_snake]. *)
Fixpoint snake_loop (s out : string) (prev_lower_or_digit : bool) : string :=
  match s with
  | "" => out
  | String ch s =>
      if is_alnum ch then
        let out := if is_upper ch && prev_lower_or_digit then out +:+ "_" else out in
        snake_loop s (out +:+ to_ascii_lowercase (chr ch)) (is_lower ch || is_digit ch)
      else snake_loop s (if ends_with "_" out then out else out +:+ "_") false
  end.

Definition underscore (c : ascii) : bool := bool_decide (c = "_"%char).

Definition to_snake (raw : string) : string :=
  trim_matches underscore (snake_loop raw "" false).

Definition nonempty (s : string) : bool := negb (bool_decide (s = "")).

(** The segments of a path that are no parameters. *)
Definition fixed_segments (path : string) : list string :=
  List.filter (λ s, nonempty s && negb (starts_with "{" s)) (split "/" path).

Definition path_name (path : string) : string :=
  join "_" (List.filter nonempty (to_snake <$> fixed_segments path)).

Definition path_leaf (path : string) : string := default "" (to_snake <$> last (fixed_segments path)).

Inductive Naming := ByOperationId | ByPath | ByTag.

Definition operation_id (op : Json) : option string := get op "operationId" ≫= as_str.

Definition snake_name (raw : option string) : option string :=
  s ← to_snake <$> raw; if nonempty s then Some s else None.

Definition first_tag (op : Json) : option string := tags ← get op "tags"; l ← as_array tags; tag ← head l; as_str tag.

Definition table_name (op : Json) (path : string) (naming : Naming) : string :=
  let raw := match naming with
             | ByOperationId => default (path_name path) (snake_name (operation_id op))
             | ByPath => path_name path
             | ByTag => match snake_name (first_tag op) with
                        | Some tag => tag +:+ "_" +:+ path_leaf path
                        | None => path_name path
                        end
             end in
  if nonempty raw then raw else "table".

(** The candidates after the name itself; one of the first [size taken + 1] is free. *)
Definition candidate (base : string) (n : nat) : string := base +:+ "_" +:+ show_N (N.of_nat n).

Definition unique_name (base : string) (taken : gset string) : string :=
  if decide (base ∈ taken)
  then default base (List.find (λ c, bool_decide (c ∉ taken)) (candidate base <$> seq 2 (S (size taken))))
  else base.

(** ** Selection *)

Record Selector := { sel_tags : list string; sel_paths : list string; sel_operations : list string }.

Definition selector_is_empty (s : Selector) : bool :=
  match sel_tags s, sel_paths s, sel_operations s with [], [], [] => true | _, _, _ => false end.

(** The loop of [glob_match] over the parts after the first, in what is left of the text. *)
Fixpoint glob_parts (parts : list string) (rest : string) : bool :=
  match parts with
  | [] => true
  | [part] => if decide (part = "") then true else ends_with part rest
  | part :: parts =>
      if decide (part = "") then glob_parts parts rest
      else match split_once_str part rest with
           | Some (_, rest) => glob_parts parts rest
           | None => false
           end
  end.

Definition glob_match (pattern text : string) : bool :=
  if negb (contains_chr "*" pattern) then bool_decide (pattern = text)
  else match split "*" pattern with
       | first :: parts =>
           match strip_prefix first text with
           | Some rest => glob_parts parts rest
           | None => false
           end
       | [] => true
       end.

Definition selector_matches (s : Selector) (path : string) (op : Json) : bool :=
  existsb (λ id, bool_decide (operation_id op = Some id)) (sel_operations s)
  || existsb (λ glob, glob_match glob path) (sel_paths s)
  || existsb (λ want, match get op "tags" ≫= as_array with
                      | Some tags => existsb (λ t, bool_decide (t = want)) (omap as_str tags)
                      | None => false
                      end) (sel_tags s).

Record SynthOptions := { so_include : Selector; so_exclude : Selector; so_naming : Naming }.

(** ** Parameters *)

(** Problems that do not stop the synthesis. *)
Record Diagnostic := { dg_code : string; dg_message : string; dg_table : option string }.

Definition diagnostic (code table message : string) : Diagnostic :=
  {| dg_code := code; dg_message := message; dg_table := Some table |}.

Section synthesis.
Context {jt : JsonText} (doc : Json).

(** The parameters of a path and of a query, each by name in order: the entries of the map keyed by
    location and name. *)
Record Merged := { mg_path : list (string * Json); mg_query : list (string * Json); mg_diags : list Diagnostic }.

Definition with_diag (m : Merged) (d : Diagnostic) : Merged :=
  {| mg_path := mg_path m; mg_query := mg_query m; mg_diags := mg_diags m ++ [d] |}.

(** One turn of the loop of [build_params]. *)
Definition merge_param (table : string) (m : Merged) (param : Json) : Merged :=
  let resolved := deref doc param in
  match as_object resolved with
  | None => with_diag m (diagnostic "OPENAPI_PARAM_INVALID" table "parameter is not an object")
  | Some obj =>
      match obj_get "name" obj ≫= as_str with
      | None => with_diag m (diagnostic "OPENAPI_PARAM_INVALID" table "parameter has no name")
      | Some name =>
          match obj_get "in" obj ≫= as_str with
          | None => m
          | Some location =>
              if decide (location = "path") then
                {| mg_path := obj_insert name resolved (mg_path m); mg_query := mg_query m; mg_diags := mg_diags m |}
              else if decide (location = "query") then
                {| mg_path := mg_path m; mg_query := obj_insert name resolved (mg_query m); mg_diags := mg_diags m |}
              else with_diag m (diagnostic "OPENAPI_PARAM_LOCATION_SKIPPED" table
                     ("`" +:+ location +:+ "` parameter `" +:+ name +:+ "` is not pushed down"))
          end
      end
  end.

Definition scalar_to_string (v : Json) : string := match v with JString s => s | v => json_text v end.

Definition array_of (v : option Json) : list Json := default [] (v ≫= as_array).

Definition param_spec (is_path : bool) (np : string * Json) : ParamSpec :=
  let schema := deref doc <$> get np.2 "schema" in
  {| p_name := np.1;
     p_type := default "varchar" (param_type <$> schema);
     p_required := is_path || default false (get np.2 "required" ≫= as_bool);
     p_default := scalar_to_string <$> (schema ≫= λ s, get s "default");
     p_accepts := []; p_emit := ∅; p_explode := false; p_derive := None; p_filterable := false |}.

Definition build_params (path_level : option Json) (op : Json) (table : string) : list ParamSpec * list Diagnostic :=
  let m := foldl (merge_param table) {| mg_path := []; mg_query := []; mg_diags := [] |}
             (array_of path_level ++ array_of (get op "parameters")) in
  ((param_spec true <$> mg_path m) ++ (param_spec false <$> mg_query m), mg_diags m).

(** ** Responses *)

(** One turn of the loop of [success_schema]: the schemas by status, and that of a range. *)
Definition success_turn (acc : list (N * Json) * option Json) (sr : string * Json) : list (N * Json) * option Json :=
  let '(numeric, range) := acc in
  match c ← get (deref doc sr.2) "content"; j ← get c "application/json"; get j "schema" with
  | None => acc
  | Some schema =>
      match parse_unsigned u16_max sr.1 with
      | Some code => if (200 <=? code)%N && (code <? 300)%N then (numeric ++ [(code, schema)], range) else acc
      | None => if eq_ignore_ascii_case sr.1 "2XX" then (numeric, Some schema) else acc
      end
  end.

(** [min_by_key]: the first of the least. *)
Definition min_code (l : list (N * Json)) : option (N * Json) :=
  foldl (λ best x, match best with
                   | Some b => if (x.1 <? b.1)%N then Some x else Some b
                   | None => Some x
                   end) None l.

Definition success_schema (op : Json) : option Json :=
  responses ← get op "responses"; fields ← as_object responses;
  let '(numeric, range) := foldl success_turn ([], None) fields in
  match List.find (λ cs, (cs.1 =? 200)%N) numeric with
  | Some cs => Some cs.2
  | None => match min_code numeric with Some cs => Some cs.2 | None => range end
  end.

Definition json_column (name : string) : ResponseColumn :=
  {| c_name := name; c_type := "json"; c_source := None; c_expr := None |}.

Definition response_of (path : string) (columns : list ResponseColumn) : ResponseSpec :=
  {| r_path := path; r_schema := columns; r_allow_404_empty := false; r_error := None; r_reshape := None |}.

Definition single_json_response : ResponseSpec := response_of "$" [json_column "value"].

Definition column_leb (a b : ResponseColumn) : bool := str_leb (c_name a) (c_name b).

Definition object_columns (schema : Json) (table : string) : list ResponseColumn * list Diagnostic :=
  match get schema "properties" ≫= as_object with
  | None =>
      ([json_column "value"],
       [diagnostic "OPENAPI_ROW_SCHEMA_OPAQUE" table
          "row schema declares no properties (e.g. polymorphic anyOf); exposing a single json column"])
  | Some props =>
      (sort_by column_leb ((λ kv, {| c_name := kv.1; c_type := column_type (deref doc kv.2);
                                     c_source := None; c_expr := None |}) <$> props), [])
  end.

(** The schema of the items of an array. *)
Definition items_of (schema : Json) : Json := default JNull (deref doc <$> get schema "items").

Definition classify (schema : Json) (table : string) : (string * list ResponseColumn) * list Diagnostic :=
  let columns path schema := let '(cols, diags) := object_columns schema table in ((path, cols), diags) in
  if is_array_schema schema then columns "$" (items_of schema)
  else if is_object schema then
    match props ← get schema "properties"; fields ← as_object props; rows_array doc fields with
    | Some (prop, array) => columns ("$." +:+ prop) (items_of array)
    | None => columns "$" schema
    end
  else (("$", [json_column "value"]),
        [diagnostic "OPENAPI_RESPONSE_UNCLASSIFIED" table
           "response schema is neither array nor object; exposing a single json column"]).

Definition build_response (op : Json) (table : string) : ResponseSpec * list Diagnostic :=
  match success_schema op with
  | None =>
      (single_json_response,
       [diagnostic "OPENAPI_NO_JSON_RESPONSE" table "no 2xx application/json response; exposing a single json column"])
  | Some schema =>
      let '((path, columns), diags) := classify (deref doc schema) table in
      (response_of path columns, diags)
  end.

Definition response_fields (op : Json) : list string :=
  match s ← success_schema op; props ← get (deref doc s) "properties"; as_object props with
  | Some props => props.*1
  | None => []
  end.

(** ** Pagination *)

Definition has_param (params : list ParamSpec) (name : string) : bool :=
  existsb (λ p, bool_decide (p_name p = name)) params.

Definition first_param (params : list ParamSpec) (names : list string) : option string :=
  List.find (has_param params) names.

Definition first_field (fields names : list string) : option string :=
  List.find (λ f, bool_decide (f ∈ fields)) names.

(** The conventions, in the order they are tried. *)
Definition page_pagination (params : list ParamSpec) : option PaginationConfig :=
  if has_param params "page" then
    size ← first_param params ["per_page"; "page_size"; "pageSize"; "limit"];
    Some (Page "page" 1 (Some size) None)
  else None.

Definition offset_pagination (params : list ParamSpec) : option PaginationConfig :=
  offset ← first_param params ["offset"; "skip"];
  if has_param params "limit" then Some (Offset offset "limit" 100) else None.

Definition cursor_pagination (params : list ParamSpec) (fields : list string) : option PaginationConfig :=
  param ← first_param params ["cursor"; "page_token"; "next_token"];
  field ← first_field fields ["next_cursor"; "next_page_token"; "next"];
  Some (Cursor ("$." +:+ field) param).

Definition row_cursor_pagination (params : list ParamSpec) (fields : list string) : option PaginationConfig :=
  param ← first_param params ["starting_after"; "after"];
  flag ← first_field fields ["has_more"; "hasMore"];
  Some (RowCursor param "id" (Some ("$." +:+ flag))).

Definition infer_pagination (params : list ParamSpec) (fields : list string) : option PaginationConfig :=
  match page_pagination params with
  | Some c => Some c
  | None =>
      match offset_pagination params with
      | Some c => Some c
      | None =>
          match cursor_pagination params fields with
          | Some c => Some c
          | None => row_cursor_pagination params fields
          end
      end
  end.

Definition pagination_params (pagination : option PaginationConfig) : list string :=
  match pagination with
  | Some (Cursor _ param) | Some (RowCursor param _ _) => [param]
  | Some (Page param _ size_param _) => param :: option_list size_param
  | Some (Offset param size_param _) => [param; size_param]
  | Some LinkHeader | Some (BodyCursor _ _) | None => []
  end.

Definition mark_filterable (pagination : option PaginationConfig) (p : ParamSpec) : ParamSpec :=
  {| p_name := p_name p; p_type := p_type p; p_required := p_required p; p_default := p_default p;
     p_accepts := p_accepts p; p_emit := p_emit p; p_explode := p_explode p; p_derive := p_derive p;
     p_filterable := bool_decide (p_name p ∉ pagination_params pagination) |}.

(** ** Synthesis *)

(** Substituting the variables of a server's URL by their defaults. *)
Fixpoint template_loop (fuel : nat) (variables : option (list (string * Json))) (out rest : string) : string :=
  match fuel with
  | O => out +:+ rest
  | S fuel =>
      match split_once "{" rest with
      | None => out +:+ rest
      | Some (before, after_open) =>
          match split_once "}" after_open with
          | None => template_loop fuel variables (out +:+ before +:+ "{") after_open
          | Some (name, after_close) =>
              let value := default "" (vs ← variables; v ← obj_get name vs; d ← get v "default"; as_str d) in
              template_loop fuel variables (out +:+ before +:+ value) after_close
          end
      end
  end.

Definition resolve_server_template (url : string) : string :=
  if negb (contains_chr "{" url) then url
  else let variables := v ← get doc "servers"; l ← as_array v; s ← head l; v ← get s "variables"; as_object v in
       template_loop (S (String.length url)) variables "" url.

Definition server_url : option string :=
  v ← get doc "servers"; l ← as_array v;
  url ← head (omap (λ s, get s "url" ≫= as_str) l);
  Some (resolve_server_template url).

Definition operation_description (op : Json) : option string :=
  d ← match get op "summary" with Some s => Some s | None => get op "description" end;
  s ← as_str d;
  let s := trim s in if nonempty s then Some s else None.

Definition selected (opts : SynthOptions) (path : string) (op : Json) : bool :=
  (selector_is_empty (so_include opts) || selector_matches (so_include opts) path op)
  && negb (negb (selector_is_empty (so_exclude opts)) && selector_matches (so_exclude opts) path op).

(** The GET operation of a path item, with the item's own fields. *)
Definition get_operation (item : Json) : option (list (string * Json) * Json) :=
  fields ← as_object item; op ← obj_get "get" fields; op ← as_object op; Some (fields, JObject op).

Definition synth_table (path name : string) (fields : list (string * Json)) (op : Json)
    : HttpTableSpec * list Diagnostic :=
  let '(params, diags1) := build_params (obj_get "parameters" fields) op name in
  let '(response, diags2) := build_response op name in
  let pagination := infer_pagination params (response_fields op) in
  ({| t_name := name; t_endpoint := path; t_method := "GET"; t_params := mark_filterable pagination <$> params;
      t_headers := ∅; t_body := None; t_requests := []; t_response := response; t_pagination := pagination;
      t_description := operation_description op |}, diags1 ++ diags2).

Record Synthesis := { sy_base_url : option string; sy_tables : list HttpTableSpec; sy_diagnostics : list Diagnostic }.

(** The loop over the paths, with the names taken so far. *)
Fixpoint synth_paths (opts : SynthOptions) (paths : list (string * Json)) (taken : gset string)
    : list HttpTableSpec * list Diagnostic :=
  match paths with
  | [] => ([], [])
  | (path, item) :: paths =>
      match get_operation item with
      | None => synth_paths opts paths taken
      | Some (fields, op) =>
          if selected opts path op then
            let name := unique_name (table_name op path (so_naming opts)) taken in
            let '(table, diags) := synth_table path name fields op in
            let '(tables, more) := synth_paths opts paths ({[ name ]} ∪ taken) in
            (table :: tables, diags ++ more)
          else synth_paths opts paths taken
      end
  end.

Inductive SynthError := MissingVersion | UnsupportedVersion (version : string) | MissingPaths.

Definition SynthError_display (e : SynthError) : string :=
  match e with
  | MissingVersion => "OpenAPI document is missing the `openapi` version field"
  | UnsupportedVersion v => "unsupported OpenAPI version `" +:+ v +:+ "` (only 3.0.x is supported)"
  | MissingPaths => "OpenAPI document is missing `paths`"
  end.

Definition table_leb (a b : HttpTableSpec) : bool := str_leb (t_name a) (t_name b).

Definition synthesize (opts : SynthOptions) : result SynthError Synthesis :=
  let? version := ok_or MissingVersion (get doc "openapi" ≫= as_str) in
  if negb (starts_with "3.0." version) then Err (UnsupportedVersion version)
  else
    let? paths := ok_or MissingPaths (get doc "paths" ≫= as_object) in
    let '(tables, diags) := synth_paths opts paths ∅ in
    Ok {| sy_base_url := server_url; sy_tables := sort_by table_leb tables; sy_diagnostics := diags |}.
End synthesis.

(** ** Names are identifiers, and distinct *)

Definition ident_char (c : ascii) : bool := is_lower c || is_digit c || underscore c.

Lemma lower_alnum c : is_alnum c = true → all_chars ident_char (to_ascii_lowercase (chr c)) = true.
Proof. destruct c as [[] [] [] [] [] [] [] []]; vm_compute; done. Qed.

Lemma snake_loop_ident s out prev :
  all_chars ident_char out = true → all_chars ident_char (snake_loop s out prev) = true.
Proof.
  revert out prev. induction s as [|c s IH]; intros out prev Hout; [done|]. cbn [snake_loop].
  destruct (is_alnum c) eqn:Ec; apply IH.
  - rewrite all_chars_app, lower_alnum by done. rewrite andb_true_r. case_match; [|done].
    by rewrite all_chars_app, Hout.
  - case_match; [done|]. by rewrite all_chars_app, Hout.
Qed.

Lemma all_chars_trim_start f g s : all_chars f s = true → all_chars f (trim_start_set g s) = true.
Proof.
  induction s as [|a s IH]; [done|]. cbn [trim_start_set]. intros Hs. destruct (g a); [|done].
  apply IH. cbn in Hs. by apply andb_true_iff in Hs as [_ Hs].
Qed.

Lemma all_chars_trim_end f g s : all_chars f s = true → all_chars f (trim_end_matches g s) = true.
Proof.
  induction s as [|a s IH]; [done|]. cbn [trim_end_matches]. intros [Ha Hs]%andb_true_iff. specialize (IH Hs).
  cbv zeta. destruct (g a && _); [done|]. cbn [all_chars]. by rewrite Ha, IH.
Qed.

Lemma to_snake_ident s : all_chars ident_char (to_snake s) = true.
Proof. by apply all_chars_trim_end, all_chars_trim_start, snake_loop_ident. Qed.

Lemma join_ident l : Forall (λ s, all_chars ident_char s = true) l → all_chars ident_char (join "_" l) = true.
Proof.
  unfold join. induction 1 as [|s l Hs Hl IH]; [done|]. destruct l as [|s' l]; [done|].
  change (all_chars ident_char (s +:+ "_" +:+ String.concat "_" (s' :: l)) = true).
  by rewrite !all_chars_app, Hs, IH.
Qed.

Lemma path_name_ident path : all_chars ident_char (path_name path) = true.
Proof.
  apply join_ident, Forall_forall. intros s Hs. apply list_elem_of_In, filter_In in Hs as [Hs _].
  apply list_elem_of_In, list_elem_of_fmap in Hs as (s' & -> & _). apply to_snake_ident.
Qed.

Lemma path_leaf_ident path : all_chars ident_char (path_leaf path) = true.
Proof. unfold path_leaf. destruct (last _); simpl; [apply to_snake_ident|done]. Qed.

Lemma snake_name_ident raw s : snake_name raw = Some s → all_chars ident_char s = true.
Proof.
  unfold snake_name. destruct raw as [raw|]; [|done]. simpl. case_match; intros; simplify_eq. apply to_snake_ident.
Qed.

(** A name of small letters, digits and underscores. *)
Definition good_name (s : string) : Prop := s ≠ "" ∧ all_chars ident_char s = true.

Lemma table_name_good op path naming : good_name (table_name op path naming).
Proof.
  unfold table_name. match goal with |- good_name (if nonempty ?r then _ else _) => set (raw := r) end.
  assert (all_chars ident_char raw = true) as Hr.
  { unfold raw. destruct naming; [..|destruct (snake_name (first_tag op)) as [tag|] eqn:E].
    - destruct (snake_name (operation_id op)) as [s|] eqn:E; [by apply snake_name_ident in E|apply path_name_ident].
    - apply path_name_ident.
    - rewrite !all_chars_app, (snake_name_ident _ _ E). apply path_leaf_ident.
    - apply path_name_ident. }
  destruct (nonempty raw) eqn:E; [|done]. split; [|done]. intros ->. done.
Qed.

Lemma unique_name_spec base taken :
  unique_name base taken ∉ taken ∧
  (unique_name base taken = base ∨ ∃ n, unique_name base taken = candidate base n).
Proof.
  unfold unique_name. case_decide as Hb; [|by split; [|left]].
  destruct (List.find _ _) as [c|] eqn:E; cbn [default].
  - apply find_some in E as [Hin Hc%bool_decide_eq_true]. split; [done|]. right.
    apply list_elem_of_In, list_elem_of_fmap in Hin as (n & -> & _). by exists n.
  - exfalso. set (cs := candidate base <$> seq 2 (S (size taken))) in *.
    assert (NoDup cs) as Hnd.
    { apply NoDup_fmap_2; [|apply NoDup_seq]. intros n n' Hn. unfold candidate in Hn.
      apply (inj (String.append base)), (inj (String.append "_")), (inj show_N) in Hn. lia. }
    assert ((list_to_set cs : gset string) ⊆ taken) as Hsub.
    { intros c Hc%elem_of_list_to_set. pose proof (find_none _ _ E c) as Hn. 
      specialize (Hn (proj1 (list_elem_of_In _ _) Hc)). apply bool_decide_eq_false in Hn. by destruct (decide (c ∈ taken)). }
    apply subseteq_size in Hsub. rewrite size_list_to_set in Hsub by done.
    unfold cs in Hsub. rewrite length_fmap, length_seq in Hsub. lia.
Qed.

Lemma pretty_ident x s : all_chars ident_char s = true → all_chars ident_char (pretty_N_go x s) = true.
Proof.
  revert s. induction (N.lt_wf_0 x) as [x _ IH]. intros s Hs.
  destruct (decide (x = 0)%N) as [->|]; [by rewrite pretty_N_go_0|].
  rewrite pretty_N_go_step by lia. apply IH; [apply N.div_lt; lia|]. cbn [all_chars]. rewrite Hs, andb_true_r.
  unfold pretty_N_char. by repeat case_match.
Qed.

Lemma digits_ident n : all_chars ident_char (show_N n) = true.
Proof. unfold show_N, pretty, pretty_N. case_decide; [done|]. by apply pretty_ident. Qed.

Lemma unique_name_good base taken : good_name base → good_name (unique_name base taken).
Proof.
  intros [Hne Hb]. destruct (unique_name_spec base taken) as [_ [->|[n ->]]]; [done|]. split.
  - unfold candidate. destruct base; [done|]. by rewrite app_cons'.
  - unfold candidate. by rewrite !all_chars_app, Hb, digits_ident.
Qed.

(** ** Synthesized tables *)

Definition param_types : list string := ["int"; "bigint"; "float"; "double"; "bool"; "varchar"].
Definition column_types : list string := param_types ++ ["date"; "timestamp"; "json"].

Lemma param_type_known `{JsonText} schema : param_type schema ∈ param_types.
Proof.
  unfold param_type, int_type, number_type, param_types. repeat case_match; set_solver.
Qed.

Lemma column_type_known `{JsonText} schema : column_type schema ∈ column_types.
Proof.
  unfold column_type, int_type, number_type, column_types, param_types. repeat case_match; set_solver.
Qed.

Section tables.
Context {jt : JsonText} (doc : Json).

Lemma first_param_has params names n : first_param params names = Some n → n ∈ p_name <$> params.
Proof.
  intros [_ Hh]%find_some. unfold has_param in Hh. apply existsb_exists in Hh as (p & Hp & Hn%bool_decide_eq_true).
  apply list_elem_of_fmap. exists p. split; [done|]. by apply list_elem_of_In.
Qed.

Lemma has_param_in params n : has_param params n = true → n ∈ p_name <$> params.
Proof.
  intros (p & Hp & Hn%bool_decide_eq_true)%existsb_exists. apply list_elem_of_fmap. exists p.
  split; [done|]. by apply list_elem_of_In.
Qed.

(** Pagination is driven by parameters that are declared. *)
Lemma infer_pagination_declared params fields n :
  n ∈ pagination_params (infer_pagination params fields) → n ∈ p_name <$> params.
Proof.
  unfold infer_pagination.
  destruct (page_pagination params) as [c|] eqn:E1.
  { unfold page_pagination in E1. destruct (has_param params "page") eqn:Ep; [|done].
    destruct (first_param _ _) as [size|] eqn:Es; [|done]. cbn [mbind option_bind] in E1. simplify_eq. simpl.
    intros [->|[->|?%elem_of_nil]%elem_of_cons]%elem_of_cons; [by apply has_param_in|by eapply first_param_has|done]. }
  destruct (offset_pagination params) as [c|] eqn:E2.
  { unfold offset_pagination in E2. destruct (first_param _ _) as [o|] eqn:Eo; [|done]. cbn [mbind option_bind] in E2.
    destruct (has_param params "limit") eqn:El; [|done]. simplify_eq. simpl.
    intros [->|[->|?%elem_of_nil]%elem_of_cons]%elem_of_cons; [by eapply first_param_has|by apply has_param_in|done]. }
  destruct (cursor_pagination params fields) as [c|] eqn:E3.
  { unfold cursor_pagination in E3. destruct (first_param _ _) as [o|] eqn:Eo; [|done]. cbn [mbind option_bind] in E3.
    destruct (first_field _ _); [|done]. cbn [mbind option_bind] in E3. simplify_eq. simpl.
    intros ->%list_elem_of_singleton. by eapply first_param_has. }
  unfold row_cursor_pagination. destruct (first_param _ _) as [o|] eqn:Eo; [|simpl; by intros ?%elem_of_nil].
  cbn [mbind option_bind]. destruct (first_field _ _); simpl; [|by intros ?%elem_of_nil].
  intros ->%list_elem_of_singleton. by eapply first_param_has.
Qed.

Lemma param_spec_type b np : p_type (param_spec doc b np) ∈ param_types.
Proof.
  unfold param_spec; cbn [p_type]. destruct (get np.2 "schema"); simpl; [apply param_type_known|].
  unfold param_types. set_solver.
Qed.

Lemma object_columns_types schema table :
  Forall (λ c, c_type c ∈ column_types) (object_columns doc schema table).1.
Proof.
  unfold object_columns. destruct (_ ≫= as_object) as [props|]; cbn [fst].
  - apply Forall_forall. intros c Hc. rewrite elem_of_sort_by in Hc.
    apply list_elem_of_fmap in Hc as (kv & -> & _). apply column_type_known.
  - by repeat constructor.
Qed.

Lemma classify_types schema table : Forall (λ c, c_type c ∈ column_types) (classify doc schema table).1.2.
Proof.
  unfold classify. assert (∀ (p : string) s, Forall (λ c, c_type c ∈ column_types)
    (let '(cols, diags) := object_columns doc s table in ((p, cols), diags)).1.2) as Hcols.
  { intros p s. pose proof (object_columns_types s table) as H. by destruct (object_columns doc s table). }
  case_match; [apply Hcols|]. case_match.
  - case_match; [case_match; apply Hcols|apply Hcols].
  - by repeat constructor.
Qed.

Lemma build_response_types op table :
  Forall (λ c, c_type c ∈ column_types) (r_schema (build_response doc op table).1).
Proof.
  unfold build_response. destruct (success_schema doc op) as [s|].
  - pose proof (classify_types (deref doc s) table) as H. by destruct (classify doc (deref doc s) table) as [[? ?] ?].
  - by repeat constructor.
Qed.

(** A table as the rest of the source expects it: types it knows, and each parameter either a column to
    filter on or driven by the pagination, which drives no others. *)
Definition table_ok (t : HttpTableSpec) : Prop :=
  good_name (t_name t) ∧ t_method t = "GET" ∧
  Forall (λ p, p_type p ∈ param_types) (t_params t) ∧ Forall (λ c, c_type c ∈ column_types) (r_schema (t_response t)) ∧
  (∀ n, n ∈ pagination_params (t_pagination t) → n ∈ p_name <$> t_params t) ∧
  (∀ p, p ∈ t_params t → p_filterable p = bool_decide (p_name p ∉ pagination_params (t_pagination t))).

Lemma synth_table_ok path name fields op : good_name name → table_ok (synth_table doc path name fields op).1.
Proof.
  intros Hn. unfold synth_table. destruct (build_params doc _ op name) as [params diags1] eqn:Ep.
  pose proof (build_response_types op name) as Hr. destruct (build_response doc op name) as [response diags2].
  cbn [fst] in *. split; [done|]. split; [done|]. cbn [t_params t_response t_pagination]. split_and!.
  - apply Forall_fmap. injection Ep as <- _. apply Forall_app. split; apply Forall_fmap, Forall_true; intros np;
      apply param_spec_type.
  - done.
  - intros n Hp%infer_pagination_declared. by rewrite <-list_fmap_compose.
  - intros p (p' & -> & _)%list_elem_of_fmap. done.
Qed.

(** The paths whose GET operation is selected. *)
Definition selected_paths (opts : SynthOptions) (paths : list (string * Json)) : list string :=
  omap (λ pi, '(fields, op) ← get_operation pi.2; if selected opts pi.1 op then Some pi.1 else None) paths.

Lemma synth_paths_spec opts paths taken :
  let tables := (synth_paths doc opts paths taken).1 in
  Forall table_ok tables ∧ t_endpoint <$> tables = selected_paths opts paths ∧
  NoDup (t_name <$> tables) ∧ (∀ n, n ∈ t_name <$> tables → n ∉ taken).
Proof.
  revert taken. induction paths as [|[path item] paths IH]; intros taken; cbn [synth_paths].
  { split; [constructor|]. split; [done|]. split; [constructor|]. by intros n ?%elem_of_nil. }
  unfold selected_paths. cbn [omap list_omap fst snd]. fold (selected_paths opts paths).
  destruct (get_operation item) as [[fields op]|]; cbn [mbind option_bind]; [|apply IH].
  destruct (selected opts path op); [|apply IH]. cbv zeta.
  set (name := unique_name _ taken). specialize (IH ({[ name ]} ∪ taken)).
  assert (good_name name) as Hgood by apply unique_name_good, table_name_good.
  pose proof (synth_table_ok path name fields op Hgood) as Hok.
  assert (t_name (synth_table doc path name fields op).1 = name ∧ t_endpoint (synth_table doc path name fields op).1 = path) as [En Ee].
  { unfold synth_table. destruct (build_params _ _ _ _), (build_response _ _ _). done. }
  destruct (synth_table doc path name fields op) as [table diags]. cbn [fst] in *.
  destruct (synth_paths doc opts paths _) as [tables more]. cbn [fst] in *. destruct IH as (H1 & H2 & H3 & H4).
  rewrite !fmap_cons, En, Ee, H2. split_and!.
  - by constructor.
  - done.
  - constructor; [|done]. intros Hin. apply (H4 _ Hin). set_solver.
  - intros n [->|Hn]%elem_of_cons; [apply unique_name_spec|]. specialize (H4 _ Hn). set_solver.
Qed.

Lemma synthesize_paths opts s :
  synthesize doc opts = Ok s →
  ∃ paths, get doc "paths" ≫= as_object = Some paths ∧ sy_tables s = sort_by table_leb (synth_paths doc opts paths ∅).1.
Proof.
  unfold synthesize. destruct (get doc "openapi" ≫= as_str) as [v|]; [|done].
  cbn [ok_or rbind]. case_match; [done|]. destruct (get doc "paths" ≫= as_object) as [paths|]; [|done].
  cbn [ok_or rbind]. destruct (synth_paths doc opts paths ∅) as [tables diags] eqn:E. intros ?. simplify_eq.
  exists paths. by rewrite E.
Qed.

Lemma synthesize_names opts s : synthesize doc opts = Ok s → NoDup (t_name <$> sy_tables s).
Proof.
  intros (paths & _ & ->)%synthesize_paths. rewrite sort_by_perm. apply synth_paths_spec.
Qed.

(** C21: synthesizing an OpenAPI document gives a table for exactly the paths with a selected GET
    operation, under distinct names (sorted, of small letters, digits and underscores, never empty), with
    parameters and columns of the types the source knows; the pagination drives only parameters that
    the operation declares, and those are the ones a query cannot filter on. *)
Theorem synthesized_tables opts s paths :
  synthesize doc opts = Ok s → get doc "paths" ≫= as_object = Some paths →
  NoDup (t_name <$> sy_tables s) ∧ StronglySorted (λ a b, table_leb a b = true) (sy_tables s) ∧
  t_endpoint <$> sy_tables s ≡ₚ selected_paths opts paths ∧ Forall table_ok (sy_tables s).
Proof.
  intros Hs Hp. split; [by eapply synthesize_names|]. apply synthesize_paths in Hs as (paths' & Hp' & ->).
  rewrite Hp in Hp'. simplify_eq. destruct (synth_paths_spec opts paths' ∅) as (H1 & H2 & _).
  pose proof (sort_by_perm table_leb (synth_paths doc opts paths' ∅).1) as Hperm. split_and!.
  - apply sort_by_sorted; [intros a b; apply str_leb_total|intros a b c; apply str_leb_trans].
  - by rewrite Hperm, H2.
  - by rewrite Hperm.
Qed.
End tables.

(** ** Patterns of paths *)

(** What a pattern means: a star stands for any text, every other character for itself. *)
Inductive Glob : string → string → Prop :=
| Glob_nil : Glob "" ""
| Glob_char c p t : c ≠ "*"%char → Glob p t → Glob (String c p) (String c t)
| Glob_skip p t : Glob p t → Glob (String "*" p) t
| Glob_eat c p t : Glob (String "*" p) t → Glob (String "*" p) (String c t).

(** The parts of a pattern, found one after the other. *)
Fixpoint parts_match (parts : list string) (text : string) : Prop :=
  match parts with
  | [] => False
  | [part] => text = part
  | part :: parts => ∃ skipped rest, text = part +:+ skipped +:+ rest ∧ parts_match parts rest
  end.

Lemma parts_cons part parts text :
  parts ≠ [] → parts_match (part :: parts) text ↔ ∃ skipped rest, text = part +:+ skipped +:+ rest ∧ parts_match parts rest.
Proof. by destruct parts. Qed.

Lemma split_cons_ne c s : split c s ≠ [].
Proof. destruct s as [|a s]; simpl; [done|]. case_decide; [done|]. by destruct (split c s). Qed.

Lemma Glob_parts pattern text : Glob pattern text ↔ parts_match (split "*" pattern) text.
Proof.
  split.
  - induction 1 as [|c p t Hc Hg IH|p t Hg IH|c p t Hg IH]; [done|..].
    + cbn [split]. rewrite decide_False by done. pose proof (split_cons_ne "*" p) as Hne.
      destruct (split "*" p) as [|x [|y l]]; [done|simpl in *; by subst|].
      destruct IH as (sk & rest & -> & Hr). exists sk, rest. by rewrite app_cons'.
    + cbn [split]. rewrite decide_True by done. apply parts_cons; [apply split_cons_ne|]. by exists "", t.
    + cbn [split] in *. rewrite decide_True in * by done. apply parts_cons in IH as (sk & rest & -> & Hr); [|apply split_cons_ne].
      apply parts_cons; [apply split_cons_ne|]. by exists (String c sk), rest.
  - revert text. induction pattern as [|c p IH]; intros text; cbn [split].
    { intros ->. constructor. }
    case_decide as Hc.
    + subst c. intros (sk & rest & -> & Hr)%parts_cons; [|apply split_cons_ne]. rewrite app_nil_l'.
      induction sk as [|a sk IHs]; [rewrite app_nil_l'; by apply Glob_skip, IH|]. rewrite app_cons'. by constructor.
    + pose proof (split_cons_ne "*" p) as Hne. destruct (split "*" p) as [|x [|y l]]; [done| |].
      * intros ->. constructor; [done|]. by apply IH.
      * intros (sk & rest & -> & Hr). rewrite app_cons'. constructor; [done|]. apply IH. by exists sk, rest.
Qed.

(** Text that is skipped may be skipped before. *)
Definition skips_to (parts : list string) (rest : string) : Prop :=
  ∃ skipped text, rest = skipped +:+ text ∧ parts_match parts text.

Lemma skips_more parts x rest : skips_to parts rest → skips_to parts (x +:+ rest).
Proof. intros (sk & t & -> & Ht). exists (x +:+ sk), t. by rewrite app_assoc'. Qed.

(** The first occurrence leaves at least what another leaves. *)
Lemma split_once_str_first part x r :
  ∃ l y, split_once_str part (x +:+ part +:+ r) = Some (l, y +:+ r).
Proof.
  induction x as [|a x IH].
  - rewrite app_nil_l'. exists "", "". rewrite app_nil_l'. pose proof (strip_prefix_app part r) as Hp.
    destruct (part +:+ r); cbn [split_once_str]; by rewrite Hp.
  - rewrite app_cons'. cbn [split_once_str]. destruct (strip_prefix part _) as [r'|] eqn:E.
    + apply strip_prefix_some in E. exists "".
      assert (∀ p q u v, p +:+ u = q +:+ v → String.length p <= String.length q → ∃ y, u = y +:+ v)%nat as Hsuffix.
      { clear. induction p as [|c p IH]; intros [|d q] u v Huv Hl; [by exists ""| |simpl in Hl; lia|].
        - exists (String d q). exact Huv.
        - rewrite !app_cons' in Huv. injection Huv as -> Huv. apply (IH q); [done|]. simpl in Hl. lia. }
      destruct (Hsuffix part (String a x +:+ part) r' r) as [y ->].
      * rewrite <-E. by rewrite !app_cons', app_assoc'.
      * rewrite app_cons'. cbn [String.length]. rewrite length_app'. lia.
      * by exists y.
    + destruct IH as (l & y & ->). by exists (String a l), y.
Qed.

Lemma glob_parts_spec parts rest : parts ≠ [] → glob_parts parts rest = true ↔ skips_to parts rest.
Proof.
  revert rest. induction parts as [|part parts IH]; intros rest Hne; [done|]. cbn [glob_parts].
  destruct parts as [|part' parts].
  { case_decide as Hp.
    - subst. split; [|done]. intros _. exists rest, "". by rewrite app_nil_r'.
    - rewrite ends_with_true. split; [intros [r ->]; by exists r, part|]. intros (sk & t & -> & Ht). simpl in Ht. subst. by exists sk. }
  specialize (λ r, IH r ltac:(done)). case_decide as Hp.
  - subst. rewrite IH. split.
    + intros (sk & t & -> & Ht). exists "", (sk +:+ t). split; [done|]. apply parts_cons; [done|]. by exists sk, t.
    + intros (sk & t & -> & Ht). apply parts_cons in Ht as (sk' & r & -> & Hr); [|done]. rewrite app_nil_l'.
      apply skips_more. by exists sk', r.
  - split.
    + destruct (split_once_str part rest) as [[l r]|] eqn:E; [|done]. intros (sk & t & -> & Ht)%IH.
      apply split_once_str_sound in E as ->. exists l, (part +:+ sk +:+ t). split; [done|]. apply parts_cons; [done|]. by exists sk, t.
    + intros (sk & t & -> & Ht). apply parts_cons in Ht as (sk' & r & -> & Hr); [|done].
      destruct (split_once_str_first part sk (sk' +:+ r)) as (l & y & ->). apply IH, skips_more. by exists sk', r.
Qed.

(** [glob_match], which looks for the parts of a pattern greedily, each at its first occurrence, finds a
    match exactly if there is one: a star stands for any text, every other character for itself. *)
Theorem glob_match_exact pattern text : glob_match pattern text = true ↔ Glob pattern text.
Proof.
  rewrite Glob_parts. unfold glob_match. destruct (contains_chr "*" pattern) eqn:Es; cbn [negb].
  - destruct (split "*" pattern) as [|first parts] eqn:E; [by destruct (split_cons_ne "*" pattern)|].
    assert (parts ≠ []) as Hne.
    { intros ->. pose proof (split_no_sep "*" pattern first) as Hn. rewrite E in Hn.
      enough (first = pattern) by (subst; rewrite Hn in Es by left; done). clear -E.
      revert first E. induction pattern as [|c p IH]; intros first E; cbn [split] in E; [by simplify_eq|].
      case_decide; [simplify_eq; by destruct (split_cons_ne "*" p)|].
      destruct (split "*" p) as [|x l] eqn:E'; [by destruct (split_cons_ne "*" p)|]. simplify_eq. by rewrite (IH x). }
    rewrite parts_cons by done. destruct (strip_prefix first text) as [rest|] eqn:Ep.
    + apply strip_prefix_some in Ep as ->. rewrite glob_parts_spec by done. split.
      * intros (sk & t & -> & Ht). by exists sk, t.
      * intros (sk & t & Heq & Ht). exists sk, t. split; [|done]. by apply (inj (String.append first)) in Heq.
    + split; [done|]. intros (sk & t & -> & _). by rewrite strip_prefix_app in Ep.
  - rewrite bool_decide_eq_true. enough (split "*" pattern = [pattern]) as -> by (simpl; naive_solver). clear -Es.
    induction pattern as [|c p IH]; [done|]. cbn [contains_chr] in Es. apply orb_false_iff in Es as [Hc Hp].
    cbn [split]. rewrite decide_False by (by apply bool_decide_eq_false in Hc). by rewrite IH.
Qed.

(** ** A document *)

(** Pointers through objects only. *)
Definition demo_pointer (doc : Json) (p : string) : option Json :=
  match split "/" p with
  | "" :: keys => foldl (λ v key, v ≫= λ v, get v key) (Some doc) keys
  | _ => None
  end.

Definition demo_text : JsonText := {| pointer := demo_pointer; json_text := λ _, "?" |}.

Definition demo_param (name location ty : string) (required : bool) : Json :=
  JObject [("in", JString location); ("name", JString name); ("required", JBool required);
           ("schema", JObject [("type", JString ty)])].

Definition demo_get (id : string) (params : list Json) (schema : Json) : Json :=
  JObject [("get", JObject
    [("operationId", JString id); ("parameters", JArray params);
     ("responses", JObject [("200", JObject [("content", JObject [("application/json",
        JObject [("schema", schema)])])])])])].

Definition demo_user : Json :=
  JObject [("properties", JObject [("id", JObject [("type", JString "integer")]);
                                   ("email", JObject [("type", JArray [JString "null"; JString "string"])])])].

Definition demo_paths : list (string * Json) :=
  [("/orgs/{org}/users", demo_get "listUsers"
      [demo_param "org" "path" "string" true; demo_param "page" "query" "integer" true;
       demo_param "per_page" "query" "integer" false]
      (JObject [("$ref", JString "#/components/Users")]));
   ("/users", demo_get "list-users" [] demo_user);
   ("/pets", JObject [("post", JObject [])])].

Definition demo_doc : Json :=
  JObject [("components", JObject [("User", demo_user);
              ("Users", JObject [("type", JString "array");
                                 ("items", JObject [("$ref", JString "#/components/User")])])]);
           ("openapi", JString "3.0.3"); ("paths", JObject demo_paths);
           ("servers", JArray [JObject [("url", JString "https://{region}.x{v");
              ("variables", JObject [("region", JObject [("default", JString "eu")])])]])].

Definition select_all : SynthOptions :=
  let all := {| sel_tags := []; sel_paths := []; sel_operations := [] |} in
  {| so_include := all; so_exclude := all; so_naming := ByOperationId |}.

Definition demo_synthesis : option Synthesis :=
  match synthesize (jt := demo_text) demo_doc select_all with Ok s => Some s | Err _ => None end.

(** Names that collide are numbered; the pagination of [list_users] drives its page, which is required. *)
Example demo_tables :
  ((λ s, (sy_base_url s,
          (λ t, (t_name t, t_endpoint t, (λ p, (p_name p, p_required p, p_filterable p)) <$> t_params t,
                 (λ c, (c_name c, c_type c)) <$> r_schema (t_response t))) <$> sy_tables s)) <$> demo_synthesis) =
  Some (Some "https://eu.x{v",
   [("list_users", "/orgs/{org}/users",
       [("org", true, true); ("page", true, false); ("per_page", false, false)],
       [("email", "varchar"); ("id", "bigint")]);
    ("list_users_2", "/users", [], [("email", "varchar"); ("id", "bigint")])]).
Proof. vm_compute. reflexivity. Qed.

(** The required page of [list_users] is no column to filter on, so no query binds it. *)
Example page_not_bound :
  match demo_synthesis with
  | Some {| sy_tables := t :: _ |} =>
      p_name <$> filter (λ p, p_required p = true ∧ p_default p = None ∧ p_filterable p = false) (t_params t) = ["page"]
  | _ => False
  end.
Proof. vm_compute. reflexivity. Qed.

Lemma synthesized_tables_witness :
  match demo_synthesis with
  | Some s => NoDup (t_name <$> sy_tables s) ∧
              t_endpoint <$> sy_tables s ≡ₚ ["/orgs/{org}/users"; "/users"]
  | None => False
  end.
Proof.
  unfold demo_synthesis. destruct (synthesize demo_doc select_all) as [s|e] eqn:E.
  - destruct (synthesized_tables (jt := demo_text) demo_doc select_all s demo_paths E eq_refl) as (H1 & _ & H3 & _).
    split; [exact H1|exact H3].
  - exfalso. vm_compute in E. discriminate E.
Defined.
