(* ===== verification/RawTable.v ===== *)
(** * The raw table of an HTTP source ([crates/pawrly-sources/http/src/raw.rs])
    One request for each path and query that a query's filters name, and a row for each response. The
    batch built of the rows and its projection are left out. *)

From S2P Require Export HttpSample.

(** ** Filters
    DataFusion's expressions, as far as this table looks into them: texts are [Utf8] and [LargeUtf8]
    that are not null, integers [Int64] and [Int32]; [RawOther] is any other with its parts. *)

Inductive RawOperator := RawEq | RawAnd | RawOr | RawOtherOp.

Inductive RawScalar := RawText (s : string) | RawInt (z : Z) | RawOtherScalar.

Inductive RawExpr :=
| RawColumn (name : string)
| RawLiteral (s : RawScalar)
| RawBinary (l : RawExpr) (op : RawOperator) (r : RawExpr)
| RawInList (expr : RawExpr) (list : list RawExpr) (negated : bool)
| RawOther (parts : list RawExpr).

Fixpoint mentions_column (e : RawExpr) (name : string) : bool :=
  match e with
  | RawColumn c => bool_decide (c = name)
  | RawLiteral _ => false
  | RawBinary l _ r => mentions_column l name || mentions_column r name
  | RawInList e list _ => mentions_column e name || existsb (λ e, mentions_column e name) list
  | RawOther parts => existsb (λ e, mentions_column e name) parts
  end.

(** What is handed to the scan, and not looked at again by DataFusion. *)
Inductive PushDown := Exact_ | Unsupported.

Definition supports_filter_pushdown (f : RawExpr) : PushDown :=
  if mentions_column f "request_path" || mentions_column f "request_query" then Exact_ else Unsupported.

Definition scalar_to_string (s : RawScalar) : option string :=
  match s with RawText s => Some s | RawInt z => Some (show_Z z) | RawOtherScalar => None end.

(** An equality of a column and a literal, either way around. *)
Definition column_literal (l r : RawExpr) : option (string * RawScalar) :=
  match l, r with
  | RawColumn c, RawLiteral s | RawLiteral s, RawColumn c => Some (c, s)
  | _, _ => None
  end.

Fixpoint walk (e : RawExpr) (column : string) : list string :=
  match e with
  | RawBinary l RawEq r =>
      match column_literal l r with
      | Some (c, s) => if decide (c = column) then option_list (scalar_to_string s) else []
      | None => []
      end
  | RawBinary l (RawOr | RawAnd) r => walk l column ++ walk r column
  | RawInList (RawColumn c) list false =>
      if decide (c = column)
      then omap (λ e, match e with RawLiteral s => scalar_to_string s | _ => None end) list
      else []
  | _ => []
  end.

Definition collect_eq_or_in (filters : list RawExpr) (column : string) : list string :=
  mjoin ((λ f, walk f column) <$> filters).

(** ** Scanning *)

(** [Url::set_query]. *)
Class UrlQuery := { set_query : Url → string → Url }.

Record RawRow := {
  request_method : string;
  request_path : string;
  request_query : option string;
  response_status : N;
  response_body : string
}.

(** The product of paths and queries. *)
Definition request_pairs (paths queries : list string) : list (string * option string) :=
  match queries with
  | [] => (λ p, (p, None)) <$> paths
  | _ => mjoin ((λ p, (λ q, (p, Some q)) <$> queries) <$> paths)
  end.

Section scan.
Context {w : Web} {uq : UrlQuery} (source : HttpSource).

(** [RequestBuilder::json]: a content type of its own only if there is none. *)
Definition rb_json (value : Json) (b : Builder) : Builder :=
  let b := match b with
           | Ok rq => if existsb (λ kv, bool_decide (kv.1 = "content-type")) (rq_headers rq) then b
                      else rb_header "content-type" "application/json" b
           | Err _ => b
           end in
  rb_body_set (to_string value) b.

Definition raw_url (path : string) (query : option string) : result Fault Url :=
  let? url := map_err (λ e, Plan ("bad url: " +:+ e)) (url_join (s_base_url source) (trim_start_matches "/" path)) in
  let url := match query with Some q => set_query url q | None => url end in
  let? _ := map_err Plan (check_target url (s_base_url source) (s_allowed_hosts source)) in
  Ok url.

(** The body of [custom] credentials. *)
Definition raw_body (b : Builder) : Builder :=
  match custom_body_fields source with
  | [] => b
  | fields => rb_json (JObject (custom_body_object fields)) b
  end.

(** The method that is sent. *)
Definition sent_method (method : string) : string := default "GET" (parse_method method).

(** A failure to build the request or to send it. *)
Definition send_builder (b : Builder) : io SendResult :=
  match b with
  | Ok rq => send_as Sent rq
  | Err chain => ret (Failed false chain)
  end.

(** One turn of the loop over the pairs. *)
Definition raw_request (method : string) (pq : string * option string) : io RawRow :=
  let! url := lift (raw_url pq.1 pq.2) in
  let bare := {| rq_method := sent_method method; rq_url := url; rq_headers := []; rq_body := None |} in
  let! authed := apply_auth source (foldl (λ b kv, rb_header kv.1 kv.2 b) (Ok bare) (s_headers source)) in
  let! b := lift (map_err External authed) in
  let! sent := send_builder (raw_body b) in
  match sent with
  | Failed _ chain => fail (External ("http: " +:+ hd "" chain))
  | Received resp =>
      ret {| request_method := method; request_path := pq.1; request_query := pq.2;
             response_status := rs_status resp;
             response_body := match rs_text resp with Ok text => text | Err _ => "" end |}
  end.

Fixpoint raw_rows (method : string) (pairs : list (string * option string)) : io (list RawRow) :=
  match pairs with
  | [] => ret []
  | pq :: pairs =>
      let! row := raw_request method pq in
      let! rows := raw_rows method pairs in
      ret (row :: rows)
  end.

Definition raw_scan (filters : list RawExpr) : io (list RawRow) :=
  match collect_eq_or_in filters "request_path" with
  | [] => fail (Plan ("raw HTTP table `" +:+ s_name source +:+ "` requires a filter on `request_path` (PAWRLY_SAFETY_REQUIRED_FILTER)"))
  | paths =>
      let queries := collect_eq_or_in filters "request_query" in
      let method := default "GET" (head (collect_eq_or_in filters "request_method")) in
      raw_rows method (request_pairs paths queries)
  end.
End scan.

(** ** Theorems *)

(** A table without anything, to speak of requests of its source. *)
Definition bare_provider (s : HttpSource) : HttpTableProvider :=
  with_safety s {| t_name := ""; t_endpoint := ""; t_method := ""; t_params := []; t_headers := ∅; t_body := None;
    t_requests := []; t_response := {| r_path := ""; r_schema := []; r_allow_404_empty := false; r_error := None;
    r_reshape := None |}; t_pagination := None; t_description := None |} None None.

Section facts.
Context {w : Web} {laws : WebLaws w} {uq : UrlQuery} (source : HttpSource).

Lemma raw_url_approved path query u : raw_url source path query = Ok u → approved (bare_provider source) u.
Proof.
  unfold raw_url, approved. intros H. inv_ok. by destruct x0.
Qed.

Lemma source_headers_aims (Q : Url → Prop) l b : aims Q b → aims Q (foldl (λ b kv, rb_header kv.1 kv.2 b) b l).
Proof. revert b. induction l as [|kv l IH]; intros b Hb; [done|]. by apply IH, rb_header_aims. Qed.

Lemma raw_body_aims Q b : aims Q b → aims Q (raw_body source b).
Proof.
  intros Hb. unfold raw_body. case_match; [done|]. unfold rb_json. apply rb_body_aims.
  destruct b as [rq|]; [|done]. case_match; [done|by apply rb_header_aims].
Qed.

Lemma raw_request_does method pq :
  does (confined (bare_provider source)) (raw_request source method pq)
    (λ row, request_method row = method ∧ request_path row = pq.1 ∧ request_query row = pq.2).
Proof using laws.
  unfold raw_request. eapply does_bind.
  { apply (does_lift _ _ (approved (bare_provider source))). destruct (raw_url _ _ _) as [u|] eqn:Hu; [|done].
    by eapply raw_url_approved. }
  intros url Hu. eapply does_bind.
  { apply (apply_auth_does (bare_provider source)). by apply source_headers_aims. }
  intros r Hr. eapply does_bind.
  { apply (does_lift _ _ (aims (url_confined (bare_provider source)))). by destruct r. }
  intros b Hb. eapply does_bind.
  { instantiate (1 := λ _, True). unfold send_builder. pose proof (raw_body_aims _ _ Hb) as Hrb.
    destruct (raw_body source b); [by apply does_send|by apply does_ret]. }
  intros [resp|] _; [by apply does_ret|apply does_fail].
Qed.

(** C22: whatever the servers answer, a raw scan contacts only targets that the guard lets through,
    its credentials go only to trusted ones, and when it succeeds there is exactly one row for each
    path and query its filters name, in order; without a path nothing is sent. *)
Theorem raw_scan_confined filters :
  runs (λ l, Forall (confined (bare_provider source)) l ∧ (collect_eq_or_in filters "request_path" = [] → l = []))
    (raw_scan source filters)
    (λ r, match r with
          | Ok rows => collect_eq_or_in filters "request_path" ≠ [] ∧
                       (λ row, (request_path row, request_query row)) <$> rows =
                       request_pairs (collect_eq_or_in filters "request_path") (collect_eq_or_in filters "request_query")
          | Err _ => True
          end).
Proof using laws.
  unfold raw_scan. destruct (collect_eq_or_in filters "request_path") as [|path paths].
  { by apply runs_silent. }
  generalize (request_pairs (path :: paths) (collect_eq_or_in filters "request_query")).
  set (method := default "GET" _). intros pairs.
  assert (does (confined (bare_provider source)) (raw_rows source method pairs)
    (λ rows, (λ row, (request_path row, request_query row)) <$> rows = pairs)) as H.
  { induction pairs as [|[p q] pairs IH]; simpl; [by apply does_ret|].
    eapply does_bind; [apply raw_request_does|]. intros row (_ & Hp & Hq).
    eapply does_bind; [apply IH|]. intros rows <-. apply does_ret. rewrite fmap_cons. by rewrite Hp, Hq. }
  intros s. destruct (H s) as (l & Hl & Hc & HQ). exists l. split; [done|]. split; [done|].
  destruct (raw_rows source method pairs s).1; [done|done].
Qed.
End facts.

(** ** What is lost *)

(** DataFusion hands over the filters that are supported, and applies the others to the rows. *)
Definition handed_over (filters : list RawExpr) : list RawExpr :=
  List.filter (λ f, match supports_filter_pushdown f with Exact_ => true | Unsupported => false end) filters.

Definition raw_eq (column value : string) : RawExpr := RawBinary (RawColumn column) RawEq (RawLiteral (RawText value)).

(** A filter on the method does not reach the scan: it sends GET, and the filter then drops the row. *)
Example method_not_handed_over :
  collect_eq_or_in (handed_over [raw_eq "request_path" "/a"; raw_eq "request_method" "POST"]) "request_method" = [].
Proof. reflexivity. Qed.

(** Filters that exclude each other, or that only mention the path, all count as applied. *)
Example filters_taken_as_applied :
  let fs := [RawInList (RawColumn "request_path") [RawLiteral (RawText "/a"); RawLiteral (RawText "/b")] false;
             RawBinary (RawColumn "request_path") RawOtherOp (RawLiteral (RawText "/b"))] in
  handed_over fs = fs ∧ collect_eq_or_in fs "request_path" = ["/a"; "/b"].
Proof. split; reflexivity. Qed.

(** ** A run *)

Definition demo_query : UrlQuery := {| set_query := λ u q, with_text u (u_text u +:+ "?" +:+ q) |}.

Definition demo_filters : list RawExpr :=
  [RawBinary (raw_eq "request_path" "/a") RawOr (raw_eq "request_path" "/b"); raw_eq "request_query" "offset=3"].

Definition demo_run : result Fault (list RawRow) * St (w := web_of offset_server) :=
  raw_scan (w := web_of offset_server) (uq := demo_query) sample_source demo_filters start.

Example demo_rows :
  demo_run.1 = Ok ((λ p, {| request_method := "GET"; request_path := p; request_query := Some "offset=3";
                            response_status := 200; response_body := "45" |}) <$> ["/a"; "/b"]).
Proof. vm_compute. reflexivity. Qed.

Lemma raw_scan_confined_witness :
  ∃ l, st_log demo_run.2 = [] ++ l ∧
    Forall (confined (bare_provider sample_source)) l ∧ length l = 2.
Proof.
  destruct (raw_scan_confined (w := web_of offset_server) (laws := web_of_laws offset_server) (uq := demo_query)
              sample_source demo_filters start) as (l & Hl & [Hc _] & _).
  exists l. split; [exact Hl|]. split; [exact Hc|].
  apply (f_equal length) in Hl. rewrite length_app in Hl. vm_compute in Hl. symmetry. exact Hl.
Defined.
