(* ===== verification/ConfigTypes.v ===== *)
(** * Configuration data ([crates/pawrly-config/src/types.rs], [crates/pawrly-core])
    A parsed workspace configuration, as far as validation looks at it, and the errors it
    reports. Opaque blocks are JSON values. *)

From S2P Require Export Json Guard MetricTypes.

(** [SourceKind]. *)
Inductive SourceKind :=
| KHttp | KFile | KMcp | KSqlite | KPostgres | KMysql | KDuckdb | KSnowflake | KIceberg
| KDucklake | KDelta.
#[export] Instance SourceKind_eq_dec : EqDecision SourceKind.
Proof. solve_decision. Defined.

Definition SourceKind_as_str (k : SourceKind) : string :=
  match k with
  | KHttp => "http" | KFile => "file" | KMcp => "mcp" | KSqlite => "sqlite"
  | KPostgres => "postgres" | KMysql => "mysql" | KDuckdb => "duckdb"
  | KSnowflake => "snowflake" | KIceberg => "iceberg" | KDucklake => "ducklake"
  | KDelta => "delta"
  end.

Definition is_http_shaped (k : SourceKind) : bool :=
  match k with KHttp => true | _ => false end.

(** [FunctionKind]. *)
Inductive FunctionKind := FnHttp | FnMcp | FnFile.
#[export] Instance FunctionKind_eq_dec : EqDecision FunctionKind.
Proof. solve_decision. Defined.

Definition for_source (kind : SourceKind) : option FunctionKind :=
  match kind with
  | KHttp => Some FnHttp
  | KMcp => Some FnMcp
  | KFile => Some FnFile
  | _ => None
  end.

Definition FunctionKind_as_str (k : FunctionKind) : string :=
  match k with FnHttp => "http" | FnMcp => "mcp" | FnFile => "file" end.

Definition RESERVED_FUNCTION_NAMESPACES : list string := ["http"; "file"; "mcp"; "materialized"].

(** The namespaces and names of [builtins()]. *)
Definition builtin_names : list (string * string) :=
  [("http", "get"); ("file", "glob"); ("file", "grep")].

Record FunctionArg := {
  fa_name : string;
  fa_type : string;
  fa_required : bool;
  fa_default : option string;
  fa_description : option string;
  fa_tool_arg : option string
}.
#[export] Instance FunctionArg_eq_dec : EqDecision FunctionArg.
Proof. solve_decision. Defined.

Record FunctionColumn := {
  fc_name : string;
  fc_type : string;
  fc_source : option string;
  fc_description : option string
}.

(** Without its [cache] policy, which is reserved and unused. *)
Record FunctionDecl := {
  fd_name : string;
  fd_description : option string;
  fd_wiki : option string;
  fd_examples : list string;
  fd_namespace : option string;
  fd_kind : option FunctionKind;
  fd_args : list FunctionArg;
  fd_returns : list FunctionColumn;
  fd_config : Json;
  fd_body : Json;
  fd_safety : option SafetyPolicy
}.

(** ** Dynamic variables ([crates/pawrly-core/src/variables.rs]) *)

Record Endpoints := {
  ep_discovery : option string;
  ep_authorization_url : option string;
  ep_device_authorization_url : option string;
  ep_token_url : option string
}.

Inductive TokenTransport := RequestBody | BasicAuth.
Inductive PortMode := RandomPort | FixedPort.
#[export] Instance PortMode_eq_dec : EqDecision PortMode.
Proof. solve_decision. Defined.

Inductive DynamicVarSpec :=
| ClientCredentials (endpoints : Endpoints) (client_id client_secret : string)
    (scope audience : option string) (transport : TokenTransport)
| DeviceCode (endpoints : Endpoints) (client_id : string) (client_secret scope : option string)
| AuthorizationCode (endpoints : Endpoints) (client_id : string) (client_secret : option string)
    (redirect_uri : string) (port_mode : PortMode) (pkce : bool) (scope : option string)
    (transport : TokenTransport).

Record DynamicVarBinding := { bi_name : string; bi_id : string; bi_spec : DynamicVarSpec }.

Definition spec_endpoints (s : DynamicVarSpec) : Endpoints :=
  match s with
  | ClientCredentials e _ _ _ _ _ | DeviceCode e _ _ _ | AuthorizationCode e _ _ _ _ _ _ _ => e
  end.

Definition is_interactive (s : DynamicVarSpec) : bool :=
  match s with ClientCredentials _ _ _ _ _ _ => false | _ => true end.

(** ** The configuration *)

Record TableDef := {
  td_name : string;
  td_description : option string;
  td_wiki : option string;
  td_body : Json;
  td_cache : option CachePolicy;
  td_safety : option SafetyPolicy
}.

(** Without [from] and [variables], which loading has consumed. *)
Record SourceDef := {
  src_name : string;
  src_kind : SourceKind;
  src_description : option string;
  src_wiki : option string;
  src_examples : list string;
  src_config : Json;
  src_tables : list TableDef;
  src_functions : list FunctionDecl;
  src_raw_table : bool;
  src_raw_table_safety : option SafetyPolicy;
  src_cache : CachePolicy;
  src_safety : option SafetyPolicy;
  src_dynamic_vars : list DynamicVarBinding
}.

Record SemanticConfig := {
  sc_models : list SemanticModel;
  sc_metrics : list Metric;
  sc_time_spine : option TimeSpine
}.

Record Config := {
  cfg_version : N;
  cfg_sources : list SourceDef;
  cfg_functions : list FunctionDecl;
  cfg_semantic : option SemanticConfig
}.

(** [ConfigError], without the variants raised outside loading and validation. *)
Inductive ConfigError :=
| ESchema (path msg : string)
| ETable (source_name table msg : string)
| ESource (name msg : string)
| ESemanticInvalid (model msg : string)
| EFunctionInvalid (namespace name msg : string)
| EUnresolvedSecret (name : string)
| EUnresolvedEnv (name : string)
| EVariable (name msg : string)
| EReadFile (path msg : string)
| EIncludeCycle (chain : string)
| EIo (msg : string)
| EYaml (msg : string)
| EUnsupportedVersion (version : N).

(** [MATERIALIZED_SCHEMA] and [SYSTEM_SCHEMA]. *)
Definition MATERIALIZED_NAME : string := "materialized".
Definition SYSTEM_SCHEMA : string := "system".

(** ** Names *)

Definition ident_start (c : ascii) : bool := is_alpha c || bool_decide (c = "_"%char).
Definition ident_char (c : ascii) : bool := is_alnum c || bool_decide (c = "_"%char).

(** [is_valid_identifier]. *)
Definition is_valid_identifier (name : string) : bool :=
  match name with
  | "" => false
  | String c rest => ident_start c && all_chars ident_char rest
  end.

Definition contains_text (pat s : string) : bool := bool_decide (is_Some (split_once_str pat s)).

(** [is_valid_function_ident]. *)
Definition is_valid_function_ident (name : string) : bool :=
  is_valid_identifier name && negb (contains_text "__" name).

(** [is_known_column_type]. *)
Definition known_column_types : list string :=
  ["varchar"; "string"; "text"; "char"; "int"; "integer"; "int32"; "int64"; "bigint"; "long";
   "smallint"; "double"; "float"; "float32"; "float64"; "real"; "decimal"; "numeric"; "bool";
   "boolean"; "timestamp"; "datetime"; "date"].

Definition is_known_column_type (t : string) : bool :=
  bool_decide (to_ascii_lowercase (trim t) ∈ known_column_types).

(** ** Loops that reject repeated keys
    [for x in l { … seen.insert(key) … }]: the body is told whether the key is new. *)
Fixpoint each_seen {A E K} `{Countable K} (key : A → K) (check : bool → A → list E) (seen : gset K)
    (l : list A) : list E :=
  match l with
  | [] => []
  | x :: l => check (bool_decide (key x ∉ seen)) x ++ each_seen key check ({[key x]} ∪ seen) l
  end.

(** [if c { errors.push(e) }]. *)
Definition err_if {E} (c : bool) (e : E) : list E := if c then [e] else [].

Lemma err_if_nil {E} c (e : E) : err_if c e = [] ↔ c = false.
Proof. by destruct c. Qed.

(** A loop that reports every repetition reports nothing exactly when no key is repeated and
    no element is otherwise objected to. *)
Lemma each_seen_nil {A E K} `{Countable K} (key : A → K) (check : bool → A → list E) seen l :
  (∀ x, x ∈ l → check false x ≠ []) →
  each_seen key check seen l = [] ↔
  NoDup (key <$> l) ∧ Forall (λ x, key x ∉ seen ∧ check true x = []) l.
Proof.
  revert seen. induction l as [|x l IH]; intros seen Hdup; csimpl.
  { split; [|done]. split; constructor. }
  rewrite NoDup_cons, Forall_cons, app_nil, IH by (intros; apply Hdup; by right).
  case_bool_decide as Hx.
  - rewrite list.Forall_forall, list.Forall_forall. split.
    + intros (Hc & Hnd & Hall). split_and!; [|done|done|done|].
      * intros Hin. apply list_elem_of_fmap in Hin as (y & Hy & Hin).
        destruct (Hall y Hin) as [Hn _]. rewrite <- Hy in Hn. set_solver.
      * intros y Hin. destruct (Hall y Hin). split; [set_solver|done].
    + intros ((Hni & Hnd) & (_ & Hc) & Hall). split_and!; [done..|].
      intros y Hin. destruct (Hall y Hin). split; [|done].
      apply not_elem_of_union. split; [|done]. intros Heq%elem_of_singleton. apply Hni.
      rewrite <- Heq. by apply list_elem_of_fmap_2.
  - split; [|naive_solver]. intros [Hc _]. exfalso. eapply Hdup; [by left|done].
Qed.
