(* ===== verification/Validate.v ===== *)
(** * Configuration validation ([crates/pawrly-config/src/validator.rs])
    Every rule, in the order the errors are reported. A function that pushes errors returns
    the errors it pushes. *)

From S2P Require Export ConfigTypes.

(** The text of a JSON field. *)
Definition str_at (v : Json) (key : string) : option string := get v key ≫= as_str.

Definition has_str (v : Json) (key : string) : bool := bool_decide (is_Some (str_at v key)).

Definition is_blank (s : string) : bool := bool_decide (trim s = "").

Definition names_of {A} (name : A → string) (l : list A) : gset string := list_to_set (name <$> l).

Definition bad_ident (name : string) : bool :=
  bool_decide (name = "") || negb (is_valid_identifier name).

(** ** Sources *)

(** The test of [config.command] for a child process. *)
Definition has_command (config : Json) : bool :=
  match get config "command" with
  | Some (JString s) => negb (is_blank s)
  | Some (JArray a) => match head a ≫= as_str with Some s => negb (is_blank s) | None => false end
  | _ => false
  end.

(** [is_loopback]. *)
Definition is_loopback (url : Url) : bool :=
  match u_host url with
  | Some (Domain host) => eq_ignore_ascii_case host "localhost"
  | Some (Ipv4 a) => (octet 0 a =? 127)%Z
  | Some (Ipv6 a) => (a =? 1)%Z
  | None => false
  end.

Section sources.
(** The [url] crate. *)
Context (url_parse : string → result string Url) (username : Url → string)
  (password : Url → option string).

(** The rules of a [streamable_http] URL. *)
Definition mcp_url_messages (raw : string) : list string :=
  match url_parse raw with
  | Ok url =>
      (if decide (u_scheme url = "https") then []
       else if decide (u_scheme url = "http") then
         err_if (negb (is_loopback url))
           "MCP `streamable_http` url must use https unless it targets localhost"
       else ["MCP `streamable_http` url has unsupported scheme `" +:+ u_scheme url +:+ "`"])
      ++ err_if (negb (bool_decide (username url = "")) || bool_decide (is_Some (password url)))
           "MCP `streamable_http` url must not embed credentials; use the `auth` block"
  | Err e => ["MCP `streamable_http` url is invalid: " +:+ e]
  end.

(** [validate_mcp]. *)
Definition mcp_messages (config : Json) : list string :=
  match str_at config "transport" with
  | Some transport =>
      if decide (transport = "stdio") then
        err_if (negb (has_command config))
          "`transport: stdio` requires a non-empty `config.command`"
      else if decide (transport = "streamable_http") then
        match str_at config "url" with
        | None => ["`transport: streamable_http` requires `config.url`"]
        | Some raw => mcp_url_messages raw
        end
      else ["`kind: mcp` transport `" +:+ transport
            +:+ "` is not supported (use `stdio` or `streamable_http`)"]
  | None => ["`kind: mcp` requires `config.transport`"]
  end.

Definition validate_mcp (src : SourceDef) : list ConfigError :=
  ESource (src_name src) <$> mcp_messages (src_config src).

Definition any_table_path (src : SourceDef) : bool :=
  existsb (λ t, bool_decide (is_Some (get (td_body t) "path"))) (src_tables src).

Definition file_messages (src : SourceDef) : list string :=
  match get (src_config src) "storage" with
  | Some storage =>
      let ty := str_at storage "type" in
      err_if (negb (bool_decide (ty ∈ [Some "s3"; Some "gcs"; Some "azure"])))
        "`config.storage.type` must be one of `s3`, `gcs`, `azure`"
      ++ err_if (negb (any_table_path src))
           "object-store `kind: file` requires at least one `tables[]` entry with a `path`"
  | None =>
      err_if (negb (has_str (src_config src) "path") && negb (any_table_path src))
        "`kind: file` requires either top-level `config.path` or per-table `path`"
  end.

(** [config.get("database").or_else(|| config.get("dbname"))]. *)
Definition first_key (v : Json) (k1 k2 : string) : option Json :=
  match get v k1 with Some x => Some x | None => get v k2 end.

Definition sql_messages (src : SourceDef) : list string :=
  let config := src_config src in
  let has_db := bool_decide (is_Some (first_key config "database" "dbname" ≫= as_str)) in
  err_if (negb (has_str config "dsn" || has_str config "host" && has_db))
    ("`kind: " +:+ SourceKind_as_str (src_kind src)
     +:+ "` requires `config.dsn` or both `config.host` and `config.database`").

Definition lake_errors (src : SourceDef) : list ConfigError :=
  err_if (bool_decide (src_tables src = []))
    (ESource (src_name src) ("`kind: " +:+ SourceKind_as_str (src_kind src)
       +:+ "` requires at least one `tables[]` entry"))
  ++ mjoin ((λ t,
       err_if (negb (bool_decide (is_Some (first_key (td_body t) "path" "location" ≫= as_str))))
         (ETable (src_name src) (td_name t) "requires a `path` or `location` in its config"))
       <$> src_tables src).

(** The per-kind rules. *)
Definition kind_errors (src : SourceDef) : list ConfigError :=
  let config := src_config src in
  let own := ESource (src_name src) in
  match src_kind src with
  | KFile => own <$> file_messages src
  | KDuckdb => err_if (negb (has_str config "path"))
                 (own "`kind: duckdb` requires `config.path` (a .duckdb file)")
  | KDucklake => err_if (negb (has_str config "catalog"))
                   (own "`kind: ducklake` requires `config.catalog`")
  | KPostgres | KMysql => own <$> sql_messages src
  | KSnowflake =>
      mjoin ((λ key, err_if (negb (has_str config key))
                       (own ("`kind: snowflake` requires `config." +:+ key +:+ "`")))
             <$> ["account"; "user"; "password"])
  | KIceberg | KDelta => lake_errors src
  | KMcp => validate_mcp src
  | KHttp | KSqlite => []
  end.

(** One table of a source. *)
Definition table_errors (src : SourceDef) (fresh : bool) (t : TableDef) : list ConfigError :=
  err_if (negb fresh) (ETable (src_name src) (td_name t) "duplicate table name")
  ++ err_if (bad_ident (td_name t))
       (ETable (src_name src) (td_name t) "table name must be a valid SQL identifier").

(** [validate_source]. *)
Definition validate_source (src : SourceDef) : list ConfigError :=
  (if decide (src_name src = "") then [ESource "<unnamed>" "source `name:` is required"]
   else err_if (negb (is_valid_identifier (src_name src)))
          (ESource (src_name src) "source name must be a valid SQL identifier"))
  ++ err_if (src_raw_table src && negb (is_http_shaped (src_kind src)))
       (ESource (src_name src) ("`raw_table: true` is only valid for HTTP-shaped sources; `"
          +:+ SourceKind_as_str (src_kind src) +:+ "` is not HTTP-shaped"))
  ++ each_seen td_name (table_errors src) ∅ (src_tables src)
  ++ kind_errors src.

(** [validate_engine_source], on the configuration view of the definition. *)
Definition validate_engine_source (view : SourceDef) : list ConfigError :=
  validate_source view
  ++ err_if (bool_decide (src_kind view = KMcp)
             && bool_decide (str_at (src_config view) "transport" = Some "stdio"))
       (ESource (src_name view)
          "`transport: stdio` cannot be added at runtime (it spawns a process on the server host); declare it in pawrly.yaml instead").

(** One source of the configuration. *)
Definition source_errors (fresh : bool) (src : SourceDef) : list ConfigError :=
  err_if (bool_decide (src_name src = MATERIALIZED_NAME))
    (ESource (src_name src) "`materialized` is reserved for materialized tables")
  ++ err_if (bool_decide (src_name src = SYSTEM_SCHEMA))
       (ESource (src_name src) "`system` is reserved for engine system tables")
  ++ err_if (negb fresh) (ESource (src_name src) "duplicate source name")
  ++ validate_source src.
End sources.

(** ** Semantic models *)

(** [source:] parses and its schema is a source; [invalid] makes the error. *)
Definition source_ref_errors (invalid : string → ConfigError) (source_names : gset string)
    (source : string) : list ConfigError :=
  match TableName_parse source with
  | None => [invalid ("`source: " +:+ source +:+ "` must be in `source.table` form")]
  | Some table =>
      err_if (negb (bool_decide (tn_schema table ∈ source_names)))
        (invalid ("`source: " +:+ source +:+ "` references unknown source `"
                  +:+ tn_schema table +:+ "`"))
  end.

(** [split_member_grain]. *)
Definition split_member_grain (s : string) : string * option string :=
  match split_once "." s with
  | Some (name, grain) => (name, Some grain)
  | None => (s, None)
  end.

(** [check_predicate_params]; each round of the loop consumes a placeholder. *)
Definition PARAM_OPEN : string := "${param:".

Fixpoint predicate_loop (fuel : nat) (rest : string) : result string () :=
  match fuel with
  | O => Ok ()
  | S fuel =>
      match split_once_str PARAM_OPEN rest with
      | None => Ok ()
      | Some (_, after) =>
          match split_once "}" after with
          | None => Err "unterminated `${param:...}` placeholder"
          | Some (name, rest) =>
              if bad_ident name then
                Err ("`${param:" +:+ name +:+ "}` is not a valid identifier")
              else predicate_loop fuel rest
          end
      end
  end.

Definition check_predicate_params (pred : string) : result string () :=
  if is_blank pred then Err "predicate is empty"
  else predicate_loop (S (String.length pred)) pred.

(** The finest declared grain of each dimension; a later declaration replaces an earlier. *)
Definition min_grain (grains : list TimeGrain) : option TimeGrain :=
  match grains with
  | [] => None
  | g :: gs => Some (foldl (λ m x, if TimeGrain_rank x <? TimeGrain_rank m then x else m) g gs)
  end.

Definition finest_grains (dims : list Dimension) : gmap string TimeGrain :=
  foldl (λ m d, match min_grain (dim_time_grains d) with
                | Some g => <[dim_name d := g]> m
                | None => m
                end) ∅ dims.

Definition DT_is_time (d : Dimension) : bool := bool_decide (dim_data_type d = DTTime).

Section model.
Context (model_names : gset string) (model : SemanticModel).

Definition invalid (msg : string) : ConfigError := ESemanticInvalid (sm_name model) msg.
Definition dim_names : gset string := names_of dim_name (sm_dimensions model).
Definition measure_names : gset string := names_of mea_name (sm_measures model).

Definition dimension_errors (fresh : bool) (dim : Dimension) : list ConfigError :=
  err_if (bad_ident (dim_name dim))
    (invalid ("dimension `" +:+ dim_name dim +:+ "` name must be a valid SQL identifier"))
  ++ err_if (negb fresh) (invalid ("duplicate dimension `" +:+ dim_name dim +:+ "`"))
  ++ err_if (negb (bool_decide (dim_time_grains dim = [])) && negb (DT_is_time dim))
       (invalid ("dimension `" +:+ dim_name dim
                 +:+ "` declares `grains:` but is not `type: time`")).

Definition measure_errors (fresh : bool) (measure : Measure) : list ConfigError :=
  err_if (bad_ident (mea_name measure))
    (invalid ("measure `" +:+ mea_name measure +:+ "` name must be a valid SQL identifier"))
  ++ err_if (negb fresh) (invalid ("duplicate measure `" +:+ mea_name measure +:+ "`"))
  ++ err_if (bool_decide (mea_name measure ∈ dim_names))
       (invalid ("`" +:+ mea_name measure +:+ "` is used by both a dimension and a measure"))
  ++ match mea_agg measure with
     | AggCustom sql =>
         err_if (is_blank sql)
           (invalid ("measure `" +:+ mea_name measure
                     +:+ "` has a `custom` aggregate with empty `sql`"))
     | _ => []
     end.

Definition relationship_errors (fresh : bool) (rel : Relationship) : list ConfigError :=
  err_if (negb fresh) (invalid ("duplicate relationship `" +:+ rel_name rel +:+ "`"))
  ++ err_if (negb (bool_decide (rel_target_model rel ∈ model_names)))
       (invalid ("relationship `" +:+ rel_name rel +:+ "` targets unknown model `"
                 +:+ rel_target_model rel +:+ "`"))
  ++ err_if (is_blank (rel_join_predicate rel))
       (invalid ("relationship `" +:+ rel_name rel +:+ "` has an empty `on` join predicate")).

(** One dimension of a pre-aggregation. *)
Definition pre_dimension_errors (pre : PreAggregation) (dim_ref : string) : list ConfigError :=
  let '(name, grain) := split_member_grain dim_ref in
  if negb (bool_decide (name ∈ dim_names)) then
    [invalid ("pre-aggregation `" +:+ pre_name pre +:+ "` references unknown dimension `"
              +:+ name +:+ "`")]
  else match grain with
       | None => []
       | Some grain_str =>
           match TimeGrain_parse grain_str with
           | None => [invalid ("pre-aggregation `" +:+ pre_name pre +:+ "` uses invalid grain `"
                               +:+ grain_str +:+ "` on `" +:+ name +:+ "`")]
           | Some g =>
               match finest_grains (sm_dimensions model) !! name with
               | Some finest =>
                   err_if (TimeGrain_rank g <? TimeGrain_rank finest)
                     (invalid ("pre-aggregation `" +:+ pre_name pre +:+ "` grain `" +:+ grain_str
                        +:+ "` on `" +:+ name +:+ "` is finer than the dimension's finest declared grain `"
                        +:+ TimeGrain_as_str finest +:+ "`"))
               | None => []
               end
           end
       end.

Definition pre_aggregation_errors (fresh : bool) (pre : PreAggregation) : list ConfigError :=
  err_if (negb fresh) (invalid ("duplicate pre-aggregation `" +:+ pre_name pre +:+ "`"))
  ++ mjoin (pre_dimension_errors pre <$> pre_dimensions pre)
  ++ mjoin ((λ m, err_if (negb (bool_decide (m ∈ measure_names)))
       (invalid ("pre-aggregation `" +:+ pre_name pre +:+ "` references unknown measure `"
                 +:+ m +:+ "`"))) <$> pre_measures pre)
  ++ match pre_partition_by pre with
     | Some part =>
         let name := (split_member_grain part).1 in
         err_if (negb (bool_decide (name ∈ dim_names)))
           (invalid ("pre-aggregation `" +:+ pre_name pre +:+ "` partitions by unknown dimension `"
                     +:+ name +:+ "`"))
     | None => []
     end.

Definition safety_errors (safety : SafetyPolicy) : list ConfigError :=
  mjoin ((λ col, err_if (negb (bool_decide (col ∈ dim_names)))
    (invalid ("`safety.require_filters_on` references unknown dimension `" +:+ col +:+ "`")))
    <$> sp_require_filters_on safety)
  ++ mjoin ((λ pred, match check_predicate_params pred with
       | Err msg => [invalid ("`safety.required_predicates` entry `" +:+ pred +:+ "`: " +:+ msg)]
       | Ok _ => []
       end) <$> sp_required_predicates safety).

Definition segment_filter_errors (seg : Segment) (f : SemanticFilter) : list ConfigError :=
  match split_once "." (sf_member f) with
  | None => [invalid ("segment `" +:+ seg_name seg +:+ "` filter member `" +:+ sf_member f
                      +:+ "` must be `model.field`")]
  | Some (member_model, rest) =>
      let field := hd rest (split "." rest) in
      err_if (bool_decide (member_model = sm_name model)
              && negb (bool_decide (field ∈ dim_names))
              && negb (bool_decide (field ∈ measure_names)))
        (invalid ("segment `" +:+ seg_name seg +:+ "` references unknown member `"
                  +:+ sf_member f +:+ "`"))
  end.

Definition segment_errors (fresh : bool) (seg : Segment) : list ConfigError :=
  err_if (bad_ident (seg_name seg))
    (invalid ("segment `" +:+ seg_name seg +:+ "` name must be a valid SQL identifier"))
  ++ err_if (negb fresh) (invalid ("duplicate segment `" +:+ seg_name seg +:+ "`"))
  ++ err_if (bool_decide (length (seg_filters seg) = 0))
       (invalid ("segment `" +:+ seg_name seg +:+ "` has no filters"))
  ++ mjoin (segment_filter_errors seg <$> seg_filters seg).

(** The body of [validate_semantic]'s loop. *)
Definition model_errors (source_names : gset string) (fresh : bool) : list ConfigError :=
  err_if (bad_ident (sm_name model)) (invalid "model `name:` must be a valid SQL identifier")
  ++ err_if (negb fresh) (invalid "duplicate model name")
  ++ source_ref_errors invalid source_names (sm_source model)
  ++ each_seen dim_name dimension_errors ∅ (sm_dimensions model)
  ++ each_seen mea_name measure_errors ∅ (sm_measures model)
  ++ each_seen rel_name relationship_errors ∅ (sm_relationships model)
  ++ each_seen pre_name pre_aggregation_errors ∅ (sm_pre_aggregations model)
  ++ match sm_safety model with Some safety => safety_errors safety | None => [] end
  ++ each_seen seg_name segment_errors ∅ (sm_segments model).
End model.

(** [validate_semantic]. *)
Definition validate_semantic (models : list SemanticModel) (source_names : gset string)
    : list ConfigError :=
  let model_names := names_of sm_name models in
  each_seen sm_name (λ fresh m, model_errors model_names m source_names fresh) ∅ models.
