(* ===== verification/MetricCheck.v ===== *)
(** * Validation of metrics ([crates/pawrly-config/src/validator.rs])
    The rules of [metrics:] and [time_spine:], with the search for reference cycles. *)

From S2P Require Export Validate Catalog.

(** ** Cycles *)

(** The metric references of a metric; a metric whose references do not parse has none. *)
Definition metric_refs (m : Metric) : list string :=
  List.filter (λ member, negb (contains_chr "." member))
    (fst <$> default [] (to_option (references m))).

(** The adjacency map; the last metric of a name wins. *)
Definition ref_adjacency (metrics : list Metric) : gmap string (list string) :=
  foldl (λ adj m, <[met_name m := metric_refs m]> adj) ∅ metrics.

(** What the search has finished, and what it found on a cycle. *)
Record Search := { se_done : gset string; se_cyclic : gset string }.

Section visit.
Context (adjacency : gmap string (list string)).

(** [visit]; the stack holds distinct metrics, so the size of the map bounds the depth. *)
Fixpoint visit (fuel : nat) (node : string) (visiting : list string) (s : Search) : Search :=
  match fuel with
  | O => s
  | S fuel =>
      if bool_decide (node ∈ se_done s) then s
      else if bool_decide (node ∈ visiting) then
        {| se_done := se_done s; se_cyclic := {[node]} ∪ se_cyclic s |}
      else
        let s := foldl (λ s n, match adjacency !! n with
                               | Some _ => visit fuel n (visiting ++ [node]) s
                               | None => s
                               end) s (default [] (adjacency !! node)) in
        {| se_done := {[node]} ∪ se_done s; se_cyclic := se_cyclic s |}
  end.
End visit.

Section cycles.
Context `{!HashIter string}.

(** [find_metric_cycles]. *)
Definition find_metric_cycles (metrics : list Metric) : list string :=
  let adjacency := ref_adjacency metrics in
  let fuel := S (S (size adjacency)) in
  let s := foldl (λ s name, visit adjacency fuel name [] s)
             {| se_done := ∅; se_cyclic := ∅ |} (hash_iter (dom adjacency)) in
  sort_strings (hash_iter (se_cyclic s)).

(** ** Metrics *)

(** [check_window_base]. *)
Definition check_window_base (metric measure : string) (models : gmap string SemanticModel)
    : list ConfigError :=
  match split_once "." measure with
  | None => [ESemanticInvalid metric
               ("window metric must reference a `model.measure`, got `" +:+ measure +:+ "`")]
  | Some (model_name, _) =>
      match models !! model_name with
      | None => []
      | Some model =>
          err_if (negb (existsb (λ d, DT_is_time d && negb (bool_decide (dim_time_grains d = [])))
                          (sm_dimensions model)))
            (ESemanticInvalid metric ("model `" +:+ model_name
               +:+ "` declares no `type: time` dimension with grains (a window metric needs an ordering key)"))
      end
  end.

Section metric.
Context (models : gmap string SemanticModel) (metric_names : gset string).

(** The closure [check_member]. *)
Definition check_member (metric member : string) : list ConfigError :=
  let invalid := ESemanticInvalid metric in
  match split_once "." member with
  | Some (model_name, measure) =>
      match models !! model_name with
      | None => [invalid ("references unknown model `" +:+ model_name +:+ "` (in `"
                          +:+ member +:+ "`)")]
      | Some model =>
          err_if (negb (existsb (λ m, bool_decide (mea_name m = measure)) (sm_measures model)))
            (invalid ("references unknown measure `" +:+ member +:+ "` on model `"
                      +:+ model_name +:+ "`"))
      end
  | None => err_if (negb (bool_decide (member ∈ metric_names)))
              (invalid ("references unknown metric `" +:+ member +:+ "`"))
  end.

Definition over_errors (metric dim : string) : list ConfigError :=
  let invalid := ESemanticInvalid metric in
  match split_once "." dim with
  | None => [invalid ("`over` entry `" +:+ dim +:+ "` must be `model.dimension`")]
  | Some (model_name, dim_nm) =>
      match models !! model_name with
      | None => [invalid ("`over` entry `" +:+ dim +:+ "` references unknown model `"
                          +:+ model_name +:+ "`")]
      | Some model =>
          err_if (negb (existsb (λ d, bool_decide (dim_name d = dim_nm)) (sm_dimensions model)))
            (invalid ("`over` entry `" +:+ dim +:+ "` references unknown dimension"))
      end
  end.

Definition metric_kind_errors (m : Metric) : list ConfigError :=
  let name := met_name m in
  let invalid := ESemanticInvalid name in
  match met_kind m with
  | Cumulative measure window _ =>
      match window with
      | Trailing periods => err_if (periods =? 0)%N (invalid "`trailing.periods` must be at least 1")
      | _ => []
      end ++ check_window_base name measure models
  | Offset measure periods _ =>
      err_if (periods =? 0)%N (invalid "`offset.periods` must be at least 1")
      ++ check_window_base name measure models
  | Share measure over _ =>
      err_if (negb (contains_chr "." measure))
        (invalid ("share metric must reference a `model.measure`, got `" +:+ measure +:+ "`"))
      ++ mjoin (over_errors name <$> over)
  | Ratio _ _ | Derived _ => []
  end.

(** The body of the loop over metrics. *)
Definition metric_errors (fresh : bool) (m : Metric) : list ConfigError :=
  let invalid := ESemanticInvalid (met_name m) in
  err_if (bad_ident (met_name m))
    (invalid "metric `name:` must be a valid, dot-free SQL identifier")
  ++ err_if (bool_decide (is_Some (models !! met_name m)))
       (invalid "metric name collides with a model name")
  ++ err_if (negb fresh) (invalid "duplicate metric name")
  ++ match references m with
     | Err msg => [invalid msg]
     | Ok refs => mjoin ((λ r, check_member (met_name m) r.1) <$> refs)
     end
  ++ err_if (match met_filter m with Some f => is_blank f | None => false end)
       (invalid "`filter:` must not be empty")
  ++ metric_kind_errors m.
End metric.

Definition time_spine_errors (source_names : gset string) (spine : TimeSpine) : list ConfigError :=
  let invalid := ESemanticInvalid "time_spine" in
  source_ref_errors invalid source_names (ts_source spine)
  ++ err_if (bad_ident (ts_column spine)) (invalid "`column:` must be a valid SQL identifier").

(** [validate_metrics]. *)
Definition validate_metrics (semantic : SemanticConfig) (source_names : gset string)
    : list ConfigError :=
  let models := collect sm_name (sc_models semantic) in
  let metric_names := names_of met_name (sc_metrics semantic) in
  match sc_time_spine semantic with
  | Some spine => time_spine_errors source_names spine
  | None => []
  end
  ++ each_seen met_name (metric_errors models metric_names) ∅ (sc_metrics semantic)
  ++ ((λ name, ESemanticInvalid name ("metric reference cycle through `" +:+ name +:+ "`"))
      <$> find_metric_cycles (sc_metrics semantic)).
End cycles.
