(* ===== verification/FunctionCheck.v ===== *)
(** * Validation of functions and of a whole configuration
    ([crates/pawrly-config/src/validator.rs]) *)

From S2P Require Export MetricCheck.

(** [push_fn]. *)
Definition push_fn (namespace name msg : string) : ConfigError :=
  EFunctionInvalid namespace name msg.

(** [placeholders]; each round consumes a brace. *)
Fixpoint placeholders_loop (fuel : nat) (rest : string) : list string :=
  match fuel with
  | O => []
  | S fuel =>
      match split_once "{" rest with
      | None => []
      | Some (_, rest) =>
          match split_once "}" rest with
          | None => []
          | Some (name, rest) =>
              (if negb (bool_decide (name = "")) && all_chars ident_char name then [name] else [])
              ++ placeholders_loop fuel rest
          end
      end
  end.

Definition placeholders (template : string) : list string :=
  placeholders_loop (S (String.length template)) template.

(** ** One function *)

Section function.
Context (namespace : string) (f : FunctionDecl).

Definition fail_fn (msg : string) : ConfigError := push_fn namespace (fd_name f) msg.

(** One argument: whether it is new, and whether an optional one came before. *)
Definition arg_errors (fresh optional_seen : bool) (a : FunctionArg) : list ConfigError :=
  err_if (negb (is_valid_function_ident (fa_name a)))
    (fail_fn ("argument `" +:+ fa_name a +:+ "` must be a valid SQL identifier without `__`"))
  ++ err_if (negb fresh) (fail_fn ("duplicate argument `" +:+ fa_name a +:+ "`"))
  ++ err_if (negb (is_known_column_type (fa_type a)))
       (fail_fn ("argument `" +:+ fa_name a +:+ "` has unknown type `" +:+ fa_type a +:+ "`"))
  ++ err_if (fa_required a && bool_decide (is_Some (fa_default a)))
       (fail_fn ("argument `" +:+ fa_name a
                 +:+ "` cannot be both `required` and have a `default`"))
  ++ err_if (fa_required a && optional_seen)
       (fail_fn ("required argument `" +:+ fa_name a
                 +:+ "` must precede all optional/defaulted arguments")).

Fixpoint args_errors (seen : gset string) (optional_seen : bool) (args : list FunctionArg)
    : list ConfigError :=
  match args with
  | [] => []
  | a :: args =>
      arg_errors (bool_decide (fa_name a ∉ seen)) optional_seen a
      ++ args_errors ({[fa_name a]} ∪ seen) (optional_seen || negb (fa_required a)) args
  end.

Definition return_errors (arg_names : gset string) (fresh : bool) (c : FunctionColumn)
    : list ConfigError :=
  err_if (negb (is_valid_function_ident (fc_name c)))
    (fail_fn ("return column `" +:+ fc_name c +:+ "` must be a valid SQL identifier without `__`"))
  ++ err_if (negb fresh) (fail_fn ("duplicate return column `" +:+ fc_name c +:+ "`"))
  ++ err_if (negb (is_known_column_type (fc_type c)))
       (fail_fn ("return column `" +:+ fc_name c +:+ "` has unknown type `" +:+ fc_type c +:+ "`"))
  ++ err_if (bool_decide (fc_source c = Some "arg")
             && negb (bool_decide (fc_name c ∈ arg_names)))
       (fail_fn ("return column `" +:+ fc_name c
          +:+ "` uses `source: arg` but no argument named `" +:+ fc_name c +:+ "` is declared")).

(** Placeholders that name no argument. *)
Definition unknown_placeholders (arg_names : gset string) (where_ : string) (names : list string)
    : list ConfigError :=
  mjoin ((λ name, err_if (negb (bool_decide (name ∈ arg_names)))
    (fail_fn ("`{" +:+ name +:+ "}` in the " +:+ where_ +:+ " names no declared argument")))
    <$> names).

(** A text that is present and not blank. *)
Definition non_blank (v : option string) : option string :=
  match v with Some s => if is_blank s then None else Some s | None => None end.

Definition body_template (f : FunctionDecl) : option string :=
  v ← get (fd_body f) "body";
  match v with
  | JString s => Some s
  | JObject o => obj_get "template" o ≫= as_str
  | _ => None
  end.

(** [validate_http_function]. *)
Definition validate_http_function (standalone : bool) (arg_names : gset string)
    : list ConfigError :=
  match non_blank (str_at (fd_body f) "endpoint") with
  | None => [fail_fn "http function requires a non-empty `endpoint`"]
  | Some endpoint =>
      unknown_placeholders arg_names "http function body"
        (placeholders endpoint
         ++ match body_template f with Some b => placeholders b | None => [] end)
      ++ let absolute := starts_with "http://" endpoint || starts_with "https://" endpoint in
         err_if (standalone && negb absolute
                 && negb (bool_decide (is_Some (non_blank (str_at (fd_config f) "base_url")))))
           (fail_fn "standalone http function needs `config.base_url` unless `endpoint` is absolute")
  end.

(** [validate_mcp_function]. *)
Definition validate_mcp_function (standalone : bool) : list ConfigError :=
  err_if (negb (bool_decide (is_Some (non_blank (str_at (fd_body f) "tool")))))
    (fail_fn "mcp function requires a non-empty `tool`")
  ++ if standalone then
       match str_at (fd_config f) "transport" with
       | Some transport =>
           if decide (transport = "stdio") then
             err_if (negb (has_command (fd_config f)))
               (fail_fn "standalone mcp function with `transport: stdio` requires `config.command`")
           else if decide (transport = "streamable_http") then
             err_if (negb (has_str (fd_config f) "url"))
               (fail_fn "standalone mcp function with `transport: streamable_http` requires `config.url`")
           else [fail_fn ("standalone mcp function transport `" +:+ transport
                          +:+ "` is not supported")]
       | None => [fail_fn "standalone mcp function requires `config.transport`"]
       end
     else [].

(** [validate_file_function]. *)
Definition known_formats : list string := ["csv"; "tsv"; "json"; "jsonl"; "ndjson"; "parquet"].

Definition validate_file_function (arg_names : gset string) : list ConfigError :=
  match non_blank (str_at (fd_body f) "path") with
  | None => [fail_fn "file function requires a non-empty `path`"]
  | Some path =>
      unknown_placeholders arg_names "file function path" (placeholders path)
      ++ match str_at (fd_body f) "format" with
         | Some format =>
             err_if (negb (bool_decide (to_ascii_lowercase (trim format) ∈ known_formats)))
               (fail_fn ("file function `format: " +:+ format +:+ "` is not a known format"))
         | None => []
         end
  end.

(** [validate_one_function]. *)
Definition validate_one_function (kind : FunctionKind) (standalone : bool) : list ConfigError :=
  let arg_names := names_of fa_name (fd_args f) in
  err_if (negb (is_valid_function_ident (fd_name f)))
    (fail_fn "function name must be a valid SQL identifier without `__`")
  ++ err_if (negb (is_valid_function_ident namespace))
       (fail_fn "namespace must be a valid SQL identifier without `__`")
  ++ args_errors ∅ false (fd_args f)
  ++ err_if (bool_decide (length (fd_returns f) = 0))
       (fail_fn "`returns:` must declare at least one column")
  ++ each_seen fc_name (return_errors arg_names) ∅ (fd_returns f)
  ++ match kind with
     | FnHttp => validate_http_function standalone arg_names
     | FnMcp => validate_mcp_function standalone
     | FnFile => validate_file_function arg_names
     end.
End function.

(** ** All functions *)

Definition DUPLICATE_FN : string :=
  "duplicate function `namespace.name` (also matches a builtin or another declaration)".

Definition is_null_json (v : Json) : bool := match v with JNull => true | _ => false end.

(** One attached function; the names taken so far are threaded through. *)
Definition attached_errors (src : SourceDef) (st : gset (string * string) * list ConfigError)
    (f : FunctionDecl) : gset (string * string) * list ConfigError :=
  let '(seen, errors) := st in
  let ns := src_name src in
  let fail := push_fn ns (fd_name f) in
  let errors := errors
    ++ err_if (bool_decide (is_Some (fd_namespace f)))
         (fail "attached function must not set `namespace`; it is inherited from the source")
    ++ err_if (negb (is_null_json (fd_config f)))
         (fail "attached function must not set `config`; it is inherited from the source") in
  match for_source (src_kind src) with
  | None =>
      (seen, errors ++ [fail
        ("functions can only be attached to http, mcp, or file sources; source `"
         +:+ ns +:+ "` is `" +:+ SourceKind_as_str (src_kind src) +:+ "`")])
  | Some kind =>
      let errors := errors
        ++ match fd_kind f with
           | Some declared =>
               err_if (negb (bool_decide (declared = kind)))
                 (fail ("attached function `kind: " +:+ FunctionKind_as_str declared
                        +:+ "` does not match source kind `"
                        +:+ SourceKind_as_str (src_kind src) +:+ "`"))
           | None => []
           end
        ++ err_if (bool_decide (fd_name f ∈ names_of td_name (src_tables src)))
             (fail "function name collides with a table of the same name in this source")
        ++ validate_one_function ns f kind false
        ++ err_if (bool_decide ((ns, fd_name f) ∈ seen)) (fail DUPLICATE_FN) in
      ({[(ns, fd_name f)]} ∪ seen, errors)
  end.

(** One standalone function. *)
Definition standalone_errors (source_names : gset string)
    (st : gset (string * string) * list ConfigError) (f : FunctionDecl)
    : gset (string * string) * list ConfigError :=
  let '(seen, errors) := st in
  match fd_namespace f with
  | None => (seen, errors ++ [push_fn "?" (fd_name f)
                                "standalone function requires an explicit `namespace`"])
  | Some ns =>
      let fail := push_fn ns (fd_name f) in
      match fd_kind f with
      | None => (seen, errors ++ [fail "standalone function requires an explicit `kind`"])
      | Some kind =>
          let errors := errors
            ++ err_if (bool_decide (ns ∈ RESERVED_FUNCTION_NAMESPACES))
                 (fail ("namespace `" +:+ ns +:+ "` is reserved"))
            ++ err_if (bool_decide (ns ∈ source_names))
                 (fail ("namespace `" +:+ ns
                    +:+ "` collides with a source name; attach the function to that source instead"))
            ++ validate_one_function ns f kind true
            ++ err_if (bool_decide ((ns, fd_name f) ∈ seen)) (fail DUPLICATE_FN) in
          ({[(ns, fd_name f)]} ∪ seen, errors)
      end
  end.

(** [validate_functions]. *)
Definition validate_functions (cfg : Config) (source_names : gset string) : list ConfigError :=
  let st := foldl (λ st src, foldl (attached_errors src) st (src_functions src))
              (list_to_set builtin_names, []) (cfg_sources cfg) in
  (foldl (standalone_errors source_names) st (cfg_functions cfg)).2.

(** ** The whole configuration *)

Section validate.
Context `{!HashIter string}.
Context (url_parse : string → result string Url) (username : Url → string)
  (password : Url → option string).

(** [validate]. *)
Definition validate (cfg : Config) : list ConfigError :=
  let seen := names_of src_name (cfg_sources cfg) in
  err_if (negb (bool_decide (cfg_version cfg = 1%N))) (EUnsupportedVersion (cfg_version cfg))
  ++ each_seen src_name (source_errors url_parse username password) ∅ (cfg_sources cfg)
  ++ match cfg_semantic cfg with
     | Some semantic =>
         validate_semantic (sc_models semantic) seen ++ validate_metrics semantic seen
     | None => []
     end
  ++ validate_functions cfg seen.
End validate.
