(* ===== verification/MetricCheckProps.v ===== *)
(** * The search for metric cycles is exact *)

From S2P Require Export FunctionCheck.

(** ** Cycles and well-founded points *)

Lemma tc_first {A} (R : A → A → Prop) x z : tc R x z → ∃ y, R x y ∧ rtc R y z.
Proof. intros [x' y' H|x' y' z' H Hyz]; [by exists y'|]. exists y'. split; [done|by apply tc_rtc]. Qed.

Lemma Acc_no_cycle {A} (R : A → A → Prop) x : Acc (flip R) x → ¬ tc R x x.
Proof.
  induction 1 as [x _ IH]. intros (y & Hxy & Hyx)%tc_first.
  apply (IH y Hxy). eapply tc_rtc_l; [exact Hyx|]. by apply tc_once.
Qed.

Section visit.
Context (adj : gmap string (list string)).

(** [x] refers to the known metric [y]. *)
Definition ref_edge (x y : string) : Prop :=
  ∃ l, adj !! x = Some l ∧ y ∈ l ∧ is_Some (adj !! y).

Lemma ref_edge_child x y : y ∈ default [] (adj !! x) → is_Some (adj !! y) → ref_edge x y.
Proof. unfold ref_edge. destruct (adj !! x) as [l|]; [eauto|]. by intros ?%elem_of_nil. Qed.

(** The loop over the references of [node]. *)
Definition visit_refs (fuel : nat) (node : string) (visiting l : list string) (s : Search) : Search :=
  foldl (λ s n, match adj !! n with
                | Some _ => visit adj fuel n (visiting ++ [node]) s
                | None => s
                end) s l.

Lemma visit_eq fuel node visiting s :
  visit adj (S fuel) node visiting s =
    if bool_decide (node ∈ se_done s) then s
    else if bool_decide (node ∈ visiting) then
      {| se_done := se_done s; se_cyclic := {[node]} ∪ se_cyclic s |}
    else
      let s := visit_refs fuel node visiting (default [] (adj !! node)) s in
      {| se_done := {[node]} ∪ se_done s; se_cyclic := se_cyclic s |}.
Proof. done. Qed.

(** *** Everything reported is on a cycle *)

Definition on_cycles (s : Search) : Prop := ∀ x, x ∈ se_cyclic s → tc ref_edge x x.

Lemma visit_sound fuel node visiting s :
  on_cycles s → (∀ y, y ∈ visiting → tc ref_edge y node) →
  on_cycles (visit adj fuel node visiting s).
Proof.
  revert node visiting s; induction fuel as [|fuel IH]; intros node visiting s Hs Hv; [done|].
  rewrite visit_eq. case_bool_decide as Hd; [done|]. case_bool_decide as Hin.
  { intros x Hx. simpl in Hx. apply elem_of_union in Hx as [->%elem_of_singleton|]; auto. }
  simpl. unfold on_cycles; simpl. unfold visit_refs.
  assert (∀ l s, (∀ n, n ∈ l → n ∈ default [] (adj !! node)) → on_cycles s →
    on_cycles (visit_refs fuel node visiting l s)) as Hloop; [|by apply Hloop].
  clear s Hs Hd. unfold visit_refs. induction l as [|n l IHl]; intros s Hl Hs; [done|]. cbn [foldl].
  apply IHl; [intros; apply Hl; by right|]. destruct (adj !! n) eqn:Hn; [|done].
  apply IH; [done|]. assert (ref_edge node n) as He
    by (apply ref_edge_child; [apply Hl; by left|by rewrite Hn]).
  intros y [Hy| ->%list_elem_of_singleton]%elem_of_app; [|by apply tc_once].
  eapply tc_r; [by apply Hv|done].
Qed.

(** *** What is finished is well founded, unless something was reported *)

Definition grows (s s' : Search) : Prop :=
  se_done s ⊆ se_done s' ∧ se_cyclic s ⊆ se_cyclic s'.

#[local] Instance grows_preorder : PreOrder grows.
Proof. split; [by split|]. intros ??? [] []. split; etrans; eauto. Qed.

Lemma visit_refs_grows fuel node visiting l s :
  (∀ n v s, grows s (visit adj fuel n v s)) → grows s (visit_refs fuel node visiting l s).
Proof.
  intros IH. unfold visit_refs. revert s. induction l as [|n l IHl]; intros s; [done|]. cbn [foldl].
  etrans; [|apply IHl]. by destruct (adj !! n).
Qed.

Lemma visit_grows fuel node visiting s : grows s (visit adj fuel node visiting s).
Proof.
  revert node visiting s; induction fuel as [|fuel IH]; intros node visiting s; [done|].
  rewrite visit_eq. case_bool_decide; [done|]. case_bool_decide; [split; simpl; set_solver|].
  destruct (visit_refs_grows fuel node visiting (default [] (adj !! node)) s IH).
  split; simpl; set_solver.
Qed.

Definition finished_acc (s : Search) : Prop := ∀ x, x ∈ se_done s → Acc (flip ref_edge) x.

(** The stack: distinct known metrics, fewer than the fuel leaves room for. *)
Definition stack_fits (fuel : nat) (visiting : list string) : Prop :=
  NoDup visiting ∧ (∀ y, y ∈ visiting → is_Some (adj !! y)) ∧
  S (size adj) < fuel + length visiting.

Lemma stack_fits_fuel fuel visiting : stack_fits fuel visiting → fuel ≠ 0.
Proof.
  intros (Hnd & Hk & Hlt) ->.
  assert (length visiting ≤ size adj); [|lia].
  rewrite <- size_dom, <- (size_list_to_set (C:=gset string)) by done.
  apply subseteq_size. intros x Hx%elem_of_list_to_set. by apply elem_of_dom, Hk.
Qed.

Lemma visit_acc fuel node visiting s :
  stack_fits fuel visiting → is_Some (adj !! node) → finished_acc s →
  se_cyclic (visit adj fuel node visiting s) = ∅ →
  node ∈ se_done (visit adj fuel node visiting s)
  ∧ finished_acc (visit adj fuel node visiting s).
Proof.
  revert node visiting s; induction fuel as [|fuel IH]; intros node visiting s Hst Hn Hs.
  { by apply stack_fits_fuel in Hst. }
  rewrite visit_eq. case_bool_decide as Hd; [done|]. case_bool_decide as Hv; [simpl; set_solver|].
  simpl. destruct Hst as (Hnd & Hk & Hlt).
  assert (stack_fits fuel (visiting ++ [node])) as Hst'.
  { split_and!; [|intros y [?| ->%list_elem_of_singleton]%elem_of_app; auto
                 |rewrite length_app; simpl; lia].
    apply NoDup_app. split_and!; [done| |apply NoDup_singleton].
    by intros x Hx ->%list_elem_of_singleton. }
  assert (∀ l s, finished_acc s → se_cyclic (visit_refs fuel node visiting l s) = ∅ →
    (∀ n, n ∈ l → is_Some (adj !! n) → n ∈ se_done (visit_refs fuel node visiting l s))
    ∧ finished_acc (visit_refs fuel node visiting l s)) as Hloop.
  { clear s Hs Hd. unfold visit_refs. induction l as [|n l IHl]; intros s Hs; cbn [foldl].
    { intros _. split; [by intros ? ?%elem_of_nil|done]. }
    intros Hc. destruct (adj !! n) as [r|] eqn:Hr.
    - pose proof (visit_refs_grows fuel node visiting l
        (visit adj fuel n (visiting ++ [node]) s) (visit_grows fuel)) as [Hgd Hgc].
      destruct (IH n (visiting ++ [node]) s Hst' ltac:(by rewrite Hr) Hs) as [Hin Hacc].
      { unfold visit_refs in Hgc. rewrite Hc in Hgc. set_solver. }
      destruct (IHl _ Hacc Hc) as [H1 H2]. split; [|done].
      intros m [->|Hm]%elem_of_cons ?; [by apply Hgd|auto].
    - destruct (IHl s Hs Hc) as [H1 H2]. split; [|done].
      intros m [->|Hm]%elem_of_cons [??]; [congruence|eauto]. }
  intros Hc. destruct (Hloop (default [] (adj !! node)) s Hs Hc) as [Hin Hacc].
  split; [set_solver|]. intros x [->%elem_of_singleton|?]%elem_of_union; [|auto].
  constructor. intros y (l & Hl & Hy & Hsome). apply Hacc, Hin; [by rewrite Hl|done].
Qed.
End visit.

Section cycles.
Context `{!HashIter string}.

(** The references of a list of metrics. *)
Definition metric_edge (metrics : list Metric) : string → string → Prop :=
  ref_edge (ref_adjacency metrics).

Definition search (adj : gmap string (list string)) (names : list string) (s : Search) : Search :=
  foldl (λ s name, visit adj (S (S (size adj))) name [] s) s names.

Lemma search_sound adj names s : on_cycles adj s → on_cycles adj (search adj names s).
Proof.
  unfold search. revert s. induction names as [|n names IH]; intros s Hs; [done|]. cbn [foldl].
  apply IH, visit_sound; [done|by intros ? ?%elem_of_nil].
Qed.

Lemma search_grows adj names s : grows s (search adj names s).
Proof.
  unfold search. revert s. induction names as [|n names IH]; intros s; [done|]. cbn [foldl].
  destruct (IH (visit adj (S (S (size adj))) n [] s)), (visit_grows adj (S (S (size adj))) n [] s).
  split; etrans; eauto.
Qed.

Lemma search_acc adj names s :
  (∀ n, n ∈ names → is_Some (adj !! n)) → finished_acc adj s →
  se_cyclic (search adj names s) = ∅ →
  ∀ n, n ∈ names → Acc (flip (ref_edge adj)) n.
Proof.
  revert s. induction names as [|n names IH]; intros s Hk Hs Hc m Hm; [by inversion Hm|].
  change (search adj (n :: names) s) with (search adj names (visit adj (S (S (size adj))) n [] s)) in Hc.
  pose proof (search_grows adj names (visit adj (S (S (size adj))) n [] s)) as [_ Hg].
  destruct (visit_acc adj (S (S (size adj))) n [] s) as [Hin Hacc];
    [split_and!; [constructor|by intros ? ?%elem_of_nil|simpl; lia]|apply Hk; by left|done| |].
  { rewrite Hc in Hg. set_solver. }
  apply elem_of_cons in Hm as [->|Hm]; [by apply Hacc|].
  eapply IH; eauto. intros; apply Hk; by right.
Qed.

Lemma sort_hash_nil (X : gset string) : sort_strings (hash_iter X) = [] ↔ X = ∅.
Proof.
  split.
  - intros H. apply set_eq. intros x. split; [|done]. intros Hx%elem_of_hash_iter.
    rewrite <- (elem_of_sort_by str_leb) in Hx. unfold sort_strings in H. rewrite H in Hx.
    by inversion Hx.
  - intros ->. apply Permutation_nil. unfold sort_strings. rewrite sort_by_perm, hash_iter_perm.
    by rewrite elements_empty.
Qed.

Lemma acyclic_metrics metrics :
  find_metric_cycles metrics = [] → ∀ x, Acc (flip (metric_edge metrics)) x.
Proof.
  unfold find_metric_cycles. rewrite sort_hash_nil.
  intros Hc x. unfold metric_edge in *. set (adj := ref_adjacency metrics) in *.
  destruct (adj !! x) as [l|] eqn:Hx.
  - eapply (search_acc adj (hash_iter (dom adj))); [| |exact Hc|].
    + intros n Hn%elem_of_hash_iter. by apply elem_of_dom.
    + intros y Hy. simpl in Hy. set_solver.
    + apply elem_of_hash_iter, elem_of_dom. eauto.
  - constructor. intros y (l & Hl & _). congruence.
Qed.

(** C35: the validator's search for metric cycles is exact, in whatever order the hash maps
    iterate: it reports nothing exactly when no metric refers back to itself through a chain
    of references, and each name it reports does. *)
Theorem find_metric_cycles_exact metrics :
  (find_metric_cycles metrics = [] ↔ ∀ x, ¬ tc (metric_edge metrics) x x)
  ∧ ∀ x, x ∈ find_metric_cycles metrics → tc (metric_edge metrics) x x.
Proof.
  assert (∀ x, x ∈ find_metric_cycles metrics → tc (metric_edge metrics) x x) as Hs.
  { intros x Hx. unfold find_metric_cycles, sort_strings in Hx.
    rewrite elem_of_sort_by in Hx. apply elem_of_hash_iter in Hx.
    eapply (search_sound (ref_adjacency metrics)); [|exact Hx]. intros y Hy. simpl in Hy. set_solver. }
  split; [|done]. split.
  - intros H x. by apply Acc_no_cycle, acyclic_metrics.
  - intros H. destruct (find_metric_cycles metrics) as [|x l]; [done|].
    exfalso. apply (H x), Hs. by left.
Qed.
End cycles.
