(* ===== verification/ValidateProps.v ===== *)
(** * What validation guarantees
    A configuration without errors cannot make the compiler fail on its own: metrics expand,
    and required predicates bind, whatever the query. *)

From S2P Require Export MetricCheckProps MetricProps.

Lemma mjoin_nil {A} (l : list (list A)) : mjoin l = [] ↔ Forall (λ x, x = []) l.
Proof.
  induction l as [|x l IH]; [by split|]. rewrite Forall_cons, <- IH. simpl.
  split; [by intros [? ?]%app_nil|by intros [-> ->]].
Qed.

(** Splits a hypothesis that a concatenation of errors is empty. *)
Ltac no_errors :=
  repeat match goal with
  | H : _ ++ _ = [] |- _ =>
      let H1 := fresh "Hno" in apply app_nil in H as [H1 H]
  | H : err_if _ _ = [] |- _ => apply err_if_nil in H
  end.

(** ** The catalog of a configuration *)

Lemma collect_fmap {A B} (name : A → string) (f : A → B) l (m : gmap string A) (n : gmap string B) :
  n = f <$> m →
  foldl (λ n x, <[name x := f x]> n) n l = f <$> foldl (λ m x, <[name x := x]> m) m l.
Proof.
  revert m n. induction l as [|x l IH]; intros m n ->; [done|]. cbn [foldl]. apply IH.
  by rewrite fmap_insert.
Qed.

Lemma ref_adjacency_collect mets : ref_adjacency mets = metric_refs <$> collect met_name mets.
Proof. apply collect_fmap. by rewrite fmap_empty. Qed.

(** ** Metrics *)

(** What only the query is to blame for. *)
Definition query_error (e : SemanticError) : Prop :=
  match e with
  | MetricNeedsTimeGrain _ | ShareDimNotGrouped _ _ => True
  | Compile msg => ∃ name, msg = "metric `" +:+ name
      +:+ "`: group by exactly one time-grained dimension (found several)"
  | _ => False
  end.

Section expansion.
Context (semantic : SemanticConfig) (q : SemanticQuery) (time_dims : list (string * TimeGrain))
  (dims_alias : string).

Definition config_catalog : SemanticCatalog :=
  with_time_spine (new_with_metrics (sc_models semantic) (sc_metrics semantic))
    (sc_time_spine semantic).

Local Notation c := config_catalog.
Local Notation known := (names_of met_name (sc_metrics semantic)).

Context (Hmetrics : ∀ m, m ∈ sc_metrics semantic →
  metric_errors (collect sm_name (sc_models semantic)) known true m = []).

Lemma known_metric name : name ∈ known → is_Some (metrics c !! name).
Proof.
  unfold names_of. intros Hn%elem_of_list_to_set. apply list_elem_of_fmap in Hn as (m & -> & Hm).
  by apply collect_some.
Qed.

Lemma metric_checked name m :
  metrics c !! name = Some m →
  metric_errors (collect sm_name (sc_models semantic)) known true m = [] ∧ met_name m = name.
Proof using Hmetrics. intros [Hn Hin]%collect_named. auto. Qed.

(** A checked member with a dot has a leaf; one without is a metric. *)
Lemma leaf_checked metric member filters st e :
  dotted member = true →
  check_member (collect sm_name (sc_models semantic)) known metric member = [] →
  leaf c member filters st ≠ Err e.
Proof.
  intros Hd Hc. unfold check_member in Hc. unfold dotted in Hd.
  destruct (split_once "." member) as [[mn me]|] eqn:Hs.
  2: { apply split_once_none in Hs. congruence. }
  unfold leaf, new_leaf. destruct (ex_leaf_index st !! _); [done|].
  destruct filters; simpl; [done|]. rewrite Hs. simpl.
  destruct (collect sm_name (sc_models semantic) !! mn) as [model|] eqn:Hm; [|done].
  simpl. no_errors. apply negb_false_iff, existsb_exists in Hc as (m & Hin & Hn).
  unfold find_measure. destruct (List.find _ _) eqn:Hf; simpl; [done|].
  exfalso. pose proof (List.find_none _ _ Hf m Hin) as H. simpl in H. congruence.
Qed.

Lemma member_checked m refs b f :
  metric_errors (collect sm_name (sc_models semantic)) known true m = [] →
  references m = Ok refs → (b, f) ∈ refs →
  check_member (collect sm_name (sc_models semantic)) known (met_name m) b = [].
Proof.
  intros He Hr Hin. unfold metric_errors in He. no_errors. rewrite Hr in Hno2.
  apply mjoin_nil in Hno2. rewrite Forall_fmap, list.Forall_forall in Hno2.
  by apply (Hno2 (b, f)).
Qed.

Lemma refs_parse m :
  metric_errors (collect sm_name (sc_models semantic)) known true m = [] →
  ∃ refs, references m = Ok refs.
Proof.
  intros He. unfold metric_errors in He. no_errors. destruct (references m); [eauto|done].
Qed.

Lemma check_member_metric metric b :
  dotted b = false →
  check_member (collect sm_name (sc_models semantic)) known metric b = [] → b ∈ known.
Proof.
  unfold dotted, check_member. intros Hd. apply split_once_none in Hd. rewrite Hd.
  intros H. no_errors. by apply negb_false_iff, bool_decide_eq_true in H.
Qed.

Lemma window_axis_query name e : window_axis q time_dims name = Err e → query_error e.
Proof.
  unfold window_axis. destruct time_dims as [|[d g] []]; intros [= <-]; [done|]. by exists name.
Qed.

Lemma split_once_dotted b : is_Some (split_once "." b) → dotted b = true.
Proof.
  unfold dotted. intros [x Hx]. apply not_false_iff_true. rewrite <- split_once_none. congruence.
Qed.

Lemma window_base_dotted name measure :
  check_window_base name measure (collect sm_name (sc_models semantic)) = [] → dotted measure = true.
Proof.
  intros H. apply split_once_dotted. unfold check_window_base in H.
  destruct (split_once "." measure); [eauto|done].
Qed.

Lemma share_grouped name over e :
  try_each (λ dim, if bool_decide (dim ∈ q_dimensions q) then Ok ()
                   else Err (ShareDimNotGrouped name dim)) over = Err e → query_error e.
Proof.
  induction over as [|d over IH]; simpl; [done|]. case_bool_decide; simpl; [done|]. by intros [= <-].
Qed.

(** Window and share metrics fail only for the query's dimensions. *)
Lemma simple_checked m base st e :
  metric_errors (collect sm_name (sc_models semantic)) known true m = [] →
  compound (met_kind m) = false →
  simple_sql c q time_dims dims_alias (met_name m) base (met_kind m) st = Err e → query_error e.
Proof.
  intros He Hk. destruct (refs_parse _ He) as [refs Hr].
  pose proof (λ b f, member_checked m refs b f He Hr) as Hmem.
  assert (metric_kind_errors (collect sm_name (sc_models semantic)) m = []) as Hkind
    by (unfold metric_errors in He; no_errors; done).
  unfold metric_kind_errors in Hkind. unfold simple_sql, references in *.
  destruct (met_kind m) as [| |measure w agg|measure n o|measure over agg]; try done;
    injection Hr as <-; specialize (Hmem measure None ltac:(by left)); no_errors.
  - unfold cumulative_sql.
    destruct (leaf c measure base st) as [[col st1]|e'] eqn:Hl; simpl.
    + destruct (window_axis _ _ _) as [[]|e'] eqn:Hw; simpl; [done|]. intros [= <-].
      by eapply window_axis_query.
    + exfalso. by eapply leaf_checked; [eapply window_base_dotted|..].
  - unfold offset_sql.
    destruct (leaf c measure base st) as [[col st1]|e'] eqn:Hl; simpl.
    + destruct (window_axis _ _ _) as [[]|e'] eqn:Hw; simpl; [done|]. intros [= <-].
      by eapply window_axis_query.
    + exfalso. by eapply leaf_checked; [eapply window_base_dotted|..].
  - apply negb_false_iff in Hno. unfold share_sql.
    destruct (try_each _ over) as [[]|e'] eqn:Hs; simpl.
    + destruct (leaf c measure base st) as [[col st1]|e'] eqn:Hl; simpl; [done|].
      exfalso. by eapply leaf_checked.
    + intros [= <-]. by eapply share_grouped.
Qed.

Abbreviation expr_at := (metric_expr_at c q time_dims dims_alias).

Lemma compound_checked m :
  metric_errors (collect sm_name (sc_models semantic)) known true m = [] →
  ∀ refs b f, references m = Ok refs → (b, f) ∈ refs → dotted b = false →
  is_Some (metrics c !! b).
Proof using Hmetrics.
  intros He refs b f Hr Hin Hd. eapply known_metric, check_member_metric; [done|].
  by eapply member_checked.
Qed.

Lemma expr_checked fuel visiting name inherited st e :
  is_Some (metrics c !! name) →
  expr_at fuel visiting name inherited st = Err e → (∃ x, e = MetricCycle x) ∨ query_error e.
Proof using Hmetrics.
  revert visiting name inherited st. induction fuel as [|fuel IH]; intros v name inh st [m Hm] H.
  { cbn [metric_expr_at] in H. rewrite Hm in H. simpl in H. case_bool_decide; injection H as <-; eauto. }
  rewrite expr_at_eq, Hm in H. case_bool_decide; [injection H as <-; eauto|].
  destruct (metric_checked _ _ Hm) as [He <-].
  destruct (compound (met_kind m)) eqn:Hk; [|right; by eapply simple_checked].
  apply compound_err in H as [(msg & Hr & _)|(refs & b & f & st1 & Hr & Hin & Hsub)]; [| |done].
  { destruct (refs_parse _ He). congruence. }
  unfold member_expr_with in Hsub. destruct (dotted b) eqn:Hd.
  - destruct (leaf c b _ st1) as [[]|e'] eqn:Hl; simpl in Hsub; [done|]. exfalso.
    eapply leaf_checked; [done| |exact Hl]. by eapply member_checked.
  - eapply IH; [|done]. by eapply compound_checked.
Qed.

Lemma refers_edge a b : refers c a b → metric_edge (sc_metrics semantic) a b.
Proof using Hmetrics.
  intros (m & refs & f & Hm & _ & Hr & Hin & Hd). unfold metric_edge, ref_edge.
  rewrite ref_adjacency_collect. exists (metric_refs m). rewrite !lookup_fmap.
  pose proof Hm as Hm'. simpl in Hm'. rewrite Hm'. destruct (metric_checked _ _ Hm) as [He <-].
  split_and!; [done| |].
  - unfold metric_refs. rewrite Hr. simpl. apply list_elem_of_In, filter_In.
    unfold dotted in Hd. rewrite Hd. split; [|done]. apply list_elem_of_In, list_elem_of_fmap.
    by exists (b, f).
  - destruct (compound_checked _ He _ _ _ Hr Hin Hd) as [m' Hm2]. simpl in Hm2. rewrite Hm2. eauto.
Qed.
End expansion.

(** What an error-free configuration says of its metrics. *)
Lemma validated_metrics `{!HashIter string} url_parse username password cfg semantic :
  validate url_parse username password cfg = [] → cfg_semantic cfg = Some semantic →
  (∀ m, m ∈ sc_metrics semantic →
     metric_errors (collect sm_name (sc_models semantic))
       (names_of met_name (sc_metrics semantic)) true m = [])
  ∧ find_metric_cycles (sc_metrics semantic) = [].
Proof.
  intros Hv Hs. unfold validate in Hv. rewrite Hs in Hv.
  apply app_nil in Hv as [_ Hv]. apply app_nil in Hv as [_ Hv]. apply app_nil in Hv as [Hv _].
  apply app_nil in Hv as [_ Hv]. unfold validate_metrics in Hv.
  apply app_nil in Hv as [_ Hv]. apply app_nil in Hv as [Hv Hc].
  split; [|by destruct (find_metric_cycles _)].
  apply each_seen_nil in Hv as [_ Hall]; [|intros x _ Hx; unfold metric_errors in Hx; by no_errors].
  intros m Hm. by apply (proj1 (list.Forall_forall _ _) Hall m).
Qed.

(** C11: a configuration that validates has metrics that always expand: whatever the query,
    its grain and the filters passed down, expanding any declared metric can only fail for
    the dimensions the query groups by - no unknown measure, malformed expression or
    reference cycle is left for run time. *)
Theorem validated_metrics_expand `{!HashIter string} url_parse username password cfg semantic m
    q time_dims dims_alias inherited st e :
  validate url_parse username password cfg = [] → cfg_semantic cfg = Some semantic →
  m ∈ sc_metrics semantic →
  metric_expr (config_catalog semantic) q time_dims dims_alias (met_name m) inherited st = Err e →
  query_error e.
Proof.
  intros Hv Hs Hm He. destruct (validated_metrics _ _ _ _ _ Hv Hs) as [Hall Hc].
  destruct (expr_checked semantic q time_dims dims_alias Hall _ _ _ _ _ _
              (known_metric semantic (met_name m) ltac:(by apply elem_of_list_to_set, list_elem_of_fmap_2))
              He) as [[x ->]|?]; [|done].
  apply expr_cycle in He as [_ Hx]; [|apply stack_nil|done]. exfalso.
  apply (Acc_no_cycle (metric_edge (sc_metrics semantic)) x); [by apply acyclic_metrics|].
  revert Hx. generalize x at 1 3. intros y Hx. induction Hx as [a b Hab|a b d Hab _ IH].
  - apply tc_once. by eapply refers_edge.
  - eapply tc_l; [by eapply refers_edge|done].
Qed.

(** ** Required predicates *)

(** The only run-time failure of a checked predicate: a parameter the caller has not bound. *)
Definition unbound_param (params : gmap string string) (e : SafetyError) : Prop :=
  ∃ model name, e = UnboundParam model name ∧ is_valid_identifier name = true ∧ params !! name = None.

Lemma predicate_loop_scan fuel rest segs t :
  String.length rest < fuel → predicate_loop fuel rest = Ok () → scan OPEN rest = (segs, t) →
  (∃ text, t = Closed text) ∧ Forall (λ seg, is_valid_identifier seg.2 = true) segs.
Proof.
  revert rest segs t. induction fuel as [|fuel IH]; intros rest segs t Hlt; [lia|].
  rewrite scan_unfold by done. cbn [predicate_loop]. change PARAM_OPEN with OPEN.
  destruct (split_once_str OPEN rest) as [[text after]|] eqn:E1.
  2: { intros _ [= <- <-]. split; [eauto|constructor]. }
  destruct (split_once "}" after) as [[name rest']|] eqn:E2; [|done].
  destruct (scan OPEN rest') as [segs' t'] eqn:E3.
  apply split_once_str_length in E1; [|done]. apply split_once_length in E2.
  destruct (bad_ident name) eqn:Hb; [done|]. intros Hl [= <- <-].
  destruct (IH rest' segs' t' ltac:(lia) Hl E3) as [? ?]. split; [done|]. constructor; [|done].
  unfold bad_ident in Hb. apply orb_false_iff in Hb as [_ Hb]. by apply negb_false_iff.
Qed.

Lemma checked_predicate_binds pred params model e :
  check_predicate_params pred = Ok () → bind_params pred params model = Err e →
  unbound_param params e.
Proof.
  unfold check_predicate_params. destruct (is_blank pred); [done|]. intros Hl.
  rewrite bind_params_segs. destruct (scan OPEN pred) as [segs t] eqn:Hs. cbn [fst snd].
  destruct (predicate_loop_scan (S (String.length pred)) pred segs t ltac:(lia) Hl Hs)
    as [[text ->] Hall].
  clear Hs Hl.
  revert Hall. induction segs as [|[pre name] segs IH]; cbn [bind_segs]; [done|].
  intros [Hn Hall]%Forall_cons.
  destruct (params !! name) eqn:Hp; [|intros [= <-]; by exists model, name].
  destruct (bind_segs pred params model segs (Closed text)); [done|]. intros [= <-]. by apply (IH Hall).
Qed.

Lemma validated_model `{!HashIter string} url_parse username password cfg semantic m :
  validate url_parse username password cfg = [] → cfg_semantic cfg = Some semantic →
  m ∈ sc_models semantic →
  ∃ names sources, model_errors names m sources true = [].
Proof.
  intros Hv Hs Hm. unfold validate in Hv. rewrite Hs in Hv.
  apply app_nil in Hv as [_ Hv]. apply app_nil in Hv as [_ Hv]. apply app_nil in Hv as [Hv _].
  apply app_nil in Hv as [Hv _]. unfold validate_semantic in Hv.
  apply each_seen_nil in Hv as [_ Hall].
  - apply (proj1 (list.Forall_forall _ _)) with (x := m) in Hall; [|done]. naive_solver.
  - intros x _ Hx. unfold model_errors in Hx. by no_errors.
Qed.

Lemma model_errors_predicates names m sources safety pred :
  model_errors names m sources true = [] → sm_safety m = Some safety →
  pred ∈ sp_required_predicates safety → check_predicate_params pred = Ok ().
Proof.
  intros He Hs Hp. unfold model_errors in He. rewrite Hs in He. unfold safety_errors in He.
  do 7 apply app_nil in He as [_ He]. apply app_nil in He as [He _].
  apply app_nil in He as [_ He]. apply mjoin_nil in He.
  rewrite Forall_fmap, list.Forall_forall in He. specialize (He pred Hp). simpl in He.
  by destruct (check_predicate_params pred) as [[]|].
Qed.

(** a configuration that validates has enforceable row-level security: whichever models a
    query touches and whatever it binds, collecting their required predicates either
    succeeds or reports a well-named parameter that the query does not bind - a malformed
    predicate never gets past validation. *)
Theorem validated_predicates_bind `{!HashIter string} url_parse username password cfg semantic
    params referenced e :
  validate url_parse username password cfg = [] → cfg_semantic cfg = Some semantic →
  required_predicates (config_catalog semantic) params referenced = Err e →
  ∃ e', e = Safety e' ∧ unbound_param params e'.
Proof.
  intros Hv Hs (name & ws & _ & H)%try_fold_fails.
  destruct (model_predicates _ params name) as [ps|e'] eqn:Hm; simpl in H; [done|].
  injection H as <-. unfold model_predicates, model_safety in Hm.
  destruct (models (config_catalog semantic) !! name) as [m|] eqn:Hl; simpl in Hm; [|done].
  apply collect_named in Hl as [<- Hin].
  destruct (validated_model _ _ _ _ _ _ Hv Hs Hin) as (names & sources & He).
  destruct (sm_safety m) as [safety|] eqn:Hsf; [|done].
  apply try_map_err in Hm as (l1 & pred & l2 & Hp & Hb & _).
  destruct (bind_params pred params (sm_name m)) as [|e1] eqn:Hb1; [done|]. injection Hb as <-.
  exists e1. split; [done|]. eapply checked_predicate_binds; [|done].
  eapply model_errors_predicates; [done..|]. rewrite Hp. apply elem_of_app. right. left.
Qed.

(** ** A valid configuration *)

Definition dated_orders : SemanticModel :=
  {| sm_name := "orders"; sm_description := None; sm_source := "shop.orders";
     sm_primary_key := ["id"];
     sm_dimensions := [{| dim_name := "day"; dim_expr := "day"; dim_data_type := DTTime;
                          dim_time_grains := [Day; Month]; dim_description := None |}];
     sm_measures := [plain_measure "revenue" AggSum "total"; plain_measure "count" AggCount "id"];
     sm_relationships := []; sm_pre_aggregations := []; sm_segments := [];
     sm_safety := with_policy ["tenant = ${param:t}"] None |}.

Definition kind_metric (name : string) (k : MetricKind) : Metric :=
  {| met_name := name; met_description := None; met_kind := k; met_filter := None;
     met_format := None |}.

Definition shop_semantic : SemanticConfig :=
  {| sc_models := [dated_orders];
     sc_metrics :=
       [kind_metric "running" (Cumulative "orders.revenue" RunningTotal WSum);
        kind_metric "per_order" (Ratio {| op_member := "running"; op_filter := None |}
                                   {| op_member := "orders.count"; op_filter := None |})];
     sc_time_spine := None |}.

Definition shop_config : Config :=
  {| cfg_version := 1;
     cfg_sources := [{| src_name := "shop"; src_kind := KFile; src_description := None;
                        src_wiki := None; src_examples := [];
                        src_config := JObject [("path", JString "shop")]; src_tables := [];
                        src_functions := []; src_raw_table := false;
                        src_raw_table_safety := None; src_cache := PolicyNone;
                        src_safety := None; src_dynamic_vars := [] |}];
     cfg_functions := []; cfg_semantic := Some shop_semantic |}.

Definition validate_shop : list ConfigError :=
  validate (HashIter0 := gset_iter) (λ _, Err "no url") (λ _, "") (λ _, None) shop_config.

Lemma validated_metrics_expand_witness :
  validate_shop = [] ∧
  (∃ e, metric_expr (config_catalog shop_semantic) (select_query ["per_order"] [] []) [] AGG_ALIAS
          "per_order" [] Expansion_new = Err e ∧ query_error e).
Proof.
  assert (validate_shop = []) as Hv by (vm_compute; reflexivity).
  split; [exact Hv|]. exists (MetricNeedsTimeGrain "running").
  assert (metric_expr (config_catalog shop_semantic) (select_query ["per_order"] [] []) [] AGG_ALIAS
    "per_order" [] Expansion_new = Err (MetricNeedsTimeGrain "running")) as He
    by (vm_compute; reflexivity).
  split; [exact He|].
  apply (validated_metrics_expand (HashIter0 := gset_iter) (λ _, Err "no url") (λ _, "") (λ _, None)
           shop_config shop_semantic
           (kind_metric "per_order" (Ratio {| op_member := "running"; op_filter := None |}
                                   {| op_member := "orders.count"; op_filter := None |}))
           (select_query ["per_order"] [] []) [] AGG_ALIAS [] Expansion_new);
    [exact Hv|reflexivity|right; left|exact He].
Defined.

Lemma validated_predicates_bind_witness :
  validate_shop = [] ∧
  (∃ e, required_predicates (config_catalog shop_semantic) ∅ ["orders"] = Err e ∧
     ∃ e', e = Safety e' ∧ unbound_param ∅ e').
Proof.
  assert (validate_shop = []) as Hv by (vm_compute; reflexivity).
  split; [exact Hv|]. exists (Safety (UnboundParam "orders" "t")).
  assert (required_predicates (config_catalog shop_semantic) ∅ ["orders"]
          = Err (Safety (UnboundParam "orders" "t"))) as He by (vm_compute; reflexivity).
  split; [exact He|].
  apply (validated_predicates_bind (HashIter0 := gset_iter) (λ _, Err "no url") (λ _, "") (λ _, None)
           shop_config shop_semantic ∅ ["orders"]); [exact Hv|reflexivity|exact He].
Defined.
