(* ===== verification/VarTypes.v ===== *)
(** * Declared variables ([crates/pawrly-config/src/variables.rs])
    The definitions of a [variables:] block, the rules they obey, and what loading asks of
    its surroundings. *)

From S2P Require Export Validate.

(** ** Definitions *)

Inductive VarKind := Variable_ | Secret.

Inductive VarType := VString | VInteger | VNumber | VBoolean | VEnum.

Definition VarType_as_str (t : VarType) : string :=
  match t with
  | VString => "string" | VInteger => "integer" | VNumber => "number" | VBoolean => "boolean"
  | VEnum => "enum"
  end.

(** [VarType::accepts]. *)
Definition accepts (t : VarType) (v : Json) : bool :=
  match t, v with
  | VString, JString _ => true
  | VInteger, JNumber (PosInt _ | NegInt _) => true
  | VNumber, JNumber _ => true
  | VBoolean, JBool _ => true
  | VEnum, _ => true
  | _, _ => false
  end.

Record InputMethod := {
  im_input : option string;
  im_prompt : option bool;
  im_persist : option string;
  im_label : option string
}.

Inductive CredentialMethod := Input (m : InputMethod) | Oauth (body : Json).

Record VariableDef := {
  vd_kind : VarKind;
  vd_type : option VarType;
  vd_default : option Json;
  vd_choices : list Json;
  vd_required : bool;
  vd_description : option string;
  vd_methods : list CredentialMethod;
  vd_oauth : option Json;
  vd_input : option string
}.

Definition is_oauth (m : CredentialMethod) : bool := match m with Oauth _ => true | _ => false end.

Definition is_dynamic (d : VariableDef) : bool :=
  bool_decide (is_Some (vd_oauth d)) || existsb is_oauth (vd_methods d).

Definition has_input_method (d : VariableDef) : bool :=
  bool_decide (is_Some (vd_input d)) || existsb (λ m, negb (is_oauth m)) (vd_methods d).

Definition var_type (d : VariableDef) : VarType := default VString (vd_type d).

Definition has_shorthand (d : VariableDef) : bool :=
  bool_decide (is_Some (vd_oauth d)) || bool_decide (is_Some (vd_input d)).

Fixpoint find_map {A B} (f : A → option B) (l : list A) : option B :=
  match l with
  | [] => None
  | x :: l => match f x with Some y => Some y | None => find_map f l end
  end.

Definition input_key (d : VariableDef) : option string :=
  match vd_input d with
  | Some key => Some key
  | None => find_map (λ m, match m with Input im => im_input im | Oauth _ => None end) (vd_methods d)
  end.

Definition oauth_body (d : VariableDef) : option Json :=
  match vd_oauth d with
  | Some v => Some v
  | None => find_map (λ m, match m with Oauth v => Some v | Input _ => None end) (vd_methods d)
  end.

(** A declaration with its scope. *)
Record ScopedVar := { sv_def : VariableDef; sv_scope_id : string }.

Abbreviation VariableScope := (gmap string ScopedVar).

(** [format!("{}::{}", scope_id, name)]. *)
Definition var_id (scope_id name : string) : string := scope_id +:+ "::" +:+ name.

(** [value_key] ([crates/pawrly-secrets/src/variables/tokens.rs]). *)
Definition value_key (id : string) : string := "value::" +:+ id.

(** ** What loading asks of its surroundings *)

(** The secret chain, the store of collected values, the environment, files, and the
    conversions of other crates; an error is its text. *)
Class Loading := {
  secret_get : string → result string (option string);
  value_store : option (string → result string (option string));
  env_var : string → option string;
  read_to_string : string → result string string;
  parse_def : Json → result string VariableDef;
  f64_number : string → option Number;
  json_text : Json → string;
  parse_url : string → result string Url;
  explicit_url_port : Url → option N;
  set_port : Url → N → option Url
}.

Definition var_err (name msg : string) : ConfigError := EVariable name msg.

(** ** Equality of JSON values; the two zeros of a float are equal *)

Definition zero_text (t : string) : string := if decide (t = "-0.0") then "0.0" else t.

Definition number_eqb (a b : Number) : bool :=
  match a, b with
  | Float s, Float t => bool_decide (zero_text s = zero_text t)
  | _, _ => bool_decide (a = b)
  end.

Fixpoint json_eqb (a b : Json) : bool :=
  match a, b with
  | JNull, JNull => true
  | JBool x, JBool y => Bool.eqb x y
  | JNumber x, JNumber y => number_eqb x y
  | JString x, JString y => bool_decide (x = y)
  | JArray x, JArray y =>
      (fix go l m := match l, m with
                     | [], [] => true
                     | v :: l, w :: m => json_eqb v w && go l m
                     | _, _ => false
                     end) x y
  | JObject x, JObject y =>
      (fix go l m := match l, m with
                     | [], [] => true
                     | (k, v) :: l, (k', w) :: m => bool_decide (k = k') && json_eqb v w && go l m
                     | _, _ => false
                     end) x y
  | _, _ => false
  end.

(** ** Rules for a definition *)

Definition RESERVED_PREFIX : string := "__pawrly".

Definition CREDENTIAL_TERMS : list string :=
  ["token"; "secret"; "password"; "passwd"; "pwd"; "apikey"; "accesskey"; "privatekey"; "bearer";
   "credential"; "clientsecret"].

Fixpoint filter_chars (f : ascii → bool) (s : string) : string :=
  match s with
  | "" => ""
  | String c s => if f c then String c (filter_chars f s) else filter_chars f s
  end.

Definition is_credential_like (name : string) : bool :=
  let normalized := to_ascii_lowercase (filter_chars is_alnum name) in
  existsb (λ term, contains_text term normalized) CREDENTIAL_TERMS.

Section rules.
Context `{Loading}.

Definition value_to_string (v : Json) : string :=
  match v with JString s => s | _ => json_text v end.

Definition validate_var_type (name : string) (d : VariableDef) : result ConfigError () :=
  let err msg := Err (var_err name msg) in
  match var_type d with
  | VEnum =>
      if bool_decide (length (vd_choices d) = 0) then
        err "`type: enum` requires a non-empty `choices` list"
      else match vd_default d with
           | Some v =>
               if negb (existsb (json_eqb v) (vd_choices d)) then
                 err ("`default` `" +:+ value_to_string v
                      +:+ "` is not one of the declared `choices`")
               else Ok ()
           | None => Ok ()
           end
  | other =>
      if negb (bool_decide (length (vd_choices d) = 0)) then
        err "`choices` is only valid with `type: enum`"
      else match vd_default d with
           | Some v =>
               if negb (accepts other v) then
                 err ("`default` `" +:+ value_to_string v +:+ "` does not match `type: "
                      +:+ VarType_as_str other +:+ "`")
               else Ok ()
           | None => Ok ()
           end
  end.

Definition validate_def (name : string) (d : VariableDef) : result ConfigError () :=
  let err msg := Err (var_err name msg) in
  if starts_with RESERVED_PREFIX name then
    err ("name may not start with `" +:+ RESERVED_PREFIX +:+ "`")
  else if negb (bool_decide (length (vd_methods d) = 0)) && has_shorthand d then
    err "use either `methods:` or the `oauth`/`input` shorthand, not both"
  else match vd_kind d with
  | Secret =>
      if bool_decide (is_Some (vd_default d)) then
        err "`default` is not allowed on a `kind: secret`"
      else if bool_decide (is_Some (vd_type d)) then
        err "`type` is only valid on a `kind: variable`; secrets are always opaque strings"
      else if negb (bool_decide (length (vd_choices d) = 0)) then
        err "`choices` is only valid on a `kind: variable` with `type: enum`"
      else Ok ()
  | Variable_ =>
      if is_credential_like name then
        err "name looks like a credential; declare it as `kind: secret`"
      else if is_dynamic d then
        err "a `kind: variable` may not use an `oauth` credential method (only `kind: secret` can)"
      else validate_var_type name d
  end.

(** [parse_block]. *)
Definition parse_block (block : Json) (scope_id : string) : result ConfigError VariableScope :=
  let? obj := ok_or (var_err "<block>" "`variables:` must be a mapping of NAME to a definition")
                (as_object block) in
  try_fold (λ out kv,
    let? d := map_err (var_err kv.1) (parse_def kv.2) in
    let? _ := validate_def kv.1 d in
    Ok (<[kv.1 := {| sv_def := d; sv_scope_id := scope_id |}]> out)) ∅ obj.
End rules.

(** [merge_into]. *)
Definition merge_into (base overlay : VariableScope) : VariableScope := overlay ∪ base.
