(* ===== verification/Variables.v ===== *)
(** * Resolving references to variables ([crates/pawrly-config/src/variables.rs])
    Static references are replaced by their values; dynamic ones are left in place and
    reported as bindings. *)

From S2P Require Export VarTypes.

(** ** Visiting the strings of a tree, threading a state *)

Section visit.
Context {A B S E : Type} (f : A → S → result E (B * S)).

Fixpoint map_st (l : list A) (st : S) : result E (list B * S) :=
  match l with
  | [] => Ok ([], st)
  | x :: l =>
      let? '(y, st) := f x st in
      let? '(l, st) := map_st l st in
      Ok (y :: l, st)
  end.
End visit.

(** The traversal both [walk] functions of the crate make; [f] replaces one string. *)
Fixpoint walk_strings {S E} (f : string → S → result E (Json * S)) (v : Json) (st : S)
    : result E (Json * S) :=
  match v with
  | JString s => f s st
  | JArray items =>
      let? '(items, st) := map_st (walk_strings f) items st in Ok (JArray items, st)
  | JObject fields =>
      let? '(fields, st) := map_st (λ kv st,
        let? '(v, st) := walk_strings f kv.2 st in Ok ((kv.1, v), st)) fields st in
      Ok (JObject fields, st)
  | _ => Ok (v, st)
  end.

(** [parse_ref]. *)
Definition parse_ref (s : string) : option string :=
  body ← strip_prefix "${" (trim s);
  body ← strip_suffix "}" body;
  '(prefix, target) ← split_once ":" body;
  if decide (prefix = "var") then Some target else None.

Section resolve.
Context `{Loading}.

(** ** Values *)

Definition choice_matches (choice : Json) (raw : string) : bool :=
  match choice with
  | JString s => bool_decide (s = raw)
  | other => bool_decide (value_to_string other = raw)
  end.

(** [Number::from(n: i64)]. *)
Definition number_of_i64 (z : Z) : Number := if (0 <=? z)%Z then PosInt (Z.to_N z) else NegInt z.

Definition true_words : list string := ["true"; "1"; "yes"; "on"].
Definition false_words : list string := ["false"; "0"; "no"; "off"].

(** [coerce_str]. *)
Definition coerce_str (name : string) (ty : VarType) (choices : list Json) (raw : string)
    : result ConfigError Json :=
  let err msg := var_err name msg in
  let t := trim raw in
  match ty with
  | VString => Ok (JString raw)
  | VInteger =>
      rmap (λ n, JNumber (number_of_i64 n))
        (ok_or (err ("`" +:+ raw +:+ "` is not a valid integer")) (parse_i64 t))
  | VNumber =>
      match parse_i64 t with
      | Some n => Ok (JNumber (number_of_i64 n))
      | None => rmap JNumber
                  (ok_or (err ("`" +:+ raw +:+ "` is not a valid number")) (f64_number t))
      end
  | VBoolean =>
      let t := to_ascii_lowercase t in
      if bool_decide (t ∈ true_words) then Ok (JBool true)
      else if bool_decide (t ∈ false_words) then Ok (JBool false)
      else Err (err ("`" +:+ raw +:+ "` is not a valid boolean"))
  | VEnum =>
      ok_or (err ("`" +:+ raw +:+ "` is not one of the allowed choices: "
                  +:+ join ", " (map value_to_string choices)))
        (List.find (λ c, choice_matches c raw) choices)
  end.

(** [VariableDef::coerce]. *)
Definition coerce (d : VariableDef) (raw : string) : result string Json :=
  map_err (λ e, match e with EVariable _ msg => msg | _ => "" end)
    (coerce_str "<value>" (var_type d) (vd_choices d) raw).

(** [stored_literal]. *)
Definition stored_literal (id : string) : result ConfigError (option string) :=
  match value_store with
  | None => Ok None
  | Some store => map_err EIo (store (value_key id))
  end.

(** [resolve_value]. *)
Definition resolve_value (name : string) (d : VariableDef) (scope_id : string)
    : result ConfigError Json :=
  let err msg := Err (var_err name msg) in
  let input := default name (input_key d) in
  let? lit := stored_literal (var_id scope_id name) in
  match vd_kind d with
  | Secret =>
      match lit with
      | Some lit => Ok (JString lit)
      | None =>
          let? v := map_err EIo (secret_get input) in
          match v with
          | Some v => Ok (JString v)
          | None =>
              if negb (vd_required d) then Ok JNull
              else err ("no value for secret input `" +:+ input
                +:+ "` (run `pawrly source connect`, set the env var, or add a secret-store entry)")
          end
      end
  | Variable_ =>
      match lit with
      | Some lit => coerce_str name (var_type d) (vd_choices d) lit
      | None =>
          match env_var input with
          | Some raw => coerce_str name (var_type d) (vd_choices d) raw
          | None =>
              match vd_default d with
              | Some v => Ok v
              | None =>
                  if negb (vd_required d) then Ok JNull
                  else err ("no value: env `" +:+ input +:+ "` is unset and no `default` is declared")
              end
          end
      end
  end.

(** ** Dynamic variables *)

(** [discovery_url_ok]. *)
Definition discovery_url_ok (url : string) : bool :=
  match parse_url url with
  | Err _ => false
  | Ok u => if decide (u_scheme u = "https") then true
            else if decide (u_scheme u = "http") then is_loopback u
            else false
  end.

(** [resolve_client_field]. *)
Definition resolve_client_field (name : string) (field : option Json) (is_secret : bool)
    : result ConfigError (option string) :=
  let err msg := Err (var_err name msg) in
  match field with
  | None => Ok None
  | Some (JString s) => Ok (Some s)
  | Some (JObject o) =>
      let? resolved :=
        match obj_get "input" o ≫= as_str with
        | Some input => if is_secret then map_err EIo (secret_get input) else Ok (env_var input)
        | None => Ok None
        end in
      match resolved with
      | Some v => Ok (Some v)
      | None =>
          match obj_get "default" o ≫= as_str with
          | Some d => Ok (Some d)
          | None => err "OAuth `client` field has neither a resolvable `input` nor a `default`"
          end
      end
  | Some _ => err "OAuth `client` field must be a string or a `{ input/default }` object"
  end.

(** [parse_scopes]. *)
Definition parse_scopes (oauth : Json) : option string :=
  scopes ← get oauth "scopes";
  scope ← get scopes "scope";
  let delim := if decide (str_at scope "delimiter" = Some "comma") then "," else " " in
  values ← get scope "values";
  items ← as_array values;
  let parts := omap as_str items in
  if decide (parts = []) then None else Some (join delim parts).

Definition u16_max : N := 65535.

(** The port set explicitly: a non-zero [u16]. *)
Definition explicit_port (name : string) (redirect : Json) : result ConfigError (option N) :=
  match get redirect "port" with
  | None | Some JNull => Ok None
  | Some p =>
      match p with
      | JNumber (PosInt n) =>
          if (n <=? u16_max)%N && negb (n =? 0)%N then Ok (Some n)
          else Err (var_err name "`redirect.port` must be a port number (1–65535)")
      | _ => Err (var_err name "`redirect.port` must be a port number (1–65535)")
      end
  end.

Definition choose_port (name : string) (explicit in_uri : option N)
    : result ConfigError (option N) :=
  match explicit, in_uri with
  | Some e, Some u =>
      if (e =? u)%N then Ok (Some e)
      else Err (var_err name ("port set in both `redirect.uri` (" +:+ show_N u
             +:+ ") and `redirect.port` (" +:+ show_N e +:+ ") — specify it in one place"))
  | Some e, None => Ok (Some e)
  | None, u => Ok u
  end.

Definition choose_port_mode (name : string) (redirect : Json) (port : option N)
    : result ConfigError PortMode :=
  match str_at redirect "port_mode" with
  | Some mode =>
      if decide (mode = "fixed") then Ok FixedPort
      else if decide (mode = "random") then Ok RandomPort
      else Err (var_err name ("unknown `redirect.port_mode` `" +:+ mode +:+ "`"))
  | None => Ok (if decide (is_Some port) then FixedPort else RandomPort)
  end.

(** [resolve_redirect]. *)
Definition resolve_redirect (name : string) (oauth : Json)
    : result ConfigError (string * PortMode) :=
  let err msg := var_err name msg in
  let? redirect := ok_or (err "`authorization_code` requires `redirect`") (get oauth "redirect") in
  let? uri := ok_or (err "`redirect` requires `uri`") (str_at redirect "uri") in
  let? parsed := map_err (λ e, err ("invalid `redirect.uri`: " +:+ e)) (parse_url uri) in
  let? explicit := explicit_port name redirect in
  let? port := choose_port name explicit (explicit_url_port parsed) in
  let? mode := choose_port_mode name redirect port in
  if decide (mode = FixedPort) then
    let? p := ok_or (err "`redirect.port_mode: fixed` needs a `port` (set `redirect.port` or include one in `redirect.uri`)") port in
    let? parsed := ok_or (err "`redirect.uri` does not accept a port") (set_port parsed p) in
    Ok (u_text parsed, mode)
  else Ok (u_text parsed, mode).

Section spec.
Context (name : string) (oauth : Json).

Definition grant : string := default "" (get oauth "grant" ≫= λ g, str_at g "type").

Definition endpoint (key : string) : option string :=
  get oauth "endpoints" ≫= λ e, str_at e key.

Definition oauth_endpoints : Endpoints :=
  {| ep_discovery := endpoint "discovery";
     ep_authorization_url := endpoint "authorization_url";
     ep_device_authorization_url := endpoint "device_authorization_url";
     ep_token_url := endpoint "token_url" |}.

(** The closure [require]. *)
Definition require_endpoint (v : option string) (key : string) : result ConfigError () :=
  if bool_decide (ep_discovery oauth_endpoints = None) && bool_decide (v = None) then
    Err (var_err name ("`" +:+ grant +:+ "` requires `endpoints." +:+ key
                       +:+ "` (or set `endpoints.discovery`)"))
  else Ok ().

Definition client_id : result ConfigError string :=
  let? id := resolve_client_field name (get oauth "client" ≫= λ c, get c "id") false in
  ok_or (var_err name ("`" +:+ grant +:+ "` requires `client.id`")) id.

Definition client_secret_opt : result ConfigError (option string) :=
  resolve_client_field name (get oauth "client" ≫= λ c, get c "secret") true.

Definition transport_of : TokenTransport :=
  if decide ((c ← get oauth "client"; s ← get c "secret"; str_at s "transport")
             = Some "basic_auth") then BasicAuth else RequestBody.

Definition grant_spec : result ConfigError DynamicVarSpec :=
  let endpoints := oauth_endpoints in
  if decide (grant = "client_credentials") then
    let? _ := require_endpoint (ep_token_url endpoints) "token_url" in
    let? id := client_id in
    let? secret := client_secret_opt in
    let? secret := ok_or (var_err name "`client_credentials` requires `client.secret`") secret in
    Ok (ClientCredentials endpoints id secret (parse_scopes oauth) (str_at oauth "audience")
          transport_of)
  else if decide (grant = "device_code") then
    let? _ := require_endpoint (ep_device_authorization_url endpoints) "device_authorization_url" in
    let? _ := require_endpoint (ep_token_url endpoints) "token_url" in
    let? id := client_id in
    let? secret := client_secret_opt in
    Ok (DeviceCode endpoints id secret (parse_scopes oauth))
  else if decide (grant = "authorization_code") then
    let? _ := require_endpoint (ep_authorization_url endpoints) "authorization_url" in
    let? _ := require_endpoint (ep_token_url endpoints) "token_url" in
    let? '(redirect_uri, mode) := resolve_redirect name oauth in
    let? id := client_id in
    let? secret := client_secret_opt in
    let pkce := negb (bool_decide
      ((get oauth "grant" ≫= λ g, str_at g "pkce") = Some "disabled")) in
    Ok (AuthorizationCode endpoints id secret redirect_uri mode pkce (parse_scopes oauth)
          transport_of)
  else if decide (grant = "") then Err (var_err name "`oauth` method requires `grant.type`")
  else Err (var_err name ("unknown oauth `grant.type` `" +:+ grant +:+ "`")).
End spec.

(** [build_dynamic_spec]. *)
Definition build_dynamic_spec (name : string) (d : VariableDef)
    : result ConfigError DynamicVarSpec :=
  let? oauth := ok_or (var_err name "internal: dynamic variable without an `oauth` method")
                  (oauth_body d) in
  match ep_discovery (oauth_endpoints oauth) with
  | Some url =>
      if negb (discovery_url_ok url) then
        Err (var_err name "`endpoints.discovery` must be https (or http to a loopback host)")
      else grant_spec name oauth
  | None => grant_spec name oauth
  end.

(** ** References *)

Section refs.
Context (scope : VariableScope).

(** The bindings so far, and the identities they are for. *)
Record Bindings := { bd_bindings : list DynamicVarBinding; bd_seen : gset string }.

(** The string case of [walk]. *)
Definition walk_ref (s : string) (st : Bindings) : result ConfigError (Json * Bindings) :=
  match parse_ref s with
  | None => Ok (JString s, st)
  | Some name =>
      let? scoped := ok_or (var_err name
        "referenced via `${var:…}` but not declared in this source's scope") (scope !! name) in
      let d := sv_def scoped in
      if is_dynamic d then
        let id := var_id (sv_scope_id scoped) name in
        let? lit := stored_literal id in
        match lit with
        | Some lit => Ok (JString lit, st)
        | None =>
            if bool_decide (id ∈ bd_seen st) then Ok (JString s, st)
            else
              let? spec := build_dynamic_spec name d in
              Ok (JString s,
                  {| bd_bindings := bd_bindings st
                       ++ [{| bi_name := name; bi_id := id; bi_spec := spec |}];
                     bd_seen := {[id]} ∪ bd_seen st |})
        end
      else
        let? v := resolve_value name d (sv_scope_id scoped) in Ok (v, st)
  end.

Definition walk : Json → Bindings → result ConfigError (Json * Bindings) := walk_strings walk_ref.

(** The loop over the keys of a source; [variables] is left alone. *)
Definition walk_field (kv : string * Json) (st : Bindings)
    : result ConfigError ((string * Json) * Bindings) :=
  if decide (kv.1 = "variables") then Ok (kv, st)
  else let? '(v, st) := walk kv.2 st in Ok ((kv.1, v), st).

(** [resolve_refs]. *)
Definition resolve_refs (source : Json) : result ConfigError (Json * list DynamicVarBinding) :=
  let st := {| bd_bindings := []; bd_seen := ∅ |} in
  let? '(source, st) :=
    match source with
    | JObject fields =>
        let? '(fields, st) := map_st walk_field fields st in Ok (JObject fields, st)
    | _ => walk source st
    end in
  Ok (source, bd_bindings st).

(** ** Detecting static references *)

Record StaticVarRef := {
  sr_name : string;
  sr_var_id : string;
  sr_kind : VarKind;
  sr_input_key : string;
  sr_resolves : bool
}.

Definition is_ok {E A} (r : result E A) : bool := match r with Ok _ => true | Err _ => false end.

Definition collect_ref (s : string) (st : list StaticVarRef * gset string)
    : list StaticVarRef * gset string :=
  let '(out, seen) := st in
  match parse_ref s with
  | None => st
  | Some name =>
      match scope !! name with
      | None => st
      | Some scoped =>
          let d := sv_def scoped in
          if is_dynamic d || bool_decide (name ∈ seen) then st
          else (out ++ [{| sr_name := name;
                           sr_var_id := var_id (sv_scope_id scoped) name;
                           sr_kind := vd_kind d;
                           sr_input_key := default name (input_key d);
                           sr_resolves := is_ok (resolve_value name d (sv_scope_id scoped)) |}],
                {[name]} ∪ seen)
      end
  end.

(** [collect_refs]. *)
Fixpoint collect_refs (v : Json) (st : list StaticVarRef * gset string)
    : list StaticVarRef * gset string :=
  match v with
  | JString s => collect_ref s st
  | JArray items => foldl (λ st v, collect_refs v st) st items
  | JObject fields => foldl (λ st kv, collect_refs kv.2 st) st fields
  | _ => st
  end.

(** [collect_static_refs]. *)
Definition collect_static_refs (source : Json) : list StaticVarRef :=
  match source with
  | JObject fields =>
      foldl (λ st kv, if decide (kv.1 = "variables") then st else collect_refs kv.2 st)
        ([], ∅) fields
  | _ => collect_refs source ([], ∅)
  end.1.
End refs.
End resolve.
