(* ===== verification/Loader.v ===== *)
(** * Loading a configuration ([crates/pawrly-config/src/interpolate.rs], [loader.rs])
    Pass A replaces references to secrets, the environment and files; pass B replaces the
    variables of each source, looked up in its scope; then the tree is read as a
    configuration and validated. *)

From S2P Require Export Variables FunctionCheck.

Section interpolate.
Context `{Loading}.

(** ** Pass A *)

(** [expand_tilde]. *)
Definition expand_tilde (input : string) : string :=
  match env_var "HOME" with
  | Some home =>
      match strip_prefix "~/" input with
      | Some rest => path_join home rest
      | None => if decide (input = "~") then home else input
      end
  | None => input
  end.

(** [resolve_one]. *)
Definition resolve_one (s : string) : result ConfigError (option string) :=
  match (rest ← strip_prefix "${" (trim s); body ← strip_suffix "}" rest; split_once ":" body) with
  | None => Ok None
  | Some (prefix, target) =>
      if decide (prefix = "secret") then
        let? v := map_err EIo (secret_get target) in
        match v with
        | Some v => Ok (Some v)
        | None => Err (EUnresolvedSecret target)
        end
      else if decide (prefix = "env") then
        match env_var target with
        | Some v => Ok (Some v)
        | None => Err (EUnresolvedEnv target)
        end
      else if decide (prefix = "file") then
        let path := expand_tilde target in
        let? c := map_err (EReadFile path) (read_to_string path) in
        Ok (Some (trim c))
      else Ok None
  end.

(** [interpolate::resolve]. *)
Definition interpolate_ref (s : string) (st : ()) : result ConfigError (Json * ()) :=
  let? r := resolve_one s in Ok (JString (default s r), st).

Definition interpolate (v : Json) : result ConfigError Json :=
  let? '(v, _) := walk_strings interpolate_ref v () in Ok v.

(** ** Pass B *)

(** The block of the root, or the empty scope. *)
Definition root_scope (tree : Json) : result ConfigError VariableScope :=
  match get tree "variables" with
  | Some v => parse_block v "root"
  | None => Ok ∅
  end.

(** The scopes of the fragment files, in the order the map is iterated. *)
Definition fragment_scopes (frag_vars : list (string * Json))
    : result ConfigError (gmap string VariableScope) :=
  try_fold (λ scopes fb,
    let? block := interpolate fb.2 in
    let? scope := parse_block block fb.1 in
    Ok (<[fb.1 := scope]> scopes)) ∅ frag_vars.

(** [source_scope]. *)
Definition source_scope (source : Json) (chain : option (list string)) (global : VariableScope)
    (frag_scopes : gmap string VariableScope) : result ConfigError VariableScope :=
  let scope := foldl (λ scope file, match frag_scopes !! file with
                                    | Some frag => merge_into scope frag
                                    | None => scope
                                    end) global (default [] chain) in
  match get source "variables" with
  | None => Ok scope
  | Some block =>
      let source_name := default "?" (str_at source "name") in
      let? local := parse_block block ("source:" +:+ source_name) in
      Ok (merge_into scope local)
  end.

(** One source of the loop, with the chains not used yet. *)
Definition resolve_source (global : VariableScope) (frag_scopes : gmap string VariableScope)
    (source : Json) (chains : list (list string))
    : result ConfigError ((Json * list DynamicVarBinding) * list (list string)) :=
  let? scope := source_scope source (head chains) global frag_scopes in
  let? r := resolve_refs scope source in
  Ok (r, List.tl chains).

Definition with_sources (tree : Json) (sources : list Json) : Json :=
  match tree with
  | JObject fields => JObject (obj_insert "sources" (JArray sources) fields)
  | _ => tree
  end.

(** [resolve_variables]: the tree with its sources resolved, and their bindings. *)
Definition resolve_variables (tree : Json) (frag_vars : list (string * Json))
    (source_chains : list (list string))
    : result ConfigError (Json * list (list DynamicVarBinding)) :=
  let? global := root_scope tree in
  let? frag_scopes := fragment_scopes frag_vars in
  match get tree "sources" ≫= as_array with
  | None => Ok (tree, [])
  | Some sources =>
      let? '(rs, _) := map_st (resolve_source global frag_scopes) sources source_chains in
      Ok (with_sources tree (fst <$> rs), snd <$> rs)
  end.

(** ** The configuration *)

Definition with_dynamic_vars (s : SourceDef) (binds : list DynamicVarBinding) : SourceDef :=
  {| src_name := src_name s; src_kind := src_kind s; src_description := src_description s;
     src_wiki := src_wiki s; src_examples := src_examples s; src_config := src_config s;
     src_tables := src_tables s; src_functions := src_functions s;
     src_raw_table := src_raw_table s; src_raw_table_safety := src_raw_table_safety s;
     src_cache := src_cache s; src_safety := src_safety s; src_dynamic_vars := binds |}.

(** [for (src, binds) in sources.iter_mut().zip(bindings)]. *)
Fixpoint attach_bindings (sources : list SourceDef) (bindings : list (list DynamicVarBinding))
    : list SourceDef :=
  match sources, bindings with
  | s :: sources, b :: bindings => with_dynamic_vars s b :: attach_bindings sources bindings
  | _, _ => sources
  end.

Definition with_cfg_sources (cfg : Config) (sources : list SourceDef) : Config :=
  {| cfg_version := cfg_version cfg; cfg_sources := sources; cfg_functions := cfg_functions cfg;
     cfg_semantic := cfg_semantic cfg |}.

(** [finish]; serde reads the tree as a [Config]. *)
Context `{!HashIter string} (config_of : Json → result string Config)
  (username : Url → string) (password : Url → option string).

Definition finish (tree : Json) (frag_vars : list (string * Json))
    (source_chains : list (list string)) : result ConfigError Config :=
  let? tree := interpolate tree in
  let? '(tree, bindings) := resolve_variables tree frag_vars source_chains in
  let? cfg := map_err EYaml (config_of tree) in
  let cfg := with_cfg_sources cfg (attach_bindings (cfg_sources cfg) bindings) in
  match validate parse_url username password cfg with
  | [] => Ok cfg
  | e :: _ => Err e
  end.
End interpolate.

(** ** Dynamic variables of a configuration ([types.rs]) *)

(** [Config::dynamic_specs]. *)
Definition dynamic_specs (cfg : Config) : gmap string DynamicVarSpec :=
  foldl (λ out s, foldl (λ out b, <[bi_id b := bi_spec b]> out) out (src_dynamic_vars s))
    ∅ (cfg_sources cfg).

(** [Config::dynamic_bindings_by_source]. *)
Definition dynamic_bindings_by_source (cfg : Config) : gmap string (gmap string string) :=
  foldl (λ out s,
    if decide (length (src_dynamic_vars s) = 0) then out
    else <[src_name s := foldl (λ m b, <[bi_name b := bi_id b]> m) ∅ (src_dynamic_vars s)]> out)
    ∅ (cfg_sources cfg).
