(* ===== verification/VariablesProps.v ===== *)
(** * Properties of variable resolution
    Resolving a source is one substitution of its references; values are never looked at
    again. The detector of static references agrees with the resolver, resolved values have
    their declared types, and the innermost declaration of a name wins. *)

From S2P Require Export Loader.

(** ** A traversal is a fold over the strings and a substitution *)

(** The strings of a tree, in the order they are visited. *)
Fixpoint strings (v : Json) : list string :=
  match v with
  | JString s => [s]
  | JArray items => List.flat_map strings items
  | JObject fields => List.flat_map (λ kv, strings kv.2) fields
  | _ => []
  end.

Fixpoint map_strings (g : string → Json) (v : Json) : Json :=
  match v with
  | JString s => g s
  | JArray items => JArray (map (map_strings g) items)
  | JObject fields => JObject (map (λ kv, (kv.1, map_strings g kv.2)) fields)
  | _ => v
  end.

Lemma try_fold_cat {A E S} (f : S → A → result E S) s l1 l2 :
  try_fold f s (l1 ++ l2) = let? s := try_fold f s l1 in try_fold f s l2.
Proof. revert s; induction l1 as [|x l1 IH]; intros s; simpl; [done|]. by destruct (f s x); simpl. Qed.

(** The state a visitor of strings leaves. *)
Definition visit_step {S E} (f : string → S → result E (Json * S)) (st : S) (s : string)
    : result E S :=
  let? '(_, st) := f s st in Ok st.

Section traversal.
Context {S E : Type} (f : string → S → result E (Json * S)) (g : string → Json).
Context (Hg : ∀ s st r st', f s st = Ok (r, st') → r = g s).

Lemma map_st_fold {A B} (h : A → S → result E (B * S)) (strs : A → list string) (m : A → B) l st :
  Forall (λ x, ∀ st, h x st = let? st := try_fold (visit_step f) st (strs x) in Ok (m x, st)) l →
  map_st h l st = let? st := try_fold (visit_step f) st (List.flat_map strs l) in Ok (map m l, st).
Proof using.
  intros Hl. revert st. induction Hl as [|x l Hx _ IH]; intros st; [done|]. cbn [map_st List.flat_map].
  rewrite Hx, try_fold_cat. destruct (try_fold _ st (strs x)) as [st1|]; simpl; [|done].
  rewrite IH. by destruct (try_fold _ st1 _).
Qed.

Lemma walk_strings_fold v st :
  walk_strings f v st =
    let? st := try_fold (visit_step f) st (strings v) in Ok (map_strings g v, st).
Proof using Hg.
  revert st. induction v as [|b|n|s|items IH|fields IH] using Json_ind'; intros st; try done.
  - simpl. unfold visit_step. destruct (f s st) as [[r st']|] eqn:Hf; simpl; [|done].
    by rewrite (Hg _ _ _ _ Hf).
  - simpl. rewrite (map_st_fold _ strings (map_strings g)) by done.
    by destruct (try_fold _ st _).
  - simpl. rewrite (map_st_fold _ (λ kv, strings kv.2) (λ kv, (kv.1, map_strings g kv.2))).
    + by destruct (try_fold _ st _).
    + eapply Forall_impl; [exact IH|]. intros kv Hkv st'. rewrite Hkv.
      by destruct (try_fold _ st' _).
Qed.
End traversal.

(** ** References *)

Section refs.
Context `{Loading} (scope : VariableScope).

(** What a string is replaced by: a static reference by its value, a dynamic one only by a
    collected value. *)
Definition ref_value (s : string) : Json :=
  match parse_ref s with
  | None => JString s
  | Some name =>
      match scope !! name with
      | None => JString s
      | Some sv =>
          if is_dynamic (sv_def sv) then
            match stored_literal (var_id (sv_scope_id sv) name) with
            | Ok (Some lit) => JString lit
            | _ => JString s
            end
          else default (JString s) (to_option (resolve_value name (sv_def sv) (sv_scope_id sv)))
      end
  end.

(** The string refers to [name], declared as [sv]. *)
Definition refers_to (s name : string) (sv : ScopedVar) : Prop :=
  parse_ref s = Some name ∧ scope !! name = Some sv.

(** The string refers to a dynamic variable without a collected value. *)
Definition dynamic_ref (s name id : string) (d : VariableDef) : Prop :=
  ∃ sv, refers_to s name sv ∧ d = sv_def sv ∧ id = var_id (sv_scope_id sv) name ∧
    is_dynamic d = true ∧ stored_literal id = Ok None.

(** A reference that can be resolved. *)
Definition ref_ok (s : string) : Prop :=
  ∀ name, parse_ref s = Some name → ∃ sv, scope !! name = Some sv ∧
    if is_dynamic (sv_def sv) then
      ∃ lit, stored_literal (var_id (sv_scope_id sv) name) = Ok lit ∧
        (lit = None → ∃ spec, build_dynamic_spec name (sv_def sv) = Ok spec)
    else ∃ v, resolve_value name (sv_def sv) (sv_scope_id sv) = Ok v.

(** A reference that is declared and, when static, has a value. *)
Definition ref_static_ok (s : string) : Prop :=
  ∀ name, parse_ref s = Some name → ∃ sv, scope !! name = Some sv ∧
    (is_dynamic (sv_def sv) = false → ∃ v, resolve_value name (sv_def sv) (sv_scope_id sv) = Ok v).

(** The strings of a source, its declarations left out. *)
Definition source_strings (source : Json) : list string :=
  match source with
  | JObject fields =>
      List.flat_map (λ kv, if decide (kv.1 = "variables") then [] else strings kv.2) fields
  | _ => strings source
  end.

Definition subst_source (source : Json) : Json :=
  match source with
  | JObject fields =>
      JObject (map (λ kv, if decide (kv.1 = "variables") then kv
                          else (kv.1, map_strings ref_value kv.2)) fields)
  | _ => map_strings ref_value source
  end.

(** What visiting [s] does to the bindings. *)
Inductive visits (s : string) (st st' : Bindings) : Prop :=
| visits_same : st' = st → ref_static_ok s →
    (∀ name id d, dynamic_ref s name id d → id ∈ bd_seen st) → visits s st st'
| visits_new name id d spec : dynamic_ref s name id d → id ∉ bd_seen st →
    build_dynamic_spec name d = Ok spec →
    st' = {| bd_bindings := bd_bindings st
               ++ [{| bi_name := name; bi_id := id; bi_spec := spec |}];
             bd_seen := {[id]} ∪ bd_seen st |} → visits s st st'.

Lemma walk_ref_ok s st r st' :
  walk_ref scope s st = Ok (r, st') → r = ref_value s ∧ visits s st st'.
Proof.
  unfold walk_ref, ref_value. destruct (parse_ref s) as [name|] eqn:Hp.
  2: { intros [= <- <-]. split; [done|]. constructor; [done| |].
       - intros name. by rewrite Hp.
       - intros name id d (sv & [Hr _] & _). congruence. }
  destruct (scope !! name) as [sv|] eqn:Hs; simpl; [|done].
  assert (∀ name' sv', refers_to s name' sv' → name' = name ∧ sv' = sv) as Huniq
    by (intros ?? []; split; congruence).
  destruct (is_dynamic (sv_def sv)) eqn:Hd.
  - destruct (stored_literal _) as [[lit|]|] eqn:Hl; simpl; [| |done].
    + intros [= <- <-]. split; [done|]. constructor; [done| |].
      * intros name'. rewrite Hp. intros [= <-]. exists sv. by rewrite Hd.
      * intros ??? (sv' & [-> ->]%Huniq & -> & -> & _ & ?). congruence.
    + case_bool_decide as Hin.
      * intros [= <- <-]. split; [done|]. constructor; [done| |].
        -- intros name'. rewrite Hp. intros [= <-]. exists sv. by rewrite Hd.
        -- by intros ??? (sv' & [-> ->]%Huniq & -> & -> & _).
      * destruct (build_dynamic_spec _ _) as [spec|] eqn:Hb; simpl; [|done].
        intros [= <- <-]. split; [done|]. eapply visits_new; [|done..]. by exists sv.
  - destruct (resolve_value _ _ _) as [v|] eqn:Hv; simpl; [|done]. intros [= <- <-].
    split; [done|]. constructor; [done| |].
    + intros name'. rewrite Hp. intros [= <-]. exists sv. eauto.
    + intros ??? (sv' & [-> ->]%Huniq & -> & _ & ? & _). congruence.
Qed.

Lemma walk_ref_total s st : ref_ok s → ∃ r, walk_ref scope s st = Ok r.
Proof.
  intros Hok. unfold walk_ref. destruct (parse_ref s) as [name|] eqn:Hp; [|eauto].
  destruct (Hok name Hp) as (sv & Hs & Hr). rewrite Hs. simpl.
  destruct (is_dynamic (sv_def sv)).
  - destruct Hr as (lit & Hl & Hb). rewrite Hl. simpl. destruct lit as [lit|]; [eauto|].
    case_bool_decide; [eauto|]. destruct (Hb eq_refl) as [spec Hspec]. rewrite Hspec. simpl. eauto.
  - destruct Hr as [v Hv]. rewrite Hv. simpl. eauto.
Qed.

Lemma resolve_refs_fold source :
  resolve_refs scope source =
    let? st := try_fold (visit_step (walk_ref scope)) {| bd_bindings := []; bd_seen := ∅ |}
                 (source_strings source) in
    Ok (subst_source source, bd_bindings st).
Proof.
  assert (∀ s st r st', walk_ref scope s st = Ok (r, st') → r = ref_value s) as Hg
    by (intros ???? [? _]%walk_ref_ok; done).
  unfold resolve_refs. set (st := {| bd_bindings := []; bd_seen := ∅ |}). unfold walk.
  destruct source as [| | | |items|fields];
    [by rewrite (walk_strings_fold _ ref_value Hg); destruct (try_fold _ st _)..|].
  rewrite (map_st_fold (walk_ref scope) (walk_field scope)
    (λ kv, if decide (kv.1 = "variables") then [] else strings kv.2)
    (λ kv, if decide (kv.1 = "variables") then kv else (kv.1, map_strings ref_value kv.2))).
  - simpl. by destruct (try_fold _ st _).
  - apply list.Forall_forall. intros kv _ st'. unfold walk_field.
    destruct (decide (kv.1 = "variables")); [done|]. unfold walk.
    rewrite (walk_strings_fold _ ref_value Hg). by destruct (try_fold _ st' _).
Qed.

(** *** The bindings of a source *)

Record bound (l : list string) (st st' : Bindings) : Prop := {
  bo_grow : bd_seen st ⊆ bd_seen st';
  bo_seen : list_to_set (bi_id <$> bd_bindings st) = bd_seen st →
            list_to_set (bi_id <$> bd_bindings st') = bd_seen st';
  bo_nodup : list_to_set (bi_id <$> bd_bindings st) = bd_seen st →
             NoDup (bi_id <$> bd_bindings st) → NoDup (bi_id <$> bd_bindings st');
  bo_new b : b ∈ bd_bindings st' → b ∈ bd_bindings st ∨
             ∃ s d, s ∈ l ∧ dynamic_ref s (bi_name b) (bi_id b) d ∧
                    build_dynamic_spec (bi_name b) d = Ok (bi_spec b);
  bo_static s : s ∈ l → ref_static_ok s;
  bo_all s name id d : s ∈ l → dynamic_ref s name id d → id ∈ bd_seen st'
}.

Lemma dynamic_static_ok s name id d : dynamic_ref s name id d → ref_static_ok s.
Proof.
  intros (sv & [Hp Hs] & -> & -> & Hd & _) name'. rewrite Hp. intros [= <-].
  exists sv. split; [done|congruence].
Qed.

Lemma visits_bound s st st' : visits s st st' → bound [s] st st'.
Proof.
  intros [->  Hst Hd|name id d spec Hdr Hni Hb ->].
  - split; [done..| | |].
    + by left.
    + by intros ? ->%list_elem_of_singleton.
    + intros ???? ->%list_elem_of_singleton. apply Hd.
  - split; simpl.
    + set_solver.
    + intros <-. rewrite fmap_app, list_to_set_app_L. simpl. set_solver.
    + intros Heq Hnd. rewrite fmap_app. apply NoDup_app. split_and!; [done| |apply NoDup_singleton].
      intros x Hx ->%list_elem_of_singleton. apply Hni. rewrite <- Heq.
      by apply elem_of_list_to_set.
    + intros b [?| ->%list_elem_of_singleton]%elem_of_app; [by left|right].
      exists s, d. split_and!; [by left|done|done].
    + intros ? ->%list_elem_of_singleton. by eapply dynamic_static_ok.
    + intros ???? ->%list_elem_of_singleton (sv' & [Hp' Hs'] & _ & -> & _).
      destruct Hdr as (sv & [Hp Hs] & _ & -> & _).
      assert (name0 = name) as -> by congruence. assert (sv' = sv) as -> by congruence. set_solver.
Qed.

Lemma bound_cons s l st st1 st' : bound [s] st st1 → bound l st1 st' → bound (s :: l) st st'.
Proof.
  intros [] []. split.
  - by etrans.
  - auto.
  - auto.
  - intros b Hb. destruct (bo_new1 b Hb) as [Hb1|(s' & d & ? & ?)].
    + destruct (bo_new0 b Hb1) as [?|(s' & d & ->%list_elem_of_singleton & ?)]; [by left|right].
      exists s, d. split; [by left|done].
    + right. exists s', d. split; [by right|done].
  - intros x [->|?]%elem_of_cons; [apply bo_static0; by left|auto].
  - intros x name id d [->|?]%elem_of_cons Hd; [|eauto].
    apply bo_grow1. eapply bo_all0; [by left|done].
Qed.

Lemma fold_bound l st st' :
  try_fold (visit_step (walk_ref scope)) st l = Ok st' → bound l st st'.
Proof.
  revert st; induction l as [|s l IH]; intros st; cbn [try_fold].
  - intros [= <-]. split; [done..|by left|by intros ? ?%elem_of_nil|by intros ???? ?%elem_of_nil].
  - intros Hf. apply rbind_ok in Hf as (st1 & H1 & H2). unfold visit_step in H1.
    destruct (walk_ref scope s st) as [[r st2]|] eqn:Hw; simpl in H1; [|done]. injection H1 as ->.
    apply walk_ref_ok in Hw as [_ Hv]. eapply bound_cons; [by apply visits_bound|by apply IH].
Qed.

Lemma fold_total l st :
  (∀ s, s ∈ l → ref_ok s) → ∃ st', try_fold (visit_step (walk_ref scope)) st l = Ok st'.
Proof.
  revert st; induction l as [|s l IH]; intros st Hl; cbn [try_fold]; [eauto|].
  destruct (walk_ref_total s st) as [[r st1] Hr]; [apply Hl; by left|].
  assert (visit_step (walk_ref scope) st s = Ok st1) as -> by (unfold visit_step; by rewrite Hr).
  simpl. apply IH. intros; apply Hl; by right.
Qed.

(** C36: resolving a source is a single substitution: it succeeds when every reference can be
    resolved, and then each string that is exactly a reference to a static variable has
    become that variable's value, everything else - the declarations included - is as it
    was, and substituted values are not looked at again; the dynamic references without a
    collected value are exactly the bindings, one per identity, each with the
    specification its declaration builds. *)
Theorem resolve_refs_spec source :
  ((∀ s, s ∈ source_strings source → ref_ok s) → ∃ r, resolve_refs scope source = Ok r) ∧
  ∀ source' binds, resolve_refs scope source = Ok (source', binds) →
    source' = subst_source source ∧
    (∀ s, s ∈ source_strings source → ref_static_ok s) ∧
    NoDup (bi_id <$> binds) ∧
    (∀ b, b ∈ binds → ∃ s d, s ∈ source_strings source ∧
       dynamic_ref s (bi_name b) (bi_id b) d ∧
       build_dynamic_spec (bi_name b) d = Ok (bi_spec b)) ∧
    (∀ s name id d, s ∈ source_strings source → dynamic_ref s name id d → id ∈ bi_id <$> binds).
Proof.
  rewrite resolve_refs_fold. split.
  - intros [st' Hst]%(fold_total _ {| bd_bindings := []; bd_seen := ∅ |}). rewrite Hst. eauto.
  - intros source' binds. destruct (try_fold _ _ _) as [st'|] eqn:Hf; simpl; [|done].
    intros [= <- <-]. apply fold_bound in Hf as [_ Hseen Hnd Hnew Hst Hall]. simpl in *.
    split_and!; [done|done|apply Hnd; [done|constructor]| |].
    + intros b Hb. destruct (Hnew b Hb) as [?%elem_of_nil|?]; done.
    + intros s name id d Hs Hd.
      assert (id ∈ (list_to_set (bi_id <$> bd_bindings st') : gset string)) as Hin
        by (rewrite Hseen; eauto).
      by apply elem_of_list_to_set in Hin.
Qed.

(** *** The detector *)

Lemma collect_refs_fold v st :
  collect_refs scope v st = foldl (λ st s, collect_ref scope s st) st (strings v).
Proof.
  revert st. induction v as [|b|n|s|items IH|fields IH] using Json_ind'; intros st; try done; simpl.
  - revert st. induction IH as [|x l Hx _ IHl]; intros st; [done|].
    cbn [foldl List.flat_map]. by rewrite Hx, IHl, foldl_app.
  - revert st. induction IH as [|x l Hx _ IHl]; intros st; [done|].
    cbn [foldl List.flat_map]. by rewrite Hx, IHl, foldl_app.
Qed.

Lemma collect_static_fold source :
  collect_static_refs scope source =
    (foldl (λ st s, collect_ref scope s st) ([], ∅) (source_strings source)).1.
Proof.
  unfold collect_static_refs, source_strings.
  destruct source as [| | | | |fields]; try by rewrite collect_refs_fold.
  f_equal. generalize (@nil StaticVarRef, ∅ : gset string) as st.
  induction fields as [|kv fields IH]; intros st; [done|].
  cbn [foldl List.flat_map]. rewrite foldl_app, <- IH. f_equal.
  destruct (decide _); [done|apply collect_refs_fold].
Qed.

(** The string refers to a static variable. *)
Definition static_ref (s name : string) (sv : ScopedVar) : Prop :=
  refers_to s name sv ∧ is_dynamic (sv_def sv) = false.

(** What the detector says of a reference. *)
Definition reported (name : string) (sv : ScopedVar) : StaticVarRef :=
  {| sr_name := name; sr_var_id := var_id (sv_scope_id sv) name; sr_kind := vd_kind (sv_def sv);
     sr_input_key := default name (input_key (sv_def sv));
     sr_resolves := is_ok (resolve_value name (sv_def sv) (sv_scope_id sv)) |}.

Record detected (l : list string) (st : list StaticVarRef * gset string) : Prop := {
  de_names : list_to_set (sr_name <$> st.1) = st.2;
  de_nodup : NoDup (sr_name <$> st.1);
  de_from r : r ∈ st.1 → ∃ s sv, s ∈ l ∧ static_ref s (sr_name r) sv ∧ r = reported (sr_name r) sv;
  de_all s name sv : s ∈ l → static_ref s name sv → name ∈ st.2
}.

Lemma detected_mono l s st st' :
  detected l st → st.2 ⊆ st'.2 → list_to_set (sr_name <$> st'.1) = st'.2 →
  NoDup (sr_name <$> st'.1) →
  (∀ r, r ∈ st'.1 → r ∈ st.1 ∨ ∃ sv, static_ref s (sr_name r) sv ∧ r = reported (sr_name r) sv) →
  (∀ name sv, static_ref s name sv → name ∈ st'.2) → detected (l ++ [s]) st'.
Proof.
  intros [Hn _ Hf Ha] Hsub Hn' Hnd' Hnew Hs. split; [done|done| |].
  - intros r [Hr|(sv & ? & ?)]%Hnew.
    + destruct (Hf r Hr) as (s' & sv & ? & ?). exists s', sv. split; [|done].
      apply elem_of_app. by left.
    + exists s, sv. split; [|done]. apply elem_of_app. right. by left.
  - intros s' name sv [?| ->%list_elem_of_singleton]%elem_of_app ?; [|eauto]. apply Hsub. eauto.
Qed.

Lemma collect_ref_detected l s st : detected l st → detected (l ++ [s]) (collect_ref scope s st).
Proof.
  intros Hd. destruct st as [out seen]. pose proof Hd as [Hn Hnd Hf Ha].
  assert ((∀ name sv, static_ref s name sv → name ∈ seen) → detected (l ++ [s]) (out, seen)) as Hsame.
  { intros Hs. eapply detected_mono; [exact Hd|done..|by left|done]. }
  unfold collect_ref. destruct (parse_ref s) as [name|] eqn:Hp.
  2: { apply Hsame. intros name sv [[? _] _]. congruence. }
  destruct (scope !! name) as [sv|] eqn:Hs.
  2: { apply Hsame. intros name' sv [[? ?] _]. congruence. }
  assert (∀ name' sv', static_ref s name' sv' → name' = name ∧ sv' = sv) as Huniq
    by (intros ?? [[] _]; split; congruence).
  destruct (is_dynamic (sv_def sv)) eqn:Hdy; simpl.
  { apply Hsame. intros name' sv' Hst. destruct (Huniq _ _ Hst) as [-> ->]. destruct Hst. congruence. }
  case_bool_decide as Hin; [apply Hsame; by intros name' sv' [-> _]%Huniq|].
  eapply detected_mono; [exact Hd|simpl; set_solver|..]; simpl.
  - rewrite fmap_app, list_to_set_app_L. simpl in *. set_solver.
  - rewrite fmap_app. apply NoDup_app. split_and!; [done| |apply NoDup_singleton].
    intros x Hx ->%list_elem_of_singleton. apply Hin. simpl in Hn. rewrite <- Hn.
    by apply elem_of_list_to_set.
  - intros r [?| ->%list_elem_of_singleton]%elem_of_app; [by left|right]. by exists sv.
  - intros name' sv' [-> _]%Huniq. set_solver.
Qed.

Lemma collect_detected source :
  ∃ seen, detected (source_strings source) (collect_static_refs scope source, seen).
Proof.
  rewrite collect_static_fold.
  assert (∀ l l' st, detected l' st →
    detected (l' ++ l) (foldl (λ st s, collect_ref scope s st) st l)) as Hfold.
  { induction l as [|s l IH]; intros l' st Hst; cbn [foldl]; [by rewrite app_nil_r|].
    replace (l' ++ s :: l) with ((l' ++ [s]) ++ l) by (by rewrite <- app_assoc).
    by apply IH, collect_ref_detected. }
  specialize (Hfold (source_strings source) [] ([], ∅)). exists (foldl (λ st s, collect_ref scope s st)
    ([], ∅) (source_strings source)).2. rewrite <- surjective_pairing. apply Hfold.
  split; simpl; [done|constructor|by intros ? ?%elem_of_nil|by intros ??? ?%elem_of_nil].
Qed.

(** the detector behind [source connect] agrees with the resolver: it reports each static
    variable a source refers to once, and, provided every reference is declared and the
    dynamic ones can be resolved, loading the source succeeds exactly when every reported
    reference is said to resolve. *)
Theorem static_refs_agree source :
  (∀ s name, s ∈ source_strings source → parse_ref s = Some name →
     ∃ sv, scope !! name = Some sv ∧ (is_dynamic (sv_def sv) = true → ref_ok s)) →
  NoDup (sr_name <$> collect_static_refs scope source) ∧
  (∀ s name sv, s ∈ source_strings source → static_ref s name sv →
     reported name sv ∈ collect_static_refs scope source) ∧
  ((∃ r, resolve_refs scope source = Ok r) ↔
   ∀ r, r ∈ collect_static_refs scope source → sr_resolves r = true).
Proof.
  intros Hdecl. destruct (collect_detected source) as [seen [Hn Hnd Hf Ha]]; simpl in *.
  assert (∀ s name sv, s ∈ source_strings source → static_ref s name sv →
     reported name sv ∈ collect_static_refs scope source) as Hrep.
  { intros s name sv Hs Hst. pose proof (Ha _ _ _ Hs Hst) as Hin. rewrite <- Hn in Hin.
    apply elem_of_list_to_set, list_elem_of_fmap in Hin as (r & -> & Hr).
    destruct (Hf r Hr) as (s' & sv' & _ & [[_ Hs'] _] & Heq). rewrite Heq in Hr.
    destruct Hst as [[_ Hsv] _]. by assert (sv' = sv) as -> by congruence. }
  split_and!; [done|done|]. split.
  - intros [[source' binds] Hok] r Hr.
    rewrite resolve_refs_fold in Hok.
    destruct (try_fold _ _ _) as [st'|] eqn:Hfold; simpl in Hok; [|done].
    apply fold_bound in Hfold as [_ _ _ _ Hst _].
    destruct (Hf r Hr) as (s & sv & Hs & [[Hp Hsv] Hd] & Heq).
    destruct (Hst s Hs _ Hp) as (sv' & Hsv' & Hv). assert (sv' = sv) as -> by congruence.
    destruct (Hv Hd) as [v Hv']. rewrite Heq. simpl. by rewrite Hv'.
  - intros Hres. rewrite resolve_refs_fold.
    edestruct (fold_total (source_strings source)) as [st' Hst']; [|rewrite Hst'; simpl; eauto].
    intros s Hs name Hp. destruct (Hdecl s name Hs Hp) as (sv & Hsv & Hdy).
    destruct (is_dynamic (sv_def sv)) eqn:Hd; [exact (Hdy eq_refl name Hp)|].
    exists sv. rewrite Hd. split; [done|].
    pose proof (Hres _ (Hrep s name sv Hs ltac:(done))) as Hr. simpl in Hr.
    destruct (resolve_value _ _ _) as [v|]; [eauto|done].
Qed.
End refs.

(** ** Values have their declared types *)

Lemma json_eqb_refl v : json_eqb v v = true.
Proof.
  induction v as [|b|n|s|items IH|fields IH] using Json_ind'; simpl; try done.
  - by destruct b.
  - destruct n; simpl; by rewrite bool_decide_eq_true_2.
  - by rewrite bool_decide_eq_true_2.
  - induction IH as [|x l Hx _ IHl]; [done|]. by rewrite Hx.
  - induction IH as [|[k x] l Hx _ IHl]; [done|]. simpl in Hx.
    by rewrite Hx, bool_decide_eq_true_2.
Qed.

Lemma number_of_i64_integer z : accepts VInteger (JNumber (number_of_i64 z)) = true.
Proof. unfold number_of_i64. by destruct (0 <=? z)%Z. Qed.

Section values.
Context `{Loading}.

(** A value of the declared type, one of the choices for an enumeration. *)
Definition has_var_type (d : VariableDef) (v : Json) : Prop :=
  accepts (var_type d) v = true ∧
  (var_type d = VEnum → existsb (json_eqb v) (vd_choices d) = true).

Lemma coerce_str_typed name d raw v :
  coerce_str name (var_type d) (vd_choices d) raw = Ok v → has_var_type d v.
Proof.
  unfold coerce_str, has_var_type. destruct (var_type d).
  - by intros [= <-].
  - destruct (parse_i64 _) as [n|]; simpl; [|done]. intros [= <-].
    split; [apply number_of_i64_integer|done].
  - destruct (parse_i64 _) as [n|]; [by intros [= <-]|].
    destruct (f64_number _); simpl; [|done]. by intros [= <-].
  - repeat case_bool_decide; try done; by intros [= <-].
  - destruct (List.find _ _) as [c|] eqn:Hf; simpl; [|done]. intros [= <-]. split; [done|].
    intros _. apply List.find_some in Hf as [Hin _]. apply existsb_exists.
    exists c. split; [done|apply json_eqb_refl].
Qed.

Lemma validate_def_default name d v :
  validate_def name d = Ok () → vd_kind d = Variable_ → vd_default d = Some v → has_var_type d v.
Proof.
  unfold validate_def. intros Hv Hk Hd. rewrite Hk in Hv.
  destruct (starts_with _ _); [done|]. destruct (_ && _); [done|].
  destruct (is_credential_like name); [done|]. destruct (is_dynamic d); [done|].
  unfold validate_var_type in Hv. rewrite Hd in Hv. unfold has_var_type.
  destruct (var_type d).
  1-4: destruct (negb (bool_decide (length (vd_choices d) = 0))); [done|];
    destruct (accepts _ v); [done|discriminate].
  destruct (bool_decide (length (vd_choices d) = 0)); [done|].
  destruct (existsb _ _) eqn:He; [|discriminate]. by destruct v.
Qed.

(** a variable resolves to a value of its declared type: whatever has been collected for
    it or is in the environment, a variable whose definition was accepted gets a string, an
    integer, a number, a boolean or one of the choices as declared, a secret gets a string,
    and only one that is not required may be null for want of a value. *)
Theorem resolve_value_typed name d scope_id v :
  validate_def name d = Ok () → resolve_value name d scope_id = Ok v →
  (v = JNull ∧ vd_required d = false) ∨
  match vd_kind d with
  | Secret => ∃ s, v = JString s
  | Variable_ => has_var_type d v
  end.
Proof.
  intros Hv. unfold resolve_value. destruct (stored_literal _) as [lit|]; simpl; [|done].
  destruct (vd_kind d) eqn:Hk.
  - destruct lit as [lit|]; [intros ?; right; by eapply coerce_str_typed|].
    destruct (env_var _) as [raw|]; [intros ?; right; by eapply coerce_str_typed|].
    destruct (vd_default d) as [dv|] eqn:Hd.
    + intros [= <-]. right. by eapply validate_def_default.
    + destruct (vd_required d); simpl; [done|]. intros [= <-]. by left.
  - destruct lit as [lit|]; [intros [= <-]; right; eauto|].
    destruct (secret_get _) as [[s|]|]; simpl; [intros [= <-]; right; eauto| |done].
    destruct (vd_required d); simpl; [done|]. intros [= <-]. by left.
Qed.

(** ** Scopes *)

(** Every declaration of a scope was accepted and carries its scope. *)
Definition scope_valid (P : string → Prop) (scope : VariableScope) : Prop :=
  ∀ name sv, scope !! name = Some sv → validate_def name (sv_def sv) = Ok () ∧ P (sv_scope_id sv).

Lemma parse_block_valid block scope_id scope :
  parse_block block scope_id = Ok scope → scope_valid (λ id, id = scope_id) scope.
Proof.
  unfold parse_block. destruct (as_object block) as [obj|]; simpl; [|done].
  assert (scope_valid (λ id, id = scope_id) ∅) as Hem by (intros ???%lookup_empty_Some; done).
  revert Hem. generalize (∅ : VariableScope) as out.
  induction obj as [|[k raw] obj IH]; intros out Hout; cbn [try_fold]; [by intros [= <-]|].
  intros Hf. apply rbind_ok in Hf as (out1 & H1 & H2). cbn [fst snd] in H1.
  destruct (parse_def raw) as [d|]; simpl in H1; [|done].
  destruct (validate_def k d) as [[]|] eqn:Hv; simpl in H1; [|done]. injection H1 as <-.
  eapply IH; [|done]. intros name sv. destruct (decide (k = name)) as [->|].
  - rewrite lookup_insert_eq. by intros [= <-].
  - rewrite lookup_insert_ne by done. apply Hout.
Qed.

(** The first declaration, innermost scope first. *)
Definition innermost (l : list (option ScopedVar)) : option ScopedVar := head (omap id l).

Lemma innermost_cons o l :
  innermost (o :: l) = match o with Some sv => Some sv | None => innermost l end.
Proof. by destruct o. Qed.

Lemma merge_into_lookup base overlay name :
  merge_into base overlay !! name =
    match overlay !! name with Some sv => Some sv | None => base !! name end.
Proof. unfold merge_into. rewrite lookup_union. by destruct (overlay !! name), (base !! name). Qed.

Lemma fragments_lookup (frags : gmap string VariableScope) chain base name :
  foldl (λ scope file, match frags !! file with
                       | Some frag => merge_into scope frag
                       | None => scope
                       end) base chain !! name =
    innermost (((λ file, frags !! file ≫= lookup name) <$> reverse chain) ++ [base !! name]).
Proof.
  revert base. induction chain as [|file chain IH]; intros base; cbn [foldl].
  { simpl. unfold innermost. simpl. by destruct (base !! name). }
  rewrite IH, reverse_cons, fmap_app, <- app_assoc.
  generalize ((λ file0, frags !! file0 ≫= lookup name) <$> reverse chain) as l.
  induction l as [|o l IHl]; csimpl; rewrite !innermost_cons.
  - destruct (frags !! file) as [frag|]; simpl; [|done]. rewrite merge_into_lookup.
    destruct (frag !! name); [done|]. unfold innermost; simpl. by destruct (base !! name).
  - destruct o; [done|apply IHl].
Qed.

(** the closest declaration wins: the scope a source is resolved in gives each name the
    declaration of the source's own block, else of the last file of its include chain that
    declares it, else of the root; each of the source's own declarations was accepted and is
    identified by the source. *)
Theorem source_scope_innermost source chain global frags scope :
  source_scope source chain global frags = Ok scope →
  ∃ local : VariableScope,
    (get source "variables" = None → local = ∅) ∧
    scope_valid (λ id, id = "source:" +:+ default "?" (str_at source "name")) local ∧
    ∀ name, scope !! name =
      innermost ([local !! name]
        ++ ((λ file, frags !! file ≫= lookup name) <$> reverse (default [] chain))
        ++ [global !! name]).
Proof.
  unfold source_scope. destruct (get source "variables") as [block|].
  - destruct (parse_block block _) as [local|] eqn:Hp; simpl; [|done]. intros [= <-].
    exists local. split_and!; [done|by eapply parse_block_valid|]. intros name.
    rewrite merge_into_lookup. cbn [app]. rewrite innermost_cons. destruct (local !! name); [done|].
    by rewrite fragments_lookup.
  - intros [= <-]. exists ∅. split_and!; [done|by intros ???%lookup_empty_Some|]. intros name.
    cbn [app]. rewrite innermost_cons, lookup_empty. by rewrite fragments_lookup.
Qed.
End values.

(** ** A sample source *)

Definition plain_def (k : VarKind) (default : option Json) (oauth : option Json) : VariableDef :=
  {| vd_kind := k; vd_type := None; vd_default := default; vd_choices := []; vd_required := true;
     vd_description := None; vd_methods := []; vd_oauth := oauth; vd_input := None |}.

(** One secret, one environment variable, no collected values; a definition gives its kind and
    default. *)
Definition sample_loading : Loading :=
  {| secret_get := λ k, Ok (if decide (k = "API_KEY") then Some "s3cr3t" else None);
     value_store := Some (λ _, Ok None);
     env_var := λ k, if decide (k = "REGION") then Some "eu" else None;
     read_to_string := λ _, Err "no files";
     parse_def := λ v, match str_at v "kind" with
                       | Some k => Ok (plain_def (if decide (k = "secret") then Secret else Variable_)
                                         (get v "default") (get v "oauth"))
                       | None => Err "missing field `kind`"
                       end;
     f64_number := λ _, None;
     json_text := λ _, "";
     parse_url := λ _, Err "no url";
     explicit_url_port := λ _, None;
     set_port := λ _, λ _, None |}.

Definition sample_oauth : Json :=
  JObject [("client", JObject [("id", JString "app"); ("secret", JString "x")]);
           ("endpoints", JObject [("token_url", JString "https://idp/token")]);
           ("grant", JObject [("type", JString "client_credentials")])].

Definition sample_scope : VariableScope :=
  {["API_KEY" := {| sv_def := plain_def Secret None None; sv_scope_id := "root" |};
    "REGION" := {| sv_def := plain_def Variable_ (Some (JString "us")) None; sv_scope_id := "root" |};
    "SESSION" := {| sv_def := plain_def Secret None (Some sample_oauth); sv_scope_id := "root" |}]}.

Definition sample_source : Json :=
  JObject [("config", JObject [("key", JString "${var:API_KEY}");
                               ("region", JString " ${var:REGION} ");
                               ("token", JString "${var:SESSION}")]);
           ("name", JString "api");
           ("variables", JObject [("API_KEY", JString "${var:API_KEY}")])].

Definition resolved_sample : Json :=
  JObject [("config", JObject [("key", JString "s3cr3t"); ("region", JString "eu");
                               ("token", JString "${var:SESSION}")]);
           ("name", JString "api");
           ("variables", JObject [("API_KEY", JString "${var:API_KEY}")])].

Definition sample_binding : DynamicVarBinding :=
  {| bi_name := "SESSION"; bi_id := "root::SESSION";
     bi_spec := ClientCredentials {| ep_discovery := None; ep_authorization_url := None;
                                     ep_device_authorization_url := None;
                                     ep_token_url := Some "https://idp/token" |}
                  "app" "x" None None RequestBody |}.

Lemma resolve_sample :
  resolve_refs (H := sample_loading) sample_scope sample_source = Ok (resolved_sample, [sample_binding]).
Proof. vm_compute. reflexivity. Qed.

Lemma resolve_refs_spec_witness :
  resolved_sample = subst_source (H := sample_loading) sample_scope sample_source
  ∧ NoDup (bi_id <$> [sample_binding]).
Proof.
  destruct (proj2 (resolve_refs_spec (H := sample_loading) sample_scope sample_source)
              resolved_sample [sample_binding] resolve_sample) as (H1 & _ & H2 & _).
  split; [exact H1|exact H2].
Defined.

Lemma sample_declared s name :
  s ∈ source_strings sample_source → parse_ref s = Some name →
  ∃ sv, sample_scope !! name = Some sv
    ∧ (is_dynamic (sv_def sv) = true → ref_ok (H := sample_loading) sample_scope s).
Proof.
  intros Hs Hp. assert (name = "API_KEY" ∨ name = "REGION" ∨ name = "SESSION") as Hn.
  { simpl in Hs. repeat (apply elem_of_cons in Hs as [->|Hs]; [vm_compute in Hp; naive_solver|]).
    by inversion Hs. }
  destruct Hn as [->|[->| ->]]; eexists; (split; [vm_compute; reflexivity|]); try done.
  intros _ name' Hp'. rewrite Hp in Hp'. injection Hp' as <-. eexists.
  split; [vm_compute; reflexivity|]. simpl. exists None. split; [vm_compute; reflexivity|].
  intros _. eexists. vm_compute. reflexivity.
Qed.

Lemma static_refs_agree_witness :
  (∃ r, resolve_refs (H := sample_loading) sample_scope sample_source = Ok r) ↔
  ∀ r, r ∈ collect_static_refs (H := sample_loading) sample_scope sample_source →
    sr_resolves r = true.
Proof. apply (static_refs_agree (H := sample_loading) sample_scope sample_source sample_declared). Defined.

Lemma resolve_value_typed_witness :
  (JString "eu" = JNull ∧ true = false)
  ∨ has_var_type (plain_def Variable_ (Some (JString "us")) None) (JString "eu").
Proof.
  apply (resolve_value_typed (H := sample_loading) "REGION"
           (plain_def Variable_ (Some (JString "us")) None) "root" (JString "eu"));
    vm_compute; reflexivity.
Defined.

Definition sample_local : Json :=
  JObject [("name", JString "api");
           ("variables", JObject [("REGION", JObject [("kind", JString "variable")])])].

Definition sample_local_scope : VariableScope :=
  default ∅ (to_option (source_scope (H := sample_loading) sample_local (Some ["root.yaml"])
                          sample_scope ∅)).

Lemma source_scope_innermost_witness :
  ∃ local : VariableScope, ∀ name, sample_local_scope !! name =
    innermost ([local !! name] ++ [None] ++ [sample_scope !! name]).
Proof.
  destruct (source_scope_innermost (H := sample_loading) sample_local (Some ["root.yaml"])
              sample_scope ∅ sample_local_scope) as (local & _ & _ & Hl); [vm_compute; reflexivity|].
  exists local. exact Hl.
Defined.
