(* ===== verification/Assemble.v ===== *)
(** * Assembling a configuration from files ([crates/pawrly-config/src/assemble.rs])
    [include:], [from:] and [semantic.include:]. Files are read through [Files]; a path is
    its text, compared by components where the code compares paths. *)

From S2P Require Export Loader.

(** ** Paths ([std::path]) *)

Definition droppable (c : string) : bool := bool_decide (c = "") || bool_decide (c = ".").

Fixpoint drop_while {A} (f : A → bool) (l : list A) : list A :=
  match l with
  | [] => []
  | x :: rest => if f x then drop_while f rest else l
  end.

(** The root or the leading [.], and the components after it. *)
Definition path_lead (p : string) : option string * list string :=
  let comps := split "/" p in
  if starts_with "/" p then (Some "/", List.tl comps)
  else if decide (head comps = Some ".") then (Some ".", List.tl comps)
  else (None, comps).

(** [Path::parent]. *)
Definition path_parent (p : string) : option string :=
  let '(lead, body) := path_lead p in
  match drop_while droppable (rev body) with
  | [] => if decide (lead = Some ".") then Some "" else None
  | _ :: rest =>
      let rest := rev (drop_while droppable rest) in
      Some (match lead, rest with
            | None, _ => join "/" rest
            | Some l, [] => l
            | Some l, _ => (if decide (l = "/") then "/" else "./") +:+ join "/" rest
            end)
  end.

Definition base_dir (path : string) : string := default "." (path_parent path).

(** The components of a path, ordered as [Component] is. *)
Definition component (c : string) : nat * string :=
  if decide (c = "..") then (3, "") else (4, c).

Definition components (p : string) : list (nat * string) :=
  let '(lead, body) := path_lead p in
  match lead with
  | Some l => if decide (l = "/") then [(1, "")] else [(2, "")]
  | None => []
  end ++ map component (List.filter (λ c, negb (droppable c)) body).

Definition component_ltb (a b : nat * string) : bool :=
  (a.1 <? b.1) || bool_decide (a.1 = b.1) && negb (str_leb b.2 a.2).

Fixpoint components_leb (l m : list (nat * string)) : bool :=
  match l, m with
  | [], _ => true
  | _ :: _, [] => false
  | a :: l, b :: m => component_ltb a b || bool_decide (a = b) && components_leb l m
  end.

Definition path_leb (p q : string) : bool := components_leb (components p) (components q).

(** The file system, the glob and the YAML crates; an error is its text. *)
Class Files := {
  glob : string → result string (list (result string string));
  canonicalize : string → option string;
  from_yaml : string → result string Json
}.

(** ** Merging *)

(** [deep_merge]. *)
Fixpoint deep_merge (base overlay : Json) {struct overlay} : Json :=
  match base, overlay with
  | JObject b, JObject o =>
      JObject ((fix go (o b : list (string * Json)) : list (string * Json) :=
        match o with
        | [] => b
        | (k, ov) :: o =>
            go o (match obj_get k b with
                  | Some bv => obj_insert k (deep_merge bv ov) b
                  | None => obj_insert k ov b
                  end)
        end) o b)
  | _, _ => overlay
  end.

Section files.
Context `{Loading} `{Files}.

Definition canonical (p : string) : string := default p (canonicalize p).

Definition resolve_path (base_dir raw : string) : string := path_join base_dir (expand_tilde raw).

(** [glob_paths]. *)
Definition glob_paths (base_dir pattern : string) : result ConfigError (list string) :=
  let? entries := map_err (EReadFile pattern) (glob (resolve_path base_dir pattern)) in
  let? out := try_map (map_err (EReadFile pattern)) entries in
  if bool_decide (length out = 0) then Err (EReadFile pattern "no files matched")
  else Ok (sort_by path_leb out).

Definition read_tree (path : string) : result ConfigError Json :=
  let? raw := map_err (EReadFile path) (read_to_string path) in
  map_err (λ e, EYaml (path +:+ ": " +:+ e)) (from_yaml raw).

(** [parse_include_patterns]. *)
Definition parse_include_patterns (include : option Json) (path : string)
    : result ConfigError (list string) :=
  match include with
  | Some (JArray entries) =>
      try_map (λ entry, ok_or (EYaml (path +:+ ": `include` entries must be strings"))
                          (as_str entry)) entries
  | Some JNull | None => Ok []
  | Some _ => Err (EYaml (path +:+ ": `include` must be a list of paths"))
  end.

(** A list taken out of a mapping; null or absent is empty. *)
Definition take_list (fields : list (string * Json)) (key path : string)
    : result ConfigError (list Json) :=
  match obj_get key fields with
  | Some (JArray items) => Ok items
  | Some JNull | None => Ok []
  | Some _ => Err (EYaml (path +:+ ": `" +:+ key +:+ "` must be a list"))
  end.

(** ** Collecting the files *)

Record Collected := {
  co_sources : list Json;
  co_origins : list string;
  co_chains : list (list string);
  co_frag_vars : gmap string Json;
  co_secrets : list Json;
  co_models : list Json;
  co_model_origins : list string;
  co_functions : list Json;
  co_function_origins : list string;
  co_visited : gset (list (nat * string))
}.

(** Sources declared by one file, with their origin and chain. *)
Definition add_sources (path : string) (chain : list string) (srcs : list Json) (c : Collected)
    : Collected :=
  {| co_sources := co_sources c ++ srcs;
     co_origins := co_origins c ++ ((λ _, path) <$> srcs);
     co_chains := co_chains c ++ ((λ _, chain) <$> srcs);
     co_frag_vars := co_frag_vars c; co_secrets := co_secrets c; co_models := co_models c;
     co_model_origins := co_model_origins c; co_functions := co_functions c;
     co_function_origins := co_function_origins c; co_visited := co_visited c |}.

Definition add_lists (path : string) (vars : option Json) (secrets functions : list Json)
    (c : Collected) : Collected :=
  {| co_sources := co_sources c; co_origins := co_origins c; co_chains := co_chains c;
     co_frag_vars := match vars with
                     | Some v => <[path := v]> (co_frag_vars c)
                     | None => co_frag_vars c
                     end;
     co_secrets := co_secrets c ++ secrets; co_models := co_models c;
     co_model_origins := co_model_origins c; co_functions := co_functions c ++ functions;
     co_function_origins := co_function_origins c ++ ((λ _, path) <$> functions);
     co_visited := co_visited c |}.

Definition add_models (path : string) (models : list Json) (c : Collected) : Collected :=
  {| co_sources := co_sources c; co_origins := co_origins c; co_chains := co_chains c;
     co_frag_vars := co_frag_vars c; co_secrets := co_secrets c;
     co_models := co_models c ++ models;
     co_model_origins := co_model_origins c ++ ((λ _, path) <$> models);
     co_functions := co_functions c; co_function_origins := co_function_origins c;
     co_visited := co_visited c |}.

Definition mark_visited (canon : list (nat * string)) (c : Collected) : Collected :=
  {| co_sources := co_sources c; co_origins := co_origins c; co_chains := co_chains c;
     co_frag_vars := co_frag_vars c; co_secrets := co_secrets c; co_models := co_models c;
     co_model_origins := co_model_origins c; co_functions := co_functions c;
     co_function_origins := co_function_origins c; co_visited := {[canon]} ∪ co_visited c |}.

Definition has_key (fields : list (string * Json)) (key : string) : bool :=
  bool_decide (is_Some (obj_get key fields)).

Definition ROOT_ONLY_KEYS : list string := ["version"; "name"; "defaults"].

(** [take_models]: the mapping without its models, and the models recorded. *)
Definition take_models (fields : list (string * Json)) (path : string) (c : Collected)
    : result ConfigError (list (string * Json) * Collected) :=
  let? models := take_list fields "models" path in
  Ok (obj_remove "models" fields, add_models path models c).

(** The rules of a file that is not the root. *)
Definition check_root_only (fields : list (string * Json)) (path : string) (single : bool)
    : result ConfigError () :=
  try_each (λ key, if has_key fields key
                   then Err (ESource path ("key `" +:+ key +:+ "` is only allowed in the root config"))
                   else Ok ())
    (if single then ["version"; "defaults"] else ROOT_ONLY_KEYS).

(** A bare source: the file is the source. *)
Definition collect_single (fields : list (string * Json)) (path : string) (chain : list string)
    (c : Collected) : result ConfigError (list (string * Json) * list string * Collected) :=
  let? patterns := parse_include_patterns (obj_get "include" fields) path in
  Ok ([], patterns, add_sources path chain [JObject (obj_remove "include" fields)] c).

(** The [variables:] of a fragment; the root keeps its own. *)
Definition fragment_vars (fields : list (string * Json)) (is_root : bool) : option Json :=
  if is_root then None
  else match obj_get "variables" fields with
       | Some JNull | None => None
       | Some vars => Some vars
       end.

(** A fragment: its lists are taken out of the mapping. *)
Definition collect_fragment (fields : list (string * Json)) (path : string) (is_root : bool)
    (chain : list string) (c : Collected)
    : result ConfigError (list (string * Json) * list string * Collected) :=
  let vars := fragment_vars fields is_root in
  let fields := if is_root then fields else obj_remove "variables" fields in
  let? srcs := take_list fields "sources" path in
  let? secrets := take_list fields "secrets" path in
  let? functions := take_list fields "functions" path in
  let? patterns := parse_include_patterns (obj_get "include" fields) path in
  let fields := obj_remove "include" (obj_remove "functions" (obj_remove "secrets"
                  (obj_remove "sources" fields))) in
  Ok (fields, patterns, add_lists path vars secrets functions (add_sources path chain srcs c)).

(** What one file contributes, before the files it includes. *)
Definition collect_own (tree : Json) (path : string) (is_root : bool) (chain : list string)
    (c : Collected) : result ConfigError (list (string * Json) * list string * Collected) :=
  let? fields := ok_or (EYaml (path +:+ ": top-level config must be a mapping")) (as_object tree) in
  let single := negb is_root && has_key fields "kind" in
  let? '(fields, c) :=
    if is_root then Ok (fields, c)
    else let? _ := check_root_only fields path single in take_models fields path c in
  if single then collect_single fields path chain c
  else collect_fragment fields path is_root chain c.

(** The guard against a file reached twice. *)
Definition check_visited (chain : list string) (matched : string)
    (visited : gset (list (nat * string))) : result ConfigError () :=
  if bool_decide (components (canonical matched) ∈ visited)
  then Err (EIncludeCycle (join " → " (chain ++ [matched])))
  else Ok ().

(** All files the patterns match, in order. *)
Definition each_match {S} (f : S → string → result ConfigError S) (path : string)
    (patterns : list string) (st : S) : result ConfigError S :=
  try_fold (λ st pattern,
    let? matches := glob_paths (base_dir path) pattern in try_fold f st matches) st patterns.

(** [collect]: the root's mapping afterwards, and what was collected. A file is entered once,
    so the fuel bounds the number of files ([collect_fuel]). *)
Fixpoint collect (fuel : nat) (tree : Json) (path : string) (is_root : bool)
    (chain : list string) (c : Collected)
    : result ConfigError (list (string * Json) * Collected) :=
  let? '(fields, patterns, c) := collect_own tree path is_root chain c in
  let? c := each_match (λ c matched,
    let? _ := check_visited chain matched (co_visited c) in
    let c := mark_visited (components (canonical matched)) c in
    let? sub := read_tree matched in
    match fuel with
    | O => Err (EIncludeCycle "")
    | S fuel =>
        let? '(_, c) := collect fuel sub matched false (chain ++ [matched]) c in Ok c
    end) path patterns c in
  Ok (fields, c).

(** ** [from:] *)

Definition source_name_of (src : Json) : string := default "<unnamed>" (str_at src "name").

Definition keep_key (key : string) (v : option Json) (fields : list (string * Json))
    : list (string * Json) :=
  match v with Some v => obj_insert key v fields | None => fields end.

(** The body of a source over the loaded one. *)
Definition merge_from (src fragment : Json) : result ConfigError Json :=
  let overlay := default [] (as_object src) in
  let merged := deep_merge fragment
                  (JObject (obj_remove "kind" (obj_remove "name" (obj_remove "from" overlay)))) in
  let? fields := ok_or (EYaml "`from:` merge produced a non-mapping") (as_object merged) in
  Ok (JObject (keep_key "kind" (obj_get "kind" overlay)
                 (keep_key "name" (obj_get "name" overlay) fields))).

(** [expand_from]. *)
Definition expand_from (src : Json) (origin : string) : result ConfigError Json :=
  match get src "from" with
  | None => Ok src
  | Some (JString from_str) =>
      let name := source_name_of src in
      let frag_path := resolve_path (base_dir origin) from_str in
      let? fragment := read_tree frag_path in
      let? frag := ok_or (EYaml (frag_path +:+ ": `from:` target must be a mapping"))
                     (as_object fragment) in
      if has_key frag "name" || has_key frag "kind" then
        Err (ESource name "`from:` target must not set `name` or `kind`")
      else if has_key frag "from" then
        Err (ESource name "`from:` is not transitive: the target file may not itself contain `from:`")
      else merge_from src fragment
  | Some _ => Err (ESource (source_name_of src) "`from:` must be a string path")
  end.

(** ** Semantic models *)

(** [load_model_file]. *)
Definition load_model_file (path : string) : result ConfigError (list Json) :=
  let? value := read_tree path in
  match value with
  | JArray models => Ok models
  | JObject fields =>
      let extra := fst <$> obj_remove "models" fields in
      if negb (bool_decide (extra = [])) then
        Err (EYaml (path +:+ ": a semantic include file may contain only models; unexpected key(s): "
                    +:+ join ", " (sort_strings extra)))
      else take_list fields "models" path
  | _ => Err (EYaml (path +:+
      ": a semantic include file must be a list of models or a mapping with `models:`"))
  end.

(** The first element whose key was seen before, with the origins of both; [key] gives the
    key and the error the pair makes. *)
Fixpoint check_duplicates (key : Json → option (string * (string → ConfigError)))
    (seen : gmap string string) (l : list (Json * string)) : result ConfigError () :=
  match l with
  | [] => Ok ()
  | (x, origin) :: l =>
      match key x with
      | None => check_duplicates key seen l
      | Some (k, err) =>
          match seen !! k with
          | Some prev => Err (err ("(declared in `" +:+ prev +:+ "` and `" +:+ origin +:+ "`)"))
          | None => check_duplicates key (<[k := origin]> seen) l
          end
      end
  end.

Definition model_key (m : Json) : option (string * (string → ConfigError)) :=
  (λ name, (name, λ where_, ESemanticInvalid name ("duplicate model name " +:+ where_)))
  <$> str_at m "name".

Definition source_key (s : Json) : option (string * (string → ConfigError)) :=
  (λ name, (name, λ where_, ESource name ("duplicate source name " +:+ where_)))
  <$> str_at s "name".

Definition function_key (f : Json) : option (string * (string → ConfigError)) :=
  ns ← str_at f "namespace";
  name ← str_at f "name";
  Some (ns +:+ "." +:+ name,
        λ where_, EFunctionInvalid ns name ("duplicate function " +:+ where_)).

(** The include patterns of the semantic block, and the mapping without them. *)
Definition semantic_patterns (fields : list (string * Json)) (root_path : string)
    : result ConfigError (list string * list (string * Json)) :=
  match obj_get "semantic" fields ≫= as_object with
  | Some sem =>
      let? p := parse_include_patterns (obj_get "include" sem) root_path in
      Ok (p, obj_insert "semantic" (JObject (obj_remove "include" sem)) fields)
  | None => Ok ([], fields)
  end.

(** The models of the model-only files. *)
Definition included_models (root_path : string) (patterns : list string)
    : result ConfigError (list (Json * string)) :=
  each_match (λ acc matched,
    let? ms := load_model_file matched in
    Ok (acc ++ ((λ m, (m, matched)) <$> ms))) root_path patterns [].

(** [assemble_semantic_models]. *)
Definition assemble_semantic_models (fields : list (string * Json)) (root_path : string)
    (fragment_models : list Json) (fragment_origins : list string)
    : result ConfigError (list (string * Json)) :=
  let? '(patterns, fields) := semantic_patterns fields root_path in
  if bool_decide (length patterns = 0) && bool_decide (length fragment_models = 0) then Ok fields
  else
    let inline := default [] (s ← obj_get "semantic" fields; m ← get s "models"; as_array m) in
    let? included := included_models root_path patterns in
    let models := ((λ m, (m, root_path)) <$> inline) ++ included
                  ++ zip fragment_models fragment_origins in
    let? _ := check_duplicates model_key ∅ models in
    let? sem := ok_or (EYaml "`semantic` must be a mapping")
                  (as_object (default (JObject []) (obj_get "semantic" fields))) in
    Ok (obj_insert "semantic" (JObject (obj_insert "models" (JArray (fst <$> models)) sem)) fields).

(** ** The whole assembly *)

Record Assembled := {
  as_tree : Json;
  as_origins : list string;
  as_source_chains : list (list string);
  as_frag_vars : gmap string Json
}.

Definition Collected_new (root_path : string) : Collected :=
  {| co_sources := []; co_origins := []; co_chains := []; co_frag_vars := ∅; co_secrets := [];
     co_models := []; co_model_origins := []; co_functions := []; co_function_origins := [];
     co_visited := {[components (canonical root_path)]} |}.

(** [for (src, origin) in sources.iter_mut().zip(origins)]. *)
Fixpoint expand_all (srcs : list Json) (origins : list string)
    : result ConfigError (list Json) :=
  match srcs, origins with
  | src :: srcs, origin :: origins =>
      let? src := expand_from src origin in
      let? srcs := expand_all srcs origins in
      Ok (src :: srcs)
  | _, _ => Ok srcs
  end.

(** A list put back under its key, or the key removed. *)
Definition put_list (key : string) (l : list Json) (fields : list (string * Json))
    : list (string * Json) :=
  match l with
  | [] => obj_remove key fields
  | _ => obj_insert key (JArray l) fields
  end.

(** [assemble]. *)
Definition assemble (fuel : nat) (tree : Json) (root_path : string)
    : result ConfigError Assembled :=
  let? '(fields, c) := collect fuel tree root_path true [root_path] (Collected_new root_path) in
  let? srcs := expand_all (co_sources c) (co_origins c) in
  let? _ := check_duplicates source_key ∅ (zip srcs (co_origins c)) in
  let? _ := check_duplicates function_key ∅ (zip (co_functions c) (co_function_origins c)) in
  let fields := obj_remove "include" (obj_insert "sources" (JArray srcs) fields) in
  let fields := put_list "functions" (co_functions c) (put_list "secrets" (co_secrets c) fields) in
  let? fields := assemble_semantic_models fields root_path (co_models c) (co_model_origins c) in
  Ok {| as_tree := JObject fields; as_origins := co_origins c; as_source_chains := co_chains c;
        as_frag_vars := co_frag_vars c |}.

(** ** The include graph *)

Inductive IncludeNode := Node_ (path : string) (children : list IncludeNode).

(** [build_include_node], with the visited set it leaves. *)
Fixpoint build_include_node (fuel : nat) (path : string) (chain : list string)
    (visited : gset (list (nat * string)))
    : result ConfigError (IncludeNode * gset (list (nat * string))) :=
  let? tree := read_tree path in
  let? patterns := parse_include_patterns (get tree "include") path in
  let? '(children, visited) := each_match (λ st matched,
    let '(children, visited) := st in
    let? _ := check_visited chain matched visited in
    let visited := {[components (canonical matched)]} ∪ visited in
    match fuel with
    | O => Err (EIncludeCycle "")
    | S fuel =>
        let? '(child, visited) :=
          build_include_node fuel matched (chain ++ [matched]) visited in
        Ok (children ++ [child], visited)
    end) path patterns ([], visited) in
  Ok (Node_ path children, visited).

Definition include_tree (fuel : nat) (path : string) : result ConfigError IncludeNode :=
  rmap fst (build_include_node fuel path [path] {[components (canonical path)]}).

(** [uses_file_primitives]. *)
Definition non_empty_array (v : option Json) : bool :=
  match v with Some (JArray (_ :: _)) => true | _ => false end.

Definition uses_file_primitives (tree : Json) : bool :=
  match as_object tree with
  | None => false
  | Some fields =>
      non_empty_array (obj_get "include" fields)
      || existsb (λ s, match get s "from" with Some JNull | None => false | Some _ => true end)
           (default [] (obj_get "sources" fields ≫= as_array))
      || non_empty_array (s ← obj_get "semantic" fields; o ← as_object s; obj_get "include" o)
  end.
End files.

(** ** Entry points ([loader.rs]) *)

Section load.
Context `{Loading} `{Files} `{!HashIter string} (config_of : Json → result string Config)
  (username : Url → string) (password : Url → option string).

(** The lifted blocks, in the order the map is iterated. *)
Definition frag_list (m : gmap string Json) : list (string * Json) :=
  omap (λ k, (λ v, (k, v)) <$> m !! k) (hash_iter (dom m)).

(** [load]. *)
Definition load (fuel : nat) (path : string) : result ConfigError Config :=
  let? raw := map_err EIo (read_to_string path) in
  let? tree := map_err EYaml (from_yaml raw) in
  let? asm := assemble fuel tree path in
  finish config_of username password (as_tree asm) (frag_list (as_frag_vars asm))
    (as_source_chains asm).

(** [load_str]. *)
Definition load_str (raw : string) : result ConfigError Config :=
  let? tree := map_err EYaml (from_yaml raw) in
  if uses_file_primitives tree then
    Err (EIo "include/from: requires a file path; use load(path)")
  else finish config_of username password tree [] [].

(** The source of a name, with its position. *)
Fixpoint find_source (name : string) (i : nat) (sources : list Json) : option (nat * Json) :=
  match sources with
  | [] => None
  | s :: sources =>
      if decide (str_at s "name" = Some name) then Some (i, s) else find_source name (S i) sources
  end.

(** [source_static_vars], once the secret chain is built. *)
Definition source_static_vars (fuel : nat) (path source_name : string)
    : result ConfigError (list StaticVarRef) :=
  let? raw := map_err EIo (read_to_string path) in
  let? tree := map_err EYaml (from_yaml raw) in
  let? asm := assemble fuel tree path in
  let? tree := interpolate (as_tree asm) in
  let? global := root_scope tree in
  let? frag_scopes := fragment_scopes (frag_list (as_frag_vars asm)) in
  match get tree "sources" ≫= as_array with
  | None => Ok []
  | Some sources =>
      match find_source source_name 0 sources with
      | None => Ok []
      | Some (i, source) =>
          let? scope := source_scope source (as_source_chains asm !! i) global frag_scopes in
          Ok (collect_static_refs scope source)
      end
  end.
End load.
