(* ===== verification/AssembleProps.v ===== *)
(** * Properties of assembly
    The sources of the assembled tree stay aligned with their origins and include chains;
    assembly terminates, entering each file once; [from:] lets a source keep its identity and
    override what it loads. *)

From S2P Require Export Assemble Json.

(** ** Generic facts *)

Lemma try_fold_inv {A E S} (P : S → Prop) (f : S → A → result E S) s l s' :
  (∀ s x s', P s → f s x = Ok s' → P s') → P s → try_fold f s l = Ok s' → P s'.
Proof.
  intros Hf. revert s; induction l as [|x l IH]; intros s Hs; cbn [try_fold]; [by intros [= <-]|].
  intros (s1 & H1 & H2)%rbind_ok. eauto.
Qed.

(** Two steps that agree wherever the invariant holds fold alike. *)
Lemma try_fold_ext_inv {A E S} (P : S → Prop) (Q : A → Prop) (f g : S → A → result E S) s l :
  (∀ s x, P s → Q x → f s x = g s x) → (∀ s x s', P s → g s x = Ok s' → P s') →
  P s → (∀ x, x ∈ l → Q x) → try_fold f s l = try_fold g s l.
Proof.
  intros Hfg Hg. revert s; induction l as [|x l IH]; intros s Hs Hl; cbn [try_fold]; [done|].
  rewrite Hfg by (done || apply Hl; by left). destruct (g s x) as [s1|] eqn:Hx; simpl; [|done].
  apply IH; [eauto|]. intros; apply Hl; by right.
Qed.

Lemma obj_get_remove k k' fields :
  obj_get k (obj_remove k' fields) = if decide (k = k') then None else obj_get k fields.
Proof.
  unfold obj_remove. induction fields as [|[k1 v] fields IH]; simpl; [by destruct (decide _)|].
  case_bool_decide as H1; simpl in H1; simpl.
  - rewrite IH. subst k1. by destruct (decide (k = k')).
  - rewrite IH. destruct (decide (k = k1)) as [->|]; [by rewrite decide_False|done].
Qed.

Lemma obj_get_insert_if k k' v fields :
  obj_get k (obj_insert k' v fields) = if decide (k = k') then Some v else obj_get k fields.
Proof.
  destruct (decide (k = k')) as [->|]; [apply obj_get_insert|by apply obj_get_insert_ne].
Qed.

Section files.
Context `{Loading} `{Files}.

Lemma each_match_inv {S} (P : S → Prop) (f : S → string → result ConfigError S) path patterns st st' :
  (∀ s x s', P s → f s x = Ok s' → P s') → P st → each_match f path patterns st = Ok st' → P st'.
Proof.
  intros Hf. apply try_fold_inv. intros s pat s' Hs (ms & _ & Hm)%rbind_ok.
  by eapply try_fold_inv in Hm.
Qed.

(** ** Alignment *)

(** A source's chain leads from the root to the file that declares it. *)
Definition chain_ok (root path : string) (chain : list string) : Prop :=
  head chain = Some root ∧ last chain = Some path.

Record aligned (root : string) (c : Collected) : Prop := {
  al_length : length (co_sources c) = length (co_origins c);
  al_chains : Forall2 (chain_ok root) (co_origins c) (co_chains c);
  al_models : length (co_models c) = length (co_model_origins c);
  al_functions : length (co_functions c) = length (co_function_origins c)
}.

Lemma chain_ok_push root path chain matched :
  chain_ok root path chain → chain_ok root matched (chain ++ [matched]).
Proof. intros [Hh Hl]. split; [by destruct chain|by rewrite last_snoc]. Qed.

Lemma aligned_sources root path chain srcs c :
  chain_ok root path chain → aligned root c → aligned root (add_sources path chain srcs c).
Proof.
  intros Hc [Hl Hf Hm Hfn]. split; simpl; [|apply Forall2_app; [done|]|done|done].
  - rewrite !length_app, length_fmap. congruence.
  - induction srcs; csimpl; by constructor.
Qed.

Lemma aligned_lists root path vars secrets functions c :
  aligned root c → aligned root (add_lists path vars secrets functions c).
Proof. intros [? ? ? Hfn]. split; simpl; try done. by rewrite !length_app, length_fmap, Hfn. Qed.

Lemma aligned_models root path models c : aligned root c → aligned root (add_models path models c).
Proof. intros [? ? Hm ?]. split; simpl; try done. by rewrite !length_app, length_fmap, Hm. Qed.

Lemma collect_own_inv (P : Collected → Prop) tree path is_root chain c fields patterns c' :
  (∀ srcs c, P c → P (add_sources path chain srcs c)) →
  (∀ vars secrets functions c, P c → P (add_lists path vars secrets functions c)) →
  (∀ models c, P c → P (add_models path models c)) →
  P c → collect_own tree path is_root chain c = Ok (fields, patterns, c') → P c'.
Proof.
  intros Hs Hl Hm Hc. unfold collect_own. intros (fs & _ & Hb)%rbind_ok.
  apply rbind_ok in Hb as ([fs1 c1] & H1 & Hb). assert (P c1) as Hc1.
  { destruct is_root; [by injection H1 as <- <-|]. apply rbind_ok in H1 as (_ & _ & H1).
    unfold take_models in H1. apply rbind_ok in H1 as (ms & _ & H1). injection H1 as <- <-. by apply Hm. }
  destruct (negb is_root && has_key fs "kind").
  - unfold collect_single in Hb. apply rbind_ok in Hb as (ps & _ & Hb).
    injection Hb as <- <- <-. by apply Hs.
  - unfold collect_fragment in Hb. apply rbind_ok in Hb as (srcs & _ & Hb).
    apply rbind_ok in Hb as (secrets & _ & Hb). apply rbind_ok in Hb as (functions & _ & Hb).
    apply rbind_ok in Hb as (ps & _ & Hb). injection Hb as <- <- <-. by apply Hl, Hs.
Qed.

Lemma collect_aligned fuel root tree path is_root chain c fields c' :
  chain_ok root path chain → aligned root c →
  collect fuel tree path is_root chain c = Ok (fields, c') → aligned root c'.
Proof.
  revert tree path is_root chain c fields c'.
  induction fuel as [|fuel IH]; intros tree path is_root chain c fields c' Hch Hc; cbn [collect];
    intros ([[fs ps] c1] & Hown & Hb)%rbind_ok; apply rbind_ok in Hb as (c2 & Hm & Hb);
    injection Hb as <- <-;
    (eapply collect_own_inv with (P := aligned root) in Hown;
      [|intros; by apply aligned_sources|intros; by apply aligned_lists
       |intros; by apply aligned_models|done]);
    eapply each_match_inv; [|exact Hown|exact Hm| |exact Hown|exact Hm];
    intros s x s' Hs (_ & _ & Hx)%rbind_ok; apply rbind_ok in Hx as (sub & _ & Hx); [done|].
  apply rbind_ok in Hx as ([f' c3] & Hcol & Hx). injection Hx as <-.
  eapply IH; [by eapply chain_ok_push| |exact Hcol]. by destruct Hs.
Qed.

(** ** Every file is entered once *)

Lemma collect_own_visited tree path is_root chain c fields patterns c' :
  collect_own tree path is_root chain c = Ok (fields, patterns, c') → co_visited c' = co_visited c.
Proof.
  intros Hown.
  eapply (collect_own_inv (λ c', co_visited c' = co_visited c)); [..|exact Hown]; by intros; simpl.
Qed.

Section fuel.
(** The files that includes can reach. *)
Context (files : gset (list (nat * string))).
Context (Hfiles : ∀ dir pattern ms m,
  glob_paths dir pattern = Ok ms → m ∈ ms → components (canonical m) ∈ files).

(** One match of the loop, [sub] standing for the recursive call. *)
Definition include_match (sub : Json → string → list string → Collected →
    result ConfigError Collected) (chain : list string) (c : Collected) (matched : string)
    : result ConfigError Collected :=
  let? _ := check_visited chain matched (co_visited c) in
  let c := mark_visited (components (canonical matched)) c in
  let? tree := read_tree matched in
  sub tree matched (chain ++ [matched]) c.

Definition collect_sub (fuel : nat) (tree : Json) (path : string) (chain : list string)
    (c : Collected) : result ConfigError Collected :=
  match fuel with
  | O => Err (EIncludeCycle "")
  | S fuel => let? '(_, c) := collect fuel tree path false chain c in Ok c
  end.

Lemma collect_eq fuel tree path is_root chain c :
  collect fuel tree path is_root chain c =
    let? '(fields, patterns, c) := collect_own tree path is_root chain c in
    let? c := each_match (include_match (collect_sub fuel) chain) path patterns c in
    Ok (fields, c).
Proof. by destruct fuel. Qed.

Definition grown (c c' : Collected) : Prop := co_visited c ⊆ co_visited c'.

Lemma include_match_grown sub chain c matched c' :
  (∀ tree path chain c c', sub tree path chain c = Ok c' → grown c c') →
  include_match sub chain c matched = Ok c' → grown c c'.
Proof.
  intros Hsub (_ & _ & Hx)%rbind_ok. apply rbind_ok in Hx as (tree & _ & Hx).
  apply Hsub in Hx. unfold grown in *. simpl in Hx. set_solver.
Qed.

Lemma collect_sub_grown fuel tree path chain c c' :
  collect_sub fuel tree path chain c = Ok c' → grown c c'.
Proof.
  revert tree path chain c c'. induction fuel as [|fuel IH]; intros tree path chain c c'; [done|].
  cbn [collect_sub]. rewrite collect_eq.
  intros ([fs c3] & Hc & Hb)%rbind_ok. injection Hb as ->.
  apply rbind_ok in Hc as ([[fs' ps] c1] & Hown & Hc).
  apply rbind_ok in Hc as (c2 & Hm & Hc). injection Hc as -> ->.
  apply collect_own_visited in Hown. unfold grown at 1. rewrite <- Hown.
  eapply (each_match_inv (λ c, grown c1 c)); [|by unfold grown|exact Hm].
  intros s x s' Hs Hx. eapply include_match_grown in Hx; [|exact IH]. unfold grown in *. set_solver.
Qed.

(** Runs that agree on the files left to enter agree on the matches. *)
Lemma each_match_sub_ext sub sub' n chain path ps c :
  (∀ tree path chain c', size (files ∖ co_visited c') < n →
     sub tree path chain c' = sub' tree path chain c') →
  (∀ tree path chain c c', sub' tree path chain c = Ok c' → grown c c') →
  size (files ∖ co_visited c) ≤ n →
  each_match (include_match sub chain) path ps c = each_match (include_match sub' chain) path ps c.
Proof using Hfiles.
  intros Hsub Hgrow Hn. unfold each_match.
  assert (∀ s x s', co_visited c ⊆ co_visited s → include_match sub' chain s x = Ok s' →
    co_visited c ⊆ co_visited s') as Hinv.
  { intros s x s' Hs Hx. eapply include_match_grown in Hx; [|exact Hgrow].
    unfold grown in Hx. set_solver. }
  eapply (try_fold_ext_inv (λ c', co_visited c ⊆ co_visited c') (λ _, True)); [| |done|done].
  - intros s pat Hs _. destruct (glob_paths _ pat) as [ms|] eqn:Hg; simpl; [|done].
    eapply (try_fold_ext_inv (λ c', co_visited c ⊆ co_visited c') (λ m, m ∈ ms));
      [|exact Hinv|done|done].
    intros s1 x Hs1 Hx. unfold include_match, check_visited. case_bool_decide as Hv; [done|]. simpl.
    destruct (read_tree x) as [t|]; simpl; [|done]. apply Hsub. simpl.
    assert (components (canonical x) ∈ files) as Hin by by eapply Hfiles.
    eapply Nat.lt_le_trans; [|exact Hn]. apply subset_size. set_solver.
  - intros s pat s' Hs (ms & _ & Hm)%rbind_ok.
    by apply (try_fold_inv (λ c', co_visited c ⊆ co_visited c') _ _ _ _ Hinv Hs Hm).
Qed.

Lemma collect_sub_fuel n m tree path chain c :
  size (files ∖ co_visited c) < n → n ≤ m →
  collect_sub m tree path chain c = collect_sub n tree path chain c.
Proof using Hfiles.
  revert m tree path chain c. induction n as [|n IH]; intros m tree path chain c Hlt Hle; [lia|].
  destruct m as [|m]; [lia|]. cbn [collect_sub]. rewrite !collect_eq.
  destruct (collect_own tree path false chain c) as [[[fs ps] c1]|] eqn:Hown; simpl; [|done].
  apply collect_own_visited in Hown.
  rewrite (each_match_sub_ext (collect_sub m) (collect_sub n) n); [done| | |rewrite Hown; lia].
  - intros. by apply IH; [|lia].
  - intros. by eapply collect_sub_grown.
Qed.

Lemma collect_fuel n m tree path is_root chain c :
  size (files ∖ co_visited c) ≤ n → n ≤ m →
  collect m tree path is_root chain c = collect n tree path is_root chain c.
Proof using Hfiles.
  intros Hn Hm. rewrite !collect_eq.
  destruct (collect_own tree path is_root chain c) as [[[fs ps] c1]|] eqn:Hown; simpl; [|done].
  apply collect_own_visited in Hown.
  rewrite (each_match_sub_ext (collect_sub m) (collect_sub n) n); [done| | |by rewrite Hown].
  - intros. by apply collect_sub_fuel.
  - intros. by eapply collect_sub_grown.
Qed.
End fuel.

(** ** The assembled tree *)

Lemma expand_all_length srcs origins srcs' :
  expand_all srcs origins = Ok srcs' → length srcs' = length srcs.
Proof.
  revert origins srcs'. induction srcs as [|s srcs IH]; intros [|o origins] srcs'; cbn [expand_all];
    try by intros [= <-].
  intros (s' & _ & Hb)%rbind_ok. apply rbind_ok in Hb as (rest & Hr & Hb). injection Hb as <-.
  simpl. by rewrite (IH _ _ Hr).
Qed.

Lemma check_duplicates_nodup key seen l :
  check_duplicates key seen l = Ok () →
  NoDup (omap (λ xo, fst <$> key xo.1) l) ∧ ∀ k, k ∈ omap (λ xo, fst <$> key xo.1) l → seen !! k = None.
Proof.
  revert seen. induction l as [|[x o] l IH]; intros seen; cbn [check_duplicates].
  { intros _. split; [constructor|by intros ? ?%elem_of_nil]. }
  csimpl. destruct (key x) as [[k err]|]; csimpl; [|apply IH].
  destruct (seen !! k) eqn:Hk; [done|]. intros [Hnd Hall]%IH. split.
  - constructor; [|done]. intros Hin%Hall. by rewrite lookup_insert_eq in Hin.
  - intros k' [->|Hin]%elem_of_cons; [done|]. apply Hall in Hin.
    by apply lookup_insert_None in Hin as [? _].
Qed.

Lemma omap_zip_fst {A B C} (f : A → option C) (l : list A) (m : list B) :
  length l = length m → omap (λ x, f x.1) (zip l m) = omap f l.
Proof.
  revert m. induction l as [|x l IH]; intros [|y m]; try done. intros [= Hl]. csimpl.
  by rewrite IH.
Qed.

Lemma assemble_models_keeps fields root models origins fields' k :
  k ≠ "semantic" → assemble_semantic_models fields root models origins = Ok fields' →
  obj_get k fields' = obj_get k fields.
Proof.
  intros Hk ([ps fs] & Hp & Hb)%rbind_ok.
  assert (obj_get k fs = obj_get k fields) as Hfs.
  { unfold semantic_patterns in Hp. destruct (obj_get "semantic" fields ≫= as_object).
    - apply rbind_ok in Hp as (p & _ & Hp). injection Hp as <- <-.
      by rewrite obj_get_insert_if, decide_False.
    - by injection Hp as <- <-. }
  destruct (_ && _); [by injection Hb as <-|].
  apply rbind_ok in Hb as (inc & _ & Hb). apply rbind_ok in Hb as (_ & _ & Hb).
  apply rbind_ok in Hb as (sem & _ & Hb). injection Hb as <-.
  by rewrite obj_get_insert_if, decide_False.
Qed.

Lemma put_list_get k key l fields : k ≠ key → obj_get k (put_list key l fields) = obj_get k fields.
Proof.
  intros Hne. unfold put_list. destruct l.
  - by rewrite obj_get_remove, decide_False.
  - by rewrite obj_get_insert_if, decide_False.
Qed.

(** assembly keeps the sources together with where they come from: when it succeeds, the
    tree has one list of sources with distinct names, and at each position the recorded
    origin and include chain belong to that source - the chain leads from the root to the
    file that declares it - so that resolving variables by position finds the right scope. *)
Theorem assemble_aligned fuel tree root asm :
  assemble fuel tree root = Ok asm →
  ∃ srcs, get (as_tree asm) "sources" = Some (JArray srcs) ∧
    length srcs = length (as_origins asm) ∧
    Forall2 (chain_ok root) (as_origins asm) (as_source_chains asm) ∧
    NoDup (omap (λ s, str_at s "name") srcs).
Proof.
  unfold assemble. intros ([fields c] & Hc & Hb)%rbind_ok. apply rbind_ok in Hb as (srcs & He & Hb).
  apply rbind_ok in Hb as ([] & Hd & Hb). apply rbind_ok in Hb as ([] & _ & Hb).
  apply rbind_ok in Hb as (fields' & Hm & Hb). injection Hb as <-. simpl.
  apply (collect_aligned _ root) in Hc as [Hl Hch _ _]; [|done|by split].
  apply expand_all_length in He. assert (length srcs = length (co_origins c)) as Hlen by congruence.
  exists srcs. split_and!; [|done|done|].
  - apply (assemble_models_keeps _ _ _ _ _ "sources") in Hm; [|done]. rewrite Hm.
    rewrite !put_list_get by done.
    by rewrite obj_get_remove, decide_False, obj_get_insert_if, decide_True.
  - apply check_duplicates_nodup in Hd as [Hnd _].
    assert (omap (λ xo, fst <$> source_key xo.1) (zip srcs (co_origins c))
            = omap (λ s, str_at s "name") srcs) as Heq; [|by rewrite Heq in Hnd].
    rewrite (omap_zip_fst (λ s, fst <$> source_key s)) by done.
    apply list_omap_ext. apply Forall_Forall2_diag, Forall_true. intros s.
    unfold source_key. by destruct (str_at s "name").
Qed.

(** assembly terminates: if the files that include patterns can match are finitely many,
    however they include each other, as many levels as there are files are enough, and more
    change nothing, since a file is entered at most once. *)
Theorem assemble_terminates files tree root n m :
  (∀ dir pattern ms m, glob_paths dir pattern = Ok ms → m ∈ ms →
     components (canonical m) ∈ (files : gset (list (nat * string)))) →
  size files ≤ n → n ≤ m → assemble m tree root = assemble n tree root.
Proof.
  intros Hfiles Hn Hm. unfold assemble. rewrite (collect_fuel files Hfiles n m); [done| |done].
  etrans; [|exact Hn]. apply subseteq_size. set_solver.
Qed.
End files.

(** ** Merging *)

(** The loop of [deep_merge] over the overlay's fields. *)
Fixpoint merge_fields (o b : list (string * Json)) : list (string * Json) :=
  match o with
  | [] => b
  | (k, ov) :: o =>
      merge_fields o (match obj_get k b with
                      | Some bv => obj_insert k (deep_merge bv ov) b
                      | None => obj_insert k ov b
                      end)
  end.

Lemma deep_merge_objects b o : deep_merge (JObject b) (JObject o) = JObject (merge_fields o b).
Proof.
  reflexivity.
Qed.

(** One field of a merge. *)
Definition merged_field (base overlay : option Json) : option Json :=
  match overlay with
  | None => base
  | Some ov => Some (match base with Some bv => deep_merge bv ov | None => ov end)
  end.

Lemma merge_fields_get o b k :
  NoDup (fst <$> o) → obj_get k (merge_fields o b) = merged_field (obj_get k b) (obj_get k o).
Proof.
  revert b. induction o as [|[k' ov] o IH]; intros b; [done|]. csimpl.
  intros [Hni Hnd]%NoDup_cons. rewrite IH by done.
  assert (obj_get k' o = None) as Hk'.
  { clear -Hni. induction o as [|[k1 v1] o IH]; [done|]. csimpl in Hni.
    apply not_elem_of_cons in Hni as [? ?]. csimpl. by rewrite decide_False; auto. }
  destruct (decide (k = k')) as [->|Hne].
  - rewrite Hk'. simpl. destruct (obj_get k' b); by rewrite obj_get_insert.
  - by destruct (obj_get k' b); rewrite obj_get_insert_ne.
Qed.

Lemma sorted_fields_nodup fields : sorted_fields fields → NoDup (fst <$> fields).
Proof.
  induction 1 as [|[k v] fields _ IH Hall]; csimpl; [constructor|]. constructor; [|done].
  intros ([k' v'] & Hk & Hin)%list_elem_of_fmap. simpl in Hk. subst k'.
  rewrite list.Forall_forall in Hall. by destruct (Hall _ Hin).
Qed.

Lemma obj_remove_nodup k fields : NoDup (fst <$> fields) → NoDup (fst <$> obj_remove k fields).
Proof.
  unfold obj_remove. induction fields as [|[k1 v] fields IH]; csimpl; [done|].
  intros [Hni Hnd]%NoDup_cons. case_bool_decide; csimpl; [auto|]. constructor; [|auto].
  contradict Hni. apply list_elem_of_fmap in Hni as (kv & -> & Hin).
  apply list_elem_of_In, filter_In in Hin as [Hin _].
  apply list_elem_of_fmap. exists kv. split; [done|by apply list_elem_of_In].
Qed.

Section from.
Context `{Loading} `{Files}.

Lemma keep_key_get k key v fields :
  obj_get k (keep_key key v fields) =
    if decide (k = key) then (match v with Some _ => v | None => obj_get k fields end)
    else obj_get k fields.
Proof.
  unfold keep_key. destruct v as [v|]; [|by destruct (decide _)].
  rewrite obj_get_insert_if. by destruct (decide (k = key)).
Qed.

(** a source with [from:] keeps its identity and overrides what it loads: the result has the
    source's own name and kind and no [from]; of every other field, it has the source's if it
    is not a mapping on both sides, the loaded one if the source has none, and the merge of
    the two otherwise. *)
Theorem expand_from_owned src origin src' from_str :
  json_wf src → get src "from" = Some from_str → expand_from src origin = Ok src' →
  ∃ loaded, (∃ path, read_tree path = Ok (JObject loaded)) ∧
    get src' "name" = get src "name" ∧ get src' "kind" = get src "kind" ∧ get src' "from" = None ∧
    ∀ k, k ∉ ["name"; "kind"; "from"] →
      get src' k = merged_field (obj_get k loaded) (get src k).
Proof.
  intros Hwf Hfrom. unfold expand_from. rewrite Hfrom. destruct from_str as [| | |path| |]; try done.
  set (p := resolve_path _ path). intros (frag & Hr & Hb)%rbind_ok.
  destruct frag as [| | | | |loaded]; try done. cbn [ok_or as_object rbind] in Hb.
  destruct (has_key loaded "name" || has_key loaded "kind") eqn:Hnk; [done|].
  destruct (has_key loaded "from") eqn:Hf; [done|].
  assert (∀ key, has_key loaded key = false → obj_get key loaded = None) as Hno.
  { intros key. unfold has_key. rewrite bool_decide_eq_false.
    destruct (obj_get key loaded); [|done]. intros Hn. destruct Hn. eauto. }
  apply orb_false_iff in Hnk as [Hn%Hno Hk%Hno]. apply Hno in Hf.
  destruct src as [| | | | |fields]; try done. unfold merge_from in Hb. cbn [as_object default] in Hb.
  rewrite deep_merge_objects in Hb. cbn [as_object ok_or rbind] in Hb. injection Hb as <-.
  destruct Hwf as [Hs%sorted_fields_nodup _]. exists loaded. split; [by exists p|].
  assert (∀ k, get (JObject (keep_key "kind" (obj_get "kind" fields)
       (keep_key "name" (obj_get "name" fields)
          (merge_fields (obj_remove "kind" (obj_remove "name" (obj_remove "from" fields))) loaded)))) k =
    if decide (k = "kind") then match obj_get "kind" fields with Some v => Some v | None => obj_get k loaded end
    else if decide (k = "name") then match obj_get "name" fields with Some v => Some v | None => obj_get k loaded end
    else if decide (k = "from") then obj_get k loaded
    else merged_field (obj_get k loaded) (obj_get k fields)) as Hget.
  { intros k. cbn [get]. rewrite !keep_key_get, merge_fields_get by (by do 3 apply obj_remove_nodup).
    rewrite !obj_get_remove.
    destruct (decide (k = "kind")) as [->|Hk1]; [by destruct (obj_get "kind" fields)|].
    destruct (decide (k = "name")) as [->|Hk2]; [by destruct (obj_get "name" fields)|].
    by destruct (decide (k = "from")) as [->|Hk3]. }
  split_and!.
  - rewrite Hget. simpl. rewrite Hn. by destruct (obj_get "name" fields).
  - rewrite Hget. simpl. rewrite Hk. by destruct (obj_get "kind" fields).
  - rewrite Hget. simpl. done.
  - intros k Hk'. rewrite Hget. rewrite !decide_False by set_solver. done.
Qed.
End from.

(** ** A sample workspace of four files *)

Definition file_tree (path : string) : option Json :=
  if decide (path = "w/pawrly.yaml") then
    Some (JObject [("include", JArray [JString "a.yaml"]);
                   ("sources", JArray [JObject [("kind", JString "file"); ("name", JString "logs")]]);
                   ("version", JNumber (PosInt 1))])
  else if decide (path = "w/a.yaml") then
    Some (JObject [("config", JObject [("retries", JNumber (PosInt 5))]);
                   ("from", JString "b.yaml"); ("kind", JString "http"); ("name", JString "api")])
  else if decide (path = "w/b.yaml") then
    Some (JObject [("cache", JString "off");
                   ("config", JObject [("base_url", JString "https://api"); ("retries", JNumber (PosInt 1))])])
  else None.

Definition disk_loading : Loading :=
  {| secret_get := λ _, Ok None; value_store := None; env_var := λ _, None;
     read_to_string := λ p, if decide (is_Some (file_tree p)) then Ok p else Err "not found";
     parse_def := λ _, Err ""; f64_number := λ _, None; json_text := λ _, "";
     parse_url := λ _, Err ""; explicit_url_port := λ _, None; set_port := λ _, λ _, None |}.

(** A pattern matches the file it names. *)
Definition disk_files : Files :=
  {| glob := λ p, Ok (if decide (p = "w/a.yaml") then [Ok p] else []);
     canonicalize := Some;
     from_yaml := λ raw, match file_tree raw with Some t => Ok t | None => Err "" end |}.

Definition assembled_sample : result ConfigError Assembled :=
  assemble (H := disk_loading) (H0 := disk_files) 1 (default JNull (file_tree "w/pawrly.yaml"))
    "w/pawrly.yaml".

Definition assembled_tree : Json :=
  JObject [("sources", JArray
    [JObject [("kind", JString "file"); ("name", JString "logs")];
     JObject [("cache", JString "off");
              ("config", JObject [("base_url", JString "https://api"); ("retries", JNumber (PosInt 5))]);
              ("kind", JString "http"); ("name", JString "api")]]);
    ("version", JNumber (PosInt 1))].

Definition assembled_value : Assembled :=
  {| as_tree := assembled_tree; as_origins := ["w/pawrly.yaml"; "w/a.yaml"];
     as_source_chains := [["w/pawrly.yaml"]; ["w/pawrly.yaml"; "w/a.yaml"]]; as_frag_vars := ∅ |}.

Lemma assemble_aligned_witness :
  Forall2 (chain_ok "w/pawrly.yaml") (as_origins assembled_value) (as_source_chains assembled_value).
Proof.
  assert (assembled_sample = Ok assembled_value) as Ha by (vm_compute; reflexivity).
  destruct (assemble_aligned (H := disk_loading) (H0 := disk_files) 1 _ "w/pawrly.yaml"
              assembled_value Ha) as (srcs & _ & _ & Hf & _).
  exact Hf.
Defined.

Lemma disk_globs dir pattern ms m :
  glob_paths (H := disk_loading) (H0 := disk_files) dir pattern = Ok ms → m ∈ ms →
  components (canonical (H0 := disk_files) m) ∈ ({[components "w/a.yaml"]} : gset (list (nat * string))).
Proof.
  unfold glob_paths. cbn [glob disk_files map_err rbind].
  destruct (decide _) as [->|]; simpl; [|done]. intros [= <-] ->%list_elem_of_singleton.
  by apply elem_of_singleton.
Qed.

Lemma assemble_terminates_witness :
  assemble (H := disk_loading) (H0 := disk_files) 7 (default JNull (file_tree "w/pawrly.yaml"))
    "w/pawrly.yaml" = assembled_sample.
Proof.
  apply (assemble_terminates (H := disk_loading) (H0 := disk_files)
           {[components "w/a.yaml"]} _ "w/pawrly.yaml" 1 7 disk_globs).
  - vm_compute. lia.
  - lia.
Defined.

Definition api_source : Json := default JNull (file_tree "w/a.yaml").

Lemma expand_from_owned_witness :
  ∃ src', expand_from (H := disk_loading) (H0 := disk_files) api_source "w/a.yaml" = Ok src' ∧
    get src' "name" = Some (JString "api").
Proof.
  assert (json_wf api_source) as Hwf.
  { vm_compute. repeat (split || constructor); try done. }
  set (r := expand_from (H := disk_loading) (H0 := disk_files) api_source "w/a.yaml").
  assert (∃ src', r = Ok src') as [src' Hr] by (vm_compute; eauto).
  exists src'. split; [exact Hr|].
  destruct (expand_from_owned (H := disk_loading) (H0 := disk_files) api_source "w/a.yaml" src'
              (JString "b.yaml") Hwf eq_refl Hr) as (loaded & _ & Hn & _).
  exact Hn.
Defined.

(** *** A file included from two others is reported as a cycle *)

Definition diamond_tree (path : string) : option Json :=
  if decide (path = "w/pawrly.yaml") then
    Some (JObject [("include", JArray [JString "left.yaml"; JString "right.yaml"])])
  else if decide (path ∈ ["w/left.yaml"; "w/right.yaml"]) then
    Some (JObject [("include", JArray [JString "shared.yaml"])])
  else if decide (path = "w/shared.yaml") then Some (JObject [("secrets", JArray [])])
  else None.

Definition diamond_loading : Loading :=
  {| secret_get := λ _, Ok None; value_store := None; env_var := λ _, None;
     read_to_string := Ok; parse_def := λ _, Err ""; f64_number := λ _, None; json_text := λ _, "";
     parse_url := λ _, Err ""; explicit_url_port := λ _, None; set_port := λ _, λ _, None |}.

Definition diamond_files : Files :=
  {| glob := λ p, Ok [Ok p]; canonicalize := Some;
     from_yaml := λ raw, match diamond_tree raw with Some t => Ok t | None => Err "" end |}.

Example diamond_reported :
  assemble (H := diamond_loading) (H0 := diamond_files) 9
    (default JNull (diamond_tree "w/pawrly.yaml")) "w/pawrly.yaml"
  = Err (EIncludeCycle "w/pawrly.yaml → w/right.yaml → w/shared.yaml").
Proof. vm_compute. reflexivity. Qed.

(** ** What loading returns was validated *)

Section load.
Context `{Loading} `{Files} `{!HashIter string} (config_of : Json → result string Config)
  (username : Url → string) (password : Url → option string).

Lemma finish_validates tree frag_vars chains cfg :
  finish config_of username password tree frag_vars chains = Ok cfg →
  validate parse_url username password cfg = [].
Proof.
  unfold finish. intros (t & _ & Hb)%rbind_ok. apply rbind_ok in Hb as ([t' bs] & _ & Hb).
  apply rbind_ok in Hb as (c & _ & Hb). cbn zeta in Hb.
  destruct (validate _ _ _ _) eqn:Hv; [|done]. by injection Hb as <-.
Qed.

(** A loaded configuration passed validation, so that the guarantees about validated
    configurations ([ValidateProps]) hold of it. *)
Lemma load_validates fuel path cfg :
  load config_of username password fuel path = Ok cfg → validate parse_url username password cfg = [].
Proof.
  unfold load. intros (raw & _ & Hb)%rbind_ok. apply rbind_ok in Hb as (tree & _ & Hb).
  apply rbind_ok in Hb as (asm & _ & Hb). by apply finish_validates in Hb.
Qed.
End load.
