(* ===== verification/Functions.v ===== *)
(** * Table-valued functions ([crates/pawrly-core/src/function.rs],
    [crates/pawrly-engine/src/functions/])
    Function definitions, the SQL text of a call, the registry of the engine and the binding
    of a call's literal arguments to the declared parameters. *)

From S2P Require Export SqlText ConfigTypes.

(** ** Definitions *)

(** [FunctionDef], without the reserved cache policy. *)
Record FunctionDef := {
  fn_namespace : string;
  fn_name : string;
  fn_kind : FunctionKind;
  fn_description : option string;
  fn_wiki : option string;
  fn_examples : list string;
  fn_args : list FunctionArg;
  fn_returns : list FunctionColumn;
  fn_connection : Json;
  fn_body : Json;
  fn_source : option string;
  fn_builtin : bool;
  fn_safety : option SafetyPolicy
}.

Definition qualified_name (d : FunctionDef) : string := fn_namespace d +:+ "." +:+ fn_name d.

Definition arg_signature (a : FunctionArg) : string :=
  fa_name a +:+ " " +:+ fa_type a
  +:+ match fa_default a with Some d => " = " +:+ d | None => "" end.

Definition signature (d : FunctionDef) : string :=
  qualified_name d +:+ "(" +:+ join ", " (arg_signature <$> fn_args d) +:+ ")".

Record FunctionInfo := {
  fi_namespace : string;
  fi_name : string;
  fi_kind : FunctionKind;
  fi_builtin : bool;
  fi_signature : string;
  fi_description : option string
}.

Record FunctionDescription := {
  ds_namespace : string;
  ds_name : string;
  ds_kind : FunctionKind;
  ds_builtin : bool;
  ds_signature : string;
  ds_description : option string;
  ds_wiki : option string;
  ds_examples : list string;
  ds_args : list FunctionArg;
  ds_returns : list FunctionColumn
}.

Definition info (d : FunctionDef) : FunctionInfo :=
  {| fi_namespace := fn_namespace d; fi_name := fn_name d; fi_kind := fn_kind d;
     fi_builtin := fn_builtin d; fi_signature := signature d;
     fi_description := fn_description d |}.

Definition describe (d : FunctionDef) : FunctionDescription :=
  {| ds_namespace := fn_namespace d; ds_name := fn_name d; ds_kind := fn_kind d;
     ds_builtin := fn_builtin d; ds_signature := signature d;
     ds_description := fn_description d; ds_wiki := fn_wiki d; ds_examples := fn_examples d;
     ds_args := fn_args d; ds_returns := fn_returns d |}.

(** ** The SQL of a call *)

Record CallArg := { ca_value : string; ca_quoted : bool }.

Definition bare_types : list string :=
  ["int"; "integer"; "int32"; "int64"; "bigint"; "long"; "smallint"; "double"; "float";
   "float32"; "float64"; "real"; "decimal"; "numeric"; "bool"; "boolean"].

Definition type_is_string (type_str : string) : bool :=
  negb (bool_decide (to_ascii_lowercase (trim type_str) ∈ bare_types)).

Definition is_safe_bare_literal (value : string) : bool :=
  if eq_ignore_ascii_case value "true" || eq_ignore_ascii_case value "false" then true
  else if negb (all_chars (λ c, negb (is_alpha c && negb (bool_decide (c = "e"%char)
                                                          || bool_decide (c = "E"%char)))) value)
  then false
  else is_some (parse_i64 value) || parses_as_f64 value.

(** [CallArg::new]. *)
Definition CallArg_new (value type_str : string) : CallArg :=
  {| ca_value := value; ca_quoted := type_is_string type_str || negb (is_safe_bare_literal value) |}.

Definition render_arg (a : CallArg) : string :=
  if ca_quoted a
  then chr squote +:+ replace (ca_value a) (chr squote) (chr squote +:+ chr squote) +:+ chr squote
  else ca_value a.

Definition render_call_sql (namespace name : string) (args : list CallArg) : string :=
  "SELECT * FROM " +:+ namespace +:+ "." +:+ name +:+ "("
  +:+ join ", " (render_arg <$> args) +:+ ")".

(** ** Builtin functions *)

Definition col (name type : string) : FunctionColumn :=
  {| fc_name := name; fc_type := type; fc_source := None; fc_description := None |}.

Definition required_arg (name type description : string) : FunctionArg :=
  {| fa_name := name; fa_type := type; fa_required := true; fa_default := None;
     fa_description := Some description; fa_tool_arg := None |}.

Definition http_get : FunctionDef :=
  {| fn_namespace := "http"; fn_name := "get"; fn_kind := FnHttp;
     fn_description := Some "Generic HTTP GET; `path` is a JSONPath into the response body. Each matched element is returned as JSON in the `body` column.";
     fn_wiki := None;
     fn_examples := ["SELECT body FROM http.get('https://api.example.com/items', '$.items')"];
     fn_args := [required_arg "url" "varchar" "Absolute URL to GET.";
                 {| fa_name := "path"; fa_type := "varchar"; fa_required := false;
                    fa_default := Some "$";
                    fa_description := Some "JSONPath into the response body (default `$`).";
                    fa_tool_arg := None |}];
     fn_returns := [{| fc_name := "body"; fc_type := "varchar"; fc_source := Some "$";
                       fc_description := Some "The matched element, as a JSON string." |}];
     fn_connection := JNull;
     fn_body := JObject [("endpoint", JString "{url}");
                         ("response", JObject [("path", JString "{path}")])];
     fn_source := None; fn_builtin := true; fn_safety := None |}.

Definition file_glob : FunctionDef :=
  {| fn_namespace := "file"; fn_name := "glob"; fn_kind := FnFile;
     fn_description := Some "List files matching a glob pattern, one row per file.";
     fn_wiki := None;
     fn_examples :=
       ["SELECT file_name, size_bytes FROM file.glob('./data/*.parquet') ORDER BY 1"];
     fn_args := [required_arg "pattern" "varchar"
                   "Glob pattern, resolved against the workspace dir when relative."];
     fn_returns := [col "path" "varchar"; col "file_name" "varchar"; col "size_bytes" "bigint";
                    col "modified" "timestamp"];
     fn_connection := JNull; fn_body := JObject [("path", JString "{pattern}")];
     fn_source := None; fn_builtin := true; fn_safety := None |}.

Definition file_grep : FunctionDef :=
  {| fn_namespace := "file"; fn_name := "grep"; fn_kind := FnFile;
     fn_description := Some "Search file contents with a regex, one row per matching line.";
     fn_wiki := None;
     fn_examples := ["SELECT path, line_number, line FROM file.grep('ERROR', './logs/*.log')"];
     fn_args := [required_arg "pattern" "varchar" "Regular expression matched against each line.";
                 required_arg "glob" "varchar"
                   "Glob of files to search, resolved against the workspace dir when relative."];
     fn_returns := [col "path" "varchar"; col "line_number" "bigint"; col "line" "varchar"];
     fn_connection := JNull;
     fn_body := JObject [("grep", JString "{pattern}"); ("path", JString "{glob}")];
     fn_source := None; fn_builtin := true; fn_safety := None |}.

Definition builtins : list FunctionDef := [http_get; file_glob; file_grep].

(** ** From the configuration ([crates/pawrly-config/src/types.rs]) *)

Definition to_engine (f : FunctionDecl) (namespace : string) (kind : FunctionKind)
    (connection : Json) (source : option string) : FunctionDef :=
  {| fn_namespace := namespace; fn_name := fd_name f; fn_kind := kind;
     fn_description := fd_description f; fn_wiki := fd_wiki f; fn_examples := fd_examples f;
     fn_args := fd_args f; fn_returns := fd_returns f; fn_connection := connection;
     fn_body := fd_body f; fn_source := source; fn_builtin := false; fn_safety := fd_safety f |}.

Definition attached_functions (src : SourceDef) : list FunctionDef :=
  match for_source (src_kind src) with
  | None => []
  | Some kind =>
      (λ f, to_engine f (src_name src) kind (src_config src) (Some (src_name src)))
        <$> src_functions src
  end.

Definition standalone_function (f : FunctionDecl) : option FunctionDef :=
  match fd_namespace f, fd_kind f with
  | Some namespace, Some kind => Some (to_engine f namespace kind (fd_config f) None)
  | _, _ => None
  end.

Definition engine_functions (cfg : Config) : list FunctionDef :=
  (cfg_sources cfg ≫= attached_functions) ++ omap standalone_function (cfg_functions cfg).

(** ** The registry ([functions/mod.rs]) *)

Definition mangle (namespace name : string) : string :=
  "pawrly_fn__" +:+ namespace +:+ "__" +:+ name.

(** A registered function; its executor and schema are those of its definition. *)
Record RegisteredFunction := {
  rf_def : FunctionDef;
  rf_mangled : string;
  rf_source : option string
}.

Abbreviation FunctionRegistry := (gmap (string * string) RegisteredFunction).

Definition fn_key (d : FunctionDef) : string * string := (fn_namespace d, fn_name d).

(** [build_registered_function]. *)
Definition build_registered (d : FunctionDef) : RegisteredFunction :=
  {| rf_def := d; rf_mangled := mangle (fn_namespace d) (fn_name d); rf_source := fn_source d |}.

Definition registry_insert (reg : FunctionRegistry) (f : RegisteredFunction) : FunctionRegistry :=
  <[fn_key (rf_def f) := f]> reg.

Definition fn_attached (source : string) (f : RegisteredFunction) : bool :=
  bool_decide (rf_source f = Some source).

(** The catalog of table functions DataFusion keeps: a UDTF of a given name runs the function
    it was registered with. *)
Abbreviation UdtfCatalog := (gmap string RegisteredFunction).

Record FnState := { fs_registry : FunctionRegistry; fs_udtfs : UdtfCatalog }.

(** Building the executor of a definition may fail: its connection, body or session is bad. *)
Class FunctionBuild := { executor_error : FunctionDef → option string }.

Section registry.
Context `{!HashIter (string * string), !FunctionBuild}.

(** [drain_mangled]. *)
Definition drain_mangled (reg : FunctionRegistry) : list string * FunctionRegistry :=
  (omap (λ k, rf_mangled <$> reg !! k) (hash_iter (dom reg)), ∅).

Definition remove_by_source (source : string) (reg : FunctionRegistry)
    : list string * FunctionRegistry :=
  let keys := List.filter (λ k, match reg !! k with Some f => fn_attached source f | None => false end)
                (hash_iter (dom reg)) in
  (omap (λ k, rf_mangled <$> reg !! k) keys, foldl (λ reg k, delete k reg) reg keys).

Definition declared_names (reg : FunctionRegistry) : list string :=
  sort_strings ((λ k, k.1 +:+ "." +:+ k.2) <$> hash_iter (dom reg)).

Definition info_leb (a b : FunctionInfo) : bool :=
  if decide (fi_namespace a = fi_namespace b) then str_leb (fi_name a) (fi_name b)
  else str_leb (fi_namespace a) (fi_namespace b).

(** [list_functions]. *)
Definition infos (reg : FunctionRegistry) : list FunctionInfo :=
  sort_by info_leb (omap (λ k, info ∘ rf_def <$> reg !! k) (hash_iter (dom reg))).

(** ** What the engine does with them ([local.rs]) *)

Definition register_one_function (st : FnState) (d : FunctionDef) : FnState * result string () :=
  match executor_error d with
  | Some e => (st, Err e)
  | None =>
      let f := build_registered d in
      ({| fs_udtfs := <[rf_mangled f := f]> (fs_udtfs st);
          fs_registry := registry_insert (fs_registry st) f |}, Ok ())
  end.

(** A [for] loop with [?] over effects that stay. *)
Fixpoint register_each (st : FnState) (defs : list FunctionDef) : FnState * result string () :=
  match defs with
  | [] => (st, Ok ())
  | d :: defs =>
      match register_one_function st d with
      | (st, Ok _) => register_each st defs
      | (st, Err e) => (st, Err e)
      end
  end.

Definition register_functions (st : FnState) (declared : list FunctionDef)
    : FnState * result string () := register_each st (builtins ++ declared).

Definition deregister_udtfs (names : list string) (udtfs : UdtfCatalog) : UdtfCatalog :=
  foldl (λ u n, delete n u) udtfs names.

(** Removing a source drops its functions. *)
Definition drop_source_functions (source : string) (st : FnState) : FnState :=
  let '(names, reg) := remove_by_source source (fs_registry st) in
  {| fs_registry := reg; fs_udtfs := deregister_udtfs names (fs_udtfs st) |}.

(** Reloading the configuration replaces them all. *)
Definition reload_functions (declared : list FunctionDef) (st : FnState)
    : FnState * result string () :=
  let '(stale, reg) := drain_mangled (fs_registry st) in
  register_functions {| fs_registry := reg; fs_udtfs := deregister_udtfs stale (fs_udtfs st) |}
    declared.
End registry.

Definition registry_describe (namespace name : string) (reg : FunctionRegistry)
    : option FunctionDescription := describe ∘ rf_def <$> reg !! (namespace, name).

(** ** Binding a call ([functions/udtf.rs])
    DataFusion hands over the argument expressions; the code looks at literals and negated
    literals. A float stands for the text it is displayed as. *)

Inductive ScalarValue :=
| Utf8 (v : option string)
| LargeUtf8 (v : option string)
| Int8 (v : option Z) | Int16 (v : option Z) | Int32 (v : option Z) | Int64 (v : option Z)
| UInt8 (v : option N) | UInt16 (v : option N) | UInt32 (v : option N) | UInt64 (v : option N)
| Float32 (v : option string) | Float64 (v : option string)
| Boolean (v : option bool)
| OtherScalar.

Inductive Expr := Literal (sv : ScalarValue) | Negative (e : Expr) | OtherExpr.

Definition scalar_to_string (sv : ScalarValue) : option string :=
  match sv with
  | Utf8 v | LargeUtf8 v => v
  | Int8 v | Int16 v | Int32 v | Int64 v => show_Z <$> v
  | UInt8 v | UInt16 v | UInt32 v | UInt64 v => show_N <$> v
  | Float32 v | Float64 v => v
  | Boolean v => (λ b : bool, if b then "true" else "false") <$> v
  | OtherScalar => None
  end.

(** [None]: not a literal; [Some None]: a null, which does not provide a value. *)
Definition literal_value (e : Expr) : option (option string) :=
  match e with
  | Literal sv => Some (scalar_to_string sv)
  | Negative (Literal sv) => Some (String.append "-" <$> scalar_to_string sv)
  | _ => None
  end.

(** The [DataFusionError::Plan] texts, by what they say. *)
Inductive BindError :=
| TooManyArguments (qn : string) (most got : nat)
| NotALiteral (qn : string) (position : nat) (param : string)
| MissingArgument (qn param : string) (position : nat).

Section bind.
Context (qn : string).

Fixpoint bind_given (i : nat) (params : list FunctionArg) (args : list Expr)
    (bound : gmap string string) : result BindError (gmap string string) :=
  match args, params with
  | e :: args, param :: params =>
      match literal_value e with
      | Some (Some s) => bind_given (S i) params args (<[fa_name param := s]> bound)
      | Some None => bind_given (S i) params args bound
      | None => Err (NotALiteral qn (S i) (fa_name param))
      end
  | _, _ => Ok bound
  end.

Fixpoint fill_defaults (i : nat) (params : list FunctionArg) (bound : gmap string string)
    : result BindError (gmap string string) :=
  match params with
  | [] => Ok bound
  | param :: params =>
      if decide (is_Some (bound !! fa_name param)) then fill_defaults (S i) params bound
      else match fa_default param with
           | Some d => fill_defaults (S i) params (<[fa_name param := d]> bound)
           | None =>
               if fa_required param then Err (MissingArgument qn (fa_name param) (S i))
               else fill_defaults (S i) params bound
           end
  end.
End bind.

Definition bind_args (def : FunctionDef) (args : list Expr)
    : result BindError (gmap string string) :=
  let qn := fn_namespace def +:+ "." +:+ fn_name def in
  if length (fn_args def) <? length args
  then Err (TooManyArguments qn (length (fn_args def)) (length args))
  else let? bound := bind_given qn 0 (fn_args def) args ∅ in
       fill_defaults qn 0 (fn_args def) bound.
