(* ===== verification/Calls.v ===== *)
(** * Calling functions by name ([crates/pawrly-mcp/src/tools.rs],
    [crates/pawrly-cli/src/commands/function.rs])
    The two front ends that compose the SQL of a call: the MCP tool [call_function] takes a
    JSON map of arguments, the command [function call] positional and [name=value] ones. Both
    order the values as declared and render them with [render_call_sql]. *)

From S2P Require Export Functions.

(** [Iterator::rposition]. *)
Fixpoint rposition {A} (f : A → bool) (l : list A) : option nat :=
  match l with
  | [] => None
  | x :: l => match rposition f l with
              | Some i => Some (S i)
              | None => if f x then Some 0 else None
              end
  end.

(** [Iterator::position]. *)
Fixpoint position {A} (f : A → bool) (l : list A) : option nat :=
  match l with
  | [] => None
  | x :: l => if f x then Some 0 else S <$> position f l
  end.

(** ** The MCP tool *)

Inductive ToolError :=
| TEngine (msg : string)
| TUnknown (name : string)
| TBadArgs (msg : string)
| TCancelled (query_id : string).

Definition split_function_arg (args : Json) : result ToolError (string * string) :=
  let? s := ok_or (TBadArgs "`function` is required") (get args "function" ≫= as_str) in
  match split_once "." s with
  | Some (ns, name) =>
      if negb (bool_decide (ns = "")) && negb (bool_decide (name = "")) then Ok (ns, name)
      else Err (TBadArgs ("`function` must be `namespace.name`, got `" +:+ s +:+ "`"))
  | None => Err (TBadArgs ("`function` must be `namespace.name`, got `" +:+ s +:+ "`"))
  end.

Section mcp.
(** [Value]'s [Display]. *)
Context (json_text : Json → string).

Definition provided (named : option (list (string * Json))) (name : string) : option Json :=
  named ≫= obj_get name.

Definition order_function_args (decl : FunctionDescription)
    (named : option (list (string * Json))) : result ToolError (list CallArg) :=
  match rposition (λ a, is_some (provided named (fa_name a))) (ds_args decl) with
  | None => Ok []
  | Some last =>
      try_map (λ arg,
        let? value := match provided named (fa_name arg) with
                      | Some (JString s) => Ok s
                      | Some other => Ok (json_text other)
                      | None =>
                          ok_or (TBadArgs ("missing required argument `" +:+ fa_name arg +:+ "`"))
                            (fa_default arg)
                      end in
        Ok (CallArg_new value (fa_type arg))) (take (S last) (ds_args decl))
  end.
End mcp.

(** ** The command *)

Inductive CallError :=
| AtMost (function : string) (most : nat)
| NotAPair (pair : string)
| UnknownArgument (name : string)
| MissingValue (name : string) (position : nat)
| NotQualified (s : string).

Definition split_qualified (s : string) : result CallError (string * string) :=
  match split_once "." s with
  | Some (ns, n) =>
      if negb (bool_decide (ns = "")) && negb (bool_decide (n = "")) then Ok (ns, n)
      else Err (NotQualified s)
  | None => Err (NotQualified s)
  end.

(** The positional values, from position [i] on. *)
Fixpoint place_positional (decl : FunctionDescription) (i : nat) (positional : list string)
    (values : list (option string)) : result CallError (list (option string)) :=
  match positional with
  | [] => Ok values
  | v :: positional =>
      if length values <=? i
      then Err (AtMost (ds_namespace decl +:+ "." +:+ ds_name decl) (length (ds_args decl)))
      else place_positional decl (S i) positional (<[i := Some v]> values)
  end.

Definition place_named (decl : FunctionDescription) (values : list (option string)) (pair : string)
    : result CallError (list (option string)) :=
  let? '(k, v) := ok_or (NotAPair pair) (split_once "=" pair) in
  let? idx := ok_or (UnknownArgument k)
                (position (λ a, bool_decide (fa_name a = k)) (ds_args decl)) in
  Ok (<[idx := Some v]> values).

Definition fill_slot (islot : nat * (option string * FunctionArg)) : result CallError CallArg :=
  let '(i, (slot, arg)) := islot in
  let? value := ok_or (MissingValue (fa_name arg) (S i))
                  (match slot with Some v => Some v | None => fa_default arg end) in
  Ok (CallArg_new value (fa_type arg)).

Definition order_args (decl : FunctionDescription) (positional named : list string)
    : result CallError (list CallArg) :=
  let? values := place_positional decl 0 positional (replicate (length (ds_args decl)) None) in
  let? values := try_fold (place_named decl) values named in
  match rposition is_some values with
  | None => Ok []
  | Some last => try_map fill_slot (zip (seq 0 (S last)) (zip (take (S last) values) (ds_args decl)))
  end.

(** The statement the command runs. *)
Definition call_command_sql (decl : FunctionDescription) (function : string)
    (positional named : list string) (limit : option N) : result CallError string :=
  let? '(ns, name) := split_qualified function in
  let? call_args := order_args decl positional named in
  Ok (render_call_sql ns name call_args
      +:+ match limit with Some n => " LIMIT " +:+ show_N n | None => "" end).
