(* ===== verification/FunctionProps.v ===== *)
(** * Properties of function calls
    The SQL text of a call reads back as the call that was made, both front ends compose the
    same call, the engine binds the values that were given, and the registry and the table
    functions DataFusion knows stay in step. *)

From S2P Require Export Calls.

(** ** A reader of call statements
    What a SQL parser makes of [SELECT * FROM ns.name(arg, …)]: quoted arguments are string
    literals, a bare one runs to the next comma or parenthesis. *)

Fixpoint span_chars (f : ascii → bool) (s : string) : string * string :=
  match s with
  | String c s' => if f c then let '(a, b) := span_chars f s' in (String c a, b) else ("", s)
  | "" => ("", "")
  end.

Definition bare_chr (c : ascii) : bool :=
  negb (bool_decide (c = ","%char) || bool_decide (c = ")"%char)).

Definition read_arg (s : string) : option (CallArg * string) :=
  if starts_with (chr squote) s
  then match read_lit s with
       | Some (v, rest) => Some ({| ca_value := v; ca_quoted := true |}, rest)
       | None => None
       end
  else let '(v, rest) := span_chars bare_chr s in
       Some ({| ca_value := v; ca_quoted := false |}, rest).

Fixpoint read_args (fuel : nat) (s : string) : option (list CallArg) :=
  match fuel with
  | O => None
  | S fuel =>
      match read_arg s with
      | Some (a, ")") => Some [a]
      | Some (a, rest) =>
          match strip_prefix ", " rest with
          | Some rest => cons a <$> read_args fuel rest
          | None => None
          end
      | None => None
      end
  end.

Definition read_call (sql : string) : option (string * string * list CallArg) :=
  match strip_prefix "SELECT * FROM " sql ≫= split_once "(" with
  | Some (callee, rest) =>
      match split_once "." callee with
      | Some (ns, name) =>
          pair (ns, name) <$> (if decide (rest = ")") then Some []
                               else read_args (String.length rest) rest)
      | None => None
      end
  | None => None
  end.

(** What the planner passes for an argument: a string literal, or what it reads from a bare
    token. *)
Definition expr_of (bare : string → Expr) (a : CallArg) : Expr :=
  if ca_quoted a then Literal (Utf8 (Some (ca_value a))) else bare (ca_value a).

(** ** The text of a call *)

Lemma render_arg_lit v : render_arg {| ca_value := v; ca_quoted := true |} = lit v.
Proof. done. Qed.

Lemma true_false_numeric v :
  eq_ignore_ascii_case v "true" || eq_ignore_ascii_case v "false" = true →
  all_chars numeric_chr v = true.
Proof.
  unfold eq_ignore_ascii_case. rewrite orb_true_iff, !bool_decide_eq_true.
  intros H. apply all_chars_lower. by destruct H as [-> | ->].
Qed.

(** A bare argument is a non-empty run of digits, letters, signs and dots. *)
Lemma bare_literal_numeric v :
  is_safe_bare_literal v = true → all_chars numeric_chr v = true ∧ v ≠ "".
Proof.
  unfold is_safe_bare_literal. case_match eqn:E.
  { intros _. split; [by apply true_false_numeric|]. by intros ->. }
  case_match; [done|]. intros Hp. split; [|by intros ->].
  apply orb_true_iff in Hp as [Hp|Hp]; [|by apply parses_as_f64_numeric].
  destruct (parse_i64 v) eqn:P; [|done]. by eapply parse_i64_numeric.
Qed.

Lemma CallArg_new_bare v t :
  ca_quoted (CallArg_new v t) = false → all_chars numeric_chr v = true ∧ v ≠ "".
Proof.
  simpl. rewrite orb_false_iff, negb_false_iff. intros [_ H]. by apply bare_literal_numeric.
Qed.

Lemma numeric_bare c : numeric_chr c = true → bare_chr c = true.
Proof. by destruct c as [[] [] [] [] [] [] [] []]. Qed.

Lemma span_chars_app f a b :
  all_chars f a = true → match b with String c _ => f c = false | "" => True end →
  span_chars f (a +:+ b) = (a, b).
Proof.
  intros Ha Hb. induction a as [|c a IH].
  - rewrite app_nil_l'. destruct b as [|c b]; [done|]. simpl. by rewrite Hb.
  - simpl in Ha. apply andb_true_iff in Ha as [Hc Ha]. rewrite app_cons'. simpl.
    by rewrite Hc, IH.
Qed.

Lemma all_chars_impl (f g : ascii → bool) s :
  (∀ c, f c = true → g c = true) → all_chars f s = true → all_chars g s = true.
Proof.
  intros Hfg. induction s as [|c s IH]; [done|]. simpl.
  rewrite !andb_true_iff. intros [??]. auto.
Qed.

Definition made_by_new (a : CallArg) : Prop := ∃ v t, a = CallArg_new v t.

(** The separator or the closing parenthesis ends an argument. *)
Lemma read_arg_render a rest :
  made_by_new a → (∃ c r, rest = String c r ∧ bare_chr c = false) →
  read_arg (render_arg a +:+ rest) = Some (a, rest).
Proof.
  intros (v & t & ->) (c & r & -> & Hc). unfold read_arg.
  destruct (ca_quoted (CallArg_new v t)) eqn:Q.
  - assert (render_arg (CallArg_new v t) = lit v) as -> by (unfold render_arg; by rewrite Q).
    assert (starts_with (chr squote) (lit v +:+ String c r) = true) as ->.
    { apply starts_with_true. unfold lit. rewrite !app_assoc'. eauto. }
    rewrite read_lit_lit.
    + destruct (CallArg_new v t) eqn:E. injection E as <- _. simpl in Q. by subst.
    + apply bool_decide_eq_false. intros [x Hx]. apply strip_prefix_some in Hx.
      unfold chr in Hx. rewrite app_cons' in Hx. injection Hx as -> _. done.
  - destruct (CallArg_new_bare v t Q) as [Hn Hne].
    assert (render_arg (CallArg_new v t) = v) as -> by (unfold render_arg; by rewrite Q).
    assert (starts_with (chr squote) (v +:+ String c r) = false) as ->.
    { apply bool_decide_eq_false. intros [x Hx]. apply strip_prefix_some in Hx.
      destruct v as [|d v]; [done|]. unfold chr in Hx. rewrite !app_cons' in Hx.
      injection Hx as -> _. done. }
    rewrite span_chars_app; [| |done].
    + destruct (CallArg_new v t) eqn:E. injection E as <- _. simpl in Q. by subst.
    + eapply all_chars_impl; [|exact Hn]. apply numeric_bare.
Qed.

Lemma read_args_join args fuel a :
  Forall made_by_new (a :: args) → length args < fuel →
  read_args fuel (join ", " (render_arg <$> a :: args) +:+ ")") = Some (a :: args).
Proof.
  revert fuel a. induction args as [|b args IH]; intros fuel a Hall Hf.
  - destruct fuel; [lia|]. apply Forall_cons in Hall as [Ha _].
    change (join ", " (render_arg <$> [a])) with (render_arg a). simpl.
    by rewrite read_arg_render by eauto 6.
  - destruct fuel as [|fuel]; [simpl in Hf; lia|]. apply Forall_cons in Hall as [Ha Hall].
    change (join ", " (render_arg <$> a :: b :: args))
      with (render_arg a +:+ ", " +:+ join ", " (render_arg <$> b :: args)).
    rewrite !app_assoc'. cbn [read_args].
    set (rest := join ", " (render_arg <$> b :: args) +:+ ")").
    rewrite (read_arg_render a (", " +:+ rest)) by (try done; exists ","%char; eauto).
    change (match strip_prefix ", " (", " +:+ rest) with
            | Some rest0 => cons a <$> read_args fuel rest0 | None => None end
            = Some (a :: b :: args)).
    rewrite strip_prefix_app. subst rest. rewrite IH; [done..|simpl in Hf; lia].
Qed.

Lemma join_args_length a args :
  length args < String.length (join ", " (render_arg <$> a :: args) +:+ ")").
Proof.
  revert a. induction args as [|b args IH]; intros a; [rewrite length_app'; simpl; lia|].
  change (join ", " (render_arg <$> a :: b :: args))
    with (render_arg a +:+ ", " +:+ join ", " (render_arg <$> b :: args)).
  rewrite !app_assoc', !length_app', <-length_app'. specialize (IH b).
  rewrite length_app' in *. cbn [length String.length] in *. lia.
Qed.

Lemma render_arg_head a : made_by_new a → ∃ c r, render_arg a = String c r ∧ c ≠ ")"%char.
Proof.
  intros (v & t & ->). unfold render_arg. destruct (ca_quoted (CallArg_new v t)) eqn:Q.
  - eexists _, _. split; [reflexivity|done].
  - destruct (CallArg_new_bare v t Q) as [Hn Hne]. simpl. destruct v as [|c v]; [done|].
    exists c, v. split; [done|]. intros ->. done.
Qed.

Lemma all_chars_contains f c s :
  all_chars f s = true → f c = false → contains_chr c s = false.
Proof.
  intros Hs Hc. induction s as [|a s IH]; [done|]. simpl in *.
  apply andb_true_iff in Hs as [Ha Hs]. rewrite IH by done.
  case_bool_decide; [congruence|done].
Qed.

Lemma identifier_chars n : is_valid_identifier n = true → all_chars ident_char n = true.
Proof.
  destruct n as [|c n]; [done|]. simpl. rewrite !andb_true_iff. intros [Hc Hn].
  split; [|done]. unfold ident_start, ident_char, is_alnum in *. destruct (is_alpha c); [done|].
  simpl in *. by rewrite Hc, orb_true_r.
Qed.

Lemma identifier_contains c n :
  is_valid_identifier n = true → ident_char c = false → contains_chr c n = false.
Proof. intros Hn%identifier_chars ?. by eapply all_chars_contains. Qed.

(** C17: The SQL text of a call reads back as exactly the call: whatever the values are, a SQL
    reader finds the same function and one literal per argument, with the given value. No value
    can end its argument, add another or leave the parentheses. *)
Theorem call_reads_back ns name (vals : list (string * string)) :
  is_valid_identifier ns = true → is_valid_identifier name = true →
  let args := (λ vt, CallArg_new vt.1 vt.2) <$> vals in
  read_call (render_call_sql ns name args) = Some (ns, name, args).
Proof.
  intros Hns Hname args. unfold read_call, render_call_sql. rewrite strip_prefix_app. simpl.
  assert (split_once "(" (ns +:+ "." +:+ name +:+ "(" +:+ join ", " (render_arg <$> args) +:+ ")")
          = Some (ns +:+ "." +:+ name, join ", " (render_arg <$> args) +:+ ")")) as ->.
  { apply split_once_some. rewrite !app_assoc'. split; [done|].
    by rewrite !contains_chr_app, (identifier_contains _ ns), (identifier_contains _ name). }
  assert (split_once "." (ns +:+ "." +:+ name) = Some (ns, name)) as ->.
  { apply split_once_some. split; [done|]. by apply identifier_contains. }
  assert (Forall made_by_new args) as Hall.
  { apply Forall_fmap, list.Forall_forall. intros [v t] _. by exists v, t. }
  clearbody args. destruct args as [|a args]; [done|].
  rewrite decide_False.
  - rewrite read_args_join; [done..|apply join_args_length].
  - apply Forall_cons in Hall as [(c & r & Hr & Hc)%render_arg_head _].
    assert (∃ x, join ", " (render_arg <$> a :: args) = render_arg a +:+ x) as [x ->].
    { destruct args; [exists ""; by rewrite app_nil_r'|]. eexists. reflexivity. }
    rewrite Hr, !app_cons'. congruence.
Qed.

Lemma call_reads_back_witness :
  read_call (render_call_sql "gh" "search"
    [CallArg_new "x'), f('y" "varchar"; CallArg_new "1 OR 1=1" "int"; CallArg_new "50" "int"])
  = Some ("gh", "search",
      [{| ca_value := "x'), f('y"; ca_quoted := true |};
       {| ca_value := "1 OR 1=1"; ca_quoted := true |};
       {| ca_value := "50"; ca_quoted := false |}]).
Proof.
  apply (call_reads_back "gh" "search"
    [("x'), f('y", "varchar"); ("1 OR 1=1", "int"); ("50", "int")]); by vm_compute.
Defined.

(** ** Both front ends order a call alike *)

Lemma rposition_ext {A B} (f : A → bool) (g : B → bool) (h : A → B) l :
  (∀ x, x ∈ l → g (h x) = f x) → rposition g (h <$> l) = rposition f l.
Proof.
  induction l as [|x l IH]; intros Hfg; [done|]. csimpl.
  rewrite IH by (intros; apply Hfg; by right). by rewrite Hfg by left.
Qed.

Lemma rposition_some {A} (f : A → bool) l i :
  rposition f l = Some i → ∃ x, l !! i = Some x ∧ f x = true.
Proof.
  revert i. induction l as [|x l IH]; intros i; [done|]. simpl.
  destruct (rposition f l) as [j|]; [intros [= <-]; by apply IH|].
  destruct (f x) eqn:Hx; [|done]. intros [= <-]. by exists x.
Qed.

Lemma rposition_after {A} (f : A → bool) l i j x :
  rposition f l = Some i → l !! j = Some x → f x = true → j ≤ i.
Proof.
  revert i j. induction l as [|y l IH]; intros i j; [done|]. simpl.
  destruct (rposition f l) as [k|] eqn:E.
  - intros [= <-] Hj Hx. destruct j as [|j]; [lia|]. specialize (IH k j eq_refl Hj Hx). lia.
  - destruct (f y); [|done]. intros [= <-] Hj Hx. destruct j as [|j]; [lia|].
    exfalso. clear -E Hj Hx. revert j Hj. induction l as [|z l IHl]; intros j Hj; [done|].
    simpl in E. destruct (rposition f l); [done|]. destruct (f z) eqn:Hz; [done|].
    destruct j as [|j]; simplify_eq/=; [congruence|by eapply IHl].
Qed.

Lemma position_some {A} (f : A → bool) l x :
  x ∈ l → f x = true → ∃ i y, position f l = Some i ∧ l !! i = Some y ∧ f y = true.
Proof.
  induction l as [|y l IH]; intros Hx Hf; [by apply not_elem_of_nil in Hx|]. simpl.
  destruct (f y) eqn:Hy; [by exists 0, y|].
  apply elem_of_cons in Hx as [->|Hx]; [congruence|].
  destruct (IH Hx Hf) as (i & z & -> & ? & ?). by exists (S i), z.
Qed.

(** The slots of the command are a map's values, in declared order. *)
Definition slots (decl : FunctionDescription) (m : gmap string string) : list (option string) :=
  (λ a, m !! fa_name a) <$> ds_args decl.

Lemma place_named_slots decl m k v :
  NoDup (fa_name <$> ds_args decl) → k ∈ fa_name <$> ds_args decl →
  contains_chr "=" k = false →
  place_named decl (slots decl m) (k +:+ "=" +:+ v) = Ok (slots decl (<[k := v]> m)).
Proof.
  intros Hnd (a & -> & Ha)%list_elem_of_fmap Hk. unfold place_named.
  assert (split_once "=" (fa_name a +:+ "=" +:+ v) = Some (fa_name a, v)) as ->.
  { by apply split_once_some. }
  simpl. destruct (position_some (λ b, bool_decide (fa_name b = fa_name a)) (ds_args decl) a Ha)
    as (i & b & -> & Hi & Hb); [by apply bool_decide_eq_true|].
  apply bool_decide_eq_true in Hb. simpl. f_equal. apply list_eq. intros j. unfold slots.
  destruct (decide (j = i)) as [->|Hj].
  - rewrite list_lookup_insert_eq by (rewrite length_fmap; by eapply lookup_lt_Some).
    rewrite list_lookup_fmap, Hi. simpl. by rewrite Hb, lookup_insert_eq.
  - rewrite list_lookup_insert_ne, !list_lookup_fmap by done.
    destruct (ds_args decl !! j) as [c|] eqn:Hc; [|done]. simpl. f_equal.
    rewrite lookup_insert_ne; [done|]. intros Heq. apply Hj.
    eapply NoDup_lookup; [exact Hnd|..]; rewrite list_lookup_fmap, ?Hc, ?Hi; simpl;
      [reflexivity|congruence].
Qed.

Definition named_map (kvs : list (string * string)) (m : gmap string string) : gmap string string :=
  foldl (λ m kv, <[kv.1 := kv.2]> m) m kvs.

Lemma place_named_fold decl kvs m :
  NoDup (fa_name <$> ds_args decl) →
  Forall (λ kv, contains_chr "=" kv.1 = false ∧ kv.1 ∈ fa_name <$> ds_args decl) kvs →
  try_fold (place_named decl) (slots decl m) ((λ kv, kv.1 +:+ "=" +:+ kv.2) <$> kvs)
  = Ok (slots decl (named_map kvs m)).
Proof.
  intros Hnd Hall. revert m. induction Hall as [|[k v] kvs [Hk Hin] _ IH]; intros m; [done|].
  csimpl. rewrite place_named_slots by done. apply IH.
Qed.

Lemma fill_slots_zip (f : FunctionArg → option string) (g : FunctionArg → result ToolError CallArg)
    i n args :
  (∀ a, a ∈ take n args → to_option (g a) = (λ v, CallArg_new v (fa_type a)) <$>
     match f a with Some v => Some v | None => fa_default a end) →
  to_option (try_map fill_slot (zip (seq i n) (zip (take n (f <$> args)) args)))
  = to_option (try_map g (take n args)).
Proof.
  revert i n. induction args as [|a args IH]; intros i n Hg; [by destruct n|].
  destruct n as [|n]; [done|]. cbn [fmap list_fmap take seq zip zip_with try_map].
  pose proof (Hg a ltac:(simpl; set_solver)) as Ha.
  assert (∀ b, b ∈ take n args → b ∈ take (S n) (a :: args)) as Hsub by (simpl; set_solver).
  specialize (IH (S i) n (λ b Hb, Hg b (Hsub b Hb))). clear Hg Hsub.
  unfold fill_slot at 1. destruct (match f a with Some v => Some v | None => fa_default a end) as [v|].
  - simpl in Ha. destruct (g a) as [c|]; [|done]. injection Ha as ->. simpl.
    destruct (try_map fill_slot _) as [x|], (try_map g _) as [y|]; simpl in *; congruence.
  - simpl in Ha. by destruct (g a).
Qed.

(** The MCP tool and the command line compose the same call: the same named string arguments
    end up in the same positions, with the same defaults in the gaps, or both are refused. *)
Theorem front_ends_agree json_text decl kvs named :
  NoDup (fa_name <$> ds_args decl) →
  Forall (λ kv, contains_chr "=" kv.1 = false ∧ kv.1 ∈ fa_name <$> ds_args decl) kvs →
  (∀ a, a ∈ ds_args decl →
     obj_get (fa_name a) named = JString <$> named_map kvs ∅ !! fa_name a) →
  to_option (order_args decl [] ((λ kv, kv.1 +:+ "=" +:+ kv.2) <$> kvs))
  = to_option (order_function_args json_text decl (Some named)).
Proof.
  intros Hnd Hall Hnamed. unfold order_args, order_function_args. cbn [place_positional rbind].
  assert (replicate (length (ds_args decl)) None = slots decl ∅) as ->.
  { unfold slots. symmetry. apply list_eq. intros i. rewrite list_lookup_fmap.
    destruct (ds_args decl !! i) eqn:Hi; simpl.
    - symmetry. rewrite lookup_empty. apply lookup_replicate_2. by eapply lookup_lt_Some.
    - symmetry. apply lookup_replicate_None. by apply lookup_ge_None in Hi. }
  rewrite place_named_fold by done. cbn [rbind]. unfold slots.
  rewrite (rposition_ext (λ a, is_some (provided (Some named) (fa_name a))) is_some).
  2: { intros a Ha. unfold provided. simpl. rewrite Hnamed by done.
       by destruct (named_map kvs ∅ !! fa_name a). }
  destruct (rposition _ _) as [last|]; [|done].
  apply (fill_slots_zip (λ a, named_map kvs ∅ !! fa_name a)).
  intros a Ha. unfold provided. simpl. rewrite Hnamed.
  - destruct (named_map kvs ∅ !! fa_name a) as [v|]; [done|]. simpl.
    by destruct (fa_default a).
  - rewrite <-(take_drop (S last) (ds_args decl)). set_solver.
Qed.

Definition search_decl : FunctionDescription := describe
  {| fn_namespace := "gh"; fn_name := "search"; fn_kind := FnHttp; fn_description := None;
     fn_wiki := None; fn_examples := [];
     fn_args := [required_arg "q" "varchar" "Query.";
                 {| fa_name := "sort"; fa_type := "varchar"; fa_required := false;
                    fa_default := Some "created"; fa_description := None; fa_tool_arg := None |};
                 {| fa_name := "page"; fa_type := "int"; fa_required := false;
                    fa_default := None; fa_description := None; fa_tool_arg := None |};
                 {| fa_name := "limit"; fa_type := "int"; fa_required := false;
                    fa_default := Some "50"; fa_description := None; fa_tool_arg := None |}];
     fn_returns := [col "title" "varchar"]; fn_connection := JNull; fn_body := JNull;
     fn_source := None; fn_builtin := false; fn_safety := None |}.

Lemma front_ends_agree_witness :
  to_option (order_args search_decl [] ["page=2"; "q=a=b"])
  = to_option (order_function_args (λ _, "") search_decl
                 (Some [("page", JString "2"); ("q", JString "a=b")])).
Proof.
  apply (front_ends_agree (λ _, "") search_decl [("page", "2"); ("q", "a=b")]).
  - by vm_compute; apply NoDup_ListNoDup; repeat constructor; set_solver.
  - repeat constructor; try done; vm_compute; set_solver.
  - intros a Ha. simpl in Ha. apply Forall_forall with (P := λ a, obj_get (fa_name a) _ = _) (2 := Ha).
    repeat constructor; by vm_compute.
Defined.

(** ** What a call binds *)

Section bind.
Context (qn : string).

Lemma foldl_insert_ne {A} (key : A → string) (val : A → string) l (b : gmap string string) k :
  k ∉ key <$> l → foldl (λ b x, <[key x := val x]> b) b l !! k = b !! k.
Proof.
  revert b. induction l as [|x l IH]; intros b; [done|]. csimpl.
  intros [Hk Hl]%not_elem_of_cons. by rewrite IH, lookup_insert_ne.
Qed.

Lemma foldl_insert_eq {A} (key : A → string) (val : A → string) l (b : gmap string string) x :
  NoDup (key <$> l) → x ∈ l → foldl (λ b x, <[key x := val x]> b) b l !! key x = Some (val x).
Proof.
  revert b. induction l as [|y l IH]; intros b; [by intros _ ?%not_elem_of_nil|]. csimpl.
  intros [Hy Hnd]%NoDup_cons [->|Hx]%elem_of_cons; [|by apply IH].
  by rewrite foldl_insert_ne, lookup_insert_eq.
Qed.

(** Every argument that reads as a literal is bound under its parameter's name. *)
Lemma bind_given_literals (e : FunctionArg → Expr) (v : FunctionArg → string) i n params b :
  (∀ a, a ∈ take n params → literal_value (e a) = Some (Some (v a))) →
  bind_given qn i params (e <$> take n params) b
  = Ok (foldl (λ b a, <[fa_name a := v a]> b) b (take n params)).
Proof.
  revert i n b. induction params as [|a params IH]; intros i n b He; [by destruct n|].
  destruct n as [|n]; [done|]. csimpl. rewrite He by (csimpl; set_solver).
  apply IH. intros c Hc. apply He. csimpl. set_solver.
Qed.

Lemma fill_defaults_ok i params b b' :
  NoDup (fa_name <$> params) → fill_defaults qn i params b = Ok b' →
  (∀ k, is_Some (b !! k) → b' !! k = b !! k) ∧
  (∀ a, a ∈ params → b !! fa_name a = None →
     b' !! fa_name a = fa_default a ∧ (fa_required a = true → is_Some (fa_default a))) ∧
  (∀ k, k ∉ fa_name <$> params → b' !! k = b !! k).
Proof.
  revert i b. induction params as [|p params IH]; intros i b.
  { intros _ [= ->]. split_and!; [done| |done]. by intros a ?%not_elem_of_nil. }
  csimpl. intros [Hp Hnd]%NoDup_cons. case_decide as Hb.
  - intros (H1 & H2 & H3)%IH; [|done]. split_and!; [done|..].
    + intros a [->|Ha]%elem_of_cons; [intros Hn; rewrite Hn in Hb; by destruct Hb|auto].
    + intros k [_ Hk]%not_elem_of_cons. auto.
  - apply eq_None_not_Some in Hb. destruct (fa_default p) as [d|] eqn:Hd.
    + intros (H1 & H2 & H3)%IH; [|done]. split_and!.
      * intros k Hk. assert (k ≠ fa_name p) by (intros ->; rewrite Hb in Hk; by destruct Hk).
        rewrite H1; rewrite lookup_insert_ne; done.
      * intros a [->|Ha]%elem_of_cons Hn.
        -- rewrite H3, lookup_insert_eq, Hd by done. eauto.
        -- apply H2; [done|]. rewrite lookup_insert_ne; [done|]. intros Heq. apply Hp.
           rewrite Heq. by apply list_elem_of_fmap_2.
      * intros k [Hk Hl]%not_elem_of_cons. by rewrite H3, lookup_insert_ne.
    + destruct (fa_required p) eqn:Hr; [done|]. intros (H1 & H2 & H3)%IH; [|done].
      split_and!; [done|..].
      * intros a [->|Ha]%elem_of_cons Hn; [|auto]. by rewrite H3, Hd, Hr.
      * intros k [_ Hk]%not_elem_of_cons. auto.
Qed.

(** A required parameter without a value and without a default is the only way to fail. *)
Lemma fill_defaults_err i params b e :
  fill_defaults qn i params b = Err e →
  ∃ a j, a ∈ params ∧ b !! fa_name a = None ∧ fa_default a = None ∧ fa_required a = true ∧
         e = MissingArgument qn (fa_name a) j.
Proof.
  revert i b. induction params as [|p params IH]; intros i b; [done|]. simpl.
  case_decide as Hb; [intros (a & j & ? & H)%IH; exists a, j; split; [by right|done]|].
  destruct (fa_default p) as [d|] eqn:Hd.
  - intros (a & j & ? & Hn & H)%IH. exists a, j. split_and!; [by right| |naive_solver..].
    destruct (decide (fa_name p = fa_name a)) as [Heq|];
      [by rewrite Heq, lookup_insert_eq in Hn|by rewrite lookup_insert_ne in Hn].
  - destruct (fa_required p) eqn:Hr.
    + intros [= <-]. exists p, (S i). apply eq_None_not_Some in Hb. split_and!; [by left|done..].
    + intros (a & j & ? & H)%IH. exists a, j. split; [by right|done].
Qed.
End bind.

(** The text sent for an argument, and what the engine reads of it. *)
Definition given_text (json_text : Json → string) (named : list (string * Json))
    (a : FunctionArg) : option string :=
  match obj_get (fa_name a) named with
  | Some (JString s) => Some s
  | Some v => Some (json_text v)
  | None => None
  end.

Definition read_as (canon : string → string) (a : FunctionArg) (v : string) : string :=
  if ca_quoted (CallArg_new v (fa_type a)) then v else canon v.

Definition sent_text json_text named (a : FunctionArg) : option string :=
  match given_text json_text named a with Some v => Some v | None => fa_default a end.

Lemma order_value json_text named a c :
  rbind (match provided (Some named) (fa_name a) with
         | Some (JString s) => Ok s
         | Some other => Ok (json_text other)
         | None => ok_or (TBadArgs ("missing required argument `" +:+ fa_name a +:+ "`"))
                     (fa_default a)
         end) (λ value, Ok (CallArg_new value (fa_type a))) = Ok c →
  ∃ v, sent_text json_text named a = Some v ∧ c = CallArg_new v (fa_type a).
Proof.
  unfold provided, sent_text, given_text; simpl.
  destruct (obj_get (fa_name a) named) as [[]|]; [..|destruct (fa_default a)]; simpl;
    intros H; inv_ok; eauto.
Qed.

Lemma order_values json_text named l args :
  Forall2 (λ a c, ∃ v, sent_text json_text named a = Some v ∧ c = CallArg_new v (fa_type a)) l args →
  args = (λ a, CallArg_new (default "" (sent_text json_text named a)) (fa_type a)) <$> l ∧
  ∀ a, a ∈ l → is_Some (sent_text json_text named a).
Proof.
  induction 1 as [|a c l args (v & Hv & ->) _ [-> IH]].
  - split; [done|]. by intros a ?%not_elem_of_nil.
  - csimpl. rewrite Hv. split; [done|]. intros b [->|Hb]%elem_of_cons; eauto.
Qed.

(** The arguments sent: the declared ones up to the last given, each with its value or
    default. *)
Lemma order_function_args_ok json_text decl named args :
  order_function_args json_text decl (Some named) = Ok args →
  ∃ n, args = (λ a, CallArg_new (default "" (sent_text json_text named a)) (fa_type a))
                <$> take n (ds_args decl) ∧
       (∀ a, a ∈ take n (ds_args decl) → is_Some (sent_text json_text named a)) ∧
       (∀ i a, ds_args decl !! i = Some a → is_Some (given_text json_text named a) → i < n).
Proof.
  assert (∀ a, is_Some (given_text json_text named a) →
    is_some (provided (Some named) (fa_name a)) = true) as Hgiven.
  { intros a [v Hv]. unfold given_text, provided in *. simpl.
    by destruct (obj_get (fa_name a) named). }
  unfold order_function_args. destruct (rposition _ _) as [last|] eqn:Hl.
  - intros H%try_map_ok. exists (S last).
    destruct (order_values json_text named (take (S last) (ds_args decl)) args) as [Hargs Hall].
    { eapply Forall2_impl; [exact H|]. intros a c. apply order_value. }
    split_and!; [done..|]. intros i a Hi Ha. apply Nat.lt_succ_r.
    eapply rposition_after; [exact Hl|exact Hi|]. by apply Hgiven.
  - intros [= <-]. exists 0. split_and!; [done|by intros a ?%not_elem_of_nil|].
    intros i a Hi Ha%Hgiven. exfalso.
    assert (a ∈ ds_args decl) as Hin by (by eapply list_elem_of_lookup_2).
    clear Hi. induction (ds_args decl) as [|b l IH]; [by apply not_elem_of_nil in Hin|].
    cbn [rposition] in Hl. destruct (rposition _ l) eqn:E; [done|].
    apply elem_of_cons in Hin as [<-|Hin]; [by rewrite Ha in Hl|by apply IH].
Qed.

(** A call made by name binds what was given: after the values have been ordered, rendered to
    SQL and read back by the planner, every parameter that was given a string holds exactly that
    string, a parameter that was not given holds its default if it has one, and a required
    parameter always holds something. *)
Theorem call_binds json_text bare canon def named args bound :
  NoDup (fa_name <$> fn_args def) →
  (∀ v, literal_value (bare v) = Some (Some (canon v))) →
  order_function_args json_text (describe def) (Some named) = Ok args →
  bind_args def (expr_of bare <$> args) = Ok bound →
  ∀ a, a ∈ fn_args def →
    match given_text json_text named a, fa_default a with
    | Some v, _ => bound !! fa_name a = Some (read_as canon a v)
    | None, Some d => bound !! fa_name a = Some d ∨ bound !! fa_name a = Some (read_as canon a d)
    | None, None => bound !! fa_name a = None ∧ fa_required a = false
    end.
Proof.
  intros Hnd Hbare Hord Hbind a Ha.
  apply order_function_args_ok in Hord as (n & -> & Hsome & Hlast). simpl in *.
  unfold bind_args in Hbind. case_match; [done|]. inv_ok.
  set (val a := default "" (sent_text json_text named a)) in *.
  rewrite <-list_fmap_compose in *.
  rewrite (bind_given_literals _ _ (λ a, read_as canon a (val a))) in *; cycle 1.
  { intros b _. unfold expr_of, read_as, compose. destruct (ca_quoted _); [done|]. by rewrite Hbare. }
  inv_ok. apply fill_defaults_ok in Hbind as (Hkeep & Hfill & _); [|done].
  assert (NoDup (fa_name <$> take n (fn_args def))) as Hnd'.
  { rewrite fmap_take. eapply sublist_NoDup; [exact Hnd|]. apply sublist_take. }
  destruct (decide (a ∈ take n (fn_args def))) as [Hin|Hout].
  - assert (bound !! fa_name a = Some (read_as canon a (val a))) as ->.
    { rewrite Hkeep; rewrite (foldl_insert_eq fa_name (λ a, read_as canon a (val a))); eauto. }
    specialize (Hsome a Hin). unfold val, sent_text in *.
    destruct (given_text json_text named a) as [v|]; [by destruct (fa_default a)|].
    destruct (fa_default a) as [d|]; [by right|by destruct Hsome].
  - assert (given_text json_text named a = None) as ->.
    { apply eq_None_not_Some. intros Hg. apply Hout.
      apply list_elem_of_lookup_1 in Ha as [i Hi]. specialize (Hlast i a Hi Hg).
      eapply list_elem_of_lookup_2 with (i := i). by rewrite lookup_take_lt. }
    destruct (Hfill a Ha) as [-> Hreq].
    { rewrite (foldl_insert_ne fa_name (λ a, read_as canon a (val a))); [apply lookup_empty|].
      intros (b & Heq & Hb)%list_elem_of_fmap. apply Hout.
      assert (b = a) as <-; [|done].
      apply list_elem_of_lookup_1 in Ha as [i Hi]. apply list_elem_of_lookup_1 in Hb as [j Hj].
      apply lookup_take_Some in Hj as [Hj _].
      assert (i = j) as <-; [|congruence].
      eapply NoDup_lookup; [exact Hnd|..]; rewrite list_lookup_fmap, ?Hi, ?Hj; simpl;
        [reflexivity|congruence]. }
    destruct (fa_default a) as [d|]; [by left|]. split; [done|].
    destruct (fa_required a); [|done]. by destruct (Hreq eq_refl).
Qed.

Definition search_def : FunctionDef :=
  to_engine {| fd_name := "search"; fd_description := None; fd_wiki := None; fd_examples := [];
               fd_namespace := None; fd_kind := None; fd_args := ds_args search_decl;
               fd_returns := [col "title" "varchar"]; fd_config := JNull; fd_body := JNull;
               fd_safety := None |} "gh" FnHttp JNull (Some "gh").

Definition int_literal (v : string) : Expr := Literal (Utf8 (Some v)).

Definition search_args : list (string * Json) :=
  [("page", JNumber (PosInt 7)); ("q", JString "it's")].

Lemma call_binds_witness :
  match order_function_args (λ _, "7") (describe search_def) (Some search_args) with
  | Ok args =>
      match bind_args search_def (expr_of int_literal <$> args) with
      | Ok bound => bound !! "q" = Some "it's" ∧ bound !! "limit" = Some "50"
      | Err _ => False
      end
  | Err _ => False
  end.
Proof.
  pose proof (λ args bound, call_binds (λ _, "7") int_literal id search_def search_args args bound
    ltac:(apply NoDup_ListNoDup; vm_compute; repeat constructor; set_solver) (λ _, eq_refl)) as H.
  destruct (order_function_args _ _ _) as [args|] eqn:E; [|by vm_compute in E].
  specialize (H args). destruct (bind_args _ _) as [bound|] eqn:F.
  - specialize (H bound eq_refl eq_refl). split.
    + exact (H (required_arg "q" "varchar" "Query.") ltac:(by left)).
    + destruct (H _ ltac:(do 3 right; left)); done.
  - assert (match order_function_args (λ _, "7") (describe search_def) (Some search_args) with
            | Ok args => is_some (to_option (bind_args search_def (expr_of int_literal <$> args)))
            | Err _ => false
            end = true) as Hall by (by vm_compute).
    by rewrite E, F in Hall.
Defined.

(** An optional parameter without a default cannot be skipped: naming a later argument is
    refused as if the skipped one were required. *)
Example optional_gap_refused :
  order_function_args (λ _, "") search_decl (Some [("limit", JString "10"); ("q", JString "x")])
  = Err (TBadArgs "missing required argument `page`") ∧
  fa_required <$> ds_args search_decl !! 2 = Some false.
Proof. by vm_compute. Qed.

(** ** The registry and the table functions *)

(** Mangled names can collide: two different functions with valid names share one. *)
Theorem mangle_collides :
  Forall (λ n, is_valid_function_ident n = true) ["a_"; "b"; "a"; "_b"] ∧
  mangle "a_" "b" = mangle "a" "_b".
Proof. split; [repeat constructor; by vm_compute|by vm_compute]. Qed.

Lemma split_once_str_under ns n :
  contains_text "__" ns = false → ends_with "_" ns = false →
  split_once_str "__" (ns +:+ "__" +:+ n) = Some (ns, n).
Proof.
  induction ns as [|c ns IH]; intros Hc He; [done|].
  assert (strip_prefix "__" (String c (ns +:+ "__" +:+ n)) = None) as Hp.
  { apply eq_None_not_Some. intros [r Hr]. apply strip_prefix_some in Hr.
    rewrite !app_cons', app_nil_l' in Hr. injection Hr as -> Hr.
    destruct ns as [|d ns]; [done|]. rewrite app_cons' in Hr. injection Hr as -> Hr. done. }
  rewrite app_cons'. cbn [split_once_str]. rewrite Hp, IH; [done|..].
  - unfold contains_text in *. apply bool_decide_eq_false in Hc. apply bool_decide_eq_false.
    intros [[l r] H]. apply Hc. cbn [split_once_str]. rewrite H.
    destruct (strip_prefix "__" (String c ns)); eauto.
  - apply not_true_is_false. intros [r ->]%ends_with_true.
    apply not_true_iff_false in He. apply He, ends_with_true. exists (String c r).
    by rewrite app_cons'.
Qed.

(** Names that cannot collide: the namespace does not end in an underscore. *)
Definition unambiguous (k : string * string) : Prop :=
  is_valid_function_ident k.1 = true ∧ ends_with "_" k.1 = false.

Lemma mangle_inj k1 k2 :
  unambiguous k1 → unambiguous k2 → mangle k1.1 k1.2 = mangle k2.1 k2.2 → k1 = k2.
Proof.
  destruct k1 as [ns1 n1], k2 as [ns2 n2]. unfold unambiguous, is_valid_function_ident, mangle.
  simpl. intros [[_ H1]%andb_true_iff E1] [[_ H2]%andb_true_iff E2] H%app_inj_l.
  apply negb_true_iff in H1, H2. pose proof (split_once_str_under ns1 n1 H1 E1) as S1.
  rewrite H, split_once_str_under in S1 by done. congruence.
Qed.

Section coherence.
Context `{!HashIter (string * string), !FunctionBuild}.

(** Calling a registered function runs its definition, and no table function outlives its
    registration. *)
Definition coherent (st : FnState) : Prop :=
  (∀ k f, fs_registry st !! k = Some f →
     unambiguous k ∧ fn_key (rf_def f) = k ∧ rf_mangled f = mangle k.1 k.2) ∧
  (∀ m f, fs_udtfs st !! m = Some f ↔
     ∃ k, mangle k.1 k.2 = m ∧ fs_registry st !! k = Some f).

Lemma coherent_empty : coherent {| fs_registry := ∅; fs_udtfs := ∅ |}.
Proof.
  split; simpl; [by intros k f|]. intros m f. rewrite lookup_empty. split; [done|].
  by intros (k & _ & ?).
Qed.

Lemma register_one_coherent st d st' :
  coherent st → unambiguous (fn_key d) → register_one_function st d = (st', Ok ()) →
  coherent st' ∧
  fs_registry st' = <[fn_key d := build_registered d]> (fs_registry st).
Proof.
  unfold register_one_function. intros [H1 H2] Hd. case_match; [done|]. intros [= <-].
  split; [|done]. split; simpl.
  - intros k f. unfold registry_insert. simpl. intros [[<- <-]|[_ ?]]%lookup_insert_Some; [|by apply H1].
    done.
  - intros m f.
    assert (mangle (fn_namespace d) (fn_name d) = mangle (fn_key d).1 (fn_key d).2) as -> by done.
    unfold registry_insert. simpl. rewrite lookup_insert_Some. split.
    + intros [[<- <-]|[Hm (k & <- & Hk)%H2]]; [exists (fn_key d); by rewrite lookup_insert_eq|].
      exists k. split; [done|]. rewrite lookup_insert_ne; [done|]. by intros <-.
    + intros (k & <- & [[<- <-]|[Hk Hf]]%lookup_insert_Some); [by left|right].
      split; [|apply H2; eauto]. intros Heq. apply Hk, mangle_inj; [done|by eapply H1|done].
Qed.

Lemma register_each_coherent st defs st' :
  coherent st → Forall (λ d, unambiguous (fn_key d)) defs →
  register_each st defs = (st', Ok ()) →
  coherent st' ∧
  fs_registry st' = foldl (λ reg d, <[fn_key d := build_registered d]> reg) (fs_registry st) defs.
Proof.
  revert st. induction defs as [|d defs IH]; intros st Hst Hall; [by intros [= ->]|].
  apply Forall_cons in Hall as [Hd Hall]. simpl.
  destruct (register_one_function st d) as [st1 [[]|e]] eqn:E; [|done].
  destruct (register_one_coherent _ _ _ Hst Hd E) as [H1 <-]. by apply IH.
Qed.

Lemma deregister_lookup names u m :
  deregister_udtfs names u !! m = if decide (m ∈ names) then None else u !! m.
Proof.
  revert u. induction names as [|n names IH]; intros u; simpl.
  - done.
  - rewrite IH. destruct (decide (m = n)) as [->|Hn].
    + rewrite lookup_delete_eq. rewrite (decide_True (P := n ∈ n :: names)) by left.
      by case_decide.
    + rewrite lookup_delete_ne by done.
      destruct (decide (m ∈ names)); [rewrite decide_True by (by right)|rewrite decide_False];
        [done|done|]. intros [?|?]%elem_of_cons; done.
Qed.

Lemma foldl_delete_lookup {A} (keys : list (string * string)) (reg : gmap (string * string) A) k :
  foldl (λ reg k, delete k reg) reg keys !! k = if decide (k ∈ keys) then None else reg !! k.
Proof.
  revert reg. induction keys as [|n keys IH]; intros reg; simpl.
  - done.
  - rewrite IH. destruct (decide (k = n)) as [->|Hn].
    + rewrite lookup_delete_eq. rewrite (decide_True (P := n ∈ n :: keys)) by left.
      by case_decide.
    + rewrite lookup_delete_ne by done.
      destruct (decide (k ∈ keys)); [rewrite decide_True by (by right)|rewrite decide_False];
        [done|done|]. intros [?|?]%elem_of_cons; done.
Qed.

(** Removing a source removes its functions and nothing else: its functions can no longer be
    described or called, every other function still runs the definition it had. *)
Lemma dropped_functions source st :
  coherent st →
  let st' := drop_source_functions source st in
  coherent st' ∧
  ∀ k, fs_registry st' !! k =
       match fs_registry st !! k with
       | Some f => if fn_attached source f then None else Some f
       | None => None
       end.
Proof.
  intros [H1 H2] st'. subst st'. unfold drop_source_functions, remove_by_source.
  set (gone k := match fs_registry st !! k with Some f => fn_attached source f | None => false end).
  set (keys := List.filter gone (hash_iter (dom (fs_registry st)))).
  assert (∀ k, k ∈ keys ↔ gone k = true) as Hkeys.
  { intros k. unfold keys. rewrite list_elem_of_In, filter_In, <-list_elem_of_In, elem_of_hash_iter.
    split; [by intros [_ ?]|]. intros Hg. split; [|done]. unfold gone in Hg.
    destruct (fs_registry st !! k) eqn:Hk; [|done]. by eapply elem_of_dom_2. }
  assert (∀ k, foldl (λ reg k, delete k reg) (fs_registry st) keys !! k =
    match fs_registry st !! k with
    | Some f => if fn_attached source f then None else Some f | None => None end) as Hreg.
  { intros k. rewrite foldl_delete_lookup. pose proof (Hkeys k) as Hk. unfold gone in Hk.
    destruct (fs_registry st !! k) as [f|]; [|by case_decide].
    destruct (fn_attached source f); [rewrite decide_True; [done|by apply Hk]|].
    rewrite decide_False; [done|]. by intros ?%Hk. }
  split; [|exact Hreg]. split; simpl.
  - intros k f. rewrite Hreg. destruct (fs_registry st !! k) eqn:Hk; [|done].
    case_match; [done|]. intros [= <-]. by apply H1.
  - intros m f. rewrite deregister_lookup. case_decide as Hm.
    + split; [done|]. intros (k & <- & Hk). exfalso. rewrite Hreg in Hk.
      destruct (fs_registry st !! k) as [g|] eqn:Hg; [|done]. case_match eqn:Ha; [done|].
      simplify_eq. apply list_elem_of_omap in Hm as (k' & Hk' & Hm%fmap_Some).
      destruct Hm as (g & Hg' & Heq). destruct (H1 _ _ Hg) as (Hu & _ & _).
      destruct (H1 _ _ Hg') as (Hu' & _ & Hmg). rewrite Hmg in Heq.
      apply mangle_inj in Heq as <-; [|done..]. apply Hkeys in Hk'. unfold gone in Hk'.
      by rewrite Hg, Ha in Hk'.
    + rewrite H2. setoid_rewrite Hreg. split; intros (k & <- & Hk); exists k; (split; [done|]).
      * rewrite Hk. case_match eqn:Ha; [|done]. exfalso. apply Hm.
        apply list_elem_of_omap. exists k. split; [apply Hkeys; unfold gone; by rewrite Hk|].
        apply fmap_Some. exists f. split; [done|]. symmetry. by apply H1.
      * destruct (fs_registry st !! k); [|done]. by case_match.
Qed.

(** A registration that stops at an error leaves the functions before it registered. *)
Lemma register_each_prefix st defs :
  coherent st → Forall (λ d, unambiguous (fn_key d)) defs → coherent (register_each st defs).1.
Proof.
  revert st. induction defs as [|d defs IH]; intros st Hst Hall; [done|].
  apply Forall_cons in Hall as [Hd Hall]. simpl.
  destruct (register_one_function st d) as [st1 [[]|e]] eqn:E.
  - destruct (register_one_coherent _ _ _ Hst Hd E) as [H1 _]. by apply IH.
  - unfold register_one_function in E. case_match; by simplify_eq.
Qed.

Lemma builtins_unambiguous declared :
  Forall (λ d, unambiguous (fn_key d)) declared →
  Forall (λ d, unambiguous (fn_key d)) (builtins ++ declared).
Proof. intros Hall. apply Forall_app. split; [|done]. by repeat constructor. Qed.

Lemma drained_coherent st :
  coherent st →
  coherent {| fs_registry := ∅;
              fs_udtfs := deregister_udtfs (drain_mangled (fs_registry st)).1 (fs_udtfs st) |}.
Proof.
  intros [H1 H2]. split; simpl; [by intros k f; rewrite lookup_empty|]. intros m f.
  rewrite deregister_lookup. split; [|by intros (k & _ & ?)].
  case_decide as Hm; [done|]. intros (k & <- & Hk)%H2. exfalso. apply Hm.
  apply list_elem_of_omap. exists k. split; [apply elem_of_hash_iter; by eapply elem_of_dom_2|].
  apply fmap_Some. exists f. split; [done|]. symmetry. by apply H1.
Qed.

Lemma reload_coherent declared st :
  coherent st → Forall (λ d, unambiguous (fn_key d)) declared →
  coherent (reload_functions declared st).1.
Proof.
  intros Hst Hall.
  apply register_each_prefix; [by apply drained_coherent|by apply builtins_unambiguous].
Qed.

(** A reload that succeeds leaves exactly the builtins and the functions the new configuration
    declares, a later declaration of a name winning, each callable under its name; nothing of
    the old registry survives. *)
Lemma reloaded_functions declared st st' :
  coherent st → Forall (λ d, unambiguous (fn_key d)) declared →
  reload_functions declared st = (st', Ok ()) →
  coherent st' ∧
  fs_registry st' =
    foldl (λ reg d, <[fn_key d := build_registered d]> reg) ∅ (builtins ++ declared).
Proof.
  intros Hst Hall Hrel.
  apply register_each_coherent in Hrel; [done|by apply drained_coherent|].
  by apply builtins_unambiguous.
Qed.
End coherence.

Section witness.
#[local] Instance builds_all : FunctionBuild := {| executor_error := λ _, None |}.
#[local] Instance any_order : HashIter (string * string) := gset_iter.

Definition loaded_state : FnState :=
  fst (register_functions {| fs_registry := ∅; fs_udtfs := ∅ |} [search_def]).

Lemma search_unambiguous : Forall (λ d, unambiguous (fn_key d)) [search_def].
Proof. by repeat constructor. Qed.

Lemma loaded_coherent : coherent loaded_state.
Proof.
  apply (register_each_coherent _ (builtins ++ [search_def]) loaded_state coherent_empty).
  - by repeat constructor.
  - reflexivity.
Qed.

Lemma dropped_functions_witness :
  let st' := drop_source_functions "gh" loaded_state in
  coherent st' ∧ fs_registry st' !! ("gh", "search") = None ∧
  is_Some (fs_registry st' !! ("file", "grep")).
Proof.
  pose proof (dropped_functions "gh" loaded_state loaded_coherent) as [Hc Hk].
  split; [exact Hc|]. rewrite !Hk. split; [reflexivity|]. by eexists.
Defined.

Lemma reloaded_functions_witness :
  ∃ st', reload_functions [search_def] loaded_state = (st', Ok ()) ∧ coherent st' ∧
         fs_registry st' !! ("gh", "search") = Some (build_registered search_def).
Proof.
  eexists. split; [reflexivity|].
  pose proof (reloaded_functions [search_def] loaded_state _ loaded_coherent search_unambiguous
                eq_refl) as [Hc Hr].
  split; [exact Hc|]. rewrite Hr. reflexivity.
Defined.
End witness.

(** The builtins validation reserves are the builtins the engine registers. *)
Lemma builtin_names_exact : builtin_names = fn_key <$> builtins.
Proof. reflexivity. Qed.
