(* ===== verification/FileFunctions.v ===== *)
(** * File functions ([crates/pawrly-engine/src/functions/file.rs])
    [file.glob] and [file.grep] and the declared functions of kind [file]: how the pattern is
    rendered and resolved, which files are listed, which lines match. Regular expressions,
    globs and the file system are an interface. *)

From S2P Require Export FunctionProps Assemble.

Section filefn.
Context (env : string → option string).

(** [resolve_home] ([crates/pawrly-core/src/home.rs]). *)
Definition resolve_home (explicit : option string) : option string :=
  match explicit with
  | Some p => Some p
  | None =>
      match env "PAWRLY_HOME" with
      | Some p => if decide (p = "") then
                    (λ h, path_join h ".pawrly") <$>
                      match match env "HOME" with Some h => Some h | None => env "USERPROFILE" end with
                      | Some h => if decide (h = "") then None else Some h
                      | None => None
                      end
                  else Some p
      | None =>
          (λ h, path_join h ".pawrly") <$>
            match match env "HOME" with Some h => Some h | None => env "USERPROFILE" end with
            | Some h => if decide (h = "") then None else Some h
            | None => None
            end
      end
  end.

(** [resolve_pattern]. *)
Definition resolve_pattern (workspace_dir pattern : string) : string :=
  let expanded := match strip_prefix "~/" pattern with
                  | Some rest => match resolve_home None with
                                 | Some home => path_join home rest
                                 | None => pattern
                                 end
                  | None => pattern
                  end in
  if is_absolute expanded || contains_text "://" expanded then expanded
  else path_join workspace_dir expanded.

(** [expand_tilde] and [resolve_glob] of a file source
    ([crates/pawrly-sources/duckdb/src/file.rs]). *)
Definition source_expand_tilde (p : string) : string :=
  if decide (p = "~") then default p (env "HOME")
  else match strip_prefix "~/" p with
       | Some rest => match env "HOME" with Some home => path_join home rest | None => p end
       | None => p
       end.

Definition resolve_glob (workspace_dir p : string) : string :=
  let path := source_expand_tilde p in
  if is_absolute path then path else path_join workspace_dir path.
End filefn.

(** ** Rendering *)

(** [render]: one parameter after the other, in key order. *)
Definition render (template : string) (params : gmap string string) : string :=
  foldl (λ s k, replace s ("{" +:+ k +:+ "}") (default "" (params !! k))) template
    (sort_strings (elements (dom params))).

(** ** The executor *)

Inductive FileSchema := MetaSchema | GrepSchema.

Record FileGlobExecutor := {
  fx_pattern : string;
  fx_grep : option string;
  fx_workspace_dir : string
}.

Definition FileGlobExecutor_new (def : FunctionDef) (workspace_dir : string)
    : result string FileGlobExecutor :=
  let? pattern := ok_or ("file function `" +:+ fn_namespace def +:+ "." +:+ fn_name def
                         +:+ "` is missing a `path` glob")
    (match get (fn_body def) "path" ≫= as_str with
     | Some s => if decide (trim s = "") then None else Some s
     | None => None
     end) in
  let grep := match get (fn_body def) "grep" ≫= as_str with
              | Some s => if decide (s = "") then None else Some s
              | None => None
              end in
  Ok {| fx_pattern := pattern; fx_grep := grep; fx_workspace_dir := workspace_dir |}.

Definition fx_schema (x : FileGlobExecutor) : FileSchema :=
  match fx_grep x with Some _ => GrepSchema | None => MetaSchema end.

Record FileMeta := {
  fm_path : string;
  fm_file_name : option string;
  fm_size_bytes : option Z;
  fm_modified_micros : option Z
}.

Record GrepHit := { gh_path : string; gh_line_number : Z; gh_line : string }.

(** The surroundings: a glob that may be malformed and whose entries may be unreadable, a
    regular expression that may not compile, file contents that may not be text, and the size
    and modification time of a file. *)
Class FileSystem := {
  fs_glob : string → result string (list (option string));
  fs_regex : string → result string (string → bool);
  fs_is_file : string → bool;
  fs_read_to_string : string → option string;
  fs_file_name : string → option string;
  fs_metadata : string → option (N * option Z);
  fs_env : string → option string
}.

Section run.
Context `{FileSystem}.

(** The lines of one file, stopping once the limit is reached. *)
Fixpoint grep_lines (re : string → bool) (limit : option N) (path : string) (i : Z)
    (ls : list string) (out : list GrepHit) : bool * list GrepHit :=
  match ls with
  | [] => (false, out)
  | line :: ls =>
      if re line
      then let out := out ++ [{| gh_path := path; gh_line_number := i + 1; gh_line := line |}] in
           match limit with
           | Some n => if (n <=? N.of_nat (length out))%N then (true, out)
                       else grep_lines re limit path (i + 1) ls out
           | None => grep_lines re limit path (i + 1) ls out
           end
      else grep_lines re limit path (i + 1) ls out
  end.

Fixpoint grep_each (re : string → bool) (limit : option N) (files : list string)
    (out : list GrepHit) : list GrepHit :=
  match files with
  | [] => out
  | path :: files =>
      match fs_read_to_string path with
      | None => grep_each re limit files out
      | Some content =>
          match grep_lines re limit path 0 (lines content) out with
          | (true, out) => out
          | (false, out) => grep_each re limit files out
          end
      end
  end.

Definition matched_files (entries : list (option string)) : list string :=
  List.filter fs_is_file (omap id entries).

Definition grep_files (pattern : string) (re : string → bool) (limit : option N)
    : result string (list GrepHit) :=
  let? entries := map_err (λ e, "bad glob pattern `" +:+ pattern +:+ "`: " +:+ e)
                    (fs_glob pattern) in
  Ok (grep_each re limit (sort_by path_leb (matched_files entries)) []).

Definition i64_try_from (n : N) : option Z :=
  if (Z.of_N n <=? i64_max)%Z then Some (Z.of_N n) else None.

Definition file_meta (path : string) : FileMeta :=
  let meta := fs_metadata path in
  {| fm_path := path; fm_file_name := fs_file_name path;
     fm_size_bytes := m ← meta; i64_try_from m.1;
     fm_modified_micros := m ← meta; m.2 |}.

Definition glob_metadata (pattern : string) : result string (list FileMeta) :=
  let? entries := map_err (λ e, "bad glob pattern `" +:+ pattern +:+ "`: " +:+ e)
                    (fs_glob pattern) in
  Ok (sort_by (λ a b, str_leb (fm_path a) (fm_path b)) (file_meta <$> matched_files entries)).

Inductive FileRows := MetaRows (rows : list FileMeta) | GrepRows (hits : list GrepHit).

(** [FileGlobExecutor::invoke]. *)
Definition file_invoke (x : FileGlobExecutor) (params : gmap string string) (limit : option N)
    : result string FileRows :=
  let resolved := resolve_pattern fs_env (fx_workspace_dir x) (render (fx_pattern x) params) in
  match fx_grep x with
  | Some grep =>
      let needle := render grep params in
      let? re := map_err (λ e, "file.grep: invalid pattern `" +:+ needle +:+ "`: " +:+ e)
                   (fs_regex needle) in
      let? hits := grep_files resolved re limit in Ok (GrepRows hits)
  | None =>
      let? rows := glob_metadata resolved in
      Ok (MetaRows match limit with
                   | Some n => if (n <? N.of_nat (length rows))%N then take (N.to_nat n) rows
                               else rows
                   | None => rows
                   end)
  end.
End run.

(** ** Properties of file functions
    Searching stops early without losing or reordering hits, listings are sorted and complete,
    and where patterns resolve. *)

Section grep.
Context `{FileSystem} (re : string → bool).

(** The hits of one file, and of files in order. *)
Fixpoint line_hits (path : string) (i : Z) (ls : list string) : list GrepHit :=
  match ls with
  | [] => []
  | line :: ls =>
      (if re line then [{| gh_path := path; gh_line_number := i + 1; gh_line := line |}] else [])
      ++ line_hits path (i + 1) ls
  end.

Definition file_hits (path : string) : list GrepHit :=
  match fs_read_to_string path with
  | Some content => line_hits path 0 (lines content)
  | None => []
  end.

Lemma grep_lines_all path i ls out :
  grep_lines re None path i ls out = (false, out ++ line_hits path i ls).
Proof.
  revert i out. induction ls as [|l ls IH]; intros i out; simpl; [by rewrite app_nil_r|].
  destruct (re l); rewrite IH; [|done]. by rewrite <-app_assoc.
Qed.

Lemma grep_lines_limited n path i ls out :
  length out < Nat.max 1 (N.to_nat n) →
  grep_lines re (Some n) path i ls out =
  (bool_decide (Nat.max 1 (N.to_nat n) ≤ length (out ++ line_hits path i ls)),
   take (Nat.max 1 (N.to_nat n)) (out ++ line_hits path i ls)).
Proof.
  revert i out. induction ls as [|l ls IH]; intros i out Hout; simpl.
  { rewrite app_nil_r, take_ge by lia. by rewrite bool_decide_eq_false_2 by lia. }
  destruct (re l); [|by rewrite IH].
  set (hit := {| gh_path := path; gh_line_number := i + 1; gh_line := l |}).
  change (out ++ [hit] ++ ?r) with (out ++ ([hit] ++ r)). rewrite app_assoc.
  destruct (N.leb_spec n (N.of_nat (length (out ++ [hit])))) as [Hn|Hn].
  - assert (length (out ++ [hit]) = Nat.max 1 (N.to_nat n)) as Hlen.
    { rewrite length_app in *. simpl in *. lia. }
    rewrite take_app_le, take_ge by lia. rewrite bool_decide_eq_true_2; [done|].
    rewrite length_app. lia.
  - apply IH. rewrite length_app in *. simpl in *. lia.
Qed.

Lemma grep_each_all files out :
  grep_each re None files out = out ++ (files ≫= file_hits).
Proof.
  revert out. induction files as [|p files IH]; intros out; csimpl; [by rewrite app_nil_r|].
  unfold file_hits at 1. destruct (fs_read_to_string p) as [content|]; [|done].
  rewrite grep_lines_all, IH. by rewrite <-app_assoc.
Qed.

Lemma grep_each_limited n files out :
  length out < Nat.max 1 (N.to_nat n) →
  grep_each re (Some n) files out =
  take (Nat.max 1 (N.to_nat n)) (out ++ (files ≫= file_hits)).
Proof.
  revert out. induction files as [|p files IH]; intros out Hout; csimpl.
  { rewrite app_nil_r, take_ge by lia. done. }
  unfold file_hits at 1. destruct (fs_read_to_string p) as [content|]; [|by apply IH].
  rewrite grep_lines_limited by done. rewrite app_assoc.
  case_bool_decide as Hl; [symmetry; by apply take_app_le|].
  rewrite take_ge by lia. apply IH. lia.
Qed.
End grep.

(** A limited search reports a prefix of the full one: the hits of the matched files in path
    order, cut at the limit. A limit of zero still reports one hit. *)
Theorem grep_is_prefix `{FileSystem} pattern re limit hits :
  grep_files pattern re limit = Ok hits →
  ∃ entries, fs_glob pattern = Ok entries ∧
    let all := sort_by path_leb (matched_files entries) ≫= file_hits re in
    hits = match limit with
           | Some n => take (Nat.max 1 (N.to_nat n)) all
           | None => all
           end.
Proof.
  unfold grep_files. intros Hg. inv_ok. eexists. split; [done|].
  destruct limit as [n|]; [|by rewrite grep_each_all].
  by rewrite grep_each_limited by (simpl; lia).
Qed.

Lemma path_join_absolute base p :
  is_absolute base = true → is_absolute p = false → is_absolute (path_join base p) = true.
Proof.
  unfold is_absolute at 1. intros [r ->]%starts_with_true Hp. unfold path_join.
  rewrite Hp, bool_decide_eq_false_2 by done. unfold is_absolute.
  case_match; apply starts_with_true; rewrite !app_assoc'; eauto.
Qed.

(** A pattern that does not start with [~/] resolves as the path of a file source does,
    unless it is a URL; one that does is looked up under Pawrly's own directory instead of the
    user's home. *)
Theorem patterns_resolve env ws pattern :
  pattern ≠ "~" → contains_text "://" pattern = false → env "PAWRLY_HOME" = None →
  match strip_prefix "~/" pattern with
  | None => resolve_pattern env ws pattern = resolve_glob env ws pattern
  | Some rest => ∀ h, env "HOME" = Some h → h ≠ "" → is_absolute h = true →
      is_absolute rest = false →
      resolve_glob env ws pattern = path_join h rest ∧
      resolve_pattern env ws pattern = path_join (path_join h ".pawrly") rest
  end.
Proof.
  intros Hp Hurl Hhome. unfold resolve_pattern, resolve_glob, source_expand_tilde.
  rewrite decide_False by done. destruct (strip_prefix "~/" pattern) as [rest|].
  - intros h Hh Hne Ha Hr. unfold resolve_home. rewrite Hhome, Hh, decide_False by done. simpl.
    by rewrite !path_join_absolute by (try apply path_join_absolute; done).
  - by rewrite Hurl, orb_false_r.
Qed.

Lemma patterns_resolve_witness :
  let env := λ k, if decide (k = "HOME") then Some "/home/u" else None in
  resolve_glob env "/ws" "~/logs/*.log" = "/home/u/logs/*.log" ∧
  resolve_pattern env "/ws" "~/logs/*.log" = "/home/u/.pawrly/logs/*.log".
Proof.
  intros env.
  exact (patterns_resolve env "/ws" "~/logs/*.log" ltac:(done) ltac:(by vm_compute)
           ltac:(by vm_compute) "/home/u" ltac:(done) ltac:(done) ltac:(done) ltac:(done)).
Defined.

(** Placeholders are replaced one after the other: a value that names a later parameter is
    expanded again. *)
Example render_expands_values :
  render "{glob}" {["glob" := "./{pattern}/*.log"; "pattern" := "ERROR"]} = "./ERROR/*.log".
Proof. by vm_compute. Qed.

Section sample.
#[local] Instance two_files : FileSystem :=
  {| fs_glob := λ p, Ok [Some "b.log"; None; Some "a.log"; Some "dir"];
     fs_regex := λ p, Ok (contains_text p);
     fs_is_file := λ p, negb (bool_decide (p = "dir"));
     fs_read_to_string := λ p, if decide (p = "a.log")
       then Some ("ok" +:+ chr "010" +:+ "bad one" +:+ chr "010" +:+ "bad two")
       else Some "bad three";
     fs_file_name := Some; fs_metadata := λ _, None; fs_env := λ _, None |}.

Definition bad_hits : list GrepHit :=
  [{| gh_path := "a.log"; gh_line_number := 2; gh_line := "bad one" |};
   {| gh_path := "a.log"; gh_line_number := 3; gh_line := "bad two" |}].

Lemma grep_is_prefix_witness :
  ∃ entries, fs_glob "*.log" = Ok entries ∧
    bad_hits = take 2 (sort_by path_leb (matched_files entries) ≫= file_hits (contains_text "bad")).
Proof.
  exact (grep_is_prefix "*.log" (contains_text "bad") (Some 2%N) bad_hits ltac:(by vm_compute)).
Defined.
End sample.
