(* ===== verification/EngineErrors.v ===== *)
(** * Engine errors ([crates/pawrly-core/src/error.rs])
    The errors of the engine, their stable codes, their texts, and how a client rebuilds one
    from the code and text a server sent. *)

From S2P Require Export ConfigTypes SqlText.

(** ** Errors *)

Inductive SourceError :=
| Unreachable (name : string)
| SchemaMismatch (name msg : string)
| Unauthorized (name : string)
| Forbidden (name msg : string)
| RateLimited (name : string) (retry_after : option N)
| Unavailable (name msg : string)
| OtherSource (name msg : string).

(** [EngineError]; durations in nanoseconds. *)
Inductive EngineError :=
| EUnknownKind (kind : string)
| ESourceRegistration (name kind : string) (source : SourceError)
| EUnknownTable (name : string)
| EUnknownFunction (name : string)
| ESafety (e : SafetyError)
| ETimeout (after : N)
| EOutOfMemory (budget : N)
| EInvalidSql (msg : string)
| ESemanticPlan (msg : string)
| ECancelled
| EProtocol (msg : string)
| EInternal (msg : string)
| EUnsupported (msg : string).

(** ** Codes *)

Definition INVALID_SQL : string := "PAWRLY_INVALID_SQL".
Definition INTERNAL : string := "PAWRLY_INTERNAL".

Definition SafetyError_code (e : SafetyError) : string :=
  match e with
  | MissingRequiredFilter _ _ => "PAWRLY_SAFETY_REQUIRED_FILTER"
  | NoFilters _ => "PAWRLY_SAFETY_NO_FILTERS"
  | TooManyRows _ _ => "PAWRLY_SAFETY_TOO_MANY_ROWS"
  | TooManyPages _ _ => "PAWRLY_SAFETY_TOO_MANY_PAGES"
  | UnboundParam _ _ => "PAWRLY_SAFETY_UNBOUND_PARAM"
  | PredicateUnsatisfied _ _ _ => "PAWRLY_SAFETY_PREDICATE_UNSATISFIED"
  end.

Definition SourceError_code (e : SourceError) : string :=
  match e with
  | Unreachable _ => "PAWRLY_SOURCE_UNREACHABLE"
  | SchemaMismatch _ _ => "PAWRLY_SOURCE_SCHEMA_MISMATCH"
  | Unauthorized _ => "PAWRLY_SOURCE_UNAUTHORIZED"
  | Forbidden _ _ => "PAWRLY_SOURCE_FORBIDDEN"
  | RateLimited _ _ => "PAWRLY_SOURCE_RATE_LIMITED"
  | Unavailable _ _ => "PAWRLY_SOURCE_UNAVAILABLE"
  | OtherSource _ _ => "PAWRLY_SOURCE_OTHER"
  end.

Definition EngineError_code (e : EngineError) : string :=
  match e with
  | EUnknownKind _ => "PAWRLY_UNKNOWN_KIND"
  | ESourceRegistration _ _ _ => "PAWRLY_SOURCE_REGISTRATION"
  | EUnknownTable _ => "PAWRLY_UNKNOWN_TABLE"
  | EUnknownFunction _ => "PAWRLY_UNKNOWN_FUNCTION"
  | ESafety s => SafetyError_code s
  | ETimeout _ => "PAWRLY_TIMEOUT"
  | EOutOfMemory _ => "PAWRLY_OOM"
  | EInvalidSql _ => INVALID_SQL
  | ESemanticPlan _ => "PAWRLY_SEMANTIC_PLAN"
  | ECancelled => "PAWRLY_CANCELLED"
  | EProtocol _ => "PAWRLY_PROTOCOL"
  | EInternal _ => INTERNAL
  | EUnsupported _ => "PAWRLY_UNSUPPORTED"
  end.

(** ** Texts *)

Definition tick (s : string) : string := "`" +:+ s +:+ "`".

(** [Duration]'s [Debug]. *)
Section display.
Context (duration_debug : N → string).

Definition SourceError_display (e : SourceError) : string :=
  match e with
  | Unreachable name => "source " +:+ tick name +:+ " is unreachable"
  | SchemaMismatch name msg =>
      "source " +:+ tick name +:+ " returned a schema that does not match its declaration: " +:+ msg
  | Unauthorized name => "source " +:+ tick name +:+ " is unauthorized; check credentials"
  | Forbidden name msg => "source " +:+ tick name +:+ " denied the request: " +:+ msg
  | RateLimited name retry_after =>
      "source " +:+ tick name +:+ " is rate-limited; retry-after "
      +:+ match retry_after with Some d => "Some(" +:+ duration_debug d +:+ ")" | None => "None" end
  | Unavailable name msg => "source " +:+ tick name +:+ " is unavailable in this build: " +:+ msg
  | OtherSource name msg => "source " +:+ tick name +:+ ": " +:+ msg
  end.

Definition EngineError_display (e : EngineError) : string :=
  match e with
  | EUnknownKind kind => "unknown source kind: " +:+ kind
  | ESourceRegistration name kind source =>
      "source " +:+ tick name +:+ " (" +:+ kind +:+ ") failed to register: " +:+ SourceError_display source
  | EUnknownTable name => "unknown table " +:+ tick name
  | EUnknownFunction name => "unknown function " +:+ tick name
  | ESafety s => "safety check failed: " +:+ SafetyError_display s
  | ETimeout after => "query timed out after " +:+ duration_debug after
  | EOutOfMemory budget => "query exceeded memory budget of " +:+ show_N budget +:+ " bytes"
  | EInvalidSql msg => "invalid SQL: " +:+ msg
  | ESemanticPlan msg => "semantic plan error: " +:+ msg
  | ECancelled => "query was cancelled"
  | EProtocol msg => "protocol error: " +:+ msg
  | EInternal msg => "internal error: " +:+ msg
  | EUnsupported msg => msg
  end.
End display.

Definition ConfigError_display (e : ConfigError) : string :=
  match e with
  | ESchema path msg => "at " +:+ path +:+ ": " +:+ msg
  | ETable source_name table msg =>
      "source " +:+ tick source_name +:+ " table " +:+ tick table +:+ ": " +:+ msg
  | ESource name msg => "source " +:+ tick name +:+ ": " +:+ msg
  | ESemanticInvalid model msg => "semantic model " +:+ tick model +:+ ": " +:+ msg
  | EFunctionInvalid namespace name msg =>
      "function " +:+ tick (namespace +:+ "." +:+ name) +:+ ": " +:+ msg
  | EUnresolvedSecret name => "unresolved secret reference: " +:+ name
  | EUnresolvedEnv name => "unresolved env reference: " +:+ name
  | EVariable name msg => "variable " +:+ tick name +:+ ": " +:+ msg
  | EReadFile path msg => "could not read referenced file " +:+ tick path +:+ ": " +:+ msg
  | EIncludeCycle chain => "include/from cycle: " +:+ chain
  | EIo msg => "io error: " +:+ msg
  | EYaml msg => "yaml parse error: " +:+ msg
  | EUnsupportedVersion version =>
      "config version " +:+ tick (show_N version) +:+ " is not supported (only `1` is)"
  end.

(** ** The wire *)

(** [message.strip_prefix(prefix).unwrap_or(message)]. *)
Definition tail_of (message prefix : string) : string := default message (strip_prefix prefix message).

Definition backticked (message prefix : string) : string :=
  let t := tail_of message prefix in default t (strip_prefix "`" t ≫= strip_suffix "`").

Definition from_wire (code message : string) : EngineError :=
  if decide (code = "PAWRLY_CANCELLED") then ECancelled
  else if decide (code = "PAWRLY_TIMEOUT") then ETimeout 0
  else if decide (code = "PAWRLY_OOM") then EOutOfMemory 0
  else if decide (code = "PAWRLY_UNKNOWN_KIND") then EUnknownKind (tail_of message "unknown source kind: ")
  else if decide (code = "PAWRLY_UNKNOWN_TABLE") then EUnknownTable (backticked message "unknown table ")
  else if decide (code = "PAWRLY_UNKNOWN_FUNCTION") then
    EUnknownFunction (backticked message "unknown function ")
  else if decide (code = INVALID_SQL) then EInvalidSql (tail_of message "invalid SQL: ")
  else if decide (code = "PAWRLY_SEMANTIC_PLAN") then ESemanticPlan (tail_of message "semantic plan error: ")
  else if decide (code = "PAWRLY_PROTOCOL") then EProtocol (tail_of message "protocol error: ")
  else if decide (code = "PAWRLY_UNSUPPORTED") then EUnsupported message
  else if decide (code = INTERNAL) then EInternal (tail_of message "internal error: ")
  else EInternal (code +:+ ": " +:+ message).

(** What a server sends for an error, and what its client makes of it. *)
Definition sent_over (duration_debug : N → string) (e : EngineError) : EngineError :=
  from_wire (EngineError_code e) (EngineError_display duration_debug e).

(** ** Theorems *)

Lemma tail_of_app p s : tail_of (p +:+ s) p = s.
Proof. unfold tail_of. by rewrite strip_prefix_app. Qed.

Lemma backticked_tick p s : backticked (p +:+ tick s) p = s.
Proof.
  unfold backticked, tick. rewrite tail_of_app. rewrite strip_prefix_app. simpl.
  destruct (strip_suffix_is_some "`" s) as [r Hr]. rewrite Hr. simpl.
  apply strip_suffix_some in Hr. by apply app_inj_r in Hr.
Qed.
