(* ===== verification/Engine.v ===== *)
(** * The local engine ([crates/pawrly-engine/src/local.rs], [registry.rs])
    Which sources are registered, the catalog of tables a query can name, the attached
    functions, the background refreshers and the store of dynamic variables, and the operations
    that change them: registration, removal, addition at run time, refresh and reload, and the
    rollup tables of [preagg.rs]. What the drivers of the source kinds find, what an attached
    database answers and how DataFusion plans a text are outcomes ([Registrar]). *)

From S2P Require Import Compile.
From S2P Require Export EngineErrors FunctionProps Loader Validate.

(** ** Descriptors ([crates/pawrly-core/src/source.rs]) *)

(** [SourceDef] of the engine. *)
Record EngineTableDef := {
  et_name : string;
  et_description : option string;
  et_wiki : option string;
  et_config : Json;
  et_cache : option CachePolicy;
  et_safety : option SafetyPolicy
}.

Record EngineSourceDef := {
  es_name : string;
  es_kind : SourceKind;
  es_description : option string;
  es_wiki : option string;
  es_examples : list string;
  es_config : Json;
  es_cache : CachePolicy;
  es_safety : option SafetyPolicy;
  es_tables : list EngineTableDef;
  es_raw_table : bool;
  es_raw_table_safety : option SafetyPolicy
}.

(** [Config::into_engine_sources]. *)
Definition engine_table (t : TableDef) : EngineTableDef :=
  {| et_name := td_name t; et_description := td_description t; et_wiki := td_wiki t;
     et_config := td_body t; et_cache := td_cache t; et_safety := td_safety t |}.

Definition engine_source (s : SourceDef) : EngineSourceDef :=
  {| es_name := src_name s; es_kind := src_kind s; es_description := src_description s;
     es_wiki := src_wiki s; es_examples := src_examples s; es_config := src_config s;
     es_cache := src_cache s; es_safety := src_safety s;
     es_tables := engine_table <$> src_tables s; es_raw_table := src_raw_table s;
     es_raw_table_safety := src_raw_table_safety s |}.

Definition into_engine_sources (cfg : Config) : list EngineSourceDef :=
  engine_source <$> cfg_sources cfg.

(** What [validate_engine_source] makes of a definition. *)
Definition config_view (d : EngineSourceDef) : SourceDef :=
  {| src_name := es_name d; src_kind := es_kind d; src_description := es_description d;
     src_wiki := es_wiki d; src_examples := es_examples d; src_config := es_config d;
     src_tables := (λ t, {| td_name := et_name t; td_description := et_description t;
                            td_wiki := et_wiki t; td_body := et_config t;
                            td_cache := et_cache t; td_safety := et_safety t |}) <$> es_tables d;
     src_functions := []; src_raw_table := es_raw_table d;
     src_raw_table_safety := es_raw_table_safety d; src_cache := es_cache d;
     src_safety := es_safety d; src_dynamic_vars := [] |}.

(** ** State *)

(** A summary of a registered table, and the report of a driver. *)
Record TableSummary := {
  ts_name : string;
  ts_description : option string;
  ts_wiki : option string;
  ts_required_filters : list string
}.

Record RegisterReport := { rr_table_count : N; rr_tables : list TableSummary }.

(** A column of a queryable table, as its Arrow field displays. *)
Record CatalogColumn := { cc_name : string; cc_type : string; cc_nullable : bool }.

(** A queryable table: its columns, and the policy it is wrapped with when it is cached. *)
Record CatalogTable := { ct_columns : list CatalogColumn; ct_cached : option CachePolicy }.

(** A schema of the catalog: tables in memory ([MemorySchemaProvider]), or an attached database,
    with the tables looked up so far ([DuckDbSchemaProvider]). *)
Inductive Schema :=
| MemorySchema (tables : gmap string CatalogTable)
| AttachedSchema (looked_up : gmap string CatalogTable).

Record SourceInfo := {
  si_name : string;
  si_kind : SourceKind;
  si_status_ok : bool;
  si_sub_kind : option string;
  si_table_count : N
}.

(** A registered source, with the variable store its driver was given. *)
Record RegisteredSource := {
  rs_info : SourceInfo;
  rs_tables : list TableSummary;
  rs_def : EngineSourceDef;
  rs_store : gmap string DynamicVarSpec
}.

Record Engine := {
  en_sources : gmap string RegisteredSource;
  en_catalog : gmap string Schema;
  en_functions : FnState;
  en_refreshers : gmap string (list TableName);
  en_variables : gmap string DynamicVarSpec;
  en_dynamic_bindings : gmap string (gmap string string);
  en_semantic : SemanticCatalog
}.

Definition with_sources_map (st : Engine) (m : gmap string RegisteredSource) : Engine :=
  {| en_sources := m; en_catalog := en_catalog st; en_functions := en_functions st;
     en_refreshers := en_refreshers st; en_variables := en_variables st;
     en_dynamic_bindings := en_dynamic_bindings st; en_semantic := en_semantic st |}.

Definition with_catalog (st : Engine) (c : gmap string Schema) : Engine :=
  {| en_sources := en_sources st; en_catalog := c; en_functions := en_functions st;
     en_refreshers := en_refreshers st; en_variables := en_variables st;
     en_dynamic_bindings := en_dynamic_bindings st; en_semantic := en_semantic st |}.

Definition with_functions (st : Engine) (f : FnState) : Engine :=
  {| en_sources := en_sources st; en_catalog := en_catalog st; en_functions := f;
     en_refreshers := en_refreshers st; en_variables := en_variables st;
     en_dynamic_bindings := en_dynamic_bindings st; en_semantic := en_semantic st |}.

Definition with_refreshers (st : Engine) (r : gmap string (list TableName)) : Engine :=
  {| en_sources := en_sources st; en_catalog := en_catalog st; en_functions := en_functions st;
     en_refreshers := r; en_variables := en_variables st;
     en_dynamic_bindings := en_dynamic_bindings st; en_semantic := en_semantic st |}.

Definition with_variables (st : Engine) (v : gmap string DynamicVarSpec)
    (b : gmap string (gmap string string)) : Engine :=
  {| en_sources := en_sources st; en_catalog := en_catalog st; en_functions := en_functions st;
     en_refreshers := en_refreshers st; en_variables := v; en_dynamic_bindings := b;
     en_semantic := en_semantic st |}.

(** What lies outside answers during an operation. The driver of a source, given the variable store
    and the source's bindings, finds the schema it installed and its report or error text; a table
    installed under the schema is queryable whether or not the report names it. An attached
    database, asked for a table it has not looked up yet, gives its columns or an error
    ([DuckDb.lookup_table] asks). DataFusion plans a text, which gives its columns, or fails; and it
    has a text for a schema that takes no tables. *)
Class Registrar := {
  install : EngineSourceDef → gmap string DynamicVarSpec → gmap string string →
    option Schema * result string RegisterReport;
  db_table : string → string → result string (option (list CatalogColumn));
  plan_sql : string → result string (list CatalogColumn);
  no_registering : string
}.

(** What does not change while the engine runs: [cron_parses] decides [Schedule::from_str],
    [def_json] is [serde_json::to_value] of a definition, the others parse URLs and schemas for
    validation. *)
Class EngineFormats := {
  cron_parses : string → bool;
  def_json : EngineSourceDef → Json;
  url_parse : string → result string Url;
  url_username : Url → string;
  url_password : Url → option string
}.

(** ** Kinds ([registry.rs], [crates/pawrly-core/src/storage.rs]) *)

Inductive StorageScheme := StLocal | StHttp | StS3 | StGcs | StAzure.

Definition classify_scheme (path : string) : StorageScheme :=
  match split_once_str "://" path with
  | None => StLocal
  | Some (scheme, _) =>
      let s := to_ascii_lowercase scheme in
      if bool_decide (s ∈ ["http"; "https"]) then StHttp
      else if decide (s = "s3") then StS3
      else if bool_decide (s ∈ ["gs"; "gcs"]) then StGcs
      else if bool_decide (s ∈ ["az"; "azure"; "abfss"]) then StAzure
      else StLocal
  end.

Definition default_storage_type (s : StorageScheme) : option string :=
  match s with
  | StLocal => None | StHttp => Some "http" | StS3 => Some "s3" | StGcs => Some "gcs"
  | StAzure => Some "azure"
  end.

Definition is_remote (s : StorageScheme) : bool := match s with StLocal => false | _ => true end.

(** The text before the first [/] or [?]. *)
Fixpoint authority_of (s : string) : string :=
  match s with
  | String c s' => if decide (c = "/"%char ∨ c = "?"%char) then "" else String c (authority_of s')
  | "" => ""
  end.

Definition origin_prefix (path : string) : option string :=
  match split_once_str "://" path with
  | None => None
  | Some (scheme, rest) =>
      let authority := authority_of rest in
      if decide (authority = "") then None else Some (scheme +:+ "://" +:+ authority +:+ "/")
  end.

Definition is_remote_path (v : Json) : bool :=
  match match get v "path" with Some p => Some p | None => get v "location" end ≫= as_str with
  | Some p => is_remote (classify_scheme p)
  | None => false
  end.

Definition file_is_remote (d : EngineSourceDef) : bool :=
  is_some (get (es_config d) "storage")
  || (is_remote_path (es_config d) || existsb (λ t, is_remote_path (et_config t)) (es_tables d)).

Definition sub_kind (d : EngineSourceDef) : option string :=
  match es_kind d with
  | KHttp => if decide (get (es_config d) "type" ≫= as_str = Some "openapi") then Some "openapi"
             else None
  | KFile => if file_is_remote d then Some "object_storage" else None
  | _ => None
  end.

(** ** Registration *)

Definition with_wiki (d : EngineSourceDef) (t : TableSummary) : TableSummary :=
  {| ts_name := ts_name t; ts_description := ts_description t;
     ts_wiki := List.find (λ et, bool_decide (et_name et = ts_name t)) (es_tables d) ≫= et_wiki;
     ts_required_filters := ts_required_filters t |}.

Section ops.
Context {EF : EngineFormats} {RG : Registrar} {FB : FunctionBuild}.
Context `{!HashIter (string * string), !HashIter string}.

(** [registry::register_source]. *)
Definition install_source (d : EngineSourceDef) (vars : gmap string DynamicVarSpec)
    (dynamic : gmap string string) : option Schema * result string RegisterReport :=
  let '(schema, r) := install d vars dynamic in
  (schema, rmap (λ r, {| rr_table_count := rr_table_count r;
                         rr_tables := with_wiki d <$> rr_tables r |}) r).

Definition abort_refreshers (name : string) (st : Engine) : Engine :=
  with_refreshers st (delete name (en_refreshers st)).

(** [Spawner::spawn_for] starts a task. *)
Definition spawns (p : CachePolicy) : bool :=
  match p with
  | PolicyRefresh every => negb (bool_decide (every = 0%N))
  | PolicyCron cron => cron_parses cron
  | _ => false
  end.

(** [SchemaProvider::table] of the schema [name]; an attached database keeps what it looked up. *)
Definition schema_table (name table : string) (s : Schema)
    : Schema * result string (option CatalogTable) :=
  match s with
  | MemorySchema m => (s, Ok (m !! table))
  | AttachedSchema m =>
      match m !! table with
      | Some c => (s, Ok (Some c))
      | None =>
          match db_table name table with
          | Err e => (s, Err e)
          | Ok None => (s, Ok None)
          | Ok (Some columns) =>
              let c := {| ct_columns := columns; ct_cached := None |} in
              (AttachedSchema (<[table := c]> m), Ok (Some c))
          end
      end
  end.

(** [deregister_table], whose failure is ignored, and [register_table]. *)
Definition replace_table (table : string) (c : CatalogTable) (s : Schema)
    : Schema * result string () :=
  match s with
  | MemorySchema m => (MemorySchema (<[table := c]> m), Ok ())
  | AttachedSchema _ => (s, Err no_registering)
  end.

(** The loop that wraps the reported tables of a caching source; what [replace_table] answers is
    ignored. *)
Fixpoint wrap_tables (source : string) (policy : CachePolicy) (tables : list TableSummary)
    (schema : Schema) : Schema * list TableName :=
  match tables with
  | [] => (schema, [])
  | t :: tables =>
      match schema_table source (ts_name t) schema with
      | (schema, Ok (Some original)) =>
          let wrapped := {| ct_columns := ct_columns original; ct_cached := Some policy |} in
          let '(schema, _) := replace_table (ts_name t) wrapped schema in
          let '(schema, spawned) := wrap_tables source policy tables schema in
          (schema, if spawns policy then mkTableName source (ts_name t) :: spawned else spawned)
      | (schema, _) => wrap_tables source policy tables schema
      end
  end.

Definition cache_tables (d : EngineSourceDef) (tables : list TableSummary) (st : Engine) : Engine :=
  if caches (es_cache d)
  then match en_catalog st !! es_name d with
       | None => st
       | Some schema =>
           let '(schema, spawned) := wrap_tables (es_name d) (es_cache d) tables schema in
           let st := with_catalog st (<[es_name d := schema]> (en_catalog st)) in
           match spawned with
           | [] => st
           | _ => with_refreshers st (<[es_name d := spawned]> (en_refreshers st))
           end
       end
  else st.

(** [register_source]. *)
Definition register_source (d : EngineSourceDef) (st : Engine) : Engine * result EngineError () :=
  let name := es_name d in
  if decide (name = MATERIALIZED_NAME) then
    (st, Err (EInternal ("source name `" +:+ name +:+ "` is reserved for materialized tables")))
  else if decide (name = SYSTEM_SCHEMA) then
    (st, Err (EInternal ("source name `" +:+ name +:+ "` is reserved for engine system tables")))
  else
    let st := abort_refreshers name st in
    let st := with_catalog st (delete name (en_catalog st)) in
    let '(schema, report) :=
      install_source d (en_variables st) (default ∅ (en_dynamic_bindings st !! name)) in
    let st := match schema with
              | Some schema => with_catalog st (<[name := schema]> (en_catalog st))
              | None => st
              end in
    match report with
    | Err e => (st, Err (ESourceRegistration name (SourceKind_as_str (es_kind d)) (OtherSource name e)))
    | Ok report =>
        let st := cache_tables d (rr_tables report) st in
        let info := {| si_name := name; si_kind := es_kind d; si_status_ok := true;
                       si_sub_kind := sub_kind d; si_table_count := rr_table_count report |} in
        (with_sources_map st
           (<[name := {| rs_info := info; rs_tables := rr_tables report; rs_def := d;
                         rs_store := en_variables st |}]> (en_sources st)), Ok ())
    end.

Fixpoint register_all (defs : list EngineSourceDef) (st : Engine) : Engine * result EngineError () :=
  match defs with
  | [] => (st, Ok ())
  | d :: defs => match register_source d st with
                 | (st, Ok _) => register_all defs st
                 | (st, Err e) => (st, Err e)
                 end
  end.

(** [remove_source_inner]. *)
Definition remove_source (name : string) (st : Engine) : Engine * bool :=
  let st := abort_refreshers name st in
  let removed := is_some (en_sources st !! name) in
  let st := with_sources_map st (delete name (en_sources st)) in
  let st := if removed then with_catalog st (delete name (en_catalog st)) else st in
  (with_functions st (drop_source_functions name (en_functions st)), removed).

(** Functions of a configuration, with the error of the engine. *)
Definition set_functions (r : FnState * result string ()) (st : Engine)
    : Engine * result EngineError () :=
  (with_functions st r.1, map_err EInternal r.2).

(** ** Building ([LocalEngine::build], after the session is set up) *)

Definition ROLLUP_REFRESHER_KEY : string := "__rollups__".

Definition rollup_table (spec : RollupSpec) : string :=
  rollup_table_name (rs_model spec) (rs_preagg spec).

(** Without [refresh:] the interval is zero, which is never scheduled. *)
Definition rollup_policy (spec : RollupSpec) : CachePolicy :=
  PolicyRefresh (default 0%N (rs_refresh spec)).

(** The loop over the declared pre-aggregations: one that does not compile or plan is skipped. *)
Fixpoint register_each_rollup (c : SemanticCatalog) (specs : list RollupSpec) (schema : Schema)
    (spawned : list TableName) : Schema * list TableName * result EngineError () :=
  match specs with
  | [] => (schema, spawned, Ok ())
  | spec :: specs =>
      match compile_preagg_sql c (rs_model spec) (rs_preagg spec) with
      | Err _ => register_each_rollup c specs schema spawned
      | Ok sql =>
          match plan_sql sql with
          | Err _ => register_each_rollup c specs schema spawned
          | Ok columns =>
              let wrapped := {| ct_columns := columns; ct_cached := Some (rollup_policy spec) |} in
              match replace_table (rollup_table spec) wrapped schema with
              | (schema, Err e) =>
                  (schema, spawned,
                   Err (EInternal ("register rollup `" +:+ rollup_table spec +:+ "`: " +:+ e)))
              | (schema, Ok _) =>
                  register_each_rollup c specs schema
                    (if is_some (rs_refresh spec) && spawns (rollup_policy spec)
                     then spawned ++ [mkTableName ROLLUP_SCHEMA (rollup_table spec)] else spawned)
              end
          end
      end
  end.

(** [register_rollups]. *)
Definition register_rollups (st : Engine) : Engine * result EngineError () :=
  match rollups (en_semantic st) with
  | [] => (st, Ok ())
  | specs =>
      let schema := default (MemorySchema ∅) (en_catalog st !! ROLLUP_SCHEMA) in
      let st := abort_refreshers ROLLUP_REFRESHER_KEY st in
      let '(schema, spawned, r) := register_each_rollup (en_semantic st) specs schema [] in
      let st := with_catalog st (<[ROLLUP_SCHEMA := schema]> (en_catalog st)) in
      match r with
      | Err e => (st, Err e)
      | Ok _ =>
          (match spawned with
           | [] => st
           | _ => with_refreshers st (<[ROLLUP_REFRESHER_KEY := spawned]> (en_refreshers st))
           end, Ok ())
      end
  end.

(** The semantic catalog of a configuration. *)
Definition semantic_catalog (cfg : Config) : SemanticCatalog :=
  match cfg_semantic cfg with
  | Some s => with_time_spine (new_with_metrics (sc_models s) (sc_metrics s)) (sc_time_spine s)
  | None => with_time_spine (new_with_metrics [] []) None
  end.

Definition empty_engine (semantic : SemanticCatalog) : Engine :=
  {| en_sources := ∅; en_catalog := ∅; en_functions := {| fs_registry := ∅; fs_udtfs := ∅ |};
     en_refreshers := ∅; en_variables := ∅; en_dynamic_bindings := ∅; en_semantic := semantic |}.

Definition build_engine (cfg : Config) : Engine * result EngineError () :=
  let st := with_variables (empty_engine (semantic_catalog cfg)) (dynamic_specs cfg)
              (dynamic_bindings_by_source cfg) in
  match register_all (into_engine_sources cfg) st with
  | (st, Err e) => (st, Err e)
  | (st, Ok _) =>
      match set_functions (register_functions (en_functions st) (engine_functions cfg)) st with
      | (st, Err e) => (st, Err e)
      | (st, Ok _) => register_rollups st
      end
  end.

(** ** Sources at run time *)

Definition add_source (d : EngineSourceDef) (st : Engine)
    : Engine * result EngineError SourceInfo :=
  match validate_engine_source url_parse url_username url_password (config_view d) with
  | _ :: _ as errors =>
      (st, Err (EInternal ("source `" +:+ es_name d +:+ "` failed validation: "
                           +:+ join "; " (ConfigError_display <$> errors))))
  | [] =>
      match register_source d st with
      | (st, Err e) => (st, Err e)
      | (st, Ok _) =>
          (st, ok_or (EInternal "source vanished after register")
                 (rs_info <$> en_sources st !! es_name d))
      end
  end.

Record RefreshCatalogOutcome := { rc_sources_refreshed : N; rc_tables_discovered : N }.

Definition refresh_catalog (source : option string) (st : Engine)
    : Engine * result EngineError RefreshCatalogOutcome :=
  match match source with
        | Some name =>
            rmap (λ s, [rs_def s])
              (ok_or (EUnknownTable ("source `" +:+ name +:+ "` is not registered"))
                 (en_sources st !! name))
        | None => Ok (omap (λ n, rs_def <$> en_sources st !! n) (hash_iter (dom (en_sources st))))
        end with
  | Err e => (st, Err e)
  | Ok defs =>
      let names := es_name <$> defs in
      match register_all defs st with
      | (st, Err e) => (st, Err e)
      | (st, Ok _) =>
          (st, Ok {| rc_sources_refreshed := N.of_nat (length names);
                     rc_tables_discovered :=
                       foldr N.add 0%N ((λ s, N.of_nat (length (rs_tables s)))
                                          <$> omap (λ n, en_sources st !! n) names) |})
      end
  end.

(** ** Reloading *)

Record ReloadReport := { rl_added : N; rl_removed : N; rl_changed : N }.

Definition count_added (r : ReloadReport) : ReloadReport :=
  {| rl_added := rl_added r + 1; rl_removed := rl_removed r; rl_changed := rl_changed r |}.
Definition count_removed (r : ReloadReport) : ReloadReport :=
  {| rl_added := rl_added r; rl_removed := rl_removed r + 1; rl_changed := rl_changed r |}.
Definition count_changed (r : ReloadReport) : ReloadReport :=
  {| rl_added := rl_added r; rl_removed := rl_removed r; rl_changed := rl_changed r + 1 |}.

Fixpoint reload_sources (current : gmap string Json) (defs : list EngineSourceDef)
    (report : ReloadReport) (st : Engine) : Engine * result EngineError ReloadReport :=
  match defs with
  | [] => (st, Ok report)
  | d :: defs =>
      match current !! es_name d with
      | None =>
          match register_source d st with
          | (st, Ok _) => reload_sources current defs (count_added report) st
          | (st, Err e) => (st, Err e)
          end
      | Some old =>
          if json_eqb old (def_json d) then reload_sources current defs report st
          else match register_source d st with
               | (st, Ok _) => reload_sources current defs (count_changed report) st
               | (st, Err e) => (st, Err e)
               end
      end
  end.

Fixpoint remove_sources (names : list string) (report : ReloadReport) (st : Engine)
    : Engine * ReloadReport :=
  match names with
  | [] => (st, report)
  | n :: names =>
      let '(st, removed) := remove_source n st in
      remove_sources names (if removed : bool then count_removed report else report) st
  end.

(** [reload_config], given what loading the configuration file yields. *)
Definition reload_config (config_path : option string) (load : string → result string Config)
    (st : Engine) : Engine * result EngineError ReloadReport :=
  match config_path with
  | None => (st, Err (EInternal "reload_config requires an engine built from a config file"))
  | Some path =>
      match load path with
      | Err e => (st, Err (EInternal e))
      | Ok cfg =>
          let st := with_variables st (dynamic_specs cfg) (dynamic_bindings_by_source cfg) in
          let new_defs := into_engine_sources cfg in
          let current := def_json ∘ rs_def <$> en_sources st in
          match reload_sources current new_defs {| rl_added := 0; rl_removed := 0; rl_changed := 0 |}
                  st with
          | (st, Err e) => (st, Err e)
          | (st, Ok report) =>
              let gone := List.filter (λ n, negb (bool_decide (n ∈ es_name <$> new_defs)))
                            (hash_iter (dom current)) in
              let '(st, report) := remove_sources gone report st in
              match set_functions (reload_functions (engine_functions cfg) (en_functions st)) st with
              | (st, Err e) => (st, Err e)
              | (st, Ok _) => (st, Ok report)
              end
          end
      end
  end.

(** ** Listings *)

Record TableInfo := {
  ti_name : TableName;
  ti_kind : SourceKind;
  ti_description : option string;
  ti_required_filters : list string
}.

Record TableFilter := { tf_source : option string; tf_name_glob : option string }.

Definition list_sources (st : Engine) : list SourceInfo :=
  omap (λ n, rs_info <$> en_sources st !! n) (hash_iter (dom (en_sources st))).

Definition source_tables (s : RegisteredSource) : list TableInfo :=
  (λ t, {| ti_name := mkTableName (si_name (rs_info s)) (ts_name t); ti_kind := si_kind (rs_info s);
           ti_description := ts_description t; ti_required_filters := ts_required_filters t |})
    <$> rs_tables s.

Definition wanted (filter : option TableFilter) (s : RegisteredSource) : bool :=
  match filter ≫= tf_source with
  | Some want => bool_decide (si_name (rs_info s) = want)
  | None => true
  end.

Definition list_tables (filter : option TableFilter) (st : Engine) : list TableInfo :=
  List.filter (wanted filter) (omap (λ n, en_sources st !! n) (hash_iter (dom (en_sources st))))
    ≫= source_tables.

Record TableDescription := {
  tdn_table : TableInfo;
  tdn_columns : list CatalogColumn;
  tdn_examples : list string;
  tdn_wiki : option string
}.

(** [describe_table]; the lookup may ask an attached database, and is kept. *)
Definition describe_table (name : TableName) (st : Engine)
    : Engine * result EngineError TableDescription :=
  let unknown := EUnknownTable (TableName_display name) in
  match en_catalog st !! tn_schema name with
  | None => (st, Err unknown)
  | Some schema =>
      let '(schema, found) := schema_table (tn_schema name) (tn_table name) schema in
      let st := with_catalog st (<[tn_schema name := schema]> (en_catalog st)) in
      (st,
       let? found := map_err (λ e, EInternal ("datafusion: " +:+ e)) found in
       let? table := ok_or unknown found in
       let? src := ok_or unknown (en_sources st !! tn_schema name) in
       let summary := List.find (λ t, bool_decide (ts_name t = tn_table name)) (rs_tables src) in
       let wiki := match es_wiki (rs_def src), summary ≫= ts_wiki with
                   | Some s, Some t => Some (s +:+ chr "010" +:+ chr "010" +:+ t)
                   | Some s, None => Some s
                   | None, t => t
                   end in
       Ok {| tdn_table := {| ti_name := name; ti_kind := si_kind (rs_info src);
                             ti_description := summary ≫= ts_description;
                             ti_required_filters := default [] (ts_required_filters <$> summary) |};
             tdn_columns := ct_columns table;
             tdn_examples := List.filter (contains_text (TableName_display name))
                               (es_examples (rs_def src));
             tdn_wiki := wiki |})
  end.

Record SchemaSummary := {
  ss_name : string;
  ss_kind : SourceKind;
  ss_tables : list (string * list string)
}.

Definition schema_snapshot (sources : option (list string)) (st : Engine) : list SchemaSummary :=
  (λ s, {| ss_name := si_name (rs_info s); ss_kind := si_kind (rs_info s);
           ss_tables := (λ t, (ts_name t, ts_required_filters t)) <$> rs_tables s |})
    <$> List.filter (λ s, match sources with
                          | Some f => bool_decide (si_name (rs_info s) ∈ f)
                          | None => true
                          end)
          (omap (λ n, en_sources st !! n) (hash_iter (dom (en_sources st)))).

(** [test_source]: whether the source is registered. *)
Definition test_source (name : string) (st : Engine) : bool := is_some (en_sources st !! name).

(** [describe_function]. *)
Definition engine_describe_function (namespace name : string) (st : Engine)
    : result EngineError FunctionDescription :=
  ok_or (EUnknownFunction (namespace +:+ "." +:+ name))
    (registry_describe namespace name (fs_registry (en_functions st))).

(** [shutdown] aborts every refresher. *)
Definition shutdown (st : Engine) : Engine := with_refreshers st ∅.
End ops.
