(* ===== verification/EngineProps.v ===== *)
(** * Properties of the engine
    What a client recovers from an error a server sent; which tables a query can name, which
    background refreshers run and which functions can be called after any history of
    registrations, removals, refreshes and reloads; what a reload leaves. *)

From S2P Require Import Prelude VariablesProps Compile EngineErrors Engine.

(** ** Errors on the wire *)

(** What is left of an error once a server has sent it: the texts survive, the durations, the
    memory budget and the structure of safety and registration errors do not. *)
Definition carried (duration_debug : N → string) (e : EngineError) : EngineError :=
  match e with
  | ETimeout _ => ETimeout 0
  | EOutOfMemory _ => EOutOfMemory 0
  | ESafety _ | ESourceRegistration _ _ _ =>
      EInternal (EngineError_code e +:+ ": " +:+ EngineError_display duration_debug e)
  | _ => e
  end.

(** C34: A client rebuilds the error a server raised: every kind but safety and registration
    errors comes back as itself, with its text (a timeout and a memory error without their
    figures); a safety or registration error comes back as an internal error whose text starts
    with the code it had. Sending an error on through a second server loses nothing more. *)
Theorem wire_carries duration_debug e :
  sent_over duration_debug e = carried duration_debug e ∧
  (EngineError_code (sent_over duration_debug e) = EngineError_code e ∨
   ∃ msg, EngineError_code (sent_over duration_debug e) = INTERNAL ∧
          sent_over duration_debug e = EInternal (EngineError_code e +:+ ": " +:+ msg)) ∧
  sent_over duration_debug (sent_over duration_debug e) = sent_over duration_debug e.
Proof.
  assert (H : ∀ e, sent_over duration_debug e = carried duration_debug e).
  { intros []; unfold sent_over, from_wire; simpl;
      try (change ("`" +:+ ?n +:+ "`") with (tick n));
      rewrite ?tail_of_app, ?backticked_tick; try done.
    destruct e0; done. }
  rewrite !H. split; [done|]. split; [|destruct e; done].
  destruct e; simpl; eauto.
Qed.

(** ** One source at a time *)

Section engine.
Context {EF : EngineFormats} {RG : Registrar} {FB : FunctionBuild}.
Context `{!HashIter (string * string), !HashIter string}.

(** Two states agree except on the source [n]. *)
Record off (n : string) (st st' : Engine) : Prop := {
  off_sources m : m ≠ n → en_sources st' !! m = en_sources st !! m;
  off_catalog m : m ≠ n → en_catalog st' !! m = en_catalog st !! m;
  off_refreshers m : m ≠ n → en_refreshers st' !! m = en_refreshers st !! m;
  off_semantic : en_semantic st' = en_semantic st
}.

Lemma off_refl n st : off n st st.
Proof. by split. Qed.

Lemma off_trans n st1 st2 st3 : off n st1 st2 → off n st2 st3 → off n st1 st3.
Proof.
  intros [A1 A2 A3 A4] [B1 B2 B3 B4]. split; [..|congruence]; intros m Hm;
    by rewrite ?B1, ?B2, ?B3, ?A1, ?A2, ?A3.
Qed.

(** The schema has the table under this policy; an attached database, which takes no
    registration, has it as it was looked up. *)
Definition holds_wrapped (s : Schema) (table : string) (policy : CachePolicy) : Prop :=
  match s with
  | MemorySchema m => ∃ ct, m !! table = Some ct ∧ ct_cached ct = Some policy
  | AttachedSchema m => is_Some (m !! table)
  end.

(** What concerns the source [n] is consistent: it is registered under its name; its refreshers
    are for tables of its that the driver reported, cached under its policy. *)
Record tracked (st : Engine) (n : string) : Prop := {
  tracked_named s : en_sources st !! n = Some s →
    es_name (rs_def s) = n ∧ si_name (rs_info s) = n ∧ si_kind (rs_info s) = es_kind (rs_def s);
  tracked_refreshers ts x : n ≠ ROLLUP_REFRESHER_KEY → en_refreshers st !! n = Some ts → x ∈ ts →
    ∃ s t schema,
      en_sources st !! n = Some s ∧ spawns (es_cache (rs_def s)) = true ∧
      t ∈ rs_tables s ∧ x = mkTableName n (ts_name t) ∧
      en_catalog st !! n = Some schema ∧ holds_wrapped schema (ts_name t) (es_cache (rs_def s))
}.

Lemma off_tracked n st st' m : off n st st' → m ≠ n → tracked st m → tracked st' m.
Proof.
  intros [H1 H2 H3 _] Hm [T1 T2]. split; [intros s; rewrite H1 by done; apply T1|].
  intros ts x. rewrite H1, H2, H3 by done. apply T2.
Qed.

(** ** Caching *)

(** A lookup takes nothing away, and finds what the schema then holds. *)
Lemma schema_table_keeps name table s s' r :
  schema_table name table s = (s', r) →
  (∀ k policy, holds_wrapped s k policy → holds_wrapped s' k policy) ∧
  (∀ m, s = MemorySchema m → s' = s) ∧
  (∀ c, r = Ok (Some c) → match s' with
                          | MemorySchema m | AttachedSchema m => is_Some (m !! table)
                          end).
Proof.
  destruct s as [m|m]; simpl.
  - intros [= <- <-]. split_and!; [done|done|]. intros c [= Hc]. by eexists.
  - destruct (m !! table) as [c|] eqn:Hm; [|destruct (db_table name table) as [[columns|]|e]]; intros [= <- <-].
    2:{ split_and!; [|done|].
        - intros k policy Hk. simpl in *. destruct (decide (k = table)) as [->|Hne];
            [by rewrite lookup_insert_eq|by rewrite lookup_insert_ne].
        - intros c _. by rewrite lookup_insert_eq. }
    all: split_and!; [done|done|]; intros c' [= ?]. by eexists.
Qed.

(** Putting a wrapped table back. *)
Lemma replace_table_keeps table c policy s s' r :
  replace_table table c s = (s', r) → ct_cached c = Some policy →
  (∀ k, holds_wrapped s k policy → holds_wrapped s' k policy) ∧
  (match s with MemorySchema m | AttachedSchema m => is_Some (m !! table) end →
   holds_wrapped s' table policy).
Proof.
  destruct s as [m|m]; simpl; intros [= <- <-] Hc; [|done]. split; simpl.
  - intros k (ct & Hk & Hp). destruct (decide (k = table)) as [->|Hne];
      [rewrite lookup_insert_eq|rewrite lookup_insert_ne by done]; eauto.
  - intros _. rewrite lookup_insert_eq. eauto.
Qed.

(** A refresher starts for reported tables the schema has, which then are under the policy. *)
Lemma wrap_tables_spec source policy tables schema schema' spawned :
  wrap_tables source policy tables schema = (schema', spawned) →
  (∀ k, holds_wrapped schema k policy → holds_wrapped schema' k policy) ∧
  (∀ x, x ∈ spawned → spawns policy = true ∧
     ∃ t, t ∈ tables ∧ x = mkTableName source (ts_name t) ∧ holds_wrapped schema' (ts_name t) policy).
Proof.
  revert schema schema' spawned. induction tables as [|t tables IH]; intros schema schema' spawned; simpl.
  { intros [= <- <-]. split; [done|]. by intros x ?%elem_of_nil. }
  destruct (schema_table source (ts_name t) schema) as [s1 r] eqn:Ht.
  destruct (schema_table_keeps _ _ _ _ _ Ht) as (K1 & _ & F1).
  assert (∀ schema' spawned, wrap_tables source policy tables s1 = (schema', spawned) →
    (∀ k, holds_wrapped schema k policy → holds_wrapped schema' k policy) ∧
    (∀ x, x ∈ spawned → spawns policy = true ∧
       ∃ t', t' ∈ t :: tables ∧ x = mkTableName source (ts_name t') ∧ holds_wrapped schema' (ts_name t') policy))
    as Hskip.
  { intros sch sp [E1 E2]%IH. split; [auto|]. intros x Hx. destruct (E2 x Hx) as (? & t' & ? & ? & ?).
    split; [done|]. exists t'. split; [by right|done]. }
  destruct r as [[original|]|e]; [|by apply Hskip..].
  destruct (replace_table _ _ s1) as [s2 r2] eqn:Hr.
  destruct (replace_table_keeps _ _ policy _ _ _ Hr eq_refl) as [K2 F2].
  destruct (wrap_tables source policy tables s2) as [sch sp] eqn:E. intros [= <- <-].
  apply IH in E as [E1 E2]. split; [auto|]. intros x Hx.
  assert (x ∈ sp ∨ spawns policy = true ∧ x = mkTableName source (ts_name t)) as [Hin|[Hs ->]].
  { destruct (spawns policy); [|by left]. apply elem_of_cons in Hx as [->|?]; auto. }
  - destruct (E2 x Hin) as (? & t' & ? & ? & ?). split; [done|]. exists t'. split; [by right|done].
  - split; [done|]. exists t. split_and!; [by left|done|]. by apply E1, F2, (F1 original).
Qed.

Lemma cache_tables_off d ts st : off (es_name d) st (cache_tables d ts st).
Proof.
  unfold cache_tables. repeat case_match; try apply off_refl; split; try done; intros m Hm; simpl;
    by rewrite ?lookup_insert_ne.
Qed.

Lemma cache_tables_sources d ts st : en_sources (cache_tables d ts st) = en_sources st.
Proof. unfold cache_tables. by repeat case_match. Qed.

(** Caching starts refreshers only under a background policy, for reported tables. *)
Lemma cache_tables_spec d ts st :
  en_refreshers st !! es_name d = None →
  let st' := cache_tables d ts st in
  ∀ xs x, en_refreshers st' !! es_name d = Some xs → x ∈ xs →
    ∃ t schema, spawns (es_cache d) = true ∧ t ∈ ts ∧ x = mkTableName (es_name d) (ts_name t) ∧
      en_catalog st' !! es_name d = Some schema ∧ holds_wrapped schema (ts_name t) (es_cache d).
Proof.
  intros Hnone st'. subst st'. unfold cache_tables. destruct (caches (es_cache d)); [|by rewrite Hnone].
  destruct (en_catalog st !! es_name d) as [schema|] eqn:Hs; [|by rewrite Hnone].
  destruct (wrap_tables _ _ _ _) as [schema' spawned] eqn:Hw.
  apply wrap_tables_spec in Hw as [_ Hsp].
  intros xs x. destruct spawned as [|x0 spawned]; simpl; [by rewrite Hnone|].
  rewrite lookup_insert_eq. intros [= <-] Hx. destruct (Hsp x Hx) as (Hpol & t & ? & ? & ?).
  exists t, schema'. split_and!; try done. apply lookup_insert_eq.
Qed.

(** ** Registering *)

Lemma abort_refreshers_off n st : off n st (abort_refreshers n st).
Proof. split; try done; intros m Hm; simpl; by rewrite ?lookup_delete_ne. Qed.

(** The state when the driver of [d] has run. *)
Definition driven (d : EngineSourceDef) (schema : option Schema) (st : Engine) : Engine :=
  let st := abort_refreshers (es_name d) st in
  let st := with_catalog st (delete (es_name d) (en_catalog st)) in
  match schema with
  | Some schema => with_catalog st (<[es_name d := schema]> (en_catalog st))
  | None => st
  end.

Lemma driven_spec d schema st :
  off (es_name d) st (driven d schema st) ∧
  en_sources (driven d schema st) = en_sources st ∧
  en_functions (driven d schema st) = en_functions st ∧
  en_catalog (driven d schema st) !! es_name d = schema ∧
  en_refreshers (driven d schema st) !! es_name d = None.
Proof.
  unfold driven. split.
  { destruct schema; split; try done; intros m Hm; simpl; by rewrite ?lookup_insert_ne, ?lookup_delete_ne. }
  destruct schema; simpl; by rewrite ?lookup_insert_eq, ?lookup_delete_eq.
Qed.

(** The three ways a registration goes. *)
Lemma register_source_cases d st st' r :
  register_source d st = (st', r) →
  (st' = st ∧ ∃ e, r = Err e) ∨
  (∃ schema e, st' = driven d schema st ∧ r = Err e) ∨
  (∃ schema report s,
     install_source d (en_variables st) (default ∅ (en_dynamic_bindings st !! es_name d))
       = (schema, Ok report) ∧
     (let st1 := cache_tables d (rr_tables report) (driven d schema st) in
      st' = with_sources_map st1 (<[es_name d := s]> (en_sources st1))) ∧
     rs_tables s = rr_tables report ∧ rs_def s = d ∧ si_name (rs_info s) = es_name d ∧
     si_kind (rs_info s) = es_kind d ∧ r = Ok ()).
Proof.
  unfold register_source. intros Hr.
  destruct (decide (es_name d = MATERIALIZED_NAME)); [left; simplify_eq; eauto|].
  destruct (decide (es_name d = SYSTEM_SCHEMA)); [left; simplify_eq; eauto|]. right.
  destruct (install_source d _ _) as [schema [report|e]] eqn:Hi; simpl in Hr;
    injection Hr as <- <-; [right|left].
  - eexists schema, report, _. split; [first [exact Hi|reflexivity]|]. split; [reflexivity|]. done.
  - exists schema. eexists. done.
Qed.

Lemma register_source_off d st st' r :
  register_source d st = (st', r) → off (es_name d) st st'.
Proof.
  intros [(-> & _)|[(schema & e & -> & _)|(schema & report & s & _ & -> & _)]]%register_source_cases;
    [apply off_refl|apply driven_spec|].
  eapply off_trans; [apply (driven_spec d schema)|]. eapply off_trans; [apply cache_tables_off|].
  split; try done; intros m Hm; simpl; by rewrite ?lookup_insert_ne.
Qed.

Lemma cache_tables_functions d ts st : en_functions (cache_tables d ts st) = en_functions st.
Proof. unfold cache_tables. by repeat case_match. Qed.

Lemma register_source_functions d st st' r :
  register_source d st = (st', r) → en_functions st' = en_functions st.
Proof.
  intros [(-> & _)|[(schema & e & -> & _)|(schema & report & s & _ & -> & _)]]%register_source_cases;
    [done|apply driven_spec|]. simpl. rewrite cache_tables_functions. apply driven_spec.
Qed.

(** A registration, failed or not, leaves the source's refreshers consistent. *)
Lemma register_source_tracked d st st' r :
  register_source d st = (st', r) → tracked st (es_name d) → tracked st' (es_name d).
Proof.
  intros Hr [T1 T2].
  destruct (register_source_cases _ _ _ _ Hr)
    as [(-> & _)|[(schema & e & -> & _)|(schema & report & s & _ & -> & Hts & Hd & Hn & Hk & _)]].
  - by split.
  - destruct (driven_spec d schema st) as (_ & Hs & _ & _ & Hf).
    split; [intros s; rewrite Hs; apply T1|]. by rewrite Hf.
  - destruct (driven_spec d schema st) as (_ & Hs & _ & _ & Hf).
    pose proof (cache_tables_spec d (rr_tables report) _ Hf) as Hx.
    split; simpl.
    + rewrite lookup_insert_eq. intros s' [= <-]. by rewrite Hd.
    + intros ts x _ Hts' Hin. destruct (Hx ts x Hts' Hin) as (t & sch & ? & ? & ? & ? & ?).
      exists s, t, sch. rewrite lookup_insert_eq, Hd, Hts. done.
Qed.

Lemma register_source_ok d st st' :
  register_source d st = (st', Ok ()) → ∃ s, en_sources st' !! es_name d = Some s ∧ rs_def s = d.
Proof.
  intros [(_ & e & ?)|[(schema & e & _ & ?)|(schema & report & s & _ & -> & _ & Hd & _)]]
    %register_source_cases; try done.
  exists s. simpl. by rewrite lookup_insert_eq.
Qed.

(** ** Removing *)

Lemma remove_source_off n st : off n st (remove_source n st).1.
Proof.
  unfold remove_source. simpl. destruct (en_sources st !! n); split; try done; intros m Hm; simpl;
    by rewrite ?lookup_delete_ne.
Qed.

Lemma remove_source_gone n st : en_sources (remove_source n st).1 !! n = None.
Proof. unfold remove_source. simpl. destruct (en_sources st !! n); simpl; apply lookup_delete_eq. Qed.

Lemma remove_source_tracked n st : tracked (remove_source n st).1 n.
Proof.
  split; [intros s; by rewrite remove_source_gone|]. intros ts x _ Hts _.
  unfold remove_source in Hts. simpl in Hts.
  destruct (en_sources st !! n); simpl in Hts; by rewrite lookup_delete_eq in Hts.
Qed.

Lemma remove_source_functions n st :
  en_functions (remove_source n st).1 = drop_source_functions n (en_functions st).
Proof. unfold remove_source. simpl. by destruct (en_sources st !! n). Qed.

(** ** Histories *)

(** The state of an engine that every operation keeps, whether it succeeds or not. *)
Record engine_ok (st : Engine) : Prop := {
  ok_tracked n : tracked st n;
  ok_functions : coherent (en_functions st)
}.

(** Names that a source may have without getting in the way of the rollups. *)
Definition plain (n : string) : Prop := n ≠ ROLLUP_SCHEMA ∧ n ≠ ROLLUP_REFRESHER_KEY.

(** [x] is the table of a declared rollup with a refresh interval, and the catalog holds it
    under the policy of a rollup. *)
Definition rollup_refreshed (st : Engine) (x : TableName) : Prop :=
  ∃ spec m ct spec',
    spec ∈ rollups (en_semantic st) ∧ is_Some (rs_refresh spec) ∧ spawns (rollup_policy spec) = true ∧
    x = mkTableName ROLLUP_SCHEMA (rollup_table spec) ∧
    en_catalog st !! ROLLUP_SCHEMA = Some (MemorySchema m) ∧ m !! rollup_table spec = Some ct ∧
    spec' ∈ rollups (en_semantic st) ∧ ct_cached ct = Some (rollup_policy spec').

Record rolled (st : Engine) : Prop := {
  rolled_plain n : is_Some (en_sources st !! n) → plain n;
  rolled_refreshers ts x : en_refreshers st !! ROLLUP_REFRESHER_KEY = Some ts → x ∈ ts →
    rollup_refreshed st x
}.

(** What an operation keeps: [engine_ok] always, [rolled] if the sources it registers have plain
    names. *)
Definition keeps (st st' : Engine) (P : Prop) : Prop :=
  (engine_ok st → engine_ok st') ∧ (engine_ok st → P → rolled st → rolled st').

Lemma keeps_refl st P : keeps st st P.
Proof. by split. Qed.

Lemma keeps_trans st1 st2 st3 (P : Prop) : keeps st1 st2 P → keeps st2 st3 P → keeps st1 st3 P.
Proof. intros [A1 A2] [B1 B2]. split; auto. Qed.

Lemma keeps_impl st st' (P Q : Prop) : keeps st st' P → (Q → P) → keeps st st' Q.
Proof. intros [A1 A2] HPQ. split; auto. Qed.

(** Nothing but functions and variables changes. *)
Lemma same_maps_keeps st st' P :
  en_sources st' = en_sources st → en_catalog st' = en_catalog st →
  en_refreshers st' = en_refreshers st → en_semantic st' = en_semantic st →
  (coherent (en_functions st) → coherent (en_functions st')) → keeps st st' P.
Proof.
  intros H1 H2 H3 H4 Hf. split.
  - intros [Ht Hc]. split; [|by apply Hf]. intros n. destruct (Ht n) as [T1 T2].
    split; by rewrite ?H1, ?H2, ?H3.
  - intros _ _ [R1 R2]. split; unfold rollup_refreshed; by rewrite ?H1, ?H2, ?H3, ?H4.
Qed.

(** A change to one source with a plain name leaves the rollups alone. *)
Lemma off_rolled n st st' :
  off n st st' → plain n → rolled st → rolled st'.
Proof.
  intros [H1 H2 H3 H4] [Hs Hk] [R1 R2]. split.
  - intros m Hm. destruct (decide (m = n)) as [->|Hne]; [by split|]. rewrite H1 in Hm by done. by apply R1.
  - intros ts x. rewrite H3 by done. unfold rollup_refreshed. rewrite H4, H2 by done. apply R2.
Qed.

Lemma register_keeps d st st' r : register_source d st = (st', r) → keeps st st' (plain (es_name d)).
Proof.
  intros Hr. pose proof (register_source_off _ _ _ _ Hr) as Hoff. split.
  - intros [Ht Hc]. split; [|by rewrite (register_source_functions _ _ _ _ Hr)]. intros n.
    destruct (decide (n = es_name d)) as [->|Hn]; [by eapply register_source_tracked|].
    by eapply off_tracked.
  - intros _ Hp. by apply (off_rolled (es_name d)).
Qed.

Lemma register_all_keeps defs st st' r :
  register_all defs st = (st', r) → keeps st st' (Forall (plain ∘ es_name) defs).
Proof.
  revert st. induction defs as [|d defs IH]; intros st; simpl.
  { intros [= <- <-]. apply keeps_refl. }
  destruct (register_source d st) as [st1 [[]|e]] eqn:E; apply register_keeps in E.
  - intros Hr%IH. eapply keeps_trans; (eapply keeps_impl; [done|]); by intros [? ?]%Forall_cons.
  - intros [= <- <-]. eapply keeps_impl; [done|]. by intros [? ?]%Forall_cons.
Qed.

(** Removing a source aborts the refreshers of its name; a name that is not registered loses no
    tables. *)
Lemma remove_keeps n st P : keeps st (remove_source n st).1 P.
Proof.
  pose proof (remove_source_off n st) as Hoff. split.
  - intros [Ht Hc]. split.
    + intros m. destruct (decide (m = n)) as [->|Hm]; [apply remove_source_tracked|].
      by eapply off_tracked.
    + rewrite remove_source_functions. by apply dropped_functions.
  - intros _ _ Hroll. destruct (en_sources st !! n) as [s|] eqn:Hs.
    + apply (off_rolled n st); [done| |done]. apply (rolled_plain _ Hroll). by eexists.
    + destruct Hroll as [R1 R2]. unfold remove_source. simpl. rewrite Hs. simpl. split; simpl.
      * intros m [s [_ Hm]%lookup_delete_Some]. apply R1. by eexists.
      * intros ts x [_ Hk]%lookup_delete_Some. exact (R2 ts x Hk).
Qed.

Lemma remove_sources_keeps ns report st P : keeps st (remove_sources ns report st).1 P.
Proof.
  revert report st. induction ns as [|n ns IH]; intros report st; [apply keeps_refl|].
  cbn [remove_sources].
  pose proof (remove_keeps n st P) as Hn. destruct (remove_source n st) as [st1 b].
  by eapply keeps_trans; [apply Hn|apply IH].
Qed.

Lemma reload_sources_keeps current defs report st st' r :
  reload_sources current defs report st = (st', r) → keeps st st' (Forall (plain ∘ es_name) defs).
Proof.
  revert report st. induction defs as [|d defs IH]; intros report st; simpl.
  { intros [= <- <-]. apply keeps_refl. }
  assert (∀ P Q : Prop, (P → Q) → ∀ st, keeps st st' Q → keeps st st' P) as Himpl
    by (intros P Q HPQ st0 Hk; by eapply keeps_impl).
  destruct (current !! es_name d) as [old|]; [destruct (json_eqb old (def_json d))|].
  1:{ intros Hr%IH. eapply keeps_impl; [done|]. by intros [? ?]%Forall_cons. }
  all: destruct (register_source d st) as [st1 [[]|e]] eqn:E; apply register_keeps in E;
    [intros Hr%IH; eapply keeps_trans; (eapply keeps_impl; [done|]); by intros [? ?]%Forall_cons
    |intros [= <- <-]; eapply keeps_impl; [done|]; by intros [? ?]%Forall_cons].
Qed.

(** [set_functions] with functions that can be told apart. *)
Lemma set_functions_keeps f st P :
  (coherent (en_functions st) → coherent f.1) → keeps st (set_functions f st).1 P.
Proof. intros Hf. by apply same_maps_keeps. Qed.

Lemma add_source_keeps d st st' r :
  add_source d st = (st', r) → keeps st st' (plain (es_name d)).
Proof.
  unfold add_source. destruct (validate_engine_source _ _ _ (config_view d)); [|intros [= <- <-]; apply keeps_refl].
  destruct (register_source d st) as [st1 [[]|e]] eqn:E; intros [= <- <-]; by eapply register_keeps.
Qed.

(** What is refreshed is registered, under a plain name if the engine is [rolled]. *)
Lemma refresh_catalog_keeps source st st' r :
  refresh_catalog source st = (st', r) → keeps st st' True.
Proof.
  unfold refresh_catalog.
  destruct (match source with Some _ => _ | None => _ end) as [defs|e] eqn:Hd;
    [|intros [= <- <-]; apply keeps_refl].
  assert (∀ d, d ∈ defs → ∃ n s, en_sources st !! n = Some s ∧ d = rs_def s) as Hdefs.
  { destruct source as [name|].
    - destruct (en_sources st !! name) as [s|] eqn:Hs; simpl in Hd; [|done]. injection Hd as <-.
      intros d ->%list_elem_of_singleton. eauto.
    - injection Hd as <-. intros d (n & _ & Hn)%list_elem_of_omap.
      destruct (en_sources st !! n) as [s|] eqn:Hs; simplify_eq/=. eauto. }
  intros Hr. assert (keeps st st' (Forall (plain ∘ es_name) defs)) as [K1 K2].
  { destruct (register_all defs st) as [st1 [[]|e]] eqn:E; injection Hr as <- <-;
      by eapply register_all_keeps. }
  split; [done|]. intros Hok _ Hroll. apply K2; [done| |done]. apply list.Forall_forall.
  intros d (n & s & Hs & ->)%Hdefs. simpl.
  destruct (tracked_named _ _ (ok_tracked _ Hok n) s Hs) as [-> _].
  apply (rolled_plain _ Hroll). by eexists.
Qed.

Definition plain_sources (cfg : Config) : Prop := Forall (plain ∘ src_name) (cfg_sources cfg).

Lemma plain_engine_sources cfg : plain_sources cfg → Forall (plain ∘ es_name) (into_engine_sources cfg).
Proof. unfold into_engine_sources. by rewrite Forall_fmap. Qed.

Lemma reload_config_keeps path load st st' r :
  (∀ p cfg, load p = Ok cfg → Forall (λ d, unambiguous (fn_key d)) (engine_functions cfg)) →
  reload_config path load st = (st', r) →
  keeps st st' (∀ p cfg, load p = Ok cfg → plain_sources cfg).
Proof.
  intros Hload. unfold reload_config.
  destruct path as [path|]; [|intros [= <- <-]; apply keeps_refl].
  destruct (load path) as [cfg|e] eqn:Hl; [|intros [= <- <-]; apply keeps_refl].
  pose proof (Hload _ _ Hl) as Hall.
  set (st0 := with_variables _ _ _). intros Hr.
  assert (∀ P, keeps st st0 P) as K0 by (intros P; by apply same_maps_keeps).
  eapply keeps_impl; [|intros Hp; exact (plain_engine_sources cfg (Hp _ _ Hl))].
  eapply keeps_trans; [apply K0|].
  destruct (reload_sources _ _ _ st0) as [st1 [rep1|e]] eqn:E1; apply reload_sources_keeps in E1 as K1;
    [|by injection Hr as <- <-].
  eapply keeps_trans; [exact K1|].
  destruct (remove_sources _ rep1 st1) as [st2 rep2] eqn:E2.
  assert (∀ P, keeps st1 st2 P) as K2.
  { intros P. eassert (Hk : keeps st1 (remove_sources _ rep1 st1).1 P) by apply remove_sources_keeps.
    by rewrite E2 in Hk. }
  eapply keeps_trans; [apply K2|].
  pose proof (λ P, set_functions_keeps (reload_functions (engine_functions cfg) (en_functions st2))
                st2 P (λ Hc, reload_coherent _ _ Hc Hall)) as K3.
  destruct (set_functions _ st2) as [st3 r3] eqn:E3.
  assert (st' = st3) as -> by (destruct r3; by simplify_eq). apply K3.
Qed.

(** A description may look a table up in an attached database, which keeps it. *)
Lemma describe_table_keeps name st P : keeps st (describe_table name st).1 P.
Proof.
  unfold describe_table. destruct (en_catalog st !! tn_schema name) as [schema|] eqn:Hs; [|apply keeps_refl].
  destruct (schema_table _ _ schema) as [s' found] eqn:Ht.
  destruct (schema_table_keeps _ _ _ _ _ Ht) as (K & Kmem & _). cbn [fst]. split.
  - intros [T C]. split; [|done]. intros n. destruct (T n) as [T1 T2]. split; [exact T1|].
    intros ts x Hn Hts Hx. destruct (T2 ts x Hn Hts Hx) as (s & t & sch & ? & ? & ? & ? & Hc & Hh).
    simpl. destruct (decide (n = tn_schema name)) as [->|Hne].
    + assert (sch = schema) as -> by congruence. exists s, t, s'. rewrite lookup_insert_eq. auto 10.
    + exists s, t, sch. rewrite lookup_insert_ne by done. done.
  - intros _ _ [R1 R2]. split; [exact R1|]. intros ts x Hts Hx.
    destruct (R2 ts x Hts Hx) as (spec & m & ct & spec' & ? & ? & ? & ? & Hc & ? & ? & ?).
    exists spec, m, ct, spec'. split_and!; try done. simpl.
    destruct (decide (ROLLUP_SCHEMA = tn_schema name)) as [He|Hne].
    + rewrite <-He in Hs |- *. rewrite lookup_insert_eq. assert (schema = MemorySchema m) as Heq by congruence.
      by rewrite (Kmem m Heq), Heq.
    + by rewrite lookup_insert_ne.
Qed.

(** ** Building *)

Lemma empty_engine_ok c v b : engine_ok (with_variables (empty_engine c) v b).
Proof. split; [intros n; by split|]. apply coherent_empty. Qed.

Lemma empty_engine_rolled c v b : rolled (with_variables (empty_engine c) v b).
Proof. split; [by intros n [? ?]|done]. Qed.

(** Registering the rollups one by one: those that get a refresher are in the schema. *)
Lemma register_each_rollup_spec c (all specs : list RollupSpec) schema spawned schema' spawned' :
  (∀ spec, spec ∈ specs → spec ∈ all) →
  register_each_rollup c specs schema spawned = (schema', spawned', Ok ()) →
  let good sch (x : TableName) := ∃ spec m ct spec',
    spec ∈ all ∧ is_Some (rs_refresh spec) ∧ spawns (rollup_policy spec) = true ∧
    x = mkTableName ROLLUP_SCHEMA (rollup_table spec) ∧ sch = MemorySchema m ∧
    m !! rollup_table spec = Some ct ∧ spec' ∈ all ∧ ct_cached ct = Some (rollup_policy spec') in
  Forall (good schema) spawned → Forall (good schema') spawned'.
Proof.
  intros Hall Hr good. revert schema spawned Hall Hr.
  induction specs as [|spec specs IH]; intros schema spawned Hall; cbn [register_each_rollup]; [by intros [= <- <-]|].
  assert (∀ s, s ∈ specs → s ∈ all) as Hrest by (intros s Hs; apply Hall; by right).
  destruct (compile_preagg_sql _ _ _) as [sql|e]; [|by apply IH].
  destruct (plan_sql sql) as [columns|e]; [|by apply IH].
  destruct schema as [m|m]; cbn [replace_table]; [|done]. intros Hr Hgood. apply (IH _ _ Hrest Hr).
  set (wrapped := {| ct_columns := columns; ct_cached := Some (rollup_policy spec) |}) in *.
  assert (Forall (good (MemorySchema (<[rollup_table spec := wrapped]> m))) spawned) as Hold.
  { eapply Forall_impl; [exact Hgood|].
    intros x (s1 & m1 & ct & s2 & ? & ? & ? & ? & [= <-] & Hct & ? & ?).
    destruct (decide (rollup_table s1 = rollup_table spec)) as [He|Hne].
    - exists s1, (<[rollup_table spec := wrapped]> m), wrapped, spec. rewrite He, lookup_insert_eq.
      split_and!; try done; [congruence|]. apply Hall. by left.
    - exists s1, (<[rollup_table spec := wrapped]> m), ct, s2. by rewrite lookup_insert_ne. }
  destruct (is_some (rs_refresh spec) && spawns (rollup_policy spec)) eqn:Hsp; [|done].
  apply andb_true_iff in Hsp as [He Hs].
  apply Forall_app. split; [done|]. apply Forall_singleton.
  exists spec, (<[rollup_table spec := wrapped]> m), wrapped, spec. rewrite lookup_insert_eq.
  split_and!; try done; [apply Hall; by left|by destruct (rs_refresh spec)|apply Hall; by left].
Qed.

Lemma register_rollups_keeps st st' :
  register_rollups st = (st', Ok ()) → engine_ok st → rolled st → engine_ok st' ∧ rolled st'.
Proof.
  unfold register_rollups. destruct (rollups (en_semantic st)) as [|spec specs] eqn:Hspecs; [by intros [= <-]|].
  destruct (register_each_rollup _ _ _ _) as [[schema spawned] [[]|e]] eqn:E; [|done].
  apply (register_each_rollup_spec _ (spec :: specs)) in E; [|done|constructor].
  intros Hr [T C] [R1 R2].
  assert (st' = {| en_sources := en_sources st;
                   en_catalog := <[ROLLUP_SCHEMA := schema]> (en_catalog st);
                   en_functions := en_functions st;
                   en_refreshers := match spawned with
                                    | [] => delete ROLLUP_REFRESHER_KEY (en_refreshers st)
                                    | _ => <[ROLLUP_REFRESHER_KEY := spawned]>
                                             (delete ROLLUP_REFRESHER_KEY (en_refreshers st))
                                    end;
                   en_variables := en_variables st; en_dynamic_bindings := en_dynamic_bindings st;
                   en_semantic := en_semantic st |}) as -> by (destruct spawned; by injection Hr as <-).
  clear Hr. split; [split; [|done]|split; [exact R1|]].
  - intros n. destruct (T n) as [T1 T2]. split; [exact T1|]. intros ts x Hn. simpl.
    assert (match spawned with
            | [] => delete ROLLUP_REFRESHER_KEY (en_refreshers st)
            | _ => <[ROLLUP_REFRESHER_KEY := spawned]> (delete ROLLUP_REFRESHER_KEY (en_refreshers st))
            end !! n = en_refreshers st !! n) as ->
      by (destruct spawned; by rewrite ?lookup_insert_ne, ?lookup_delete_ne).
    intros Hts Hx. destruct (T2 ts x Hn Hts Hx) as (s & t & sch & Hs & ? & ? & ? & ? & ?).
    exists s, t, sch. rewrite lookup_insert_ne; [done|]. intros <-.
    by destruct (R1 ROLLUP_SCHEMA) as [? _]; [eexists|].
  - intros ts x. simpl. unfold rollup_refreshed. simpl. rewrite Hspecs, lookup_insert_eq.
    destruct spawned as [|x0 spawned]; [by rewrite lookup_delete_eq|]. rewrite lookup_insert_eq.
    intros [= <-] Hx. rewrite list.Forall_forall in E. destruct (E x Hx) as (s1 & m & ct & s2 & Hgood).
    exists s1, m, ct, s2. naive_solver.
Qed.

Lemma build_engine_ok cfg st :
  Forall (λ d, unambiguous (fn_key d)) (engine_functions cfg) → plain_sources cfg →
  build_engine cfg = (st, Ok ()) → engine_ok st ∧ rolled st.
Proof.
  intros Hall Hplain. unfold build_engine.
  set (st0 := with_variables _ _ _). intros Hb.
  assert (engine_ok st0 ∧ rolled st0) as [Hok Hr]
    by (split; [apply empty_engine_ok|apply empty_engine_rolled]).
  destruct (register_all _ st0) as [st1 [[]|e]] eqn:E; [|done].
  apply register_all_keeps in E as [E1 E2]. specialize (E2 Hok (plain_engine_sources _ Hplain) Hr).
  specialize (E1 Hok).
  pose proof (set_functions_keeps (register_functions (en_functions st1) (engine_functions cfg)) st1
                True (λ Hc, register_each_prefix _ _ Hc (builtins_unambiguous _ Hall))) as [K1 K2].
  destruct (set_functions _ st1) as [st2 [[]|e]]; [|done].
  by apply register_rollups_keeps in Hb; [|by apply K1|by apply K2].
Qed.

End engine.

(** ** Histories of operations *)

Section histories.
Context {EF : EngineFormats} `{!HashIter (string * string), !HashIter string}.

(** The functions of a configuration can be told apart; no source has a name of the rollups. *)
Definition loads_unambiguous (load : string → result string Config) : Prop :=
  ∀ p cfg, load p = Ok cfg → Forall (λ d, unambiguous (fn_key d)) (engine_functions cfg).

Definition loads_plain (load : string → result string Config) : Prop :=
  ∀ p cfg, load p = Ok cfg → plain_sources cfg.

(** The operations of the engine, whatever they answer. What lies outside and which functions
    build may be different at each step. A lookup of a table is a description of it. *)
Inductive engine_step : Engine → Engine → Prop :=
| step_add (R : Registrar) d st st' r :
    plain (es_name d) → add_source d st = (st', r) → engine_step st st'
| step_remove n st : engine_step st (remove_source n st).1
| step_refresh (R : Registrar) source st st' r :
    refresh_catalog source st = (st', r) → engine_step st st'
| step_reload (R : Registrar) (B : FunctionBuild) path load st st' r :
    loads_unambiguous load → loads_plain load →
    reload_config path load st = (st', r) → engine_step st st'
| step_describe (R : Registrar) name st : engine_step st (describe_table name st).1
| step_shutdown st : engine_step st (shutdown st).

Definition engine_history : Engine → Engine → Prop := rtc engine_step.

Lemma engine_step_keeps st st' : engine_step st st' → engine_ok st ∧ rolled st → engine_ok st' ∧ rolled st'.
Proof.
  intros Hstep [Hok Hr].
  destruct Hstep as [R d s s' r Hp E|n s|R src s s' r E|R B path load s s' r Hl Hp E|R name s|s].
  - apply add_source_keeps in E as [K1 K2]. auto.
  - destruct (remove_keeps n s True) as [K1 K2]. auto.
  - apply refresh_catalog_keeps in E as [K1 K2]. auto.
  - apply reload_config_keeps in E as [K1 K2]; [|done]. auto.
  - destruct (describe_table_keeps name s True) as [K1 K2]. auto.
  - split; [destruct Hok as [T C]; split; [|done]; intros n; destruct (T n) as [T1 _]; by split|].
    destruct Hr as [R1 _]. by split.
Qed.

Lemma history_keeps st st' : engine_history st st' → engine_ok st ∧ rolled st → engine_ok st' ∧ rolled st'.
Proof. induction 1; eauto using engine_step_keeps. Qed.

(** ** What holds after any history *)

(** C31: Whatever the operations did, failures included, no background refresher is orphaned and
    no function is: after an engine was built and after any history of additions, removals,
    refreshes, reloads, table lookups and shutdowns, in which no source was called [semantic] or
    [__rollups__], each refresher is one of two kinds. Under the name of a source, that is
    registered and has a background policy, it works on a table the source lists, which the
    catalog has: in memory under that very policy, and in an attached database, which takes no
    wrapped tables, as it was looked up. Under [__rollups__] it works on the table of a declared
    rollup with a refresh interval, which the catalog holds in memory under a rollup's policy.
    And the table functions that can be called are exactly those of the registered functions. *)
Theorem engine_stays_ok (R : Registrar) (B : FunctionBuild) cfg st0 st :
  Forall (λ d, unambiguous (fn_key d)) (engine_functions cfg) → plain_sources cfg →
  build_engine cfg = (st0, Ok ()) → engine_history st0 st →
  (∀ n ts x, en_refreshers st !! n = Some ts → x ∈ ts →
     if decide (n = ROLLUP_REFRESHER_KEY) then rollup_refreshed st x
     else ∃ s t schema,
       en_sources st !! n = Some s ∧ spawns (es_cache (rs_def s)) = true ∧ t ∈ rs_tables s ∧
       x = mkTableName n (ts_name t) ∧ en_catalog st !! n = Some schema ∧
       holds_wrapped schema (ts_name t) (es_cache (rs_def s))) ∧
  coherent (en_functions st).
Proof.
  intros Hall Hplain Hb Hh. apply build_engine_ok in Hb; [|done..].
  destruct (history_keeps _ _ Hh Hb) as [[Ht Hc] Hr].
  split; [|done]. intros n ts x Hts Hx. case_decide as Hn.
  - subst n. by eapply rolled_refreshers.
  - by eapply (tracked_refreshers _ _ (Ht n)).
Qed.
End histories.
