(* ===== verification/EngineReload.v ===== *)
(** * What a reload of the configuration leaves
    A reload that succeeds makes the registered sources and functions those of the file, touches
    no source whose definition did not change, and counts what it did; a second reload of the
    same file touches nothing. Then histories on a concrete engine, one of them with a failed
    refresh. *)

From S2P Require Import Prelude VariablesProps CompileProps EngineErrors Engine EngineProps.

Section reload.
Context {EF : EngineFormats} {RG : Registrar} {FB : FunctionBuild}.
Context `{!HashIter (string * string), !HashIter string}.

(** What a reload makes of a definition, against the snapshot of the registered ones. *)
Inductive Verdict := Added | Changed | Unchanged.
#[export] Instance Verdict_eq_dec : EqDecision Verdict.
Proof. solve_decision. Defined.

Definition verdict (current : gmap string Json) (d : EngineSourceDef) : Verdict :=
  match current !! es_name d with
  | None => Added
  | Some old => if json_eqb old (def_json d) then Unchanged else Changed
  end.

Definition tally (current : gmap string Json) (defs : list EngineSourceDef) (v : Verdict) : N :=
  N.of_nat (length (filter (λ d, verdict current d = v) defs)).

Lemma tally_cons current d defs v :
  tally current (d :: defs) v =
  ((if decide (verdict current d = v) then 1 else 0) + tally current defs v)%N.
Proof. unfold tally. rewrite filter_cons. case_decide; simpl; lia. Qed.

(** The first definition of a reload that succeeds. *)
Lemma reload_sources_cons current d defs rep st st' rep' :
  reload_sources current (d :: defs) rep st = (st', Ok rep') →
  ∃ st1 rep1,
    reload_sources current defs rep1 st1 = (st', Ok rep') ∧ off (es_name d) st st1 ∧
    (if decide (verdict current d = Unchanged)
     then en_sources st1 !! es_name d = en_sources st !! es_name d
     else ∃ s, en_sources st1 !! es_name d = Some s ∧ rs_def s = d) ∧
    rep1 = match verdict current d with
           | Added => count_added rep | Changed => count_changed rep | Unchanged => rep
           end.
Proof.
  simpl. unfold verdict. destruct (current !! es_name d) as [old|]; [destruct (json_eqb old _)|].
  - intros Hr. exists st, rep. by split_and!; [|apply off_refl|rewrite decide_True|].
  - destruct (register_source d st) as [st1 [[]|]] eqn:E; [|done]. intros Hr.
    exists st1, (count_changed rep). split_and!; [done|by eapply register_source_off| |done].
    rewrite decide_False by done. by apply register_source_ok in E.
  - destruct (register_source d st) as [st1 [[]|]] eqn:E; [|done]. intros Hr.
    exists st1, (count_added rep). split_and!; [done|by eapply register_source_off| |done].
    rewrite decide_False by done. by apply register_source_ok in E.
Qed.

Lemma reload_sources_spec current defs rep st st' rep' :
  reload_sources current defs rep st = (st', Ok rep') → NoDup (es_name <$> defs) →
  (∀ m, m ∉ es_name <$> defs → en_sources st' !! m = en_sources st !! m) ∧
  (∀ d, d ∈ defs →
     if decide (verdict current d = Unchanged)
     then en_sources st' !! es_name d = en_sources st !! es_name d
     else ∃ s, en_sources st' !! es_name d = Some s ∧ rs_def s = d) ∧
  rep' = {| rl_added := rl_added rep + tally current defs Added; rl_removed := rl_removed rep;
            rl_changed := rl_changed rep + tally current defs Changed |}.
Proof.
  revert rep st. induction defs as [|d defs IH]; intros rep st.
  { intros [= <- <-] _. split; [done|]. split; [by intros d ?%elem_of_nil|].
    destruct rep; unfold tally; simpl. by rewrite !N.add_0_r. }
  intros (st1 & rep1 & Hr & [Hoff _ _ _] & Hd & Hrep)%reload_sources_cons [Hnin Hnd]%NoDup_cons.
  apply IH in Hr as (H1 & H2 & ->); [|done]. split_and!.
  - intros m [Hm Hms]%not_elem_of_cons. rewrite H1, Hoff; done.
  - intros d' [->|Hd']%elem_of_cons.
    + rewrite H1 by done. done.
    + specialize (H2 d' Hd'). destruct (decide (verdict current d' = Unchanged)); [|exact H2].
      rewrite H2. apply Hoff.
      intros Heq. apply Hnin. rewrite <-Heq. by apply list_elem_of_fmap_2.
  - rewrite !tally_cons, Hrep. destruct rep, (verdict current d); simpl; f_equal; lia.
Qed.

(** Removing registered sources. *)
Lemma remove_sources_spec ns rep st :
  NoDup ns → Forall (λ n, is_Some (en_sources st !! n)) ns →
  (∀ m, en_sources (remove_sources ns rep st).1 !! m =
        if decide (m ∈ ns) then None else en_sources st !! m) ∧
  (remove_sources ns rep st).2 =
    {| rl_added := rl_added rep; rl_removed := rl_removed rep + N.of_nat (length ns);
       rl_changed := rl_changed rep |}.
Proof.
  revert rep st. induction ns as [|n ns IH]; intros rep st.
  { intros _ _. split; [done|]. destruct rep; simpl. f_equal; lia. }
  intros [Hn Hnd]%NoDup_cons [[s Hs] Hall]%Forall_cons. cbn [remove_sources].
  destruct (remove_source n st) as [st1 b] eqn:E.
  pose proof (remove_source_off n st) as [Hoff _ _ _]. rewrite E in Hoff.
  pose proof (remove_source_gone n st) as Hgone. rewrite E in Hgone. simpl in Hoff, Hgone.
  assert (b = true) as -> by (unfold remove_source in E; simpl in E; rewrite Hs in E; by injection E).
  destruct (IH (count_removed rep) st1) as [IH1 IH2]; [done| |].
  { apply list.Forall_forall. intros m Hm. rewrite Hoff by (by intros ->).
    rewrite list.Forall_forall in Hall. by apply Hall. }
  split.
  - intros m. rewrite IH1. destruct (decide (m = n)) as [->|Hm].
    + rewrite Hgone. rewrite (decide_True (P := n ∈ n :: ns)) by left. by case_decide.
    + rewrite Hoff by done. destruct (decide (m ∈ ns)).
      * by rewrite decide_True by (by right).
      * by rewrite decide_False by (by apply not_elem_of_cons).
  - rewrite IH2. destruct rep; simpl. f_equal; lia.
Qed.

(** ** A reload that succeeds *)

(** The snapshot of the registered definitions. *)
Definition snapshot (st : Engine) : gmap string Json := def_json ∘ rs_def <$> en_sources st.

(** Names the reload drops. *)
Definition stale_names (defs : list EngineSourceDef) (st : Engine) : list string :=
  List.filter (λ n, negb (bool_decide (n ∈ es_name <$> defs))) (hash_iter (dom (snapshot st))).

Lemma elem_of_stale defs st n :
  n ∈ stale_names defs st ↔ is_Some (en_sources st !! n) ∧ n ∉ es_name <$> defs.
Proof.
  unfold stale_names. rewrite list_elem_of_In, filter_In, <-list_elem_of_In, elem_of_hash_iter.
  unfold snapshot. rewrite dom_fmap, elem_of_dom, negb_true_iff, bool_decide_eq_false. done.
Qed.

Lemma stale_NoDup defs st : NoDup (stale_names defs st).
Proof.
  unfold stale_names. apply NoDup_ListNoDup, List.NoDup_filter, NoDup_ListNoDup.
  rewrite hash_iter_perm. apply NoDup_elements.
Qed.

(** The three stages of a reload that succeeds. *)
Lemma reload_config_stages path load st st' rep :
  reload_config path load st = (st', Ok rep) →
  ∃ p cfg st1 rep1,
    path = Some p ∧ load p = Ok cfg ∧
    let defs := into_engine_sources cfg in
    let st0 := with_variables st (dynamic_specs cfg) (dynamic_bindings_by_source cfg) in
    reload_sources (snapshot st) defs {| rl_added := 0; rl_removed := 0; rl_changed := 0 |} st0
      = (st1, Ok rep1) ∧
    let st2 := (remove_sources (stale_names defs st) rep1 st1).1 in
    rep = (remove_sources (stale_names defs st) rep1 st1).2 ∧
    (reload_functions (engine_functions cfg) (en_functions st2)).2 = Ok () ∧
    st' = with_functions st2 (reload_functions (engine_functions cfg) (en_functions st2)).1.
Proof.
  unfold reload_config. destruct path as [p|]; [|done].
  destruct (load p) as [cfg|] eqn:Hl; [|done]. set (st0 := with_variables _ _ _).
  change (def_json ∘ rs_def <$> en_sources st0) with (snapshot st).
  destruct (reload_sources _ _ _ st0) as [st1 [rep1|]] eqn:E; [|done].
  change (List.filter _ _) with (stale_names (into_engine_sources cfg) st).
  destruct (remove_sources _ rep1 st1) as [st2 rep2] eqn:E2.
  unfold set_functions. destruct (reload_functions _ _) as [f [[]|]] eqn:E3; [|done]. simpl.
  intros [= <- <-]. exists p, cfg, st1, rep1. rewrite E2. simpl. rewrite E3. done.
Qed.

(** The sources and the report of a reload that succeeds. *)
Lemma reload_registers path load st st' rep :
  (∀ p cfg, load p = Ok cfg → NoDup (src_name <$> cfg_sources cfg)) →
  reload_config path load st = (st', Ok rep) →
  ∃ p cfg, path = Some p ∧ load p = Ok cfg ∧
    let defs := into_engine_sources cfg in
    (∀ n, is_Some (en_sources st' !! n) ↔ n ∈ src_name <$> cfg_sources cfg) ∧
    (∀ d, d ∈ defs → ∃ s, en_sources st' !! es_name d = Some s ∧
       json_eqb (def_json (rs_def s)) (def_json d) = true ∧
       (verdict (snapshot st) d = Unchanged → en_sources st !! es_name d = Some s)) ∧
    rep = {| rl_added := tally (snapshot st) defs Added;
             rl_removed := N.of_nat (length (stale_names defs st));
             rl_changed := tally (snapshot st) defs Changed |}.
Proof.
  intros Hnames Hr.
  pose proof Hr as (p & cfg & st1 & rep1 & -> & Hl & Hs & -> & _ & ->)%reload_config_stages.
  exists p, cfg. split_and!; [done|done|]. simpl.
  set (defs := into_engine_sources cfg) in *.
  assert (es_name <$> defs = src_name <$> cfg_sources cfg) as Hdefs
    by (unfold defs, into_engine_sources; by rewrite <-list_fmap_compose).
  pose proof (Hnames _ _ Hl) as Hnd. rewrite <-Hdefs in Hnd |- *.
  apply reload_sources_spec in Hs as (H1 & H2 & ->); [|done]. simpl in H1, H2.
  destruct (remove_sources_spec (stale_names defs st) {| rl_added := 0 + tally (snapshot st) defs Added;
    rl_removed := 0; rl_changed := 0 + tally (snapshot st) defs Changed |} st1) as [H3 H4].
  { apply stale_NoDup. }
  { apply list.Forall_forall. intros n [Hn Hnin]%elem_of_stale. by rewrite H1. }
  assert (∀ d, d ∈ defs → ∃ s, en_sources st1 !! es_name d = Some s ∧
       json_eqb (def_json (rs_def s)) (def_json d) = true ∧
       (verdict (snapshot st) d = Unchanged → en_sources st !! es_name d = Some s)) as Hd.
  { intros d Hd. specialize (H2 d Hd). revert H2. case_decide as Hv.
    - intros ->. revert Hv. unfold verdict, snapshot. rewrite lookup_fmap.
      destruct (en_sources st !! es_name d) as [s|]; [simpl|done].
      destruct (json_eqb _ _) eqn:Hj; [|done]. intros _. by exists s.
    - intros (s & Hs & <-). exists s. split_and!; [done|apply json_eqb_refl|done]. }
  split_and!.
  - intros n. rewrite H3. destruct (decide (n ∈ stale_names defs st)) as [Hst|Hst].
    + apply elem_of_stale in Hst as [_ ?]. split; [by intros [? ?]|done].
    + destruct (decide (n ∈ es_name <$> defs)) as [Hn|Hn].
      * split; [done|]. intros _. apply list_elem_of_fmap in Hn as (d & -> & Hin).
        destruct (Hd d Hin) as (s & -> & _). by eexists.
      * rewrite H1 by done. split; [|done]. intros Hs. exfalso. apply Hst. by apply elem_of_stale.
  - intros d Hin. rewrite H3, decide_False; [by apply Hd|].
    intros [_ Hn]%elem_of_stale. apply Hn. by apply list_elem_of_fmap_2.
  - etransitivity; [exact H4|]. simpl. f_equal; lia.
Qed.

(** C33: A reload that succeeds makes the engine the one the file describes: the registered
    sources are exactly those it declares, each registered under a definition that serializes as
    declared; the callable functions are the builtins and those it declares; a source whose
    definition did not change is not touched at all (not even given the new variables); and the
    report counts the sources that were new, gone and changed. *)
Theorem reload_converges path load st st' rep :
  engine_ok st → loads_unambiguous load →
  (∀ p cfg, load p = Ok cfg → NoDup (src_name <$> cfg_sources cfg)) →
  reload_config path load st = (st', Ok rep) →
  ∃ p cfg, path = Some p ∧ load p = Ok cfg ∧
    let defs := into_engine_sources cfg in
    (∀ n, is_Some (en_sources st' !! n) ↔ n ∈ src_name <$> cfg_sources cfg) ∧
    (∀ d, d ∈ defs → ∃ s, en_sources st' !! es_name d = Some s ∧
       json_eqb (def_json (rs_def s)) (def_json d) = true ∧
       (verdict (snapshot st) d = Unchanged → en_sources st !! es_name d = Some s)) ∧
    fs_registry (en_functions st') =
      foldl (λ reg d, <[fn_key d := build_registered d]> reg) ∅ (builtins ++ engine_functions cfg) ∧
    rep = {| rl_added := tally (snapshot st) defs Added;
             rl_removed := N.of_nat (length (stale_names defs st));
             rl_changed := tally (snapshot st) defs Changed |}.
Proof.
  intros Hok Hload Hnames Hr.
  destruct (reload_registers _ _ _ _ _ Hnames Hr) as (p & cfg & -> & Hl & Hdom & Hdefs & Hrep).
  exists p, cfg. split; [done|]. split; [done|]. split; [exact Hdom|]. split; [exact Hdefs|].
  split; [|exact Hrep]. clear Hdom Hdefs Hrep.
  apply reload_config_stages in Hr as (? & x0 & st1 & rep1 & [= <-] & ? & Hs & _ & Hf & ->).
  assert (x0 = cfg) as -> by congruence.
  pose proof (reload_sources_keeps _ _ _ _ _ _ Hs) as [Hk1 _].
  destruct (reload_functions _ _) as [f r] eqn:E. simpl in Hf |- *. subst r.
  eapply reloaded_functions; [| |exact E]; [|by eapply Hload].
  apply (remove_sources_keeps _ _ _ True), Hk1. destruct Hok as [Ht Hc].
  split; [|done]. intros n. destruct (Ht n). by split.
Qed.

(** C32: Reloading the same file again is harmless: whatever the drivers would find now, no source,
    no table and no refresher is touched and nothing is counted. *)
Theorem reload_settles (RG' : Registrar) (FB' : FunctionBuild) path load st st' rep st'' r :
  (∀ p cfg, load p = Ok cfg → NoDup (src_name <$> cfg_sources cfg)) →
  reload_config (RG := RG) (FB := FB) path load st = (st', Ok rep) →
  reload_config (RG := RG') (FB := FB') path load st' = (st'', r) →
  en_sources st'' = en_sources st' ∧ en_catalog st'' = en_catalog st' ∧
  en_refreshers st'' = en_refreshers st' ∧
  (∀ rep', r = Ok rep' → rep' = {| rl_added := 0; rl_removed := 0; rl_changed := 0 |}).
Proof.
  intros Hnames Hr.
  destruct (reload_registers _ _ _ _ _ Hnames Hr) as (p & cfg & -> & Hl & Hdom & Hdefs & _).
  set (st0 := with_variables st' (dynamic_specs cfg) (dynamic_bindings_by_source cfg)).
  assert (∀ defs rep, (∀ d, d ∈ defs → d ∈ into_engine_sources cfg) →
    reload_sources (RG := RG') (snapshot st') defs rep st0 = (st0, Ok rep)) as Hsame.
  { intros defs rep0. induction defs as [|d defs IH]; intros Hsub; [done|]. simpl.
    destruct (Hdefs d) as (s & Hs & Hj & _); [apply Hsub; by left|].
    unfold snapshot. rewrite lookup_fmap, Hs. simpl. rewrite Hj. apply IH. intros d' ?.
    apply Hsub. by right. }
  assert (stale_names (into_engine_sources cfg) st' = []) as Hstale.
  { apply elem_of_nil_inv. intros n [Hn Hnin]%elem_of_stale. apply Hnin.
    unfold into_engine_sources. rewrite <-list_fmap_compose. by apply Hdom. }
  unfold reload_config. rewrite Hl. fold st0.
  change (def_json ∘ rs_def <$> en_sources st0) with (snapshot st').
  rewrite Hsame by done. unfold stale_names in Hstale. rewrite Hstale. simpl.
  unfold set_functions. destruct (reload_functions (H := FB') _ _) as [f [[]|]]; simpl;
    intros [= <- <-]; (split_and!; [done..|]); intros rep'; by try intros [= <-].
Qed.
End reload.

(** ** Concrete histories *)

Section sample.
#[local] Instance sample_formats : EngineFormats :=
  {| cron_parses := λ _, true; def_json := λ d, JString (es_name d);
     url_parse := λ _, Err "no url"; url_username := λ _, ""; url_password := λ _, None |}.
#[local] Instance sample_keys : HashIter (string * string) := gset_iter.
#[local] Instance sample_names : HashIter string := gset_iter.
#[local] Instance sample_build : FunctionBuild := {| executor_error := λ _, None |}.

(** A driver that finds one table, and one that can no longer reach the source. *)
Definition repos : TableSummary :=
  {| ts_name := "repos"; ts_description := None; ts_wiki := None; ts_required_filters := [] |}.

Definition one_table : Schema :=
  MemorySchema {[ "repos" := {| ct_columns := []; ct_cached := None |} ]}.

Definition reports (schema : Schema) : Registrar :=
  {| install := λ _ _ _, (Some schema, Ok {| rr_table_count := 1; rr_tables := [repos] |});
     db_table := λ _ _, Ok (Some []); plan_sql := λ _, Ok [];
     no_registering := "schema provider does not support registering tables" |}.

Definition reachable_driver : Registrar := reports one_table.

(** The same tables in an attached database. *)
Definition attaching_driver : Registrar := reports (AttachedSchema ∅).

Definition unreachable_driver : Registrar :=
  {| install := λ _ _ _, (None, Err "connection refused"); db_table := λ _ _, Err "connection refused";
     plan_sql := λ _, Err "table not found"; no_registering := "" |}.

(** A rollup with a refresh interval. *)
Definition repo_model : SemanticModel :=
  {| sm_name := "repos"; sm_description := None; sm_source := "gh.repos"; sm_primary_key := ["id"];
     sm_dimensions := []; sm_measures := [plain_measure "stars" AggSum "stars"];
     sm_relationships := [];
     sm_pre_aggregations := [{| pre_name := "total"; pre_dimensions := []; pre_measures := ["stars"];
                                pre_refresh := Some 60%N; pre_partition_by := None |}];
     sm_segments := []; sm_safety := None |}.

Definition hub (name : string) : SourceDef :=
  {| src_name := name; src_kind := KHttp; src_description := None; src_wiki := None;
     src_examples := []; src_config := JNull; src_tables := []; src_functions := [];
     src_raw_table := false; src_raw_table_safety := None; src_cache := PolicyRefresh 60;
     src_safety := None; src_dynamic_vars := [] |}.

Definition hub_config (names : list string) : Config :=
  {| cfg_version := 1; cfg_sources := hub <$> names; cfg_functions := [];
     cfg_semantic := Some {| sc_models := [repo_model]; sc_metrics := []; sc_time_spine := None |} |}.

Definition hub_engine : Engine := (build_engine (RG := reachable_driver) (hub_config ["gh"])).1.

Lemma hub_built : build_engine (RG := reachable_driver) (hub_config ["gh"]) = (hub_engine, Ok ()).
Proof. vm_compute. reflexivity. Qed.

Lemma hub_unambiguous : Forall (λ d, unambiguous (fn_key d)) (engine_functions (hub_config ["gh"])).
Proof. constructor. Qed.

Lemma hub_plain : plain_sources (hub_config ["gh"]).
Proof. by apply Forall_singleton. Qed.

Lemma hub_ok : engine_ok hub_engine.
Proof. by eapply (build_engine_ok (RG := reachable_driver)); [apply hub_unambiguous|apply hub_plain|apply hub_built]. Qed.

(** The engine after a refresh that failed. *)
Definition cut_off : Engine := (refresh_catalog (RG := unreachable_driver) (Some "gh") hub_engine).1.

Lemma cut_off_history : engine_history hub_engine cut_off.
Proof.
  apply rtc_once. eapply (step_refresh unreachable_driver (Some "gh")). vm_compute. reflexivity.
Qed.

Lemma engine_stays_ok_witness :
  (∃ x, en_refreshers hub_engine !! "gh" = Some [x]) ∧ en_refreshers cut_off !! "gh" = None ∧
  (∃ x, en_refreshers cut_off !! ROLLUP_REFRESHER_KEY = Some [x] ∧ rollup_refreshed cut_off x) ∧
  coherent (en_functions cut_off).
Proof.
  split; [eexists; vm_compute; reflexivity|]. split; [vm_compute; reflexivity|].
  destruct (engine_stays_ok reachable_driver sample_build (hub_config ["gh"]) hub_engine cut_off
              hub_unambiguous hub_plain hub_built cut_off_history) as [Href Hfun].
  split; [|exact Hfun]. exists (mkTableName ROLLUP_SCHEMA "repos__total").
  split; [vm_compute; reflexivity|].
  apply (Href ROLLUP_REFRESHER_KEY [mkTableName ROLLUP_SCHEMA "repos__total"]);
    [vm_compute; reflexivity|left].
Defined.

(** A cached source that is an attached database gets a refresher, but its table stays as it is:
    no query reads the copies that are refreshed. *)
Definition attached_engine : Engine := (build_engine (RG := attaching_driver) (hub_config ["gh"])).1.

Lemma attached_not_cached :
  en_refreshers attached_engine !! "gh" = Some [mkTableName "gh" "repos"] ∧
  (match en_catalog attached_engine !! "gh" with
   | Some (AttachedSchema m) => ct_cached <$> m !! "repos"
   | _ => None
   end) = Some None.
Proof. vm_compute. done. Qed.

(** A source that is called [semantic] takes the rollup tables with it when it is refreshed, while
    their refreshers go on. *)
Definition clashing : Engine := (build_engine (RG := reachable_driver) (hub_config ["semantic"])).1.
Definition clashed : Engine := (refresh_catalog (RG := reachable_driver) (Some "semantic") clashing).1.

Lemma semantic_source_drops_rollups :
  (∀ st, st ∈ [clashing; clashed] →
     en_refreshers st !! ROLLUP_REFRESHER_KEY = Some [mkTableName ROLLUP_SCHEMA "repos__total"]) ∧
  (λ st, match en_catalog st !! ROLLUP_SCHEMA with
         | Some (MemorySchema m) => is_some (m !! "repos__total")
         | _ => false
         end) <$> [clashing; clashed] = [true; false].
Proof.
  split; [|vm_compute; reflexivity].
  intros st [->|[->|[]%elem_of_nil]%elem_of_cons]%elem_of_cons; vm_compute; reflexivity.
Qed.

(** After a failed refresh the listing cannot be trusted: the source stays listed with its tables although its
    schema is gone, so none of them can be described or queried, and its refreshers are stopped
    for good, until a later registration succeeds. *)
Theorem failed_refresh_unserves :
  list_tables None cut_off = list_tables None hub_engine ∧
  length (list_tables None cut_off) = 1%nat ∧
  (describe_table (RG := reachable_driver) (mkTableName "gh" "repos") hub_engine).2
    = Ok {| tdn_table := {| ti_name := mkTableName "gh" "repos"; ti_kind := KHttp;
                            ti_description := None; ti_required_filters := [] |};
            tdn_columns := []; tdn_examples := []; tdn_wiki := None |} ∧
  (describe_table (RG := reachable_driver) (mkTableName "gh" "repos") cut_off).2
    = Err (EUnknownTable "gh.repos") ∧
  is_some (en_refreshers hub_engine !! "gh") = true ∧ en_refreshers cut_off !! "gh" = None.
Proof. vm_compute. done. Qed.

Definition hub_load (names : list string) : string → result string Config :=
  λ _, Ok (hub_config names).

Definition reloaded : Engine :=
  (reload_config (RG := reachable_driver) (Some "pawrly.yaml") (hub_load ["gh"; "gl"]) hub_engine).1.

Lemma hub_loads names : loads_unambiguous (hub_load names).
Proof. intros p cfg [= <-]. unfold engine_functions. simpl. by induction names. Qed.

Lemma hub_names (p : string) cfg :
  hub_load ["gh"; "gl"] p = Ok cfg → NoDup (src_name <$> cfg_sources cfg).
Proof. intros [= <-]. by apply (bool_decide_unpack _). Qed.

Lemma hub_reloaded :
  reload_config (RG := reachable_driver) (Some "pawrly.yaml") (hub_load ["gh"; "gl"]) hub_engine
  = (reloaded, Ok {| rl_added := 1; rl_removed := 0; rl_changed := 0 |}).
Proof. vm_compute. reflexivity. Qed.

Lemma reload_converges_witness : is_Some (en_sources reloaded !! "gl").
Proof.
  destruct (reload_converges (RG := reachable_driver) _ _ _ _ _ hub_ok (hub_loads _) hub_names
              hub_reloaded) as (p & cfg & _ & [= <-] & Hdom & _).
  apply Hdom. right. by left.
Defined.

Lemma reload_settles_witness :
  en_sources (reload_config (RG := unreachable_driver) (Some "pawrly.yaml") (hub_load ["gh"; "gl"])
                reloaded).1 = en_sources reloaded.
Proof.
  destruct (reload_config (RG := unreachable_driver) (Some "pawrly.yaml") (hub_load ["gh"; "gl"])
    reloaded) as [st'' r] eqn:E.
  apply (reload_settles (RG := reachable_driver) unreachable_driver sample_build _ _ _ _ _ st'' r
           hub_names hub_reloaded E).
Defined.
End sample.
