(* ===== verification/Namespaces.v ===== *)
(** * Materialize namespaces ([crates/pawrly-engine/src/namespace.rs], [local.rs])
    The names of cache directories, the registry that maps a namespace to the manager of its
    store, the catalogs by which its tables can be named in SQL, and the engine's operations on
    materialized tables. Each store is a [Disk] under its segment of the storage root. *)

From S2P Require Export Cache EngineErrors.

(** ** Names *)

(** [sanitize_segment]: every character that is not a letter, a digit, [_], [-] or [.] becomes
    one [-]; a continuation byte belongs to the character before it. *)
Definition segment_chr (c : ascii) : bool :=
  is_alnum c || bool_decide (c ∈ ["_"; "-"; "."]%char).

Fixpoint sanitize_segment (s : string) : string :=
  match s with
  | "" => ""
  | String c s =>
      if segment_chr c then String c (sanitize_segment s)
      else if is_cont c then sanitize_segment s
      else String "-" (sanitize_segment s)
  end.

Fixpoint any_chr (f : ascii → bool) (s : string) : bool :=
  match s with
  | "" => false
  | String c s => f c || any_chr f s
  end.

Definition FNV_OFFSET : N := 0xcbf29ce484222325.
Definition FNV_PRIME : N := 0x100000001b3.

Fixpoint fnv1a (hash : N) (bytes : string) : N :=
  match bytes with
  | "" => hash
  | String b bytes => fnv1a (N.modulo (N.lxor hash (code b) * FNV_PRIME) (2 ^ 64)) bytes
  end.

Definition hex_digit (n : N) : ascii := ascii_of_N (if (n <? 10)%N then 48 + n else 87 + n).

(** [{:0width$x}] of a number below [16 ^ width]. *)
Fixpoint hex_fixed (width : nat) (n : N) : string :=
  match width with
  | O => ""
  | S width => hex_fixed width (n / 16) +:+ chr (hex_digit (n mod 16))
  end.

Definition fnv1a_hex (bytes : string) : string := hex_fixed 16 (fnv1a FNV_OFFSET bytes).

(** [cache_namespace]; [canonicalize] is the file system's. *)
Definition derived_namespace (canonicalize : string → option string) (workspace_dir : string)
    (home : option string) : string :=
  let canonical := default workspace_dir (canonicalize workspace_dir) in
  if bool_decide ((λ h, default h (canonicalize h)) <$> home = Some canonical) then "default"
  else
    let dirname := match sanitize_segment <$> file_name canonical with
                   | Some s => if decide (s = "") then "workspace" else s
                   | None => "workspace"
                   end in
    dirname +:+ "-" +:+ fnv1a_hex canonical.

Definition cache_namespace (canonicalize : string → option string) (explicit : option string)
    (workspace_dir : string) (home : option string) : string :=
  match explicit with
  | Some ns => if any_chr is_alnum ns then sanitize_segment ns
               else derived_namespace canonicalize workspace_dir home
  | None => derived_namespace canonicalize workspace_dir home
  end.

Definition PAWRLY_CATALOG : string := "pawrly".

Definition reserved_namespaces : list string :=
  [PAWRLY_CATALOG; MATERIALIZED_SCHEMA; SYSTEM_SCHEMA; "information_schema"].

Definition validate_namespace (ns : string) : result EngineError () :=
  if negb (any_chr is_alnum ns) || bool_decide (sanitize_segment ns ≠ ns) then
    Err (EInternal ("invalid namespace `" +:+ ns +:+
      "`: use alphanumerics, `_`, `-`, or `.`, with at least one alphanumeric"))
  else if bool_decide (ns ∈ reserved_namespaces) then
    Err (EInternal ("namespace `" +:+ ns +:+ "` is reserved"))
  else Ok ().

(** [char::is_whitespace] of some character. *)
Fixpoint has_whitespace (s : string) : bool :=
  match s with
  | "" => false
  | String a s' =>
      is_ascii_ws a
      || match s' with
         | String b s'' => is_ws2 a b || match s'' with String c _ => is_ws3 a b c | "" => false end
         | "" => false
         end
      || has_whitespace s'
  end.

Definition validate_materialized_name (name : string) : result EngineError () :=
  if bool_decide (name = "") || bool_decide (trim name ≠ name)
     || (contains_chr "." name || contains_chr "/" name || contains_chr "\" name
         || has_whitespace name)
  then Err (EInternal ("invalid materialized table name `" +:+ name +:+
              "`: use a plain identifier (no dots, slashes, or spaces)"))
  else Ok ().

Section namespaces.
(** The crates the cache uses. *)
Context {Field Column Batch Provider Filter : Type}
  (num_rows : Batch → N)
  (parquet_len : list Field → list Batch → N)
  (parquet_read : list Field → list Batch → list Batch)
  (schema_of : Provider → list Field)
  (scan_live : Provider → list Filter → option N → result string (list Batch))
  (chrono : Chrono).

Abbreviation Disk := (@Disk Field Batch).
Abbreviation CacheManager := (@CacheManager Provider).

(** ** The registry *)

(** [NamespaceRegistry], with the stores on disk by their segment of the storage root. A
    namespace is named by [None] when it is the workspace's own. *)
Record Namespaces := {
  ns_root : string;
  ns_default : string;
  ns_default_cache : CacheManager;
  ns_extra : gmap string CacheManager;
  ns_disks : gmap string Disk
}.

(** What an operation meets outside: the I/O of a store, the clock, a fresh name, and whether a
    new store's directory can be made and an old one's removed. *)
Record Env := {
  ev_io : Io;
  ev_now : Z;
  ev_uuid : string;
  ev_create : result string ();
  ev_remove : result string ()
}.

Definition segment (key : option string) (st : Namespaces) : string := default (ns_default st) key.

Definition disk_of (key : option string) (st : Namespaces) : Disk :=
  default {| dk_manifest := None; dk_files := ∅ |} (ns_disks st !! segment key st).

(** [<storage_root>/<ns>/manifest.json] is a file. *)
Definition has_manifest (ns : string) (st : Namespaces) : bool :=
  is_some (ns_disks st !! ns ≫= dk_manifest).

Definition manager_of (key : option string) (st : Namespaces) : option CacheManager :=
  match key with
  | None => Some (ns_default_cache st)
  | Some ns => ns_extra st !! ns
  end.

Definition with_store (key : option string) (m : CacheManager) (d : Disk) (st : Namespaces)
    : Namespaces :=
  {| ns_root := ns_root st; ns_default := ns_default st;
     ns_default_cache := match key with None => m | Some _ => ns_default_cache st end;
     ns_extra := match key with None => ns_extra st | Some ns => <[ns := m]> (ns_extra st) end;
     ns_disks := <[segment key st := d]> (ns_disks st) |}.

Definition normalize_ns (ns : option string) (st : Namespaces) : result EngineError (option string) :=
  match ns with
  | None => Ok None
  | Some ns =>
      if decide (ns = "") then Ok None
      else if decide (ns = ns_default st) then Ok None
      else rmap (λ _, Some ns) (validate_namespace ns)
  end.

Definition open_or_create (e : Env) (ns : string) (st : Namespaces)
    : Namespaces * result EngineError (option string) :=
  match ns_extra st !! ns with
  | Some _ => (st, Ok (Some ns))
  | None =>
      match ev_create e with
      | Err msg => (st, Err (EInternal ("namespace `" +:+ ns +:+ "` cache init: " +:+ msg)))
      | Ok _ =>
          let '(m, d) := new_manager (ev_io e) (ev_now e) (path_join (ns_root st) ns)
                           (disk_of (Some ns) st) in
          (with_store (Some ns) m d st, Ok (Some ns))
      end
  end.

Definition open_existing (e : Env) (ns : string) (st : Namespaces)
    : Namespaces * result EngineError (option (option string)) :=
  if is_some (ns_extra st !! ns) || has_manifest ns st then
    let '(st, r) := open_or_create e ns st in (st, rmap Some r)
  else (st, Ok None).

Definition for_write (e : Env) (ns : option string) (st : Namespaces)
    : Namespaces * result EngineError (option string) :=
  match normalize_ns ns st with
  | Err err => (st, Err err)
  | Ok None => (st, Ok None)
  | Ok (Some ns) => open_or_create e ns st
  end.

Definition for_read (e : Env) (ns : option string) (st : Namespaces)
    : Namespaces * result EngineError (option (option string)) :=
  match normalize_ns ns st with
  | Err err => (st, Err err)
  | Ok None => (st, Ok (Some None))
  | Ok (Some ns) => open_existing e ns st
  end.

(** [lookup], from a catalog name of a query. *)
Definition lookup_ns (e : Env) (ns : string) (st : Namespaces)
    : Namespaces * option (option string) :=
  if decide (ns = ns_default st) then (st, Some None)
  else match validate_namespace ns with
       | Err _ => (st, None)
       | Ok _ => match open_existing e ns st with
                 | (st, Ok o) => (st, o)
                 | (st, Err _) => (st, None)
                 end
       end.

Definition known_namespaces `{!HashIter string} (listing : list string) (st : Namespaces)
    : list string :=
  foldl (λ names name,
    if bool_decide (name = ns_default st) || bool_decide (name ∈ names)
       || match validate_namespace name with Ok _ => false | Err _ => true end
    then names
    else if has_manifest name st then names ++ [name] else names)
    (hash_iter (dom (ns_extra st))) listing.

Definition remove_namespace (e : Env) (ns : string) (st : Namespaces)
    : Namespaces * result EngineError bool :=
  if bool_decide (ns = "") || bool_decide (ns = ns_default st) then
    (st, Err (EInternal "cannot drop the default workspace namespace"))
  else match validate_namespace ns with
  | Err err => (st, Err err)
  | Ok _ =>
      let existed := is_some (ns_extra st !! ns) in
      let forget disks :=
        {| ns_root := ns_root st; ns_default := ns_default st;
           ns_default_cache := ns_default_cache st; ns_extra := delete ns (ns_extra st);
           ns_disks := disks |} in
      if has_manifest ns st then
        match ev_remove e with
        | Ok _ => (forget (delete ns (ns_disks st)), Ok true)
        | Err msg => (forget (ns_disks st),
                      Err (EInternal ("drop namespace `" +:+ ns +:+ "`: " +:+ msg)))
        end
      else (forget (ns_disks st), Ok existed)
  end.

(** ** The engine's operations on materialized tables *)

(** An operation of the manager of a namespace on its store. *)
Definition on_store {A} (key : option string) (op : CacheManager → Disk → A * CacheManager * Disk)
    (st : Namespaces) : option (A * Namespaces) :=
  m ← manager_of key st;
  let '(a, m, d) := op m (disk_of key st) in
  Some (a, with_store key m d st).

Definition cache_text (e : CacheError) : EngineError :=
  match e with
  | UnknownTable name => EUnknownTable name
  | Internal msg => EInternal msg
  end.

Definition fault_map {E F} (f : E → F) (e : Fault E) : Fault F :=
  match e with
  | Failed e => Failed (f e)
  | Panicked => Panicked
  end.

Record MaterializeOutcome := { mo_name : TableName; mo_file_path : string; mo_row_count : N; mo_size_bytes : N }.

(** The store writes what was produced; the text of its I/O error is left out. *)
Definition write_table (e : Env) (name what : string) (schema : list Field) (batches : list Batch)
    (spec : MaterializeSpec) (key : option string) (st : Namespaces)
    : Namespaces * result EngineError ManifestEntry :=
  match on_store key (materialize num_rows parquet_len parquet_read (ev_io e) (ev_uuid e) (ev_now e)
                        name schema batches spec) st with
  | Some (Ok entry, st) => (st, Ok entry)
  | Some (Err _, st) => (st, Err (EInternal what))
  | None => (st, Err (EInternal what))
  end.

(** [materialize]; [produce] is what the origin yields. *)
Definition engine_materialize (e : Env) (name : string) (spec : MaterializeSpec)
    (produce : MaterializeSpec → result EngineError (list Field * list Batch))
    (ns : option string) (st : Namespaces) : Namespaces * result EngineError MaterializeOutcome :=
  match validate_materialized_name name with
  | Err err => (st, Err err)
  | Ok _ =>
      match for_write e ns st with
      | (st, Err err) => (st, Err err)
      | (st, Ok key) =>
          match produce spec with
          | Err err => (st, Err err)
          | Ok (schema, batches) =>
              let '(st, r) := write_table e name "materialize write" schema batches spec key st in
              (st, rmap (λ entry, {| mo_name := mkTableName MATERIALIZED_SCHEMA name;
                                     mo_file_path := en_file_path entry;
                                     mo_row_count := en_row_count entry;
                                     mo_size_bytes := en_size_bytes entry |}) r)
          end
      end
  end.

(** [refresh_table] of a materialized table; any other table belongs to the cache of the
    workspace ([Cache.refresh]). *)
Definition refresh_materialized (e : Env) (name : TableName)
    (produce : MaterializeSpec → result EngineError (list Field * list Batch))
    (ns : option string) (st : Namespaces) : Namespaces * result EngineError ManifestEntry :=
  let unknown := EUnknownTable (TableName_display name) in
  match for_read e ns st with
  | (st, Err err) => (st, Err err)
  | (st, Ok None) => (st, Err unknown)
  | (st, Ok (Some key)) =>
      match manager_of key st ≫= materialized_spec (tn_table name) with
      | None => (st, Err unknown)
      | Some spec =>
          match produce spec with
          | Err err => (st, Err err)
          | Ok (schema, batches) =>
              write_table e (tn_table name) "materialize refresh" schema batches spec key st
          end
      end
  end.

(** [refresh_table], [invalidate_cache] and [vacuum_cache]. *)
Definition refresh_table (e : Env) (name : TableName)
    (produce : MaterializeSpec → result EngineError (list Field * list Batch))
    (ns : option string) (st : Namespaces) : Namespaces * result (Fault EngineError) RefreshOutcome :=
  if decide (tn_schema name = MATERIALIZED_SCHEMA) then
    let '(st, r) := refresh_materialized e name produce ns st in
    (st, map_err Failed
           (rmap (λ entry, {| ro_table := name; ro_rows_written := en_row_count entry;
                              ro_size_bytes := en_size_bytes entry; ro_expires_at := None |}) r))
  else
    match ns with
    | Some _ =>
        (st, Err (Failed (EInternal (tick (TableName_display name) +:+
          " is not a materialized table; only `materialized.<name>` can be refreshed in a namespace"))))
    | None =>
        match on_store None (refresh num_rows parquet_len parquet_read schema_of scan_live chrono
                               (ev_io e) (ev_uuid e) (ev_now e) name) st with
        | Some (r, st) => (st, map_err (fault_map cache_text) r)
        | None => (st, Err (Failed (EUnknownTable (TableName_display name))))
        end
    end.

Definition invalidate_cache (e : Env) (name : TableName) (st : Namespaces)
    : Namespaces * result EngineError bool :=
  match on_store None (invalidate (ev_io e) name) st with
  | Some (r, st) => (st, map_err cache_text r)
  | None => (st, Ok false)
  end.

Definition vacuum_cache (e : Env) (st : Namespaces) : Namespaces * result EngineError VacuumReport :=
  match on_store None (vacuum (ev_io e) (ev_now e)) st with
  | Some (r, st) => (st, map_err cache_text r)
  | None => (st, Ok VacuumReport_default)
  end.

Definition engine_drop_materialized (e : Env) (name : string) (ns : option string)
    (st : Namespaces) : Namespaces * result EngineError bool :=
  match for_read e ns st with
  | (st, Err err) => (st, Err err)
  | (st, Ok None) => (st, Ok false)
  | (st, Ok (Some key)) =>
      match on_store key (drop_materialized (ev_io e) name) st with
      | Some (r, st) => (st, map_err cache_text r)
      | None => (st, Ok false)
      end
  end.

Definition cache_entries (e : Env) (ns : option string) (st : Namespaces)
    : Namespaces * result EngineError (list CacheEntryInfo) :=
  match for_read e ns st with
  | (st, Err err) => (st, Err err)
  | (st, Ok o) => (st, Ok (default [] (list_entries <$> (o ≫= λ key, manager_of key st))))
  end.

(** ** Catalogs *)

(** The store a three-part name is looked up in, and the snapshot it names there
    ([NamespaceCatalogProvider], [NamespaceSchemaProvider]). *)
Definition snapshot_path (key : option string) (source table : string) (st : Namespaces)
    : option string :=
  m ← manager_of key st;
  if bool_decide (source ∈ namespace_sources m (disk_of key st))
  then namespace_path source table m (disk_of key st) else None.

Definition resolve_snapshot (e : Env) (ns source table : string) (st : Namespaces)
    : Namespaces * option string :=
  let '(st, o) := lookup_ns e ns st in (st, o ≫= λ key, snapshot_path key source table st).
End namespaces.
