(* ===== verification/NamespaceProps.v ===== *)
(** * Properties of materialize namespaces
    Names that reach the file system are single clean segments, an operation touches the store
    of its namespace only, and a materialized table can be named in SQL where it was put, also
    after a restart. *)

From S2P Require Import CacheFiles Vacuum FunctionProps.
From S2P Require Export Namespaces.

(** ** Clean segments *)

(** A name that is one segment of a path: its characters are plain, one of them a letter or a
    digit. *)
Definition clean (s : string) : Prop := any_chr is_alnum s = true ∧ all_chars segment_chr s = true.

Lemma sanitize_length s : String.length (sanitize_segment s) ≤ String.length s.
Proof.
  induction s as [|c s IH]; simpl; [done|].
  destruct (segment_chr c); [simpl; lia|]. destruct (is_cont c); simpl; lia.
Qed.

Lemma sanitize_fixed s : sanitize_segment s = s ↔ all_chars segment_chr s = true.
Proof.
  induction s as [|c s IH]; simpl; [done|].
  destruct (segment_chr c) eqn:Hc; simpl.
  - rewrite <-IH. split; [by intros [= ?]|by intros ->].
  - split; [|done]. destruct (is_cont c).
    + intros Heq. pose proof (sanitize_length s) as Hl. rewrite Heq in Hl. simpl in Hl. lia.
    + intros [= <- _]. discriminate Hc.
Qed.

Lemma sanitize_all s : all_chars segment_chr (sanitize_segment s) = true.
Proof.
  induction s as [|c s IH]; simpl; [done|].
  destruct (segment_chr c) eqn:Hc; simpl; [by rewrite Hc|]. by destruct (is_cont c).
Qed.

Lemma alnum_segment c : is_alnum c = true → segment_chr c = true.
Proof. unfold segment_chr. by intros ->. Qed.

Lemma any_alnum_sanitize s : any_chr is_alnum s = true → any_chr is_alnum (sanitize_segment s) = true.
Proof.
  induction s as [|c s IH]; simpl; [done|]. intros [Hc|Hs]%orb_true_iff.
  - rewrite (alnum_segment c Hc). simpl. by rewrite Hc.
  - destruct (segment_chr c); [|destruct (is_cont c)]; simpl; rewrite ?IH by done; auto with bool.
Qed.

Lemma any_chr_app f a b : any_chr f (a +:+ b) = any_chr f a || any_chr f b.
Proof. induction a as [|c a IH]; [done|]. rewrite app_cons'. simpl. rewrite IH. apply orb_assoc. Qed.

Lemma clean_sanitize s : any_chr is_alnum s = true → clean (sanitize_segment s).
Proof. split; [by apply any_alnum_sanitize|apply sanitize_all]. Qed.

Lemma hex_digit_alnum n : (n < 16)%N → is_alnum (hex_digit n) = true.
Proof.
  intros Hn. unfold is_alnum, is_alpha, is_upper, is_lower, is_digit, in_range, hex_digit, code.
  destruct (N.ltb_spec n 10); rewrite N_ascii_embedding by lia;
    repeat match goal with |- context [(?a <=? ?b)%N] => destruct (N.leb_spec a b) end;
    (done || lia).
Qed.

Lemma hex_fixed_alnum w n : all_chars is_alnum (hex_fixed w n) = true.
Proof.
  revert n. induction w as [|w IH]; intros n; [done|]. cbn [hex_fixed].
  rewrite all_chars_app, IH. unfold chr. cbn [all_chars andb].
  by rewrite hex_digit_alnum by (apply N.mod_lt; lia).
Qed.

Lemma clean_derived dirname bytes :
  all_chars segment_chr dirname = true → clean (dirname +:+ "-" +:+ fnv1a_hex bytes).
Proof.
  intros Hd. split.
  - rewrite !any_chr_app. unfold fnv1a_hex. cbn [hex_fixed]. rewrite !any_chr_app.
    apply orb_true_iff. right. apply orb_true_iff. right. apply orb_true_iff. right.
    unfold chr. cbn [any_chr]. by rewrite hex_digit_alnum by (apply N.mod_lt; lia).
  - rewrite !all_chars_app, Hd. apply andb_true_iff. split; [reflexivity|].
    eapply all_chars_impl; [|apply hex_fixed_alnum]. apply alnum_segment.
Qed.

Lemma validate_namespace_ok ns :
  validate_namespace ns = Ok () ↔ clean ns ∧ ns ∉ reserved_namespaces.
Proof.
  unfold validate_namespace, clean. rewrite <-sanitize_fixed.
  destruct (any_chr is_alnum ns); simpl; [|naive_solver].
  repeat case_bool_decide; naive_solver.
Qed.

(** A clean segment joined to a root is a direct child of it. *)
Lemma clean_child root ns :
  clean ns →
  contains_chr "/" ns = false ∧ ns ≠ "" ∧ ns ≠ "." ∧ ns ≠ ".." ∧
  (path_join root ns = ns ∧ root = "" ∨ path_join root ns = root +:+ ns ∧ ends_with "/" root = true
   ∨ path_join root ns = root +:+ "/" +:+ ns).
Proof.
  intros [Ha Hs].
  assert (contains_chr "/" ns = false) as Hc by (by eapply all_chars_contains).
  split; [done|]. split; [by intros ->|]. split; [by intros ->|]. split; [by intros ->|].
  unfold path_join, is_absolute.
  assert (starts_with "/" ns = false) as ->.
  { destruct ns as [|c ns]; [done|]. simpl in Hc. apply orb_false_iff in Hc as [Hc _].
    apply bool_decide_eq_false in Hc. unfold starts_with. simpl.
    apply bool_decide_eq_false. rewrite decide_False by congruence. by intros [? ?]. }
  case_bool_decide as Hr; [by left|]. destruct (ends_with "/" root); auto.
Qed.

(** Every directory name the cache uses is one clean segment: what a workspace is given, from
    any configured name, path and home, and every namespace a caller may pass (which moreover
    hides none of the reserved catalogs and schemas). Joined to the storage root it is a direct
    child of it; it is never empty, [.] or [..] and holds no separator. *)
Theorem namespaces_stay_inside canonicalize explicit workspace home ns root :
  (ns = cache_namespace canonicalize explicit workspace home ∨ validate_namespace ns = Ok ()) →
  contains_chr "/" ns = false ∧ ns ≠ "" ∧ ns ≠ "." ∧ ns ≠ ".." ∧
  (path_join root ns = ns ∧ root = "" ∨ path_join root ns = root +:+ ns ∧ ends_with "/" root = true
   ∨ path_join root ns = root +:+ "/" +:+ ns) ∧
  (validate_namespace ns = Ok () → ns ∉ reserved_namespaces).
Proof.
  intros Hns. assert (clean ns) as Hc; cycle 1.
  { destruct (clean_child root ns Hc) as (? & ? & ? & ? & ?). split_and!; try done.
    by intros [_ ?]%validate_namespace_ok. }
  destruct Hns as [->|[? _]%validate_namespace_ok]; [|done].
  assert (clean (derived_namespace canonicalize workspace home)) as Hd.
  { unfold derived_namespace. case_bool_decide; [by split|]. apply clean_derived.
    destruct (file_name _) as [f|]; simpl; [|done]. case_decide; [done|apply sanitize_all]. }
  unfold cache_namespace. destruct explicit as [e|]; [|done].
  destruct (any_chr is_alnum e) eqn:Ha; [by apply clean_sanitize|done].
Qed.

Lemma namespaces_stay_inside_witness :
  contains_chr "/" (cache_namespace Some (Some "../My Cache") "/ws" None) = false ∧
  cache_namespace Some (Some "../My Cache") "/ws" None = "..-My-Cache" ∧
  contains_chr "/" "sess_a" = false.
Proof.
  split; [|split; [reflexivity|]].
  - by apply (namespaces_stay_inside Some (Some "../My Cache") "/ws" None _ "/root"); left.
  - by apply (namespaces_stay_inside Some None "" None "sess_a" "/root"); right.
Defined.

(** A configured namespace is not checked against the reserved names: one called [pawrly] is
    accepted, and the catalog registered under it hides the main one. *)
Lemma config_namespace_shadows :
  cache_namespace Some (Some PAWRLY_CATALOG) "/ws" None = PAWRLY_CATALOG ∧
  validate_namespace PAWRLY_CATALOG ≠ Ok ().
Proof. split; [reflexivity|by vm_compute]. Qed.

Example fnv1a_hello : fnv1a_hex "hello" = "a430d84680aabd0b".
Proof. vm_compute. reflexivity. Qed.

(** ** The registry *)

Section registry.
Context {Field Column Batch Provider Filter : Type}
  (num_rows : Batch → N)
  (parquet_len : list Field → list Batch → N)
  (parquet_read : list Field → list Batch → list Batch).

Abbreviation Disk := (@Disk Field Batch).
Abbreviation CacheManager := (@CacheManager Provider).
Abbreviation Namespaces := (@Namespaces Field Batch Provider).
Abbreviation engine_materialize := (engine_materialize num_rows parquet_len parquet_read).
Abbreviation refresh_materialized := (refresh_materialized num_rows parquet_len parquet_read).

(** Two registries agree except on the store of [key]. *)
Record elsewhere (key : option string) (st st' : Namespaces) : Prop := {
  ew_root : ns_root st' = ns_root st;
  ew_default : ns_default st' = ns_default st;
  ew_cache : key ≠ None → ns_default_cache st' = ns_default_cache st;
  ew_extra ns : key ≠ Some ns → ns_extra st' !! ns = ns_extra st !! ns;
  ew_disks ns : ns ≠ segment key st → ns_disks st' !! ns = ns_disks st !! ns
}.

Lemma elsewhere_refl key st : elsewhere key st st.
Proof. by split. Qed.

Lemma elsewhere_trans key st1 st2 st3 :
  elsewhere key st1 st2 → elsewhere key st2 st3 → elsewhere key st1 st3.
Proof.
  intros [A1 A2 A3 A4 A5] [B1 B2 B3 B4 B5]. unfold segment in *.
  split; [congruence..| | |].
  - intros Hk. by rewrite B3, A3.
  - intros ns Hns. by rewrite B4, A4.
  - intros ns Hns. rewrite B5, A5; [done..|]. by rewrite A2.
Qed.

Lemma with_store_elsewhere key m d (st : Namespaces) : elsewhere key st (with_store key m d st).
Proof.
  split; [done|done| | |].
  - by destruct key.
  - intros ns Hns. destruct key as [k|]; simpl; [|done]. rewrite lookup_insert_ne; [done|congruence].
  - intros ns Hns. simpl. by rewrite lookup_insert_ne.
Qed.

(** The registry is sound: every store it opened belongs to a valid name that is not the
    workspace's own, and every manager works in the directory of its name. *)
Definition registry_ok (st : Namespaces) : Prop :=
  (∀ ns m, ns_extra st !! ns = Some m → validate_namespace ns = Ok () ∧ ns ≠ ns_default st) ∧
  (∀ key m, manager_of key st = Some m → cm_root m = path_join (ns_root st) (segment key st)).

(** What an operation on [key] keeps. *)
Definition touches (key : option string) (st st' : Namespaces) : Prop :=
  elsewhere key st st' ∧ (registry_ok st → registry_ok st').

Lemma touches_refl key st : touches key st st.
Proof. split; [apply elsewhere_refl|done]. Qed.

Lemma touches_trans key st1 st2 st3 : touches key st1 st2 → touches key st2 st3 → touches key st1 st3.
Proof. intros [A1 A2] [B1 B2]. split; [by eapply elsewhere_trans|auto]. Qed.

(** The manager of an opened store, replaced by one with the same root. *)
Lemma with_store_touches key m d (st : Namespaces) :
  cm_root m = path_join (ns_root st) (segment key st) →
  (∀ ns, key = Some ns → validate_namespace ns = Ok () ∧ ns ≠ ns_default st) →
  touches key st (with_store key m d st).
Proof.
  intros Hm Hkey. split; [apply with_store_elsewhere|]. intros [H1 H2]. split.
  - intros ns m'. simpl. destruct key as [k|]; [|by apply H1].
    intros [[<- <-]|[_ Hm']]%lookup_insert_Some; [by apply Hkey|by eapply H1].
  - intros [k'|] m'; simpl.
    + destruct key as [k|]; [|by apply (H2 (Some k'))].
      intros [[<- <-]|[_ Hm']]%lookup_insert_Some; [done|by apply (H2 (Some k'))].
    + intros [= <-]. destruct key as [k|]; [by apply (H2 None)|done].
Qed.

Lemma normalize_ns_ok ns (st : Namespaces) k :
  normalize_ns ns st = Ok (Some k) → ns = Some k ∧ validate_namespace k = Ok () ∧ k ≠ ns_default st.
Proof.
  unfold normalize_ns. destruct ns as [ns|]; [|done]. case_decide; [done|]. case_decide; [done|].
  destruct (validate_namespace ns) as [[]|] eqn:Hv; simpl; [|done]. by intros [= <-].
Qed.

Lemma open_or_create_touches e k st st' r :
  validate_namespace k = Ok () → k ≠ ns_default st →
  open_or_create e k st = (st', r) →
  touches (Some k) st st' ∧
  (∀ key, r = Ok key → key = Some k ∧ is_Some (ns_extra st' !! k)).
Proof.
  intros Hv Hk. unfold open_or_create. destruct (ns_extra st !! k) as [m|] eqn:Hm.
  { intros [= <- <-]. split; [apply touches_refl|]. intros key [= <-]. by rewrite Hm. }
  destruct (ev_create e); [|intros [= <- <-]; split; [apply touches_refl|done]].
  destruct (new_manager _ _ _ _) as [m d] eqn:Hn. intros [= <- <-]. split.
  - apply with_store_touches; [|by intros ? [= <-]].
    unfold new_manager in Hn. destruct (clean_old_tmp _ _ _ _). by injection Hn as <- _.
  - intros key [= <-]. split; [done|]. simpl. by rewrite lookup_insert_eq.
Qed.

Lemma open_existing_touches e k st st' r :
  validate_namespace k = Ok () → k ≠ ns_default st →
  open_existing e k st = (st', r) →
  touches (Some k) st st' ∧
  (∀ key, r = Ok (Some key) → key = Some k ∧ is_Some (ns_extra st' !! k)).
Proof.
  intros Hv Hk. unfold open_existing.
  destruct (is_some _ || _); [|intros [= <- <-]; split; [apply touches_refl|done]].
  destruct (open_or_create e k st) as [st1 r1] eqn:E. intros [= <- <-].
  apply open_or_create_touches in E as [Ht Hr]; [|done..]. split; [done|].
  intros key. destruct r1 as [k1|]; simpl; [|done]. intros [= ->]. by apply Hr.
Qed.

(** The key an operation works on, from the name it is given. *)
Definition target (ns : option string) (st : Namespaces) : option (option string) :=
  match normalize_ns ns st with Ok key => Some key | Err _ => None end.

Lemma for_write_touches e ns st st' r :
  for_write e ns st = (st', r) →
  match target ns st with
  | None => st' = st ∧ ∃ err, r = Err err
  | Some key => touches key st st' ∧ (∀ k, r = Ok k → k = key ∧ is_Some (manager_of key st'))
  end.
Proof.
  unfold for_write, target. destruct (normalize_ns ns st) as [[k|]|err] eqn:Hn.
  - apply normalize_ns_ok in Hn as (_ & Hv & Hk). intros E.
    by apply open_or_create_touches in E.
  - intros [= <- <-]. split; [apply touches_refl|]. intros k [= <-]. simpl. eauto.
  - intros [= <- <-]. eauto.
Qed.

Lemma for_read_touches e ns st st' r :
  for_read e ns st = (st', r) →
  match target ns st with
  | None => st' = st ∧ ∃ err, r = Err err
  | Some key => touches key st st' ∧ (∀ k, r = Ok (Some k) → k = key ∧ is_Some (manager_of key st'))
  end.
Proof.
  unfold for_read, target. destruct (normalize_ns ns st) as [[k|]|err] eqn:Hn.
  - apply normalize_ns_ok in Hn as (_ & Hv & Hk). intros E. by apply open_existing_touches in E.
  - intros [= <- <-]. split; [apply touches_refl|]. intros k [= <-]. simpl. eauto.
  - intros [= <- <-]. eauto.
Qed.

Lemma on_store_touches {A} key (op : CacheManager → Disk → A * CacheManager * Disk) st a st' :
  (∀ m d, cm_root (op m d).1.2 = cm_root m) →
  on_store key op st = Some (a, st') → touches key st st'.
Proof.
  intros Hroot. unfold on_store. destruct (manager_of key st) as [m|] eqn:Hm; [|done]. simpl.
  pose proof (Hroot m (disk_of key st)) as Hr.
  destruct (op m (disk_of key st)) as [[a1 m1] d1]. intros [= <- <-]. simpl in Hr.
  split; [apply with_store_elsewhere|]. intros Hok. apply with_store_touches; [| |done].
  - rewrite Hr. by apply Hok.
  - intros ns ->. by eapply Hok.
Qed.

Lemma materialize_root io uuid now name schema batches spec (m : CacheManager) (d : Disk) :
  cm_root (materialize num_rows parquet_len parquet_read io uuid now name schema batches spec m d).1.2
  = cm_root m.
Proof.
  destruct (materialize _ _ _ _ _ _ _ _ _ _ _ _) as [[r m'] d'] eqn:E. simpl.
  apply materialize_commits in E. by destruct E.
Qed.

Lemma drop_materialized_root io name (m : CacheManager) (d : Disk) :
  cm_root (drop_materialized io name m d).1.2 = cm_root m.
Proof.
  unfold drop_materialized. destruct (with_locked_manifest _ _ _ _) as [[r m'] d'] eqn:E.
  assert (cm_root m' = cm_root m) as Hr
    by (by apply with_locked_cases in E as [(? & ? & ? & ? & -> & ?)|(? & -> & ?)]).
  unfold drop_file. destruct r as [[e|]|]; done.
Qed.

Lemma write_table_touches e name what schema batches spec key st st' r :
  write_table num_rows parquet_len parquet_read e name what schema batches spec key st = (st', r) →
  touches key st st'.
Proof.
  unfold write_table. destruct (on_store _ _ st) as [[[entry|] st1]|] eqn:E;
    intros [= <- <-]; try apply touches_refl;
    (eapply on_store_touches; [|exact E]; intros; apply materialize_root).
Qed.

(** An operation that is given the namespace [ns]. *)
Inductive ns_step (ns : option string) (st : Namespaces) : Namespaces → Prop :=
| step_materialize e name spec produce :
    ns_step ns st (engine_materialize e name spec produce ns st).1
| step_refresh e name produce : ns_step ns st (refresh_materialized e name produce ns st).1
| step_drop e name : ns_step ns st (engine_drop_materialized e name ns st).1
| step_entries e : ns_step ns st (cache_entries e ns st).1
| step_lookup e k : ns = Some k → ns_step ns st (lookup_ns e k st).1
| step_remove e k : ns = Some k → ns_step ns st (remove_namespace e k st).1.

Lemma remove_namespace_touches e k st :
  match target (Some k) st with
  | None => (remove_namespace e k st).1 = st
  | Some key => touches key st (remove_namespace e k st).1
  end.
Proof.
  unfold target, normalize_ns, remove_namespace.
  destruct (decide (k = "")) as [Hk|Hk]; [rewrite (bool_decide_eq_true_2 _ Hk); apply touches_refl|].
  destruct (decide (k = ns_default st)) as [Hd|Hd].
  { rewrite (bool_decide_eq_true_2 _ Hd), orb_true_r. apply touches_refl. }
  rewrite (bool_decide_eq_false_2 _ Hk), (bool_decide_eq_false_2 _ Hd). simpl.
  destruct (validate_namespace k) as [[]|]; simpl; [|done].
  assert (∀ disks, (∀ ns, ns ≠ k → disks !! ns = ns_disks st !! ns) →
    touches (Some k) st {| ns_root := ns_root st; ns_default := ns_default st;
      ns_default_cache := ns_default_cache st; ns_extra := delete k (ns_extra st);
      ns_disks := disks |}) as Ht.
  { intros disks Hdisks. split.
    - split; try done. intros ns Hns. simpl. rewrite lookup_delete_ne; [done|congruence].
    - intros [H1 H2]. split.
      + intros ns m. simpl. intros [_ Hm]%lookup_delete_Some. by eapply H1.
      + intros [ns|] m; simpl; [|apply (H2 None)]. intros [_ Hm]%lookup_delete_Some.
        by apply (H2 (Some ns)). }
  destruct (has_manifest k st); [destruct (ev_remove e)|]; apply Ht; intros ns Hns; try done.
  by rewrite lookup_delete_ne.
Qed.

Lemma lookup_ns_touches e k st :
  match target (Some k) st with
  | None => (lookup_ns e k st).1 = st
  | Some key => touches key st (lookup_ns e k st).1
  end.
Proof.
  unfold target, normalize_ns, lookup_ns.
  destruct (decide (k = "")) as [->|Hk].
  { destruct (decide _); [apply touches_refl|]. simpl. apply touches_refl. }
  destruct (decide (k = ns_default st)) as [Hd|Hd]; [apply touches_refl|].
  destruct (validate_namespace k) as [[]|] eqn:Hv; simpl; [|done].
  destruct (open_existing e k st) as [st1 [o|]] eqn:E; simpl;
    by apply open_existing_touches in E as [? _].
Qed.

Lemma ns_step_touches ns st st' :
  ns_step ns st st' →
  match target ns st with None => st' = st | Some key => touches key st st' end.
Proof.
  intros [e name spec produce|e name produce|e name|e|e k ->|e k ->];
    [| | | |apply lookup_ns_touches|apply remove_namespace_touches].
  - unfold Namespaces.engine_materialize.
    destruct (validate_materialized_name name); [|destruct (target ns st); [apply touches_refl|done]].
    destruct (for_write e ns st) as [st1 r] eqn:E. apply for_write_touches in E.
    destruct (target ns st) as [key|]; [|by destruct E as (-> & err & ->)].
    destruct E as [Ht Hk], r as [k|]; [|done]. destruct (Hk k eq_refl) as [-> _].
    destruct (produce spec) as [[schema batches]|]; [|done].
    destruct (write_table _ _ _ _ _ _ _ _ _ _ _) as [st2 r2] eqn:Hw.
    apply write_table_touches in Hw. by eapply touches_trans.
  - unfold Namespaces.refresh_materialized.
    destruct (for_read e ns st) as [st1 r] eqn:E. apply for_read_touches in E.
    destruct (target ns st) as [key|]; [|by destruct E as (-> & err & ->)].
    destruct E as [Ht Hk], r as [[k|]|]; [|done..]. destruct (Hk k eq_refl) as [-> _].
    destruct (manager_of key st1 ≫= _) as [spec|]; [|done].
    destruct (produce spec) as [[schema batches]|]; [|done].
    destruct (write_table _ _ _ _ _ _ _ _ _ _ _) as [st2 r2] eqn:Hw.
    apply write_table_touches in Hw. by eapply touches_trans.
  - unfold engine_drop_materialized.
    destruct (for_read e ns st) as [st1 r] eqn:E. apply for_read_touches in E.
    destruct (target ns st) as [key|]; [|by destruct E as (-> & err & ->)].
    destruct E as [Ht Hk], r as [[k|]|]; [|done..]. destruct (Hk k eq_refl) as [-> _].
    destruct (on_store key _ st1) as [[b st2]|] eqn:Hd; [|done].
    apply on_store_touches in Hd; [by eapply touches_trans|]. intros; apply drop_materialized_root.
  - unfold cache_entries.
    destruct (for_read e ns st) as [st1 r] eqn:E. apply for_read_touches in E.
    destruct (target ns st) as [key|]; [|by destruct E as (-> & err & ->)].
    by destruct E as [Ht _], r as [o|].
Qed.

(** Namespaces are isolated, whatever names callers pass: an operation that is given a name the
    registry refuses changes nothing; one that is given the name of a store changes the manager and
    the directory of that store only; and every store the registry opens belongs to a valid name
    and works in that name's directory under the storage root. *)
Theorem namespaces_isolated ns st st' :
  registry_ok st → ns_step ns st st' →
  registry_ok st' ∧
  (target ns st = None → st' = st) ∧
  (∀ key other, target ns st = Some key → other ≠ key → segment other st ≠ segment key st →
     manager_of other st' = manager_of other st ∧ disk_of other st' = disk_of other st).
Proof.
  intros Hok Hstep%ns_step_touches. destruct (target ns st) as [key|] eqn:Ht; cycle 1.
  { subst st'. done. }
  destruct Hstep as [[E1 E2 E3 E4 E5] Hk]. split; [by apply Hk|]. split; [done|].
  intros k other [= <-] Hne Hseg. split.
  - destruct other as [o|]; simpl; [apply E4; congruence|]. f_equal. apply E3. congruence.
  - unfold disk_of. assert (segment other st' = segment other st) as ->.
    { unfold segment. by rewrite E2. }
    by rewrite E5.
Qed.

(** ** Names in SQL *)

(** Joining to a root puts one prefix before any relative name. *)
Lemma path_join_prefix root :
  ∃ p, ∀ b, starts_with "/" b = false → path_join root b = p +:+ b.
Proof.
  unfold path_join, is_absolute. destruct (decide (root = "")) as [->|Hr].
  - exists "". by intros b ->.
  - destruct (ends_with "/" root) eqn:He.
    + exists root. intros b ->. by rewrite bool_decide_eq_false_2.
    + exists (root +:+ "/"). intros b ->. rewrite bool_decide_eq_false_2 by done.
      by rewrite app_assoc'.
Qed.

Lemma strip_differs p a b c d : c ≠ d → strip_prefix (p +:+ String c a) (p +:+ String d b) = None.
Proof.
  intros Hcd. induction p as [|x p IH].
  - rewrite !app_nil_l'. simpl. by rewrite decide_False.
  - rewrite !app_cons'. simpl. by rewrite decide_True.
Qed.

Lemma relative_name name : contains_chr "/" name = false → starts_with "/" name = false.
Proof.
  destruct name as [|c name]; [done|]. simpl. intros [Hc _]%orb_false_iff.
  apply bool_decide_eq_false in Hc. unfold starts_with. simpl. apply bool_decide_eq_false.
  rewrite decide_False by congruence. by intros [? ?].
Qed.

(** The file of a materialized table is not a temporary one. *)
Lemma data_not_tmp now root name (f : @File Field Batch) :
  contains_chr "/" name = false →
  is_old_tmp now root (data_path root MATERIALIZED_SCHEMA name) f = false.
Proof.
  intros Hn%relative_name. unfold is_old_tmp, tmp_dir, data_path.
  destruct (path_join_prefix root) as [p Hp]. rewrite !Hp by done.
  assert (∃ r, path_join (p +:+ "data") MATERIALIZED_SCHEMA = p +:+ String "d" r) as [r1 ->].
  { unfold path_join, is_absolute. simpl. case_bool_decide as He.
    - exfalso. destruct p; [rewrite app_nil_l' in He|rewrite app_cons' in He]; done.
    - destruct (ends_with _ _); rewrite app_assoc'; eauto. }
  assert (Hjoin : ∀ r b, starts_with "/" b = false →
    ∃ r', path_join (p +:+ String "d" r) b = p +:+ String "d" r').
  { intros r b Hb. unfold path_join, is_absolute. rewrite Hb. case_bool_decide as He.
    - exfalso. destruct p; [rewrite app_nil_l' in He|rewrite app_cons' in He]; done.
    - destruct (ends_with _ _); rewrite app_assoc', app_cons'; eauto. }
  destruct (Hjoin r1 name Hn) as [r2 ->]. destruct (Hjoin r2 "part-000000.parquet") as [r3 ->]; [done|].
  rewrite app_assoc'. change ("tmp" +:+ "/") with (String "t" "mp/").
  by rewrite strip_differs.
Qed.

(** Where a stored entry is the only one of its name and its file exists, its name resolves. *)
Lemma upserted_resolves e mf (m : CacheManager) (d : Disk) name :
  cm_manifest m = apply_change (Upsert e) mf →
  entry_key e = mkTableName MATERIALIZED_SCHEMA name → is_Some (dk_files d !! en_file_path e) →
  MATERIALIZED_SCHEMA ∈ namespace_sources m d ∧
  namespace_path MATERIALIZED_SCHEMA name m d = Some (en_file_path e).
Proof.
  intros Hm Hk [f Hf].
  assert (Hex : exists_file d (en_file_path e) = true) by (unfold exists_file; by rewrite Hf).
  assert (Hie : is_entry (mkTableName MATERIALIZED_SCHEMA name) e = true).
  { rewrite <-Hk. by apply is_entry_key. }
  split.
  - unfold namespace_sources. rewrite elem_of_dedup; unfold sort_strings;
      rewrite elem_of_sort_by, list_elem_of_In.
    apply in_map_iff. exists e. split; [by injection Hk|]. apply filter_In. split; [|done].
    rewrite Hm. apply in_or_app. right. by left.
  - unfold namespace_path. rewrite Hm, (upsert_find_first _ e); [done| |by rewrite Hie, Hex].
    intros x [Hx _]%andb_true_iff. by rewrite Hk.
Qed.

(** The registry of a process started later on the same directories. *)
Definition restart (e : Env) (st : Namespaces) : Namespaces :=
  let '(m, d) := new_manager (ev_io e) (ev_now e) (path_join (ns_root st) (ns_default st))
                   (disk_of None st) in
  {| ns_root := ns_root st; ns_default := ns_default st; ns_default_cache := m; ns_extra := ∅;
     ns_disks := <[ns_default st := d]> (ns_disks st) |}.

Lemma new_manager_keeps io now root name (d : Disk) f :
  contains_chr "/" name = false → io_read io = true →
  dk_files d !! data_path root MATERIALIZED_SCHEMA name = Some f →
  let '(m, d') := @new_manager Field Batch Provider io now root d in
  cm_manifest m = stored d ∧ cm_root m = root ∧ dk_manifest d' = dk_manifest d ∧
  dk_files d' !! data_path root MATERIALIZED_SCHEMA name = Some f.
Proof.
  intros Hn Hio Hf. unfold new_manager. rewrite read_manifest_stored by done.
  pose proof (clean_old_tmp_removes io now root d (data_path root MATERIALIZED_SCHEMA name)) as Hr.
  pose proof (clean_old_tmp_manifest io now root d) as Hm.
  destruct (clean_old_tmp io now root d) as [n d']. simpl in Hr, Hm |- *.
  split_and!; [done|done|done|]. rewrite Hr, Hf. simpl. by rewrite data_not_tmp.
Qed.

(** What a materialization that succeeds leaves in its store. *)
Lemma engine_materialize_ok e name spec produce ns st st' out :
  registry_ok st → engine_materialize e name spec produce ns st = (st', Ok out) →
  ∃ key m schema batches entry mf,
    target ns st = Some key ∧ contains_chr "/" name = false ∧ produce spec = Ok (schema, batches) ∧
    registry_ok st' ∧ segment key st' = segment key st ∧ ns_root st' = ns_root st ∧
    manager_of key st' = Some m ∧ entry_key entry = mkTableName MATERIALIZED_SCHEMA name ∧
    mo_name out = entry_key entry ∧ mo_file_path out = en_file_path entry ∧
    en_file_path entry = data_path (path_join (ns_root st) (segment key st)) MATERIALIZED_SCHEMA name ∧
    cm_manifest m = apply_change (Upsert entry) mf ∧
    stored (disk_of key st') = cm_manifest m ∧
    fi_data <$> dk_files (disk_of key st') !! en_file_path entry
      = Some (Some (schema, parquet_read schema batches)).
Proof.
  intros Hok Hm.
  pose proof (ns_step_touches _ _ _ (step_materialize ns st e name spec produce)) as Ht.
  rewrite Hm in Ht. simpl in Ht.
  unfold Namespaces.engine_materialize in Hm.
  destruct (validate_materialized_name name) as [[]|] eqn:Hv; [|done].
  destruct (for_write e ns st) as [st1 r] eqn:Hw. apply for_write_touches in Hw.
  destruct (target ns st) as [key|]; [|by destruct Hw as (-> & err & ->)].
  destruct Hw as [[He1 Hok1] Hk], r as [k|]; [|done]. destruct (Hk k eq_refl) as [-> _].
  destruct (produce spec) as [[schema batches]|]; [|done].
  destruct (write_table _ _ _ _ _ _ _ _ _ _ _) as [st2 [entry|]] eqn:Hwt; [|done].
  simpl in Hm. injection Hm as <- <-. unfold write_table in Hwt.
  destruct (on_store _ _ st1) as [[[en|] st3]|] eqn:Hon; [|done..]. injection Hwt as -> ->.
  unfold on_store in Hon. destruct (manager_of key st1) as [m1|] eqn:Hm1; [|done]. simpl in Hon.
  destruct (materialize _ _ _ _ _ _ _ _ _ _ _ _) as [[r2 m2] d2] eqn:Hmat. injection Hon as -> <-.
  apply materialize_ok in Hmat as (Hen & Hcm & Hrd & Hfiles).
  assert (cm_root m1 = path_join (ns_root st) (segment key st)) as Hroot.
  { destruct (Hok1 Hok) as [_ H2]. rewrite (H2 _ _ Hm1). destruct He1 as [-> Hd _ _ _].
    f_equal. unfold segment. by rewrite Hd. }
  assert (segment key st1 = segment key st) as Hseg by (unfold segment; by destruct He1 as [_ -> _ _ _]).
  assert (disk_of key (with_store key m2 d2 st1) = d2) as Hdisk.
  { unfold disk_of. change (segment key (with_store key m2 d2 st1)) with (segment key st1).
    simpl. by rewrite lookup_insert_eq. }
  eexists key, m2, schema, batches, entry, (read_manifest_disk (ev_io e) (disk_of key st1)).
  split; [done|]. split.
  { unfold validate_materialized_name in Hv. destruct (contains_chr "/" name); [|done].
    destruct (bool_decide _ || _), (contains_chr "." name); done. }
  split; [done|]. split; [by apply Ht|]. split; [exact Hseg|].
  split; [by destruct He1|]. split; [by destruct key; simpl; rewrite ?lookup_insert_eq|].
  rewrite Hdisk, Hen. simpl. rewrite Hroot. split_and!; try done.
  - by rewrite Hcm, Hrd, Hen, Hroot.
  - rewrite Hfiles. rewrite Hroot, lookup_insert_eq. done.
Qed.

(** Looking a name up in a store whose manager is open. *)
Lemma resolve_open e key m entry mf name (st : Namespaces) :
  registry_ok st → manager_of key st = Some m →
  cm_manifest m = apply_change (Upsert entry) mf →
  entry_key entry = mkTableName MATERIALIZED_SCHEMA name →
  is_Some (dk_files (disk_of key st) !! en_file_path entry) →
  resolve_snapshot e (segment key st) MATERIALIZED_SCHEMA name st = (st, Some (en_file_path entry)).
Proof.
  intros [H1 _] Hm Hmf Hk Hf. unfold resolve_snapshot.
  assert (lookup_ns e (segment key st) st = (st, Some key)) as ->.
  { unfold lookup_ns. destruct key as [k|]; simpl; [|by rewrite decide_True].
    simpl in Hm. destruct (H1 _ _ Hm) as [Hv Hd]. rewrite decide_False, Hv by done.
    unfold open_existing, open_or_create. rewrite Hm. done. }
  simpl. unfold snapshot_path. rewrite Hm. simpl.
  destruct (upserted_resolves entry mf m (disk_of key st) name) as [Hin ->]; [done..|].
  by rewrite bool_decide_eq_true_2.
Qed.

Lemma upsert_manifest_present e mf (d : Disk) :
  stored d = apply_change (Upsert e) mf → is_Some (dk_manifest d).
Proof.
  unfold stored. destruct (dk_manifest d) as [m|]; [eauto|]. simpl. intros H.
  apply (f_equal mf_entries) in H. simpl in H. by destruct (List.filter _ _).
Qed.

(** A materialized table can be named in SQL where it was put: once [materialize] succeeds,
    [<namespace>.materialized.<name>] resolves to the file that was written, which reads back the
    produced schema and batches; and it still does in a process started later on the same
    storage that can read the manifest, whether the namespace is the workspace's own or another. *)
Theorem materialized_addressable e e' name spec produce ns st st' out :
  registry_ok st → ev_create e' = Ok () → io_read (ev_io e') = true →
  engine_materialize e name spec produce ns st = (st', Ok out) →
  ∃ key schema batches,
    target ns st = Some key ∧ produce spec = Ok (schema, batches) ∧
    mo_name out = mkTableName MATERIALIZED_SCHEMA name ∧
    fi_data <$> dk_files (disk_of key st') !! mo_file_path out
      = Some (Some (schema, parquet_read schema batches)) ∧
    (resolve_snapshot e' (segment key st) MATERIALIZED_SCHEMA name st').2 = Some (mo_file_path out) ∧
    (resolve_snapshot e' (segment key st) MATERIALIZED_SCHEMA name (restart e' st')).2
      = Some (mo_file_path out).
Proof.
  intros Hok Hcreate Hread Hmat. apply engine_materialize_ok in Hmat as (key & m & schema & batches &
    entry & mf & Ht & Hname & Hp & Hok' & Hseg & Hroot & Hm & Hk & Hon & Hof & Hpath & Hmf & Hrd & Hfi);
    [|done].
  exists key, schema, batches. rewrite Hon, Hof, <-Hseg, Hk. split_and!; try done.
  { destruct (dk_files (disk_of key st') !! en_file_path entry) as [f|] eqn:Hf; [|done].
    by erewrite resolve_open by eauto. }
  destruct (dk_files (disk_of key st') !! en_file_path entry) as [f|] eqn:Hf; [|done]. clear Hfi.
  rewrite <-Hseg, <-Hroot in Hpath. rewrite Hpath in Hf.
  pose proof (upsert_manifest_present entry mf (disk_of key st')) as Hpresent.
  rewrite Hrd in Hpresent. specialize (Hpresent Hmf).
  pose proof (new_manager_keeps (ev_io e') (ev_now e') (path_join (ns_root st') (segment key st')) name
                (disk_of key st') f Hname Hread Hf) as Hnew.
  unfold restart.
  destruct key as [k|]; simpl in *.
  - destruct (proj1 Hok' _ _ Hm) as [Hv Hd].
    destruct (new_manager (ev_io e') (ev_now e') (path_join (ns_root st') (ns_default st')) _)
      as [m0 d0].
    destruct (ns_disks st' !! k) as [d|] eqn:Hdk; cycle 1.
    { unfold disk_of in Hf. simpl in Hf. rewrite Hdk in Hf. done. }
    assert (disk_of (Some k) st' = d) as Hdisk by (unfold disk_of; simpl; by rewrite Hdk).
    rewrite Hdisk in *.
    set (st2 := {| ns_root := _ |}).
    assert (disk_of (Some k) st2 = d) as Hd2.
    { unfold disk_of, st2. simpl. rewrite lookup_insert_ne by done. by rewrite Hdk. }
    unfold resolve_snapshot, lookup_ns, open_existing, open_or_create.
    rewrite decide_False, Hv by done. unfold has_manifest.
    assert (ns_disks st2 !! k = Some d) as Hs2 by (simpl; by rewrite lookup_insert_ne).
    assert (ns_extra st2 !! k = None) as Hx by apply lookup_empty.
    rewrite Hs2, Hx. simpl. destruct Hpresent as [mfd ->]. simpl. rewrite Hcreate, Hd2. simpl.
    destruct (new_manager _ _ _ d) as [m2 d2]. destruct Hnew as (Hm2 & _ & _ & Hf2).
    unfold snapshot_path. simpl. rewrite lookup_insert_eq. simpl.
    unfold disk_of. simpl. rewrite lookup_insert_eq. simpl.
    destruct (upserted_resolves entry mf m2 d2 name) as [Hin ->];
      [by rewrite Hm2, Hrd|done|rewrite Hpath; eauto|].
    by rewrite bool_decide_eq_true_2.
  - unfold resolve_snapshot, lookup_ns.
    destruct (new_manager _ _ _ _) as [m2 d2]. destruct Hnew as (Hm2 & _ & _ & Hf2). simpl.
    rewrite decide_True by done. simpl. unfold snapshot_path. simpl.
    unfold disk_of. simpl. rewrite lookup_insert_eq. simpl.
    destruct (upserted_resolves entry mf m2 d2 name) as [Hin ->];
      [by rewrite Hm2, Hrd|done|rewrite Hpath; eauto|].
    by rewrite bool_decide_eq_true_2.
Qed.
End registry.

(** ** A concrete registry *)

Section sample.
Abbreviation SampleNs := (@Namespaces string nat unit).

Definition quiet : Env :=
  {| ev_io := Io_ok; ev_now := 0; ev_uuid := "u"; ev_create := Ok (); ev_remove := Ok () |}.

Definition fresh_registry : SampleNs :=
  {| ns_root := "/cache"; ns_default := "ws-1";
     ns_default_cache := {| cm_root := "/cache/ws-1"; cm_inner := ∅;
                            cm_manifest := {| mf_version := 1; mf_entries := [] |} |};
     ns_extra := ∅; ns_disks := ∅ |}.

Lemma fresh_registry_ok : registry_ok fresh_registry.
Proof.
  split; [by intros ns m|]. intros [ns|] m; [done|]. intros [= <-]. vm_compute. reflexivity.
Qed.

Definition sample_materialize (ns : option string) : SampleNs * result EngineError MaterializeOutcome :=
  engine_materialize (λ n, N.of_nat n) (λ _ _, 10%N) (λ _ b, b) quiet "top" (SpecQuery "SELECT 1" ∅)
    (λ _, Ok (["x"], [1%nat])) ns fresh_registry.

Lemma namespaces_isolated_witness :
  registry_ok (sample_materialize (Some "sess_a")).1 ∧
  manager_of None (sample_materialize (Some "sess_a")).1 = manager_of None fresh_registry ∧
  (sample_materialize (Some "../evil")).1 = fresh_registry.
Proof.
  destruct (namespaces_isolated (λ n, N.of_nat n) (λ _ _, 10%N) (λ _ b, b) (Some "sess_a")
    fresh_registry _ fresh_registry_ok (step_materialize _ _ _ _ _ quiet "top"
      (SpecQuery "SELECT 1" ∅) (λ _, Ok (["x"], [1%nat])))) as (Hok & _ & Hother).
  destruct (namespaces_isolated (λ n, N.of_nat n) (λ _ _, 10%N) (λ _ b, b) (Some "../evil")
    fresh_registry _ fresh_registry_ok (step_materialize _ _ _ _ _ quiet "top"
      (SpecQuery "SELECT 1" ∅) (λ _, Ok (["x"], [1%nat])))) as (_ & Hevil & _).
  split; [exact Hok|]. split.
  - by apply (Hother (Some "sess_a") None); vm_compute.
  - apply Hevil. by vm_compute.
Defined.

Lemma materialized_addressable_witness :
  match sample_materialize (Some "sess_a") with
  | (st', Ok out) =>
      (resolve_snapshot quiet "sess_a" MATERIALIZED_SCHEMA "top" (restart quiet st')).2
        = Some (mo_file_path out)
  | _ => False
  end.
Proof.
  destruct (sample_materialize (Some "sess_a")) as [st' [out|err]] eqn:E.
  - destruct (materialized_addressable (λ n, N.of_nat n) (λ _ _, 10%N) (λ _ b, b) quiet quiet "top"
      (SpecQuery "SELECT 1" ∅) (λ _, Ok (["x"], [1%nat])) (Some "sess_a") fresh_registry st' out
      fresh_registry_ok eq_refl eq_refl E) as (key & schema & batches & Ht & _ & _ & _ & _ & Hr).
    assert (key = Some "sess_a") as -> by (vm_compute in Ht; congruence). exact Hr.
  - vm_compute in E. discriminate.
Defined.
End sample.
