(* ===== verification/Tokens.v ===== *)
(** * Stores of variable values ([crates/pawrly-secrets/src/variables/tokens.rs])
    Where static secrets and OAuth refresh tokens are kept: a JSON file, the OS keyring, an
    encrypted file, and the default store that falls back from the keyring to the encrypted
    file. What the host answers is an argument; a store is its persistent state. *)

From S2P Require Export RustStr.

Inductive TokenStoreError :=
| TsIo (path msg : string)
| TsCorrupt (path msg : string)
| TsKeyring (msg : string).

(** ** The interface *)

(** [VariableValueStore] of stores [S] on a host [H]. *)
Class ValueStore (H S : Type) := {
  vs_get : H → string → S → S * result TokenStoreError (option string);
  vs_set : H → string → string → S → S * result TokenStoreError ();
  vs_delete : H → string → S → S * result TokenStoreError ()
}.

(** What a value store promises its clients, on hosts that are [up] and stores that are [sound]:
    its contents are a map, which reads leave alone and writes update, or leave alone when they
    fail. *)
Class ValueStoreLaws {H S : Type} `{!ValueStore H S} (up : H → Prop) (sound : S → Prop)
    (contents : S → gmap string string) : Prop := {
  vs_get_spec h id s : up h → sound s →
    let '(s', r) := vs_get h id s in
    sound s' ∧ contents s' = contents s ∧ r = Ok (contents s !! id);
  vs_set_spec h id v s : up h → sound s →
    let '(s', r) := vs_set h id v s in
    sound s' ∧ r = Ok () ∧ contents s' = <[id := v]> (contents s);
  vs_delete_spec h id s : up h → sound s →
    let '(s', r) := vs_delete h id s in
    sound s' ∧ r = Ok () ∧ contents s' = delete id (contents s)
}.

(** [NoopTokenStore]. *)
#[export] Instance noop_store {H} : ValueStore H () := {|
  vs_get _ _ s := (s, Ok None);
  vs_set _ _ _ s := (s, Ok ());
  vs_delete _ _ s := (s, Ok ())
|}.

(** ** The JSON file *)

Section file.
(** [serde_json] on a map of strings. *)
Context (from_json : string → result string (gmap string string))
  (to_json : gmap string string → string).

(** What the file system answers: an error other than a missing file when reading; an error when
    writing, with what is left in the file. *)
Record FileHost := { fh_read : option string; fh_write : option (string * option string) }.

(** [FileTokenStore]: the file's text, if there is one. *)
Record FileTokenStore := { ft_path : string; ft_text : option string }.

Definition file_read_all (h : FileHost) (s : FileTokenStore)
    : result TokenStoreError (gmap string string) :=
  match fh_read h with
  | Some msg => Err (TsIo (ft_path s) msg)
  | None => match ft_text s with
            | Some raw => map_err (TsCorrupt (ft_path s)) (from_json raw)
            | None => Ok ∅
            end
  end.

Definition file_write_all (h : FileHost) (m : gmap string string) (s : FileTokenStore)
    : FileTokenStore * result TokenStoreError () :=
  match fh_write h with
  | Some (msg, kept) => ({| ft_path := ft_path s; ft_text := kept |}, Err (TsIo (ft_path s) msg))
  | None => ({| ft_path := ft_path s; ft_text := Some (to_json m) |}, Ok ())
  end.

Definition file_get (h : FileHost) (id : string) (s : FileTokenStore)
    : FileTokenStore * result TokenStoreError (option string) :=
  (s, rmap (λ m, m !! id) (file_read_all h s)).

Definition file_set (h : FileHost) (id v : string) (s : FileTokenStore)
    : FileTokenStore * result TokenStoreError () :=
  match file_read_all h s with
  | Err e => (s, Err e)
  | Ok m => file_write_all h (<[id := v]> m) s
  end.

Definition file_delete (h : FileHost) (id : string) (s : FileTokenStore)
    : FileTokenStore * result TokenStoreError () :=
  match file_read_all h s with
  | Err e => (s, Err e)
  | Ok m => match m !! id with
            | Some _ => file_write_all h (delete id m) s
            | None => (s, Ok ())
            end
  end.

Definition file_store : ValueStore FileHost FileTokenStore :=
  {| vs_get := file_get; vs_set := file_set; vs_delete := file_delete |}.
End file.

(** ** The OS keyring *)

(** [KeyringTokenStore::account]. *)
Definition account (id : string) : string := "token::" +:+ id.

(** The keyring's answer: an error, or none when it is reachable. *)
Definition keyring_get (down : option string) (id : string) (k : gmap string string)
    : gmap string string * result TokenStoreError (option string) :=
  (k, match down with Some msg => Err (TsKeyring msg) | None => Ok (k !! account id) end).

Definition keyring_set (down : option string) (id v : string) (k : gmap string string)
    : gmap string string * result TokenStoreError () :=
  match down with
  | Some msg => (k, Err (TsKeyring msg))
  | None => (<[account id := v]> k, Ok ())
  end.

Definition keyring_delete (down : option string) (id : string) (k : gmap string string)
    : gmap string string * result TokenStoreError () :=
  match down with
  | Some msg => (k, Err (TsKeyring msg))
  | None => (delete (account id) k, Ok ())
  end.

(** ** The encrypted file *)

Section encrypted.
(** [serde_json] on bytes, SHA-256, standard base64, ChaCha20-Poly1305 under a 32-byte key and a
    12-byte nonce. *)
Context (from_json : string → result string (gmap string string))
  (to_json : gmap string string → string)
  (sha256 : string → string)
  (b64_encode : string → string) (b64_decode : string → result string string)
  (encrypt : string → string → string → result string string)
  (decrypt : string → string → string → option string).

(** [$PAWRLY_TOKEN_KEY], the random bytes drawn, and I/O errors: reading either file for a reason
    other than its absence, writing the key file, writing the data file (with what is left). *)
Record CryptHost := {
  ch_pass : option string;
  ch_random_key : string;
  ch_nonce : string;
  ch_read : option string;
  ch_key_read : option string;
  ch_key_write : option (string * option string);
  ch_write : option (string * option string)
}.

(** [EncryptedFileTokenStore]: the data file and the key file. *)
Record EncryptedStore := { ec_path : string; ec_blob : option string; ec_key : option string }.

Definition with_key (k : option string) (s : EncryptedStore) : EncryptedStore :=
  {| ec_path := ec_path s; ec_blob := ec_blob s; ec_key := k |}.

Definition with_blob (b : option string) (s : EncryptedStore) : EncryptedStore :=
  {| ec_path := ec_path s; ec_blob := b; ec_key := ec_key s |}.

Definition write_key (h : CryptHost) (key : string) (s : EncryptedStore)
    : EncryptedStore * result TokenStoreError () :=
  match ch_key_write h with
  | Some (msg, kept) => (with_key kept s, Err (TsIo (ec_path s) msg))
  | None => (with_key (Some (b64_encode key)) s, Ok ())
  end.

Definition read_key (h : CryptHost) (s : EncryptedStore) : result TokenStoreError (option string) :=
  match ch_key_read h with
  | Some msg => Err (TsIo (ec_path s) msg)
  | None =>
      match ec_key s with
      | None => Ok None
      | Some raw =>
          match b64_decode (trim raw) with
          | Err e => Err (TsCorrupt (ec_path s) ("key file: " +:+ e))
          | Ok key => if decide (String.length key = 32%nat) then Ok (Some key)
                      else Err (TsCorrupt (ec_path s) "key file: expected 32 bytes")
          end
      end
  end.

Definition write_and_return (h : CryptHost) (key : string) (s : EncryptedStore)
    : EncryptedStore * result TokenStoreError string :=
  let '(s, r) := write_key h key s in (s, rmap (λ _, key) r).

Definition resolve_key (h : CryptHost) (s : EncryptedStore)
    : EncryptedStore * result TokenStoreError string :=
  match ch_pass h with
  | Some (String _ _ as pass) => write_and_return h (sha256 pass) s
  | _ =>
      match read_key h s with
      | Err e => (s, Err e)
      | Ok (Some key) => (s, Ok key)
      | Ok None => write_and_return h (ch_random_key h) s
      end
  end.

Definition crypt_read_all (h : CryptHost) (s : EncryptedStore)
    : EncryptedStore * result TokenStoreError (gmap string string) :=
  match ch_read h with
  | Some msg => (s, Err (TsIo (ec_path s) msg))
  | None =>
      match ec_blob s with
      | None => (s, Ok ∅)
      | Some blob =>
          if (String.length blob <? 12)%nat then
            (s, Err (TsCorrupt (ec_path s) "file shorter than a nonce"))
          else
            match resolve_key h s with
            | (s, Err e) => (s, Err e)
            | (s, Ok key) =>
                (s, match decrypt key (String.substring 0 12 blob)
                            (String.substring 12 (String.length blob - 12) blob) with
                    | None => Err (TsCorrupt (ec_path s)
                                "decryption failed (wrong key or tampered file)")
                    | Some plain => map_err (TsCorrupt (ec_path s)) (from_json plain)
                    end)
            end
      end
  end.

Definition crypt_write_all (h : CryptHost) (m : gmap string string) (s : EncryptedStore)
    : EncryptedStore * result TokenStoreError () :=
  match resolve_key h s with
  | (s, Err e) => (s, Err e)
  | (s, Ok key) =>
      match encrypt key (ch_nonce h) (to_json m) with
      | Err e => (s, Err (TsIo (ec_path s) ("encryption failed: " +:+ e)))
      | Ok ct =>
          match ch_write h with
          | Some (msg, kept) => (with_blob kept s, Err (TsIo (ec_path s) msg))
          | None => (with_blob (Some (ch_nonce h +:+ ct)) s, Ok ())
          end
      end
  end.

Definition crypt_get (h : CryptHost) (id : string) (s : EncryptedStore)
    : EncryptedStore * result TokenStoreError (option string) :=
  let '(s, r) := crypt_read_all h s in (s, rmap (λ m, m !! id) r).

Definition crypt_set (h : CryptHost) (id v : string) (s : EncryptedStore)
    : EncryptedStore * result TokenStoreError () :=
  match crypt_read_all h s with
  | (s, Err e) => (s, Err e)
  | (s, Ok m) => crypt_write_all h (<[id := v]> m) s
  end.

Definition crypt_delete (h : CryptHost) (id : string) (s : EncryptedStore)
    : EncryptedStore * result TokenStoreError () :=
  match crypt_read_all h s with
  | (s, Err e) => (s, Err e)
  | (s, Ok m) => match m !! id with
                 | Some _ => crypt_write_all h (delete id m) s
                 | None => (s, Ok ())
                 end
  end.

Definition encrypted_store : ValueStore CryptHost EncryptedStore :=
  {| vs_get := crypt_get; vs_set := crypt_set; vs_delete := crypt_delete |}.
End encrypted.

(** ** The default store *)

Definition no_keyring (env : option string) : bool :=
  bool_decide (env ∈ [Some "1"; Some "true"; Some "yes"; Some "on"]).

(** [VariableTokenStore]: the keyring unless it is disabled, and a file store that keyring errors
    fall through to. *)
Section default_store.
Context {H S : Type} `{!ValueStore H S}.

Record DefaultHost := { dh_keyring : option string; dh_file : H }.
Record DefaultStore := { ds_keyring : option (gmap string string); ds_file : S }.

Definition on_keyring {A}
    (op : gmap string string → gmap string string * result TokenStoreError A)
    (file_op : S → S * result TokenStoreError A) (s : DefaultStore)
    : DefaultStore * result TokenStoreError A :=
  let on_file k :=
    let '(f, r) := file_op (ds_file s) in ({| ds_keyring := k; ds_file := f |}, r) in
  match ds_keyring s with
  | None => on_file None
  | Some k =>
      match op k with
      | (k, Ok a) => ({| ds_keyring := Some k; ds_file := ds_file s |}, Ok a)
      | (k, Err (TsKeyring _)) => on_file (Some k)
      | (k, Err e) => ({| ds_keyring := Some k; ds_file := ds_file s |}, Err e)
      end
  end.

Definition default_get (h : DefaultHost) (id : string) (s : DefaultStore)
    : DefaultStore * result TokenStoreError (option string) :=
  on_keyring (keyring_get (dh_keyring h) id) (vs_get (dh_file h) id) s.

Definition default_set (h : DefaultHost) (id v : string) (s : DefaultStore)
    : DefaultStore * result TokenStoreError () :=
  on_keyring (keyring_set (dh_keyring h) id v) (vs_set (dh_file h) id v) s.

Definition default_delete (h : DefaultHost) (id : string) (s : DefaultStore)
    : DefaultStore * result TokenStoreError () :=
  on_keyring (keyring_delete (dh_keyring h) id) (vs_delete (dh_file h) id) s.

#[export] Instance default_store : ValueStore DefaultHost DefaultStore := {|
  vs_get := default_get; vs_set := default_set; vs_delete := default_delete
|}.
End default_store.

(** ** Properties of the value stores
    Each store is a map while its host behaves the same way throughout; what happens when it
    does not. *)

(** ** The abstract store *)

(** What clients ask of a value store. *)
Inductive StoreOp := OpGet (id : string) | OpSet (id v : string) | OpDelete (id : string).

Section runs.
Context {H S : Type} `{!ValueStore H S}.

Definition store_op (op : StoreOp) (h : H) (s : S) : S * result TokenStoreError (option string) :=
  match op with
  | OpGet id => vs_get h id s
  | OpSet id v => let '(s, r) := vs_set h id v s in (s, rmap (λ _, None) r)
  | OpDelete id => let '(s, r) := vs_delete h id s in (s, rmap (λ _, None) r)
  end.

(** The answers to a sequence of requests, each with the host it meets. *)
Fixpoint store_run (ops : list (H * StoreOp)) (s : S)
    : list (result TokenStoreError (option string)) :=
  match ops with
  | [] => []
  | (h, op) :: ops => let '(s, r) := store_op op h s in r :: store_run ops s
  end.
End runs.

(** The same requests to a map. *)
Fixpoint map_run (ops : list StoreOp) (m : gmap string string) : list (option string) :=
  match ops with
  | [] => []
  | OpGet id :: ops => m !! id :: map_run ops m
  | OpSet id v :: ops => None :: map_run ops (<[id := v]> m)
  | OpDelete id :: ops => None :: map_run ops (delete id m)
  end.

(** A store with the laws answers as the map of its contents. *)
Lemma store_refines {H S} `{!ValueStore H S} (up : H → Prop) (sound : S → Prop)
    (contents : S → gmap string string) `{!ValueStoreLaws up sound contents} ops s :
  Forall (λ p : H * StoreOp, up p.1) ops → sound s →
  store_run ops s = map Ok (map_run ops.*2 (contents s)).
Proof.
  intros Hup. revert s. induction Hup as [|[h op] ops Hh _ IH]; intros s Hs; [done|].
  destruct op as [id|id v|id]; simpl in *.
  - pose proof (vs_get_spec h id s Hh Hs) as Hl. destruct (vs_get h id s) as [s' r].
    destruct Hl as (? & <- & ->). by rewrite IH.
  - pose proof (vs_set_spec h id v s Hh Hs) as Hl. destruct (vs_set h id v s) as [s' r].
    destruct Hl as (? & -> & <-). by rewrite IH.
  - pose proof (vs_delete_spec h id s Hh Hs) as Hl. destruct (vs_delete h id s) as [s' r].
    destruct Hl as (? & -> & <-). by rewrite IH.
Qed.

(** ** The JSON file *)

Section file.
Context (from_json : string → result string (gmap string string))
  (to_json : gmap string string → string) (Hjson : ∀ m, from_json (to_json m) = Ok m).

#[local] Instance the_file_store : ValueStore FileHost FileTokenStore :=
  file_store from_json to_json.

Definition file_up (h : FileHost) : Prop := fh_read h = None ∧ fh_write h = None.

Definition file_contents (s : FileTokenStore) : gmap string string :=
  match ft_text s ≫= λ raw, match from_json raw with Ok m => Some m | Err _ => None end with
  | Some m => m
  | None => ∅
  end.

(** The text, if any, is a JSON map. *)
Definition file_sound (s : FileTokenStore) : Prop :=
  ∀ raw, ft_text s = Some raw → ∃ m, from_json raw = Ok m.

Lemma file_read_ok h s :
  file_up h → file_sound s → file_read_all from_json h s = Ok (file_contents s).
Proof.
  intros [Hr _] Hs. unfold file_read_all, file_contents, file_sound in *. rewrite Hr.
  destruct (ft_text s) as [raw|]; [|done]. destruct (Hs raw eq_refl) as [m Hm]. simpl. by rewrite Hm.
Qed.

Lemma file_write_ok h m s :
  file_up h →
  let '(s', r) := file_write_all to_json h m s in file_sound s' ∧ r = Ok () ∧ file_contents s' = m.
Proof.
  intros [_ Hw]. unfold file_write_all. rewrite Hw. split; [|split; [done|]].
  - intros raw [= <-]. eauto.
  - unfold file_contents. simpl. by rewrite Hjson.
Qed.

Lemma file_store_laws : ValueStoreLaws file_up file_sound file_contents.
Proof.
  split.
  - intros h id s Hh Hs. simpl. unfold file_get. by rewrite file_read_ok.
  - intros h id v s Hh Hs. simpl. unfold file_set. rewrite file_read_ok by done.
    by apply file_write_ok.
  - intros h id s Hh Hs. simpl. unfold file_delete. rewrite file_read_ok by done.
    destruct (file_contents s !! id) eqn:Hid; [by apply file_write_ok|].
    split; [done|]. split; [done|]. by rewrite delete_id.
Qed.
End file.

(** ** The encrypted file *)

Section encrypted.
Context (from_json : string → result string (gmap string string))
  (to_json : gmap string string → string)
  (sha256 : string → string)
  (b64_encode : string → string) (b64_decode : string → result string string)
  (encrypt : string → string → string → result string string)
  (decrypt : string → string → string → option string).

#[local] Instance the_encrypted_store : ValueStore CryptHost EncryptedStore :=
  encrypted_store from_json to_json sha256 b64_encode b64_decode encrypt decrypt.

(** The documented behaviour of the libraries. *)
Context (Hjson : ∀ m, from_json (to_json m) = Ok m)
  (Hsha : ∀ p, String.length (sha256 p) = 32%nat)
  (Hb64 : ∀ k, b64_decode (trim (b64_encode k)) = Ok k)
  (Henc : ∀ k n p, String.length k = 32%nat → String.length n = 12%nat →
     ∃ c, encrypt k n p = Ok c ∧ decrypt k n c = Some p).

(** A host with the passphrase [pass], or none, whose I/O succeeds. *)
Record crypt_up (pass : option string) (h : CryptHost) : Prop := {
  cu_pass : ch_pass h = pass;
  cu_random : String.length (ch_random_key h) = 32%nat;
  cu_nonce : String.length (ch_nonce h) = 12%nat;
  cu_read : ch_read h = None;
  cu_key_read : ch_key_read h = None;
  cu_key_write : ch_key_write h = None;
  cu_write : ch_write h = None
}.

(** The key in the key file, if it is a good one, and the key a host will use on a store. *)
Definition file_key (s : EncryptedStore) : option string :=
  raw ← ec_key s;
  match b64_decode (trim raw) with
  | Ok key => if decide (String.length key = 32%nat) then Some key else None
  | Err _ => None
  end.

Definition has_pass (pass : option string) : bool :=
  match pass with Some (String _ _) => true | _ => false end.

Definition key_of (pass : option string) (s : EncryptedStore) : option string :=
  if has_pass pass then Some (sha256 (default "" pass)) else file_key s.

(** The map a blob holds under a key. *)
Definition sealed (key blob : string) (m : gmap string string) : Prop :=
  ∃ n c, blob = n +:+ c ∧ String.length n = 12%nat ∧ String.length key = 32%nat ∧
         decrypt key n c = Some (to_json m).

(** A store that hosts with [pass] can use: its key file, if any, is good, and its blob, if any, is
    sealed under the key they use. *)
Definition crypt_sound (pass : option string) (s : EncryptedStore) : Prop :=
  (ec_key s = None ∨ is_Some (file_key s)) ∧
  ∀ blob, ec_blob s = Some blob → ∃ key m, key_of pass s = Some key ∧ sealed key blob m.

Definition unseal (key blob : string) : option (gmap string string) :=
  plain ← decrypt key (String.substring 0 12 blob) (String.substring 12 (String.length blob - 12) blob);
  match from_json plain with Ok m => Some m | Err _ => None end.

Definition crypt_contents (pass : option string) (s : EncryptedStore) : gmap string string :=
  match ec_blob s, key_of pass s with
  | Some blob, Some key => default ∅ (unseal key blob)
  | _, _ => ∅
  end.

Lemma substring_all s : String.substring 0 (String.length s) s = s.
Proof. induction s as [|c s IH]; simpl; [done|]. by rewrite IH. Qed.

Lemma substring_split n c :
  String.substring 0 (String.length n) (n +:+ c) = n ∧
  String.substring (String.length n) (String.length (n +:+ c) - String.length n) (n +:+ c) = c.
Proof.
  induction n as [|x n [IH1 IH2]].
  - rewrite app_nil_l'. simpl. rewrite Nat.sub_0_r. split; [by destruct c|apply substring_all].
  - rewrite app_cons'. simpl. rewrite IH1. split; [done|]. exact IH2.
Qed.

Lemma read_key_ok h s :
  ch_key_read h = None → (ec_key s = None ∨ is_Some (file_key s)) →
  read_key b64_decode h s = Ok (file_key s) ∧ (file_key s = None → ec_key s = None).
Proof.
  unfold read_key, file_key. intros ->. destruct (ec_key s) as [raw|]; [|done]. simpl.
  intros [?|[key Hkey]]; [done|]. destruct (b64_decode (trim raw)); [|done]. by case_decide.
Qed.

Lemma file_key_written k s : String.length k = 32%nat → file_key (with_key (Some (b64_encode k)) s) = Some k.
Proof. intros Hk. unfold file_key. simpl. rewrite Hb64. by rewrite decide_True. Qed.

(** Hosts with a passphrase use its key; the others that of the key file, which they make when
    there is none. *)
Lemma resolve_key_ok pass h s :
  crypt_up pass h → (ec_key s = None ∨ is_Some (file_key s)) →
  ∃ s' key, resolve_key sha256 b64_encode b64_decode h s = (s', Ok key) ∧
    ec_blob s' = ec_blob s ∧ key_of pass s' = Some key ∧ String.length key = 32%nat ∧
    is_Some (file_key s') ∧ (∀ key', key_of pass s = Some key' → key' = key).
Proof.
  intros [Hp Hr _ _ Hkr Hkw _] Hk.
  destruct (read_key_ok h s Hkr Hk) as [Hread Hnone].
  assert (Hwrite : ∀ k, write_and_return b64_encode h k s = (with_key (Some (b64_encode k)) s, Ok k)).
  { intros k. unfold write_and_return, write_key. by rewrite Hkw. }
  unfold resolve_key, key_of. rewrite Hp, Hread.
  destruct (has_pass pass) eqn:Hpass.
  - destruct pass as [[|c p]|]; [done| |done]. rewrite Hwrite. eexists _, _.
    split; [done|]. split; [done|]. split; [done|]. split; [apply Hsha|].
    split; [rewrite file_key_written by apply Hsha; eauto|]. by intros key' [= <-].
  - assert (∀ A (x y : A), match pass with Some (String _ _ as p) => x | _ => y end = y) as Hm
      by (by destruct pass as [[|]|]).
    destruct pass as [[|]|]; [|done|];
      (destruct (file_key s) as [key|] eqn:Hf;
       [exists s, key; rewrite Hf; split_and!; eauto; [|by intros key' [= <-]]|
        rewrite Hwrite; exists (with_key (Some (b64_encode (ch_random_key h))) s), (ch_random_key h);
        rewrite file_key_written by done; split_and!; eauto; done]).
    all: unfold file_key in Hf; destruct (ec_key s) as [raw|]; [|done]; simpl in Hf;
      destruct (b64_decode (trim raw)); [|done]; case_decide; congruence.
Qed.

Lemma sealed_unseal key blob m :
  sealed key blob m →
  (String.length blob <? 12)%nat = false ∧ unseal key blob = Some m ∧
  ∃ plain, decrypt key (String.substring 0 12 blob)
             (String.substring 12 (String.length blob - 12) blob) = Some plain ∧
           from_json plain = Ok m.
Proof.
  intros (n & c & -> & Hn & _ & Hd). destruct (substring_split n c) as [H1 H2]. rewrite Hn in H1, H2.
  unfold unseal. rewrite H1, H2, Hd. simpl. rewrite Hjson. split; [|eauto].
  apply Nat.ltb_ge. rewrite length_app'. lia.
Qed.

Lemma crypt_read_ok pass h s :
  crypt_up pass h → crypt_sound pass s →
  ∃ s', crypt_read_all from_json sha256 b64_encode b64_decode decrypt h s
          = (s', Ok (crypt_contents pass s)) ∧
        crypt_sound pass s' ∧ crypt_contents pass s' = crypt_contents pass s.
Proof.
  intros Hup [Hkey Hblob]. pose proof Hup as [_ _ _ Hr _ _ _].
  unfold crypt_read_all, crypt_contents. rewrite Hr.
  destruct (ec_blob s) as [blob|] eqn:Hb; cycle 1.
  { exists s. rewrite Hb. split; [done|]. split; [|done]. split; [done|]. by rewrite Hb. }
  destruct (Hblob blob eq_refl) as (key & m & Hk & Hsealed).
  destruct (sealed_unseal key blob m Hsealed) as (-> & Hun & plain & Hd & Hm).
  destruct (resolve_key_ok pass h s Hup Hkey) as (s' & key' & -> & Hb' & Hk' & _ & Hfk & Hsame).
  pose proof (Hsame key Hk) as <-. rewrite Hd, Hk, Hun. simpl. rewrite Hm. simpl.
  exists s'. rewrite Hb', Hb, Hk', Hun. split; [done|]. split; [|done]. split; [by right|].
  intros blob'. rewrite Hb', Hb. intros [= <-]. eauto.
Qed.

Lemma crypt_write_ok pass h m s :
  crypt_up pass h → (ec_key s = None ∨ is_Some (file_key s)) →
  ∃ s', crypt_write_all to_json sha256 b64_encode b64_decode encrypt h m s = (s', Ok ()) ∧
        crypt_sound pass s' ∧ crypt_contents pass s' = m.
Proof.
  intros Hup Hkey. pose proof Hup as [_ _ Hn _ _ _ Hw].
  unfold crypt_write_all.
  destruct (resolve_key_ok pass h s Hup Hkey) as (s' & key & -> & _ & Hk & Hlen & Hfk & _).
  destruct (Henc key (ch_nonce h) (to_json m) Hlen Hn) as (c & -> & Hd). rewrite Hw.
  assert (sealed key (ch_nonce h +:+ c) m) as Hs by (by exists (ch_nonce h), c).
  assert (key_of pass (with_blob (Some (ch_nonce h +:+ c)) s') = Some key) as Hk' by exact Hk.
  eexists. split; [done|]. split.
  - split; [by right|]. intros blob [= <-]. eauto.
  - unfold crypt_contents. rewrite Hk'. simpl. destruct (sealed_unseal _ _ _ Hs) as (_ & -> & _). done.
Qed.

Lemma encrypted_store_laws pass :
  ValueStoreLaws (crypt_up pass) (crypt_sound pass) (crypt_contents pass).
Proof.
  split.
  - intros h id s Hh Hs. simpl. unfold Tokens.crypt_get.
    destruct (crypt_read_ok pass h s Hh Hs) as (s' & -> & Hs' & Hc). done.
  - intros h id v s Hh Hs. simpl. unfold Tokens.crypt_set.
    destruct (crypt_read_ok pass h s Hh Hs) as (s' & -> & [Hk _] & _).
    destruct (crypt_write_ok pass h (<[id := v]> (crypt_contents pass s)) s' Hh Hk)
      as (s'' & -> & ? & ?). done.
  - intros h id s Hh Hs. simpl. unfold Tokens.crypt_delete.
    destruct (crypt_read_ok pass h s Hh Hs) as (s' & -> & [Hk Hb] & Hc).
    destruct (crypt_contents pass s !! id) eqn:Hid.
    + destruct (crypt_write_ok pass h (delete id (crypt_contents pass s)) s' Hh Hk)
        as (s'' & -> & ? & ?). done.
    + split; [by split|]. split; [done|]. by rewrite Hc, delete_id.
Qed.
End encrypted.

(** ** The default store *)

Section default_store.
Context {H S : Type} `{!ValueStore H S} (up : H → Prop) (sound : S → Prop)
  (contents : S → gmap string string) {L : ValueStoreLaws up sound contents}.

Lemma NoDup_omap_keys (f : string → option string) {A} (l : list (string * A)) :
  (∀ a a' i, f a = Some i → f a' = Some i → a = a') → NoDup l.*1 →
  NoDup (omap (λ '(a, v), (λ i, (i, v)) <$> f a) l).*1.
Proof.
  intros Hinj. induction l as [|[a v] l IH]; [constructor|].
  intros [Hnin Hnd]%NoDup_cons. simpl. destruct (f a) as [i|] eqn:Hp; simpl; [|by apply IH].
  apply NoDup_cons. split; [|by apply IH]. intros Hin. apply Hnin.
  apply list_elem_of_fmap in Hin as ([i2 v2] & Heq & Hin). simpl in Heq. subst i2.
  apply list_elem_of_omap in Hin as ([a2 v3] & Hin & Ha2).
  destruct (f a2) as [i3|] eqn:Hp2; [|done]. simpl in Ha2. injection Ha2 as -> ->.
  rewrite (Hinj a a2 i) by done. apply list_elem_of_fmap. by exists (a2, v2).
Qed.

(** The values in the keyring. *)
Definition accounts (k : gmap string string) : gmap string string :=
  list_to_map (omap (λ '(a, v), (λ id, (id, v)) <$> strip_prefix "token::" a) (map_to_list k)).

Lemma accounts_lookup k id : accounts k !! id = k !! account id.
Proof.
  unfold accounts. apply option_eq. intros v. rewrite <-elem_of_list_to_map.
  - rewrite list_elem_of_omap. split.
    + intros ([a v'] & Hin & Ha). destruct (strip_prefix "token::" a) as [id'|] eqn:Hp; [|done].
      simpl in Ha. injection Ha as -> ->. apply strip_prefix_some in Hp as ->.
      by apply elem_of_map_to_list in Hin.
    + intros Hv. exists (account id, v). split; [by apply elem_of_map_to_list|].
      unfold account. by rewrite strip_prefix_app.
  - apply NoDup_omap_keys; [|apply NoDup_fst_map_to_list].
    intros a a' id' ->%strip_prefix_some ->%strip_prefix_some. done.
Qed.

Lemma account_inj id id' : account id = account id' → id = id'.
Proof. apply app_inj_l. Qed.

(** The keyring answers the same way every time: it is disabled, or always reachable, or never.
    While it is reachable the file is not looked at. *)
Lemma default_store_laws_file :
  ValueStoreLaws (λ h, up (dh_file h)) (λ s, ds_keyring s = None ∧ sound (ds_file s))
    (λ s : DefaultStore, contents (ds_file s)).
Proof.
  split.
  - intros h id s Hh [Hk Hs]. simpl. unfold default_get, on_keyring. rewrite Hk.
    pose proof (vs_get_spec (dh_file h) id (ds_file s) Hh Hs) as Hl.
    destruct (vs_get _ _ _) as [f r]. destruct Hl as (? & ? & ?). done.
  - intros h id v s Hh [Hk Hs]. simpl. unfold default_set, on_keyring. rewrite Hk.
    pose proof (vs_set_spec (dh_file h) id v (ds_file s) Hh Hs) as Hl.
    destruct (vs_set _ _ _ _) as [f r]. destruct Hl as (? & ? & ?). done.
  - intros h id s Hh [Hk Hs]. simpl. unfold default_delete, on_keyring. rewrite Hk.
    pose proof (vs_delete_spec (dh_file h) id (ds_file s) Hh Hs) as Hl.
    destruct (vs_delete _ _ _) as [f r]. destruct Hl as (? & ? & ?). done.
Qed.

Lemma default_store_laws_down msg :
  ValueStoreLaws (λ h, dh_keyring h = Some msg ∧ up (dh_file h))
    (λ s : DefaultStore, is_Some (ds_keyring s) ∧ sound (ds_file s)) (λ s, contents (ds_file s)).
Proof.
  split.
  - intros h id s [Hd Hh] [[k Hk] Hs]. simpl. unfold default_get, on_keyring, keyring_get.
    rewrite Hk, Hd.
    pose proof (vs_get_spec (dh_file h) id (ds_file s) Hh Hs) as Hl.
    destruct (vs_get _ _ _) as [f r]. destruct Hl as (? & ? & ?). simpl. eauto.
  - intros h id v s [Hd Hh] [[k Hk] Hs]. simpl. unfold default_set, on_keyring, keyring_set.
    rewrite Hk, Hd.
    pose proof (vs_set_spec (dh_file h) id v (ds_file s) Hh Hs) as Hl.
    destruct (vs_set _ _ _ _) as [f r]. destruct Hl as (? & ? & ?). simpl. eauto.
  - intros h id s [Hd Hh] [[k Hk] Hs]. simpl. unfold default_delete, on_keyring, keyring_delete.
    rewrite Hk, Hd.
    pose proof (vs_delete_spec (dh_file h) id (ds_file s) Hh Hs) as Hl.
    destruct (vs_delete _ _ _) as [f r]. destruct Hl as (? & ? & ?). simpl. eauto.
Qed.

Lemma default_store_laws_up :
  ValueStoreLaws (λ h, dh_keyring h = None) (λ s : DefaultStore, is_Some (ds_keyring s))
    (λ s, accounts (default ∅ (ds_keyring s))).
Proof.
  split.
  - intros h id s Hd [k Hk]. simpl. unfold default_get, on_keyring, keyring_get.
    rewrite Hk, Hd. simpl. rewrite accounts_lookup. eauto.
  - intros h id v s Hd [k Hk]. simpl. unfold default_set, on_keyring, keyring_set.
    rewrite Hk, Hd. simpl. split; [eauto|]. split; [done|]. apply map_eq. intros id'.
    rewrite accounts_lookup. destruct (decide (id' = id)) as [->|Hne].
    + by rewrite !lookup_insert_eq.
    + rewrite !lookup_insert_ne, accounts_lookup; [done|congruence|].
      intros Heq%account_inj. congruence.
  - intros h id s Hd [k Hk]. simpl. unfold default_delete, on_keyring, keyring_delete.
    rewrite Hk, Hd. simpl. split; [eauto|]. split; [done|]. apply map_eq. intros id'.
    rewrite accounts_lookup. destruct (decide (id' = id)) as [->|Hne].
    + by rewrite !lookup_delete_eq.
    + rewrite !lookup_delete_ne, accounts_lookup; [done|congruence|].
      intros Heq%account_inj. congruence.
Qed.
End default_store.

(** ** The default store over the encrypted file *)

(** How the keyring answers, throughout. *)
Inductive KeyringMode := KrDisabled | KrDown (msg : string) | KrUp.

Section default_encrypted.
Context (from_json : string → result string (gmap string string))
  (to_json : gmap string string → string)
  (sha256 : string → string)
  (b64_encode : string → string) (b64_decode : string → result string string)
  (encrypt : string → string → string → result string string)
  (decrypt : string → string → string → option string).

#[local] Instance the_crypt_store : ValueStore CryptHost EncryptedStore :=
  encrypted_store from_json to_json sha256 b64_encode b64_decode encrypt decrypt.

Definition mode_host (pass : option string) (mode : KeyringMode) (h : DefaultHost (H:=CryptHost)) : Prop :=
  match mode with
  | KrDisabled => crypt_up pass (dh_file h)
  | KrDown msg => dh_keyring h = Some msg ∧ crypt_up pass (dh_file h)
  | KrUp => dh_keyring h = None
  end.

Definition mode_store (pass : option string) (mode : KeyringMode) (s : DefaultStore (S:=EncryptedStore)) : Prop :=
  let sound := crypt_sound to_json sha256 b64_decode decrypt pass (ds_file s) in
  match mode with
  | KrDisabled => ds_keyring s = None ∧ sound
  | KrDown _ => is_Some (ds_keyring s) ∧ sound
  | KrUp => is_Some (ds_keyring s)
  end.

Definition mode_contents (pass : option string) (mode : KeyringMode) (s : DefaultStore (S:=EncryptedStore))
    : gmap string string :=
  match mode with
  | KrUp => accounts (default ∅ (ds_keyring s))
  | _ => crypt_contents from_json sha256 b64_decode decrypt pass (ds_file s)
  end.

(** while the keyring answers the same way throughout (disabled, unreachable or reachable) and
    $PAWRLY_TOKEN_KEY does not change, any sequence of requests to the default value store is
    answered as a map of its contents would: each read finds the last value written under its name
    and none after a deletion, whichever backend and key the store falls through to, and without an
    error. *)
Theorem value_store_is_a_map pass mode ops s :
  (∀ m, from_json (to_json m) = Ok m) →
  (∀ p, String.length (sha256 p) = 32%nat) →
  (∀ k, b64_decode (trim (b64_encode k)) = Ok k) →
  (∀ k n p, String.length k = 32%nat → String.length n = 12%nat →
     ∃ c, encrypt k n p = Ok c ∧ decrypt k n c = Some p) →
  Forall (λ p, mode_host pass mode p.1) ops → mode_store pass mode s →
  store_run ops s = map Ok (map_run ops.*2 (mode_contents pass mode s)).
Proof.
  intros Hjson Hsha Hb64 Henc Hops Hs.
  pose proof (encrypted_store_laws from_json to_json sha256 b64_encode b64_decode encrypt decrypt
                Hjson Hsha Hb64 Henc pass) as Hlaws.
  destruct mode as [|msg|]; simpl in Hops, Hs.
  - by apply (store_refines _ _ _ (ValueStoreLaws0 := default_store_laws_file _ _ _)).
  - by apply (store_refines _ _ _ (ValueStoreLaws0 := default_store_laws_down _ _ _ msg)).
  - by apply (store_refines _ _ _ (ValueStoreLaws0 := default_store_laws_up)).
Qed.
End default_encrypted.

(** ** When the host changes its answers *)

(** A value set while the keyring is unreachable is in the file only: the keyring answers without
    it once it is back. *)
Lemma keyring_recovery_hides {H S} `{!ValueStore H S} msg h h' id v k (f : S) :
  (vs_set h id v f).2 = Ok () →
  let '(s, r) := default_set {| dh_keyring := Some msg; dh_file := h |} id v
                   {| ds_keyring := Some k; ds_file := f |} in
  r = Ok () ∧
  (default_get {| dh_keyring := None; dh_file := h' |} id s).2 = Ok (k !! account id).
Proof.
  unfold default_set, on_keyring. simpl. destruct (vs_set h id v f) as [f' r]. simpl. by intros ->.
Qed.

(** Reading once with $PAWRLY_TOKEN_KEY set replaces a generated key, also when nothing could be
    decrypted: what was stored under the generated key cannot be read any more, with or without the
    variable. *)
Lemma token_key_clobbers from_json sha256 b64_encode b64_decode decrypt p h1 h2 id s blob :
  (∀ p, String.length (sha256 p) = 32%nat) →
  (∀ k, b64_decode (trim (b64_encode k)) = Ok k) →
  crypt_up (Some p) h1 → p ≠ "" → crypt_up None h2 →
  ec_blob s = Some blob → (12 ≤ String.length blob)%nat →
  decrypt (sha256 p) (String.substring 0 12 blob)
    (String.substring 12 (String.length blob - 12) blob) = None →
  let get := crypt_get from_json sha256 b64_encode b64_decode decrypt in
  let lost := Err (TsCorrupt (ec_path s) "decryption failed (wrong key or tampered file)") in
  (get h1 id s).2 = lost ∧ (get h2 id (get h1 id s).1).2 = lost.
Proof.
  intros Hsha Hb64 [Hp1 _ _ Hr1 _ Hw1 _] Hp [Hp2 _ _ Hr2 Hk2 _ _] Hblob Hlen Hd.
  apply Nat.ltb_ge in Hlen.
  intros get lost.
  assert (get h1 id s = (with_key (Some (b64_encode (sha256 p))) s, lost)) as ->.
  { destruct p as [|c p]; [done|]. unfold get, lost, crypt_get, crypt_read_all, resolve_key.
    rewrite Hr1, Hblob, Hlen, Hp1. unfold write_and_return, write_key. rewrite Hw1.
    simpl rmap. cbn beta iota. rewrite Hd. done. }
  split; [done|]. unfold get, lost, crypt_get, crypt_read_all, resolve_key, read_key.
  rewrite Hr2. cbn [fst ec_blob ec_key with_key ec_path].
  rewrite Hblob, Hlen, Hp2, Hk2, Hb64, decide_True by done. by rewrite Hd.
Qed.

(** ** A concrete instance *)

Fixpoint bits (p : positive) : string :=
  match p with
  | xH => ""
  | xO p => String "0" (bits p)
  | xI p => String "1" (bits p)
  end.

Fixpoint unbits (s : string) : positive :=
  match s with
  | String c s => if decide (c = "0"%char) then xO (unbits s) else xI (unbits s)
  | "" => xH
  end.

Lemma unbits_bits p : unbits (bits p) = p.
Proof. induction p as [p IH|p IH|]; [| |done]; simpl; by rewrite IH. Qed.

Lemma trim_start_bits p : trim_start (bits p) = bits p.
Proof. destruct p as [p|p|]; [| |done]; destruct p as [[]|[]|]; done. Qed.

Lemma trim_bits p : trim (bits p) = bits p.
Proof.
  unfold trim. rewrite trim_start_bits. induction p as [p IH|p IH|]; [| |done];
    cbn [bits trim_end]; (rewrite decide_False; [by rewrite IH|]).
  - change (String "1" (bits p)) with (bits (xI p)). by rewrite trim_start_bits.
  - change (String "0" (bits p)) with (bits (xO p)). by rewrite trim_start_bits.
Qed.

Definition demo_from_json (s : string) : result string (gmap string string) :=
  match decode (unbits s) with Some m => Ok m | None => Err "not a map" end.
Definition demo_to_json (m : gmap string string) : string := bits (encode m).
Definition demo_sha (_ : string) : string := "0123456789abcdef0123456789abcdef".
Definition demo_b64 (k : string) : string := bits (encode k).
Definition demo_unb64 (s : string) : result string string :=
  match decode (unbits s) with Some k => Ok k | None => Err "not base64" end.
(** A ciphertext carries the key it was made with. *)
Definition demo_encrypt (k n p : string) : result string string := Ok (k +:+ p).
Definition demo_decrypt (k n c : string) : option string := strip_prefix k c.

Lemma demo_json m : demo_from_json (demo_to_json m) = Ok m.
Proof. unfold demo_from_json, demo_to_json. by rewrite unbits_bits, decode_encode. Qed.

Lemma demo_base64 k : demo_unb64 (trim (demo_b64 k)) = Ok k.
Proof. unfold demo_unb64, demo_b64. by rewrite trim_bits, unbits_bits, decode_encode. Qed.

Lemma demo_crypt k n p : ∃ c, demo_encrypt k n p = Ok c ∧ demo_decrypt k n c = Some p.
Proof. eexists. split; [done|]. apply strip_prefix_app. Qed.

Definition demo_host : DefaultHost (H:=CryptHost) := {|
  dh_keyring := Some "no dbus";
  dh_file := {| ch_pass := None; ch_random_key := "abcdefghijklmnopqrstuvwxyz012345";
                ch_nonce := "twelve bytes"; ch_read := None; ch_key_read := None;
                ch_key_write := None; ch_write := None |} |}.

Definition demo_store : DefaultStore (S:=EncryptedStore) :=
  {| ds_keyring := Some ∅; ds_file := {| ec_path := "tokens.enc"; ec_blob := None; ec_key := None |} |}.

Definition demo_ops : list (DefaultHost (H:=CryptHost) * StoreOp) :=
  map (λ op, (demo_host, op))
    [OpSet "a::T" "rt-1"; OpGet "a::T"; OpSet "a::T" "rt-2"; OpGet "a::T"; OpDelete "a::T"; OpGet "a::T"].

Lemma value_store_is_a_map_witness :
  let M := encrypted_store demo_from_json demo_to_json demo_sha demo_b64 demo_unb64
             demo_encrypt demo_decrypt in
  @store_run _ _ (@default_store _ _ M) demo_ops demo_store =
    map Ok [None; Some "rt-1"; None; Some "rt-2"; None; None].
Proof.
  intros M. unfold M.
  refine (eq_trans (value_store_is_a_map demo_from_json demo_to_json demo_sha demo_b64 demo_unb64
             demo_encrypt demo_decrypt None (KrDown "no dbus") demo_ops demo_store _ _ _ _ _ _) _).
  - exact demo_json.
  - reflexivity.
  - exact demo_base64.
  - intros k n p _ _. apply demo_crypt.
  - repeat constructor.
  - split; [by eexists|]. split; [by left|]. done.
  - vm_compute. reflexivity.
Defined.
