(* ===== verification/Prog.v ===== *)
(** * Programs over effects
    A computation that asks its surroundings: a tree of operations and of what it does with
    their answers. It can be run against a handler ([exec]), reasoned about by weakest
    preconditions against a specification of the operations ([wp]), or stepped, so that many
    of them interleave ([next]). *)

From S2P Require Export Prelude.

(** The operations, and the type of the answer to each. *)
Class Signature := { Op : Type; Ans : Op → Type }.

Section prog.
Context `{!Signature}.

(** [Crash]: a panic; nothing after it runs. *)
Inductive prog (A : Type) :=
| Ret (a : A)
| Crash (msg : string)
| Do (op : Op) (k : Ans op → prog A).
#[global] Arguments Ret {A} a.
#[global] Arguments Crash {A} msg.
#[global] Arguments Do {A} op k.

Fixpoint pbind {A B} (m : prog A) (f : A → prog B) : prog B :=
  match m with
  | Ret a => f a
  | Crash msg => Crash msg
  | Do op k => Do op (λ a, pbind (k a) f)
  end.

Definition call (op : Op) : prog (Ans op) := Do op Ret.

(** [?] inside a program. *)
Definition ptry {E A B} (m : prog (result E A)) (f : A → prog (result E B)) : prog (result E B) :=
  pbind m (λ r, match r with Ok a => f a | Err e => Ret (Err e) end).

(** ** Running *)

Fixpoint exec {W A} (handle : ∀ op, W → Ans op * W) (p : prog A) (w : W) : result string A * W :=
  match p with
  | Ret a => (Ok a, w)
  | Crash msg => (Err msg, w)
  | Do op k => let '(a, w) := handle op w in exec handle (k a) w
  end.

(** ** Weakest preconditions *)

(** What operations may be asked in a state, and what must then hold for every answer. *)
Definition Spec (S : Type) : Type := ∀ op, S → (Ans op → S → Prop) → Prop.

Definition monotone {S} (spec : Spec S) : Prop :=
  ∀ op s (Q Q' : Ans op → S → Prop), (∀ a s, Q a s → Q' a s) → spec op s Q → spec op s Q'.

(** [C] holds at a crash, of its message and the state. *)
Fixpoint wp {S A} (spec : Spec S) (C : string → S → Prop) (p : prog A) (s : S) (Q : A → S → Prop) : Prop :=
  match p with
  | Ret a => Q a s
  | Crash msg => C msg s
  | Do op k => spec op s (λ a s, wp spec C (k a) s Q)
  end.

Section facts.
Context {S : Type} (spec : Spec S) (C : string → S → Prop) (Hmono : monotone spec).

Lemma wp_mono {A} (p : prog A) s (Q Q' : A → S → Prop) :
  (∀ a s, Q a s → Q' a s) → wp spec C p s Q → wp spec C p s Q'.
Proof.
  intros HQ. revert s. induction p as [a|msg|op k IH]; intros s; simpl; [auto|auto|].
  apply Hmono. intros a s'. apply IH.
Qed.

Lemma wp_bind {A B} (m : prog A) (f : A → prog B) s Q :
  wp spec C m s (λ a s, wp spec C (f a) s Q) → wp spec C (pbind m f) s Q.
Proof.
  revert s. induction m as [a|msg|op k IH]; intros s; simpl; [auto|auto|].
  apply Hmono. intros a s'. apply IH.
Qed.

Lemma wp_try {E A B} (m : prog (result E A)) (f : A → prog (result E B)) s Q :
  wp spec C m s (λ r s, match r with Ok a => wp spec C (f a) s Q | Err e => Q (Err e) s end) →
  wp spec C (ptry m f) s Q.
Proof.
  intros Hm. apply wp_bind. eapply wp_mono; [|exact Hm]. by intros [a|e] s'.
Qed.

(** A handler that keeps to the specification. *)
Lemma wp_exec {A} (handle : ∀ op, S → Ans op * S) (p : prog A) s Q :
  (∀ op s (P : Ans op → S → Prop), spec op s P → let '(a, s) := handle op s in P a s) →
  wp spec C p s Q →
  match exec handle p s with (Ok a, s) => Q a s | (Err msg, s) => C msg s end.
Proof.
  intros Hh. revert s. induction p as [a|msg|op k IH]; intros s; simpl; [auto|auto|].
  intros Hs%Hh. destruct (handle op s) as [a s']. by apply IH.
Qed.
End facts.

(** ** All runs *)

(** An operation with its answer. *)
Definition Event : Type := {op : Op & Ans op}.

(** Every answer is possible; the state is what has happened so far. *)
Definition all_answers : Spec (list Event) := λ op h Q, ∀ a, Q a (h ++ [existT op a]).

Lemma all_answers_mono : monotone all_answers.
Proof. intros op s Q Q' HQ Hs a. apply HQ, Hs. Qed.

(** [Q] holds of the outcome of every run, a crash included, and of its events. *)
Definition always {A} (p : prog A) (h : list Event) (Q : result string A → list Event → Prop) : Prop :=
  wp all_answers (λ msg, Q (Err msg)) p h (λ a, Q (Ok a)).

Lemma always_mono {A} (p : prog A) h (Q Q' : result string A → list Event → Prop) :
  (∀ r h, Q r h → Q' r h) → always p h Q → always p h Q'.
Proof.
  intros HQ. unfold always. revert h. induction p as [a|msg|op k IH]; intros h; simpl; [apply HQ..|].
  intros Hk a. apply IH, Hk.
Qed.

Lemma always_bind {A B} (m : prog A) (f : A → prog B) h Q :
  always m h (λ r h, match r with Ok a => always (f a) h Q | Err msg => Q (Err msg) h end) →
  always (pbind m f) h Q.
Proof. unfold always. intros Hm. by apply wp_bind; [apply all_answers_mono|]. Qed.

Lemma always_try {E A B} (m : prog (result E A)) (f : A → prog (result E B)) h Q :
  always m h (λ r h, match r with
                     | Ok (Ok a) => always (f a) h Q
                     | Ok (Err e) => Q (Ok (Err e)) h
                     | Err msg => Q (Err msg) h
                     end) →
  always (ptry m f) h Q.
Proof.
  intros Hm. apply always_bind. eapply always_mono; [|exact Hm]. by intros [[a|e]|msg] h'.
Qed.

Lemma always_ret {A} (a : A) h (Q : result string A → list Event → Prop) :
  Q (Ok a) h → always (Ret a) h Q.
Proof. done. Qed.

Lemma always_crash {A} msg h (Q : result string A → list Event → Prop) :
  Q (Err msg) h → always (Crash msg) h Q.
Proof. done. Qed.

Lemma always_do {A} op (k : Ans op → prog A) h Q :
  (∀ a, always (k a) (h ++ [existT op a]) Q) → always (Do op k) h Q.
Proof. done. Qed.

Lemma always_and {A} (p : prog A) h (Q Q' : result string A → list Event → Prop) :
  always p h Q → always p h Q' → always p h (λ r h, Q r h ∧ Q' r h).
Proof.
  unfold always. revert h. induction p as [a|msg|op k IH]; intros h; [done..|].
  intros H1 H2.
  apply (always_do op k h (λ r h, Q r h ∧ Q' r h)). intros a. exact (IH a _ (H1 a) (H2 a)).
Qed.

Lemma always_grows {A} (p : prog A) h : always p h (λ _ h', h ⊆ h').
Proof.
  revert h. induction p as [a|msg|op k IH]; intros h; [by unfold always; simpl..|].
  apply (always_do op k h (λ _ h', h ⊆ h')). intros a.
  eapply always_mono; [|exact (IH a _)]. intros r h' Hs. set_solver.
Qed.

(** Programs that never ask for some operations. *)
Fixpoint never {A} (P : Op → Prop) (p : prog A) : Prop :=
  match p with
  | Do op k => ¬ P op ∧ ∀ a, never P (k a)
  | _ => True
  end.

Lemma never_bind {A B} P (m : prog A) (f : A → prog B) :
  never P m → (∀ a, never P (f a)) → never P (pbind m f).
Proof. induction m as [a|msg|op k IH]; simpl; [auto|auto|]. intros [Hop Hk] Hf. auto. Qed.

Lemma never_try {E A B} P (m : prog (result E A)) (f : A → prog (result E B)) :
  never P m → (∀ a, never P (f a)) → never P (ptry m f).
Proof. intros Hm Hf. apply never_bind; [done|]. intros [a|e]; [apply Hf|done]. Qed.

Lemma always_never {A} P (p : prog A) h :
  never P p → always p h (λ _ h', ∀ e, e ∈ h' → P (projT1 e) → e ∈ h).
Proof.
  revert h. induction p as [a|msg|op k IH]; intros h; [by intros _ e ? ?..|]. intros [Hop Hk].
  apply (always_do op k h (λ _ h', ∀ e, e ∈ h' → P (projT1 e) → e ∈ h)). intros a.
  eapply always_mono; [|exact (IH a _ (Hk a))]. intros r h' Hh e He HP.
  specialize (Hh e He HP). apply elem_of_app in Hh as [?|Hh]; [done|].
  apply list_elem_of_singleton in Hh as ->. done.
Qed.

(** Programs whose every operation satisfies [P]. *)
Fixpoint asks {A} (P : Op → Prop) (p : prog A) : Prop :=
  match p with
  | Do op k => P op ∧ ∀ a, asks P (k a)
  | _ => True
  end.

Lemma asks_bind {A B} P (m : prog A) (f : A → prog B) :
  asks P m → (∀ a, asks P (f a)) → asks P (pbind m f).
Proof. induction m as [a|msg|op k IH]; simpl; [auto|auto|]. intros [Hop Hk] Hf. auto. Qed.

Lemma asks_try {E A B} P (m : prog (result E A)) (f : A → prog (result E B)) :
  asks P m → (∀ a, asks P (f a)) → asks P (ptry m f).
Proof. intros Hm Hf. apply asks_bind; [done|]. intros [a|e]; [apply Hf|done]. Qed.

Lemma always_asks {A} P (p : prog A) h :
  asks P p → always p h (λ _ h', ∀ e, e ∈ h' → e ∈ h ∨ P (projT1 e)).
Proof.
  revert h. induction p as [a|msg|op k IH]; intros h; [by intros _ e ?; left..|]. intros [Hop Hk].
  apply (always_do op k h (λ _ h', ∀ e, e ∈ h' → e ∈ h ∨ P (projT1 e))). intros a.
  eapply always_mono; [|exact (IH a _ (Hk a))]. intros r h' Hh e He.
  destruct (Hh e He) as [Ha|]; [|by right]. apply elem_of_app in Ha as [?|Ha]; [by left|].
  apply list_elem_of_singleton in Ha as ->. by right.
Qed.

(** A run against any handler is one of them. *)
Fixpoint events {W A} (handle : ∀ op, W → Ans op * W) (p : prog A) (w : W) : list Event :=
  match p with
  | Do op k => let '(a, w) := handle op w in existT op a :: events handle (k a) w
  | _ => []
  end.

Lemma always_exec {W A} (handle : ∀ op, W → Ans op * W) (p : prog A) w h Q :
  always p h Q → Q (exec handle p w).1 (h ++ events handle p w).
Proof.
  revert w h. induction p as [a|msg|op k IH]; intros w h Hp; simpl.
  - by rewrite app_nil_r.
  - by rewrite app_nil_r.
  - destruct (handle op w) as [a w']. specialize (IH a w' _ (Hp a)). by rewrite <-app_assoc in IH.
Qed.
End prog.

Declare Scope prog_scope.
Delimit Scope prog_scope with prog.
Notation "'do' x <- m ; k" := (pbind m (λ x, k))
  (at level 200, x name, m at level 100, k at level 200) : prog_scope.
Notation "'do' ' p <- m ; k" := (pbind m (λ x, let p := x in k))
  (at level 200, p strict pattern, m at level 100, k at level 200) : prog_scope.
Notation "'do?' x <- m ; k" := (ptry m (λ x, k))
  (at level 200, x name, m at level 100, k at level 200) : prog_scope.
