(* ===== verification/OAuth.v ===== *)
(** * OAuth values of variables ([crates/pawrly-secrets/src/variables/mod.rs], [discovery.rs])
    How a dynamic variable gets its current token: cached, or minted by an exchange with the
    token endpoint, which may have to be discovered first. *)

From S2P Require Export Prog Tokens Validate.

Open Scope prog_scope.

Inductive VarError :=
| Unknown (id : string)
| NotConnected (id : string)
| Request (msg : string)
| Status (status : N)
| OAuthError (status : N) (error : string)
| Response (msg : string)
| DeviceFlow (msg : string)
| Persist (msg : string).

Definition TokenStoreError_display (e : TokenStoreError) : string :=
  match e with
  | TsIo path msg => "variable value store io at `" +:+ path +:+ "`: " +:+ msg
  | TsCorrupt path msg => "variable value store at `" +:+ path +:+ "` is corrupt: " +:+ msg
  | TsKeyring msg => "variable value store keyring: " +:+ msg
  end.

(** ** The specification of a variable ([pawrly-core/src/variables.rs]) *)

Definition spec_client_id (s : DynamicVarSpec) : string :=
  match s with
  | ClientCredentials _ id _ _ _ _ | DeviceCode _ id _ _ | AuthorizationCode _ id _ _ _ _ _ _ => id
  end.

Definition spec_client_secret (s : DynamicVarSpec) : option string :=
  match s with
  | ClientCredentials _ _ secret _ _ _ => Some secret
  | DeviceCode _ _ secret _ | AuthorizationCode _ _ secret _ _ _ _ _ => secret
  end.

Definition spec_transport (s : DynamicVarSpec) : TokenTransport :=
  match s with
  | ClientCredentials _ _ _ _ _ t | AuthorizationCode _ _ _ _ _ _ _ t => t
  | DeviceCode _ _ _ _ => RequestBody
  end.

Definition spec_scope (s : DynamicVarSpec) : option string :=
  match s with
  | ClientCredentials _ _ _ scope _ _ | DeviceCode _ _ _ scope
  | AuthorizationCode _ _ _ _ _ _ scope _ => scope
  end.

(** ** Effects *)

(** Times are nanoseconds since the Unix epoch. *)
Record CachedToken := { tk_token : string; tk_expires_at : N }.

(** A POST: the URL, the form, and the credentials of a Basic header. *)
Record FormPost := {
  fp_url : string;
  fp_form : list (string * string);
  fp_basic : option (string * option string)
}.

(** A transport error, or a status with the body as JSON or the error of reading it as JSON. *)
Definition Reply : Type := result string (N * result string Json).

Record DevicePrompt := {
  dp_user_code : string;
  dp_verification_uri : string;
  dp_verification_uri_complete : option string;
  dp_expires_in : N
}.

Inductive OAuthOp :=
(* the cell of a variable: its lock and its content *)
| LockCell (id : string)
| UnlockCell (id : string)
| ReadCell (id : string)
| WriteCell (id : string) (t : CachedToken)
(* the clock, the network, the value store, the discovery cache *)
| Now
| HttpGet (url : string)
| HttpPost (rq : FormPost)
| TokenGet (id : string)
| TokenSet (id v : string)
| ReadFile (path : string)
| WriteFile (path text : string)
(* interactive setup *)
| MonotonicNow
| Sleep (ns : N)
| ShowPrompt (p : DevicePrompt)
| ShowUrl (url : string)
| RandomBytes (n : nat)
| BindLoopback (port : N)
| Accept
| Respond (status message : string).

Definition OAuthAns (op : OAuthOp) : Type :=
  match op with
  | ReadCell _ => option CachedToken
  | Now | MonotonicNow => N
  | HttpGet _ | HttpPost _ => Reply
  | TokenGet _ => result TokenStoreError (option string)
  | TokenSet _ _ => result TokenStoreError ()
  | ReadFile _ => option string
  | RandomBytes _ => string
  | BindLoopback _ => result string (result string N)
  | Accept => result string (result string string)
  | _ => ()
  end.

#[export] Instance oauth_signature : Signature := {| Op := OAuthOp; Ans := OAuthAns |}.

(** The call of an operation, at the type of its answer. *)
Definition ask (op : OAuthOp) : prog (OAuthAns op) := Do (op : Op) Ret.

Definition ns_per_s : N := 1000000000.

(** [time + Duration::from_secs(secs)]: seconds are kept as an [i64]. *)
Definition add_secs (t secs : N) : prog N :=
  if (t / ns_per_s + secs <=? Z.to_N i64_max)%N then Ret (t + secs * ns_per_s)%N
  else Crash "overflow when adding duration to instant".

(** [StatusCode::is_success]. *)
Definition success (status : N) : bool := (200 <=? status)%N && (status <? 300)%N.

(** What is not code of the repository: [url], [serde_json], SHA-256, URL-safe base64. *)
Class OAuthLibs := {
  url_parse : string → result string Url;
  url_path : Url → string;
  (* the URL with pairs appended to its query *)
  url_with_pairs : Url → list (string * string) → string;
  query_pairs : string → list (string * string);
  json_parse : string → option Json;
  json_text : Json → string;
  sha256 : string → string;
  b64url : string → string
}.

Section oauth.
Context `{!OAuthLibs}.

(** ** Discovery *)

Definition TTL_SECS : N := 24 * 60 * 60.

(** [ResolvedEndpoints]. *)
Record ResolvedEndpoints := {
  re_authorization_url : option string;
  re_device_authorization_url : option string;
  re_token_url : string
}.

Definition url_allowed (url : string) : bool :=
  match url_parse url with
  | Err _ => false
  | Ok u => if decide (u_scheme u = "https") then true
            else if decide (u_scheme u = "http") then is_loopback u
            else false
  end.

Definition cache_path (dir url : string) : string :=
  path_join (path_join dir "oidc") (b64url (sha256 url) +:+ ".json").

Definition now_secs : prog N := do t <- ask Now; Ret (t / ns_per_s)%N.

Definition read_cache (dir url : string) : prog (option Json) :=
  do raw <- ask (ReadFile (cache_path dir url));
  match (wrapped ← raw ≫= json_parse; at_ ← get wrapped "fetched_at" ≫= as_u64; Some (wrapped, at_)) with
  | None => Ret None
  | Some (wrapped, fetched_at) =>
      do t <- now_secs;
      Ret (if (t - fetched_at <=? TTL_SECS)%N then get wrapped "doc" else None)
  end.

Definition write_cache (dir url : string) (doc : Json) : prog () :=
  do t <- now_secs;
  ask (WriteFile (cache_path dir url)
         (json_text (JObject [("doc", doc); ("fetched_at", JNumber (PosInt t))]))).

Definition fetch (url : string) (cache_dir : option string) : prog (result VarError Json) :=
  do cached <- match cache_dir with Some dir => read_cache dir url | None => Ret None end;
  match cached with
  | Some doc => Ret (Ok doc)
  | None =>
      if negb (url_allowed url) then
        Ret (Err (Response "`endpoints.discovery` must be https (or http to a loopback host)"))
      else
        do reply <- ask (HttpGet url);
        match reply with
        | Err e => Ret (Err (Request e))
        | Ok (status, body) =>
            if negb (success status) then
              Ret (Err (Response ("discovery `" +:+ url +:+ "` returned HTTP " +:+ show_N status)))
            else
              match body with
              | Err e => Ret (Err (Response ("discovery document is not JSON: " +:+ e)))
              | Ok doc =>
                  do _ <- match cache_dir with Some dir => write_cache dir url doc | None => Ret () end;
                  Ret (Ok doc)
              end
        end
  end.

(** An explicit endpoint wins over the discovered one. *)
Definition or_from (explicit : option string) (doc : Json) (key : string) : option string :=
  match explicit with Some u => Some u | None => get doc key ≫= as_str end.

Definition require_token_url (auth device token : option string) : result VarError ResolvedEndpoints :=
  match token with
  | None => Err (Response ("no token endpoint (discovery document has no `token_endpoint` and no "
                           +:+ "explicit `token_url` was given)"))
  | Some url => Ok {| re_authorization_url := auth; re_device_authorization_url := device;
                      re_token_url := url |}
  end.

(** [discovery::resolve]. *)
Definition resolve_endpoints (e : Endpoints) (cache_dir : option string)
    : prog (result VarError ResolvedEndpoints) :=
  match ep_discovery e with
  | None => Ret (require_token_url (ep_authorization_url e) (ep_device_authorization_url e)
                   (ep_token_url e))
  | Some discovery =>
      do? doc <- fetch discovery cache_dir;
      Ret (require_token_url
             (or_from (ep_authorization_url e) doc "authorization_endpoint")
             (or_from (ep_device_authorization_url e) doc "device_authorization_endpoint")
             (or_from (ep_token_url e) doc "token_endpoint"))
  end.

(** ** The exchange *)

Definition DEFAULT_LIFETIME_SECS : N := 300.

Record TokenResponse := {
  tr_access_token : string;
  tr_expires_in : N;
  tr_refresh_token : option string
}.

(** [TokenResponse::parse]. *)
Definition parse_token (body : Json) : result VarError TokenResponse :=
  match get body "access_token" ≫= as_str with
  | None => Err (Response "missing `access_token`")
  | Some token =>
      Ok {| tr_access_token := token;
            tr_expires_in := default DEFAULT_LIFETIME_SECS (get body "expires_in" ≫= as_u64);
            tr_refresh_token := get body "refresh_token" ≫= as_str |}
  end.

Definition into_cached (r : TokenResponse) : prog CachedToken :=
  do t <- ask Now;
  do expires_at <- add_secs t (tr_expires_in r);
  Ret {| tk_token := tr_access_token r; tk_expires_at := expires_at |}.

Definition oauth_error (status : N) (body : Json) : VarError :=
  match get body "error" ≫= as_str with
  | Some error => OAuthError status error
  | None => Status status
  end.

(** The request of [post_form]. *)
Definition token_form (spec : DynamicVarSpec) (url : string) (extra : list (string * string))
    : FormPost :=
  match spec_transport spec with
  | BasicAuth =>
      match spec_client_secret spec with
      | Some secret => {| fp_url := url; fp_form := extra;
                          fp_basic := Some (spec_client_id spec, Some secret) |}
      | None => {| fp_url := url; fp_form := extra ++ [("client_id", spec_client_id spec)];
                   fp_basic := None |}
      end
  | RequestBody =>
      {| fp_url := url;
         fp_form := extra ++ [("client_id", spec_client_id spec)]
                    ++ match spec_client_secret spec with
                       | Some secret => [("client_secret", secret)]
                       | None => []
                       end;
         fp_basic := None |}
  end.

Definition post_form (spec : DynamicVarSpec) (url : string) (extra : list (string * string))
    : prog (result VarError (N * Json)) :=
  do reply <- ask (HttpPost (token_form spec url extra));
  Ret match reply with
      | Err e => Err (Request e)
      | Ok (status, body) => Ok (status, match body with Ok b => b | Err _ => JNull end)
      end.

Definition post_token (spec : DynamicVarSpec) (url : string) (extra : list (string * string))
    : prog (result VarError TokenResponse) :=
  do? sb <- post_form spec url extra;
  let '(status, body) := sb in
  Ret (if negb (success status) then Err (oauth_error status body) else parse_token body).

Definition persist {A} (r : result TokenStoreError A) : result VarError A :=
  map_err (λ e, Persist (TokenStoreError_display e)) r.

(** [RuntimeVariableStore]'s specifications and cache directory. *)
Record VariableStore := { vs_specs : gmap string DynamicVarSpec; vs_cache_dir : option string }.

Definition client_form (scope audience : option string) : list (string * string) :=
  [("grant_type", "client_credentials")]
  ++ match scope with Some s => [("scope", s)] | None => [] end
  ++ match audience with Some a => [("audience", a)] | None => [] end.

Definition refresh_form (refresh : string) : list (string * string) :=
  [("grant_type", "refresh_token"); ("refresh_token", refresh)].

(** The refresh of an interactive grant: a rotated token is persisted before anything else. *)
Definition refresh_exchange (id : string) (spec : DynamicVarSpec) (url : string)
    : prog (result VarError CachedToken) :=
  do found <- ask (TokenGet id);
  match persist found with
  | Err e => Ret (Err e)
  | Ok None => Ret (Err (NotConnected id))
  | Ok (Some refresh) =>
      do? resp <- post_token spec url (refresh_form refresh);
      do? _ <- match tr_refresh_token resp with
               | Some new_rt => if decide (new_rt = refresh) then Ret (Ok ())
                                else do r <- ask (TokenSet id new_rt); Ret (persist r)
               | None => Ret (Ok ())
               end;
      do cached <- into_cached resp; Ret (Ok cached)
  end.

Definition mint (st : VariableStore) (id : string) (spec : DynamicVarSpec)
    : prog (result VarError CachedToken) :=
  do? endpoints <- resolve_endpoints (spec_endpoints spec) (vs_cache_dir st);
  match spec with
  | ClientCredentials _ _ _ scope audience _ =>
      do? resp <- post_token spec (re_token_url endpoints) (client_form scope audience);
      do cached <- into_cached resp; Ret (Ok cached)
  | _ => refresh_exchange id spec (re_token_url endpoints)
  end.

Definition EXPIRY_SKEW : N := 30.

Definition is_fresh (c : option CachedToken) (fresh_until : N) : option string :=
  c ← c; if (fresh_until <? tk_expires_at c)%N then Some (tk_token c) else None.

(** [resolve]; the guard of the cell is released when it goes out of scope. *)
Definition resolve (st : VariableStore) (id : string) : prog (result VarError string) :=
  match vs_specs st !! id with
  | None => Ret (Err (Unknown id))
  | Some spec =>
      do _ <- ask (LockCell id);
      do t <- ask Now;
      do fresh_until <- add_secs t EXPIRY_SKEW;
      do cached <- ask (ReadCell id);
      match is_fresh cached fresh_until with
      | Some token => do _ <- ask (UnlockCell id); Ret (Ok token)
      | None =>
          do minted <- mint st id spec;
          match minted with
          | Err e => do _ <- ask (UnlockCell id); Ret (Err e)
          | Ok c =>
              do _ <- ask (WriteCell id c);
              do _ <- ask (UnlockCell id);
              Ret (Ok (tk_token c))
          end
      end
  end.
End oauth.
