(* ===== verification/OAuthRace.v ===== *)
(** * Concurrent resolutions of OAuth variables
    Any number of tasks resolve variables at the same time, in one or several stores that share
    the persisted refresh tokens, against an authorization server that rotates them. Tasks may
    be dropped, replies lost, and the token store may fail. The lock of a cell makes the tasks
    of a store share one exchange; while no rotation has been lost, none presents a token
    twice. *)

From S2P Require Export OAuth.

(** ** Tasks, the stores and the server *)

Record Task := {
  ta_store : nat;
  ta_id : string;
  ta_prog : prog (result VarError string);
  (* its request is on the way *)
  ta_sent : bool
}.

(** The clock; the cells of each store with their locks, held by tasks; the persisted refresh
    tokens; the token the server would accept for each variable; the variables of which a
    rotation may have been lost. *)
Record Conf := {
  cf_time : N;
  cf_cells : gmap (nat * string) CachedToken;
  cf_locks : gmap (nat * string) nat;
  cf_tokens : gmap string string;
  cf_current : gmap string string;
  cf_spoilt : gset string;
  cf_tasks : gmap nat Task
}.

Definition set_time (x : N) (c : Conf) : Conf :=
  {| cf_time := x; cf_cells := cf_cells c; cf_locks := cf_locks c; cf_tokens := cf_tokens c;
     cf_current := cf_current c; cf_spoilt := cf_spoilt c; cf_tasks := cf_tasks c |}.
Definition set_cells (x : gmap (nat * string) CachedToken) (c : Conf) : Conf :=
  {| cf_time := cf_time c; cf_cells := x; cf_locks := cf_locks c; cf_tokens := cf_tokens c;
     cf_current := cf_current c; cf_spoilt := cf_spoilt c; cf_tasks := cf_tasks c |}.
Definition set_locks (x : gmap (nat * string) nat) (c : Conf) : Conf :=
  {| cf_time := cf_time c; cf_cells := cf_cells c; cf_locks := x; cf_tokens := cf_tokens c;
     cf_current := cf_current c; cf_spoilt := cf_spoilt c; cf_tasks := cf_tasks c |}.
Definition set_tokens (x : gmap string string) (c : Conf) : Conf :=
  {| cf_time := cf_time c; cf_cells := cf_cells c; cf_locks := cf_locks c; cf_tokens := x;
     cf_current := cf_current c; cf_spoilt := cf_spoilt c; cf_tasks := cf_tasks c |}.
Definition set_current (x : gmap string string) (c : Conf) : Conf :=
  {| cf_time := cf_time c; cf_cells := cf_cells c; cf_locks := cf_locks c; cf_tokens := cf_tokens c;
     cf_current := x; cf_spoilt := cf_spoilt c; cf_tasks := cf_tasks c |}.
Definition set_spoilt (x : gset string) (c : Conf) : Conf :=
  {| cf_time := cf_time c; cf_cells := cf_cells c; cf_locks := cf_locks c; cf_tokens := cf_tokens c;
     cf_current := cf_current c; cf_spoilt := x; cf_tasks := cf_tasks c |}.
Definition set_tasks (x : gmap nat Task) (c : Conf) : Conf :=
  {| cf_time := cf_time c; cf_cells := cf_cells c; cf_locks := cf_locks c; cf_tokens := cf_tokens c;
     cf_current := cf_current c; cf_spoilt := cf_spoilt c; cf_tasks := x |}.

(** From here on, what is persisted for the variable need not be what the server accepts. *)
Definition spoil (id : string) (c : Conf) : Conf := set_spoilt ({[id]} ∪ cf_spoilt c) c.

(** *** The server *)

Fixpoint form_get (key : string) (form : list (string * string)) : option string :=
  match form with
  | [] => None
  | (k, v) :: form => if decide (k = key) then Some v else form_get key form
  end.

(** The refresh token a request presents. *)
Definition presented (rq : FormPost) : option string := form_get "refresh_token" (fp_form rq).

(** The refresh token of a reply that grants an access token. *)
Definition granted (reply : Reply) : option string :=
  match reply with
  | Ok (status, Ok body) =>
      if success status then
        match get body "access_token" ≫= as_str with
        | Some _ => get body "refresh_token" ≫= as_str
        | None => None
        end
      else None
  | _ => None
  end.

(** The token that is current after a reply: a new one replaces the old. *)
Definition rotated (reply : Reply) (current : option string) : option string :=
  match granted reply with Some t => Some t | None => current end.

Definition refused (reply : Reply) : Prop :=
  match reply with Ok (status, _) => success status = false | Err _ => True end.

(** A request for a variable is answered in any way, except that a refresh token which is not the
    current one is refused. *)
Definition served (id : string) (rq : FormPost) (reply : Reply) (cur cur' : gmap string string) : Prop :=
  match presented rq with
  | None => cur' = cur
  | Some rt =>
      if decide (cur !! id = Some rt) then cur' = partial_alter (rotated reply) id cur
      else refused reply ∧ cur' = cur
  end.

(** *** Steps *)

(** No task, in any store, is at the variable. *)
Definition at_rest (id : string) (locks : gmap (nat * string) nat) : Prop :=
  map_Forall (λ k _, k.2 ≠ id) locks.

#[export] Instance at_rest_dec id locks : Decision (at_rest id locks).
Proof. unfold at_rest. apply _. Defined.

(** What a store answers at once to a task [tid] of it. The persisted tokens are shared: two
    stores at one variable spoil it, as does a token store that forgets a token or fails to
    take one. *)
Definition local (tid s : nat) (op : OAuthOp) (c : Conf) : OAuthAns op → Conf → Prop :=
  match op return OAuthAns op → Conf → Prop with
  | LockCell id => λ _ c', cf_locks c !! (s, id) = None ∧
      c' = (if decide (at_rest id (cf_locks c)) then λ c, c else spoil id)
             (set_locks (<[(s, id) := tid]> (cf_locks c)) c)
  | UnlockCell id => λ _ c', c' = set_locks (delete (s, id) (cf_locks c)) c
  | ReadCell id => λ a c', a = cf_cells c !! (s, id) ∧ c' = c
  | WriteCell id t => λ _ c', c' = set_cells (<[(s, id) := t]> (cf_cells c)) c
  | Now => λ a c', a = cf_time c ∧ c' = c
  | TokenGet id => λ a c',
      (a = Ok (cf_tokens c !! id) ∨ ∃ e, a = Err e) ∧ c' = c ∨
      (∃ x, a = Ok x) ∧ c' = spoil id c
  | TokenSet id v => λ a c',
      a = Ok () ∧ c' = set_tokens (<[id := v]> (cf_tokens c)) c ∨
      (∃ e, a = Err e) ∧ ∃ x, c' = spoil id (set_tokens (partial_alter (λ _, x) id (cf_tokens c)) c)
  | HttpGet _ | ReadFile _ | WriteFile _ _ => λ _ c', c' = c
  | _ => λ _ _, False
  end.

(** Where the future of a resolution can be dropped: it waits. *)
Definition awaits (op : OAuthOp) : bool :=
  match op with
  | LockCell _ | HttpGet _ | HttpPost _ => true
  | _ => false
  end.

Section race.
Context `{!OAuthLibs} (st : VariableStore).

Definition with_task (tid : nat) (ta : Task) (c : Conf) : Conf := set_tasks (<[tid := ta]> (cf_tasks c)) c.

Definition continue (ta : Task) (p : prog (result VarError string)) : Task :=
  {| ta_store := ta_store ta; ta_id := ta_id ta; ta_prog := p; ta_sent := false |}.

Definition send (ta : Task) : Task :=
  {| ta_store := ta_store ta; ta_id := ta_id ta; ta_prog := ta_prog ta; ta_sent := true |}.

(** The locks a task that panics or is dropped gives up. *)
Definition released (tid : nat) (locks : gmap (nat * string) nat) : gmap (nat * string) nat :=
  filter (λ p, p.2 ≠ tid) locks.

Definition gone (tid : nat) (c : Conf) : Conf :=
  set_tasks (delete tid (cf_tasks c)) (set_locks (released tid (cf_locks c)) c).

(** The server accepts another token, or none, and nobody learns of it. *)
Definition lost (id : string) (x : option string) (c : Conf) : Conf :=
  spoil id (set_current (partial_alter (λ _, x) id (cf_current c)) c).

(** A task starts, time passes, or a task is answered by the store, sends a request, is answered
    by the server - truthfully, or not -, returns, panics, or is dropped, before or after the
    server has served a request of it that is on the way. The steps of a task carry its
    number. *)
Inductive step (c : Conf) : option nat → Conf → Prop :=
| step_start tid s id :
    cf_tasks c !! tid = None →
    step c None (with_task tid {| ta_store := s; ta_id := id; ta_prog := resolve st id;
                                  ta_sent := false |} c)
| step_tick t : (cf_time c ≤ t)%N → step c None (set_time t c)
| step_local tid ta op k a c' :
    cf_tasks c !! tid = Some ta → ta_prog ta = Do (op : Op) k → local tid (ta_store ta) op c a c' →
    step c (Some tid) (with_task tid (continue ta (k a)) c')
| step_send tid ta rq k :
    cf_tasks c !! tid = Some ta → ta_prog ta = Do (HttpPost rq : Op) k → ta_sent ta = false →
    step c (Some tid) (with_task tid (send ta) c)
| step_answer tid ta rq k reply cur' :
    cf_tasks c !! tid = Some ta → ta_prog ta = Do (HttpPost rq : Op) k → ta_sent ta = true →
    served (ta_id ta) rq reply (cf_current c) cur' →
    step c (Some tid) (with_task tid (continue ta (k reply)) (set_current cur' c))
| step_answer_lost tid ta rq k reply x :
    cf_tasks c !! tid = Some ta → ta_prog ta = Do (HttpPost rq : Op) k → ta_sent ta = true →
    step c (Some tid) (with_task tid (continue ta (k reply)) (lost (ta_id ta) x c))
| step_return tid ta r :
    cf_tasks c !! tid = Some ta → ta_prog ta = Ret r →
    step c (Some tid) (set_tasks (delete tid (cf_tasks c)) c)
| step_panic tid ta msg :
    cf_tasks c !! tid = Some ta → ta_prog ta = Crash msg → step c (Some tid) (gone tid c)
| step_drop tid ta op k :
    cf_tasks c !! tid = Some ta → ta_prog ta = Do (op : Op) k → awaits op = true →
    step c (Some tid) (gone tid c)
| step_drop_served tid ta x :
    cf_tasks c !! tid = Some ta → ta_sent ta = true →
    step c (Some tid) (gone tid (lost (ta_id ta) x c)).

(** No task has started, and where no rotation was lost the persisted tokens are the current
    ones. *)
Definition initial (c : Conf) : Prop :=
  cf_tasks c = ∅ ∧ cf_locks c = ∅ ∧
  ∀ id t, id ∉ cf_spoilt c → cf_tokens c !! id = Some t → cf_current c !! id = Some t.

Inductive reachable : Conf → Prop :=
| reach_initial c : initial c → reachable c
| reach_step c l c' : reachable c → step c l c' → reachable c'.

(** ** One task at a time *)

(** What a task makes of its variable: whether it holds the lock, and, while it does, the cell
    and, as long as no rotation is lost, the persisted token and the one the server would
    accept; the time is at least [v_time]. *)
Record View := {
  v_held : bool;
  v_cell : option CachedToken;
  v_stored : option string;
  v_current : option string;
  v_time : N
}.

Definition agree (stored current : option string) : Prop := ∀ t, stored = Some t → current = Some t.

Definition synced (v : View) : Prop := agree (v_stored v) (v_current v).

Definition at_time (t : N) (v : View) : View :=
  {| v_held := v_held v; v_cell := v_cell v; v_stored := v_stored v; v_current := v_current v;
     v_time := t |}.

Definition believing (stored current : option string) (v : View) : View :=
  {| v_held := v_held v; v_cell := v_cell v; v_stored := stored; v_current := current;
     v_time := v_time v |}.

Definition unheld (v : View) : View :=
  {| v_held := false; v_cell := v_cell v; v_stored := v_stored v; v_current := v_current v;
     v_time := v_time v |}.

Definition view_current (cur : option string) (v : View) : View :=
  {| v_held := v_held v; v_cell := v_cell v; v_stored := v_stored v; v_current := cur;
     v_time := v_time v |}.

(** No token in the cell that outlives the skew. *)
Definition stale (cell : option CachedToken) (now : N) : Prop :=
  match cell with
  | None => True
  | Some t => (tk_expires_at t <= now + EXPIRY_SKEW * ns_per_s)%N
  end.

Definition after_reply (rq : FormPost) (reply : Reply) (current : option string) : option string :=
  match presented rq with Some _ => rotated reply current | None => current end.

(** The discipline of a task that resolves [id]. *)
Definition race_spec (id : string) : Spec View := λ op v,
  match op return (OAuthAns op → View → Prop) → Prop with
  | LockCell i => λ Q, i = id ∧ v_held v = false ∧
      ∀ cell stored current, agree stored current →
        Q () {| v_held := true; v_cell := cell; v_stored := stored; v_current := current;
                v_time := v_time v |}
  | UnlockCell i => λ Q, i = id ∧ v_held v = true ∧ synced v ∧ Q () (unheld v)
  | Now => λ Q, ∀ t, (v_time v ≤ t)%N → Q t (at_time t v)
  | ReadCell i => λ Q, i = id ∧ v_held v = true ∧ Q (v_cell v) v
  | WriteCell i t => λ Q, i = id ∧ v_held v = true ∧
      Q () {| v_held := true; v_cell := Some t; v_stored := v_stored v; v_current := v_current v;
              v_time := v_time v |}
  | TokenGet i => λ Q, i = id ∧ v_held v = true ∧ synced v ∧
      (∀ x current, agree x current → Q (Ok x) (believing x current v)) ∧
      ∀ e, Q (Err e) v
  | TokenSet i x => λ Q, i = id ∧ v_held v = true ∧
      Q (Ok ()) (believing (Some x) (v_current v) v) ∧
      ∀ e, Q (Err e) (believing None None v)
  | HttpPost rq => λ Q, v_held v = true ∧ synced v ∧ stale (v_cell v) (v_time v) ∧
      (∀ rt, presented rq = Some rt → v_current v = Some rt) ∧
      ∀ reply, Q reply (view_current (after_reply rq reply (v_current v)) v)
  | HttpGet _ | ReadFile _ => λ Q, synced v ∧ ∀ a, Q a v
  | WriteFile _ _ => λ Q, synced v ∧ Q () v
  | _ => λ _, False
  end.

Definition safe {A} (id : string) (p : prog A) (v : View) (Q : A → View → Prop) : Prop :=
  wp (race_spec id) (λ _, synced) p v Q.

Lemma race_spec_mono id : monotone (race_spec id).
Proof.
  intros op v Q Q' HQ. destruct op; simpl; try done; naive_solver.
Qed.

Lemma safe_bind {A B} id (m : prog A) (f : A → prog B) v Q :
  safe id m v (λ a v, safe id (f a) v Q) → safe id (pbind m f) v Q.
Proof. apply wp_bind, race_spec_mono. Qed.

Lemma safe_try {E A B} id (m : prog (result E A)) (f : A → prog (result E B)) v Q :
  safe id m v (λ r v, match r with Ok a => safe id (f a) v Q | Err e => Q (Err e) v end) →
  safe id (ptry m f) v Q.
Proof. apply wp_try, race_spec_mono. Qed.

(** Steps that touch nothing but the clock. *)
Definition clocked {A} (id : string) (p : prog A) : Prop :=
  ∀ v (Q : A → View → Prop),
    (∀ a t, (v_time v ≤ t)%N → Q a (at_time t v)) → synced v → safe id p v Q.

Lemma at_time_id v : at_time (v_time v) v = v.
Proof. by destruct v. Qed.

Lemma clocked_ret {A} id (a : A) : clocked id (Ret a).
Proof. intros v Q HQ _. rewrite <-(at_time_id v). apply HQ. done. Qed.

Lemma clocked_crash {A} id msg : clocked id (Crash (A:=A) msg).
Proof. by intros v Q _ Hv. Qed.

Lemma clocked_bind {A B} id (m : prog A) (f : A → prog B) :
  clocked id m → (∀ a, clocked id (f a)) → clocked id (pbind m f).
Proof.
  intros Hm Hf v Q HQ Hv. apply safe_bind, Hm; [|done]. intros a t Ht. apply Hf; [|done].
  intros b t' Ht'. apply HQ. simpl in Ht'. lia.
Qed.

Lemma clocked_try {E A B} id (m : prog (result E A)) (f : A → prog (result E B)) :
  clocked id m → (∀ a, clocked id (f a)) → clocked id (ptry m f).
Proof.
  intros Hm Hf. apply clocked_bind; [done|]. intros [a|e]; [apply Hf|apply clocked_ret].
Qed.

Definition quiet (op : OAuthOp) : bool :=
  match op with Now | HttpGet _ | ReadFile _ | WriteFile _ _ => true | _ => false end.

Lemma clocked_ask id op : quiet op = true → clocked id (ask op).
Proof.
  intros Hop v Q HQ Hv. destruct op; try done; unfold safe; simpl.
  - intros t Ht. by apply HQ.
  - split; [done|]. intros a. rewrite <-(at_time_id v). apply HQ. done.
  - split; [done|]. intros a. rewrite <-(at_time_id v). apply HQ. done.
  - split; [done|]. rewrite <-(at_time_id v). apply HQ. done.
Qed.

Lemma clocked_add_secs id t secs : clocked id (add_secs t secs).
Proof. unfold add_secs. destruct (_ <=? _)%N; [apply clocked_ret|apply clocked_crash]. Qed.

Ltac clocked := repeat
  match goal with
  | |- clocked _ (pbind _ _) => apply clocked_bind
  | |- clocked _ (ptry _ _) => apply clocked_try
  | |- clocked _ (ask ?op) => exact (clocked_ask _ op eq_refl)
  | |- clocked _ (Ret _) => apply clocked_ret
  | |- clocked _ (add_secs _ _) => apply clocked_add_secs
  | |- clocked _ (match ?x with _ => _ end) => destruct x
  | |- ∀ _, _ => intro
  end.

Lemma clocked_into_cached id r : clocked id (into_cached r).
Proof. unfold into_cached. clocked. Qed.

Lemma clocked_endpoints id e dir : clocked id (resolve_endpoints e dir).
Proof. unfold resolve_endpoints, fetch, read_cache, write_cache, now_secs. clocked. Qed.

(** The token request of [spec] presents a refresh token only when its own form has one. *)
Lemma presented_form spec url extra :
  presented (token_form spec url extra) = form_get "refresh_token" extra.
Proof.
  assert (∀ l : list (string * string), Forall (λ kv, kv.1 ≠ "refresh_token") l →
    form_get "refresh_token" (extra ++ l) = form_get "refresh_token" extra) as Happ.
  { intros l Hl. induction extra as [|[k v] extra IH]; simpl.
    - induction Hl as [|[k v] l Hk _ IH]; [done|]. simpl. by rewrite decide_False.
    - by case_decide. }
  unfold presented, token_form. destruct (spec_transport spec); [|by destruct (spec_client_secret spec); [|apply Happ; repeat constructor]].
  simpl. apply Happ. destruct (spec_client_secret spec); repeat constructor; done.
Qed.

(** A token request: the reply is an error or grants the token response it parses to. *)
Lemma safe_post_token id spec url extra v (Q : result VarError TokenResponse → View → Prop) :
  v_held v = true → stale (v_cell v) (v_time v) → synced v →
  (∀ rt, form_get "refresh_token" extra = Some rt → v_current v = Some rt) →
  (∀ e, Q (Err e) v) →
  (∀ resp, Q (Ok resp)
     (view_current (match form_get "refresh_token" extra, tr_refresh_token resp with
                    | Some _, Some t => Some t
                    | _, _ => v_current v
                    end) v)) →
  safe id (post_token spec url extra) v Q.
Proof.
  intros Hheld Hstale Hv Hrt Herr Hok. unfold post_token, post_form. apply safe_try. unfold safe. simpl.
  rewrite presented_form. split; [done|]. split; [done|]. split; [done|]. split; [done|].
  intros reply.
  assert (∀ e, granted reply = None → Q (Err e)
    (view_current (after_reply (token_form spec url extra) reply (v_current v)) v)) as Hkeep.
  { intros e Hg. unfold after_reply, rotated. rewrite Hg.
    replace (view_current _ v) with v; [done|]. destruct (presented _); by destruct v. }
  destruct reply as [[status body]|e]; [|by apply Hkeep].
  simpl in Hkeep. destruct (success status) eqn:Hs; cycle 1.
  { simpl. destruct body; apply Hkeep; done. }
  destruct body as [body|e]; [|by apply Hkeep]. simpl. unfold parse_token.
  destruct (get body "access_token" ≫= as_str) as [token|] eqn:Hat; [|by apply Hkeep].
  specialize (Hok {| tr_access_token := token;
     tr_expires_in := default DEFAULT_LIFETIME_SECS (get body "expires_in" ≫= as_u64);
     tr_refresh_token := get body "refresh_token" ≫= as_str |}).
  simpl in Hok. unfold after_reply, rotated, granted. rewrite presented_form, Hs, Hat.
  by destruct (form_get _ _), (get body "refresh_token" ≫= as_str).
Qed.

(** What a task that holds the lock must leave behind. *)
Definition holds (v : View) : Prop := v_held v = true ∧ synced v.

Lemma holds_at t v : holds v → holds (at_time t v).
Proof. done. Qed.

Lemma stale_later cell t t' : (t ≤ t')%N → stale cell t → stale cell t'.
Proof. destruct cell; [|done]. simpl. lia. Qed.

Lemma safe_ask {A} id op (f : OAuthAns op → prog A) v Q :
  race_spec id op v (λ a v, safe id (f a) v Q) → safe id (pbind (ask op) f) v Q.
Proof. done. Qed.

Lemma safe_ret {A} id (a : A) v (Q : A → View → Prop) : Q a v → safe id (Ret a) v Q.
Proof. done. Qed.

Lemma safe_cached id resp v (Q : result VarError CachedToken → View → Prop) :
  holds v → (∀ r v', holds v' → Q r v') →
  safe id (do cached <- into_cached resp; Ret (Ok cached)) v Q.
Proof.
  intros [Hh Hs] HQ. apply safe_bind, clocked_into_cached; [|done]. intros c t _.
  apply safe_ret, HQ. done.
Qed.

Lemma safe_refresh id spec url v (Q : result VarError CachedToken → View → Prop) :
  holds v → stale (v_cell v) (v_time v) → (∀ r v', holds v' → Q r v') →
  safe id (refresh_exchange id spec url) v Q.
Proof.
  intros [Hh Hs] Hst HQ. apply safe_ask. split; [done|]. split; [done|]. split; [done|].
  split; [|by intros e; apply HQ]. intros [refresh|] current Hag; [|by apply HQ].
  pose proof (Hag refresh eq_refl) as Hcur. cbn [persist map_err].
  apply safe_try, safe_post_token; [done|done|done| | |].
  - simpl. by intros rt [= <-].
  - intros e. by apply HQ.
  - intros resp. cbn [refresh_form form_get decide].
    destruct (tr_refresh_token resp) as [new_rt|]; [|by apply safe_cached].
    apply safe_try. case_decide as Hn.
    + subst new_rt. apply safe_ret, safe_cached; [|done]. split; [done|].
      intros t Ht. simpl in *. congruence.
    + apply safe_ask. split; [done|]. split; [done|]. split.
      * apply safe_ret, safe_cached; [|done]. split; [done|]. by intros t [= <-].
      * intros e. apply safe_ret, HQ. by split.
Qed.

Lemma safe_mint id spec v (Q : result VarError CachedToken → View → Prop) :
  holds v → stale (v_cell v) (v_time v) → (∀ r v', holds v' → Q r v') →
  safe id (mint st id spec) v Q.
Proof.
  intros [Hh Hs] Hst HQ. unfold mint. apply safe_try, clocked_endpoints; [|done].
  intros [e|err] t Ht; [|by apply HQ].
  assert (stale (v_cell (at_time t v)) (v_time (at_time t v))) as Hst' by by eapply stale_later.
  destruct spec; [|by apply safe_refresh|by apply safe_refresh].
  apply safe_try, safe_post_token; [done|done|done| | |].
  - simpl. intros rt. by destruct scope, audience.
  - intros err. by apply HQ.
  - intros resp. apply safe_cached; [|done].
    replace (form_get _ _) with (@None string) by (by destruct scope, audience). done.
Qed.

(** A resolution keeps to the discipline and gives the lock back. *)
Lemma safe_resolve id v :
  v_held v = false → safe id (resolve st id) v (λ _ v, v_held v = false).
Proof.
  intros Hv. unfold resolve. destruct (vs_specs st !! id) as [spec|]; [|done].
  apply safe_ask. split; [done|]. split; [done|]. intros cell stored current Hsync.
  apply safe_ask. intros t Ht. unfold add_secs. destruct (_ <=? _)%N; [|done].
  cbn [pbind]. apply safe_ask. split; [done|]. split; [done|]. cbn [v_cell at_time].
  destruct (is_fresh cell _) as [token|] eqn:Hf; [done|].
  eapply safe_bind, safe_mint; [done| |].
  - destruct cell as [c|]; [|done]. cbn [is_fresh mbind option_bind] in Hf.
    destruct (_ <? _)%N eqn:Hlt in Hf; [done|]. by apply N.ltb_ge in Hlt.
  - by intros [c|e] v' [Hh Hs].
Qed.

(** ** All tasks *)

(** A task's view is what the configuration has for its variable, as far as it is not spoilt. *)
Definition sees (c : Conf) (tid : nat) (key : nat * string) (v : View) : Prop :=
  (v_time v ≤ cf_time c)%N ∧ (v_held v = true ↔ cf_locks c !! key = Some tid) ∧
  (v_held v = true → v_cell v = cf_cells c !! key) ∧
  (v_held v = true → key.2 ∉ cf_spoilt c →
   v_stored v = cf_tokens c !! key.2 ∧ v_current v = cf_current c !! key.2).

Definition ta_key (ta : Task) : nat * string := (ta_store ta, ta_id ta).

Definition task_ok (c : Conf) (tid : nat) (ta : Task) : Prop :=
  ∃ v, sees c tid (ta_key ta) v ∧
       safe (ta_id ta) (ta_prog ta) v (λ _ v, v_held v = false) ∧
       (ta_sent ta = true → ∃ rq k, ta_prog ta = Do (HttpPost rq : Op) k).

Record inv (c : Conf) : Prop := {
  inv_tasks tid ta : cf_tasks c !! tid = Some ta → task_ok c tid ta;
  inv_free id : at_rest id (cf_locks c) → id ∉ cf_spoilt c → agree (cf_tokens c !! id) (cf_current c !! id);
  inv_one s s' id tid tid' : id ∉ cf_spoilt c → cf_locks c !! (s, id) = Some tid →
    cf_locks c !! (s', id) = Some tid' → s = s';
  inv_holder key tid : cf_locks c !! key = Some tid → ∃ ta, cf_tasks c !! tid = Some ta ∧ ta_key ta = key
}.

(** A step of a task [tid] at [key] changes nothing but what this task holds, and spoils
    nothing but its variable. *)
Record moves (tid : nat) (key : nat * string) (c c' : Conf) : Prop := {
  mv_time : (cf_time c ≤ cf_time c')%N;
  mv_tasks : cf_tasks c' = cf_tasks c;
  mv_rows key' : key' ≠ key → cf_locks c' !! key' = cf_locks c !! key' ∧
    cf_cells c' !! key' = cf_cells c !! key';
  mv_others id : id ≠ key.2 → (id ∈ cf_spoilt c' → id ∈ cf_spoilt c) ∧
    cf_tokens c' !! id = cf_tokens c !! id ∧ cf_current c' !! id = cf_current c !! id;
  mv_own : key.2 ∉ cf_spoilt c' → cf_locks c !! key = Some tid ∨
    cf_tokens c' !! key.2 = cf_tokens c !! key.2 ∧ cf_current c' !! key.2 = cf_current c !! key.2;
  mv_cell : cf_locks c !! key = Some tid ∨ cf_cells c' !! key = cf_cells c !! key;
  mv_lock : cf_locks c' !! key = cf_locks c !! key ∨
            (cf_locks c !! key = Some tid ∨ cf_locks c !! key = None) ∧
            (cf_locks c' !! key = Some tid ∨ cf_locks c' !! key = None);
  mv_spoilt : cf_spoilt c ⊆ cf_spoilt c';
  mv_one : key.2 ∉ cf_spoilt c' → at_rest key.2 (cf_locks c) ∨
    (is_Some (cf_locks c' !! key) → is_Some (cf_locks c !! key));
  mv_free : at_rest key.2 (cf_locks c') → key.2 ∉ cf_spoilt c' →
            agree (cf_tokens c' !! key.2) (cf_current c' !! key.2)
}.

Lemma at_rest_spec id locks : at_rest id locks ↔ ∀ s, locks !! (s, id) = None.
Proof.
  unfold at_rest. split.
  - intros Hr s. destruct (locks !! (s, id)) as [t|] eqn:Hl; [|done]. by apply Hr in Hl.
  - intros Hr [s id'] t Hl Heq. simpl in Heq. subst. by rewrite Hr in Hl.
Qed.

Lemma task_later c c' tid ta :
  (cf_time c ≤ cf_time c')%N → cf_locks c' = cf_locks c → cf_cells c' = cf_cells c →
  cf_tokens c' = cf_tokens c → cf_current c' = cf_current c → cf_spoilt c' = cf_spoilt c →
  task_ok c tid ta → task_ok c' tid ta.
Proof.
  intros Ht Hl Hce Hto Hcu Hsp (v & (Hv & Hrest) & Hsafe). exists v. split; [|done].
  split; [lia|]. by rewrite Hl, Hce, Hto, Hcu, Hsp.
Qed.

Lemma moves_other tid key c c' tid' ta :
  inv c → moves tid key c c' → tid' ≠ tid → task_ok c tid' ta → task_ok c' tid' ta.
Proof.
  intros Hinv Hm Hne (v & (Hv & Hlock & Hcell & Htok) & Hsafe). exists v. split; [|done].
  split; [pose proof (mv_time _ _ _ _ Hm); lia|].
  assert (cf_locks c' !! ta_key ta = Some tid' ↔ cf_locks c !! ta_key ta = Some tid') as Hl.
  { destruct (decide (ta_key ta = key)) as [->|Hk]; [|by destruct (mv_rows _ _ _ _ Hm _ Hk) as [-> _]].
    destruct (mv_lock _ _ _ _ Hm) as [->|[[->| ->] [->| ->]]]; naive_solver. }
  split; [by rewrite Hlock, Hl|]. split.
  - intros Hh. rewrite (Hcell Hh). apply Hlock in Hh.
    destruct (decide (ta_key ta = key)) as [Hk|Hk]; [|by destruct (mv_rows _ _ _ _ Hm _ Hk) as [_ ->]].
    rewrite Hk in *. destruct (mv_cell _ _ _ _ Hm) as [?| ->]; [congruence|done].
  - intros Hh Hn. pose proof (not_elem_of_weaken _ _ _ Hn (mv_spoilt _ _ _ _ Hm)) as Hn'.
    destruct (Htok Hh Hn') as [-> ->]. apply Hlock in Hh.
    destruct (decide ((ta_key ta).2 = key.2)) as [Hk|Hk];
      [|by destruct (mv_others _ _ _ _ Hm _ Hk) as (_ & -> & ->)].
    rewrite Hk in *. destruct (mv_own _ _ _ _ Hm Hn) as [Ho|[-> ->]]; [|done]. exfalso.
    destruct key as [s id], (ta_key ta) as [s' id'] eqn:Hta. simpl in *. subst id'.
    rewrite (inv_one c Hinv s s' id tid tid' Hn' Ho Hh) in Ho. congruence.
Qed.

Lemma inv_moves tid ta ta' c c' :
  inv c → cf_tasks c !! tid = Some ta → ta_key ta' = ta_key ta → moves tid (ta_key ta) c c' →
  task_ok c' tid ta' → inv (with_task tid ta' c').
Proof.
  intros Hinv Hta Hkey Hm Hok. pose proof (mv_tasks _ _ _ _ Hm) as Hts.
  assert (∀ key, key ≠ ta_key ta → cf_locks c' !! key = cf_locks c !! key) as Hrows
    by (intros key Hk; by destruct (mv_rows _ _ _ _ Hm key Hk)).
  assert (∀ id, id ∉ cf_spoilt c' → id ∉ cf_spoilt c) as Hsp
    by (intros id Hn; exact (not_elem_of_weaken _ _ _ Hn (mv_spoilt _ _ _ _ Hm))).
  split; simpl.
  - intros tid' ta2. rewrite Hts. intros [[<- <-]|[Hne H2]]%lookup_insert_Some; [exact Hok|].
    exact (moves_other _ _ _ _ _ _ Hinv Hm (not_eq_sym Hne) (inv_tasks c Hinv _ _ H2)).
  - intros id Hr Hn. destruct (decide (id = (ta_key ta).2)) as [->|Hne]; [by apply (mv_free _ _ _ _ Hm)|].
    destruct (mv_others _ _ _ _ Hm id Hne) as (_ & -> & ->). apply (inv_free c Hinv); [|by apply Hsp].
    apply at_rest_spec. intros s. rewrite <-Hrows; [by apply at_rest_spec|].
    intros Heq. by rewrite <-Heq in Hne.
  - intros s s' id t t' Hn Hl Hl'.
    destruct (decide (id = (ta_key ta).2)) as [->|Hne].
    + destruct (mv_one _ _ _ _ Hm Hn) as [Hr|Hs].
      * rewrite at_rest_spec in Hr. assert (∀ s t, cf_locks c' !! (s, (ta_key ta).2) = Some t →
          s = (ta_key ta).1) as Hone; [|by rewrite (Hone s t), (Hone s' t')].
        intros s0 t0 H0. destruct (decide (s0 = (ta_key ta).1)) as [|Hs0]; [done|].
        rewrite Hrows, Hr in H0; [done|]. intros Heq. apply Hs0. by rewrite <-Heq.
      * assert (∀ s t, cf_locks c' !! (s, (ta_key ta).2) = Some t →
          is_Some (cf_locks c !! (s, (ta_key ta).2))) as Hsome.
        { intros s0 t0 H0. destruct (decide ((s0, (ta_key ta).2) = ta_key ta)) as [Heq|Hk].
          - rewrite Heq in *. eauto.
          - rewrite Hrows in H0 by done. eauto. }
        destruct (Hsome _ _ Hl) as [t1 H1], (Hsome _ _ Hl') as [t2 H2].
        exact (inv_one c Hinv s s' _ t1 t2 (Hsp _ Hn) H1 H2).
    + rewrite Hrows in Hl, Hl' by (intros Heq; rewrite <-Heq in Hne; done).
      exact (inv_one c Hinv s s' id t t' (Hsp _ Hn) Hl Hl').
  - intros key tid' Hl. rewrite Hts.
    assert (∃ ta2, cf_tasks c !! tid' = Some ta2 ∧ ta_key ta2 = key) as (ta2 & H2 & Hk2).
    { destruct (decide (key = ta_key ta)) as [->|Hne].
      - destruct (mv_lock _ _ _ _ Hm) as [Heq|[_ [Hl'|Hl']]]; [|exists ta|congruence].
        + apply (inv_holder c Hinv). congruence.
        + split; [|done]. congruence.
      - apply (inv_holder c Hinv). by rewrite <-Hrows. }
    destruct (decide (tid' = tid)) as [->|Hne].
    + exists ta'. rewrite lookup_insert_eq. split; [done|]. congruence.
    + exists ta2. by rewrite lookup_insert_ne by congruence.
Qed.

Lemma moves_same tid key c : inv c → moves tid key c c.
Proof.
  intros Hinv. split; try done; [by right|by right|by left|by right|].
  intros. by apply (inv_free c Hinv).
Qed.

(** What a task that holds the lock may do. *)
Lemma moves_held tid s id c c' :
  cf_locks c !! (s, id) = Some tid →
  (cf_time c ≤ cf_time c')%N → cf_tasks c' = cf_tasks c → cf_locks c' = cf_locks c →
  (∀ key, key ≠ (s, id) → cf_cells c' !! key = cf_cells c !! key) →
  cf_spoilt c ⊆ cf_spoilt c' → (∀ id', id' ≠ id → id' ∈ cf_spoilt c' → id' ∈ cf_spoilt c) →
  (∀ id', id' ≠ id → cf_tokens c' !! id' = cf_tokens c !! id' ∧ cf_current c' !! id' = cf_current c !! id') →
  moves tid (s, id) c c'.
Proof.
  intros Hl Ht Hts Hls Hce Hsp Hsp' Htok. split; rewrite ?Hls; try done; [auto|auto|by left|by left|by left| |].
  - right. by rewrite Hl.
  - intros Hr. rewrite at_rest_spec in Hr. simpl in Hr. by rewrite Hr in Hl.
Qed.

Lemma elem_of_spoil id c id' : id' ∈ cf_spoilt (spoil id c) ↔ id' = id ∨ id' ∈ cf_spoilt c.
Proof. simpl. set_solver. Qed.

(** Taking the lock. *)
Lemma moves_lock tid s id c c' :
  cf_locks c !! (s, id) = None → c' = set_spoilt (cf_spoilt c') (set_locks (<[(s, id) := tid]> (cf_locks c)) c) →
  cf_spoilt c' = cf_spoilt c ∧ at_rest id (cf_locks c) ∨ cf_spoilt c' = {[id]} ∪ cf_spoilt c →
  moves tid (s, id) c c'.
Proof.
  intros Hl -> Hor. simpl in Hor. constructor; simpl.
  - done.
  - done.
  - intros key Hne. by rewrite lookup_insert_ne.
  - intros id' Hne. split; [|done]. destruct Hor as [[-> _]| ->]; set_solver.
  - by right.
  - by right.
  - right. rewrite lookup_insert_eq. auto.
  - destruct Hor as [[-> _]| ->]; set_solver.
  - intros Hn. destruct Hor as [[_ Hr]|Heq]; [by left|]. rewrite Heq in Hn. set_solver.
  - intros Hr. rewrite at_rest_spec in Hr. specialize (Hr s). by rewrite lookup_insert_eq in Hr.
Qed.

Lemma local_lock tid s id i c a c' v (Q : () → View → Prop) :
  inv c → sees c tid (s, id) v → race_spec id (LockCell i) v Q → local tid s (LockCell i) c a c' →
  ∃ v', Q a v' ∧ sees c' tid (s, id) v' ∧ moves tid (s, id) c c'.
Proof.
  intros Hinv (Ht & Hlock & _) (-> & Hnh & HQ) [Hl ->]. destruct a.
  set (c1 := set_locks _ c). set (c2 := (if decide _ then _ else _) c1).
  assert (∃ sp, c2 = set_spoilt sp c1 ∧ (sp = cf_spoilt c ∧ at_rest id (cf_locks c) ∨
    sp = {[id]} ∪ cf_spoilt c)) as (sp & Hc2 & Hor).
  { unfold c2. case_decide as Hr; eexists; (split; [reflexivity|]); auto. }
  assert (∃ stored current, agree stored current ∧ (id ∉ cf_spoilt c2 →
    stored = cf_tokens c2 !! id ∧ current = cf_current c2 !! id)) as (stored & current & Hag & Hb).
  { rewrite Hc2. simpl. destruct (decide (id ∈ sp)) as [Hin|Hni]; [by exists None, None|].
    exists (cf_tokens c !! id), (cf_current c !! id). split; [|done].
    destruct Hor as [[-> Hr]| ->]; [by apply (inv_free c Hinv)|set_solver]. }
  eexists. split; [by apply (HQ (cf_cells c !! (s, id)) stored current)|]. split.
  - split_and!; [by rewrite Hc2|rewrite Hc2; simpl; by rewrite lookup_insert_eq|by rewrite Hc2|done].
  - apply moves_lock; [done|by rewrite Hc2|by rewrite Hc2].
Qed.

Lemma local_unlock tid s id i c a c' v (Q : () → View → Prop) :
  inv c → sees c tid (s, id) v → race_spec id (UnlockCell i) v Q → local tid s (UnlockCell i) c a c' →
  ∃ v', Q a v' ∧ sees c' tid (s, id) v' ∧ moves tid (s, id) c c'.
Proof.
  intros Hinv (Ht & Hlock & Hcell & Htok) (-> & Hh & Hsync & HQ). simpl in *. intros ->. destruct a.
  exists (unheld v). split; [done|]. split; [split; [done|]; simpl; by rewrite lookup_delete_eq|].
  constructor; simpl.
  - done.
  - done.
  - intros key Hne. by rewrite lookup_delete_ne.
  - done.
  - by right.
  - by right.
  - right. split; [left; by apply Hlock|right; apply lookup_delete_eq].
  - done.
  - intros _. right. rewrite lookup_delete_eq. by intros [].
  - intros _ Hn. destruct (Htok Hh Hn) as [<- <-]. done.
Qed.

Lemma agree_refl x : agree x x.
Proof. by intros t. Qed.

Lemma sees_believing tid key c x y v :
  key.2 ∈ cf_spoilt c → sees c tid key v → sees c tid key (believing x y v).
Proof. intros Hin (Ht & Hlock & Hcell & Htok). by split_and!. Qed.

Lemma sees_spoil tid s id c v : sees c tid (s, id) v → sees (spoil id c) tid (s, id) v.
Proof.
  intros (Ht & Hlock & Hcell & Htok). split_and!; try done. intros _ Hn. simpl in Hn. set_solver.
Qed.

Lemma local_token_get tid s id i c a c' v (Q : _ → View → Prop) :
  inv c → sees c tid (s, id) v → race_spec id (TokenGet i) v Q → local tid s (TokenGet i) c a c' →
  ∃ v', Q a v' ∧ sees c' tid (s, id) v' ∧ moves tid (s, id) c c'.
Proof.
  intros Hinv Hsees (-> & Hh & Hsync & HQ & HQe). pose proof Hsees as (Ht & Hlock & Hcell & Htok).
  simpl in *. intros [[[->|[e ->]] ->]|[[x ->] ->]].
  - destruct (decide (id ∈ cf_spoilt c)) as [Hin|Hni].
    + exists (believing (cf_tokens c !! id) (cf_tokens c !! id) v).
      split; [apply HQ, agree_refl|]. split; [by apply sees_believing|by apply moves_same].
    + destruct (Htok Hh Hni) as [Hst Hcu]. exists v. rewrite <-Hst.
      split; [|by split; [|apply moves_same]]. specialize (HQ (v_stored v) (v_current v) Hsync).
      by destruct v.
  - exists v. split; [done|]. split; [done|by apply moves_same].
  - exists (believing x x v). split; [apply HQ, agree_refl|]. split.
    + apply sees_believing; [simpl; set_solver|by apply sees_spoil].
    + apply moves_held; simpl; try done; [by apply Hlock|set_solver|set_solver].
Qed.

Lemma local_token_set tid s id i x c a c' v (Q : _ → View → Prop) :
  inv c → sees c tid (s, id) v → race_spec id (TokenSet i x) v Q →
  local tid s (TokenSet i x) c a c' →
  ∃ v', Q a v' ∧ sees c' tid (s, id) v' ∧ moves tid (s, id) c c'.
Proof.
  intros Hinv Hsees (-> & Hh & HQ & HQe). pose proof Hsees as (Ht & Hlock & Hcell & Htok).
  simpl in *. intros [[-> ->]|[[e ->] [y ->]]].
  - eexists. split; [exact HQ|]. split.
    + split; [done|]. split; [done|]. split; [done|]. simpl. intros _ Hn. rewrite lookup_insert_eq.
      split; [done|]. by apply Htok.
    + apply moves_held; simpl; try done; [by apply Hlock|]. intros id' Hne.
      by rewrite lookup_insert_ne.
  - eexists. split; [apply HQe|]. split.
    + apply sees_believing; [simpl; set_solver|]. split_and!; try done. intros _ Hn. simpl in Hn. set_solver.
    + apply moves_held; simpl; try done; [by apply Hlock|set_solver|set_solver|]. intros id' Hne.
      by rewrite lookup_partial_alter_ne.
Qed.

(** What an operation answered by the store does. *)
Lemma local_ok tid s id op c a c' v (Q : OAuthAns op → View → Prop) :
  inv c → sees c tid (s, id) v → race_spec id op v Q → local tid s op c a c' →
  ∃ v', Q a v' ∧ sees c' tid (s, id) v' ∧ moves tid (s, id) c c'.
Proof.
  intros Hinv Hsees Hspec Hlocal. pose proof Hsees as (Ht & Hlock & Hcell & Htok). simpl in Htok.
  pose proof (moves_same tid (s, id) c Hinv) as Hsame.
  destruct op; simpl in Hspec, Hlocal; try done.
  - by eapply local_lock.
  - by eapply local_unlock.
  - (* ReadCell *)
    destruct Hspec as (-> & Hh & HQ), Hlocal as [-> ->]. exists v. by rewrite <-Hcell.
  - (* WriteCell *)
    destruct Hspec as (-> & Hh & HQ). subst c'. destruct a. eexists. split; [exact HQ|]. split.
    + split; [done|]. simpl. rewrite lookup_insert_eq. split; [|split; [done|]].
      * split; [intros _; by apply Hlock|done].
      * intros _. by apply Htok.
    + apply moves_held; try done; [by apply Hlock|]. intros key Hne. simpl.
      by rewrite lookup_insert_ne.
  - (* Now *)
    destruct Hlocal as [-> ->]. exists (at_time (cf_time c) v). by split; [apply Hspec|].
  - (* HttpGet *) subst c'. exists v. by split; [apply Hspec|].
  - by eapply local_token_get.
  - by eapply local_token_set.
  - (* ReadFile *) subst c'. exists v. by split; [apply Hspec|].
  - (* WriteFile *) subst c'. destruct a. exists v. by split; [apply Hspec|].
Qed.

Lemma served_ok id rq reply cur cur' :
  (∀ rt, presented rq = Some rt → cur !! id = Some rt) → served id rq reply cur cur' →
  cur' !! id = after_reply rq reply (cur !! id) ∧ ∀ id', id' ≠ id → cur' !! id' = cur !! id'.
Proof.
  unfold served, after_reply. intros Hrt. destruct (presented rq) as [rt|]; [|by intros ->].
  rewrite decide_True by auto. intros ->. split; [apply lookup_partial_alter_eq|].
  intros id' Hne. by apply lookup_partial_alter_ne.
Qed.

Lemma can_serve id rq cur : ∃ reply cur', served id rq reply cur cur'.
Proof.
  unfold served. exists (Err "connection refused"). destruct (presented rq); [|by eexists].
  case_decide; [by eexists|]. exists cur. done.
Qed.

(** A request that is on the way. *)
Lemma inv_sent c tid ta rq k :
  inv c → cf_tasks c !! tid = Some ta → ta_prog ta = Do (HttpPost rq : Op) k →
  ∃ v, sees c tid (ta_key ta) v ∧ cf_locks c !! ta_key ta = Some tid ∧
    v_held v = true ∧ synced v ∧ stale (v_cell v) (v_time v) ∧
    (∀ rt, presented rq = Some rt → v_current v = Some rt) ∧
    ∀ reply, safe (ta_id ta) (k reply)
      (view_current (after_reply rq reply (v_current v)) v) (λ _ v, v_held v = false).
Proof.
  intros Hinv Hta Hp. destruct (inv_tasks c Hinv tid ta Hta) as (v & Hsees & Hsafe & _).
  rewrite Hp in Hsafe. exists v. destruct Hsafe as (Hh & ? & ? & ? & ?).
  split_and!; try done. by apply Hsees.
Qed.

Lemma released_some tid locks key tid' :
  released tid locks !! key = Some tid' ↔ locks !! key = Some tid' ∧ tid' ≠ tid.
Proof. unfold released. by rewrite map_lookup_filter_Some. Qed.

(** What a task that ends leaves behind. *)
Lemma inv_gone tid ta c :
  inv c → cf_tasks c !! tid = Some ta →
  (cf_locks c !! ta_key ta = Some tid → ta_id ta ∉ cf_spoilt c →
   agree (cf_tokens c !! ta_id ta) (cf_current c !! ta_id ta)) →
  inv (gone tid c).
Proof.
  intros Hinv Hta Hagree. split; simpl.
  - intros tid' ta' [Hne Hta']%lookup_delete_Some.
    destruct (inv_tasks c Hinv tid' ta' Hta') as (v & (Ht & Hl & Hr) & Hrest). exists v.
    split; [|done]. split; [done|]. split; [|done]. simpl. rewrite released_some, Hl. naive_solver.
  - intros id Hr Hn. rewrite at_rest_spec in Hr.
    destruct (decide (at_rest id (cf_locks c))) as [Hr'|Hr']; [by apply (inv_free c Hinv)|].
    apply map_not_Forall in Hr' as ([s id'] & tid' & Hl & Heq); [|apply _]. apply dec_stable in Heq.
    simpl in Heq. subst id'. destruct (decide (tid' = tid)) as [->|Hne].
    + destruct (inv_holder c Hinv (s, id) tid Hl) as (ta' & Hta' & Hk).
      replace ta' with ta in * by congruence. rewrite <-Hk in Hl.
      replace id with (ta_id ta) in * by (unfold ta_key in Hk; congruence). by apply Hagree.
    + exfalso. assert (released tid (cf_locks c) !! (s, id) = Some tid') as Hl'
        by by apply released_some. by rewrite Hr in Hl'.
  - intros s s' id t t' Hn [Hl _]%released_some [Hl' _]%released_some.
    exact (inv_one c Hinv s s' id t t' Hn Hl Hl').
  - intros key tid' [Hl Hne]%released_some. destruct (inv_holder c Hinv key tid' Hl) as (ta' & ? & ?).
    exists ta'. by rewrite lookup_delete_ne by congruence.
Qed.

(** A task that holds no lock when it ends. *)
Lemma inv_ended tid ta c :
  inv c → cf_tasks c !! tid = Some ta → cf_locks c !! ta_key ta ≠ Some tid →
  inv (set_tasks (delete tid (cf_tasks c)) c).
Proof.
  intros Hinv Hta Hl. assert (released tid (cf_locks c) = cf_locks c) as Hr.
  { apply map_filter_id. intros key tid' Hk Heq. simpl in Heq. subst tid'.
    destruct (inv_holder c Hinv key tid Hk) as (ta' & ? & <-). congruence. }
  pose proof (inv_gone tid ta c Hinv Hta ltac:(done)) as Hg. unfold gone in Hg.
  rewrite Hr in Hg. exact Hg.
Qed.

Lemma inv_lost id x c : inv c → inv (lost id x c).
Proof.
  intros Hinv. split; simpl.
  - intros tid ta Hta. destruct (inv_tasks c Hinv tid ta Hta) as (v & (Ht & Hl & Hc & Hk) & Hrest).
    exists v. split; [|done]. split_and!; try done. simpl. intros Hh Hn.
    rewrite lookup_partial_alter_ne by set_solver. apply Hk; [done|set_solver].
  - intros id' Hr Hn. rewrite lookup_partial_alter_ne by set_solver.
    apply (inv_free c Hinv); [done|set_solver].
  - intros s s' id' t t' Hn. apply (inv_one c Hinv). set_solver.
  - apply (inv_holder c Hinv).
Qed.

Lemma inv_answer c tid ta rq k reply cur' :
  inv c → cf_tasks c !! tid = Some ta → ta_prog ta = Do (HttpPost rq : Op) k →
  served (ta_id ta) rq reply (cf_current c) cur' →
  inv (with_task tid (continue ta (k reply)) (set_current cur' c)).
Proof.
  intros Hinv Hta Hp Hserved.
  destruct (inv_sent c tid ta rq k Hinv Hta Hp) as (v & Hsees & Hl & Hh & _ & _ & Hrt & Hk).
  pose proof Hsees as (Ht & Hlock & Hcell & Htok).
  assert (∀ id', id' ≠ ta_id ta → cur' !! id' = cf_current c !! id') as Hothers.
  { intros id' Hne. unfold served in Hserved. destruct (presented rq); [|by subst].
    case_decide; [|by destruct Hserved as [_ ->]]. subst cur'. by rewrite lookup_partial_alter_ne. }
  assert (moves tid (ta_key ta) c (set_current cur' c)) as Hm.
  { apply moves_held; try done. intros id' Hne. simpl. by rewrite Hothers. }
  eapply inv_moves; [done..|]. exists (view_current (after_reply rq reply (v_current v)) v).
  split; [|split; [apply Hk|done]]. split; [done|]. split; [done|]. split; [done|].
  intros _ Hn. destruct (Htok Hh Hn) as [Hst Hcu]. split; [done|]. simpl.
  destruct (served_ok (ta_id ta) rq reply (cf_current c) cur') as [-> _]; [|done|].
  - intros rt Hr. rewrite <-(Hrt rt Hr). done.
  - by rewrite Hcu.
Qed.

Lemma inv_answer_lost c tid ta rq k reply x :
  inv c → cf_tasks c !! tid = Some ta → ta_prog ta = Do (HttpPost rq : Op) k →
  inv (with_task tid (continue ta (k reply)) (lost (ta_id ta) x c)).
Proof.
  intros Hinv Hta Hp.
  destruct (inv_sent c tid ta rq k Hinv Hta Hp) as (v & Hsees & Hl & Hh & _ & _ & _ & Hk).
  pose proof Hsees as (Ht & Hlock & Hcell & Htok).
  assert (moves tid (ta_key ta) c (lost (ta_id ta) x c)) as Hm.
  { apply moves_held; simpl; try done; [set_solver|set_solver|]. intros id' Hne.
    by rewrite lookup_partial_alter_ne. }
  eapply inv_moves; [done..|]. exists (view_current (after_reply rq reply (v_current v)) v).
  split; [|split; [apply Hk|done]]. split; [done|]. split; [done|]. split; [done|].
  intros _ Hn. simpl in Hn. set_solver.
Qed.

(** A task that waits has left its variable as it should be. *)
Lemma waiting_agree c tid ta op k :
  inv c → cf_tasks c !! tid = Some ta → ta_prog ta = Do (op : Op) k → awaits op = true →
  cf_locks c !! ta_key ta = Some tid → ta_id ta ∉ cf_spoilt c →
  agree (cf_tokens c !! ta_id ta) (cf_current c !! ta_id ta).
Proof.
  intros Hinv Hta Hp Haw Hl Hn.
  destruct (inv_tasks c Hinv tid ta Hta) as (v & (_ & Hlock & _ & Htok) & Hsafe & _).
  apply Hlock in Hl as Hh. destruct (Htok Hh Hn) as [Hst Hcu].
  assert (synced v) as Hs; [|unfold synced in Hs; by rewrite Hst, Hcu in Hs].
  rewrite Hp in Hsafe. unfold safe in Hsafe. destruct op; try done; simpl in Hsafe.
  - destruct Hsafe as (_ & Hf & _). congruence.
  - by destruct Hsafe.
  - by destruct Hsafe as (_ & ? & _).
Qed.

Lemma inv_task_step c tid c' : inv c → step c (Some tid) c' → inv c'.
Proof.
  intros Hinv Hstep.
  inversion Hstep as [| |tid' ta op k a c1 Hta Hp Hlocal|tid' ta rq k Hta Hp Hs
    |tid' ta rq k reply cur' Hta Hp Hs Hserved|tid' ta rq k reply x Hta Hp Hs
    |tid' ta r Hta Hp|tid' ta msg Hta Hp|tid' ta op k Hta Hp Haw|tid' ta x Hta Hs];
    subst tid';
    pose proof (inv_tasks c Hinv tid ta Hta) as (v & Hsees & Hsafe & Hq);
    pose proof Hsees as (_ & Hlock & _ & Htok); change (ta_key ta).2 with (ta_id ta) in Htok.
  - rewrite Hp in Hsafe.
    destruct (local_ok tid (ta_store ta) (ta_id ta) op c a c1 v _ Hinv Hsees Hsafe Hlocal)
      as (v' & Hk & Hv' & Hm).
    eapply inv_moves; [done..|]. by exists v'.
  - eapply inv_moves; [done..|by apply moves_same|]. exists v. split_and!; try done. simpl. eauto.
  - by eapply inv_answer.
  - by eapply inv_answer_lost.
  - rewrite Hp in Hsafe. apply (inv_ended tid ta); [done..|]. intros Hl. apply Hlock in Hl.
    unfold safe in Hsafe. simpl in Hsafe. congruence.
  - rewrite Hp in Hsafe. apply (inv_gone tid ta); [done..|]. intros Hl Hn.
    apply Hlock in Hl. destruct (Htok Hl Hn) as [<- <-]. exact Hsafe.
  - apply (inv_gone tid ta); [done..|]. intros Hl Hn. by eapply waiting_agree.
  - apply (inv_gone tid ta); [by apply inv_lost|done|]. intros _ Hn. simpl in Hn. set_solver.
Qed.

Lemma inv_step c l c' : inv c → step c l c' → inv c'.
Proof.
  intros Hinv Hstep. destruct l as [tid|]; [by eapply inv_task_step|].
  inversion Hstep as [tid s id Hnone|t Ht| | | | | | | |]; subst c'.
  - split; simpl; [|apply (inv_free c Hinv)|apply (inv_one c Hinv)|].
    + intros tid' ta [[<- <-]|[Hne Hta]]%lookup_insert_Some; [|by apply (inv_tasks c Hinv)].
      exists {| v_held := false; v_cell := None; v_stored := None; v_current := None; v_time := 0 |}.
      split; [|split; [by apply safe_resolve|done]].
      split; simpl; [lia|]. split; [|done]. split; [done|].
      intros (ta & H' & _)%(inv_holder c Hinv). congruence.
    + intros key tid' (ta & Hta & <-)%(inv_holder c Hinv). exists ta.
      rewrite lookup_insert_ne; [done|]. congruence.
  - split; simpl; [|apply (inv_free c Hinv)|apply (inv_one c Hinv)|apply (inv_holder c Hinv)].
    intros tid ta Hta. eapply task_later; [| | | | | |by apply (inv_tasks c Hinv)]; done.
Qed.

Lemma inv_reachable c : reachable c → inv c.
Proof.
  induction 1 as [c (Ht & Hl & Ha)|c l c' _ IH Hs]; [|by eapply inv_step].
  split; rewrite ?Ht, ?Hl; try done. intros id _ Hn t. by apply Ha.
Qed.

(** C5: However many tasks resolve variables at once, in whatever stores, however their steps
    interleave, whatever the server answers, whichever replies are lost, tasks dropped and
    failures of the token store happen: at most one request per variable of a store is on the
    way, sent only when the store's cached token does not outlive the skew. As long as no
    rotation of the variable may have been lost - by an untruthful or lost reply, a task
    dropped with its request on the way, a token store that fails or forgets, or a second
    store at work on it - that is so across all stores, and the refresh token the request
    presents is the one the server would accept. *)
Theorem resolutions_share c tid ta rq k :
  reachable c → cf_tasks c !! tid = Some ta → ta_sent ta = true →
  ta_prog ta = Do (HttpPost rq : Op) k →
  stale (cf_cells c !! ta_key ta) (cf_time c) ∧
  (∀ tid' ta', cf_tasks c !! tid' = Some ta' → ta_sent ta' = true →
     ta_key ta' = ta_key ta → tid' = tid) ∧
  (ta_id ta ∉ cf_spoilt c →
   (∀ rt, presented rq = Some rt → cf_current c !! ta_id ta = Some rt) ∧
   ∀ tid' ta', cf_tasks c !! tid' = Some ta' → ta_sent ta' = true →
     ta_id ta' = ta_id ta → tid' = tid).
Proof.
  intros Hinv%inv_reachable Hta Hsent Hp.
  destruct (inv_sent c tid ta rq k Hinv Hta Hp) as
    (v & (Ht & Hlock & Hcell & Htok) & Hl & Hh & _ & Hst & Hrt & _).
  assert (∀ tid' ta', cf_tasks c !! tid' = Some ta' → ta_sent ta' = true →
    cf_locks c !! ta_key ta' = Some tid') as Hholds.
  { intros tid' ta' Hta' Hsent'. destruct (inv_tasks c Hinv tid' ta' Hta') as (v' & _ & _ & Hq).
    destruct (Hq Hsent') as (rq' & k' & Hp').
    by destruct (inv_sent c tid' ta' rq' k' Hinv Hta' Hp') as (v2 & _ & ? & _). }
  rewrite <-(Hcell Hh). split; [by eapply stale_later|]. split.
  - intros tid' ta' Hta' Hsent' Hk. pose proof (Hholds _ _ Hta' Hsent'). congruence.
  - intros Hn. destruct (Htok Hh Hn) as [_ Hcu]. split; [intros rt Hr; by rewrite <-(Hrt rt Hr)|].
    intros tid' ta' Hta' Hsent' Hid. pose proof (Hholds _ _ Hta' Hsent') as Hl'.
    unfold ta_key in Hl, Hl'. rewrite Hid in Hl'.
    rewrite (inv_one c Hinv _ _ _ _ _ Hn Hl Hl') in Hl. congruence.
Qed.

(** ** No task waits forever *)

(** Steps of tasks that have started. *)
Inductive steps (c : Conf) : Conf → Prop :=
| steps_refl : steps c c
| steps_more tid c1 c2 : step c (Some tid) c1 → steps c1 c2 → steps c c2.

Lemma steps_trans c1 c2 c3 : steps c1 c2 → steps c2 c3 → steps c1 c3.
Proof. induction 1; [done|]. intros H3. econstructor; eauto. Qed.

Definition may_run (c : Conf) (tid : nat) (ta : Task) : Prop :=
  cf_locks c !! ta_key ta = Some tid ∨ cf_locks c !! ta_key ta = None.

Lemma moves_may_run c c' tid ta : moves tid (ta_key ta) c c' → may_run c tid ta → may_run c' tid ta.
Proof. unfold may_run. intros Hm. by destruct (mv_lock _ _ _ _ Hm) as [->|[_ Hl]]. Qed.

(** Every operation a task may ask for is answered. *)
Lemma can_local tid s op c v id (Q : OAuthAns op → View → Prop) :
  sees c tid (s, id) v → race_spec id op v Q →
  cf_locks c !! (s, id) = Some tid ∨ cf_locks c !! (s, id) = None → (∀ rq, op ≠ HttpPost rq) →
  ∃ a c', local tid s op c a c'.
Proof.
  intros Hsees Hspec Hrun Hpost. destruct op; simpl in *; try done.
  - destruct Hspec as (-> & Hnh & _). exists (). eexists.
    split; [|done]. destruct Hrun as [Hl|Hl]; [|done]. apply Hsees in Hl. congruence.
  - exists (). by eexists.
  - by do 2 eexists.
  - exists (). by eexists.
  - by do 2 eexists.
  - exists (Err ""). by eexists.
  - by destruct (Hpost rq).
  - do 2 eexists. left. split; [by left|done].
  - do 2 eexists. by left.
  - exists None. by eexists.
  - exists (). by eexists.
Qed.

Lemma is_post op : {rq | op = HttpPost rq} + {∀ rq, op ≠ HttpPost rq}.
Proof. destruct op; first [by right|left; by eexists]. Defined.

(** A request is sent and answered. *)
Lemma run_post c tid ta rq k :
  inv c → cf_tasks c !! tid = Some ta → ta_prog ta = Do (HttpPost rq : Op) k →
  ∃ c' reply, steps c c' ∧ inv c' ∧ cf_locks c' = cf_locks c ∧
    cf_tasks c' = <[tid := continue ta (k reply)]> (cf_tasks c).
Proof.
  intros Hinv Hta Hp.
  assert (∃ c1, steps c c1 ∧ inv c1 ∧ cf_locks c1 = cf_locks c ∧
    cf_tasks c1 = <[tid := send ta]> (cf_tasks c)) as (c1 & Hs1 & Hi1 & Hl1 & Ht1).
  { destruct (ta_sent ta) eqn:Hsent.
    - exists c. split; [apply steps_refl|]. split; [done|]. split; [done|].
      rewrite insert_id; [done|]. rewrite Hta. destruct ta. simpl in *. by subst.
    - pose proof (step_send c tid ta rq k Hta Hp Hsent) as Hs. eexists.
      split; [eapply steps_more; [exact Hs|apply steps_refl]|]. split; [by eapply inv_step|]. done. }
  destruct (can_serve (ta_id ta) rq (cf_current c1)) as (reply & cur' & Hserved).
  assert (step c1 (Some tid) (with_task tid (continue (send ta) (k reply)) (set_current cur' c1))) as Hs.
  { eapply (step_answer c1 tid (send ta) rq k reply cur'); [|exact Hp|done|exact Hserved].
    rewrite Ht1. apply lookup_insert_eq. }
  exists (with_task tid (continue (send ta) (k reply)) (set_current cur' c1)), reply. split; [|split; [by eapply inv_step|]].
  - eapply steps_trans; [exact Hs1|]. eapply steps_more; [exact Hs|apply steps_refl].
  - split; [exact Hl1|]. simpl. by rewrite Ht1, insert_insert_eq.
Qed.

Lemma run_task c tid ta :
  inv c → cf_tasks c !! tid = Some ta → may_run c tid ta →
  ∃ c', steps c c' ∧ inv c' ∧ cf_tasks c' = delete tid (cf_tasks c).
Proof.
  destruct ta as [s id p sent]. revert c sent. induction p as [r|msg|op k IH]; intros c sent Hinv Hta Hrun.
  - eexists. split; [eapply steps_more; [by eapply step_return|apply steps_refl]|].
    split; [|done]. eapply inv_step; [done|]. by eapply step_return.
  - eexists. split; [eapply steps_more; [by eapply step_panic|apply steps_refl]|].
    split; [|done]. eapply inv_step; [done|]. by eapply step_panic.
  - assert (∀ a c2, steps c c2 → inv c2 → cf_locks c2 !! (s, id) = Some tid ∨ cf_locks c2 !! (s, id) = None →
      cf_tasks c2 = <[tid := {| ta_store := s; ta_id := id; ta_prog := k a; ta_sent := false |}]> (cf_tasks c) →
      ∃ c', steps c c' ∧ inv c' ∧ cf_tasks c' = delete tid (cf_tasks c)) as Hgo.
    { intros a c2 Hs Hi Hr Ht. destruct (IH a c2 false Hi) as (c' & Hs' & Hi' & Ht'); [|done|].
      - rewrite Ht. apply lookup_insert_eq.
      - exists c'. split; [by eapply steps_trans|]. split; [done|].
        rewrite Ht', Ht. apply delete_insert_eq. }
    destruct (is_post op) as [[rq ->]|Hpost].
    + destruct (run_post c tid _ rq k Hinv Hta eq_refl) as (c1 & reply & Hs1 & Hi1 & Hl1 & Ht1).
      eapply (Hgo reply c1); [done|done|by rewrite Hl1|done].
    + destruct (inv_tasks c Hinv tid _ Hta) as (v & Hsees & Hsafe & _). simpl in Hsees, Hsafe.
      destruct (can_local tid s op c v id _ Hsees Hsafe Hrun Hpost) as (a & c1 & Hlocal).
      pose proof (step_local c tid _ op k a c1 Hta eq_refl Hlocal) as Hs.
      destruct (local_ok tid s id op c a c1 v _ Hinv Hsees Hsafe Hlocal) as (_ & _ & _ & Hm).
      eapply (Hgo a).
      * eapply steps_more; [exact Hs|apply steps_refl].
      * by eapply inv_step.
      * exact (moves_may_run c c1 tid {| ta_store := s; ta_id := id; ta_prog := Do op k; ta_sent := sent |} Hm Hrun).
      * simpl. by rewrite (mv_tasks _ _ _ _ Hm).
Qed.

Lemma some_may_run c :
  inv c → cf_tasks c ≠ ∅ → ∃ tid ta, cf_tasks c !! tid = Some ta ∧ may_run c tid ta.
Proof.
  intros Hinv (tid & ta & Hta)%map_choose. destruct (cf_locks c !! ta_key ta) as [tid'|] eqn:Hl.
  - destruct (inv_holder c Hinv _ _ Hl) as (ta' & Hta' & Hid). exists tid', ta'.
    split; [done|]. left. congruence.
  - exists tid, ta. split; [done|]. by right.
Qed.

End race.
