(* ===== verification/OAuthProps.v ===== *)
(** * What resolving a variable asks of the network, and what it answers
    Every request of a resolution goes where its specification says, with the credentials of the
    variable alone; the token it answers is a fresh one from its cell or newly granted. *)

From S2P Require Export OAuth.

Section props.
Context `{!OAuthLibs}.

Definition ev (op : OAuthOp) (a : OAuthAns op) : Event := existT (op : @Op oauth_signature) a.

(** ** What a run may contain *)

(** A discovery document came from the discovery URL, which is https or loopback, or from the
    cache file of that URL. *)
Definition discovered (dir : option string) (url : string) (h : list Event) (doc : Json) : Prop :=
  (url_allowed url = true ∧ ∃ status, success status = true ∧ ev (HttpGet url) (Ok (status, Ok doc)) ∈ h)
  ∨ ∃ d raw wrapped, dir = Some d ∧ ev (ReadFile (cache_path d url)) (Some raw) ∈ h ∧
      json_parse raw = Some wrapped ∧ get wrapped "doc" = Some doc.

(** The token endpoint: the explicit one, or else that of the discovery document. *)
Definition token_endpoint (st : VariableStore) (e : Endpoints) (h : list Event) (url : string) : Prop :=
  ep_token_url e = Some url
  ∨ ep_token_url e = None ∧ ∃ discovery doc, ep_discovery e = Some discovery ∧
      discovered (vs_cache_dir st) discovery h doc ∧ get doc "token_endpoint" ≫= as_str = Some url.

(** The form of a grant: client credentials, or the refresh token that is persisted. *)
Definition grant_form (id : string) (spec : DynamicVarSpec) (h : list Event)
    (form : list (string * string)) : Prop :=
  match spec with
  | ClientCredentials _ _ _ scope audience _ => form = client_form scope audience
  | _ => ∃ refresh, ev (TokenGet id) (Ok (Some refresh)) ∈ h ∧ form = refresh_form refresh
  end.

(** The body of a successful reply of the token endpoint. *)
Definition token_reply (h : list Event) (body : Json) : Prop :=
  ∃ rq status, success status = true ∧ ev (HttpPost rq) (Ok (status, Ok body)) ∈ h.

Definition allowed (st : VariableStore) (id : string) (spec : DynamicVarSpec) (h : list Event)
    (op : OAuthOp) : Prop :=
  match op with
  | LockCell i | UnlockCell i | ReadCell i | WriteCell i _ | TokenGet i => i = id
  | Now => True
  | HttpGet url => ep_discovery (spec_endpoints spec) = Some url ∧ url_allowed url = true
  | HttpPost rq => ∃ url form, rq = token_form spec url form ∧
      token_endpoint st (spec_endpoints spec) h url ∧ grant_form id spec h form
  | TokenSet i v => i = id ∧ is_interactive spec = true ∧
      ∃ body, token_reply h body ∧ get body "refresh_token" ≫= as_str = Some v
  | ReadFile p | WriteFile p _ => ∃ d url, vs_cache_dir st = Some d ∧
      ep_discovery (spec_endpoints spec) = Some url ∧ p = cache_path d url
  | _ => False
  end.

Definition confined (st : VariableStore) (id : string) (spec : DynamicVarSpec) (h : list Event) : Prop :=
  ∀ e, e ∈ h → allowed st id spec h (projT1 e).

(** Where an answered token comes from. *)
Definition token_source (id : string) (h : list Event) (token : string) : Prop :=
  (∃ c t, ev (ReadCell id) (Some c) ∈ h ∧ ev Now t ∈ h ∧
     (t + EXPIRY_SKEW * ns_per_s < tk_expires_at c)%N ∧ token = tk_token c)
  ∨ ∃ body, token_reply h body ∧ get body "access_token" ≫= as_str = Some token.

(** ** Histories grow *)

Context (st : VariableStore) (id : string) (spec : DynamicVarSpec).

Lemma discovered_mono dir url h h' doc :
  h ⊆ h' → discovered dir url h doc → discovered dir url h' doc.
Proof. unfold discovered. intros Hh. naive_solver. Qed.

Lemma endpoint_mono e h h' url : h ⊆ h' → token_endpoint st e h url → token_endpoint st e h' url.
Proof.
  intros Hh [?|(? & d & doc & ? & Hd & ?)]; [by left|right]. split; [done|]. exists d, doc.
  eauto using discovered_mono.
Qed.

Lemma allowed_mono h h' op : h ⊆ h' → allowed st id spec h op → allowed st id spec h' op.
Proof.
  intros Hh. destruct op; simpl; try done.
  - intros (url & form & ? & He & Hf). exists url, form. split; [done|].
    split; [by eapply endpoint_mono|]. destruct spec; simpl in *; naive_solver.
  - unfold token_reply. naive_solver.
Qed.

Lemma confined_snoc h op a :
  confined st id spec h → allowed st id spec h op → confined st id spec (h ++ [ev op a]).
Proof.
  intros Hh Hop e [He|He]%elem_of_app.
  - apply (allowed_mono h); [set_solver|]. by apply Hh.
  - apply list_elem_of_singleton in He as ->. apply (allowed_mono h); [set_solver|done].
Qed.

(** Runs that stay confined; [Q] says what is known of the outcome. *)
Definition stays {A} (p : prog A) (h : list Event) (Q : A → list Event → Prop) : Prop :=
  always p h (λ r h', h ⊆ h' ∧ confined st id spec h' ∧
                      match r with Ok a => Q a h' | Err _ => True end).

Lemma stays_bind {A B} (m : prog A) (f : A → prog B) h R Q :
  stays m h R →
  (∀ a h', h ⊆ h' → confined st id spec h' → R a h' → stays (f a) h' Q) →
  stays (pbind m f) h Q.
Proof.
  intros Hm Hf. apply always_bind. eapply always_mono; [|exact Hm].
  intros [a|msg] h' (Hsub & Hc & HR); [|done].
  eapply always_mono; [|exact (Hf a h' Hsub Hc HR)]. intros r h2 (? & ? & ?).
  split; [set_solver|done].
Qed.

Lemma stays_try {E A B} (m : prog (result E A)) (f : A → prog (result E B)) h R Q :
  stays m h R →
  (∀ a h', h ⊆ h' → confined st id spec h' → R (Ok a) h' → stays (f a) h' Q) →
  (∀ e h', R (Err e) h' → Q (Err e) h') →
  stays (ptry m f) h Q.
Proof.
  intros Hm Hf He. eapply stays_bind; [exact Hm|]. intros [a|e] h' Hsub Hc HR; [by apply Hf|].
  apply always_ret. auto.
Qed.

Lemma stays_ret {A} (a : A) h (Q : A → list Event → Prop) :
  confined st id spec h → Q a h → stays (Ret a) h Q.
Proof. intros Hc HQ. by apply always_ret. Qed.

Lemma stays_ask op h :
  confined st id spec h → allowed st id spec h op → stays (ask op) h (λ a h', ev op a ∈ h').
Proof.
  intros Hc Hop. apply always_do. intros a. apply always_ret. split; [set_solver|].
  split; [by apply confined_snoc|]. set_solver.
Qed.

Lemma stays_add_secs t secs h :
  confined st id spec h → stays (add_secs t secs) h (λ t' _, t' = (t + secs * ns_per_s)%N).
Proof.
  intros Hc. unfold add_secs. destruct (_ <=? _)%N; [by apply stays_ret|].
  apply always_crash. done.
Qed.

Lemma stays_weaken {A} (p : prog A) h (Q Q' : A → list Event → Prop) :
  stays p h Q → (∀ a h', Q a h' → Q' a h') → stays p h Q'.
Proof.
  intros Hp HQ. eapply always_mono; [|exact Hp]. intros [a|msg] h' (? & ? & ?); [|done].
  split_and!; auto.
Qed.

(** ** The steps of a resolution *)

Lemma stays_read_cache dir url h :
  vs_cache_dir st = Some dir → ep_discovery (spec_endpoints spec) = Some url →
  confined st id spec h →
  stays (read_cache dir url) h (λ r h', ∀ doc, r = Some doc → discovered (vs_cache_dir st) url h' doc).
Proof.
  intros Hdir Hurl Hc. unfold read_cache.
  eapply stays_bind; [apply stays_ask; [done|by exists dir, url]|].
  intros raw h1 _ Hc1 Hraw. destruct raw as [raw|]; [|by apply stays_ret].
  destruct (json_parse raw) as [wrapped|] eqn:Hp; [|cbn; rewrite Hp; by apply stays_ret].
  cbn [mbind option_bind]. rewrite Hp. cbn [mbind option_bind].
  destruct (get wrapped "fetched_at") as [v|]; [|by apply stays_ret]. cbn [mbind option_bind].
  destruct (as_u64 v) as [fetched_at|]; [|by apply stays_ret]. cbn [mbind option_bind].
  unfold now_secs. eapply stays_bind.
  { eapply stays_bind; [by apply stays_ask|]. intros t h2 _ Hc2 _.
    by apply (stays_ret _ _ (λ _ _, True)). }
  intros t h2 Hsub Hc2 _. apply stays_ret; [done|]. intros doc Hdoc. right.
  exists dir, raw, wrapped. destruct (_ <=? _)%N; [|done]. split_and!; [done| |done|done]. set_solver.
Qed.

Lemma stays_fetch url h :
  ep_discovery (spec_endpoints spec) = Some url → confined st id spec h →
  stays (fetch url (vs_cache_dir st)) h
    (λ r h', ∀ doc, r = Ok doc → discovered (vs_cache_dir st) url h' doc).
Proof.
  intros Hurl Hc. unfold fetch.
  apply (stays_bind _ _ _ (λ r h', ∀ doc, r = Some doc → discovered (vs_cache_dir st) url h' doc)).
  { destruct (vs_cache_dir st) as [dir|] eqn:Hdir; [|by apply stays_ret].
    rewrite <-Hdir. by apply stays_read_cache. }
  intros [doc|] h1 _ Hc1 Hd.
  { apply stays_ret; [done|]. intros doc' [= <-]. auto. }
  destruct (url_allowed url) eqn:Hu; [|by apply stays_ret]. simpl negb. cbv iota.
  eapply stays_bind; [by apply stays_ask|]. intros reply h2 _ Hc2 Hreply.
  destruct reply as [[status body]|e]; [|by apply stays_ret].
  destruct (success status) eqn:Hs; [|by apply stays_ret]. simpl negb. cbv iota.
  destruct body as [doc|e]; [|by apply stays_ret].
  apply (stays_bind _ _ _ (λ _ _, True)).
  { destruct (vs_cache_dir st) as [dir|] eqn:Hdir; [|by apply stays_ret].
    unfold write_cache, now_secs. eapply stays_bind.
    { eapply stays_bind; [by apply stays_ask|]. intros t h3 _ Hc3 _.
      by apply (stays_ret _ _ (λ _ _, True)). }
    intros t h3 _ Hc3 _. eapply stays_weaken; [apply stays_ask; [done|by exists dir, url]|done]. }
  intros _ h3 Hsub Hc3 _. apply stays_ret; [done|]. intros doc' [= <-]. left. split; [done|].
  exists status. split; [done|]. set_solver.
Qed.

Lemma stays_endpoints h :
  confined st id spec h →
  stays (resolve_endpoints (spec_endpoints spec) (vs_cache_dir st)) h
    (λ r h', ∀ eps, r = Ok eps → token_endpoint st (spec_endpoints spec) h' (re_token_url eps)).
Proof.
  intros Hc. unfold resolve_endpoints.
  destruct (ep_discovery (spec_endpoints spec)) as [url|] eqn:Hurl.
  - eapply stays_try; [by apply stays_fetch| |done]. intros doc h1 _ Hc1 Hd. apply stays_ret; [done|].
    intros eps. unfold require_token_url, or_from, token_endpoint.
    destruct (ep_token_url (spec_endpoints spec)) as [u|]; [intros [= <-]; by left|].
    destruct (get doc "token_endpoint" ≫= as_str) as [u|] eqn:Hdoc; [|done]. intros [= <-].
    right. eauto 10.
  - apply stays_ret; [done|]. intros eps. unfold require_token_url, token_endpoint.
    destruct (ep_token_url (spec_endpoints spec)) as [u|]; [|done]. intros [= <-]. by left.
Qed.

Lemma stays_post_token url form h :
  confined st id spec h → token_endpoint st (spec_endpoints spec) h url → grant_form id spec h form →
  stays (post_token spec url form) h
    (λ r h', ∀ resp, r = Ok resp → ∃ body, token_reply h' body ∧ parse_token body = Ok resp).
Proof.
  intros Hc Hurl Hform. unfold post_token, post_form.
  apply (stays_try _ _ _ (λ r h', ∀ status body, r = Ok (status, body) → success status = true →
           is_Some (get body "access_token") → token_reply h' body)); [| |done].
  - eapply stays_bind; [apply stays_ask; [done|by exists url, form]|]. intros reply h1 _ Hc1 Hr.
    apply stays_ret; [done|]. destruct reply as [[status text]|e]; [|done].
    intros s b [= <- <-] Hs Ha. destruct text as [body|e]; [|by destruct Ha].
    by exists (token_form spec url form), status.
  - intros [status body] h1 _ Hc1 Hr. apply stays_ret; [done|]. intros resp.
    destruct (success status) eqn:Hs; [|done]. simpl. intros Hp. exists body. split; [|done].
    apply (Hr status body); [done|done|]. unfold parse_token in Hp.
    by destruct (get body "access_token") as [v|].
Qed.

Lemma parse_token_ok body resp :
  parse_token body = Ok resp →
  get body "access_token" ≫= as_str = Some (tr_access_token resp) ∧
  get body "refresh_token" ≫= as_str = tr_refresh_token resp.
Proof.
  unfold parse_token. destruct (get body "access_token" ≫= as_str) as [token|]; [|done].
  by intros [= <-].
Qed.

Definition minted (r : result VarError CachedToken) (h : list Event) : Prop :=
  ∀ c, r = Ok c → ∃ body, token_reply h body ∧ get body "access_token" ≫= as_str = Some (tk_token c).

Lemma token_reply_mono h h' body : h ⊆ h' → token_reply h body → token_reply h' body.
Proof. unfold token_reply. naive_solver. Qed.

Lemma stays_cached resp body h :
  confined st id spec h → token_reply h body → parse_token body = Ok resp →
  stays (do cached <- into_cached resp; Ret (Ok cached)) h minted.
Proof.
  intros Hc Hr Hp. unfold into_cached.
  apply (stays_bind _ _ _ (λ c _, tk_token c = tr_access_token resp)).
  - eapply stays_bind; [by apply stays_ask|]. intros t h1 _ Hc1 _.
    eapply stays_bind; [by apply stays_add_secs|]. intros x h2 _ Hc2 _. by apply stays_ret.
  - intros c h1 Hsub Hc1 Htk. apply stays_ret; [done|]. intros c' [= <-]. exists body.
    split; [by eapply token_reply_mono|]. rewrite Htk. by apply parse_token_ok.
Qed.

Lemma stays_refresh url h :
  is_interactive spec = true → confined st id spec h →
  token_endpoint st (spec_endpoints spec) h url →
  stays (refresh_exchange id spec url) h minted.
Proof.
  intros Hint Hc Hurl. unfold refresh_exchange. eapply stays_bind; [by apply stays_ask|].
  intros found h1 Hsub1 Hc1 Hf. destruct found as [[refresh|]|e]; cbn [persist map_err];
    [|by apply stays_ret|by apply stays_ret].
  eapply stays_try; [apply stays_post_token; [done|by eapply endpoint_mono|]| |done].
  { unfold grant_form. destruct spec; [done| |]; by exists refresh. }
  intros resp h2 Hsub2 Hc2 Hr. destruct (Hr resp eq_refl) as (body & Hb & Hp).
  apply (stays_try _ _ _ (λ _ _, True)); [| |done].
  - destruct (tr_refresh_token resp) as [new_rt|] eqn:Hn; [|by apply stays_ret].
    case_decide; [by apply stays_ret|]. eapply stays_bind; [|intros r h3 _ Hc3 _; by apply stays_ret].
    eapply stays_weaken; [apply (stays_ask (TokenSet id new_rt)); [done|]|done].
    split; [done|]. split; [done|]. exists body. split; [done|].
    rewrite <-Hn. by apply parse_token_ok.
  - intros _ h3 Hsub3 Hc3 _. eapply stays_cached; [done|by eapply token_reply_mono|done].
Qed.

Lemma stays_mint h : confined st id spec h → stays (mint st id spec) h minted.
Proof.
  intros Hc. unfold mint. eapply stays_try; [by apply stays_endpoints| |done].
  intros eps h1 Hsub Hc1 He. specialize (He eps eq_refl).
  destruct (is_interactive spec) eqn:Hint.
  - pose proof (stays_refresh (re_token_url eps) h1 Hint Hc1 He). by destruct spec.
  - destruct spec as [e cid secret scope audience tr| |] eqn:Hspec; [|done..]. rewrite <-Hspec in *.
    eapply stays_try; [apply stays_post_token; [done|done|by rewrite Hspec]| |done].
    intros resp h2 Hsub2 Hc2 Hr. destruct (Hr resp eq_refl) as (body & Hb & Hp).
    by eapply stays_cached.
Qed.
End props.

(** C19: a resolution sends the credentials of its variable to the explicit token endpoint, or to
    the one of the discovery document, which it gets over https or from a loopback host or from
    the cache of that very URL; it touches the cell, the refresh token and the cache file of this
    variable only, and persists nothing but a refresh token the endpoint granted; and a token it
    answers is from the cell with more than the skew left, or newly granted. *)
Theorem resolve_confined `{!OAuthLibs} st id spec :
  vs_specs st !! id = Some spec →
  always (resolve st id) [] (λ r h,
    confined st id spec h ∧
    ∀ token, r = Ok (Ok token) → token_source id h token).
Proof.
  intros Hspec. eapply (always_mono _ _
    (λ r h, [] ⊆ h ∧ confined st id spec h ∧
            match r with Ok r => ∀ token, r = Ok token → token_source id h token | Err _ => True end)).
  { intros [r|msg] h (_ & Hc & Hr); split; [done| |done|done]. intros token [= ->]. by apply Hr. }
  change (stays st id spec (resolve st id) [] (λ r h, ∀ token, r = Ok token → token_source id h token)).
  unfold resolve. rewrite Hspec. assert (confined st id spec []) as Hc by (intros e He; set_solver).
  eapply stays_bind; [by apply stays_ask|]. intros _ h1 _ Hc1 _.
  eapply stays_bind; [by apply stays_ask|]. intros t h2 _ Hc2 Ht.
  eapply stays_bind; [by apply stays_add_secs|]. intros fresh_until h3 Hs3 Hc3 ->.
  eapply stays_bind; [by apply stays_ask|]. intros cell h4 Hs4 Hc4 Hcell.
  destruct (is_fresh cell _) as [token|] eqn:Hf.
  - eapply stays_bind; [by apply stays_ask|]. intros _ h5 Hs5 Hc5 _. apply stays_ret; [done|].
    intros token' [= <-]. left. destruct cell as [c|]; [|done]. cbn in Hf.
    destruct (_ <? _)%N eqn:Hlt in Hf; [|done]. injection Hf as <-. apply N.ltb_lt in Hlt.
    exists c, t. split; [set_solver|]. split; [set_solver|done].
  - eapply stays_bind; [by apply stays_mint|]. intros [c|e] h5 Hs5 Hc5 Hm.
    + destruct (Hm c eq_refl) as (body & Hb & Ha).
      eapply stays_bind; [by apply (stays_ask st id spec (WriteCell id c))|]. intros _ h6 Hs6 Hc6 _.
      eapply stays_bind; [by apply stays_ask|]. intros _ h7 Hs7 Hc7 _. apply stays_ret; [done|].
      intros token' [= <-]. right. exists body. split; [|done].
      eapply token_reply_mono; [|done]. set_solver.
    + eapply stays_bind; [by apply stays_ask|]. intros _ h6 _ Hc6 _. by apply stays_ret.
Qed.
