(* ===== verification/OAuthDemo.v ===== *)
(** * A run of two resolutions
    A device-code variable with a persisted refresh token, resolved by two tasks at once; and a
    task that is dropped while its request is on the way, which loses the token. *)

From S2P Require Export OAuthRace OAuthProps.

#[export] Instance demo_libs : OAuthLibs := {|
  url_parse raw := Ok {| u_text := raw; u_scheme := "https"; u_host := Some (Domain "idp");
                         u_host_str := Some "idp"; u_port := None |};
  url_path _ := "/callback";
  url_with_pairs u _ := u_text u;
  query_pairs _ := [];
  json_parse _ := None;
  json_text _ := "";
  sha256 s := s;
  b64url s := s
|}.

(** ** Steps as a function *)

(** The truthful answers of a store whose token store works. *)
Definition answer (tid s : nat) (op : OAuthOp) (c : Conf) : option (OAuthAns op * Conf) :=
  match op with
  | LockCell id => match cf_locks c !! (s, id) with
                   | None => if decide (at_rest id (cf_locks c))
                             then Some ((), set_locks (<[(s, id) := tid]> (cf_locks c)) c) else None
                   | Some _ => None
                   end
  | UnlockCell id => Some ((), set_locks (delete (s, id) (cf_locks c)) c)
  | ReadCell id => Some (cf_cells c !! (s, id), c)
  | WriteCell id t => Some ((), set_cells (<[(s, id) := t]> (cf_cells c)) c)
  | Now => Some (cf_time c, c)
  | TokenGet id => Some (Ok (cf_tokens c !! id), c)
  | TokenSet id v => Some (Ok (), set_tokens (<[id := v]> (cf_tokens c)) c)
  | _ => None
  end.

Lemma answer_local tid s op c a c' : answer tid s op c = Some (a, c') → local tid s op c a c'.
Proof.
  destruct op; simpl; try done; try by intros [= <- <-].
  - destruct (cf_locks c !! (s, id)); [done|]. destruct (decide _); [|done]. by intros [= <- <-].
  - intros [= <- <-]. left. split; [by left|done].
  - intros [= <- <-]. by left.
Qed.

(** A step of a task that is not the answer of a server. *)
Definition advance_task (tid : nat) (c : Conf) : option Conf :=
  ta ← cf_tasks c !! tid;
  match ta_prog ta with
  | Do op k =>
      match is_post op with
      | inleft _ => if ta_sent ta then None else Some (with_task tid (send ta) c)
      | inright _ => '(a, c') ← answer tid (ta_store ta) op c; Some (with_task tid (continue ta (k a)) c')
      end
  | _ => None
  end.

Lemma advance_step st tid c c' : advance_task tid c = Some c' → step st c (Some tid) c'.
Proof.
  unfold advance_task. destruct (cf_tasks c !! tid) as [ta|] eqn:Hta; [|done]. cbn [mbind option_bind].
  destruct (ta_prog ta) as [r|msg|op k] eqn:Hp; [done..|].
  destruct (is_post op) as [[rq ->]|_].
  - destruct (ta_sent ta) eqn:Hs; [done|]. intros [= <-]. by eapply step_send.
  - destruct (answer tid (ta_store ta) op c) as [[a c1]|] eqn:Ha; [|done]. intros [= <-].
    eapply step_local; [done..|]. by apply answer_local.
Qed.

Fixpoint advances (tids : list nat) (c : Conf) : option Conf :=
  match tids with
  | [] => Some c
  | tid :: tids => advance_task tid c ≫= advances tids
  end.

Lemma advances_reachable st tids c c' :
  reachable st c → advances tids c = Some c' → reachable st c'.
Proof.
  revert c. induction tids as [|tid tids IH]; intros c Hc; simpl; [by intros [= <-]|].
  destruct (advance_task tid c) as [c1|] eqn:Ha; [|done]. apply IH. eapply reach_step; [done|].
  by apply advance_step.
Qed.

(** ** The run *)

Definition demo_spec : DynamicVarSpec :=
  DeviceCode {| ep_discovery := None; ep_authorization_url := None;
                ep_device_authorization_url := Some "https://idp/device";
                ep_token_url := Some "https://idp/token" |} "cid" None None.

Definition demo_vars : VariableStore :=
  {| vs_specs := {[ "gh::T" := demo_spec ]}; vs_cache_dir := None |}.

Definition demo_start : Conf := {|
  cf_time := 0; cf_cells := ∅; cf_locks := ∅;
  cf_tokens := {[ "gh::T" := "rt-1" ]}; cf_current := {[ "gh::T" := "rt-1" ]};
  cf_spoilt := ∅; cf_tasks := ∅
|}.

Definition demo_tasks : Conf :=
  let task := {| ta_store := 0; ta_id := "gh::T"; ta_prog := resolve demo_vars "gh::T";
                 ta_sent := false |} in
  with_task 1 task (with_task 0 task demo_start).

(** The first task takes the lock, looks at the clock, the cell and the persisted token, and sends
    its request; the second waits. *)
Definition demo_conf : Conf := default demo_start (advances [0; 0; 0; 0; 0]%nat demo_tasks).

Definition demo_request : FormPost :=
  token_form demo_spec "https://idp/token" (refresh_form "rt-1").

Lemma demo_initial : initial demo_start.
Proof. done. Qed.

Lemma demo_reachable : reachable demo_vars demo_conf.
Proof.
  apply (advances_reachable demo_vars [0; 0; 0; 0; 0]%nat demo_tasks); [|reflexivity].
  eapply reach_step; [eapply reach_step; [apply reach_initial, demo_initial|]|];
    by apply step_start.
Qed.

Lemma resolutions_share_witness :
  ∃ ta k, cf_tasks demo_conf !! 0%nat = Some ta ∧ ta_prog ta = Do (HttpPost demo_request : @Op oauth_signature) k ∧
    ta_id ta = "gh::T" ∧
    presented demo_request = Some "rt-1" ∧ cf_current demo_conf !! "gh::T" = Some "rt-1".
Proof.
  eexists _, _. split; [reflexivity|]. split; [reflexivity|]. split; [reflexivity|]. split; [reflexivity|].
  refine (proj1 (proj2 (proj2 (resolutions_share demo_vars demo_conf 0 _ demo_request _ demo_reachable
            eq_refl eq_refl eq_refl)) _) "rt-1" eq_refl).
  apply (bool_decide_unpack _). vm_compute. exact I.
Defined.


(** ** One resolution, and everything it does *)

Definition demo_answers (op : OAuthOp) : OAuthAns op :=
  match op with
  | ReadCell _ => None
  | Now | MonotonicNow => 0%N
  | HttpGet _ => Err "unreachable"
  | HttpPost _ => Ok (200%N, Ok (JObject [("access_token", JString "at-1");
                                          ("refresh_token", JString "rt-2")]))
  | TokenGet _ => Ok (Some "rt-1")
  | TokenSet _ _ => Ok ()
  | ReadFile _ => None
  | RandomBytes _ => ""
  | BindLoopback _ | Accept => Err "none"
  | _ => ()
  end.

Definition demo_handle (op : OAuthOp) (w : ()) : OAuthAns op * () := (demo_answers op, w).

Definition demo_events : list Event :=
  @events oauth_signature () _ demo_handle (resolve demo_vars "gh::T") ().

Lemma resolve_confined_witness :
  @exec oauth_signature () _ demo_handle (resolve demo_vars "gh::T") () = (Ok (Ok "at-1"), ()) ∧
  length demo_events = 9%nat ∧
  confined demo_vars "gh::T" demo_spec demo_events ∧ token_source "gh::T" demo_events "at-1".
Proof.
  split; [reflexivity|]. split; [reflexivity|].
  destruct (always_exec (demo_handle : ∀ op : @Op oauth_signature, () → Ans op * ())
              (resolve demo_vars "gh::T") () [] _
              (resolve_confined demo_vars "gh::T" demo_spec eq_refl)) as [Hc Hr].
  split; [exact Hc|]. exact (Hr "at-1" eq_refl).
Defined.

(** ** A task that is dropped *)

(** The first task is dropped, say because the client that waited for its query went away, when
    the server has served its request: from then on the persisted token is one the server
    refuses, and the variable has to be connected anew. *)
Definition demo_dropped : Conf := gone 0 (lost "gh::T" (Some "rt-2") demo_conf).

Lemma dropped_task_loses_token :
  reachable demo_vars demo_dropped ∧
  cf_tokens demo_dropped !! "gh::T" = Some "rt-1" ∧ cf_current demo_dropped !! "gh::T" = Some "rt-2" ∧
  cf_locks demo_dropped = ∅ ∧ "gh::T" ∈ cf_spoilt demo_dropped.
Proof.
  split; [|split; [|split; [|split]]].
  - assert ((λ ta, (ta_id ta, ta_sent ta)) <$> cf_tasks demo_conf !! 0%nat = Some ("gh::T", true))
      as Hta by (vm_compute; reflexivity).
    apply fmap_Some in Hta as (ta & Hta & Heq). injection Heq as Hid Hs.
    unfold demo_dropped. rewrite Hid. eapply reach_step; [apply demo_reachable|].
    exact (step_drop_served demo_vars demo_conf 0 ta (Some "rt-2") Hta (eq_sym Hs)).
  - vm_compute. reflexivity.
  - vm_compute. reflexivity.
  - vm_compute. reflexivity.
  - apply (bool_decide_unpack _). vm_compute. exact I.
Qed.
