(* ===== verification/OAuthSetup.v ===== *)
(** * Connecting an interactive variable ([crates/pawrly-secrets/src/variables/setup.rs])
    The device-code flow, which polls the token endpoint until the user has approved, and the
    authorization-code flow over a loopback callback; both persist a refresh token. *)

From S2P Require Export OAuth.

Section setup.
Context `{!OAuthLibs}.

Definition DEVICE_GRANT : string := "urn:ietf:params:oauth:grant-type:device_code".
Definition DEFAULT_INTERVAL_SECS : N := 5.
Definition DEFAULT_EXPIRES_SECS : N := 900.

Definition str_field (body : Json) (key : string) : result VarError string :=
  match get body key ≫= as_str with
  | Some s => Ok s
  | None => Err (Response ("missing `" +:+ key +:+ "`"))
  end.

Definition u64_field (body : Json) (key : string) (dflt : N) : N :=
  default dflt (get body key ≫= as_u64).

(** ** The device-code flow *)

(** [verification_uri], or Google's [verification_url]: whichever is there, if it is a string. *)
Definition verification_uri (body : Json) : result VarError string :=
  match match get body "verification_uri" with
        | Some v => Some v
        | None => get body "verification_url"
        end ≫= as_str with
  | Some uri => Ok uri
  | None => Err (Response "missing `verification_uri`")
  end.

Definition device_prompt (body : Json) : result VarError DevicePrompt :=
  rbind (str_field body "user_code") (λ user_code,
  rbind (verification_uri body) (λ uri,
  Ok {| dp_user_code := user_code; dp_verification_uri := uri;
        dp_verification_uri_complete := get body "verification_uri_complete" ≫= as_str;
        dp_expires_in := u64_field body "expires_in" DEFAULT_EXPIRES_SECS |})).

Definition persist_token (var_id refresh : string) : prog (result VarError ()) :=
  do r <- ask (TokenSet var_id refresh); Ret (persist r).

(** What a poll's answer means: poll again, slower or not, or the end. *)
Inductive Poll := Again (slower : bool) | Failed (e : VarError) | Granted (refresh : string).

Definition read_poll (status : N) (body : Json) : Poll :=
  match get body "error" ≫= as_str with
  | Some error =>
      if decide (error = "authorization_pending") then Again false
      else if decide (error = "slow_down") then Again true
      else Failed (OAuthError status error)
  | None =>
      if success status then
        match parse_token body with
        | Err e => Failed e
        | Ok parsed => match tr_refresh_token parsed with
                       | Some refresh => Granted refresh
                       | None => Failed (DeviceFlow "token response carried no `refresh_token`")
                       end
        end
      else Failed (Status status)
  end.

(** The loop; [fuel] bounds the polls. *)
Fixpoint poll_device (fuel : nat) (spec : DynamicVarSpec) (token_url device_code var_id : string)
    (interval deadline : N) : prog (result VarError ()) :=
  match fuel with
  | O => Crash "out of fuel"
  | S fuel =>
      do _ <- ask (Sleep interval);
      do t <- ask MonotonicNow;
      if (deadline <=? t)%N then Ret (Err (DeviceFlow "device code expired before approval"))
      else
        do? sb <- post_form spec token_url [("grant_type", DEVICE_GRANT); ("device_code", device_code)];
        let '(status, body) := sb in
        match read_poll status body with
        | Again slower =>
            poll_device fuel spec token_url device_code var_id
              (if slower then interval + 5 * ns_per_s else interval)%N deadline
        | Failed e => Ret (Err e)
        | Granted refresh => persist_token var_id refresh
        end
  end.

Definition device_start (spec : DynamicVarSpec) (url : string) : FormPost :=
  {| fp_url := url;
     fp_form := [("client_id", spec_client_id spec)]
                ++ match spec_scope spec with Some s => [("scope", s)] | None => [] end;
     fp_basic := None |}.

Definition device_code_connect (fuel : nat) (spec : DynamicVarSpec) (var_id : string)
    (cache_dir : option string) : prog (result VarError ()) :=
  match spec with
  | DeviceCode _ _ _ _ =>
      do? endpoints <- resolve_endpoints (spec_endpoints spec) cache_dir;
      match re_device_authorization_url endpoints with
      | None => Ret (Err (DeviceFlow ("no device authorization endpoint (the discovery document has "
                                      +:+ "no `device_authorization_endpoint`)")))
      | Some url =>
          do reply <- ask (HttpPost (device_start spec url));
          match reply with
          | Err e => Ret (Err (Request e))
          | Ok (status, text) =>
              if negb (success status) then
                Ret (Err (DeviceFlow ("device authorization returned HTTP " +:+ show_N status)))
              else
                match text with
                | Err e => Ret (Err (Response ("device authorization not JSON: " +:+ e)))
                | Ok body =>
                    do? device_code <- Ret (str_field body "device_code");
                    do? prompt <- Ret (device_prompt body);
                    let interval := (u64_field body "interval" DEFAULT_INTERVAL_SECS * ns_per_s)%N in
                    do t <- ask MonotonicNow;
                    do deadline <- add_secs t (dp_expires_in prompt);
                    do _ <- ask (ShowPrompt prompt);
                    poll_device fuel spec (re_token_url endpoints) device_code var_id interval deadline
                end
          end
      end
  | _ => Ret (Err (DeviceFlow "device_code_connect called for a non-device_code variable"))
  end.

(** ** The authorization-code flow *)

Definition code_form (code redirect_uri : string) (code_verifier : option string)
    : list (string * string) :=
  [("grant_type", "authorization_code"); ("code", code); ("redirect_uri", redirect_uri)]
  ++ match code_verifier with Some v => [("code_verifier", v)] | None => [] end.

Definition authorization_code_exchange (spec : DynamicVarSpec)
    (var_id code redirect_uri : string) (code_verifier : option string) (token_url : string)
    : prog (result VarError ()) :=
  match spec with
  | AuthorizationCode _ _ _ _ _ _ _ _ =>
      do? resp <- post_token spec token_url (code_form code redirect_uri code_verifier);
      match tr_refresh_token resp with
      | None => Ret (Err (Response "authorization_code response carried no `refresh_token`"))
      | Some refresh => persist_token var_id refresh
      end
  | _ => Ret (Err (DeviceFlow
           "authorization_code_exchange called for a non-authorization_code variable"))
  end.

Definition random_token (n : nat) : prog string := do bytes <- ask (RandomBytes n); Ret (b64url bytes).

Definition pkce_pair : prog (string * string) :=
  do verifier <- random_token 32; Ret (verifier, b64url (sha256 verifier)).

Definition build_authorize_url (authorization_url client_id redirect_uri : string)
    (scope : option string) (state : string) (code_challenge : option string)
    : result VarError string :=
  match url_parse authorization_url with
  | Err e => Err (DeviceFlow ("invalid authorization_url: " +:+ e))
  | Ok url =>
      Ok (url_with_pairs url
            ([("response_type", "code"); ("client_id", client_id); ("redirect_uri", redirect_uri);
              ("state", state)]
             ++ match scope with Some s => [("scope", s)] | None => [] end
             ++ match code_challenge with
                | Some c => [("code_challenge", c); ("code_challenge_method", "S256")]
                | None => []
                end))
  end.

(** A [HashMap] collected from pairs: the last of a name counts. *)
Definition last_value (key : string) (pairs : list (string * string)) : option string :=
  foldl (λ found kv, if decide (kv.1 = key) then Some kv.2 else found) None pairs.

(** The target of a request: the second word of its first line, cut at the first [?]. *)
Definition request_target (req : string) : string * string :=
  let target := default "" (head (lines req) ≫= λ l, split_whitespace l !! 1%nat) in
  default (target, "") (split_once "?" target).

(** [accept_callback]; [fuel] bounds the connections. *)
Fixpoint accept_callback (fuel : nat) (expected_path : string)
    : prog (result VarError (string * string)) :=
  match fuel with
  | O => Crash "out of fuel"
  | S fuel =>
      do conn <- ask Accept;
      match conn with
      | Err e => Ret (Err (DeviceFlow ("loopback accept: " +:+ e)))
      | Ok (Err e) => Ret (Err (DeviceFlow e))
      | Ok (Ok req) =>
          let '(req_path, query) := request_target req in
          if negb (bool_decide (req_path = expected_path)) then
            do _ <- ask (Respond "404 Not Found" "Not found."); accept_callback fuel expected_path
          else
            let params := query_pairs query in
            match last_value "error" params with
            | Some err =>
                do _ <- ask (Respond "200 OK" "Authorization failed. You can close this tab.");
                Ret (Err (OAuthError 0 err))
            | None =>
                match last_value "code" params with
                | None =>
                    do _ <- ask (Respond "400 Bad Request" "Missing authorization code.");
                    accept_callback fuel expected_path
                | Some code =>
                    do _ <- ask (Respond "200 OK" "Connected");
                    Ret (Ok (code, default "" (last_value "state" params)))
                end
            end
      end
  end.

Definition or_slash (path : string) : string := if decide (path = "") then "/" else path.

Definition authorization_code_connect (fuel : nat) (spec : DynamicVarSpec) (var_id : string)
    (cache_dir : option string) : prog (result VarError ()) :=
  match spec with
  | AuthorizationCode _ _ _ redirect_uri port_mode pkce _ _ =>
      do? endpoints <- resolve_endpoints (spec_endpoints spec) cache_dir;
      match re_authorization_url endpoints with
      | None => Ret (Err (DeviceFlow ("no authorization endpoint (the discovery document has no "
                                      +:+ "`authorization_endpoint`)")))
      | Some authorization_url =>
          match url_parse redirect_uri with
          | Err e => Ret (Err (DeviceFlow ("invalid redirect_uri: " +:+ e)))
          | Ok parsed =>
              let path := or_slash (url_path parsed) in
              let bind_port := match port_mode with
                               | FixedPort => default 0%N (u_port parsed)
                               | RandomPort => 0%N
                               end in
              do bound <- ask (BindLoopback bind_port);
              match bound with
              | Err e => Ret (Err (DeviceFlow ("loopback bind failed: " +:+ e)))
              | Ok (Err e) => Ret (Err (DeviceFlow e))
              | Ok (Ok actual_port) =>
                  let redirect := "http://127.0.0.1:" +:+ show_N actual_port +:+ path in
                  do pair <- (if pkce then do vc <- pkce_pair; Ret (Some vc) else Ret None);
                  do state <- random_token 16;
                  do? authorize_url <- Ret (build_authorize_url authorization_url
                        (spec_client_id spec) redirect (spec_scope spec) state (snd <$> pair));
                  do _ <- ask (ShowUrl authorize_url);
                  do? cs <- accept_callback fuel path;
                  let '(code, got_state) := cs in
                  if negb (bool_decide (got_state = state)) then
                    Ret (Err (DeviceFlow ("OAuth state mismatch (possible CSRF) "
                                          +:+ "— aborting")))
                  else
                    authorization_code_exchange spec var_id code redirect (fst <$> pair)
                      (re_token_url endpoints)
              end
          end
      end
  | _ => Ret (Err (DeviceFlow
           "authorization_code_connect called for a non-authorization_code variable"))
  end.
End setup.
