(* ===== verification/OAuthSetupProps.v ===== *)
(** * Connecting a variable: when polling ends, and which callback counts *)

From S2P Require Export OAuthSetup OAuthDemo.

(** ** The device-code flow *)

(** Time never goes back, a sleep lasts at least as long as asked, requests are counted. *)
Record Polling := { po_now : N; po_polls : N }.

Definition poll_spec : Spec Polling := λ op s,
  match op return (OAuthAns op → Polling → Prop) → Prop with
  | Sleep ns => λ Q, ∀ t, (po_now s + ns ≤ t)%N → Q () {| po_now := t; po_polls := po_polls s |}
  | MonotonicNow => λ Q, ∀ t, (po_now s ≤ t)%N → Q t {| po_now := t; po_polls := po_polls s |}
  | HttpPost _ => λ Q, ∀ a t, (po_now s ≤ t)%N → Q a {| po_now := t; po_polls := po_polls s + 1 |}
  | _ => λ Q, ∀ a t, (po_now s ≤ t)%N → Q a {| po_now := t; po_polls := po_polls s |}
  end.

Section setup.
Context `{!OAuthLibs}.

(** while a sleep lasts as long as asked, a device-code flow whose server asks for a positive
    interval ends: the loop never needs more rounds than intervals fit before the deadline, it
    never polls more often than the interval, slower after each [slow_down], and not at all after
    the deadline. *)
Theorem device_polls_bounded fuel spec url code id interval deadline now :
  (0 < interval)%N → (deadline - now < N.of_nat fuel * interval)%N →
  wp poll_spec (λ _ _, False) (poll_device fuel spec url code id interval deadline)
    {| po_now := now; po_polls := 0 |}
    (λ _ s, (po_polls s * interval ≤ deadline - now)%N).
Proof.
  intros Hi Hf. enough (∀ n, wp poll_spec (λ _ _, False)
    (poll_device fuel spec url code id interval deadline) {| po_now := now; po_polls := n |}
    (λ _ s, ((po_polls s - n) * interval ≤ deadline - now ∧ n ≤ po_polls s)%N)) as H'.
  { eapply wp_mono; [| |exact (H' 0%N)].
    - intros op s Q Q' HQ. destruct op; simpl; naive_solver.
    - intros r s [Hs _]. by rewrite N.sub_0_r in Hs. }
  revert interval now Hi Hf. induction fuel as [|fuel IH]; intros interval now Hi Hf n; [simpl in Hf; lia|].
  cbn [poll_device]. intros t1 Ht1 t2 Ht2. cbn [po_now po_polls] in *.
  cbn [pbind]. destruct (N.leb_spec deadline t2) as [Hd|Hd].
  { split; cbn [po_polls]; [rewrite N.sub_diag|]; lia. }
  intros reply t3 Ht3. cbn [po_now po_polls] in *.
  assert ((n + 1 - n) * interval ≤ deadline - now ∧ n ≤ n + 1)%N as Hone.
  { split; [|lia]. replace (n + 1 - n)%N with 1%N by lia. lia. }
  destruct reply as [[status body]|e]; [|exact Hone].
  cbn. destruct (read_poll status _) as [slower|e|refresh]; [|exact Hone|].
  - set (interval' := if slower then _ else _).
    assert (interval ≤ interval')%N as Hge by (unfold interval'; destruct slower; lia).
    assert (deadline - t3 < N.of_nat fuel * interval')%N as Hf' by nia.
    eapply wp_mono; [| |exact (IH interval' t3 ltac:(lia) Hf' (n + 1)%N)].
    + intros op s Q Q' HQ. destruct op; simpl; naive_solver.
    + intros r s [Hs Hn]. split; [|lia].
      assert ((po_polls s - (n + 1)) * interval ≤ deadline - t3)%N as Hs' by nia.
      replace (po_polls s - n)%N with ((po_polls s - (n + 1)) + 1)%N by lia. nia.
  - intros a t4 Ht4. exact Hone.
Qed.

(** ** The authorization-code flow *)

Definition is_set (op : OAuthOp) : Prop := match op with TokenSet _ _ => True | _ => False end.

(** A callback that named the state of this flow and was read as a request for its path. *)
Definition called_back (path code state : string) (h : list Event) : Prop :=
  ∃ req, ev Accept (Ok (Ok req)) ∈ h ∧
    let '(req_path, query) := request_target req in
    req_path = path ∧ last_value "error" (query_pairs query) = None ∧
    last_value "code" (query_pairs query) = Some code ∧
    default "" (last_value "state" (query_pairs query)) = state.

(** The verifier is random, and the challenge its digest. *)
Definition proof_key (pair : option (string * string)) (h : list Event) : Prop :=
  match pair with
  | Some (verifier, challenge) =>
      (∃ bytes, ev (RandomBytes 32) bytes ∈ h ∧ verifier = b64url bytes) ∧
      challenge = b64url (sha256 verifier)
  | None => True
  end.

(** The token [v] was granted for a code that came back, with the state that was sent, to the
    redirect that was sent, and, when there is a challenge, for the verifier behind it. *)
Definition granted_here (spec : DynamicVarSpec) (v : string) (h : list Event) : Prop :=
  ∃ authorize path port state code pair shown token_url status body,
    let redirect := "http://127.0.0.1:" +:+ show_N port +:+ path in
    ev (RandomBytes 16) state ∈ h ∧ proof_key pair h ∧
    build_authorize_url authorize (spec_client_id spec) redirect (spec_scope spec) (b64url state)
      (snd <$> pair) = Ok shown ∧ ev (ShowUrl shown) () ∈ h ∧
    called_back path code (b64url state) h ∧
    ev (HttpPost (token_form spec token_url (code_form code redirect (fst <$> pair))))
       (Ok (status, Ok body)) ∈ h ∧
    success status = true ∧ get body "refresh_token" ≫= as_str = Some v.

Definition unset (h : list Event) : Prop := ∀ e, e ∈ h → ¬ is_set (projT1 e).

Definition bound (spec : DynamicVarSpec) (id : string) (h : list Event) : Prop :=
  ∀ i v a, ev (TokenSet i v) a ∈ h → i = id ∧ granted_here spec v h.

Lemma unset_bound spec id h : unset h → bound spec id h.
Proof. intros Hu i v a He. by destruct (Hu _ He). Qed.

(** A part of the flow that sets no token, and what it establishes. *)
Lemma quiet_bind {A B} (m : prog A) (f : A → prog B) h (R : A → list Event → Prop) spec id :
  never is_set m → unset h →
  always m h (λ r h', ∀ a, r = Ok a → R a h') →
  (∀ a h', h ⊆ h' → unset h' → R a h' → always (f a) h' (λ _, bound spec id)) →
  always (pbind m f) h (λ _, bound spec id).
Proof.
  intros Hn Hu HR Hf. apply always_bind.
  pose proof (always_and _ _ _ _ HR (always_and _ _ _ _ (always_grows m h) (always_never is_set m h Hn)))
    as Hm.
  eapply always_mono; [|exact Hm]. intros r h' (Hr & Hg & Hs).
  assert (unset h') as Hu' by (intros e He Hset; exact (Hu e (Hs e He Hset) Hset)).
  destruct r as [a|msg]; [|by apply unset_bound]. by apply Hf; [| |apply Hr].
Qed.

Lemma quiet_try {E A B} (m : prog (result E A)) (f : A → prog (result E B)) h
    (R : A → list Event → Prop) spec id :
  never is_set m → unset h →
  always m h (λ r h', ∀ a, r = Ok (Ok a) → R a h') →
  (∀ a h', h ⊆ h' → unset h' → R a h' → always (f a) h' (λ _, bound spec id)) →
  always (ptry m f) h (λ _, bound spec id).
Proof.
  intros Hn Hu HR Hf.
  apply (quiet_bind m _ h (λ r h', ∀ a, r = Ok a → R a h')); [done|done| |].
  - eapply always_mono; [|exact HR]. intros r h' Hr a -> a' ->. by apply Hr.
  - intros [a|e] h' Hg Hu' Ha; [by apply Hf; [| |apply Ha]|]. by apply always_ret, unset_bound.
Qed.

Lemma quiet_ask {B} op (f : OAuthAns op → prog B) h spec id :
  ¬ is_set op → unset h →
  (∀ a h', h ⊆ h' → unset h' → ev op a ∈ h' → always (f a) h' (λ _, bound spec id)) →
  always (pbind (ask op) f) h (λ _, bound spec id).
Proof.
  intros Hop Hu Hf. apply (quiet_bind _ _ h (λ a h', ev op a ∈ h')); [done|done| |exact Hf].
  apply (always_do _ _ _ (λ r h', ∀ a, r = Ok a → ev op a ∈ h')). intros a.
  intros a' [= <-]. set_solver.
Qed.

Ltac never := repeat
  match goal with
  | |- never _ (pbind _ _) => apply never_bind
  | |- never _ (ptry _ _) => apply never_try
  | |- never _ (ask _) => split; [by intros []|done]
  | |- never _ (Do _ _) => split
  | |- never _ (match ?x with _ => _ end) => destruct x
  | |- ∀ _, _ => intro
  | |- _ => first [exact I | done]
  end.

Lemma never_endpoints e dir : never is_set (resolve_endpoints e dir).
Proof. unfold resolve_endpoints, fetch, read_cache, write_cache, now_secs. never. Qed.

Lemma never_callback fuel path : never is_set (accept_callback fuel path).
Proof. induction fuel as [|fuel IH]; [done|]. cbn [accept_callback]. never; exact IH. Qed.

Lemma callback_answers fuel path h :
  always (accept_callback fuel path) h (λ r h', ∀ cs, r = Ok (Ok cs) → called_back path cs.1 cs.2 h').
Proof.
  revert h. induction fuel as [|fuel IH]; intros h; [by apply always_crash|]. cbn [accept_callback].
  apply (always_do _ _ _ (λ r h', ∀ cs, r = Ok (Ok cs) → called_back path cs.1 cs.2 h')).
  intros conn. cbn [pbind]. destruct conn as [[req|e]|e]; [|by apply always_ret..].
  destruct (request_target req) as [req_path query] eqn:Ht.
  destruct (bool_decide (req_path = path)) eqn:Hp; simpl negb; cbv iota; cycle 1.
  { apply always_do. intros a. apply IH. }
  apply bool_decide_eq_true in Hp.
  destruct (last_value "error" (query_pairs query)) as [err|] eqn:He.
  { apply always_do. intros a. by apply always_ret. }
  destruct (last_value "code" (query_pairs query)) as [code|] eqn:Hc; cycle 1.
  { apply always_do. intros a. apply IH. }
  apply always_do. intros a. apply always_ret. intros cs [= <-]. exists req. rewrite Ht.
  split; [set_solver|done].
Qed.

Lemma always_trivial {A} (m : prog A) h : always m h (λ _ _, True).
Proof. eapply always_mono; [|apply always_grows]. done. Qed.

Lemma random_answers n h :
  always (random_token n) h (λ r h', ∀ t, r = Ok t → ∃ bytes, ev (RandomBytes n) bytes ∈ h' ∧ t = b64url bytes).
Proof.
  apply (always_do _ _ _ (λ r h', ∀ t, r = Ok t → ∃ bytes, ev (RandomBytes n) bytes ∈ h' ∧ t = b64url bytes)).
  intros bytes t [= <-]. exists bytes. split; [set_solver|done].
Qed.

Lemma pair_answers (pkce : bool) h :
  always (if pkce then do vc <- pkce_pair; Ret (Some vc) else Ret None) h
    (λ r h', ∀ pair, r = Ok pair → proof_key pair h').
Proof.
  destruct pkce; [|apply always_ret; by intros pair [= <-]].
  apply (always_do _ _ _ (λ r h', ∀ pair, r = Ok pair → proof_key pair h')).
  intros bytes. apply always_ret. intros pair [= <-]. split; [|done]. exists bytes. split; [set_solver|done].
Qed.

Lemma proof_key_mono pair h h' : h ⊆ h' → proof_key pair h → proof_key pair h'.
Proof. unfold proof_key. destruct pair as [[v c]|]; [|done]. naive_solver. Qed.

Lemma called_back_mono path code state h h' :
  h ⊆ h' → called_back path code state h → called_back path code state h'.
Proof. unfold called_back. intros Hh (req & Hreq & Hrest). exists req. split; [set_solver|done]. Qed.

(** The token response of an exchange, and its request. *)
Lemma exchange_answers spec url form h :
  always (post_token spec url form) h (λ r h', ∀ resp, r = Ok (Ok resp) →
    ∃ status body, ev (HttpPost (token_form spec url form)) (Ok (status, Ok body)) ∈ h' ∧
      success status = true ∧ get body "refresh_token" ≫= as_str = tr_refresh_token resp).
Proof.
  apply (always_do _ _ _ (λ r h', ∀ resp, r = Ok (Ok resp) →
    ∃ status body, ev (HttpPost (token_form spec url form)) (Ok (status, Ok body)) ∈ h' ∧
      success status = true ∧ get body "refresh_token" ≫= as_str = tr_refresh_token resp)).
  intros reply. destruct reply as [[status text]|e]; [|by apply always_ret].
  apply always_ret. intros resp [= Heq]. destruct (success status) eqn:Hs; [|done].
  destruct text as [body|e]; [|done]. exists status, body. split; [set_solver|]. split; [done|].
  simpl in Heq. unfold parse_token in Heq.
  destruct (get body "access_token" ≫= as_str); [|done]. by injection Heq as <-.
Qed.

(** C18: an authorization-code flow persists a token for its variable only when a callback to the
    path of the redirect carried a code and the random state of this very flow, and the token was
    granted for that code, the redirect that was sent, and the verifier whose digest was sent. *)
Theorem callback_state_checked fuel spec id dir :
  always (authorization_code_connect fuel spec id dir) [] (λ _, bound spec id).
Proof.
  assert (unset []) as Hu by (intros e He; set_solver).
  unfold authorization_code_connect.
  destruct spec as [|e cid secret|e cid secret uri pm pkce scope tr] eqn:Hspec;
    [by apply always_ret, unset_bound..|]. rewrite <-Hspec.
  eapply quiet_try; [apply never_endpoints|done| |].
  { eapply always_mono; [|apply always_trivial]. intros r h _ a _. exact I. }
  intros eps h1 _ Hu1 _. destruct (re_authorization_url eps) as [authorize|];
    [|by apply always_ret, unset_bound].
  destruct (url_parse uri) as [parsed|]; [|by apply always_ret, unset_bound].
  apply quiet_ask; [by intros []|done|]. intros bound_ h2 _ Hu2 _.
  destruct bound_ as [[port|e1]|e1]; [|by apply always_ret, unset_bound..].
  eapply quiet_bind; [destruct pkce; unfold pkce_pair, random_token; never|done|apply pair_answers|]. intros pair h3 _ Hu3 Hpair.
  eapply quiet_bind; [unfold random_token; never|done|apply random_answers|]. intros state h4 Hs4 Hu4 (bytes & Hb & ->).
  destruct (build_authorize_url _ _ _ _ _ _) as [shown|e1] eqn:Hshown;
    [|by apply always_ret, unset_bound].
  cbn [ptry pbind]. apply quiet_ask; [by intros []|done|]. intros [] h5 Hs5 Hu5 Hshow.
  eapply quiet_try; [apply never_callback|done|apply callback_answers|].
  intros [code got] h6 Hs6 Hu6 Hcall.
  destruct (bool_decide (got = b64url bytes)) eqn:Hgot; simpl negb; cbv iota;
    [|by apply always_ret, unset_bound]. apply bool_decide_eq_true in Hgot as ->.
  unfold authorization_code_exchange. rewrite Hspec at 1.
  eapply quiet_try; [unfold post_token, post_form; never|done|apply exchange_answers|].
  intros resp h7 Hs7 Hu7 (status & body & Hpost & Hok & Hrt).
  destruct (tr_refresh_token resp) as [refresh|]; [|by apply always_ret, unset_bound].
  apply (always_do _ _ _ (λ _, bound spec id)). intros a. apply always_ret.
  intros i v a' [Hin|Hin]%elem_of_app; [by destruct (Hu7 _ Hin)|].
  apply list_elem_of_singleton in Hin. unfold ev in Hin. injection Hin as -> -> _.
  split; [done|]. exists authorize, (or_slash (url_path parsed)), port, bytes, code, pair, shown,
    (re_token_url eps), status, body.
  split; [set_solver|]. split; [eapply proof_key_mono; [|done]; set_solver|].
  split; [exact Hshown|]. split; [set_solver|].
  split; [eapply called_back_mono; [|done]; set_solver|]. split; [set_solver|]. done.
Qed.
End setup.

(** A server that asks for five seconds and a code that lives for a minute: thirteen rounds are
    enough, and it is polled twelve times at most. *)
Lemma device_polls_bounded_witness :
  wp poll_spec (λ _ _, False)
    (poll_device 13 demo_spec "https://idp/token" "code" "gh::T" (5 * ns_per_s) (60 * ns_per_s))
    {| po_now := 0; po_polls := 0 |}
    (λ _ s, (po_polls s * (5 * ns_per_s) ≤ 60 * ns_per_s - 0)%N).
Proof. apply device_polls_bounded; reflexivity. Defined.
