(* ===== verification/Activity.v ===== *)
(** * The activity log ([crates/pawrly-core/src/activity.rs], [crates/pawrly-engine/src/])
    One record per engine operation: the text stored for its SQL ([redact.rs]), the in-memory ring
    ([system_table.rs]) and the durable store of Parquet files ([durable_activity.rs]) behind
    [system.activity]. *)

From S2P Require Export RustStr.

(** ** Records *)

Inductive Interface := InProcess | Cli | Grpc | Mcp | Flight.
Inductive Operation := OpQuery | OpSemanticQuery | OpExplain | OpMaterialize.
Inductive Status := StatusOk | StatusError.

Definition Interface_as_str (i : Interface) : string :=
  match i with
  | InProcess => "in_process" | Cli => "cli" | Grpc => "grpc" | Mcp => "mcp" | Flight => "flight"
  end.

Definition Operation_as_str (o : Operation) : string :=
  match o with
  | OpQuery => "query" | OpSemanticQuery => "semantic_query" | OpExplain => "explain"
  | OpMaterialize => "materialize"
  end.

Definition Status_as_str (s : Status) : string :=
  match s with StatusOk => "ok" | StatusError => "error" end.

(** [ar_at]: microseconds since the epoch. *)
Record ActivityRecord := {
  ar_id : string;
  ar_at : Z;
  ar_interface : Interface;
  ar_principal : option string;
  ar_operation : Operation;
  ar_sql : option string;
  ar_param_keys : list string;
  ar_status : Status;
  ar_error_code : option string;
  ar_duration_ms : N;
  ar_rows_returned : option N;
  ar_bytes : option N;
  ar_trace_id : option string
}.

(** ** Redaction *)

Inductive RedactMode := RedactOff | RedactLiterals | RedactTablesOnly.

Record Redacted := { rd_sql : option string; rd_degraded : bool }.

Definition STMT_KEYWORDS : list string :=
  ["SELECT"; "WITH"; "INSERT"; "UPDATE"; "DELETE"; "CREATE"; "DROP"; "ALTER"; "EXPLAIN"; "SHOW";
   "COPY"; "MERGE"; "CALL"; "SET"; "PRAGMA"; "DESCRIBE"].

Fixpoint take_alpha (s : string) : string :=
  match s with
  | String c s => if is_alpha c then String c (take_alpha s) else ""
  | "" => ""
  end.

Definition upper_chr (c : ascii) : ascii := if is_lower c then ascii_of_N (code c - 32) else c.

(** [to_uppercase] of ASCII letters. *)
Fixpoint to_uppercase (s : string) : string :=
  match s with
  | "" => ""
  | String c s => String (upper_chr c) (to_uppercase s)
  end.

Definition leading_keyword (sql : string) : option string :=
  let word := to_uppercase (take_alpha (trim_start sql)) in
  if bool_decide (word ∈ STMT_KEYWORDS) then Some word else None.

Section redact.
(** [sqlparser]: the statements of a text, the kind of one (the keyword [stmt_kind] picks), its
    tables, and its text with every literal expression replaced by the sentinel. *)
Context {Statement : Type} (parse : string → option (list Statement))
  (stmt_kind : Statement → string) (stmt_tables : Statement → list string)
  (without_literals : Statement → string).

(** [BTreeSet] of names. *)
Definition sorted_names (l : list string) : list string := sort_strings (remove_dups l).

Definition tables_only (sql : string) : option string :=
  stmts ← parse sql;
  let kind := join "," (stmt_kind <$> stmts) in
  match sorted_names (concat (stmt_tables <$> stmts)) with
  | [] => Some kind
  | tables => Some (kind +:+ " on " +:+ join ", " tables)
  end.

Definition redact_literals (stmts : list Statement) : string := join "; " (without_literals <$> stmts).

Definition redact (sql : string) (mode : RedactMode) : Redacted :=
  match mode with
  | RedactOff => {| rd_sql := Some sql; rd_degraded := false |}
  | RedactLiterals =>
      match parse sql with
      | Some stmts => {| rd_sql := Some (redact_literals stmts); rd_degraded := false |}
      | None => {| rd_sql := match tables_only sql with
                             | Some t => Some t
                             | None => leading_keyword sql
                             end; rd_degraded := true |}
      end
  | RedactTablesOnly =>
      match tables_only sql with
      | Some text => {| rd_sql := Some text; rd_degraded := false |}
      | None => {| rd_sql := leading_keyword sql; rd_degraded := true |}
      end
  end.

(** A text that does not parse leaves at most one of the keywords behind. *)
Lemma redact_degraded sql mode :
  mode ≠ RedactOff → parse sql = None →
  rd_degraded (redact sql mode) = true ∧
  ∀ text, rd_sql (redact sql mode) = Some text → text ∈ STMT_KEYWORDS.
Proof.
  intros Hm Hp. assert (tables_only sql = None) as Ht by (unfold tables_only; by rewrite Hp).
  destruct mode; [done| |]; simpl; rewrite ?Hp, Ht; (split; [done|]); simpl;
    unfold leading_keyword; intros text; case_bool_decide; intros [= <-]; done.
Qed.
End redact.

(** ** The ring *)

Record ActivityStore := { as_ring : list ActivityRecord; as_capacity : nat }.

Definition new_ring (capacity : nat) : ActivityStore :=
  {| as_ring := []; as_capacity := Nat.max capacity 1 |}.

Definition push (rec : ActivityRecord) (s : ActivityStore) : ActivityStore :=
  {| as_ring := (if (length (as_ring s) =? as_capacity s)%nat then tail (as_ring s) else as_ring s)
                ++ [rec];
     as_capacity := as_capacity s |}.

(** The ring holds the last records, in order. *)
Lemma ring_last capacity recs :
  as_ring (foldl (λ s r, push r s) (new_ring capacity) recs)
    = drop (length recs - Nat.max capacity 1) recs.
Proof.
  set (cap := Nat.max capacity 1). assert (1 ≤ cap)%nat as Hcap by (unfold cap; lia).
  enough (∀ recs, foldl (λ s r, push r s) (new_ring capacity) recs =
    {| as_ring := drop (length recs - cap) recs; as_capacity := cap |}) as H by (by rewrite H).
  clear recs. intros recs. induction recs as [|r recs IH] using rev_ind; [done|].
  rewrite foldl_app, IH. unfold push. simpl. f_equal. rewrite length_app, length_drop. simpl.
  destruct (Nat.eqb_spec (length recs - (length recs - cap)) cap) as [He|He].
  - replace (length recs + 1 - cap)%nat with (S (length recs - cap)) by lia.
    rewrite drop_app_le by lia. f_equal. rewrite <-Nat.add_1_r, <-drop_drop. by destruct (drop _ recs).
  - replace (length recs + 1 - cap)%nat with 0%nat by lia.
    by replace (length recs - cap)%nat with 0%nat by lia.
Qed.

(** ** The durable store *)

Record FileEntry := { fe_path : string; fe_min_at : Z; fe_max_at : Z; fe_rows : N }.

(** The directory: the manifest's entries and the Parquet files; the pending buffer; and the
    store's settings: records per flush and retention in microseconds. *)
Record Durable := {
  du_manifest : list FileEntry;
  du_files : gmap string (list ActivityRecord);
  du_pending : list ActivityRecord;
  du_flush_threshold : nat;
  du_retention : option Z
}.

Definition with_pending (p : list ActivityRecord) (d : Durable) : Durable :=
  {| du_manifest := du_manifest d; du_files := du_files d; du_pending := p;
     du_flush_threshold := du_flush_threshold d; du_retention := du_retention d |}.

Definition on_disk (m : list FileEntry) (f : gmap string (list ActivityRecord)) (d : Durable) : Durable :=
  {| du_manifest := m; du_files := f; du_pending := du_pending d;
     du_flush_threshold := du_flush_threshold d; du_retention := du_retention d |}.

(** The I/O of a flush: whether the Parquet file is written, and whether the manifest is. *)
Record FlushIo := { fi_parquet : bool; fi_manifest : bool }.

Definition time_range (recs : list ActivityRecord) : Z * Z :=
  foldl (λ '(lo, hi) r, (Z.min lo (ar_at r), Z.max hi (ar_at r))) (i64_max, i64_min) recs.

Definition entry_of (path : string) (recs : list ActivityRecord) : FileEntry :=
  let '(lo, hi) := time_range recs in
  {| fe_path := path; fe_min_at := lo; fe_max_at := hi; fe_rows := N.of_nat (length recs) |}.

(** [flush]: the buffer is taken, written to the file [path], and listed; [Ok] or an error. *)
Definition flush (io : FlushIo) (path : string) (d : Durable) : Durable * bool :=
  let recs := du_pending d in
  let d := with_pending [] d in
  match recs with
  | [] => (d, true)
  | _ =>
      if fi_parquet io then
        let files := <[path := recs]> (du_files d) in
        if fi_manifest io then (on_disk (du_manifest d ++ [entry_of path recs]) files d, true)
        else (on_disk (du_manifest d) files d, false)
      else (d, false)
  end.

(** [record]; an error of the flush is logged. *)
Definition record (io : FlushIo) (path : string) (rec : ActivityRecord) (d : Durable) : Durable :=
  let d := with_pending (du_pending d ++ [rec]) d in
  if (du_flush_threshold d <=? length (du_pending d))%nat then (flush io path d).1 else d.

(** [prune]: files whose newest record is older than the cutoff are deleted, if their deletion
    succeeds, and no longer listed, if the manifest can be written. *)
Definition prune (removed : string → bool) (written : bool) (cutoff : Z) (d : Durable) : Durable :=
  let old := List.filter (λ e, (fe_max_at e <? cutoff)%Z) (du_manifest d) in
  let files := foldl (λ f e, if removed (fe_path e) then delete (fe_path e) f else f) (du_files d) old in
  on_disk (if written then List.filter (λ e, (cutoff <=? fe_max_at e)%Z) (du_manifest d)
           else du_manifest d) files d.

Definition prune_if_due (removed : string → bool) (written : bool) (now : Z) (d : Durable) : Durable :=
  match du_retention d with
  | Some retention => prune removed written (now - Z.min retention i64_max)%Z d
  | None => d
  end.

(** [read_batches]: a file that cannot be read is skipped. *)
Definition read_records (readable : string → bool) (d : Durable) : list ActivityRecord :=
  concat ((λ e, if readable (fe_path e) then default [] (du_files d !! fe_path e) else [])
            <$> du_manifest d)
  ++ du_pending d.

(** ** What the activity log keeps
    While its I/O succeeds the durable store answers the whole history, in order and once, less
    what retention has pruned; what a failed flush loses. *)

(** ** The contents of a file *)

Definition recent (c : Z) (l : list ActivityRecord) : list ActivityRecord :=
  List.filter (λ r, (c <=? ar_at r)%Z) l.

Lemma recent_app c l l' : recent c (l ++ l') = recent c l ++ recent c l'.
Proof. apply List.filter_app. Qed.

Lemma recent_none c l : (∀ r, r ∈ l → (ar_at r < c)%Z) → recent c l = [].
Proof.
  intros Hl. induction l as [|r l IH]; [done|]. simpl.
  assert (ar_at r < c)%Z as Hr by (apply Hl; set_solver).
  replace (c <=? ar_at r)%Z with false by lia. apply IH. set_solver.
Qed.

Lemma time_range_max recs lo hi r :
  r ∈ recs →
  (ar_at r ≤ (foldl (λ '(lo, hi) r, (Z.min lo (ar_at r), Z.max hi (ar_at r))) (lo, hi) recs).2)%Z.
Proof.
  assert (∀ recs lo hi, (hi ≤ (foldl (λ '(lo, hi) r, (Z.min lo (ar_at r), Z.max hi (ar_at r)))
    (lo, hi) recs).2)%Z) as Hge.
  { clear. intros recs. induction recs as [|r recs IH]; intros lo hi; simpl; [lia|].
    specialize (IH (Z.min lo (ar_at r)) (Z.max hi (ar_at r))). lia. }
  revert lo hi. induction recs as [|r' recs IH]; intros lo hi Hin; [set_solver|]. simpl.
  apply elem_of_cons in Hin as [->|Hin]; [|by apply IH].
  specialize (Hge recs (Z.min lo (ar_at r')) (Z.max hi (ar_at r'))). lia.
Qed.

Lemma entry_of_max path recs r : r ∈ recs → (ar_at r ≤ fe_max_at (entry_of path recs))%Z.
Proof.
  unfold entry_of, time_range. intros Hr. pose proof (time_range_max recs i64_max i64_min r Hr).
  by destruct (foldl _ _ _).
Qed.

(** ** Histories *)

(** What happens to a store: a record arrives, and may fill the buffer, which is then flushed to
    the file named; the timer flushes; old files are pruned. *)
Inductive DurableOp :=
| DoRecord (rec : ActivityRecord) (path : string)
| DoFlush (path : string)
| DoPrune (removed : string → bool) (written : bool) (cutoff : Z).

Definition io_good : FlushIo := {| fi_parquet := true; fi_manifest := true |}.

Definition durable_step (d : Durable) (op : DurableOp) : Durable :=
  match op with
  | DoRecord rec path => record io_good path rec d
  | DoFlush path => (flush io_good path d).1
  | DoPrune removed written cutoff => prune removed written cutoff d
  end.

Definition op_paths (ops : list DurableOp) : list string :=
  omap (λ op, match op with DoRecord _ p | DoFlush p => Some p | DoPrune _ _ _ => None end) ops.

Definition op_records (ops : list DurableOp) : list ActivityRecord :=
  omap (λ op, match op with DoRecord r _ => Some r | _ => None end) ops.

(** No cutoff is later than [c]. *)
Definition cutoffs_before (c : Z) (ops : list DurableOp) : Prop :=
  ∀ removed written cutoff, DoPrune removed written cutoff ∈ ops → (cutoff ≤ c)%Z.

Definition file_of (d : Durable) (e : FileEntry) : list ActivityRecord :=
  default [] (du_files d !! fe_path e).

Definition everything (d : Durable) : list ActivityRecord := read_records (λ _, true) d.

Lemma everything_eq d : everything d = concat (file_of d <$> du_manifest d) ++ du_pending d.
Proof. done. Qed.

(** The store holds of the records [log] those since [c], in order, and no others twice. *)
Record keeps (c : Z) (log : list ActivityRecord) (d : Durable) : Prop := {
  kp_paths : NoDup (fe_path <$> du_manifest d);
  kp_max e r : e ∈ du_manifest d → r ∈ file_of d e → (ar_at r ≤ fe_max_at e)%Z;
  kp_sub : everything d `sublist_of` log;
  kp_recent : recent c (everything d) = recent c log
}.

Lemma keeps_pending c log rec d :
  keeps c log d → keeps c (log ++ [rec]) (with_pending (du_pending d ++ [rec]) d).
Proof.
  intros [Hp Hm Hs Hr].
  assert (everything (with_pending (du_pending d ++ [rec]) d) = everything d ++ [rec]) as Heq
    by (rewrite !everything_eq; simpl; by rewrite app_assoc).
  split; [done|done| |]; rewrite Heq; [by apply sublist_app|]. by rewrite !recent_app, Hr.
Qed.

Lemma keeps_flush c log path d :
  keeps c log d → path ∉ (fe_path <$> du_manifest d) →
  keeps c log (flush io_good path d).1 ∧ du_pending (flush io_good path d).1 = [].
Proof.
  intros [Hp Hm Hs Hr] Hfresh. unfold flush.
  destruct (du_pending d) as [|rec recs] eqn:Hpend; simpl.
  { split; [|done]. split; [done|done| |]; rewrite everything_eq in *; simpl; rewrite Hpend in *; done. }
  set (d' := on_disk _ _ _). set (l := rec :: recs) in *.
  assert (∀ e, e ∈ du_manifest d → file_of d' e = file_of d e) as Hsame.
  { intros e He. unfold file_of. simpl. rewrite lookup_insert_ne; [done|]. intros ->.
    apply Hfresh. by apply list_elem_of_fmap_2. }
  assert (file_of d' (entry_of path l) = l) as Hnew.
  { unfold file_of, entry_of. destruct (time_range l). simpl. by rewrite lookup_insert_eq. }
  assert (everything d' = everything d) as Heq.
  { rewrite !everything_eq. simpl. rewrite fmap_app, concat_app, Hpend. simpl.
    rewrite Hnew, !app_nil_r. f_equal. f_equal. apply list_fmap_ext. intros i e He.
    apply Hsame. by eapply list_elem_of_lookup_2. }
  split; [|done]. split; rewrite ?Heq; [| |done|done].
  - simpl. rewrite fmap_app. apply NoDup_app. split; [done|]. split; [|apply NoDup_singleton].
    intros p Hin Hp'. apply list_elem_of_singleton in Hp' as ->. unfold entry_of in Hin.
    destruct (time_range l). done.
  - intros e r [He|He]%elem_of_app Hin.
    + apply Hm; [done|]. by rewrite <-Hsame.
    + apply list_elem_of_singleton in He as ->. rewrite Hnew in Hin. by apply entry_of_max.
Qed.

(** Deleting the files of some entries. *)
Lemma deleted_lookup (removed : string → bool) (old : list FileEntry) f p :
  foldl (λ f e, if removed (fe_path e) then delete (fe_path e) f else f) f old !! p =
  if bool_decide (p ∈ (fe_path <$> old)) && removed p then None else (f : gmap string (list ActivityRecord)) !! p.
Proof.
  revert f. induction old as [|e old IH]; intros f; [done|]. cbn [foldl]. rewrite IH, fmap_cons.
  destruct (decide (p = fe_path e)) as [->|Hne].
  - rewrite (bool_decide_eq_true_2 (fe_path e ∈ _ :: _)) by set_solver. simpl.
    destruct (removed (fe_path e)); [|by rewrite !andb_false_r].
    rewrite lookup_delete_eq. by destruct (_ && _).
  - rewrite (bool_decide_ext (p ∈ fe_path e :: (fe_path <$> old)) (p ∈ (fe_path <$> old)))
      by set_solver.
    destruct (_ && _); [done|]. destruct (removed (fe_path e)); [|done]. by rewrite lookup_delete_ne by done.
Qed.

(** Entries that lose records older than the cutoff, or go. *)
Lemma concat_loses (f f' : FileEntry → list ActivityRecord) (keep : FileEntry → bool) c l :
  (∀ e, e ∈ l → f' e `sublist_of` f e ∧ recent c (f' e) = recent c (f e)) →
  (∀ e, e ∈ l → keep e = false → recent c (f e) = []) →
  concat (f' <$> List.filter keep l) `sublist_of` concat (f <$> l) ∧
  recent c (concat (f' <$> List.filter keep l)) = recent c (concat (f <$> l)).
Proof.
  intros Hf Hk. induction l as [|e l IH]; [done|].
  destruct IH as [IHs IHr]; [set_solver|set_solver|].
  destruct (Hf e ltac:(set_solver)) as [Hsub Hrec].
  cbn [List.filter]. destruct (keep e) eqn:He; rewrite ?fmap_cons; cbn [concat].
  - split; [by apply sublist_app|]. by rewrite !recent_app, IHr, Hrec.
  - split; [by apply sublist_inserts_l|]. by rewrite recent_app, (Hk e ltac:(set_solver) He).
Qed.

Lemma keeps_prune c log removed written cutoff d :
  (cutoff ≤ c)%Z → keeps c log d → keeps c log (prune removed written cutoff d).
Proof.
  intros Hcut [Hp Hm Hs Hr]. set (d' := prune removed written cutoff d).
  assert (∀ e, e ∈ du_manifest d → file_of d' e = file_of d e ∨
            file_of d' e = [] ∧ (fe_max_at e < cutoff)%Z) as Hfile.
  { intros e He. unfold file_of, d', prune. cbn [du_files on_disk]. rewrite deleted_lookup.
    destruct (bool_decide (_ ∈ _) && _) eqn:Hb; [right|by left]. split; [done|].
    apply andb_true_iff in Hb as [Hb%bool_decide_eq_true _].
    apply list_elem_of_fmap in Hb as (e' & Hpath & He').
    apply list_elem_of_In, filter_In in He' as [He' Hlt%Z.ltb_lt]. apply list_elem_of_In in He'.
    replace e with e'; [done|]. apply list_elem_of_lookup in He as [i Hi], He' as [j Hj].
    assert (i = j) as ->; [|congruence]. eapply NoDup_lookup; [exact Hp| |].
    - by rewrite list_lookup_fmap, Hi.
    - rewrite list_lookup_fmap, Hj. simpl. by rewrite Hpath. }
  assert (∀ e, e ∈ du_manifest d → (fe_max_at e < cutoff)%Z → recent c (file_of d e) = []) as Hold.
  { intros e He Hlt. apply recent_none. intros r Hin. specialize (Hm e r He Hin). lia. }
  set (keep := λ e, negb written || (cutoff <=? fe_max_at e)%Z).
  assert (du_manifest d' = List.filter keep (du_manifest d)) as Hman.
  { unfold d', prune, keep. simpl. destruct written; [done|]. simpl.
    clear. induction (du_manifest d) as [|e l IH]; [done|]. simpl. by rewrite <-IH. }
  destruct (concat_loses (file_of d) (file_of d') keep c (du_manifest d)) as [Hsub Hrec].
  { intros e He. destruct (Hfile e He) as [->|[-> Hlt]]; [done|].
    split; [apply sublist_nil_l|]. by rewrite Hold. }
  { intros e He Hk. apply Hold; [done|]. unfold keep in Hk.
    apply orb_false_iff in Hk as [_ Hk]. lia. }
  rewrite everything_eq in Hs, Hr. split.
  - rewrite Hman. clear -Hp. induction (du_manifest d) as [|e l IH]; [done|].
    apply NoDup_cons in Hp as [Hnin Hp]. simpl. destruct (keep e); [|by apply IH].
    apply NoDup_cons. split; [|by apply IH]. intros Hin. apply Hnin.
    apply list_elem_of_fmap in Hin as (e' & -> & He'). apply list_elem_of_In, filter_In in He' as [He' _].
    apply list_elem_of_fmap_2. by apply list_elem_of_In.
  - intros e r He Hin. rewrite Hman in He. apply list_elem_of_In, filter_In in He as [He _].
    apply list_elem_of_In in He. destruct (Hfile e He) as [Heq|[Heq _]]; rewrite Heq in Hin; [by apply Hm|].
    by apply not_elem_of_nil in Hin.
  - rewrite everything_eq, Hman. etrans; [|exact Hs]. by apply sublist_app.
  - rewrite everything_eq, Hman, recent_app, Hrec, <-recent_app. exact Hr.
Qed.

(** The buffer never fills up. *)
Definition bounded (d : Durable) : Prop := (length (du_pending d) < du_flush_threshold d)%nat.

Definition fresh_paths (ops : list DurableOp) (d : Durable) : Prop :=
  NoDup (op_paths ops) ∧ ∀ p, p ∈ op_paths ops → p ∉ (fe_path <$> du_manifest d).

Lemma flush_paths io path d :
  fe_path <$> du_manifest (flush io path d).1 = fe_path <$> du_manifest d ∨
  fe_path <$> du_manifest (flush io path d).1 = (fe_path <$> du_manifest d) ++ [path].
Proof.
  unfold flush. destruct (du_pending d); [by left|]. destruct (fi_parquet io), (fi_manifest io); simpl;
    [|by left..]. right. rewrite fmap_app. f_equal. simpl. unfold entry_of. by destruct (time_range _).
Qed.

Lemma flush_threshold_kept io path d : du_flush_threshold (flush io path d).1 = du_flush_threshold d.
Proof. unfold flush. destruct (du_pending d); [done|]. by destruct (fi_parquet io), (fi_manifest io). Qed.

Lemma step_keeps c log op d :
  keeps c log d → bounded d → fresh_paths [op] d →
  (∀ removed written cutoff, op = DoPrune removed written cutoff → (cutoff ≤ c)%Z) →
  keeps c (log ++ op_records [op]) (durable_step d op) ∧ bounded (durable_step d op) ∧
  ∀ p, p ∈ (fe_path <$> du_manifest (durable_step d op)) →
       p ∈ (fe_path <$> du_manifest d) ∨ p ∈ op_paths [op].
Proof.
  intros Hk Hb [_ Hfresh] Hcut. unfold bounded in *. destruct op as [rec path|path|removed written cutoff]; simpl.
  - pose proof (keeps_pending c log rec d Hk) as Hk'. unfold record. set (d' := with_pending _ d) in *.
    destruct (Nat.leb_spec (du_flush_threshold d') (length (du_pending d'))) as [Hfull|Hroom].
    + destruct (keeps_flush c _ path d' Hk') as [Hk2 Hpend]; [apply Hfresh; set_solver|].
      split; [done|]. rewrite Hpend, flush_threshold_kept. simpl in *. split; [lia|].
      intros p. destruct (flush_paths io_good path d') as [-> | ->]; set_solver.
    + split; [done|]. split; [done|]. intros p Hp. by left.
  - rewrite app_nil_r. destruct (keeps_flush c log path d Hk) as [Hk2 Hpend]; [apply Hfresh; set_solver|].
    split; [done|]. rewrite Hpend, flush_threshold_kept. simpl. split; [lia|].
    intros p. destruct (flush_paths io_good path d) as [-> | ->]; set_solver.
  - rewrite app_nil_r. split; [by eapply keeps_prune; [eapply Hcut|]|]. split; [done|].
    intros p Hp. left. destruct written; [|done]. simpl in Hp.
    apply list_elem_of_fmap in Hp as (e & -> & He). apply list_elem_of_In, filter_In in He as [He _].
    apply list_elem_of_fmap_2. by apply list_elem_of_In.
Qed.

(** whatever the order in which records arrive, the buffer fills up or the timer flushes it, and
    old files are pruned, a store whose writes succeed answers of all records since the latest
    cutoff each exactly once and in the order they were recorded, and never one twice or out of
    order; and the buffer stays below its threshold. *)
Theorem durable_keeps_history c ops d :
  du_manifest d = [] → du_pending d = [] → (0 < du_flush_threshold d)%nat →
  NoDup (op_paths ops) → cutoffs_before c ops →
  let d' := foldl durable_step d ops in
  everything d' `sublist_of` op_records ops ∧
  recent c (everything d') = recent c (op_records ops) ∧ bounded d'.
Proof.
  intros Hm Hp Ht Hnd Hc.
  enough (∀ log d, keeps c log d → bounded d → fresh_paths ops d →
    keeps c (log ++ op_records ops) (foldl durable_step d ops) ∧ bounded (foldl durable_step d ops)) as Hrun.
  { destruct (Hrun [] d) as [[_ _ Hs Hr] Hb]; [| | |done].
    - split; rewrite ?everything_eq, ?Hm, ?Hp; [constructor|set_solver|done|done].
    - unfold bounded. rewrite Hp. done.
    - split; [done|]. rewrite Hm. set_solver. }
  clear d Hm Hp Ht Hnd. induction ops as [|op ops IH]; intros log d Hk Hb [Hnd Hfresh].
  { simpl. by rewrite app_nil_r. }
  assert (op_paths (op :: ops) = op_paths [op] ++ op_paths ops ∧
          op_records (op :: ops) = op_records [op] ++ op_records ops) as [Hps Hrs]
    by (split; by destruct op).
  rewrite Hps in Hnd, Hfresh. apply NoDup_app in Hnd as (Hnd1 & Hdisj & Hnd2).
  destruct (step_keeps c log op d) as (Hk' & Hb' & Hpaths); [done|done| | |].
  { split; [done|]. set_solver. }
  { intros removed written cutoff ->. eapply Hc. by apply list_elem_of_here. }
  cbn [foldl]. rewrite Hrs, app_assoc. apply IH; [|done|done|].
  - intros removed written cutoff Hin. eapply Hc. by apply list_elem_of_further.
  - split; [done|]. intros p Hin [?|?]%Hpaths; [set_solver|]. by eapply Hdisj.
Qed.

(** A flush whose file cannot be written loses what it took from the buffer. *)
Lemma failed_flush_loses path d :
  everything (flush {| fi_parquet := false; fi_manifest := true |} path d).1
    = concat (file_of d <$> du_manifest d).
Proof. unfold flush. rewrite everything_eq. by destruct (du_pending d); simpl; rewrite app_nil_r. Qed.

Definition sample_record (id : string) (at_ : Z) : ActivityRecord := {|
  ar_id := id; ar_at := at_; ar_interface := Grpc; ar_principal := None; ar_operation := OpQuery;
  ar_sql := Some "SELECT on orders"; ar_param_keys := []; ar_status := StatusOk; ar_error_code := None;
  ar_duration_ms := 1; ar_rows_returned := Some 1%N; ar_bytes := None; ar_trace_id := None
|}.

Definition sample_durable : Durable := {|
  du_manifest := []; du_files := ∅; du_pending := []; du_flush_threshold := 2; du_retention := Some 50%Z
|}.

(** The second record fills the buffer, the third waits for the timer, and the first file is too
    old at 60. *)
Definition sample_ops : list DurableOp :=
  [DoRecord (sample_record "a" 10) "f1"; DoRecord (sample_record "b" 20) "f2";
   DoRecord (sample_record "c" 70) "f3"; DoFlush "f4"; DoPrune (λ _, true) true 60;
   DoRecord (sample_record "d" 80) "f5"].

Lemma durable_keeps_history_witness :
  let d' := foldl durable_step sample_durable sample_ops in
  everything d' = [sample_record "c" 70; sample_record "d" 80] ∧
  recent 60 (everything d') = recent 60 (op_records sample_ops) ∧ bounded d'.
Proof.
  intros d'. split; [reflexivity|].
  refine (proj2 (durable_keeps_history 60 sample_ops sample_durable _ _ _ _ _));
    [reflexivity|reflexivity|simpl; lia| |].
  - apply (bool_decide_unpack _). reflexivity.
  - intros removed written cutoff Hin. unfold sample_ops in Hin.
    repeat (apply elem_of_cons in Hin as [Hin|Hin]; [try discriminate Hin; injection Hin as _ _ ->; lia|]).
    by apply not_elem_of_nil in Hin.
Defined.
