(* ===== verification/Queries.v ===== *)
(** * Queries of the engine ([crates/pawrly-engine/src/local.rs], [stream.rs])
    The text of a query before it is planned, and its life: the guard that counts it, the stream
    of its batches, its cancellation, and the record it leaves. *)

From S2P Require Export EngineErrors Activity.

(** ** The text of a query *)

(** [substitute_params]: the parameters in the order the map gives them. *)
Definition param_needle (k : string) : string := "${param:" +:+ k +:+ "}".

Definition substitute_params `{!HashIter string} (sql : string) (params : gmap string string) : string :=
  foldl (λ out k, replace out (param_needle k) (default "" (params !! k))) sql (hash_iter (dom params)).

(** The name a directive line gives. *)
Definition directive (comment : string) : option (option string) :=
  match strip_prefix "pawrly:" (trim comment) with
  | None => None
  | Some rest => match strip_prefix "materialize" (trim rest) with
                 | None => None
                 | Some args => Some (head (split_whitespace args))
                 end
  end.

(** The lines from the [i]th on; [all] are all of them. *)
Fixpoint parse_directive (all : list string) (i : nat) (rest : list string) : option (string * string) :=
  match rest with
  | [] => None
  | raw :: rest =>
      let line := trim raw in
      if decide (line = "") then parse_directive all (S i) rest
      else match strip_prefix "--" line with
           | None => None
           | Some comment =>
               match directive comment with
               | Some None => None
               | Some (Some name) => Some (name, join (chr "010") (delete i all))
               | None => parse_directive all (S i) rest
               end
           end
  end.

Definition parse_inline_materialize (sql : string) : option (string * string) :=
  parse_directive (lines sql) 0 (lines sql).

Definition is_hexdigit (c : ascii) : bool := is_digit c || in_range 65 70 c || in_range 97 102 c.

Definition trace_id_from_traceparent (tp : string) : option string :=
  trace ← split "-" tp !! 1%nat;
  if (String.length trace =? 32)%nat && all_chars is_hexdigit trace then Some trace else None.

(** ** The guard *)

(** [QueryCompleted]; times are nanoseconds. *)
Record QueryCompleted := { qc_rows_returned : N; qc_truncated : bool; qc_elapsed : N }.

(** [ActivityContext], without the sink. *)
Record ActivityContext := {
  ac_id : string;
  ac_interface : Interface;
  ac_principal : option string;
  ac_operation : Operation;
  ac_sql : option string;
  ac_param_keys : list string;
  ac_trace_id : option string
}.

(** The guard of the query [g_id]; [g_ok] is its status. *)
Record QueryGuard := {
  g_id : string;
  g_start : N;
  g_rows : N;
  g_ok : bool;
  g_error_code : option string;
  g_activity : option ActivityContext
}.

(** What the queries of an engine share: the active count, the registry of those that can be
    cancelled, the cancel flags, the completion slots, and the activity records emitted. *)
Record Shared := {
  sh_active : Z;
  sh_registry : gset string;
  sh_flags : gmap string bool;
  sh_completed : gmap string QueryCompleted;
  sh_log : list ActivityRecord
}.

Definition guard_start (id : string) (actx : option ActivityContext) (now : N) (sh : Shared)
    : QueryGuard * Shared :=
  ({| g_id := id; g_start := now; g_rows := 0; g_ok := false; g_error_code := None;
      g_activity := actx |},
   {| sh_active := sh_active sh + 1; sh_registry := sh_registry sh; sh_flags := sh_flags sh;
      sh_completed := sh_completed sh; sh_log := sh_log sh |}).

(** The flag and the registry entry of a new query. *)
Definition register_cancel (id : string) (sh : Shared) : Shared :=
  {| sh_active := sh_active sh; sh_registry := {[ id ]} ∪ sh_registry sh;
     sh_flags := <[id := false]> (sh_flags sh); sh_completed := sh_completed sh;
     sh_log := sh_log sh |}.

Definition set_activity_sql (sql : option string) (g : QueryGuard) : QueryGuard :=
  {| g_id := g_id g; g_start := g_start g; g_rows := g_rows g; g_ok := g_ok g;
     g_error_code := g_error_code g;
     g_activity := (λ c, {| ac_id := ac_id c; ac_interface := ac_interface c;
                            ac_principal := ac_principal c; ac_operation := ac_operation c;
                            ac_sql := sql; ac_param_keys := ac_param_keys c;
                            ac_trace_id := ac_trace_id c |}) <$> g_activity g |}.

Definition mark_ok (rows : N) (g : QueryGuard) : QueryGuard :=
  {| g_id := g_id g; g_start := g_start g; g_rows := rows; g_ok := true;
     g_error_code := g_error_code g; g_activity := g_activity g |}.

Definition mark_error (e : EngineError) (g : QueryGuard) : QueryGuard :=
  {| g_id := g_id g; g_start := g_start g; g_rows := g_rows g; g_ok := g_ok g;
     g_error_code := Some (EngineError_code e); g_activity := g_activity g |}.

(** The record of a query that ends. *)
Definition guard_record (g : QueryGuard) (c : ActivityContext) (now : N) : ActivityRecord :=
  {| ar_id := ac_id c; ar_at := Z.of_N (now / 1000); ar_interface := ac_interface c;
     ar_principal := ac_principal c; ar_operation := ac_operation c; ar_sql := ac_sql c;
     ar_param_keys := ac_param_keys c; ar_status := if g_ok g then StatusOk else StatusError;
     ar_error_code := g_error_code g; ar_duration_ms := (now - g_start g) / 1000000;
     ar_rows_returned := if g_ok g then Some (g_rows g) else None; ar_bytes := None;
     ar_trace_id := ac_trace_id c |}.

(** [Drop]; the completion slot is written once. *)
Definition guard_drop (now : N) (g : QueryGuard) (sh : Shared) : Shared :=
  {| sh_active := sh_active sh - 1;
     sh_registry := sh_registry sh ∖ {[ g_id g ]};
     sh_flags := sh_flags sh;
     sh_completed :=
       match sh_completed sh !! g_id g with
       | Some _ => sh_completed sh
       | None => <[g_id g := {| qc_rows_returned := g_rows g; qc_truncated := false;
                                qc_elapsed := now - g_start g |}]> (sh_completed sh)
       end;
     sh_log := sh_log sh ++ match g_activity g with
                            | Some c => [guard_record g c now]
                            | None => []
                            end |}.

(** [cancel]. *)
Definition cancel (id : string) (sh : Shared) : Shared * bool :=
  if decide (id ∈ sh_registry sh) then
    ({| sh_active := sh_active sh; sh_registry := sh_registry sh;
        sh_flags := <[id := true]> (sh_flags sh); sh_completed := sh_completed sh;
        sh_log := sh_log sh |}, true)
  else (sh, false).

(** [health]: the queries it counts. *)
Definition health_active (sh : Shared) : Z := Z.max 0 (sh_active sh).

(** ** The stream *)

(** [InstrumentedStream], over a stream of batches that count their rows. *)
Record InstrumentedStream := {
  is_id : string;
  is_guard : option QueryGuard;
  is_rows : N;
  is_cancel_emitted : bool
}.

(** What polling a stream gives. *)
Inductive Polled := Batch (rows : N) | Failure (e : EngineError) | End | Pending.

Definition adapt_instrumented (g : QueryGuard) : InstrumentedStream :=
  {| is_id := g_id g; is_guard := Some g; is_rows := 0; is_cancel_emitted := false |}.

Definition with_guard (g : option QueryGuard) (s : InstrumentedStream) : InstrumentedStream :=
  {| is_id := is_id s; is_guard := g; is_rows := is_rows s; is_cancel_emitted := is_cancel_emitted s |}.

(** A guard that was taken is dropped. *)
Definition drop_guard (now : N) (g : option QueryGuard) (sh : Shared) : Shared :=
  match g with Some g => guard_drop now g sh | None => sh end.

(** How far a poll is: it has its answer, with the guard it took and now drops, or it has found
    its flag down and polls the stream below. *)
Inductive PollPhase :=
| Answered (item : Polled) (taken : option QueryGuard) (s : InstrumentedStream)
| Inner (s : InstrumentedStream).

(** [poll_next] up to the inner poll; [flag] is what it loads. *)
Definition poll_load (flag : bool) (s : InstrumentedStream) : PollPhase :=
  if is_cancel_emitted s then Answered End (is_guard s) (with_guard None s)
  else if flag then
    Answered (Failure ECancelled) None
      {| is_id := is_id s; is_guard := mark_error ECancelled <$> is_guard s; is_rows := is_rows s;
         is_cancel_emitted := true |}
  else Inner s.

(** The rest, once the stream below has answered [inner]. *)
Definition poll_settle (inner : Polled) (s : InstrumentedStream) : PollPhase :=
  match inner with
  | Batch rows => Answered (Batch rows) None
                    {| is_id := is_id s; is_guard := is_guard s; is_rows := is_rows s + rows;
                       is_cancel_emitted := is_cancel_emitted s |}
  | Failure e => Answered (Failure e) None (with_guard (mark_error e <$> is_guard s) s)
  | End => Answered End (mark_ok (is_rows s) <$> is_guard s) (with_guard None s)
  | Pending => Answered Pending None s
  end.

(** [poll_next] when nothing comes between its steps. *)
Definition poll_next (now : N) (inner : Polled) (s : InstrumentedStream) (sh : Shared)
    : Polled * InstrumentedStream * Shared :=
  match poll_load (default false (sh_flags sh !! is_id s)) s with
  | Answered item taken s => (item, s, drop_guard now taken sh)
  | Inner s => match poll_settle inner s with
               | Answered item taken s => (item, s, drop_guard now taken sh)
               | Inner s => (Pending, s, sh)
               end
  end.

(** ** Running a query *)

Record RequestContext := {
  rc_interface : Interface;
  rc_principal : option string;
  rc_traceparent : option string
}.

Record QueryRequest := {
  qr_sql : string;
  qr_params : gmap string string;
  qr_timeout : option N;
  qr_max_rows : N;
  qr_trace_id : option string;
  qr_context : RequestContext
}.

(** What is not code here: planning and starting SQL (DataFusion), rewriting the calls of a text
    ([sqlparser]), the redacted text of a query. Materializing, of the namespaces, and compiling a
    semantic query are answers too. *)
Record QueryHost := {
  qh_redact : string → option string;
  qh_rewrite : string → result EngineError string;
  qh_plan : string → result string ();
  qh_start : string → result string ();
  qh_materialize : string → string → gmap string string → result EngineError ();
  qh_compile : result EngineError string
}.

(** [activity_context], when activity is recorded; [aid] is a fresh identifier. *)
Definition activity_context (host : QueryHost) (enabled : bool) (aid : string) (ctx : RequestContext)
    (op : Operation) (sql : option string) (params : gmap string string) : option ActivityContext :=
  if enabled then
    Some {| ac_id := aid; ac_interface := rc_interface ctx; ac_principal := rc_principal ctx;
            ac_operation := op; ac_sql := sql ≫= qh_redact host;
            ac_param_keys := sort_strings (elements (dom params));
            ac_trace_id := rc_traceparent ctx ≫= trace_id_from_traceparent |}
  else None.

(** Plan and start a text; [invalid] is the error of one that does not plan. *)
Definition run_sql (host : QueryHost) (invalid : string → EngineError) (sql : string)
    : result EngineError () :=
  match qh_plan host sql with
  | Err e => Err (invalid e)
  | Ok _ => map_err (λ e, EInternal ("datafusion: " +:+ e)) (qh_start host sql)
  end.

(** What a query does between its start and its stream: the text that is run in the end. *)
Definition prepare_query `{!HashIter string} (host : QueryHost) (inline : bool) (req : QueryRequest)
    : result EngineError string :=
  let sql := substitute_params (qr_sql req) (qr_params req) in
  match (if inline then parse_inline_materialize sql else None) with
  | Some (name, body) =>
      match qh_materialize host name body (qr_params req) with
      | Err e => Err e
      | Ok _ =>
          let read_sql := "SELECT * FROM materialized." +:+ chr dquote +:+ name +:+ chr dquote in
          rmap (λ _, read_sql) (run_sql host (λ e, EInternal ("datafusion: " +:+ e)) read_sql)
      end
  | None =>
      match qh_rewrite host sql with
      | Err e => Err e
      | Ok sql => rmap (λ _, sql) (run_sql host EInvalidSql sql)
      end
  end.

(** On an error the guard is marked and dropped, on success it moves into the stream. *)
Definition finish_start (now : N) (r : result EngineError string) (g : QueryGuard) (sh : Shared)
    : result EngineError InstrumentedStream * Shared :=
  match r with
  | Ok _ => (Ok (adapt_instrumented g), sh)
  | Err e => (Err e, guard_drop now (mark_error e g) sh)
  end.

(** [query]; [id] and [aid] are fresh. *)
Definition query `{!HashIter string} (host : QueryHost) (inline enabled : bool) (id aid : string)
    (now later : N) (req : QueryRequest) (sh : Shared)
    : result EngineError InstrumentedStream * Shared :=
  let actx := activity_context host enabled aid (qr_context req) OpQuery (Some (qr_sql req))
                (qr_params req) in
  let '(g, sh) := guard_start id actx now (register_cancel id sh) in
  finish_start later (prepare_query host inline req) g sh.

(** [semantic_query]. *)
Definition semantic_query (host : QueryHost) (enabled : bool) (id aid : string) (now later : N)
    (params : gmap string string) (sh : Shared) : result EngineError InstrumentedStream * Shared :=
  let ctx := {| rc_interface := InProcess; rc_principal := None; rc_traceparent := None |} in
  let actx := activity_context host enabled aid ctx OpSemanticQuery None params in
  let '(g, sh) := guard_start id actx now (register_cancel id sh) in
  match qh_compile host with
  | Err e => finish_start later (Err e) g sh
  | Ok sql => finish_start later (rmap (λ _, sql) (run_sql host EInvalidSql sql))
                (set_activity_sql (qh_redact host sql) g) sh
  end.

(** Examples. *)
Example inline_directive :
  parse_inline_materialize ("-- a" +:+ chr "010" +:+ "-- pawrly: materialize t " +:+ chr "010" +:+ "SELECT 1")
  = Some ("t", "-- a" +:+ chr "010" +:+ "SELECT 1").
Proof. reflexivity. Qed.

(** A word that merely starts with the directive's is taken for it. *)
Example inline_directive_prefix :
  parse_inline_materialize ("-- pawrly: materialized_view x" +:+ chr "010" +:+ "SELECT 1")
  = Some ("d_view", "SELECT 1").
Proof. reflexivity. Qed.
