(* ===== verification/QueryProps.v ===== *)
(** * The life of queries
    Any number of queries run at once, their clients poll, cancel and drop them in any order. The
    counts, the registry and the completion slots stay true to what happened, and a cancelled
    query gives no more rows. *)

From S2P Require Export Queries.

(** ** Runs *)

(** A query that was started: still being planned, a stream in the hands of its client, a stream
    that is being polled and has found its flag down, or one whose poll has taken the guard and is
    about to drop it. *)
Inductive Life :=
| Starting (g : QueryGuard)
| Streaming (s : InstrumentedStream)
| Polling (s : InstrumentedStream)
| Ending (g : QueryGuard).

(** The engine, the queries alive, and what was seen of each: the batches its client was given, and
    whether its stream came to its normal end. *)
Record Pool := {
  po_shared : Shared;
  po_live : gmap string Life;
  po_given : gmap string (list N);
  po_finished : gset string
}.

Definition batches (p : Pool) (id : string) : list N := default [] (po_given p !! id).

(** The rows of the batches. *)
Definition total (l : list N) : N := foldr N.add 0%N l.
Definition given (p : Pool) (id : string) : N := total (batches p id).

Definition with_live (id : string) (l : option Life) (sh : Shared) (p : Pool) : Pool :=
  {| po_shared := sh;
     po_live := match l with Some l => <[id := l]> (po_live p) | None => delete id (po_live p) end;
     po_given := po_given p;
     po_finished := po_finished p |}.

(** The poll of [id] has its answer: the client gets it, unless a guard is still to be dropped. *)
Definition answered (id : string) (ph : PollPhase) (p : Pool) : Pool :=
  {| po_shared := po_shared p;
     po_live := <[id := match ph with
                        | Answered _ (Some g) _ => Ending g
                        | Answered _ None s => Streaming s
                        | Inner s => Polling s
                        end]> (po_live p);
     po_given := match ph with
                 | Answered (Batch rows) _ _ => <[id := batches p id ++ [rows]]> (po_given p)
                 | _ => po_given p
                 end;
     po_finished := po_finished p |}.

(** The guard is dropped and the client sees the end of its stream, which it lets go. *)
Definition ended (id : string) (now : N) (g : QueryGuard) (p : Pool) : Pool :=
  {| po_shared := guard_drop now g (po_shared p);
     po_live := delete id (po_live p);
     po_given := po_given p;
     po_finished := if g_ok g then {[ id ]} ∪ po_finished p else po_finished p |}.

(** A query is dropped by its client, which cannot do so during a poll. *)
Definition dropped_guard (l : Life) : option QueryGuard :=
  match l with
  | Starting g => Some g
  | Streaming s => is_guard s
  | Polling _ | Ending _ => None
  end.

Section runs.
(** Whether activity is recorded. *)
Context (enabled : bool).

(** A query starts under a new identifier, fails before it streams, or becomes a stream. Its client
    polls it: the flag is loaded, the stream below is polled, the guard of a stream that ended is
    dropped, and anything can happen in between. It is dropped; or somebody asks to cancel. *)
Inductive qstep (p : Pool) : Pool → Prop :=
| q_start id actx now g sh :
    sh_flags (po_shared p) !! id = None → is_some actx = enabled →
    guard_start id actx now (register_cancel id (po_shared p)) = (g, sh) →
    qstep p (with_live id (Some (Starting g)) sh p)
| q_sql id sql g :
    po_live p !! id = Some (Starting g) →
    qstep p (with_live id (Some (Starting (set_activity_sql sql g))) (po_shared p) p)
| q_fail id e now g :
    po_live p !! id = Some (Starting g) →
    qstep p (with_live id None (guard_drop now (mark_error e g) (po_shared p)) p)
| q_stream id g :
    po_live p !! id = Some (Starting g) →
    qstep p (with_live id (Some (Streaming (adapt_instrumented g))) (po_shared p) p)
| q_load id s :
    po_live p !! id = Some (Streaming s) →
    qstep p (answered id (poll_load (default false (sh_flags (po_shared p) !! is_id s)) s) p)
| q_inner id s inner :
    po_live p !! id = Some (Polling s) →
    qstep p (answered id (poll_settle inner s) p)
| q_end id g now :
    po_live p !! id = Some (Ending g) →
    qstep p (ended id now g p)
| q_drop id l g now :
    po_live p !! id = Some l → dropped_guard l = Some g →
    qstep p (with_live id None (guard_drop now g (po_shared p)) p)
| q_cancel id :
    qstep p {| po_shared := (cancel id (po_shared p)).1; po_live := po_live p; po_given := po_given p;
               po_finished := po_finished p |}.

Definition idle (p : Pool) : Prop :=
  po_live p = ∅ ∧ po_given p = ∅ ∧ po_finished p = ∅ ∧
  po_shared p = {| sh_active := 0; sh_registry := ∅; sh_flags := ∅; sh_completed := ∅; sh_log := [] |}.

Inductive qreachable : Pool → Prop :=
| qr_idle p : idle p → qreachable p
| qr_step p p' : qreachable p → qstep p p' → qreachable p'.

(** ** The invariant *)

(** The guard of a query that is alive. *)
Record guard_ok (id : string) (g : QueryGuard) : Prop := {
  go_id : g_id g = id;
  go_rows : g_rows g = 0%N;
  go_ok : g_ok g = false;
  go_activity : is_some (g_activity g) = enabled
}.

Record stream_ok (p : Pool) (id : string) (s : InstrumentedStream) : Prop := {
  so_id : is_id s = id;
  so_rows : is_rows s = given p id;
  so_guard : ∃ g, is_guard s = Some g ∧ guard_ok id g
}.

Definition life_ok (p : Pool) (id : string) (l : Life) : Prop :=
  match l with
  | Starting g => guard_ok id g ∧ given p id = 0%N
  | Streaming s => stream_ok p id s ∧
                   (is_cancel_emitted s = true → sh_flags (po_shared p) !! id = Some true)
  | Polling s => stream_ok p id s ∧ is_cancel_emitted s = false
  | Ending g => g_id g = id ∧ is_some (g_activity g) = enabled ∧
                g_rows g = if g_ok g then given p id else 0%N
  end.

Record accounted (p : Pool) : Prop := {
  ac_active : sh_active (po_shared p) = Z.of_nat (size (po_live p));
  ac_registry : sh_registry (po_shared p) = dom (po_live p);
  ac_completed id : is_Some (sh_completed (po_shared p) !! id) ↔
                    is_Some (sh_flags (po_shared p) !! id) ∧ po_live p !! id = None;
  ac_live id l : po_live p !! id = Some l → is_Some (sh_flags (po_shared p) !! id) ∧ life_ok p id l;
  ac_given id : sh_flags (po_shared p) !! id = None → given p id = 0%N ∧ id ∉ po_finished p;
  ac_finished id : id ∈ po_finished p → po_live p !! id = None;
  ac_rows id c : sh_completed (po_shared p) !! id = Some c →
    qc_rows_returned c = if decide (id ∈ po_finished p) then given p id else 0%N;
  ac_log : length (sh_log (po_shared p)) = if enabled then size (sh_completed (po_shared p)) else 0%nat
}.

Lemma life_ok_same p p' id l :
  given p' id = given p id →
  (sh_flags (po_shared p) !! id = Some true → sh_flags (po_shared p') !! id = Some true) →
  life_ok p id l → life_ok p' id l.
Proof.
  intros Hg Hf. destruct l as [g|s|s|g]; simpl; rewrite ?Hg; [done|..|done].
  - intros [[] Hem]. split; [by split; rewrite ?Hg|by auto].
  - intros [[] Hem]. split; [by split; rewrite ?Hg|done].
Qed.

Lemma accounted_idle p : idle p → accounted p.
Proof.
  intros (Hl & Hg & Hf & Hs). unfold given, batches. split; rewrite ?Hl, ?Hs, ?Hf; simpl.
  - done.
  - by rewrite dom_empty_L.
  - intros id. rewrite lookup_empty. split; [by intros [? [=]]|by intros [[? [=]] _]].
  - intros id l. by rewrite lookup_empty.
  - intros id _. unfold given, batches. rewrite Hg, lookup_empty. split; [done|set_solver].
  - set_solver.
  - intros id c. by rewrite lookup_empty.
  - by destruct enabled.
Qed.

(** What a query is changes, and what its client has seen, but not what the engine counts. *)
Lemma accounted_update p id l l' gv :
  accounted p → po_live p !! id = Some l →
  let p' := {| po_shared := po_shared p; po_live := <[id := l']> (po_live p);
               po_given := <[id := gv]> (po_given p); po_finished := po_finished p |} in
  life_ok p' id l' → accounted p'.
Proof.
  intros [Ha Hr Hc Hl Hg Hf Hrows Hlog] Hid p' Hok.
  destruct (Hl id l Hid) as [Hflag _].
  assert (∀ id', id' ≠ id → given p' id' = given p id') as Hgiven.
  { intros id' Hne. unfold given, batches, p'. simpl. by rewrite lookup_insert_ne. }
  split; simpl.
  - rewrite Ha. f_equal. symmetry. apply map_size_insert_Some. eauto.
  - rewrite Hr, dom_insert_lookup_L by eauto. done.
  - intros id'. rewrite Hc. destruct (decide (id' = id)) as [->|Hne].
    + rewrite lookup_insert_eq, Hid. split; by intros [_ [=]].
    + by rewrite lookup_insert_ne.
  - intros id' l2. intros [[<- <-]|[Hne H2]]%lookup_insert_Some; [done|].
    destruct (Hl id' l2 H2) as [? Hok2]. split; [done|].
    eapply life_ok_same; [..|exact Hok2]; [by apply Hgiven|done].
  - intros id' Hn. assert (id' ≠ id) as Hne by (intros ->; rewrite Hn in Hflag; by destruct Hflag).
    rewrite Hgiven by done. by apply Hg.
  - intros id' Hin. pose proof (Hf id' Hin) as Hn. rewrite lookup_insert_ne; [done|].
    intros ->. congruence.
  - intros id' c Hcomp. assert (id' ≠ id) as Hne.
    { intros ->. destruct (proj1 (Hc id)) as [_ Hn]; [by eauto|]. congruence. }
    rewrite Hgiven by done. by apply Hrows.
  - done.
Qed.

(** The counts only depend on what was given. *)
Lemma accounted_ext p p' :
  po_shared p' = po_shared p → po_live p' = po_live p → po_finished p' = po_finished p →
  (∀ id, given p' id = given p id) → accounted p → accounted p'.
Proof.
  intros Hs Hl Hf Hg [H1 H2 H3 H4 H5 H6 H7 H8].
  split; rewrite ?Hs, ?Hl, ?Hf; try done.
  - intros id l Hid. destruct (H4 id l Hid) as [? Hok]. split; [done|].
    eapply life_ok_same; [..|exact Hok]; [done|by rewrite Hs].
  - intros id. rewrite Hg. apply H5.
  - intros id c. rewrite Hg. apply H7.
Qed.

Lemma accounted_become p id l l' :
  accounted p → po_live p !! id = Some l → life_ok p id l' →
  accounted (with_live id (Some l') (po_shared p) p).
Proof.
  intros Hp Hid Hok.
  assert (∀ id', given {| po_shared := po_shared p; po_live := <[id := l']> (po_live p);
    po_given := <[id := batches p id]> (po_given p); po_finished := po_finished p |} id' = given p id')
    as Hg.
  { intros id'. unfold given, batches at 1. simpl. destruct (decide (id' = id)) as [->|Hne].
    - by rewrite lookup_insert_eq.
    - by rewrite lookup_insert_ne. }
  pose proof (accounted_update p id l l' (batches p id) Hp Hid) as Hu.
  eapply accounted_ext; [..|apply Hu]; [done|done|done|intros id'; by rewrite Hg|].
  eapply life_ok_same; [..|exact Hok]; [by rewrite Hg|done].
Qed.

(** A guard is dropped, and its query is over. *)
Lemma accounted_over p id l g now (fin : bool) :
  accounted p → po_live p !! id = Some l → g_id g = id → is_some (g_activity g) = enabled →
  g_rows g = (if fin then given p id else 0%N) →
  accounted {| po_shared := guard_drop now g (po_shared p); po_live := delete id (po_live p);
               po_given := po_given p;
               po_finished := if fin then {[ id ]} ∪ po_finished p else po_finished p |}.
Proof.
  intros [Ha Hr Hc Hl Hg Hf Hrows Hlog] Hid Hgid Hact Hgr.
  destruct (Hl id l Hid) as [Hflag _].
  assert (sh_completed (po_shared p) !! id = None) as Hnone.
  { destruct (sh_completed (po_shared p) !! id) eqn:Hcomp; [|done].
    destruct (proj1 (Hc id)) as [_ Hn]; [by eauto|]. congruence. }
  assert (id ∉ po_finished p) as Hnf by (intros Hin; rewrite (Hf id Hin) in Hid; done).
  unfold guard_drop. rewrite Hgid. split; simpl; rewrite ?Hnone.
  - rewrite Ha, map_size_delete_Some by eauto.
    assert (size (po_live p) ≠ 0)%nat as Hne.
    { intros H0. apply map_size_empty_inv in H0. by rewrite H0 in Hid. }
    lia.
  - rewrite Hr, dom_delete_L. done.
  - intros id'. destruct (decide (id' = id)) as [->|Hne].
    + rewrite lookup_insert_eq, lookup_delete_eq. naive_solver.
    + rewrite lookup_insert_ne, lookup_delete_ne by done. apply Hc.
  - intros id' l2 [Hne H2]%lookup_delete_Some. destruct (Hl id' l2 H2) as [? Hok]. split; [done|].
    by eapply life_ok_same; [..|exact Hok].
  - intros id' Hn. destruct (Hg id' Hn) as [Hg0 Hn0]. split; [done|].
    assert (id' ≠ id) as Hne by (intros ->; rewrite Hn in Hflag; by destruct Hflag).
    destruct fin; set_solver.
  - intros id' Hin. destruct (decide (id' = id)) as [->|Hne]; [apply lookup_delete_eq|].
    rewrite lookup_delete_ne by done. apply Hf. destruct fin; set_solver.
  - intros id' c [[<- <-]|[Hne Hcomp]]%lookup_insert_Some; simpl.
    + rewrite Hgr. unfold given, batches. simpl. destruct fin; case_decide; set_solver.
    + rewrite (Hrows id' c Hcomp). unfold given, batches. simpl.
      destruct fin; repeat case_decide; set_solver.
  - rewrite length_app, Hlog. rewrite map_size_insert_None by done.
    destruct (g_activity g); simpl in Hact; rewrite <-Hact; simpl; lia.
Qed.

Lemma accounted_start p id actx now g sh :
  accounted p → sh_flags (po_shared p) !! id = None → is_some actx = enabled →
  guard_start id actx now (register_cancel id (po_shared p)) = (g, sh) →
  accounted (with_live id (Some (Starting g)) sh p).
Proof.
  intros [Ha Hr Hc Hl Hg Hf Hrows Hlog] Hnew Hact [= <- <-].
  assert (po_live p !! id = None) as Hdead.
  { destruct (po_live p !! id) eqn:Hid; [|done]. destruct (Hl id _ Hid) as [[? ?] _]. congruence. }
  split; simpl.
  - rewrite Ha, map_size_insert_None by done. lia.
  - rewrite Hr. symmetry. apply dom_insert_L.
  - intros id'. destruct (decide (id' = id)) as [->|Hne].
    + rewrite lookup_insert_eq, lookup_insert_eq. rewrite Hc, Hnew. naive_solver.
    + rewrite lookup_insert_ne, lookup_insert_ne by done. apply Hc.
  - intros id' l [[<- <-]|[Hne H2]]%lookup_insert_Some.
    + rewrite lookup_insert_eq. split; [done|]. split; [by split|]. apply (Hg id Hnew).
    + rewrite lookup_insert_ne by done. destruct (Hl id' l H2) as [? Hok]. split; [done|].
      eapply life_ok_same; [..|exact Hok]; [done|simpl; by rewrite lookup_insert_ne by done].
  - intros id' [Hn Hne]%lookup_insert_None. by apply Hg.
  - intros id' Hin. destruct (decide (id' = id)) as [->|Hne].
    + by destruct (Hg id Hnew).
    + rewrite lookup_insert_ne by done. by apply Hf.
  - done.
  - done.
Qed.

Lemma accounted_cancel p id :
  accounted p →
  accounted {| po_shared := (cancel id (po_shared p)).1; po_live := po_live p; po_given := po_given p;
               po_finished := po_finished p |}.
Proof.
  intros Hp. unfold cancel. destruct (decide (id ∈ sh_registry (po_shared p))) as [Hin|]; [|by destruct p].
  destruct Hp as [Ha Hr Hc Hl Hg Hf Hrows Hlog].
  assert (is_Some (sh_flags (po_shared p) !! id)) as Hflag.
  { rewrite Hr in Hin. apply elem_of_dom in Hin as [l Hid]. by destruct (Hl id l Hid). }
  assert (∀ id', is_Some (<[id := true]> (sh_flags (po_shared p)) !! id') ↔
                 is_Some (sh_flags (po_shared p) !! id')) as Hsame.
  { intros id'. destruct (decide (id' = id)) as [->|Hne].
    - rewrite lookup_insert_eq. naive_solver.
    - by rewrite lookup_insert_ne. }
  split; simpl; try done.
  - intros id'. rewrite Hc, Hsame. done.
  - intros id' l H2. destruct (Hl id' l H2) as [? Hok]. split; [by apply Hsame|].
    eapply life_ok_same; [..|exact Hok]; [done|]. intros Hem. simpl.
    destruct (decide (id' = id)) as [->|Hne]; [apply lookup_insert_eq|by rewrite lookup_insert_ne].
  - intros id' Hn. apply Hg. apply eq_None_not_Some. rewrite <-Hsame, Hn. by intros [? [=]].
Qed.

Lemma total_snoc l n : total (l ++ [n]) = (total l + n)%N.
Proof. unfold total. induction l as [|m l IH]; simpl; [lia|]. rewrite IH. lia. Qed.

(** Between its steps a poll leaves the engine as it is. *)
Lemma accounted_answered p id l ph :
  accounted p → po_live p !! id = Some l →
  life_ok (answered id ph p) id (match ph with
                                 | Answered _ (Some g) _ => Ending g
                                 | Answered _ None s => Streaming s
                                 | Inner s => Polling s
                                 end) →
  accounted (answered id ph p).
Proof.
  intros Hp Hid Hok.
  set (bs := match ph with
             | Answered (Batch rows) _ _ => batches p id ++ [rows]
             | _ => batches p id
             end).
  assert (∀ id', given {| po_shared := po_shared p; po_live := po_live (answered id ph p);
    po_given := <[id := bs]> (po_given p); po_finished := po_finished p |} id'
    = given (answered id ph p) id') as Hg.
  { intros id'. unfold given. f_equal. unfold batches at 1. simpl.
    destruct (decide (id' = id)) as [->|Hne].
    - rewrite lookup_insert_eq. unfold bs, batches. simpl.
      destruct ph as [[] ? ?|]; simpl; by rewrite ?lookup_insert_eq.
    - rewrite lookup_insert_ne by done. unfold batches. simpl.
      destruct ph as [[] ? ?|]; simpl; by rewrite ?lookup_insert_ne. }
  eapply (accounted_ext {| po_shared := po_shared p; po_live := po_live (answered id ph p);
    po_given := <[id := bs]> (po_given p); po_finished := po_finished p |});
    [done|done|done|intros id'; by rewrite Hg|].
  eapply accounted_update; [done..|]. eapply life_ok_same; [by rewrite Hg|done|exact Hok].
Qed.

Lemma given_answered_item item t s p id :
  given (answered id (Answered item t s) p) id
  = (given p id + match item with Batch rows => rows | _ => 0 end)%N.
Proof.
  unfold given, batches at 1. simpl. destruct item; simpl;
    rewrite ?lookup_insert_eq; simpl; rewrite ?total_snoc, ?N.add_0_r; done.
Qed.

Lemma accounted_load p id s flag :
  accounted p → po_live p !! id = Some (Streaming s) →
  flag = default false (sh_flags (po_shared p) !! id) →
  accounted (answered id (poll_load flag s) p).
Proof.
  intros Hp Hid Hflag. eapply accounted_answered; [done..|].
  destruct (ac_live p Hp id _ Hid) as [_ [[Hsid Hrows (g & Hg & Hgok)] Hem]].
  unfold poll_load. destruct (is_cancel_emitted s) eqn:He; [|destruct flag eqn:Hf].
  - rewrite Hg. destruct Hgok as [Hgi Hgr Hgo Hga]. simpl. by rewrite Hgo.
  - simpl. split; [|intros _; by destruct (sh_flags (po_shared p) !! id) as [[]|]].
    split; simpl; [done|done|]. exists (mark_error ECancelled g). rewrite Hg. split; [done|].
    destruct Hgok. by split.
  - simpl. split; [|done]. split; [done|done|by exists g].
Qed.

Lemma accounted_inner p id s inner :
  accounted p → po_live p !! id = Some (Polling s) →
  accounted (answered id (poll_settle inner s) p).
Proof.
  intros Hp Hid. eapply accounted_answered; [done..|].
  destruct (ac_live p Hp id _ Hid) as [_ [[Hsid Hrows (g & Hg & Hgok)] He]].
  destruct inner as [rows|e| |]; unfold poll_settle.
  - split; [|by rewrite He]. split; simpl; [done| |by exists g]. rewrite Hrows.
    by rewrite given_answered_item.
  - split; [|by simpl; rewrite He]. split; simpl; [done|done|]. exists (mark_error e g). rewrite Hg.
    split; [done|]. destruct Hgok. by split.
  - rewrite Hg. destruct Hgok as [Hgi Hgr Hgo Hga]. by simpl.
  - split; [|by rewrite He]. split; simpl; [done|done|by exists g].
Qed.

Lemma accounted_step p p' : accounted p → qstep p p' → accounted p'.
Proof.
  intros Hp Hstep. inversion Hstep as [id actx now g sh Hnew Hact Hgs|id sql g Hid|id e now g Hid|id g Hid
    |id s Hid|id s inner Hid|id g now Hid|id l g now Hid Hdrop|id]; subst p'.
  - by eapply accounted_start.
  - eapply accounted_become; [done|done|]. destruct (ac_live p Hp id _ Hid) as [_ [[Hgi Hgr Hgo Hga] Hz]].
    split; [|done]. split; [done|done|done|]. simpl. by destruct (g_activity g).
  - destruct (ac_live p Hp id _ Hid) as [_ [[Hgi Hgr Hgo Hga] Hz]].
    exact (accounted_over p id _ (mark_error e g) now false Hp Hid Hgi Hga Hgr).
  - eapply accounted_become; [done|done|]. destruct (ac_live p Hp id _ Hid) as [_ [[Hgi Hgr Hgo Hga] Hz]].
    simpl. split; [|done]. split; [done|done|]. exists g. split; [done|by split].
  - destruct (ac_live p Hp id _ Hid) as [_ [[Hsid _ _] _]].
    eapply accounted_load; [done|done|by rewrite Hsid].
  - by apply accounted_inner.
  - destruct (ac_live p Hp id _ Hid) as [_ (Hgi & Hga & Hgr)].
    pose proof (accounted_over p id _ g now (g_ok g) Hp Hid Hgi Hga Hgr) as Ho.
    unfold ended. by destruct (g_ok g).
  - destruct (ac_live p Hp id _ Hid) as [_ Hok].
    assert (guard_ok id g) as [Hgi Hgr Hgo Hga].
    { destruct l as [g'|s|s|g']; simplify_eq/=; [by destruct Hok|].
      destruct Hok as [[_ _ (g' & Hg & ?)] _]. congruence. }
    exact (accounted_over p id _ g now false Hp Hid Hgi Hga Hgr).
  - by apply accounted_cancel.
Qed.

Lemma accounted_reachable p : qreachable p → accounted p.
Proof. induction 1; [by apply accounted_idle|by eapply accounted_step]. Qed.

Lemma accounted_steps p p' : accounted p → rtc qstep p p' → accounted p'.
Proof. induction 2; [done|]. eauto using accounted_step. Qed.

(** ** Cancellation *)

(** The pool after somebody asked to cancel [id]. *)
Definition cancelling (id : string) (p : Pool) : Pool :=
  {| po_shared := (cancel id (po_shared p)).1; po_live := po_live p; po_given := po_given p;
     po_finished := po_finished p |}.

(** What a poll that had found the flag down may still do. *)
Definition in_flight (l : Life) : bool := match l with Polling _ => true | _ => false end.
Definition at_its_end (l : Life) : bool := match l with Ending g => g_ok g | _ => false end.

(** What the client of [id] has seen since [p], where its query was [l] and was cancelled: at most
    the batch, or the end, of the poll in flight. *)
Record stopped (p : Pool) (l : Life) (id : string) (p' : Pool) : Prop := {
  st_flag : sh_flags (po_shared p') !! id = Some true;
  st_live : match po_live p' !! id with
            | Some (Polling _) => in_flight l = true ∧ batches p' id = batches p id
            | Some (Ending g) => g_ok g = true → in_flight l || at_its_end l = true ∧ batches p' id = batches p id
            | _ => True
            end;
  st_batches : batches p' id = batches p id ∨
               in_flight l = true ∧ ∃ rows, batches p' id = batches p id ++ [rows];
  st_finished : id ∈ po_finished p' → in_flight l || at_its_end l = true ∧ batches p' id = batches p id
}.

Lemma batches_answered id ph p id' :
  batches (answered id ph p) id' =
    batches p id' ++ match ph with
                     | Answered (Batch rows) _ _ => if decide (id' = id) then [rows] else []
                     | _ => []
                     end.
Proof.
  unfold batches. simpl. destruct ph as [[rows| | |] t s|s]; rewrite ?app_nil_r; try done.
  case_decide as Hid; [subst id'; by rewrite lookup_insert_eq|].
  by rewrite lookup_insert_ne, app_nil_r.
Qed.

(** Steps of other queries. *)
Lemma stopped_elsewhere p l id p1 p2 :
  stopped p l id p1 → sh_flags (po_shared p2) !! id = Some true →
  po_live p2 !! id = po_live p1 !! id → batches p2 id = batches p1 id →
  (id ∈ po_finished p2 → id ∈ po_finished p1) → stopped p l id p2.
Proof. intros [Hf Hl Hb Hfin] Hf2 Hl2 Hb2 Hfin2. split; rewrite ?Hl2, ?Hb2; auto. Qed.

Lemma stopped_step p l id p1 p2 :
  accounted p1 → stopped p l id p1 → qstep p1 p2 → stopped p l id p2.
Proof.
  intros Hp H Hstep. pose proof H as [Hflag Hlive Hb Hfin].
  inversion Hstep as [id' actx now g sh Hnew Hact Hgs|id' sql g Hid|id' e now g Hid|id' g Hid
    |id' s Hid|id' s inner Hid|id' g now Hid|id' l' g now Hid Hdrop|id']; subst p2;
    (destruct (decide (id' = id)) as [->|Hn];
     [|eapply (stopped_elsewhere p l id p1); [done|..]; rewrite ?batches_answered; simpl;
       rewrite ?lookup_insert_ne, ?lookup_delete_ne by done; try done]).
  - congruence.
  - injection Hgs as <- <-. simpl. by rewrite lookup_insert_ne.
  - split; simpl; rewrite ?lookup_insert_eq; done.
  - split; simpl; rewrite ?lookup_delete_eq; done.
  - split; simpl; rewrite ?lookup_insert_eq; done.
  - destruct (ac_live p1 Hp id _ Hid) as [_ [[Hsid _ (g & Hg & [_ _ Hgo _])] _]].
    rewrite Hsid, Hflag. simpl. unfold poll_load. destruct (is_cancel_emitted s).
    + split; rewrite ?batches_answered, ?app_nil_r; simpl; rewrite ?lookup_insert_eq, ?Hg; try done.
      by rewrite Hgo.
    + split; rewrite ?batches_answered, ?app_nil_r; simpl; rewrite ?lookup_insert_eq; done.
  - repeat case_match; by rewrite ?app_nil_r.
  - rewrite Hid in Hlive. destruct Hlive as [Hl Hb1].
    destruct (ac_live p1 Hp id _ Hid) as [_ [[_ _ (g & Hg & _)] _]].
    assert (id ∉ po_finished p1) as Hnf.
    { intros Hin. pose proof (ac_finished _ Hp id Hin). congruence. }
    destruct inner as [rows|e| |]; simpl; rewrite ?Hg; simpl;
      (split; rewrite ?batches_answered, ?app_nil_r; simpl; rewrite ?lookup_insert_eq, ?Hl;
       [done|done|..|done]); rewrite ?decide_True by done; rewrite ?Hb1; eauto.
  - repeat case_match; by rewrite ?app_nil_r.
  - rewrite Hid in Hlive. split; simpl; rewrite ?lookup_delete_eq; try done.
    destruct (g_ok g); [|done]. intros _. by apply Hlive.
  - destruct (g_ok g); set_solver.
  - split; simpl; rewrite ?lookup_delete_eq; done.
  - unfold cancel. case_decide; [|done]. split; simpl; try done. apply lookup_insert_eq.
  - unfold cancel. case_decide; [|done]. simpl. by rewrite lookup_insert_ne.
Qed.

Lemma stopped_steps p l id p1 p2 :
  accounted p1 → stopped p l id p1 → rtc qstep p1 p2 → stopped p l id p2.
Proof.
  intros Hp H Hsteps. revert Hp H. induction Hsteps as [|p1 p2 p3 Hstep _ IH]; intros Hp H; [done|].
  apply IH; [by eapply accounted_step|by eapply stopped_step].
Qed.
End runs.

(** ** The claims *)

(** C25: Whatever queries are started, polled, cancelled and dropped, in any order: the active
    count (which the health check shows) is the number of queries alive, which are also the ones
    that can be cancelled; a query that was started is alive or has its completion slot, never
    both; the slot counts the rows the client was given if the stream came to its normal end, and
    is zero for one that failed to start, was dropped or ended by a cancellation, whatever rows its
    client was given; and exactly one activity record was made per query that is over, if recording is on. *)
Theorem queries_accounted (enabled : bool) (p : Pool) :
  qreachable enabled p →
  health_active (po_shared p) = Z.of_nat (size (po_live p)) ∧
  sh_active (po_shared p) = Z.of_nat (size (po_live p)) ∧
  sh_registry (po_shared p) = dom (po_live p) ∧
  (∀ id, is_Some (sh_completed (po_shared p) !! id) ↔
         is_Some (sh_flags (po_shared p) !! id) ∧ po_live p !! id = None) ∧
  (∀ id c, sh_completed (po_shared p) !! id = Some c →
     qc_rows_returned c = if decide (id ∈ po_finished p) then given p id else 0%N) ∧
  length (sh_log (po_shared p)) = (if enabled then size (sh_completed (po_shared p)) else 0%nat).
Proof.
  intros Hp%accounted_reachable. pose proof (ac_active _ _ Hp) as Ha. unfold health_active.
  rewrite Ha. split; [lia|]. destruct Hp. done.
Qed.

(** C30: A request to cancel answers yes exactly for the queries alive. From then on, whatever
    happens, its client is given no further batch and its stream does not come to its normal end,
    but for a poll that had already found the flag down - it may still give the one batch it is
    after, or the end - or was already dropping the guard of a stream that had ended; every poll
    begun afterwards answers that the query was cancelled, once, and then the end; and the
    completion slot counts the rows given if the stream came to its normal end all the same, and
    none otherwise. *)
Theorem cancel_stops (enabled : bool) (p : Pool) (id : string) :
  qreachable enabled p →
  (cancel id (po_shared p)).2 = bool_decide (is_Some (po_live p !! id)) ∧
  ∀ l p', po_live p !! id = Some l → rtc (qstep enabled) (cancelling id p) p' →
    (∃ late, batches p' id = batches p id ++ late ∧ length late ≤ (if in_flight l then 1 else 0)%nat ∧
       (id ∈ po_finished p' → late = [] ∧ in_flight l || at_its_end l = true)) ∧
    (∀ s now inner, po_live p' !! id = Some (Streaming s) →
       (poll_next now inner s (po_shared p')).1.1
       = if is_cancel_emitted s then End else Failure ECancelled) ∧
    (∀ c, sh_completed (po_shared p') !! id = Some c →
       qc_rows_returned c = if decide (id ∈ po_finished p') then given p id else 0%N).
Proof.
  intros Hp%accounted_reachable. pose proof (ac_registry _ _ Hp) as Hr. split.
  - unfold cancel. rewrite Hr. case_decide as Hin; rewrite elem_of_dom in Hin;
      simpl; symmetry; [by apply bool_decide_eq_true_2|by apply bool_decide_eq_false_2].
  - intros l p' Hl Hsteps. assert (accounted enabled (cancelling id p)) as Hc by by apply accounted_cancel.
    pose proof (accounted_steps _ _ _ Hc Hsteps) as Hp'.
    assert (stopped p l id p') as [Hflag _ Hb Hfin].
    { apply (stopped_steps enabled p l id (cancelling id p)); [done| |done]. split; simpl; [| |by left|].
      2:{ rewrite Hl. destruct l as [g|s|s|g]; simpl; [done|done|done|by intros ->]. }
      - unfold cancel. rewrite decide_True by (rewrite Hr; apply elem_of_dom; eauto). apply lookup_insert_eq.
      - intros Hin. pose proof (ac_finished _ _ Hp id Hin). congruence. }
    split_and!.
    + destruct Hb as [Hb|(Hfl & rows & Hb)].
      * exists []. rewrite app_nil_r. split_and!; [done|simpl; lia|].
        intros Hin. split; [done|by apply Hfin].
      * exists [rows]. rewrite Hfl. split_and!; [done|done|]. intros Hin.
        destruct (Hfin Hin) as [_ Hb']. rewrite Hb' in Hb. apply (f_equal length) in Hb. rewrite length_app in Hb. simpl in Hb. lia.
    + intros s now inner Hs. destruct (ac_live _ _ Hp' id _ Hs) as [_ [[Hsid _ _] _]].
      unfold poll_next, poll_load. rewrite Hsid, Hflag. simpl. by destruct (is_cancel_emitted s).
    + intros c Hcomp. rewrite (ac_rows _ _ Hp' id c Hcomp). case_decide as Hin; [|done].
      unfold given. by destruct (Hfin Hin) as [_ ->].
Qed.

(** ** A run *)

Definition demo_idle : Pool :=
  {| po_shared := {| sh_active := 0; sh_registry := ∅; sh_flags := ∅; sh_completed := ∅; sh_log := [] |};
     po_live := ∅; po_given := ∅; po_finished := ∅ |}.

Definition demo_context : ActivityContext :=
  {| ac_id := "a1"; ac_interface := Mcp; ac_principal := None; ac_operation := OpQuery;
     ac_sql := None; ac_param_keys := []; ac_trace_id := None |}.

(** The query [q1] is started at [10]. *)
Definition demo_guard : QueryGuard :=
  (guard_start "q1" (Some demo_context) 10 (register_cancel "q1" (po_shared demo_idle))).1.

Definition demo_started : Pool :=
  with_live "q1" (Some (Starting demo_guard))
    (guard_start "q1" (Some demo_context) 10 (register_cancel "q1" (po_shared demo_idle))).2 demo_idle.

Definition demo_streaming : Pool :=
  with_live "q1" (Some (Streaming (adapt_instrumented demo_guard))) (po_shared demo_started) demo_started.

(** One step of the poll of [q1]. *)
Definition demo_step (inner : Polled) (p : Pool) : Pool :=
  match po_live p !! "q1" with
  | Some (Streaming s) =>
      answered "q1" (poll_load (default false (sh_flags (po_shared p) !! is_id s)) s) p
  | Some (Polling s) => answered "q1" (poll_settle inner s) p
  | Some (Ending g) => ended "q1" 20 g p
  | _ => p
  end.

(** A batch is given, and the next poll finds its flag down. *)
Definition demo_given : Pool := demo_step (Batch 3) (demo_step Pending demo_streaming).
Definition demo_polling : Pool := demo_step Pending demo_given.

(** A request to cancel; the poll gives its two rows, the next ones say cancelled and the end. *)
Definition demo_cancelled : Pool :=
  demo_step Pending (demo_step Pending (demo_step Pending
    (demo_step (Batch 2) (cancelling "q1" demo_polling)))).

Lemma demo_step_steps inner p : rtc (qstep true) p (demo_step inner p).
Proof.
  unfold demo_step. destruct (po_live p !! "q1") as [[g|s|s|g]|] eqn:Hid; try done;
    by apply rtc_once; constructor.
Qed.

Lemma qreachable_steps p p' : qreachable true p → rtc (qstep true) p p' → qreachable true p'.
Proof. intros H. induction 1; [done|]. eauto using qr_step. Qed.

Lemma demo_given_reachable : qreachable true demo_given.
Proof.
  eapply qreachable_steps; [|apply demo_step_steps].
  eapply qreachable_steps; [|apply demo_step_steps].
  eapply qr_step; [|by apply q_stream].
  eapply qr_step; [|by eapply (q_start _ _ "q1" (Some demo_context) 10)].
  by apply qr_idle.
Qed.

Lemma demo_polling_reachable : qreachable true demo_polling.
Proof. eapply qreachable_steps; [apply demo_given_reachable|apply demo_step_steps]. Qed.

Lemma demo_cancelled_steps : rtc (qstep true) (cancelling "q1" demo_polling) demo_cancelled.
Proof. unfold demo_cancelled. do 4 (etrans; [|apply demo_step_steps]). done. Qed.

Lemma queries_accounted_witness :
  qreachable true demo_given ∧ health_active (po_shared demo_given) = 1%Z ∧ given demo_given "q1" = 3%N.
Proof.
  split; [apply demo_given_reachable|]. split; [|reflexivity].
  destruct (queries_accounted true demo_given demo_given_reachable) as [H _]. rewrite H. reflexivity.
Defined.

Lemma cancel_stops_witness :
  (cancel "q1" (po_shared demo_polling)).2 = true ∧ batches demo_cancelled "q1" = [3%N; 2%N] ∧
  po_live demo_cancelled = ∅ ∧ "q1" ∉ po_finished demo_cancelled ∧
  (∃ late, [3%N; 2%N] = [3%N] ++ late ∧ (length late ≤ 1)%nat).
Proof.
  destruct (cancel_stops true demo_polling "q1" demo_polling_reachable) as [H1 H2].
  split; [rewrite H1; reflexivity|]. split; [reflexivity|]. split; [reflexivity|].
  split; [apply not_elem_of_empty|].
  destruct (po_live demo_polling !! "q1") as [l|] eqn:Hl; [|discriminate].
  destruct (H2 l demo_cancelled eq_refl demo_cancelled_steps) as [(late & Hb & Hlen & _) _].
  exists late. split; [exact Hb|]. injection Hl as <-. exact Hlen.
Defined.

(** ** What a stream's record says *)

(** An error inside the stream, then its end: the record says the query went well. *)
Lemma error_then_end_is_ok e g sh :
  sh_flags sh !! g_id g = Some false → g_activity g = Some demo_context →
  let '(_, s, sh) := poll_next 20 (Failure e) (adapt_instrumented g) sh in
  let '(item, _, sh') := poll_next 30 End s sh in
  item = End ∧ (ar_status <$> last (sh_log sh')) = Some StatusOk ∧
  (ar_error_code <$> last (sh_log sh')) = Some (Some (EngineError_code e)).
Proof.
  intros Hf Ha. unfold poll_next, poll_load. simpl. rewrite Hf. simpl. rewrite Hf. simpl.
  rewrite Ha. by rewrite last_snoc.
Qed.


(** ** The engine's operations are such runs *)

(** [poll_next] is such a run, in which nothing comes between its steps. *)
Lemma poll_next_run enabled now inner s id p :
  accounted enabled p → po_live p !! id = Some (Streaming s) →
  let '(item, s', sh) := poll_next now inner s (po_shared p) in
  ∃ p', rtc (qstep enabled) p p' ∧ po_shared p' = sh ∧
        po_live p' !! id = match item with End => None | _ => Some (Streaming s') end.
Proof.
  intros Hp Hid. pose proof (q_load enabled p id s Hid) as Hload.
  destruct (ac_live _ _ Hp id _ Hid) as [_ [[_ _ (g & Hg & _)] _]].
  set (flag := default false (sh_flags (po_shared p) !! is_id s)) in *.
  unfold poll_next. fold flag. unfold poll_load in *. destruct (is_cancel_emitted s) eqn:He; [|destruct flag].
  - rewrite Hg in *. eexists. split; [eapply rtc_l, rtc_once, (q_end _ _ id g now); [exact Hload|]|].
    + simpl. apply lookup_insert_eq.
    + split; [done|]. simpl. apply lookup_delete_eq.
  - eexists. split; [apply rtc_once, Hload|]. split; [done|]. apply lookup_insert_eq.
  - pose proof (q_inner enabled (answered id (Inner s) p) id s inner (lookup_insert_eq _ _ _)) as Hinner.
    destruct inner as [rows|e| |]; simpl in *; rewrite ?Hg in *; simpl in *.
    1,2,4: eexists; (split; [eapply rtc_l, rtc_once; [exact Hload|exact Hinner]|]);
      split; [done|apply lookup_insert_eq].
    eexists. split; [eapply rtc_l, rtc_l, rtc_once, (q_end _ _ id _ now); [exact Hload|exact Hinner|]|].
    + simpl. apply lookup_insert_eq.
    + split; [done|]. simpl. apply lookup_delete_eq.
Qed.

Lemma started_run `{!HashIter string} enabled (r : result EngineError string) (actx : option ActivityContext) f id now later p :
  sh_flags (po_shared p) !! id = None → is_some actx = enabled →
  f = (λ g, g) ∨ (∃ sql, f = set_activity_sql sql) →
  let '(g, sh) := guard_start id actx now (register_cancel id (po_shared p)) in
  let '(r, sh) := finish_start later r (f g) sh in
  ∃ p', rtc (qstep enabled) p p' ∧ po_shared p' = sh ∧
        po_live p' !! id = match r with Ok s => Some (Streaming s) | Err _ => None end.
Proof.
  intros Hnew Hact Hf. destruct (guard_start _ _ _ _) as [g sh] eqn:Hgs.
  pose (p1 := with_live id (Some (Starting g)) sh p).
  assert (qstep enabled p p1) as H1 by by eapply q_start.
  assert (∃ p2, rtc (qstep enabled) p1 p2 ∧ po_shared p2 = sh ∧ po_live p2 !! id = Some (Starting (f g)))
    as (p2 & H2 & Hsh & Hlive).
  { destruct Hf as [->|[sql ->]].
    - exists p1. split; [apply rtc_refl|]. split; [done|]. apply lookup_insert_eq.
    - eexists. split; [apply rtc_once, (q_sql _ _ id sql g), lookup_insert_eq|]. split; [done|].
      apply lookup_insert_eq. }
  unfold finish_start. destruct r as [sql|e].
  - eexists. split; [eapply rtc_l, rtc_r; [done|done|by apply q_stream]|]. split; [done|].
    apply lookup_insert_eq.
  - eexists. split; [eapply rtc_l, rtc_r; [done|done|by apply (q_fail _ _ id e later)]|].
    rewrite <-Hsh. split; [done|]. apply lookup_delete_eq.
Qed.

Lemma activity_context_enabled host enabled aid ctx op sql params :
  is_some (activity_context host enabled aid ctx op sql params) = enabled.
Proof. by destruct enabled. Qed.

(** [query] and [semantic_query] under a fresh identifier are runs of the steps above. *)
Lemma query_run `{!HashIter string} host inline enabled id aid now later req p :
  sh_flags (po_shared p) !! id = None →
  let '(r, sh) := query host inline enabled id aid now later req (po_shared p) in
  ∃ p', rtc (qstep enabled) p p' ∧ po_shared p' = sh ∧
        po_live p' !! id = match r with Ok s => Some (Streaming s) | Err _ => None end.
Proof.
  intros Hnew. unfold query. apply (started_run enabled _ _ (λ g, g)); [done| |by left].
  apply activity_context_enabled.
Qed.

Lemma semantic_query_run `{!HashIter string} host enabled id aid now later params p :
  sh_flags (po_shared p) !! id = None →
  let '(r, sh) := semantic_query host enabled id aid now later params (po_shared p) in
  ∃ p', rtc (qstep enabled) p p' ∧ po_shared p' = sh ∧
        po_live p' !! id = match r with Ok s => Some (Streaming s) | Err _ => None end.
Proof.
  intros Hnew. unfold semantic_query.
  pose proof (activity_context_enabled host enabled aid
    {| rc_interface := InProcess; rc_principal := None; rc_traceparent := None |} OpSemanticQuery None params) as Ha.
  destruct (qh_compile host) as [sql|e].
  - apply (started_run enabled _ _ (set_activity_sql (qh_redact host sql))); [done|done|by right; eexists].
  - apply (started_run enabled (Err e) _ (λ g, g)); [done|done|by left].
Qed.
