(* ===== verification/Service.v ===== *)
(** * The contract of an engine ([crates/pawrly-core/src/service.rs])
    What every engine answers to: the operations of [EngineService], with the data they take and
    give. The engine's state is a type of its own; an operation gives the state it leaves. Times
    are nanoseconds since the epoch, durations nanoseconds. *)

From S2P Require Export EngineErrors Cache Functions Queries.

(** ** Data *)

Record ColumnSpec := {
  cs_name : string;
  cs_data_type : string;
  cs_nullable : bool;
  cs_description : option string;
  cs_is_filter_pushable : bool;
  cs_is_required_filter : bool
}.

Record TableInfo := {
  ti_name : TableName;
  ti_kind : SourceKind;
  ti_description : option string;
  ti_row_count_estimate : option N;
  ti_cached : bool;
  ti_required_filters : list string
}.

Record TableFilter := { tf_source : option string; tf_name_glob : option string }.

Record TableDescription := {
  td_table : TableInfo;
  td_columns : list ColumnSpec;
  td_pushable_filter_columns : list string;
  td_examples : list string;
  td_wiki : option string
}.

Inductive SourceStatus := SourceOk | SourceUnavailable.

Record SourceInfo := {
  si_name : string;
  si_kind : SourceKind;
  si_status : SourceStatus;
  si_status_detail : option string;
  si_sub_kind : option string;
  si_table_count : N;
  si_registered_at : Z
}.

Record SourceTestReport := {
  st_name : string;
  st_ok : bool;
  st_latency : N;
  st_detail : option string
}.

Record ReloadReport := { rl_added : N; rl_removed : N; rl_changed : N }.

Record RefreshCatalogOutcome := { rc_sources_refreshed : N; rc_tables_discovered : N }.

Record RefreshOutcome := {
  ro_table : TableName;
  ro_rows_written : N;
  ro_size_bytes : N;
  ro_elapsed : N;
  ro_expires_at : option Z
}.

Record MaterializeOutcome := {
  mo_name : TableName;
  mo_file_path : string;
  mo_row_count : N;
  mo_size_bytes : N
}.

Record HealthReport := {
  hr_ok : bool;
  hr_version : string;
  hr_active_queries : N;
  hr_sources_ok : N;
  hr_sources_unavailable : N
}.

(** ** Arrow *)

(** [DataType]: the string and byte types that matter here, and any other one. *)
Inductive ArrowType := Utf8 | Utf8View | Binary | BinaryView | OtherType (name : string).

Record ArrowField := { af_name : string; af_type : ArrowType; af_nullable : bool; af_metadata : gmap string string }.

(** What the Arrow crates do: the columns and their casts, building a batch, and writing and
    reading one as an IPC stream. Their errors are texts. *)
Class Arrow := {
  Column : Type;
  cast : Column → ArrowType → result string Column;
  try_new : gmap string string → list ArrowField → list Column → N → result string ();
  write_ipc : gmap string string → list ArrowField → list Column → N → result string string;
  read_ipc : string → result string (list (gmap string string * list ArrowField * list Column * N))
}.

Section service.
Context {AR : Arrow}.

(** A batch: the schema's metadata and fields, the columns, the rows. *)
Record RecordBatch := {
  rb_metadata : gmap string string;
  rb_fields : list ArrowField;
  rb_columns : list Column;
  rb_rows : N
}.

(** [QueryHandle]: what its stream gives until it ends, and the completion slot once it is
    drained. *)
Record QueryHandle := {
  hd_id : string;
  hd_stream : list (result EngineError RecordBatch);
  hd_completion : option QueryCompleted
}.

(** ** The operations *)

(** [Snapshot], [Metric] and [SourceDef] travel as JSON and YAML: their fields play no role. *)
Context {Snapshot Metric SourceDef : Type}.

Definition op (E A : Type) : Type := E → E * result EngineError A.

Record EngineService {E : Type} := {
  query : QueryRequest → op E QueryHandle;
  explain : string → bool → op E string;
  cancel : string → op E bool;
  list_sources : op E (list SourceInfo);
  list_tables : option TableFilter → op E (list TableInfo);
  describe_table : TableName → op E TableDescription;
  schema_snapshot : option (list string) → bool → op E Snapshot;
  refresh_catalog : option string → op E RefreshCatalogOutcome;
  cache_entries : option string → op E (list CacheEntryInfo);
  refresh_table : TableName → option string → op E RefreshOutcome;
  invalidate_cache : TableName → op E bool;
  vacuum_cache : op E VacuumReport;
  materialize : string → MaterializeSpec → option string → op E MaterializeOutcome;
  drop_namespace : string → op E bool;
  drop_materialized : string → option string → op E bool;
  add_source : SourceDef → op E SourceInfo;
  remove_source : string → op E bool;
  test_source : string → op E SourceTestReport;
  reload_config : op E ReloadReport;
  list_semantic_models : op E (list SemanticModelInfo);
  describe_semantic_model : string → op E SemanticModelDescription;
  list_metrics : op E (list Metric);
  describe_metric : string → op E Metric;
  semantic_query : SemanticQuery → op E QueryHandle;
  list_functions : op E (list FunctionInfo);
  describe_function : string → string → op E FunctionDescription;
  health : op E HealthReport;
  shutdown : op E ()
}.
Arguments EngineService : clear implicits.

(** ** [EngineServiceExt] *)

(** [QueryRequest::sql]. *)
Definition QueryRequest_sql (sql : string) : QueryRequest :=
  {| qr_sql := sql; qr_params := ∅; qr_timeout := None; qr_max_rows := 0; qr_trace_id := None;
     qr_context := {| rc_interface := InProcess; rc_principal := None; rc_traceparent := None |} |}.

(** The batches of a drained stream, or its first error. *)
Definition collect {A} (stream : list (result EngineError A)) : result EngineError (list A) :=
  try_map (λ item, item) stream.

Definition query_collect {E} (e : EngineService E) (sql : string) : op E (list RecordBatch) := λ st,
  let '(st, r) := query e (QueryRequest_sql sql) st in
  (st, let? h := r in collect (hd_stream h)).

Definition query_one {E} (e : EngineService E) (sql : string) : op E (option RecordBatch) := λ st,
  let '(st, r) := query_collect e sql st in (st, rmap head r).

Definition semantic_query_collect {E} (e : EngineService E) (q : SemanticQuery) : op E (list RecordBatch) := λ st,
  let '(st, r) := semantic_query e q st in
  (st, let? h := r in collect (hd_stream h)).
End service.
Arguments EngineService {AR} Snapshot Metric SourceDef E.
