(* ===== verification/Wire.v ===== *)
(** * The wire ([crates/pawrly-proto/src/conv.rs], [crates/pawrly-proto/proto/])
    The messages of the gRPC interface and the conversions between them and the engine's data.
    An enumeration travels as its number, an absent text as the empty one. *)

From S2P Require Export Service.

(** ** Messages *)

Module v1.
(** Enumerations. *)
Inductive SourceKind :=
| KindUnspecified | Http | File | Postgres | Mysql | Sqlite | Duckdb | Snowflake | Iceberg | Delta
| Ducklake | Mcp.
Inductive SourceStatus := StatusUnspecified | SourceOk | SourceUnavailable.
Inductive CacheMode := ModeUnspecified | ModeNone | ModeTtl | ModeRefresh | ModeCron | ModeAppend | ModePinned.
Inductive MaterializeFormat := FormatUnspecified | FormatParquet | FormatCsv | FormatJson.
Inductive DimensionType := TypeUnspecified | TString | TNumber | TTime | TBool.
Inductive TimeGrain := GrainUnspecified | Hour | Day | Week | Month | Quarter | Year.
Inductive RelationshipKind := RelUnspecified | ManyToOne | OneToMany | OneToOne.
Inductive FilterOp :=
| OpUnspecified | Equals | NotEquals | In | NotIn | Gt | Gte | Lt | Lte | InRange | Contains
| StartsWith | EndsWith | IsNull | IsNotNull.

Record Timestamp := { ts_seconds : Z; ts_nanos : Z }.
Record Duration := { d_seconds : Z; d_nanos : Z }.

Record TableName := { schema : string; table : string }.

Record ColumnSpec := {
  c_name : string;
  c_data_type : string;
  c_nullable : bool;
  c_description : string;
  c_is_filter_pushable : bool;
  c_is_required_filter : bool
}.

Record TableInfo := {
  t_name : option TableName;
  t_kind : Z;
  t_description : string;
  t_row_count_estimate : option N;
  t_cached : bool;
  t_required_filters : list string
}.

Record SourceInfo := {
  s_name : string;
  s_kind : Z;
  s_status : Z;
  s_status_detail : string;
  s_table_count : N;
  s_registered_at : option Timestamp;
  s_sub_kind : option string
}.

Record QueryRequest := {
  r_sql : string;
  r_params : gmap string string;
  r_timeout : option Duration;
  r_max_rows : N;
  r_trace_id : string
}.

Record QuerySpec := { qs_sql : string; qs_params : gmap string string }.
Record FileSpec := { fs_path : string; fs_format : Z }.
Record UrlSpec := { us_url : string; us_format : Z }.
Record InlineSpec := { is_bytes : string; is_format : Z }.
Inductive Spec := Query (q : QuerySpec) | FileOf (f : FileSpec) | Url (u : UrlSpec) | Inline (i : InlineSpec).
Record MaterializeSpec := { spec : option Spec }.

Record MaterializeResponse := {
  mr_name : option TableName;
  mr_file_path : string;
  mr_row_count : N;
  mr_size_bytes : N;
  mr_namespace : string
}.

Record HealthResponse := {
  h_ok : bool;
  h_version : string;
  h_active_queries : N;
  h_sources_ok : N;
  h_sources_unavailable : N
}.

Record Dimension := {
  dm_name : string;
  dm_expr : string;
  dm_type : Z;
  dm_grains : list Z;
  dm_description : string
}.

Record Measure := {
  ms_name : string;
  ms_agg : string;
  ms_expr : string;
  ms_filters : list string;
  ms_format : string;
  ms_description : string;
  ms_custom_sql : string
}.

Record Relationship := { rl_name : string; rl_kind : Z; rl_target : string; rl_on : string }.
Record SemanticFilter := { f_member : string; f_op : Z; f_values : list string }.
Record Segment := { sg_name : string; sg_description : string; sg_filters : list SemanticFilter }.

Record ModelInfo := {
  mi_name : string;
  mi_description : string;
  mi_source : string;
  mi_dimension_count : N;
  mi_measure_count : N
}.

Record ModelDescription := {
  md_name : string;
  md_description : string;
  md_source : string;
  md_primary_key : list string;
  md_dimensions : list Dimension;
  md_measures : list Measure;
  md_relationships : list Relationship;
  md_segments : list Segment
}.

Record SemanticOrder := { o_member : string; o_desc : bool }.

Record SemanticQueryRequest := {
  sq_measures : list string;
  sq_dimensions : list string;
  sq_filters : list SemanticFilter;
  sq_order_by : list SemanticOrder;
  sq_limit : option N;
  sq_time_zone : option string;
  sq_params : gmap string string;
  sq_timeout : option Duration;
  sq_trace_id : string;
  sq_segments : list string
}.

Record FunctionInfo := {
  fi_namespace : string;
  fi_name : string;
  fi_kind : string;
  fi_builtin : bool;
  fi_signature : string;
  fi_description : option string
}.

Record FunctionArg := {
  fa_name : string;
  fa_type : string;
  fa_required : bool;
  fa_default : option string;
  fa_description : option string;
  fa_tool_arg : option string
}.

Record FunctionColumn := {
  fc_name : string;
  fc_type : string;
  fc_source : option string;
  fc_description : option string
}.

Record FunctionDescription := {
  ds_namespace : string;
  ds_name : string;
  ds_kind : string;
  ds_builtin : bool;
  ds_signature : string;
  ds_description : option string;
  ds_wiki : option string;
  ds_examples : list string;
  ds_args : list FunctionArg;
  ds_returns : list FunctionColumn
}.

(** Queries: the frames of an answer. *)
Record QueryStarted := { qs_query_id : string; qs_started_at : option Timestamp }.
Record QueryCompleted := {
  qc_rows_returned : N;
  qc_elapsed : option Duration;
  qc_truncated : bool;
  qc_explain : string
}.
Record Error := { e_code : string; e_message : string }.
Inductive Payload :=
| Started (s : QueryStarted) | IpcStream (bytes : string) | Completed (c : QueryCompleted)
| Failed (e : Error).
Record QueryResponse := { payload : option Payload }.

(** Requests and responses of several fields; one of a single field is that field. *)
Record ExplainRequest := { ex_sql : string; ex_analyze : bool; ex_params : gmap string string }.
Record ListTablesRequest := { lt_source : option string; lt_name_glob : option string }.
Record DescribeTableResponse := {
  dt_table : option TableInfo;
  dt_columns : list ColumnSpec;
  dt_pushable_filter_columns : list string;
  dt_examples : list string;
  dt_wiki : option string
}.
Record SchemaSnapshotRequest := { ss_sources : list string; ss_compact : bool }.
Record RefreshCatalogResponse := { rcr_sources_refreshed : N; rcr_tables_discovered : N }.
Record DescribeFunctionRequest := { df_namespace : string; df_name : string }.

Record CacheEntryInfo := {
  ce_name : option TableName;
  ce_mode : Z;
  ce_written_at : option Timestamp;
  ce_expires_at : option Timestamp;
  ce_row_count : N;
  ce_size_bytes : N;
  ce_file_count : N
}.
Record ListEntriesResponse := { le_entries : list CacheEntryInfo; le_namespace : string }.
Record RefreshRequest := { rr_name : option TableName; rr_namespace : string }.
Record RefreshResponse := {
  rs_rows_written : N;
  rs_size_bytes : N;
  rs_elapsed : option Duration;
  rs_expires_at : option Timestamp;
  rs_namespace : string
}.
Record VacuumResponse := { vr_entries_removed : N; vr_files_removed : N; vr_bytes_reclaimed : N }.
Record MaterializeRequest := { mq_name : string; mq_spec : option MaterializeSpec; mq_namespace : string }.
Record DropMaterializedRequest := { dm_req_name : string; dm_req_namespace : string }.
Record DroppedResponse := { dr_dropped : bool; dr_namespace : string }.

Record TestSourceResponse := { tr_ok : bool; tr_latency : option Duration; tr_detail : string }.
Record ReloadConfigResponse := {
  rc_sources_added : N;
  rc_sources_removed : N;
  rc_sources_changed : N
}.
Record VersionResponse := { vs_pawrly_version : string; vs_api_version : string; vs_protobuf_revision : string }.

(** The numbers of the enumerations, as [common.proto], [cache.proto] and [semantic.proto] give
    them. *)
Definition SourceKind_number (k : SourceKind) : Z :=
  match k with
  | KindUnspecified => 0 | Http => 1 | File => 20 | Postgres => 21 | Mysql => 22 | Sqlite => 23
  | Duckdb => 24 | Snowflake => 30 | Iceberg => 33 | Delta => 34 | Ducklake => 35 | Mcp => 36
  end%Z.
Definition SourceStatus_number (s : SourceStatus) : Z :=
  match s with StatusUnspecified => 0 | SourceOk => 1 | SourceUnavailable => 2 end%Z.
Definition CacheMode_number (m : CacheMode) : Z :=
  match m with
  | ModeUnspecified => 0 | ModeNone => 1 | ModeTtl => 2 | ModeRefresh => 3 | ModeCron => 4
  | ModeAppend => 5 | ModePinned => 6
  end%Z.
Definition MaterializeFormat_number (f : MaterializeFormat) : Z :=
  match f with FormatUnspecified => 0 | FormatParquet => 1 | FormatCsv => 2 | FormatJson => 3 end%Z.
Definition DimensionType_number (t : DimensionType) : Z :=
  match t with TypeUnspecified => 0 | TString => 1 | TNumber => 2 | TTime => 3 | TBool => 4 end%Z.
Definition TimeGrain_number (g : TimeGrain) : Z :=
  match g with
  | GrainUnspecified => 0 | Hour => 1 | Day => 2 | Week => 3 | Month => 4 | Quarter => 5 | Year => 6
  end%Z.
Definition RelationshipKind_number (k : RelationshipKind) : Z :=
  match k with RelUnspecified => 0 | ManyToOne => 1 | OneToMany => 2 | OneToOne => 3 end%Z.
Definition FilterOp_number (o : FilterOp) : Z :=
  match o with
  | OpUnspecified => 0 | Equals => 1 | NotEquals => 2 | In => 3 | NotIn => 4 | Gt => 5 | Gte => 6
  | Lt => 7 | Lte => 8 | InRange => 9 | Contains => 10 | StartsWith => 11 | EndsWith => 12
  | IsNull => 13 | IsNotNull => 14
  end%Z.

(** The values of each, for reading a number back. *)
Definition SourceKinds : list SourceKind :=
  [KindUnspecified; Http; File; Postgres; Mysql; Sqlite; Duckdb; Snowflake; Iceberg; Delta; Ducklake; Mcp].
Definition SourceStatuses : list SourceStatus := [StatusUnspecified; SourceOk; SourceUnavailable].
Definition CacheModes : list CacheMode :=
  [ModeUnspecified; ModeNone; ModeTtl; ModeRefresh; ModeCron; ModeAppend; ModePinned].
Definition MaterializeFormats : list MaterializeFormat :=
  [FormatUnspecified; FormatParquet; FormatCsv; FormatJson].
Definition DimensionTypes : list DimensionType := [TypeUnspecified; TString; TNumber; TTime; TBool].
Definition TimeGrains : list TimeGrain := [GrainUnspecified; Hour; Day; Week; Month; Quarter; Year].
Definition RelationshipKinds : list RelationshipKind := [RelUnspecified; ManyToOne; OneToMany; OneToOne].
Definition FilterOps : list FilterOp :=
  [OpUnspecified; Equals; NotEquals; In; NotIn; Gt; Gte; Lt; Lte; InRange; Contains; StartsWith;
   EndsWith; IsNull; IsNotNull].
End v1.

(** The generated [try_from] of a number. *)
Definition of_number {A} (number : A → Z) (values : list A) (n : Z) : option A :=
  List.find (λ k, (number k =? n)%Z) values.
#[global] Arguments of_number : simpl never.

(** ** Conversions *)

Inductive ConvError := CMissing (field : string) | CInvalid (field : string) | CUnspecifiedSourceKind.

Definition ConvError_display (e : ConvError) : string :=
  match e with
  | CMissing f => "required field " +:+ tick f +:+ " was missing"
  | CInvalid f => "invalid value for field " +:+ tick f
  | CUnspecifiedSourceKind => "source kind UNSPECIFIED is not a valid runtime value"
  end.

(** [unwrap_or_default], and back: an empty text is an absent one. *)
Definition text_to (s : option string) : string := default "" s.
Definition text_from (s : string) : option string := if decide (s = "") then None else Some s.

(** *** Enumerations *)

Definition SourceKind_to (k : SourceKind) : v1.SourceKind :=
  match k with
  | KHttp => v1.Http | KFile => v1.File | KMcp => v1.Mcp | KSqlite => v1.Sqlite
  | KPostgres => v1.Postgres | KMysql => v1.Mysql | KDuckdb => v1.Duckdb
  | KSnowflake => v1.Snowflake | KIceberg => v1.Iceberg | KDucklake => v1.Ducklake
  | KDelta => v1.Delta
  end.

Definition SourceKind_from (k : v1.SourceKind) : result ConvError SourceKind :=
  match k with
  | v1.KindUnspecified => Err CUnspecifiedSourceKind
  | v1.Http => Ok KHttp | v1.File => Ok KFile | v1.Mcp => Ok KMcp | v1.Sqlite => Ok KSqlite
  | v1.Postgres => Ok KPostgres | v1.Mysql => Ok KMysql | v1.Duckdb => Ok KDuckdb
  | v1.Snowflake => Ok KSnowflake | v1.Iceberg => Ok KIceberg | v1.Ducklake => Ok KDucklake
  | v1.Delta => Ok KDelta
  end.

(** [v1::SourceKind::try_from] of a number, then the conversion. *)
Definition kind_from (field : string) (n : Z) : result ConvError SourceKind :=
  let? k := ok_or (CInvalid field) (of_number v1.SourceKind_number v1.SourceKinds n) in
  SourceKind_from k.

Definition CacheMode_to (m : CacheMode) : v1.CacheMode :=
  match m with
  | ModeNone => v1.ModeNone | ModeTtl => v1.ModeTtl | ModeRefresh => v1.ModeRefresh
  | ModeCron => v1.ModeCron | ModeAppend => v1.ModeAppend | ModePinned => v1.ModePinned
  end.

Definition format_to_proto (f : MaterializeFormat) : Z :=
  v1.MaterializeFormat_number
    match f with FormatParquet => v1.FormatParquet | FormatCsv => v1.FormatCsv | FormatJson => v1.FormatJson end.

Definition format_from_proto (n : Z) : option MaterializeFormat :=
  f ← of_number v1.MaterializeFormat_number v1.MaterializeFormats n;
  match f with
  | v1.FormatParquet => Some FormatParquet
  | v1.FormatCsv => Some FormatCsv
  | v1.FormatJson => Some FormatJson
  | v1.FormatUnspecified => None
  end.

Definition opt_format_to_proto (f : option MaterializeFormat) : Z :=
  match f with
  | Some f => format_to_proto f
  | None => v1.MaterializeFormat_number v1.FormatUnspecified
  end.

Definition DimensionType_to (t : DimensionType) : v1.DimensionType :=
  match t with
  | DTString => v1.TString | DTNumber => v1.TNumber | DTTime => v1.TTime | DTBool => v1.TBool
  end.

Definition DimensionType_from (t : v1.DimensionType) : result ConvError DimensionType :=
  match t with
  | v1.TypeUnspecified => Err (CInvalid "DimensionType")
  | v1.TString => Ok DTString | v1.TNumber => Ok DTNumber | v1.TTime => Ok DTTime
  | v1.TBool => Ok DTBool
  end.

Definition TimeGrain_to (g : TimeGrain) : v1.TimeGrain :=
  match g with
  | Hour => v1.Hour | Day => v1.Day | Week => v1.Week | Month => v1.Month
  | Quarter => v1.Quarter | Year => v1.Year
  end.

Definition TimeGrain_from (g : v1.TimeGrain) : result ConvError TimeGrain :=
  match g with
  | v1.GrainUnspecified => Err (CInvalid "TimeGrain")
  | v1.Hour => Ok Hour | v1.Day => Ok Day | v1.Week => Ok Week | v1.Month => Ok Month
  | v1.Quarter => Ok Quarter | v1.Year => Ok Year
  end.

Definition FilterOp_to (o : FilterOp) : v1.FilterOp :=
  match o with
  | OpEquals => v1.Equals | OpNotEquals => v1.NotEquals | OpIn => v1.In | OpNotIn => v1.NotIn
  | OpGt => v1.Gt | OpGte => v1.Gte | OpLt => v1.Lt | OpLte => v1.Lte | OpInRange => v1.InRange
  | OpContains => v1.Contains | OpStartsWith => v1.StartsWith | OpEndsWith => v1.EndsWith
  | OpIsNull => v1.IsNull | OpIsNotNull => v1.IsNotNull
  end.

Definition FilterOp_from (o : v1.FilterOp) : result ConvError FilterOp :=
  match o with
  | v1.OpUnspecified => Err (CInvalid "FilterOp")
  | v1.Equals => Ok OpEquals | v1.NotEquals => Ok OpNotEquals | v1.In => Ok OpIn
  | v1.NotIn => Ok OpNotIn | v1.Gt => Ok OpGt | v1.Gte => Ok OpGte | v1.Lt => Ok OpLt
  | v1.Lte => Ok OpLte | v1.InRange => Ok OpInRange | v1.Contains => Ok OpContains
  | v1.StartsWith => Ok OpStartsWith | v1.EndsWith => Ok OpEndsWith | v1.IsNull => Ok OpIsNull
  | v1.IsNotNull => Ok OpIsNotNull
  end.

Definition RelationshipKind_to (k : RelationshipKind) : v1.RelationshipKind :=
  match k with
  | ManyToOne => v1.ManyToOne | OneToMany => v1.OneToMany | OneToOne => v1.OneToOne
  end.

Definition RelationshipKind_from (k : v1.RelationshipKind) : result ConvError RelationshipKind :=
  match k with
  | v1.RelUnspecified => Err (CInvalid "RelationshipKind")
  | v1.ManyToOne => Ok ManyToOne | v1.OneToMany => Ok OneToMany | v1.OneToOne => Ok OneToOne
  end.

(** *** Times and durations *)

(** What chrono makes of seconds and nanoseconds, where it can. *)
Class Chrono := { timestamp_opt : Z → Z → option Z }.

Definition NANOS : Z := 1000000000.

(** [timestamp_from]. *)
Definition timestamp_from (t : Z) : v1.Timestamp :=
  {| v1.ts_seconds := t / NANOS; v1.ts_nanos := t mod NANOS |}.

(** [timestamp_to]; [now] is the clock. *)
Definition timestamp_to `{!Chrono} (now : Z) (t : v1.Timestamp) : Z :=
  default now (timestamp_opt (v1.ts_seconds t) (v1.ts_nanos t mod 2 ^ 32)).

(** A time of out range of [i64] seconds is left out. *)
Definition timeout_to (d : N) : option v1.Duration :=
  let secs := (Z.of_N d / NANOS)%Z in
  if (secs <=? i64_max)%Z then Some {| v1.d_seconds := secs; v1.d_nanos := Z.of_N d mod NANOS |} else None.

Definition timeout_from (d : v1.Duration) : option N :=
  if (0 <=? v1.d_seconds d)%Z && (0 <=? v1.d_nanos d)%Z
  then Some (Z.to_N (v1.d_seconds d * NANOS + v1.d_nanos d)) else None.

(** *** Names, columns, tables, sources *)

Definition TableName_to (n : TableName) : v1.TableName :=
  {| v1.schema := tn_schema n; v1.table := tn_table n |}.
Definition TableName_from (n : v1.TableName) : TableName := mkTableName (v1.schema n) (v1.table n).

Definition ColumnSpec_to (c : ColumnSpec) : v1.ColumnSpec :=
  {| v1.c_name := cs_name c; v1.c_data_type := cs_data_type c; v1.c_nullable := cs_nullable c;
     v1.c_description := text_to (cs_description c);
     v1.c_is_filter_pushable := cs_is_filter_pushable c;
     v1.c_is_required_filter := cs_is_required_filter c |}.

Definition ColumnSpec_from (c : v1.ColumnSpec) : ColumnSpec :=
  {| cs_name := v1.c_name c; cs_data_type := v1.c_data_type c; cs_nullable := v1.c_nullable c;
     cs_description := text_from (v1.c_description c);
     cs_is_filter_pushable := v1.c_is_filter_pushable c;
     cs_is_required_filter := v1.c_is_required_filter c |}.

Definition TableInfo_to (t : TableInfo) : v1.TableInfo :=
  {| v1.t_name := Some (TableName_to (ti_name t));
     v1.t_kind := v1.SourceKind_number (SourceKind_to (ti_kind t));
     v1.t_description := text_to (ti_description t);
     v1.t_row_count_estimate := ti_row_count_estimate t; v1.t_cached := ti_cached t;
     v1.t_required_filters := ti_required_filters t |}.

Definition TableInfo_from (t : v1.TableInfo) : result ConvError TableInfo :=
  let? name := ok_or (CMissing "TableInfo.name") (v1.t_name t) in
  let? kind := kind_from "TableInfo.kind" (v1.t_kind t) in
  Ok {| ti_name := TableName_from name; ti_kind := kind;
        ti_description := text_from (v1.t_description t);
        ti_row_count_estimate := v1.t_row_count_estimate t; ti_cached := v1.t_cached t;
        ti_required_filters := v1.t_required_filters t |}.

Definition SourceStatus_to (s : SourceStatus) : Z :=
  v1.SourceStatus_number match s with SourceOk => v1.SourceOk | SourceUnavailable => v1.SourceUnavailable end.

Definition SourceInfo_to (s : SourceInfo) : v1.SourceInfo :=
  {| v1.s_name := si_name s; v1.s_kind := v1.SourceKind_number (SourceKind_to (si_kind s));
     v1.s_status := SourceStatus_to (si_status s);
     v1.s_status_detail := text_to (si_status_detail s); v1.s_table_count := si_table_count s;
     v1.s_registered_at := Some (timestamp_from (si_registered_at s));
     v1.s_sub_kind := si_sub_kind s |}.

Definition SourceInfo_from `{!Chrono} (now : Z) (s : v1.SourceInfo) : result ConvError SourceInfo :=
  let? kind := kind_from "SourceInfo.kind" (v1.s_kind s) in
  let? status := match of_number v1.SourceStatus_number v1.SourceStatuses (v1.s_status s) with
                 | Some v1.SourceOk => Ok SourceOk
                 | Some v1.SourceUnavailable => Ok SourceUnavailable
                 | _ => Err (CInvalid "SourceInfo.status")
                 end in
  Ok {| si_name := v1.s_name s; si_kind := kind; si_status := status;
        si_status_detail := text_from (v1.s_status_detail s); si_sub_kind := v1.s_sub_kind s;
        si_table_count := v1.s_table_count s;
        si_registered_at := match v1.s_registered_at s with
                            | Some t => timestamp_to now t
                            | None => now
                            end |}.

Definition HealthReport_to (h : HealthReport) : v1.HealthResponse :=
  {| v1.h_ok := hr_ok h; v1.h_version := hr_version h; v1.h_active_queries := hr_active_queries h;
     v1.h_sources_ok := hr_sources_ok h; v1.h_sources_unavailable := hr_sources_unavailable h |}.
Definition HealthReport_from (h : v1.HealthResponse) : HealthReport :=
  {| hr_ok := v1.h_ok h; hr_version := v1.h_version h; hr_active_queries := v1.h_active_queries h;
     hr_sources_ok := v1.h_sources_ok h; hr_sources_unavailable := v1.h_sources_unavailable h |}.

(** *** Requests *)

Definition QueryRequest_to (r : QueryRequest) : v1.QueryRequest :=
  {| v1.r_sql := qr_sql r; v1.r_params := qr_params r; v1.r_timeout := qr_timeout r ≫= timeout_to;
     v1.r_max_rows := qr_max_rows r; v1.r_trace_id := text_to (qr_trace_id r) |}.

Definition QueryRequest_from (r : v1.QueryRequest) : QueryRequest :=
  {| qr_sql := v1.r_sql r; qr_params := v1.r_params r; qr_timeout := v1.r_timeout r ≫= timeout_from;
     qr_max_rows := v1.r_max_rows r; qr_trace_id := text_from (v1.r_trace_id r);
     qr_context := {| rc_interface := InProcess; rc_principal := None; rc_traceparent := None |} |}.

(** *** Errors: [tonic::Status] with the error code in its metadata *)

Inductive GrpcCode :=
| InvalidArgument | FailedPrecondition | DeadlineExceeded | ResourceExhausted | CancelledCode
| InternalCode | Unimplemented | Unauthenticated.

Record GrpcStatus := { gs_code : GrpcCode; gs_message : string; gs_error_code : option string }.

(** What the other side reads of a metadata value; [None] if it cannot be one. *)
Class Metadata := { metadata_value : string → option string }.

Definition invalid_argument (msg : string) : GrpcStatus :=
  {| gs_code := InvalidArgument; gs_message := msg; gs_error_code := None |}.
Definition internal_status (msg : string) : GrpcStatus :=
  {| gs_code := InternalCode; gs_message := msg; gs_error_code := None |}.

Definition grpc_code (e : EngineError) : GrpcCode :=
  match e with
  | EUnknownKind _ | EUnknownTable _ | EUnknownFunction _ | EInvalidSql _ | ESemanticPlan _ => InvalidArgument
  | ESafety _ | ESourceRegistration _ _ _ => FailedPrecondition
  | ETimeout _ => DeadlineExceeded
  | EOutOfMemory _ => ResourceExhausted
  | ECancelled => CancelledCode
  | EProtocol _ | EInternal _ => InternalCode
  | EUnsupported _ => Unimplemented
  end.

Definition engine_error_to_status `{!Metadata} (duration_debug : N → string) (e : EngineError) : GrpcStatus :=
  {| gs_code := grpc_code e; gs_message := EngineError_display duration_debug e;
     gs_error_code := metadata_value (EngineError_code e) |}.

Definition status_to_engine_error (s : GrpcStatus) : EngineError :=
  from_wire (default "PAWRLY_INTERNAL" (gs_error_code s)) (gs_message s).

(** *** Materialized tables *)

(** [to_string_lossy] of a path. *)
Class Paths := { to_string_lossy : string → string }.

Definition MaterializeSpec_to `{!Paths} (s : MaterializeSpec) : v1.MaterializeSpec :=
  {| v1.spec := Some
       match s with
       | SpecQuery sql params => v1.Query {| v1.qs_sql := sql; v1.qs_params := params |}
       | SpecFile path format =>
           v1.FileOf {| v1.fs_path := to_string_lossy path; v1.fs_format := opt_format_to_proto format |}
       | SpecUrl url format => v1.Url {| v1.us_url := url; v1.us_format := opt_format_to_proto format |}
       | SpecInline bytes format =>
           v1.Inline {| v1.is_bytes := bytes; v1.is_format := format_to_proto format |}
       end |}.

Definition MaterializeSpec_from (s : v1.MaterializeSpec) : result GrpcStatus MaterializeSpec :=
  match v1.spec s with
  | Some (v1.Query q) => Ok (SpecQuery (v1.qs_sql q) (v1.qs_params q))
  | Some (v1.FileOf f) => Ok (SpecFile (v1.fs_path f) (format_from_proto (v1.fs_format f)))
  | Some (v1.Url u) => Ok (SpecUrl (v1.us_url u) (format_from_proto (v1.us_format u)))
  | Some (v1.Inline i) =>
      let? format := ok_or (invalid_argument "inline materialize requires a format")
                       (format_from_proto (v1.is_format i)) in
      Ok (SpecInline (v1.is_bytes i) format)
  | None => Err (invalid_argument "materialize spec is required")
  end.

Definition MaterializeOutcome_to `{!Paths} (o : MaterializeOutcome) : v1.MaterializeResponse :=
  {| v1.mr_name := Some (TableName_to (mo_name o)); v1.mr_file_path := to_string_lossy (mo_file_path o);
     v1.mr_row_count := mo_row_count o; v1.mr_size_bytes := mo_size_bytes o; v1.mr_namespace := "" |}.

Definition MaterializeOutcome_from (r : v1.MaterializeResponse) : MaterializeOutcome :=
  {| mo_name := match v1.mr_name r with
                | Some n => TableName_from n
                | None => mkTableName MATERIALIZED_SCHEMA ""
                end;
     mo_file_path := v1.mr_file_path r; mo_row_count := v1.mr_row_count r;
     mo_size_bytes := v1.mr_size_bytes r |}.

(** *** Semantic models and queries *)

Definition Dimension_to (d : Dimension) : v1.Dimension :=
  {| v1.dm_name := dim_name d; v1.dm_expr := dim_expr d;
     v1.dm_type := v1.DimensionType_number (DimensionType_to (dim_data_type d));
     v1.dm_grains := (λ g, v1.TimeGrain_number (TimeGrain_to g)) <$> dim_time_grains d;
     v1.dm_description := text_to (dim_description d) |}.

Definition grain_from (n : Z) : result ConvError TimeGrain :=
  let? g := ok_or (CInvalid "Dimension.grains") (of_number v1.TimeGrain_number v1.TimeGrains n) in
  TimeGrain_from g.

Definition Dimension_from (d : v1.Dimension) : result ConvError Dimension :=
  let? t := ok_or (CInvalid "Dimension.type") (of_number v1.DimensionType_number v1.DimensionTypes (v1.dm_type d)) in
  let? data_type := DimensionType_from t in
  let? grains := try_map grain_from (v1.dm_grains d) in
  Ok {| dim_name := v1.dm_name d; dim_expr := v1.dm_expr d; dim_data_type := data_type;
        dim_time_grains := grains; dim_description := text_from (v1.dm_description d) |}.

Definition Measure_to (m : Measure) : v1.Measure :=
  {| v1.ms_name := mea_name m; v1.ms_agg := MeasureAgg_label (mea_agg m); v1.ms_expr := mea_expr m;
     v1.ms_filters := mea_filters m; v1.ms_format := text_to (mea_format m);
     v1.ms_description := text_to (mea_description m);
     v1.ms_custom_sql := match mea_agg m with AggCustom sql => sql | _ => "" end |}.

Definition agg_from (agg custom_sql : string) : result ConvError MeasureAgg :=
  if decide (agg = "sum") then Ok AggSum
  else if decide (agg = "count") then Ok AggCount
  else if decide (agg = "count_distinct") then Ok AggCountDistinct
  else if decide (agg = "avg") then Ok AggAvg
  else if decide (agg = "min") then Ok AggMin
  else if decide (agg = "max") then Ok AggMax
  else if decide (agg = "custom") then Ok (AggCustom custom_sql)
  else Err (CInvalid "Measure.agg").

Definition Measure_from (m : v1.Measure) : result ConvError Measure :=
  let? agg := agg_from (v1.ms_agg m) (v1.ms_custom_sql m) in
  Ok {| mea_name := v1.ms_name m; mea_agg := agg; mea_expr := v1.ms_expr m;
        mea_filters := v1.ms_filters m; mea_format := text_from (v1.ms_format m);
        mea_description := text_from (v1.ms_description m) |}.

Definition SemanticModelInfo_to (m : SemanticModelInfo) : v1.ModelInfo :=
  {| v1.mi_name := info_name m; v1.mi_description := text_to (info_description m);
     v1.mi_source := info_source m; v1.mi_dimension_count := info_dimension_count m;
     v1.mi_measure_count := info_measure_count m |}.
Definition SemanticModelInfo_from (m : v1.ModelInfo) : SemanticModelInfo :=
  {| info_name := v1.mi_name m; info_description := text_from (v1.mi_description m);
     info_source := v1.mi_source m; info_dimension_count := v1.mi_dimension_count m;
     info_measure_count := v1.mi_measure_count m |}.

Definition Relationship_to (r : Relationship) : v1.Relationship :=
  {| v1.rl_name := rel_name r; v1.rl_kind := v1.RelationshipKind_number (RelationshipKind_to (rel_kind r));
     v1.rl_target := rel_target_model r; v1.rl_on := rel_join_predicate r |}.

Definition Relationship_from (r : v1.Relationship) : result ConvError Relationship :=
  let? k := ok_or (CInvalid "Relationship.kind")
              (of_number v1.RelationshipKind_number v1.RelationshipKinds (v1.rl_kind r)) in
  let? kind := RelationshipKind_from k in
  Ok {| rel_name := v1.rl_name r; rel_kind := kind; rel_target_model := v1.rl_target r;
        rel_join_predicate := v1.rl_on r |}.

Definition semantic_filter_to_proto (f : SemanticFilter) : v1.SemanticFilter :=
  {| v1.f_member := sf_member f; v1.f_op := v1.FilterOp_number (FilterOp_to (sf_op f));
     v1.f_values := sf_values f |}.

(** An operator that is not known is taken for an equality. *)
Definition semantic_filter_from_proto (f : v1.SemanticFilter) : SemanticFilter :=
  {| sf_member := v1.f_member f;
     sf_op := default OpEquals
                (of_number v1.FilterOp_number v1.FilterOps (v1.f_op f) ≫= λ o, to_option (FilterOp_from o));
     sf_values := v1.f_values f |}.

Definition Segment_to (s : Segment) : v1.Segment :=
  {| v1.sg_name := seg_name s; v1.sg_description := text_to (seg_description s);
     v1.sg_filters := semantic_filter_to_proto <$> seg_filters s |}.
Definition Segment_from (s : v1.Segment) : Segment :=
  {| seg_name := v1.sg_name s; seg_description := text_from (v1.sg_description s);
     seg_filters := semantic_filter_from_proto <$> v1.sg_filters s |}.

Definition ModelDescription_to (m : SemanticModelDescription) : v1.ModelDescription :=
  {| v1.md_name := desc_name m; v1.md_description := text_to (desc_description m);
     v1.md_source := desc_source m; v1.md_primary_key := desc_primary_key m;
     v1.md_dimensions := Dimension_to <$> desc_dimensions m;
     v1.md_measures := Measure_to <$> desc_measures m;
     v1.md_relationships := Relationship_to <$> desc_relationships m;
     v1.md_segments := Segment_to <$> desc_segments m |}.

Definition ModelDescription_from (m : v1.ModelDescription) : result ConvError SemanticModelDescription :=
  let? dimensions := try_map Dimension_from (v1.md_dimensions m) in
  let? measures := try_map Measure_from (v1.md_measures m) in
  let? relationships := try_map Relationship_from (v1.md_relationships m) in
  Ok {| desc_name := v1.md_name m; desc_description := text_from (v1.md_description m);
        desc_source := v1.md_source m; desc_primary_key := v1.md_primary_key m;
        desc_dimensions := dimensions; desc_measures := measures; desc_relationships := relationships;
        desc_segments := Segment_from <$> v1.md_segments m |}.

Definition SemanticQuery_to (q : SemanticQuery) : v1.SemanticQueryRequest :=
  {| v1.sq_measures := q_measures q; v1.sq_dimensions := q_dimensions q;
     v1.sq_filters := semantic_filter_to_proto <$> q_filters q; v1.sq_segments := q_segments q;
     v1.sq_order_by := (λ o, {| v1.o_member := so_member o;
                                v1.o_desc := match so_direction o with Desc => true | Asc => false end |})
                         <$> q_order_by q;
     v1.sq_limit := q_limit q; v1.sq_time_zone := q_time_zone q; v1.sq_params := q_params q;
     v1.sq_timeout := None; v1.sq_trace_id := "" |}.

Definition SemanticQuery_from (q : v1.SemanticQueryRequest) : SemanticQuery :=
  {| q_measures := v1.sq_measures q; q_dimensions := v1.sq_dimensions q;
     q_filters := semantic_filter_from_proto <$> v1.sq_filters q; q_segments := v1.sq_segments q;
     q_order_by := (λ o, {| so_member := v1.o_member o;
                            so_direction := if v1.o_desc o then Desc else Asc |}) <$> v1.sq_order_by q;
     q_limit := v1.sq_limit q; q_time_zone := v1.sq_time_zone q; q_params := v1.sq_params q |}.

(** *** Functions *)

Definition parse_function_kind (s : string) : FunctionKind :=
  if decide (s = "mcp") then FnMcp else if decide (s = "file") then FnFile else FnHttp.

Definition FunctionInfo_to (f : FunctionInfo) : v1.FunctionInfo :=
  {| v1.fi_namespace := fi_namespace f; v1.fi_name := fi_name f;
     v1.fi_kind := FunctionKind_as_str (fi_kind f); v1.fi_builtin := fi_builtin f;
     v1.fi_signature := fi_signature f; v1.fi_description := fi_description f |}.
Definition FunctionInfo_from (f : v1.FunctionInfo) : FunctionInfo :=
  {| fi_namespace := v1.fi_namespace f; fi_name := v1.fi_name f;
     fi_kind := parse_function_kind (v1.fi_kind f); fi_builtin := v1.fi_builtin f;
     fi_signature := v1.fi_signature f; fi_description := v1.fi_description f |}.

Definition FunctionArg_to (a : FunctionArg) : v1.FunctionArg :=
  {| v1.fa_name := fa_name a; v1.fa_type := fa_type a; v1.fa_required := fa_required a;
     v1.fa_default := fa_default a; v1.fa_description := fa_description a; v1.fa_tool_arg := fa_tool_arg a |}.
Definition FunctionArg_from (a : v1.FunctionArg) : FunctionArg :=
  {| fa_name := v1.fa_name a; fa_type := v1.fa_type a; fa_required := v1.fa_required a;
     fa_default := v1.fa_default a; fa_description := v1.fa_description a; fa_tool_arg := v1.fa_tool_arg a |}.

Definition FunctionColumn_to (c : FunctionColumn) : v1.FunctionColumn :=
  {| v1.fc_name := fc_name c; v1.fc_type := fc_type c; v1.fc_source := fc_source c;
     v1.fc_description := fc_description c |}.
Definition FunctionColumn_from (c : v1.FunctionColumn) : FunctionColumn :=
  {| fc_name := v1.fc_name c; fc_type := v1.fc_type c; fc_source := v1.fc_source c;
     fc_description := v1.fc_description c |}.

Definition FunctionDescription_to (d : FunctionDescription) : v1.FunctionDescription :=
  {| v1.ds_namespace := ds_namespace d; v1.ds_name := ds_name d;
     v1.ds_kind := FunctionKind_as_str (ds_kind d); v1.ds_builtin := ds_builtin d;
     v1.ds_signature := ds_signature d; v1.ds_description := ds_description d; v1.ds_wiki := ds_wiki d;
     v1.ds_examples := ds_examples d; v1.ds_args := FunctionArg_to <$> ds_args d;
     v1.ds_returns := FunctionColumn_to <$> ds_returns d |}.
Definition FunctionDescription_from (d : v1.FunctionDescription) : FunctionDescription :=
  {| ds_namespace := v1.ds_namespace d; ds_name := v1.ds_name d;
     ds_kind := parse_function_kind (v1.ds_kind d); ds_builtin := v1.ds_builtin d;
     ds_signature := v1.ds_signature d; ds_description := v1.ds_description d; ds_wiki := v1.ds_wiki d;
     ds_examples := v1.ds_examples d; ds_args := FunctionArg_from <$> v1.ds_args d;
     ds_returns := FunctionColumn_from <$> v1.ds_returns d |}.
