(* ===== verification/Grpc.v ===== *)
(** * The daemon and its client ([crates/pawrly-server/src/services/], [auth.rs],
    [crates/pawrly-client/src/remote.rs], [crates/pawrly-proto/src/arrow_helpers.rs])
    The gRPC services in front of an engine, and the engine a client makes of such services. *)

From S2P Require Export Wire.

(** ** Batches as Arrow IPC *)

Section ipc.
Context {AR : Arrow}.

Definition is_view (t : ArrowType) : bool :=
  match t with Utf8View | BinaryView => true | _ => false end.

(** The classic layout of a view type. *)
Definition classic (t : ArrowType) : option ArrowType :=
  match t with Utf8View => Some Utf8 | BinaryView => Some Binary | _ => None end.

(** One field and its column, cast if it is a view. *)
Definition normalize_column (fc : ArrowField * Column) : result string (ArrowField * Column) :=
  let '(f, c) := fc in
  match classic (af_type f) with
  | Some t =>
      let? casted := cast c t in
      Ok ({| af_name := af_name f; af_type := t; af_nullable := af_nullable f; af_metadata := ∅ |}, casted)
  | None => Ok (f, c)
  end.

Definition normalize_for_ipc (b : RecordBatch) : result string RecordBatch :=
  if existsb (λ f, is_view (af_type f)) (rb_fields b) then
    let? fcs := try_map normalize_column (zip (rb_fields b) (rb_columns b)) in
    let? _ := try_new (rb_metadata b) fcs.*1 fcs.*2 (rb_rows b) in
    Ok {| rb_metadata := rb_metadata b; rb_fields := fcs.*1; rb_columns := fcs.*2; rb_rows := rb_rows b |}
  else Ok b.

(** [ArrowIpcError]'s text. *)
Definition encode_error (msg : string) : string := "arrow ipc encode error: " +:+ msg.
Definition decode_error (msg : string) : string := "arrow ipc decode error: " +:+ msg.

Definition encode_batch (b : RecordBatch) : result string string :=
  map_err encode_error
    (let? b := normalize_for_ipc b in
     write_ipc (rb_metadata b) (rb_fields b) (rb_columns b) (rb_rows b)).

Definition decode_frame (bytes : string) : result string (list RecordBatch) :=
  map_err decode_error
    (rmap (fmap (λ '(m, f, c, n), {| rb_metadata := m; rb_fields := f; rb_columns := c; rb_rows := n |}))
       (read_ipc bytes)).
End ipc.

(** ** Authentication *)

Inductive AuthMode := AuthNone | AuthBearer (token : string).

(** [AuthInterceptor::new]. *)
Definition expected_token (m : AuthMode) : option string :=
  match m with AuthNone => None | AuthBearer token => Some token end.

Definition bearer_token (header : string) : option string :=
  '(scheme, token) ← split_once " " header;
  if eq_ignore_ascii_case scheme "bearer" then
    if decide (trim token = "") then None else Some (trim token)
  else None.

(** The fold of the differences of two texts of one length. *)
Fixpoint difference (acc : N) (a b : string) : N :=
  match a, b with
  | String x a, String y b => difference (N.lor acc (N.lxor (code x) (code y))) a b
  | _, _ => acc
  end.

Definition constant_time_eq (a b : string) : bool :=
  if (String.length a =? String.length b)%nat then (difference 0 a b =? 0)%N else false.

(** [check_bearer], and the test of [AuthInterceptor::call]. *)
Definition check_bearer (expected header : option string) : bool :=
  match expected with
  | None => true
  | Some expected => match header ≫= bearer_token with
                     | Some tok => constant_time_eq tok expected
                     | None => false
                     end
  end.

(** ** Calls *)

(** The metadata of a request that is looked at. *)
Record RequestMetadata := { md_authorization : option string; md_traceparent : option string }.

(** A call: the metadata, and the server's state. *)
Definition rpc (E A : Type) : Type := RequestMetadata → E → E * result GrpcStatus A.

(** [AuthInterceptor]: before every call. *)
Definition intercept {E A} (expected : option string) (call : rpc E A) : rpc E A := λ md st,
  if check_bearer expected (md_authorization md) then call md st
  else (st, Err {| gs_code := Unauthenticated; gs_message := "missing or invalid bearer token";
                   gs_error_code := None |}).

(** A generated server: the calls of its services. *)
Record GrpcServer {E : Type} := {
  rpc_query : v1.QueryRequest → rpc E (list (result GrpcStatus v1.QueryResponse));
  rpc_cancel : string → rpc E bool;
  rpc_explain : v1.ExplainRequest → rpc E string;
  rpc_list_tables : v1.ListTablesRequest → rpc E (list v1.TableInfo);
  rpc_describe_table : option v1.TableName → rpc E v1.DescribeTableResponse;
  rpc_schema_snapshot : v1.SchemaSnapshotRequest → rpc E string;
  rpc_refresh_catalog : option string → rpc E v1.RefreshCatalogResponse;
  rpc_list_functions : rpc E (list v1.FunctionInfo);
  rpc_describe_function : v1.DescribeFunctionRequest → rpc E (option v1.FunctionDescription);
  rpc_list_sources : rpc E (list v1.SourceInfo);
  rpc_add_source : string → rpc E (option v1.SourceInfo);
  rpc_remove_source : string → rpc E bool;
  rpc_test_source : string → rpc E v1.TestSourceResponse;
  rpc_reload_config : rpc E v1.ReloadConfigResponse;
  rpc_list_entries : string → rpc E v1.ListEntriesResponse;
  rpc_refresh : v1.RefreshRequest → rpc E v1.RefreshResponse;
  rpc_invalidate : option v1.TableName → rpc E bool;
  rpc_vacuum : rpc E v1.VacuumResponse;
  rpc_materialize : v1.MaterializeRequest → rpc E v1.MaterializeResponse;
  rpc_drop_materialized : v1.DropMaterializedRequest → rpc E v1.DroppedResponse;
  rpc_drop_namespace : string → rpc E v1.DroppedResponse;
  rpc_list_models : rpc E (list v1.ModelInfo);
  rpc_describe_model : string → rpc E (option v1.ModelDescription);
  rpc_list_metrics : rpc E (list string);
  rpc_describe_metric : string → rpc E string;
  rpc_semantic_query : v1.SemanticQueryRequest → rpc E (list (result GrpcStatus v1.QueryResponse));
  rpc_health : rpc E v1.HealthResponse;
  rpc_shutdown : bool → rpc E bool;
  rpc_version : rpc E v1.VersionResponse
}.
Arguments GrpcServer : clear implicits.

(** A serialization ([serde_json], [serde_yaml]); its errors are texts. *)
Record Codec (A : Type) := { encode : A → result string string; decode : string → result string A }.
Arguments encode {A} c a.
Arguments decode {A} c s.

Section grpc.
Context {AR : Arrow} {CH : Chrono} {MD : Metadata} {PA : Paths}.
Context {Snapshot Metric SourceDef : Type}.
Context (snapshot_json : Codec Snapshot) (metric_json : Codec Metric) (source_yaml : Codec SourceDef).
(** [Duration]'s [Debug], the version of the build. *)
Context (duration_debug : N → string) (pkg_version proto_rev : string).

(** ** The server *)

Section server.
Context {E : Type}.
(** The engine behind the services, the token they ask for; the clock, and what a stream's
    stopwatch reads at its end. *)
Context (e : EngineService Snapshot Metric SourceDef E) (auth : AuthMode) (now : Z) (elapsed : N).

(** The engine's answer as a response, its error as a status. *)
Definition respond {A B} (f : A → result GrpcStatus B) (r : E * result EngineError A)
    : E * result GrpcStatus B :=
  (r.1, rbind (map_err (engine_error_to_status duration_debug) r.2) f).

Definition ok {A B} (f : A → B) (a : A) : result GrpcStatus B := Ok (f a).

Definition none_if_empty (s : string) : option string := if decide (s = "") then None else Some s.

(** [as i64]. *)
Definition as_i64 (x : Z) : Z := ((x + 2 ^ 63) mod 2 ^ 64 - 2 ^ 63)%Z.

(** The [prost_types::Duration] of a [Duration]. *)
Definition duration_to (d : N) : v1.Duration :=
  {| v1.d_seconds := as_i64 (Z.of_N d / NANOS); v1.d_nanos := Z.of_N d mod NANOS |}.

(** The frames of a stream, after [rows] rows. *)
Fixpoint frames (completion : option QueryCompleted) (rows : N) (stream : list (result EngineError RecordBatch))
    : list (result GrpcStatus v1.QueryResponse) :=
  match stream with
  | [] =>
      [Ok {| v1.payload := Some (v1.Completed
         {| v1.qc_rows_returned := rows; v1.qc_elapsed := Some (duration_to elapsed);
            v1.qc_truncated := match completion with Some c => qc_truncated c | None => false end;
            v1.qc_explain := "" |}) |}]
  | Ok b :: stream =>
      match encode_batch b with
      | Err msg => [Err (internal_status ("ipc encode: " +:+ msg))]
      | Ok bytes => Ok {| v1.payload := Some (v1.IpcStream bytes) |}
                      :: frames completion (rows + rb_rows b) stream
      end
  | Err err :: _ =>
      let s := engine_error_to_status duration_debug err in
      [Ok {| v1.payload := Some (v1.Failed
         {| v1.e_code := default "PAWRLY_INTERNAL" (gs_error_code s);
            v1.e_message := EngineError_display duration_debug err |}) |}]
  end.

Definition response_stream (h : QueryHandle) : list (result GrpcStatus v1.QueryResponse) :=
  Ok {| v1.payload := Some (v1.Started {| v1.qs_query_id := hd_id h;
                                          v1.qs_started_at := Some (timestamp_from now) |}) |}
    :: frames (hd_completion h) 0 (hd_stream h).

(** [QuerySvc]. *)
Definition svc_query (req : v1.QueryRequest) : rpc E (list (result GrpcStatus v1.QueryResponse)) := λ md st,
  let r := QueryRequest_from req in
  let r := {| qr_sql := qr_sql r; qr_params := qr_params r; qr_timeout := qr_timeout r;
              qr_max_rows := qr_max_rows r; qr_trace_id := qr_trace_id r;
              qr_context := {| rc_interface := Grpc; rc_principal := None;
                               rc_traceparent := md_traceparent md |} |} in
  respond (ok response_stream) (query e r st).

Definition svc_cancel (id : string) : rpc E bool := λ _ st, respond Ok (cancel e id st).

Definition svc_explain (req : v1.ExplainRequest) : rpc E string := λ _ st,
  respond Ok (explain e (v1.ex_sql req) (v1.ex_analyze req) st).

(** [CatalogSvc]. *)
Definition svc_list_tables (req : v1.ListTablesRequest) : rpc E (list v1.TableInfo) := λ _ st,
  let filter := if is_some (v1.lt_source req) || is_some (v1.lt_name_glob req)
                then Some {| tf_source := v1.lt_source req; tf_name_glob := v1.lt_name_glob req |}
                else None in
  respond (ok (fmap TableInfo_to)) (list_tables e filter st).

(** The name a request must have. *)
Definition with_name {A} (name : option v1.TableName) (k : TableName → E → E * result GrpcStatus A) (st : E)
    : E * result GrpcStatus A :=
  match name with
  | Some n => k (TableName_from n) st
  | None => (st, Err (invalid_argument "name is required"))
  end.

Definition DescribeTable_to (d : TableDescription) : v1.DescribeTableResponse :=
  {| v1.dt_table := Some (TableInfo_to (td_table d)); v1.dt_columns := ColumnSpec_to <$> td_columns d;
     v1.dt_pushable_filter_columns := td_pushable_filter_columns d; v1.dt_examples := td_examples d;
     v1.dt_wiki := td_wiki d |}.

Definition svc_describe_table (name : option v1.TableName) : rpc E v1.DescribeTableResponse := λ _,
  with_name name (λ n st, respond (ok DescribeTable_to) (describe_table e n st)).

Definition svc_schema_snapshot (req : v1.SchemaSnapshotRequest) : rpc E string := λ _ st,
  let sources := match v1.ss_sources req with [] => None | l => Some l end in
  respond (λ s, map_err (λ msg, internal_status ("schema snapshot serialize: " +:+ msg)) (encode snapshot_json s))
    (schema_snapshot e sources (v1.ss_compact req) st).

Definition svc_refresh_catalog (source : option string) : rpc E v1.RefreshCatalogResponse := λ _ st,
  respond (ok (λ r, {| v1.rcr_sources_refreshed := rc_sources_refreshed r;
                       v1.rcr_tables_discovered := rc_tables_discovered r |}))
    (refresh_catalog e source st).

Definition svc_list_functions : rpc E (list v1.FunctionInfo) := λ _ st,
  respond (ok (fmap FunctionInfo_to)) (list_functions e st).

Definition svc_describe_function (req : v1.DescribeFunctionRequest) : rpc E (option v1.FunctionDescription) :=
  λ _ st, respond (ok (λ d, Some (FunctionDescription_to d)))
            (describe_function e (v1.df_namespace req) (v1.df_name req) st).

(** [SourcesSvc]. *)
Definition svc_list_sources : rpc E (list v1.SourceInfo) := λ _ st,
  respond (ok (fmap SourceInfo_to)) (list_sources e st).

Definition svc_add_source (yaml : string) : rpc E (option v1.SourceInfo) := λ _ st,
  match decode source_yaml yaml with
  | Err msg => (st, Err (invalid_argument ("invalid source YAML: " +:+ msg)))
  | Ok def => respond (ok (λ i, Some (SourceInfo_to i))) (add_source e def st)
  end.

Definition svc_remove_source (name : string) : rpc E bool := λ _ st, respond Ok (remove_source e name st).

Definition svc_test_source (name : string) : rpc E v1.TestSourceResponse := λ _ st,
  respond (ok (λ r, {| v1.tr_ok := st_ok r; v1.tr_latency := Some (duration_to (st_latency r));
                       v1.tr_detail := text_to (st_detail r) |}))
    (test_source e name st).

Definition svc_reload_config : rpc E v1.ReloadConfigResponse := λ _ st,
  respond (ok (λ r, {| v1.rc_sources_added := rl_added r; v1.rc_sources_removed := rl_removed r;
                       v1.rc_sources_changed := rl_changed r |}))
    (reload_config e st).

(** [CacheSvc]. *)
Definition CacheEntryInfo_to (i : CacheEntryInfo) : v1.CacheEntryInfo :=
  {| v1.ce_name := Some (TableName_to (ci_name i)); v1.ce_mode := v1.CacheMode_number (CacheMode_to (ci_mode i));
     v1.ce_written_at := Some (timestamp_from (ci_written_at i));
     v1.ce_expires_at := timestamp_from <$> ci_expires_at i; v1.ce_row_count := ci_row_count i;
     v1.ce_size_bytes := ci_size_bytes i; v1.ce_file_count := ci_file_count i |}.

Definition svc_list_entries (namespace : string) : rpc E v1.ListEntriesResponse := λ _ st,
  respond (ok (λ l, {| v1.le_entries := CacheEntryInfo_to <$> l; v1.le_namespace := namespace |}))
    (cache_entries e (none_if_empty namespace) st).

Definition svc_refresh (req : v1.RefreshRequest) : rpc E v1.RefreshResponse := λ _,
  with_name (v1.rr_name req) (λ n st,
    respond (ok (λ r, {| v1.rs_rows_written := ro_rows_written r; v1.rs_size_bytes := ro_size_bytes r;
                         v1.rs_elapsed := Some (duration_to (ro_elapsed r));
                         v1.rs_expires_at := timestamp_from <$> ro_expires_at r;
                         v1.rs_namespace := v1.rr_namespace req |}))
      (refresh_table e n (none_if_empty (v1.rr_namespace req)) st)).

Definition svc_invalidate (name : option v1.TableName) : rpc E bool := λ _,
  with_name name (λ n st, respond Ok (invalidate_cache e n st)).

Definition svc_vacuum : rpc E v1.VacuumResponse := λ _ st,
  respond (ok (λ r, {| v1.vr_entries_removed := vr_entries_removed r; v1.vr_files_removed := vr_files_removed r;
                       v1.vr_bytes_reclaimed := vr_bytes_reclaimed r |}))
    (vacuum_cache e st).

Definition svc_materialize (req : v1.MaterializeRequest) : rpc E v1.MaterializeResponse := λ _ st,
  match v1.mq_spec req with
  | None => (st, Err (invalid_argument "spec is required"))
  | Some spec =>
      match MaterializeSpec_from spec with
      | Err s => (st, Err s)
      | Ok spec =>
          respond (ok (λ o, let r := MaterializeOutcome_to o in
                            {| v1.mr_name := v1.mr_name r; v1.mr_file_path := v1.mr_file_path r;
                               v1.mr_row_count := v1.mr_row_count r; v1.mr_size_bytes := v1.mr_size_bytes r;
                               v1.mr_namespace := v1.mq_namespace req |}))
            (materialize e (v1.mq_name req) spec (none_if_empty (v1.mq_namespace req)) st)
      end
  end.

Definition svc_drop_materialized (req : v1.DropMaterializedRequest) : rpc E v1.DroppedResponse := λ _ st,
  respond (ok (λ d, {| v1.dr_dropped := d; v1.dr_namespace := v1.dm_req_namespace req |}))
    (drop_materialized e (v1.dm_req_name req) (none_if_empty (v1.dm_req_namespace req)) st).

Definition svc_drop_namespace (namespace : string) : rpc E v1.DroppedResponse := λ _ st,
  respond (ok (λ d, {| v1.dr_dropped := d; v1.dr_namespace := namespace |})) (drop_namespace e namespace st).

(** [SemanticSvc]. *)
Definition svc_list_models : rpc E (list v1.ModelInfo) := λ _ st,
  respond (ok (fmap SemanticModelInfo_to)) (list_semantic_models e st).

Definition svc_describe_model (name : string) : rpc E (option v1.ModelDescription) := λ _ st,
  respond (ok (λ d, Some (ModelDescription_to d))) (describe_semantic_model e name st).

Definition svc_list_metrics : rpc E (list string) := λ _ st,
  respond (λ l, map_err internal_status (try_map (encode metric_json) l)) (list_metrics e st).

Definition svc_describe_metric (name : string) : rpc E string := λ _ st,
  respond (λ m, map_err internal_status (encode metric_json m)) (describe_metric e name st).

Definition svc_semantic_query (req : v1.SemanticQueryRequest) : rpc E (list (result GrpcStatus v1.QueryResponse)) :=
  λ _ st, respond (ok response_stream) (semantic_query e (SemanticQuery_from req) st).

(** [AdminSvc]; a request to shut down is declined. *)
Definition svc_health : rpc E v1.HealthResponse := λ _ st, respond (ok HealthReport_to) (health e st).

Definition svc_shutdown (drain : bool) : rpc E bool := λ _ st, (st, Ok false).

Definition svc_version : rpc E v1.VersionResponse := λ _ st,
  (st, Ok {| v1.vs_pawrly_version := pkg_version; v1.vs_api_version := "v1";
             v1.vs_protobuf_revision := proto_rev |}).

(** [ServerBuilder::service_routes]: every service behind the interceptor. *)
Definition service_routes : GrpcServer E :=
  let a {A} (call : rpc E A) := intercept (expected_token auth) call in
  {| rpc_query req := a (svc_query req); rpc_cancel id := a (svc_cancel id);
     rpc_explain req := a (svc_explain req); rpc_list_tables req := a (svc_list_tables req);
     rpc_describe_table n := a (svc_describe_table n); rpc_schema_snapshot req := a (svc_schema_snapshot req);
     rpc_refresh_catalog s := a (svc_refresh_catalog s); rpc_list_functions := a svc_list_functions;
     rpc_describe_function req := a (svc_describe_function req); rpc_list_sources := a svc_list_sources;
     rpc_add_source y := a (svc_add_source y); rpc_remove_source n := a (svc_remove_source n);
     rpc_test_source n := a (svc_test_source n); rpc_reload_config := a svc_reload_config;
     rpc_list_entries ns := a (svc_list_entries ns); rpc_refresh req := a (svc_refresh req);
     rpc_invalidate n := a (svc_invalidate n); rpc_vacuum := a svc_vacuum;
     rpc_materialize req := a (svc_materialize req); rpc_drop_materialized req := a (svc_drop_materialized req);
     rpc_drop_namespace ns := a (svc_drop_namespace ns); rpc_list_models := a svc_list_models;
     rpc_describe_model n := a (svc_describe_model n); rpc_list_metrics := a svc_list_metrics;
     rpc_describe_metric n := a (svc_describe_metric n); rpc_semantic_query req := a (svc_semantic_query req);
     rpc_health := a svc_health; rpc_shutdown d := a (svc_shutdown d); rpc_version := a svc_version |}.
End server.

(** ** The client *)

Section client.
Context {E : Type}.
(** The server it talks to, its token and trace context, and its clock. *)
Context (srv : GrpcServer E) (token traceparent : option string) (now : Z).

(** [BearerInjector], then the call; a status is turned into an error. *)
Definition inject : result GrpcStatus RequestMetadata :=
  match token with
  | None => Ok {| md_authorization := None; md_traceparent := traceparent |}
  | Some t => match metadata_value ("Bearer " +:+ t) with
              | None => Err (invalid_argument "invalid bearer token")
              | Some v => Ok {| md_authorization := Some v; md_traceparent := traceparent |}
              end
  end.

Definition call {A B} (r : rpc E A) (f : A → result EngineError B) : op E B := λ st,
  match inject with
  | Err s => (st, Err (status_to_engine_error s))
  | Ok md => let '(st, a) := r md st in (st, rbind (map_err status_to_engine_error a) f)
  end.

Definition conv {A} (r : result ConvError A) : result EngineError A :=
  map_err (λ err, EProtocol (ConvError_display err)) r.

(** [dur]. *)
Definition dur (d : option v1.Duration) : N := default 0%N (d ≫= timeout_from).

(** [ts]. *)
Definition ts (t : v1.Timestamp) : Z :=
  default now (timestamp_opt (v1.ts_seconds t) (if (0 <=? v1.ts_nanos t)%Z then v1.ts_nanos t else 0%Z)).

Definition require_namespace_echo (requested : option string) (echoed : string) : result EngineError () :=
  match requested with
  | Some ns =>
      if decide (ns ≠ "" ∧ ns ≠ echoed) then
        Err (EProtocol ("daemon ignored namespace " +:+ tick ns +:+ " — it predates materialize namespaces, so the operation targeted the default namespace instead; upgrade the daemon"))
      else Ok ()
  | None => Ok ()
  end.

(** The error of an error frame. *)
Definition frame_error (err : v1.Error) : EngineError :=
  status_to_engine_error
    {| gs_code := InternalCode; gs_message := v1.e_message err; gs_error_code := metadata_value (v1.e_code err) |}.

(** The identifier of the leading frame, and the frames after it. *)
Definition read_started_id (fs : list (result GrpcStatus v1.QueryResponse))
    : result EngineError (string * list (result GrpcStatus v1.QueryResponse)) :=
  match fs with
  | [] => Ok ("", [])
  | Err s :: _ => Err (status_to_engine_error s)
  | Ok f :: fs =>
      match v1.payload f with
      | Some (v1.Started s) => Ok (v1.qs_query_id s, fs)
      | Some (v1.Failed err) => Err (frame_error err)
      | _ => Err (EProtocol "expected a Started frame first")
      end
  end.

Definition proto_completed (c : v1.QueryCompleted) : QueryCompleted :=
  {| qc_rows_returned := v1.qc_rows_returned c; qc_truncated := v1.qc_truncated c;
     qc_elapsed := match v1.qc_elapsed c with
                   | Some d => Z.to_N (Z.max 0 (v1.d_seconds d) * NANOS + Z.max 0 (v1.d_nanos d))
                   | None => 0%N
                   end |}.

(** What the stream gives until it ends, and the slot once it is drained: it is set once. *)
Fixpoint client_stream (slot : option QueryCompleted) (fs : list (result GrpcStatus v1.QueryResponse))
    : list (result EngineError RecordBatch) * option QueryCompleted :=
  match fs with
  | [] => ([], slot)
  | Err s :: _ => ([Err (status_to_engine_error s)], slot)
  | Ok f :: fs =>
      match v1.payload f with
      | None | Some (v1.Started _) => client_stream slot fs
      | Some (v1.IpcStream bytes) =>
          match decode_frame bytes with
          | Err msg => ([Err (EProtocol ("ipc decode: " +:+ msg))], slot)
          | Ok bs => let '(items, slot) := client_stream slot fs in ((Ok <$> bs) ++ items, slot)
          end
      | Some (v1.Completed c) =>
          client_stream (match slot with Some _ => slot | None => Some (proto_completed c) end) fs
      | Some (v1.Failed err) => ([Err (frame_error err)], slot)
      end
  end.

Definition stream_handle (fs : list (result GrpcStatus v1.QueryResponse)) : result EngineError QueryHandle :=
  let? r := read_started_id fs in
  let '(items, slot) := client_stream None r.2 in
  Ok {| hd_id := r.1; hd_stream := items; hd_completion := slot |}.

Definition remote_query (req : QueryRequest) : op E QueryHandle :=
  call (rpc_query srv (QueryRequest_to req)) stream_handle.

Definition remote_explain (sql : string) (analyze : bool) : op E string :=
  call (rpc_explain srv {| v1.ex_sql := sql; v1.ex_analyze := analyze; v1.ex_params := ∅ |}) Ok.

Definition remote_cancel (id : string) : op E bool := call (rpc_cancel srv id) Ok.

Definition remote_list_sources : op E (list SourceInfo) :=
  call (rpc_list_sources srv) (try_map (λ s, conv (SourceInfo_from now s))).

Definition remote_list_tables (filter : option TableFilter) : op E (list TableInfo) :=
  call (rpc_list_tables srv {| v1.lt_source := filter ≫= tf_source; v1.lt_name_glob := filter ≫= tf_name_glob |})
    (try_map (λ t, conv (TableInfo_from t))).

Definition DescribeTable_from (r : v1.DescribeTableResponse) : result EngineError TableDescription :=
  let? table := ok_or (EProtocol "describe_table response missing table") (v1.dt_table r) in
  let? table := conv (TableInfo_from table) in
  Ok {| td_table := table; td_columns := ColumnSpec_from <$> v1.dt_columns r;
        td_pushable_filter_columns := v1.dt_pushable_filter_columns r; td_examples := v1.dt_examples r;
        td_wiki := v1.dt_wiki r |}.

Definition remote_describe_table (name : TableName) : op E TableDescription :=
  call (rpc_describe_table srv (Some (TableName_to name))) DescribeTable_from.

Definition remote_list_functions : op E (list FunctionInfo) :=
  call (rpc_list_functions srv) (λ l, Ok (FunctionInfo_from <$> l)).

Definition remote_describe_function (namespace name : string) : op E FunctionDescription :=
  call (rpc_describe_function srv {| v1.df_namespace := namespace; v1.df_name := name |})
    (λ f, ok_or (EProtocol "describe_function response missing function") (FunctionDescription_from <$> f)).

Definition remote_schema_snapshot (sources : option (list string)) (compact : bool) : op E Snapshot :=
  call (rpc_schema_snapshot srv {| v1.ss_sources := default [] sources; v1.ss_compact := compact |})
    (λ s, map_err (λ msg, EProtocol ("schema snapshot decode: " +:+ msg)) (decode snapshot_json s)).

Definition remote_refresh_catalog (source : option string) : op E RefreshCatalogOutcome :=
  call (rpc_refresh_catalog srv source)
    (λ r, Ok {| rc_sources_refreshed := v1.rcr_sources_refreshed r;
                rc_tables_discovered := v1.rcr_tables_discovered r |}).

(** A mode that is not known must not drop the row. *)
Definition mode_from (mode : Z) (expires_at : option v1.Timestamp) : CacheMode :=
  match of_number v1.CacheMode_number v1.CacheModes mode with
  | Some v1.ModeNone => ModeNone
  | Some v1.ModeTtl => ModeTtl
  | Some v1.ModeRefresh => ModeRefresh
  | Some v1.ModeCron => ModeCron
  | Some v1.ModeAppend => ModeAppend
  | Some v1.ModePinned => ModePinned
  | Some v1.ModeUnspecified | None => match expires_at with None => ModePinned | Some _ => ModeTtl end
  end.

(** An entry without a name is left out. *)
Definition entry_from (i : v1.CacheEntryInfo) : option CacheEntryInfo :=
  name ← v1.ce_name i;
  Some {| ci_name := TableName_from name; ci_mode := mode_from (v1.ce_mode i) (v1.ce_expires_at i);
          ci_written_at := match v1.ce_written_at i with Some t => ts t | None => now end;
          ci_expires_at := ts <$> v1.ce_expires_at i; ci_row_count := v1.ce_row_count i;
          ci_size_bytes := v1.ce_size_bytes i; ci_file_count := v1.ce_file_count i |}.

Definition remote_cache_entries (namespace : option string) : op E (list CacheEntryInfo) :=
  call (rpc_list_entries srv (text_to namespace))
    (λ r, let? _ := require_namespace_echo namespace (v1.le_namespace r) in
          Ok (omap entry_from (v1.le_entries r))).

Definition remote_refresh_table (name : TableName) (namespace : option string) : op E RefreshOutcome :=
  call (rpc_refresh srv {| v1.rr_name := Some (TableName_to name); v1.rr_namespace := text_to namespace |})
    (λ r, let? _ := require_namespace_echo namespace (v1.rs_namespace r) in
          Ok {| ro_table := name; ro_rows_written := v1.rs_rows_written r; ro_size_bytes := v1.rs_size_bytes r;
                ro_elapsed := dur (v1.rs_elapsed r); ro_expires_at := ts <$> v1.rs_expires_at r |}).

Definition remote_invalidate_cache (name : TableName) : op E bool :=
  call (rpc_invalidate srv (Some (TableName_to name))) Ok.

Definition remote_vacuum_cache : op E VacuumReport :=
  call (rpc_vacuum srv)
    (λ r, Ok {| vr_entries_removed := v1.vr_entries_removed r; vr_files_removed := v1.vr_files_removed r;
                vr_bytes_reclaimed := v1.vr_bytes_reclaimed r |}).

Definition remote_materialize (name : string) (spec : MaterializeSpec) (namespace : option string)
    : op E MaterializeOutcome :=
  call (rpc_materialize srv {| v1.mq_name := name; v1.mq_spec := Some (MaterializeSpec_to spec);
                               v1.mq_namespace := text_to namespace |})
    (λ r, let? _ := require_namespace_echo namespace (v1.mr_namespace r) in Ok (MaterializeOutcome_from r)).

Definition remote_drop_materialized (name : string) (namespace : option string) : op E bool :=
  call (rpc_drop_materialized srv {| v1.dm_req_name := name; v1.dm_req_namespace := text_to namespace |})
    (λ r, let? _ := require_namespace_echo namespace (v1.dr_namespace r) in Ok (v1.dr_dropped r)).

Definition remote_drop_namespace (namespace : string) : op E bool :=
  call (rpc_drop_namespace srv namespace)
    (λ r, let? _ := require_namespace_echo (Some namespace) (v1.dr_namespace r) in Ok (v1.dr_dropped r)).

(** The definition is sent as YAML; one that cannot be written is not sent. *)
Definition remote_add_source (def : SourceDef) : op E SourceInfo := λ st,
  match encode source_yaml def with
  | Err msg => (st, Err (EProtocol ("serialize source: " +:+ msg)))
  | Ok yaml =>
      call (rpc_add_source srv yaml)
        (λ r, let? s := ok_or (EProtocol "AddSourceResponse missing source") r in conv (SourceInfo_from now s)) st
  end.

Definition remote_remove_source (name : string) : op E bool := call (rpc_remove_source srv name) Ok.

Definition remote_test_source (name : string) : op E SourceTestReport :=
  call (rpc_test_source srv name)
    (λ r, Ok {| st_name := name; st_ok := v1.tr_ok r; st_latency := dur (v1.tr_latency r);
                st_detail := text_from (v1.tr_detail r) |}).

Definition remote_reload_config : op E ReloadReport :=
  call (rpc_reload_config srv)
    (λ r, Ok {| rl_added := v1.rc_sources_added r; rl_removed := v1.rc_sources_removed r;
                rl_changed := v1.rc_sources_changed r |}).

Definition remote_list_semantic_models : op E (list SemanticModelInfo) :=
  call (rpc_list_models srv) (λ l, Ok (SemanticModelInfo_from <$> l)).

Definition remote_describe_semantic_model (name : string) : op E SemanticModelDescription :=
  call (rpc_describe_model srv name)
    (λ r, let? m := ok_or (EProtocol "DescribeModelResponse missing model") r in conv (ModelDescription_from m)).

Definition decode_metric (s : string) : result EngineError Metric :=
  map_err (λ msg, EProtocol ("decode metric: " +:+ msg)) (decode metric_json s).

Definition remote_list_metrics : op E (list Metric) := call (rpc_list_metrics srv) (try_map decode_metric).

Definition remote_describe_metric (name : string) : op E Metric :=
  call (rpc_describe_metric srv name) decode_metric.

Definition remote_semantic_query (q : SemanticQuery) : op E QueryHandle :=
  call (rpc_semantic_query srv (SemanticQuery_to q)) stream_handle.

Definition remote_health : op E HealthReport := call (rpc_health srv) (λ h, Ok (HealthReport_from h)).

(** [RemoteEngineClient] as an engine. *)
Definition RemoteEngineClient : EngineService Snapshot Metric SourceDef E :=
  {| query := remote_query; explain := remote_explain; cancel := remote_cancel;
     list_sources := remote_list_sources; list_tables := remote_list_tables;
     describe_table := remote_describe_table; schema_snapshot := remote_schema_snapshot;
     refresh_catalog := remote_refresh_catalog; cache_entries := remote_cache_entries;
     refresh_table := remote_refresh_table; invalidate_cache := remote_invalidate_cache;
     vacuum_cache := remote_vacuum_cache; materialize := remote_materialize;
     drop_namespace := remote_drop_namespace; drop_materialized := remote_drop_materialized;
     add_source := remote_add_source; remove_source := remote_remove_source;
     test_source := remote_test_source; reload_config := remote_reload_config;
     list_semantic_models := remote_list_semantic_models;
     describe_semantic_model := remote_describe_semantic_model; list_metrics := remote_list_metrics;
     describe_metric := remote_describe_metric; semantic_query := remote_semantic_query;
     list_functions := remote_list_functions; describe_function := remote_describe_function;
     health := remote_health; shutdown := λ st, (st, Ok ()) |}.
End client.
End grpc.
