(* ===== verification/GrpcProps.v ===== *)
(** * A remote engine is the engine
    The client of a daemon behaves as the engine behind the daemon's services, up to what the
    wire cannot carry; the services answer only to the token. *)

From S2P Require Export Grpc.
Set Default Goal Selector "!".

(** ** What the wire carries *)

(** An empty text comes back as an absent one. *)
Definition carried_text (s : option string) : option string :=
  match s with Some "" => None | _ => s end.

Lemma text_from_to s : text_from (text_to s) = carried_text s.
Proof. by destruct s as [[]|]. Qed.

Definition carried_column (c : ColumnSpec) : ColumnSpec :=
  {| cs_name := cs_name c; cs_data_type := cs_data_type c; cs_nullable := cs_nullable c;
     cs_description := carried_text (cs_description c);
     cs_is_filter_pushable := cs_is_filter_pushable c;
     cs_is_required_filter := cs_is_required_filter c |}.

Definition carried_table (t : TableInfo) : TableInfo :=
  {| ti_name := ti_name t; ti_kind := ti_kind t; ti_description := carried_text (ti_description t);
     ti_row_count_estimate := ti_row_count_estimate t; ti_cached := ti_cached t;
     ti_required_filters := ti_required_filters t |}.

Definition carried_description (d : TableDescription) : TableDescription :=
  {| td_table := carried_table (td_table d); td_columns := carried_column <$> td_columns d;
     td_pushable_filter_columns := td_pushable_filter_columns d; td_examples := td_examples d;
     td_wiki := td_wiki d |}.

Definition carried_dimension (d : Dimension) : Dimension :=
  {| dim_name := dim_name d; dim_expr := dim_expr d; dim_data_type := dim_data_type d;
     dim_time_grains := dim_time_grains d; dim_description := carried_text (dim_description d) |}.

Definition carried_measure (m : Measure) : Measure :=
  {| mea_name := mea_name m; mea_agg := mea_agg m; mea_expr := mea_expr m; mea_filters := mea_filters m;
     mea_format := carried_text (mea_format m); mea_description := carried_text (mea_description m) |}.

Definition carried_segment (s : Segment) : Segment :=
  {| seg_name := seg_name s; seg_description := carried_text (seg_description s); seg_filters := seg_filters s |}.

Definition carried_model_info (m : SemanticModelInfo) : SemanticModelInfo :=
  {| info_name := info_name m; info_description := carried_text (info_description m);
     info_source := info_source m; info_dimension_count := info_dimension_count m;
     info_measure_count := info_measure_count m |}.

Definition carried_model (m : SemanticModelDescription) : SemanticModelDescription :=
  {| desc_name := desc_name m; desc_description := carried_text (desc_description m);
     desc_source := desc_source m; desc_primary_key := desc_primary_key m;
     desc_dimensions := carried_dimension <$> desc_dimensions m;
     desc_measures := carried_measure <$> desc_measures m; desc_relationships := desc_relationships m;
     desc_segments := carried_segment <$> desc_segments m |}.

(** ** Enumerations keep their numbers apart *)

Lemma kind_number k : of_number v1.SourceKind_number v1.SourceKinds (v1.SourceKind_number k) = Some k.
Proof. by destruct k. Qed.
Lemma mode_number m : of_number v1.CacheMode_number v1.CacheModes (v1.CacheMode_number m) = Some m.
Proof. by destruct m. Qed.
Lemma type_number t : of_number v1.DimensionType_number v1.DimensionTypes (v1.DimensionType_number t) = Some t.
Proof. by destruct t. Qed.
Lemma grain_number g : of_number v1.TimeGrain_number v1.TimeGrains (v1.TimeGrain_number g) = Some g.
Proof. by destruct g. Qed.
Lemma rel_number k :
  of_number v1.RelationshipKind_number v1.RelationshipKinds (v1.RelationshipKind_number k) = Some k.
Proof. by destruct k. Qed.
Lemma op_number o : of_number v1.FilterOp_number v1.FilterOps (v1.FilterOp_number o) = Some o.
Proof. by destruct o. Qed.

(** ** Round trips *)

Lemma kind_from_to field k : kind_from field (v1.SourceKind_number (SourceKind_to k)) = Ok k.
Proof. unfold kind_from. rewrite kind_number. by destruct k. Qed.

Lemma format_from_to f : format_from_proto (format_to_proto f) = Some f.
Proof. by destruct f. Qed.

Lemma opt_format_from_to f : format_from_proto (opt_format_to_proto f) = f.
Proof. by destruct f as [[]|]. Qed.

Lemma TableName_from_to n : TableName_from (TableName_to n) = n.
Proof. by destruct n. Qed.

Lemma ColumnSpec_from_to c : ColumnSpec_from (ColumnSpec_to c) = carried_column c.
Proof. unfold ColumnSpec_from, carried_column. simpl. by rewrite text_from_to. Qed.

Lemma TableInfo_from_to t : TableInfo_from (TableInfo_to t) = Ok (carried_table t).
Proof.
  unfold TableInfo_from, carried_table. simpl. rewrite kind_from_to. simpl.
  by rewrite text_from_to, TableName_from_to.
Qed.

Lemma try_map_from_to {E A B C} (to : A → B) (from : B → result E C) (norm : A → C) l :
  (∀ a, from (to a) = Ok (norm a)) → try_map from (to <$> l) = Ok (norm <$> l).
Proof.
  intros H. induction l as [|a l IH]; [done|].
  change (rbind (from (to a)) (λ y, let? ys := try_map from (to <$> l) in Ok (y :: ys)) = Ok (norm a :: (norm <$> l))).
  rewrite H. simpl. by rewrite IH.
Qed.

Lemma fmap_from_to {A B C} (to : A → B) (from : B → C) (norm : A → C) (l : list A) :
  (∀ a, from (to a) = norm a) → from <$> (to <$> l) = norm <$> l.
Proof. intros H. rewrite <-list_fmap_compose. apply list_fmap_ext. intros. apply H. Qed.

Lemma fmap_same {A} (f : A → A) (l : list A) : (∀ a, f a = a) → f <$> l = l.
Proof. intros H. induction l as [|a l IH]; [done|]. cbn [fmap list_fmap]. by rewrite H, IH. Qed.

Lemma Dimension_from_to d : Dimension_from (Dimension_to d) = Ok (carried_dimension d).
Proof.
  unfold Dimension_from. simpl. rewrite type_number. simpl.
  assert (DimensionType_from (DimensionType_to (dim_data_type d)) = Ok (dim_data_type d)) as ->
    by by destruct (dim_data_type d).
  simpl. rewrite (try_map_from_to _ _ (λ g, g)).
  - simpl. rewrite fmap_same by done. by rewrite text_from_to.
  - intros g. unfold grain_from. rewrite grain_number. by destruct g.
Qed.

Lemma agg_from_label a sql :
  agg_from (MeasureAgg_label a) (match a with AggCustom sql => sql | _ => sql end) = Ok a.
Proof. by destruct a. Qed.

Lemma Measure_from_to m : Measure_from (Measure_to m) = Ok (carried_measure m).
Proof.
  unfold Measure_from. simpl.
  rewrite (agg_from_label (mea_agg m) ""). simpl. by rewrite !text_from_to.
Qed.

Lemma Relationship_from_to r : Relationship_from (Relationship_to r) = Ok r.
Proof. unfold Relationship_from. simpl. rewrite rel_number. simpl. destruct r as [? []]; done. Qed.

Lemma semantic_filter_from_to f : semantic_filter_from_proto (semantic_filter_to_proto f) = f.
Proof. unfold semantic_filter_from_proto. simpl. rewrite op_number. destruct f as [? []]; done. Qed.

Lemma Segment_from_to s : Segment_from (Segment_to s) = carried_segment s.
Proof.
  unfold Segment_from, carried_segment. simpl. rewrite text_from_to. f_equal.
  rewrite (fmap_from_to _ _ (λ f, f)) by apply semantic_filter_from_to. by apply fmap_same.
Qed.

Lemma SemanticModelInfo_from_to m : SemanticModelInfo_from (SemanticModelInfo_to m) = carried_model_info m.
Proof. unfold SemanticModelInfo_from, carried_model_info. simpl. by rewrite text_from_to. Qed.

Lemma ModelDescription_from_to m : ModelDescription_from (ModelDescription_to m) = Ok (carried_model m).
Proof.
  unfold ModelDescription_from. simpl.
  rewrite (try_map_from_to _ _ carried_dimension) by apply Dimension_from_to. simpl.
  rewrite (try_map_from_to _ _ carried_measure) by apply Measure_from_to. simpl.
  rewrite (try_map_from_to _ _ (λ r, r)) by apply Relationship_from_to. simpl.
  unfold carried_model. rewrite (fmap_same (λ r, r) (desc_relationships m)) by done. rewrite text_from_to.
  by rewrite (fmap_from_to _ _ carried_segment) by apply Segment_from_to.
Qed.

Lemma SemanticQuery_from_to q : SemanticQuery_from (SemanticQuery_to q) = q.
Proof.
  unfold SemanticQuery_from. simpl.
  rewrite (fmap_from_to _ _ (λ f, f)) by apply semantic_filter_from_to. rewrite fmap_same by done.
  rewrite (fmap_from_to _ _ (λ o, o)) by (by intros [? []]). rewrite fmap_same by done. by destruct q.
Qed.

Lemma function_kind_from_to k : parse_function_kind (FunctionKind_as_str k) = k.
Proof. by destruct k. Qed.

Lemma FunctionInfo_from_to f : FunctionInfo_from (FunctionInfo_to f) = f.
Proof. unfold FunctionInfo_from. simpl. rewrite function_kind_from_to. by destruct f. Qed.

Lemma FunctionDescription_from_to d : FunctionDescription_from (FunctionDescription_to d) = d.
Proof.
  unfold FunctionDescription_from. simpl. rewrite function_kind_from_to.
  rewrite (fmap_from_to _ _ (λ a, a)) by (by intros []). rewrite fmap_same by done.
  rewrite (fmap_from_to _ _ (λ c, c)) by (by intros []). rewrite fmap_same by done. by destruct d.
Qed.

Lemma HealthReport_from_to h : HealthReport_from (HealthReport_to h) = h.
Proof. by destruct h. Qed.

(** ** The engine a client sees *)

Section carried.
Context {AR : Arrow} {CH : Chrono} {MD : Metadata} {PA : Paths}.
Context {Snapshot Metric SourceDef : Type}.
Context (duration_debug : N → string).
Context {E : Type} (e : EngineService Snapshot Metric SourceDef E).
(** The client's trace context and clock, the server's stopwatch. *)
Context (traceparent : option string) (now : Z) (elapsed : N).

Definition carried_time (t : Z) : Z := default now (timestamp_opt (t / NANOS) (t mod NANOS)).

(** A duration of more seconds than an [i64] holds comes back as none. *)
Definition carried_duration (d : N) : N := dur (Some (duration_to d)).

(** Of a query: its time, then none of its seconds. *)
Definition carried_elapsed (d : N) : N :=
  Z.to_N (Z.max 0 (as_i64 (Z.of_N d / NANOS)) * NANOS + Z.of_N d mod NANOS).

Definition carried_source (s : SourceInfo) : SourceInfo :=
  {| si_name := si_name s; si_kind := si_kind s; si_status := si_status s;
     si_status_detail := carried_text (si_status_detail s); si_sub_kind := si_sub_kind s;
     si_table_count := si_table_count s; si_registered_at := carried_time (si_registered_at s) |}.

Definition carried_entry (i : CacheEntryInfo) : CacheEntryInfo :=
  {| ci_name := ci_name i; ci_mode := ci_mode i; ci_written_at := carried_time (ci_written_at i);
     ci_expires_at := carried_time <$> ci_expires_at i; ci_row_count := ci_row_count i;
     ci_size_bytes := ci_size_bytes i; ci_file_count := ci_file_count i |}.

Definition carried_refresh (name : TableName) (r : RefreshOutcome) : RefreshOutcome :=
  {| ro_table := name; ro_rows_written := ro_rows_written r; ro_size_bytes := ro_size_bytes r;
     ro_elapsed := carried_duration (ro_elapsed r); ro_expires_at := carried_time <$> ro_expires_at r |}.

Definition carried_test (name : string) (r : SourceTestReport) : SourceTestReport :=
  {| st_name := name; st_ok := st_ok r; st_latency := carried_duration (st_latency r);
     st_detail := carried_text (st_detail r) |}.

(** The paths of files are made text. *)
Definition carried_spec (s : MaterializeSpec) : MaterializeSpec :=
  match s with SpecFile path format => SpecFile (to_string_lossy path) format | _ => s end.

Definition carried_outcome (o : MaterializeOutcome) : MaterializeOutcome :=
  {| mo_name := mo_name o; mo_file_path := to_string_lossy (mo_file_path o);
     mo_row_count := mo_row_count o; mo_size_bytes := mo_size_bytes o |}.

(** The caller is a gRPC one, without a principal. *)
Definition carried_request (r : QueryRequest) : QueryRequest :=
  {| qr_sql := qr_sql r; qr_params := qr_params r;
     qr_timeout := d ← qr_timeout r; if (Z.of_N d / NANOS <=? i64_max)%Z then Some d else None;
     qr_max_rows := qr_max_rows r; qr_trace_id := carried_text (qr_trace_id r);
     qr_context := {| rc_interface := Grpc; rc_principal := None; rc_traceparent := traceparent |} |}.

Definition carried_filter (f : option TableFilter) : option TableFilter :=
  match f with Some {| tf_source := None; tf_name_glob := None |} => None | _ => f end.

(** Asking for no source at all asks for every one. *)
Definition carried_sources (l : option (list string)) : option (list string) :=
  match l with Some [] => None | _ => l end.

(** A batch as it is written, if it can be. *)
Definition sendable (b : RecordBatch) : result string RecordBatch :=
  let? b := normalize_for_ipc b in
  let? _ := write_ipc (rb_metadata b) (rb_fields b) (rb_columns b) (rb_rows b) in Ok b.

(** The items up to the first error, the batches without views. *)
Fixpoint carried_stream (stream : list (result EngineError RecordBatch)) : list (result EngineError RecordBatch) :=
  match stream with
  | [] => []
  | Ok b :: stream => match sendable b with
                      | Ok b => Ok b :: carried_stream stream
                      | Err msg => [Err (EInternal ("ipc encode: " +:+ encode_error msg))]
                      end
  | Err err :: _ => [Err (sent_over duration_debug err)]
  end.

(** The slot is filled by a stream that ends without an error, with the rows that were sent and
    the server's own measure of the time. *)
Definition carried_completion (h : QueryHandle) : option QueryCompleted :=
  match collect (carried_stream (hd_stream h)) with
  | Ok bs => Some {| qc_rows_returned := foldl N.add 0%N (rb_rows <$> bs);
                     qc_truncated := match hd_completion h with Some c => qc_truncated c | None => false end;
                     qc_elapsed := carried_elapsed elapsed |}
  | Err _ => None
  end.

Definition carried_handle (h : QueryHandle) : QueryHandle :=
  {| hd_id := hd_id h; hd_stream := carried_stream (hd_stream h); hd_completion := carried_completion h |}.

Definition carry {A B} (f : A → B) (r : E * result EngineError A) : E * result EngineError B :=
  (r.1, rmap f (map_err (sent_over duration_debug) r.2)).

Definition carried_engine : EngineService Snapshot Metric SourceDef E :=
  {| query r st := carry carried_handle (query e (carried_request r) st);
     explain sql a st := carry id (explain e sql a st);
     cancel i st := carry id (cancel e i st);
     list_sources st := carry (fmap carried_source) (list_sources e st);
     list_tables f st := carry (fmap carried_table) (list_tables e (carried_filter f) st);
     describe_table n st := carry carried_description (describe_table e n st);
     schema_snapshot l c st := carry id (schema_snapshot e (carried_sources l) c st);
     refresh_catalog s st := carry id (refresh_catalog e s st);
     cache_entries ns st := carry (fmap carried_entry) (cache_entries e (carried_text ns) st);
     refresh_table n ns st := carry (carried_refresh n) (refresh_table e n (carried_text ns) st);
     invalidate_cache n st := carry id (invalidate_cache e n st);
     vacuum_cache st := carry id (vacuum_cache e st);
     materialize n s ns st := carry carried_outcome (materialize e n (carried_spec s) (carried_text ns) st);
     drop_namespace ns st := carry id (drop_namespace e ns st);
     drop_materialized n ns st := carry id (drop_materialized e n (carried_text ns) st);
     add_source d st := carry carried_source (add_source e d st);
     remove_source n st := carry id (remove_source e n st);
     test_source n st := carry (carried_test n) (test_source e n st);
     reload_config st := carry id (reload_config e st);
     list_semantic_models st := carry (fmap carried_model_info) (list_semantic_models e st);
     describe_semantic_model n st := carry carried_model (describe_semantic_model e n st);
     list_metrics st := carry id (list_metrics e st);
     describe_metric n st := carry id (describe_metric e n st);
     semantic_query q st := carry carried_handle (semantic_query e q st);
     list_functions st := carry id (list_functions e st);
     describe_function ns n st := carry id (describe_function e ns n st);
     health st := carry id (health e st);
     shutdown st := (st, Ok ()) |}.
End carried.

(** Two engines that answer every call alike and leave the same state. *)
Record same_service {AR : Arrow} {Snapshot Metric SourceDef E : Type}
    (a b : EngineService Snapshot Metric SourceDef E) : Prop := {
  sv_query r st : query a r st = query b r st;
  sv_explain sql an st : explain a sql an st = explain b sql an st;
  sv_cancel i st : cancel a i st = cancel b i st;
  sv_list_sources st : list_sources a st = list_sources b st;
  sv_list_tables f st : list_tables a f st = list_tables b f st;
  sv_describe_table n st : describe_table a n st = describe_table b n st;
  sv_schema_snapshot l c st : schema_snapshot a l c st = schema_snapshot b l c st;
  sv_refresh_catalog s st : refresh_catalog a s st = refresh_catalog b s st;
  sv_cache_entries ns st : cache_entries a ns st = cache_entries b ns st;
  sv_refresh_table n ns st : refresh_table a n ns st = refresh_table b n ns st;
  sv_invalidate_cache n st : invalidate_cache a n st = invalidate_cache b n st;
  sv_vacuum_cache st : vacuum_cache a st = vacuum_cache b st;
  sv_materialize n s ns st : materialize a n s ns st = materialize b n s ns st;
  sv_drop_namespace ns st : drop_namespace a ns st = drop_namespace b ns st;
  sv_drop_materialized n ns st : drop_materialized a n ns st = drop_materialized b n ns st;
  sv_add_source d st : add_source a d st = add_source b d st;
  sv_remove_source n st : remove_source a n st = remove_source b n st;
  sv_test_source n st : test_source a n st = test_source b n st;
  sv_reload_config st : reload_config a st = reload_config b st;
  sv_list_semantic_models st : list_semantic_models a st = list_semantic_models b st;
  sv_describe_semantic_model n st : describe_semantic_model a n st = describe_semantic_model b n st;
  sv_list_metrics st : list_metrics a st = list_metrics b st;
  sv_describe_metric n st : describe_metric a n st = describe_metric b n st;
  sv_semantic_query q st : semantic_query a q st = semantic_query b q st;
  sv_list_functions st : list_functions a st = list_functions b st;
  sv_describe_function ns n st : describe_function a ns n st = describe_function b ns n st;
  sv_health st : health a st = health b st;
  sv_shutdown st : shutdown a st = shutdown b st
}.

(** ** The refinement *)

(** What is written reads back. *)
Definition codec_ok {A} (c : Codec A) : Prop := ∀ a, ∃ s, encode c a = Ok s ∧ decode c s = Ok a.

Definition ipc_ok {AR : Arrow} : Prop := ∀ m f c n bytes,
  write_ipc m f c n = Ok bytes → read_ipc bytes = Ok [(m, f, c, n)].

(** The codes of the errors can be metadata. *)
Definition codes_ok {MD : Metadata} : Prop := ∀ err,
  metadata_value (EngineError_code err) = Some (EngineError_code err).

Section refinement.
Context {AR : Arrow} {CH : Chrono} {MD : Metadata} {PA : Paths}.
Context {Snapshot Metric SourceDef : Type}.
Context (snapshot_json : Codec Snapshot) (metric_json : Codec Metric) (source_yaml : Codec SourceDef).
Context (duration_debug : N → string) (pkg_version proto_rev : string).
Context {E : Type} (e : EngineService Snapshot Metric SourceDef E).
Context (auth : AuthMode) (token traceparent : option string) (server_now now : Z) (elapsed : N).

Hypothesis codes : codes_ok.

Lemma status_of err :
  status_to_engine_error (engine_error_to_status duration_debug err) = sent_over duration_debug err.
Proof. unfold status_to_engine_error, engine_error_to_status, sent_over. simpl. by rewrite codes. Qed.

(** *** Streams *)

Hypothesis ipc : ipc_ok.

Lemma encode_batch_sendable b :
  match sendable b with
  | Ok b' => ∃ bytes, encode_batch b = Ok bytes ∧ decode_frame bytes = Ok [b'] ∧ rb_rows b' = rb_rows b
  | Err msg => encode_batch b = Err (encode_error msg)
  end.
Proof.
  unfold sendable, encode_batch. destruct (normalize_for_ipc b) as [b'|msg] eqn:Hn; simpl; [|done].
  destruct (write_ipc _ _ _ _) as [bytes|msg] eqn:Hw; simpl; [|done].
  exists bytes. split; [done|]. split.
  - unfold decode_frame. rewrite (ipc _ _ _ _ _ Hw). simpl. by destruct b'.
  - unfold normalize_for_ipc in Hn. destruct (existsb _ _); [|by simplify_eq]. by inv_ok.
Qed.

Lemma frames_carried completion rows stream :
  client_stream None (frames duration_debug elapsed completion rows stream) =
  (carried_stream duration_debug stream,
   match collect (carried_stream duration_debug stream) with
   | Ok bs => Some {| qc_rows_returned := foldl N.add rows (rb_rows <$> bs);
                      qc_truncated := match completion with Some c => qc_truncated c | None => false end;
                      qc_elapsed := carried_elapsed elapsed |}
   | Err _ => None
   end).
Proof.
  revert rows. induction stream as [|[b|err] stream IH]; intros rows.
  - simpl. unfold proto_completed, carried_elapsed. simpl. repeat f_equal.
    pose proof (Z.mod_pos_bound (Z.of_N elapsed) NANOS ltac:(done)). rewrite (Z.max_r 0 (_ mod _)) by lia. done.
  - pose proof (encode_batch_sendable b) as Hb. cbn [frames carried_stream]. destruct (sendable b) as [b'|msg].
    + destruct Hb as (bytes & -> & Hd & Hr). cbn [client_stream v1.payload]. rewrite Hd, IH, <-Hr.
      set (rest := carried_stream duration_debug stream).
      change (collect (Ok b' :: rest)) with (rmap (cons b') (collect rest)). by destruct (collect rest).
    + rewrite Hb. done.
  - cbn. unfold frame_error, status_to_engine_error, sent_over. simpl. rewrite !codes. simpl. rewrite codes. done.
Qed.

Lemma stream_handle_carried h :
  stream_handle (response_stream duration_debug server_now elapsed h) = Ok (carried_handle duration_debug elapsed h).
Proof. unfold stream_handle, response_stream. simpl. by rewrite frames_carried. Qed.

(** *** Calls *)

(** The client is let in. *)
Context (md : RequestMetadata).
Hypothesis injected : inject token traceparent = Ok md.
Hypothesis admitted : check_bearer (expected_token auth) (md_authorization md) = true.

Lemma injected_traceparent : md_traceparent md = traceparent.
Proof.
  unfold inject in injected. destruct token as [t|]; [destruct (metadata_value _)|]; by simplify_eq.
Qed.

Lemma call_carried {A B C} (r : rpc E B) (g : B → result EngineError C) (f : A → result GrpcStatus B)
    (n : A → C) (o : E * result EngineError A) st :
  r md st = respond duration_debug f o →
  (∀ a, rbind (map_err status_to_engine_error (f a)) g = Ok (n a)) →
  call token traceparent (intercept (expected_token auth) r) g st = carry duration_debug n o.
Proof.
  intros Hr Hf. unfold call, intercept. rewrite injected, admitted, Hr. unfold respond, carry.
  destruct o as [st' [a|err]]; simpl.
  - by rewrite Hf.
  - by rewrite status_of.
Qed.

Lemma none_if_empty_text ns : none_if_empty (text_to ns) = carried_text ns.
Proof. by destruct ns as [[]|]. Qed.

Lemma echoed ns : require_namespace_echo ns (text_to ns) = Ok ().
Proof. destruct ns as [ns|]; [|done]. simpl. rewrite decide_False; [done|]. naive_solver. Qed.

Lemma ts_from t : ts now (timestamp_from t) = carried_time now t.
Proof.
  unfold ts, timestamp_from, carried_time. simpl.
  pose proof (Z.mod_pos_bound t NANOS ltac:(done)) as Hb. rewrite (proj2 (Z.leb_le 0 (t mod NANOS))) by lia. done.
Qed.

Lemma timestamp_to_from t : timestamp_to now (timestamp_from t) = carried_time now t.
Proof.
  unfold timestamp_to, timestamp_from, carried_time. simpl.
  pose proof (Z.mod_pos_bound t NANOS ltac:(done)) as Hb. rewrite (Z.mod_small (t mod NANOS)); [done|].
  split; [lia|]. transitivity NANOS; [lia|]. reflexivity.
Qed.

Lemma SourceInfo_from_to s : SourceInfo_from now (SourceInfo_to s) = Ok (carried_source now s).
Proof.
  unfold SourceInfo_from. simpl. rewrite kind_from_to. simpl.
  assert (∀ st, of_number v1.SourceStatus_number v1.SourceStatuses (SourceStatus_to st) =
    Some (match st with SourceOk => v1.SourceOk | SourceUnavailable => v1.SourceUnavailable end)) as Hst
    by by intros [].
  rewrite Hst. unfold carried_source. rewrite timestamp_to_from, text_from_to. by destruct (si_status s).
Qed.

Lemma entry_from_to i : entry_from now (CacheEntryInfo_to i) = Some (carried_entry now i).
Proof.
  unfold entry_from, carried_entry. simpl. rewrite TableName_from_to, ts_from.
  f_equal. f_equal.
  - unfold mode_from. rewrite mode_number. by destruct (ci_mode i).
  - destruct (ci_expires_at i); simpl; [by rewrite ts_from|done].
Qed.

Lemma QueryRequest_from_to r :
  QueryRequest_from (QueryRequest_to r) =
  {| qr_sql := qr_sql r; qr_params := qr_params r;
     qr_timeout := d ← qr_timeout r; if (Z.of_N d / NANOS <=? i64_max)%Z then Some d else None;
     qr_max_rows := qr_max_rows r; qr_trace_id := carried_text (qr_trace_id r);
     qr_context := {| rc_interface := InProcess; rc_principal := None; rc_traceparent := None |} |}.
Proof.
  unfold QueryRequest_from. simpl. rewrite text_from_to. f_equal.
  destruct (qr_timeout r) as [d|]; simpl; [|done]. unfold timeout_to.
  destruct (_ <=? _)%Z; simpl; [|done]. unfold timeout_from. simpl.
  pose proof (Z.mod_pos_bound (Z.of_N d) NANOS ltac:(done)).
  assert (0 ≤ Z.of_N d / NANOS)%Z by (apply Z.div_pos; [lia|done]).
  rewrite (proj2 (Z.leb_le 0 (Z.of_N d / NANOS))), (proj2 (Z.leb_le 0 (Z.of_N d mod NANOS))) by lia.
  simpl. f_equal.
  rewrite (Z.mul_comm _ NANOS), <-Z.div_mod by done. apply N2Z.id.
Qed.

Lemma MaterializeSpec_from_to s : MaterializeSpec_from (MaterializeSpec_to s) = Ok (carried_spec s).
Proof.
  destruct s; unfold MaterializeSpec_from; simpl; rewrite ?opt_format_from_to, ?format_from_to; done.
Qed.

(** The conversions are opaque from here on. *)
#[local] Arguments TableName_to : simpl never.
#[local] Arguments TableName_from : simpl never.
#[local] Arguments ColumnSpec_to : simpl never.
#[local] Arguments TableInfo_to : simpl never.
#[local] Arguments TableInfo_from : simpl never.
#[local] Arguments SourceInfo_to : simpl never.
#[local] Arguments SourceInfo_from : simpl never.
#[local] Arguments CacheEntryInfo_to : simpl never.
#[local] Arguments entry_from : simpl never.
#[local] Arguments SemanticModelInfo_to : simpl never.
#[local] Arguments ModelDescription_to : simpl never.
#[local] Arguments ModelDescription_from : simpl never.
#[local] Arguments FunctionInfo_to : simpl never.
#[local] Arguments FunctionDescription_to : simpl never.
#[local] Arguments HealthReport_to : simpl never.
#[local] Arguments HealthReport_from : simpl never.
#[local] Arguments SemanticQuery_to : simpl never.
#[local] Arguments SemanticQuery_from : simpl never.
#[local] Arguments QueryRequest_to : simpl never.
#[local] Arguments QueryRequest_from : simpl never.
#[local] Arguments MaterializeSpec_to : simpl never.
#[local] Arguments MaterializeSpec_from : simpl never.
#[local] Arguments require_namespace_echo : simpl never.
#[local] Arguments response_stream : simpl never.
#[local] Arguments stream_handle : simpl never.
#[local] Arguments duration_to : simpl never.
#[local] Arguments dur : simpl never.
#[local] Arguments timestamp_from : simpl never.

Hypothesis snapshot_ok : codec_ok snapshot_json.
Hypothesis metric_ok : codec_ok metric_json.
Hypothesis source_ok : codec_ok source_yaml.

Local Notation served :=
  (service_routes snapshot_json metric_json source_yaml duration_debug pkg_version proto_rev e auth server_now elapsed).
Local Notation remote :=
  (RemoteEngineClient snapshot_json metric_json source_yaml served token traceparent now).
Local Notation seen := (carried_engine duration_debug e traceparent now elapsed).

(** An answer that is converted back and forth. *)
Ltac carried := intros; eapply call_carried; [reflexivity|intros; cbn].

Lemma remote_lists_carried :
  (∀ st, list_sources remote st = list_sources seen st) ∧
  (∀ f st, list_tables remote f st = list_tables seen f st) ∧
  (∀ n st, describe_table remote n st = describe_table seen n st) ∧
  (∀ ns st, cache_entries remote ns st = cache_entries seen ns st).
Proof.
  split_and!.
  - carried. apply (try_map_from_to _ _ (carried_source now)). intros s. unfold conv. by rewrite SourceInfo_from_to.
  - intros f st. assert (carried_filter f =
      if is_some (f ≫= tf_source) || is_some (f ≫= tf_name_glob)
      then Some {| tf_source := f ≫= tf_source; tf_name_glob := f ≫= tf_name_glob |} else None) as Hf
      by by destruct f as [[[] []]|].
    cbn [list_tables carried_engine]. rewrite Hf. revert st. carried.
    apply (try_map_from_to _ _ carried_table). intros t. unfold conv. by rewrite TableInfo_from_to.
  - intros n st. cbn [describe_table carried_engine]. rewrite <-(TableName_from_to n) at 2. revert st. carried.
    unfold DescribeTable_from. cbn. unfold conv. rewrite TableInfo_from_to. cbn. unfold carried_description.
    by rewrite (fmap_from_to _ _ carried_column) by apply ColumnSpec_from_to.
  - intros ns st. cbn [cache_entries carried_engine]. rewrite <-none_if_empty_text. revert st. carried.
    rewrite echoed. cbn. f_equal. induction a as [|i l IH]; [done|]. cbn. rewrite entry_from_to. cbn. by rewrite IH.
Qed.

Lemma remote_queries_carried :
  (∀ r st, query remote r st = query seen r st) ∧
  (∀ q st, semantic_query remote q st = semantic_query seen q st).
Proof.
  split.
  - intros r st. cbn [query carried_engine]. eapply call_carried.
    + unfold svc_query. rewrite QueryRequest_from_to, injected_traceparent. reflexivity.
    + intros h. cbn. by apply stream_handle_carried.
  - intros q st. cbn [semantic_query carried_engine]. rewrite <-(SemanticQuery_from_to q) at 2. revert st. carried.
    by apply stream_handle_carried.
Qed.

Lemma remote_materialized_carried :
  (∀ n s ns st, materialize remote n s ns st = materialize seen n s ns st) ∧
  (∀ n ns st, drop_materialized remote n ns st = drop_materialized seen n ns st) ∧
  (∀ ns st, drop_namespace remote ns st = drop_namespace seen ns st) ∧
  (∀ n ns st, refresh_table remote n ns st = refresh_table seen n ns st).
Proof.
  split_and!.
  - intros n s ns st. cbn [materialize carried_engine]. rewrite <-none_if_empty_text. eapply call_carried.
    + unfold svc_materialize. cbn. rewrite MaterializeSpec_from_to. reflexivity.
    + intros o. cbn. rewrite echoed. cbn. unfold MaterializeOutcome_from, carried_outcome. cbn.
      by rewrite TableName_from_to.
  - intros n ns st. cbn [drop_materialized carried_engine]. rewrite <-none_if_empty_text. revert st. carried.
    by rewrite echoed.
  - carried. assert (require_namespace_echo (Some ns) ns = Ok ()) as -> by apply (echoed (Some ns)). done.
  - intros n ns st. cbn [refresh_table carried_engine]. rewrite <-none_if_empty_text. eapply call_carried.
    + unfold svc_refresh. cbn. rewrite TableName_from_to. reflexivity.
    + intros r. cbn. rewrite echoed. cbn. unfold carried_refresh. f_equal. f_equal.
      destruct (ro_expires_at r) as [t|]; cbn; [by rewrite ts_from|done].
Qed.

Lemma remote_codecs_carried :
  (∀ l c st, schema_snapshot remote l c st = schema_snapshot seen l c st) ∧
  (∀ st, list_metrics remote st = list_metrics seen st) ∧
  (∀ n st, describe_metric remote n st = describe_metric seen n st) ∧
  (∀ d st, add_source remote d st = add_source seen d st).
Proof.
  split_and!.
  - intros l c st. cbn [schema_snapshot carried_engine].
    assert (carried_sources l = match default [] l with [] => None | l => Some l end) as -> by by destruct l as [[]|].
    revert st. carried. destruct (snapshot_ok a) as (s & -> & Hd). cbn. by rewrite Hd.
  - carried. assert (∃ ss, try_map (encode metric_json) a = Ok ss ∧ try_map (decode_metric metric_json) ss = Ok a)
      as (ss & -> & Hd).
    { induction a as [|m l (ss & He & Hd)]; [by exists []|]. destruct (metric_ok m) as (s & Hes & Hds).
      exists (s :: ss). cbn. unfold decode_metric at 1. by rewrite Hes, He, Hds, Hd. }
    exact Hd.
  - carried. destruct (metric_ok a) as (s & -> & Hd). cbn. unfold decode_metric. by rewrite Hd.
  - intros d st. cbn [add_source carried_engine RemoteEngineClient]. unfold remote_add_source.
    destruct (source_ok d) as (y & -> & Hd). eapply call_carried.
    + unfold svc_add_source. rewrite Hd. reflexivity.
    + intros i. cbn. unfold conv. by rewrite SourceInfo_from_to.
Qed.

Lemma remote_descriptions_carried :
  (∀ st, list_semantic_models remote st = list_semantic_models seen st) ∧
  (∀ n st, describe_semantic_model remote n st = describe_semantic_model seen n st) ∧
  (∀ st, list_functions remote st = list_functions seen st) ∧
  (∀ ns n st, describe_function remote ns n st = describe_function seen ns n st) ∧
  (∀ st, health remote st = health seen st) ∧
  (∀ n st, test_source remote n st = test_source seen n st).
Proof.
  split_and!.
  - carried. by rewrite (fmap_from_to _ _ carried_model_info) by apply SemanticModelInfo_from_to.
  - carried. unfold conv. by rewrite ModelDescription_from_to.
  - carried. rewrite (fmap_from_to _ _ (λ f, f)) by apply FunctionInfo_from_to. by rewrite fmap_same.
  - carried. by rewrite FunctionDescription_from_to.
  - carried. by rewrite HealthReport_from_to.
  - carried. unfold carried_test. by rewrite text_from_to.
Qed.

Lemma remote_scalars_carried :
  (∀ sql a st, explain remote sql a st = explain seen sql a st) ∧
  (∀ i st, cancel remote i st = cancel seen i st) ∧
  (∀ s st, refresh_catalog remote s st = refresh_catalog seen s st) ∧
  (∀ n st, invalidate_cache remote n st = invalidate_cache seen n st) ∧
  (∀ st, vacuum_cache remote st = vacuum_cache seen st) ∧
  (∀ n st, remove_source remote n st = remove_source seen n st) ∧
  (∀ st, reload_config remote st = reload_config seen st).
Proof.
  split_and!; try (carried; try destruct a; done).
  intros n st. cbn [invalidate_cache carried_engine]. rewrite <-(TableName_from_to n) at 2. revert st. by carried.
Qed.
End refinement.

(** C6: The client of a daemon is an engine: whatever engine is behind the daemon's services, every
    call of a client they let in leaves the engine in the state the call would leave it in, and
    answers what the engine answers, as far as the wire carries it: an empty text becomes an absent
    one, a time chrono refuses becomes the clock's, a duration beyond [i64] seconds is lost, an
    error comes back as [sent_over] says, a query's stream ends at its first error, its batches
    are without views, and its completion counts the rows that were sent. *)
Theorem remote_refines {AR : Arrow} {CH : Chrono} {MD : Metadata} {PA : Paths} {Snapshot Metric SourceDef E : Type}
    (snapshot_json : Codec Snapshot) (metric_json : Codec Metric) (source_yaml : Codec SourceDef)
    (duration_debug : N → string) (pkg_version proto_rev : string)
    (e : EngineService Snapshot Metric SourceDef E) (auth : AuthMode) (token traceparent : option string)
    (server_now now : Z) (elapsed : N) (md : RequestMetadata) :
  codes_ok → ipc_ok → codec_ok snapshot_json → codec_ok metric_json → codec_ok source_yaml →
  inject token traceparent = Ok md → check_bearer (expected_token auth) (md_authorization md) = true →
  same_service
    (RemoteEngineClient snapshot_json metric_json source_yaml
       (service_routes snapshot_json metric_json source_yaml duration_debug pkg_version proto_rev e auth
          server_now elapsed) token traceparent now)
    (carried_engine duration_debug e traceparent now elapsed).
Proof.
  intros Hc Hi Hs Hm Hy Hinj Hadm.
  destruct (remote_lists_carried snapshot_json metric_json source_yaml duration_debug pkg_version proto_rev e auth
    token traceparent server_now now elapsed Hc md Hinj Hadm) as (? & ? & ? & ?).
  destruct (remote_queries_carried snapshot_json metric_json source_yaml duration_debug pkg_version proto_rev e auth
    token traceparent server_now now elapsed Hc Hi md Hinj Hadm) as (? & ?).
  destruct (remote_materialized_carried snapshot_json metric_json source_yaml duration_debug pkg_version proto_rev e
    auth token traceparent server_now now elapsed Hc md Hinj Hadm) as (? & ? & ? & ?).
  destruct (remote_codecs_carried snapshot_json metric_json source_yaml duration_debug pkg_version proto_rev e auth
    token traceparent server_now now elapsed Hc md Hinj Hadm Hs Hm Hy) as (? & ? & ? & ?).
  destruct (remote_descriptions_carried snapshot_json metric_json source_yaml duration_debug pkg_version proto_rev e
    auth token traceparent server_now now elapsed Hc md Hinj Hadm) as (? & ? & ? & ? & ? & ?).
  destruct (remote_scalars_carried snapshot_json metric_json source_yaml duration_debug pkg_version proto_rev e auth
    token traceparent server_now now elapsed Hc md Hinj Hadm) as (? & ? & ? & ? & ? & ? & ?).
  by split.
Qed.

(** ** The token *)

Lemma difference_zero acc a b :
  String.length a = String.length b → difference acc a b = 0%N ↔ acc = 0%N ∧ a = b.
Proof.
  revert acc b. induction a as [|x a IH]; intros acc [|y b] Hlen; simpl in *; try done.
  - naive_solver.
  - injection Hlen as Hlen. rewrite IH, N.lor_eq_0_iff, N.lxor_eq_0_iff by done. unfold code. split.
    + intros [[-> Hxy] ->]. split; [done|]. f_equal.
      by rewrite <-(ascii_N_embedding x), <-(ascii_N_embedding y), Hxy.
    + intros [-> [= -> ->]]. done.
Qed.

Lemma constant_time_eq_spec a b : constant_time_eq a b = true ↔ a = b.
Proof.
  unfold constant_time_eq. destruct (Nat.eqb_spec (String.length a) (String.length b)) as [Hlen|Hlen].
  - rewrite N.eqb_eq, difference_zero by done. naive_solver.
  - split; [done|]. intros ->. done.
Qed.

(** The header is a bearer one, in any case, with the token after it. *)
Definition bears (token header : string) : Prop :=
  ∃ scheme rest, header = scheme +:+ " " +:+ rest ∧ contains_chr " " scheme = false ∧
                 to_ascii_lowercase scheme = "bearer" ∧ trim rest = token ∧ token ≠ "".

Lemma bearer_token_spec header token : bearer_token header = Some token ↔ bears token header.
Proof.
  unfold bearer_token, bears. split.
  - destruct (split_once " " header) as [[scheme rest]|] eqn:Hs; simpl; [|done].
    apply split_once_some in Hs as [-> Hc]. unfold eq_ignore_ascii_case.
    destruct (bool_decide_reflect (to_ascii_lowercase scheme = to_ascii_lowercase "bearer")) as [Hb|]; [|done].
    case_decide; [done|]. intros [= <-]. exists scheme, rest. done.
  - intros (scheme & rest & -> & Hc & Hb & Ht & Hne).
    rewrite (proj2 (split_once_some " " _ scheme rest)) by done. simpl. unfold eq_ignore_ascii_case.
    rewrite bool_decide_eq_true_2 by (by rewrite Hb). rewrite Ht. by rewrite decide_False.
Qed.

Lemma check_bearer_spec expected header :
  check_bearer expected header = true ↔
  match expected with None => True | Some token => ∃ h, header = Some h ∧ bears token h end.
Proof.
  unfold check_bearer. destruct expected as [token|]; [|done]. destruct header as [h|]; simpl; [|naive_solver].
  destruct (bearer_token h) as [tok|] eqn:Ht.
  - rewrite constant_time_eq_spec. apply bearer_token_spec in Ht. split.
    + intros ->. eauto.
    + intros (h' & [= <-] & Hb). apply bearer_token_spec in Ht, Hb. congruence.
  - split; [done|]. intros (h' & [= <-] & Hb). apply bearer_token_spec in Hb. congruence.
Qed.

(** A call that is turned away: the server's state is not touched. *)
Definition denies {E A} (expected : option string) (r : rpc E A) : Prop := ∀ md st,
  check_bearer expected (md_authorization md) = false →
  r md st = (st, Err {| gs_code := Unauthenticated; gs_message := "missing or invalid bearer token";
                        gs_error_code := None |}).

Lemma intercept_denies {E A} expected (r : rpc E A) : denies expected (intercept expected r).
Proof. intros md st H. unfold intercept. by rewrite H. Qed.

(** No call of a server gets past it. *)
Record guarded {E} (expected : option string) (srv : GrpcServer E) : Prop := {
  gu_query req : denies expected (rpc_query srv req);
  gu_cancel i : denies expected (rpc_cancel srv i);
  gu_explain req : denies expected (rpc_explain srv req);
  gu_list_tables req : denies expected (rpc_list_tables srv req);
  gu_describe_table n : denies expected (rpc_describe_table srv n);
  gu_schema_snapshot req : denies expected (rpc_schema_snapshot srv req);
  gu_refresh_catalog s : denies expected (rpc_refresh_catalog srv s);
  gu_list_functions : denies expected (rpc_list_functions srv);
  gu_describe_function req : denies expected (rpc_describe_function srv req);
  gu_list_sources : denies expected (rpc_list_sources srv);
  gu_add_source y : denies expected (rpc_add_source srv y);
  gu_remove_source n : denies expected (rpc_remove_source srv n);
  gu_test_source n : denies expected (rpc_test_source srv n);
  gu_reload_config : denies expected (rpc_reload_config srv);
  gu_list_entries ns : denies expected (rpc_list_entries srv ns);
  gu_refresh req : denies expected (rpc_refresh srv req);
  gu_invalidate n : denies expected (rpc_invalidate srv n);
  gu_vacuum : denies expected (rpc_vacuum srv);
  gu_materialize req : denies expected (rpc_materialize srv req);
  gu_drop_materialized req : denies expected (rpc_drop_materialized srv req);
  gu_drop_namespace ns : denies expected (rpc_drop_namespace srv ns);
  gu_list_models : denies expected (rpc_list_models srv);
  gu_describe_model n : denies expected (rpc_describe_model srv n);
  gu_list_metrics : denies expected (rpc_list_metrics srv);
  gu_describe_metric n : denies expected (rpc_describe_metric srv n);
  gu_semantic_query req : denies expected (rpc_semantic_query srv req);
  gu_health : denies expected (rpc_health srv);
  gu_shutdown d : denies expected (rpc_shutdown srv d);
  gu_version : denies expected (rpc_version srv)
}.

(** C26: A daemon with a token answers no call that does not carry it: every call of every service
    whose [authorization] is not a bearer header with exactly this token is refused and leaves
    the engine as it was; a client's calls get in exactly when its token, less the white space
    around it, is the daemon's and not empty. *)
Theorem token_required {AR : Arrow} {CH : Chrono} {MD : Metadata} {PA : Paths} {Snapshot Metric SourceDef E : Type}
    (snapshot_json : Codec Snapshot) (metric_json : Codec Metric) (source_yaml : Codec SourceDef)
    (duration_debug : N → string) (pkg_version proto_rev : string)
    (e : EngineService Snapshot Metric SourceDef E) (server_now : Z) (elapsed : N) (secret : string) :
  guarded (Some secret)
    (service_routes snapshot_json metric_json source_yaml duration_debug pkg_version proto_rev e
       (AuthBearer secret) server_now elapsed) ∧
  (∀ header, check_bearer (Some secret) header = true ↔ ∃ h, header = Some h ∧ bears secret h) ∧
  (∀ token traceparent, metadata_value ("Bearer " +:+ token) = Some ("Bearer " +:+ token) →
     (∃ md, inject (Some token) traceparent = Ok md ∧ check_bearer (Some secret) (md_authorization md) = true)
     ↔ trim token = secret ∧ secret ≠ "").
Proof.
  split; [|split].
  - split; intros; apply intercept_denies.
  - intros header. apply (check_bearer_spec (Some secret)).
  - intros token traceparent Hv. unfold inject. rewrite Hv. split.
    + intros (md & [= <-] & Hc). cbn [md_authorization] in Hc. apply (check_bearer_spec (Some secret)) in Hc as (h & [= <-] & Hb).
      apply bearer_token_spec in Hb. unfold bearer_token in Hb. simpl in Hb.
      case_decide; [done|]. injection Hb as <-. done.
    + intros [<- Hne]. eexists. split; [done|]. cbn [md_authorization]. apply (check_bearer_spec (Some _)). eexists. split; [done|].
      exists "Bearer", token. done.
Qed.

(** ** What comes back unchanged *)

Lemma carried_duration_small d : (Z.of_N d / NANOS ≤ i64_max)%Z → carried_duration d = d ∧ carried_elapsed d = d.
Proof.
  intros Hd. assert (0 ≤ Z.of_N d / NANOS)%Z as Hnn by (apply Z.div_pos; [lia|done]).
  assert (as_i64 (Z.of_N d / NANOS) = Z.of_N d / NANOS)%Z as Hi.
  { unfold as_i64. rewrite Z.mod_small; [lia|]. unfold i64_max in Hd. lia. }
  assert (Z.of_N d / NANOS * NANOS + Z.of_N d mod NANOS = Z.of_N d)%Z as Heq.
  { rewrite (Z.mul_comm _ NANOS). by rewrite <-Z.div_mod. }
  pose proof (Z.mod_pos_bound (Z.of_N d) NANOS ltac:(done)).
  unfold carried_duration, carried_elapsed, dur, duration_to, timeout_from. simpl. rewrite Hi.
  rewrite (proj2 (Z.leb_le 0 (Z.of_N d / NANOS))), (proj2 (Z.leb_le 0 (Z.of_N d mod NANOS))) by lia.
  simpl. rewrite Z.max_r, Heq by lia. by rewrite N2Z.id.
Qed.

(** ** A daemon and a client *)

Definition row_bytes (n : nat) : string := Nat.iter n (String "x") "".

Lemma length_row_bytes n : String.length (row_bytes n) = n.
Proof. induction n as [|n IH]; [done|]. simpl. by rewrite IH. Qed.

(** Arrow for batches without columns: as many bytes as rows. *)
#[local] Instance demo_arrow : Arrow := {|
  Column := ();
  cast c _ := Ok c;
  try_new _ _ _ _ := Ok ();
  write_ipc m f c n := if decide (m = ∅ ∧ f = [] ∧ c = []) then Ok (row_bytes (N.to_nat n)) else Err "columns";
  read_ipc s := Ok [(∅, [], [], N.of_nat (String.length s))]
|}.
#[local] Instance demo_chrono : Chrono := {| timestamp_opt s n := Some (s * NANOS + n)%Z |}.
#[local] Instance demo_metadata : Metadata := {| metadata_value := Some |}.
#[local] Instance demo_paths : Paths := {| to_string_lossy := id |}.

Definition text_codec : Codec string := {| encode := Ok; decode := Ok |}.

(** An engine that counts the cancellations it is asked for; what it gives has an empty text. *)
Definition demo_batch (n : N) : RecordBatch := {| rb_metadata := ∅; rb_fields := []; rb_columns := []; rb_rows := n |}.

Definition demo_table : TableInfo :=
  {| ti_name := mkTableName "s" "t"; ti_kind := KDuckdb; ti_description := Some ""; ti_row_count_estimate := Some 7%N;
     ti_cached := true; ti_required_filters := ["id"] |}.

Definition unsupported {A} : op nat A := λ st, (st, Err (EUnsupported "no")).

Definition demo_engine : EngineService string string string nat :=
  {| query r st := (st, Ok {| hd_id := "q1"; hd_stream := [Ok (demo_batch 2); Ok (demo_batch 3)];
                              hd_completion := None |});
     explain _ _ := unsupported; cancel i st := (S st, Ok (bool_decide (i = "q1")));
     list_sources := unsupported; list_tables f st := (st, Ok [demo_table]);
     describe_table n st := (st, Err (EUnknownTable (tn_table n))); schema_snapshot _ _ st := (st, Ok "{}");
     refresh_catalog _ := unsupported; cache_entries _ := unsupported; refresh_table _ _ := unsupported;
     invalidate_cache _ := unsupported; vacuum_cache := unsupported; materialize _ _ _ := unsupported;
     drop_namespace _ := unsupported; drop_materialized _ _ := unsupported; add_source _ := unsupported;
     remove_source _ := unsupported; test_source _ := unsupported; reload_config := unsupported;
     list_semantic_models := unsupported; describe_semantic_model _ := unsupported; list_metrics := unsupported;
     describe_metric _ := unsupported; semantic_query _ := unsupported; list_functions := unsupported;
     describe_function _ _ := unsupported; health := unsupported; shutdown st := (st, Ok ()) |}.

Definition demo_remote : EngineService string string string nat :=
  RemoteEngineClient text_codec text_codec text_codec
    (service_routes text_codec text_codec text_codec show_N "0.1.0" "dev" demo_engine (AuthBearer "secret") 5 9)
    (Some "secret") None 7.

Lemma remote_refines_witness :
  list_tables demo_remote None 0%nat = (0%nat, Ok [carried_table demo_table]) ∧
  cancel demo_remote "q1" 0%nat = (1%nat, Ok true) ∧
  describe_table demo_remote (mkTableName "s" "u") 0%nat = (0%nat, Err (EUnknownTable "u")) ∧
  rmap (λ h, (rmap rb_rows <$> hd_stream h, qc_rows_returned <$> hd_completion h))
    (query demo_remote (QueryRequest_sql "x") 0%nat).2
  = Ok ([Ok 2%N; Ok 3%N], Some 5%N).
Proof.
  pose proof (remote_refines text_codec text_codec text_codec show_N "0.1.0" "dev" demo_engine (AuthBearer "secret")
    (Some "secret") None 5 7 9 {| md_authorization := Some "Bearer secret"; md_traceparent := None |}) as H.
  destruct H as [Hq _ Hc _ Ht Hd].
  - intros err. reflexivity.
  - intros m f c n bytes. unfold write_ipc, read_ipc. cbn. case_decide as Hd; [|discriminate].
    destruct Hd as (-> & -> & ->). intros [= <-]. rewrite length_row_bytes. by rewrite N2Nat.id.
  - intros a. exists a. split; reflexivity.
  - intros a. exists a. split; reflexivity.
  - intros a. exists a. split; reflexivity.
  - reflexivity.
  - reflexivity.
  - split; [rewrite Ht; reflexivity|]. split; [rewrite Hc; reflexivity|]. split; [rewrite Hd; reflexivity|].
    rewrite Hq. reflexivity.
Defined.

Lemma token_required_witness :
  (∃ md, inject (Some " secret ") None = Ok md ∧ check_bearer (Some "secret") (md_authorization md) = true) ∧
  check_bearer (Some "secret") (Some "Bearer secrets") = false.
Proof.
  destruct (token_required text_codec text_codec text_codec show_N "0.1.0" "dev" demo_engine 5 9 "secret") as (_ & _ & H).
  split; [|reflexivity]. apply H; [reflexivity|]. split; [reflexivity|discriminate].
Defined.
