(* ===== verification/DuckDb.v ===== *)
(** * Sources behind DuckDB ([crates/pawrly-engine/src/duckdb_source.rs])
    Databases that are attached, lakehouse tables and files of object stores: the statements sent
    to DuckDB, as programs over what it and the catalog answer, and the SQL of a scan. *)

From S2P Require Export Prog Engine HttpSpec.

Open Scope prog_scope.

(** ** Scans *)

(** An operand of a filter, and a filter: an equality of two operands or anything else. *)
Inductive Operand := ColumnRef (name : string) | LiteralOf (s : Functions.ScalarValue) | OtherOperand.
Inductive FilterExpr := EqFilter (left right : Operand) | OtherFilter.

Definition sql_quote (v : string) : string := replace v (chr squote) (chr squote +:+ chr squote).

Definition quoted (v : string) : string := chr squote +:+ sql_quote v +:+ chr squote.

(** The literal of a scalar, in SQL. *)
Definition scalar_sql (s : Functions.ScalarValue) : option string :=
  match s with
  | Functions.Utf8 (Some s) | Functions.LargeUtf8 (Some s) => Some (quoted s)
  | Functions.Int32 (Some n) | Functions.Int64 (Some n) => Some (show_Z n)
  | Functions.Float64 (Some t) => Some t
  | Functions.Boolean (Some b) => Some (if b then "true" else "false")
  | _ => None
  end.

Definition extract_eq_literal (f : FilterExpr) : option (string * string) :=
  match f with
  | EqFilter (ColumnRef c) (LiteralOf s) | EqFilter (LiteralOf s) (ColumnRef c) =>
      v ← scalar_sql s; Some (c, v)
  | _ => None
  end.

(** [TableProviderFilterPushDown], and [supports_filters_pushdown]. *)
Inductive FilterPushDown := Exact | Unsupported.

Definition supports_filters_pushdown (filters : list FilterExpr) : list FilterPushDown :=
  (λ f, if is_some (extract_eq_literal f) then Exact else Unsupported) <$> filters.

Definition dq (s : string) : string := chr dquote +:+ s +:+ chr dquote.

(** [DuckDbTableProvider]: the relation and the names of its columns. *)
Record DuckDbTableProvider := { dp_relation : string; dp_fields : list string }.

(** A projection lists positions of columns. *)
Definition projected (p : DuckDbTableProvider) (projection : option (list nat)) : string :=
  match projection with
  | Some [] => "1"
  | Some l => join ", " ((λ i, dq (default "" (dp_fields p !! i))) <$> l)
  | None => "*"
  end.

Definition eq_clause (cl : string * string) : string := dq cl.1 +:+ " = " +:+ cl.2.

Definition build_sql (p : DuckDbTableProvider) (projection : option (list nat)) (filters : list FilterExpr)
    (limit : option N) : string :=
  let sql := "SELECT " +:+ projected p projection +:+ " FROM " +:+ dp_relation p in
  let clauses := eq_clause <$> omap extract_eq_literal filters in
  let sql := match clauses with [] => sql | _ => sql +:+ " WHERE " +:+ join " AND " clauses end in
  match limit with Some n => sql +:+ " LIMIT " +:+ show_N n | None => sql end.

(** ** Paths and formats *)

(** [resolve_local]. *)
Definition resolve_local (workspace_dir raw : string) : string :=
  if contains_text "://" raw || is_absolute raw then raw else path_join workspace_dir raw.

(** [url.split('?').next()]. *)
Definition before_query (url : string) : string := default url (head (split "?" url)).

Definition reader_for (url : string) (explicit_format : option string) : string :=
  match explicit_format with
  | Some fmt =>
      let f := to_ascii_lowercase fmt in
      if decide (f = "csv") then "read_csv"
      else if bool_decide (f ∈ ["json"; "ndjson"; "jsonl"]) then "read_json"
      else "read_parquet"
  | None =>
      let path := before_query url in
      let path := match strip_suffix ".gz" path with
                  | Some p => p
                  | None => match strip_suffix ".zst" path with
                            | Some p => p
                            | None => default path (strip_suffix ".bz2" path)
                            end
                  end in
      let lower := to_ascii_lowercase path in
      if ends_with ".csv" lower then "read_csv"
      else if ends_with ".json" lower || ends_with ".jsonl" lower || ends_with ".ndjson" lower then "read_json"
      else "read_parquet"
  end.

(** [config.path] or [config.location]. *)
Definition table_location (config : Json) : option string :=
  match get config "path" with Some p => Some p | None => get config "location" end ≫= as_str.

Definition duckdb_file_path (config : Json) : result string string :=
  ok_or "`kind: duckdb` requires `config.path`" (get config "path" ≫= as_str).

(** ** Connection strings *)

Definition get_str (config : Json) (key : string) : option string := get config key ≫= as_str.

(** A [key=value] of a connection string, if there is a value. *)
Definition conn_part (key : string) (v : option string) : list string :=
  match v with Some v => [key +:+ "=" +:+ v] | None => [] end.

(** The port is a number or a text. *)
Definition port_text (config : Json) : option string :=
  port ← get config "port";
  match as_u64 port with Some p => Some (show_N p) | None => as_str port end.

Definition postgres_mysql_conn (config : Json) : result string string :=
  match get_str config "dsn" with
  | Some dsn => Ok dsn
  | None =>
      let dbname := match get config "dbname" with Some d => Some d | None => get config "database" end ≫= as_str in
      let? host := ok_or "postgres/mysql require `config.dsn` or `config.host` + `config.database`"
                     (get_str config "host") in
      Ok (join " " (conn_part "host" (Some host) ++ conn_part "port" (port_text config)
                    ++ conn_part "dbname" dbname ++ conn_part "user" (get_str config "user")
                    ++ conn_part "password" (get_str config "password")))
  end.

Definition snowflake_conn (config : Json) : result string string :=
  match get_str config "account", get_str config "user", get_str config "password" with
  | Some account, Some user, Some password =>
      Ok (join ";" (conn_part "account" (Some account) ++ conn_part "user" (Some user)
                    ++ conn_part "password" (Some password)
                    ++ (["database"; "schema"; "warehouse"; "role"] ≫= λ k, conn_part k (get_str config k))))
  | _, _, _ => Err "snowflake requires `config.account`, `config.user`, `config.password`"
  end.

(** ** Secrets *)

Definition storage (d : EngineSourceDef) : option Json := get (es_config d) "storage".

(** The configurations of the source and of its tables, in order. *)
Definition configs (d : EngineSourceDef) : list Json := es_config d :: (et_config <$> es_tables d).

(** The closure [from_cfg]. *)
Definition scheme_of (cfg : Json) : option string :=
  loc ← table_location cfg; default_storage_type (classify_scheme loc).

Definition effective_storage_type (d : EngineSourceDef) : option string :=
  match storage d ≫= λ s, get_str s "type" with
  | Some t => Some t
  | None => head (omap scheme_of (configs d))
  end.

(** The closure [push]. *)
Definition push_origin (provider : string) (out : list string) (cfg : Json) : list string :=
  match table_location cfg ≫= origin_prefix with
  | Some origin =>
      if bool_decide (default_storage_type (classify_scheme origin) = Some provider)
         && negb (bool_decide (origin ∈ out))
      then out ++ [origin] else out
  | None => out
  end.

Definition secret_origins (d : EngineSourceDef) (provider : string) : list string :=
  foldl (push_origin provider) [] (configs d).

Fixpoint map_chars (f : ascii → ascii) (s : string) : string :=
  match s with "" => "" | String c s => String (f c) (map_chars f s) end.

(** [rest.trim_end_matches('/')] of what follows the scheme, other characters as underscores. *)
Definition sanitize_authority (origin : string) : string :=
  let authority := match split_once_str "://" origin with
                   | Some (_, rest) => trim_end_matches (λ c, bool_decide (c = "/"%char)) rest
                   | None => origin
                   end in
  map_chars (λ c, if is_alnum c then c else "_"%char) authority.

Definition scoped_secrets (d : EngineSourceDef) (provider inner : string) : list string :=
  let base := replace (es_name d) (chr dquote) (chr dquote +:+ chr dquote) in
  match secret_origins d provider with
  | [] => ["CREATE OR REPLACE SECRET " +:+ dq base +:+ " (" +:+ inner +:+ ")"]
  | origins =>
      (λ origin, "CREATE OR REPLACE SECRET " +:+ dq (base +:+ "__" +:+ sanitize_authority origin)
                 +:+ " (" +:+ inner +:+ ", SCOPE " +:+ quoted origin +:+ ")") <$> origins
  end.

(** A parameter of an object store's secret. *)
Definition secret_param (kv : string * option string) : list string :=
  match kv.2 with
  | None => []
  | Some v => if decide (kv.1 = "PROVIDER") then [kv.1 +:+ " " +:+ v] else [kv.1 +:+ " " +:+ quoted v]
  end.

(** The keys of a secret with their values, by the method of authentication. *)
Definition secret_pairs (storage : Json) (provider : string) : list (string * option string) :=
  let auth := get storage "auth" in
  let auth_type := default "access_key" (auth ≫= λ a, get_str a "type") in
  let region := get_str storage "region" in
  let from_auth key := auth ≫= λ a, get_str a key in
  if bool_decide (auth_type ∈ ["credential_chain"; "chain"]) then
    [("PROVIDER", Some "credential_chain"); ("REGION", region); ("ENDPOINT", from_auth "endpoint");
     ("ACCOUNT_NAME", from_auth "account_name")]
  else if decide (provider = "s3") then
    [("KEY_ID", from_auth "access_key_id"); ("SECRET", from_auth "secret_access_key");
     ("SESSION_TOKEN", from_auth "session_token"); ("REGION", region);
     ("ENDPOINT", from_auth "endpoint"); ("URL_STYLE", from_auth "url_style")]
  else if decide (provider = "gcs") then
    [("KEY_ID", from_auth "access_key_id"); ("SECRET", from_auth "secret_access_key")]
  else [("CONNECTION_STRING", from_auth "connection_string"); ("ACCOUNT_NAME", from_auth "account_name")].

Definition build_object_store_secret_sql (d : EngineSourceDef) (provider : string) : list string :=
  match storage d with
  | None => []
  | Some s =>
      match secret_pairs s provider ≫= secret_param with
      | [] => []
      | params => scoped_secrets d provider (join ", " (("TYPE " +:+ provider) :: params))
      end
  end.

(** What is not code here: reading an authentication block ([serde_json]), base64. *)
Class StorageFormats := {
  auth_from_json : Json → result string AuthSpec;
  base64_encode : string → string
}.

Section http_secret.
Context {SF : StorageFormats}.

(** The bearer token and the other headers, after one more header. *)
Definition push_header (acc : option string * list (string * string)) (h : AuthHeader)
    : option string * list (string * string) :=
  match ah_bearer h with
  | Some t =>
      if eq_ignore_ascii_case (ah_name h) "authorization" && negb (is_some acc.1) then (Some t, acc.2)
      else (acc.1, acc.2 ++ [(ah_name h, "Bearer " +:+ t)])
  | None => match ah_value h with
            | Some v => (acc.1, acc.2 ++ [(ah_name h, v)])
            | None => acc
            end
  end.

Definition http_secret_params (bearer : option string) (headers : list (string * string)) : list string :=
  match bearer with Some t => ["BEARER_TOKEN " +:+ quoted t] | None => [] end
  ++ match headers with
     | [] => []
     | _ => ["EXTRA_HTTP_HEADERS MAP { "
             +:+ join ", " ((λ kv, quoted kv.1 +:+ ": " +:+ quoted kv.2) <$> headers) +:+ " }"]
     end.

(** What a secret carries of an authentication block: a bearer token and headers. *)
Definition http_credentials (auth : AuthSpec) : result string (option string * list (string * string)) :=
  match auth with
  | NoAuth => Ok (None, [])
  | Header hs => Ok (foldl push_header (None, []) hs)
  | Basic username password =>
      Ok (None, [("Authorization", "Basic " +:+ base64_encode (username +:+ ":" +:+ password))])
  | Custom _ _ =>
      Err "storage auth type `custom` (query-string credentials) is not supported for http storage; DuckDB HTTP secrets carry only headers/bearer tokens"
  | Oauth2 _ _ _ _ _ =>
      Err "storage auth type `oauth2` is not yet supported for http storage; use type: header with a pre-fetched bearer token"
  end.

(** The authentication block of the storage, as far as it is one. *)
Definition http_auth (d : EngineSourceDef) : result string (option string * list (string * string)) :=
  match storage d ≫= λ s, get s "auth" with
  | None => Ok (None, [])
  | Some a =>
      let? auth := map_err (λ e, "invalid http storage `auth`: " +:+ e) (auth_from_json a) in
      http_credentials auth
  end.

Definition build_http_secret_sql (d : EngineSourceDef) : result string (list string) :=
  let? bh := http_auth d in
  match http_secret_params bh.1 bh.2 with
  | [] => Ok []
  | params => Ok (scoped_secrets d "http" (join ", " ("TYPE http" :: params)))
  end.

Definition build_secret_sql (d : EngineSourceDef) : result string (list string) :=
  match effective_storage_type d with
  | None => Ok []
  | Some provider =>
      if decide (provider = "http") then build_http_secret_sql d
      else if bool_decide (provider ∈ ["s3"; "gcs"; "azure"]) then Ok (build_object_store_secret_sql d provider)
      else Ok []
  end.
End http_secret.

(** ** Registration *)

(** What registering asks of the pool: run a statement, load an extension, whether it is offline,
    fetch the texts of a query's first column, and the columns of a query; and of the catalog:
    whether a schema is there, to register one, and to register a table of one, given by its
    relation and columns. Errors are texts. *)
Inductive DuckOp :=
| Execute (sql : string)
| EnsureExtension (ext : string)
| Offline
| FetchStrings (sql : string)
| FetchSchema (sql : string)
| HasSchema (name : string)
| RegisterSchema (name : string)
| RegisterTable (schema table : string) (p : DuckDbTableProvider).

Definition DuckAns (op : DuckOp) : Type :=
  match op with
  | Execute _ | EnsureExtension _ | RegisterSchema _ | RegisterTable _ _ _ => result string ()
  | Offline | HasSchema _ => bool
  | FetchStrings _ | FetchSchema _ => result string (list string)
  end.

#[export] Instance duck_signature : Signature := { Op := DuckOp; Ans := DuckAns }.

Definition ask (op : DuckOp) : prog (DuckAns op) := @Do duck_signature _ op Ret.

(** [DuckDbTableProvider::try_new]: a probe without rows. *)
Definition try_new_provider (relation : string) : prog (result string DuckDbTableProvider) :=
  do? fields <- (ask (FetchSchema ("SELECT * FROM " +:+ relation +:+ " WHERE 1=0")));
  Ret (Ok {| dp_relation := relation; dp_fields := fields |}).

Fixpoint execute_all (sqls : list string) : prog (result string ()) :=
  match sqls with
  | [] => Ret (Ok ())
  | sql :: sqls => do? _ <- (ask (Execute sql)); execute_all sqls
  end.

Definition ensure_memory_schema (name : string) : prog (result string ()) :=
  do there <- (ask (HasSchema name));
  if there then Ret (Ok ()) else ask (RegisterSchema name).

Definition plain_summary (name : string) (description : option string) : TableSummary :=
  {| ts_name := name; ts_description := description; ts_wiki := None; ts_required_filters := [] |}.

Definition report (tables : list TableSummary) : RegisterReport :=
  {| rr_table_count := N.of_nat (length tables); rr_tables := tables |}.

(** An error is no tables: they resolve when they are queried. *)
Definition enumerate_catalog_tables (catalog : string) : prog (list TableSummary) :=
  do r <- (ask (FetchStrings ("SELECT DISTINCT table_name FROM information_schema.tables WHERE table_catalog = "
                              +:+ quoted catalog +:+ " ORDER BY table_name")));
  Ret (match r with Ok names => (λ n, plain_summary n None) <$> names | Err _ => [] end).

(** The schema of an attached database, and its tables as far as they can be listed. *)
Definition attached_report (name : string) : prog (result string RegisterReport) :=
  do? _ <- (ask (RegisterSchema name));
  do tables <- (enumerate_catalog_tables name);
  Ret (Ok (report tables)).

Definition attach_sql (ty : option string) (snowflake : bool) (conn name : string) : string :=
  "ATTACH " +:+ quoted conn +:+ " AS " +:+ dq name +:+ " "
  +:+ match ty with
      | Some ty => if snowflake then "(TYPE " +:+ ty +:+ ")" else "(TYPE " +:+ ty +:+ ", READ_ONLY)"
      | None => "(READ_ONLY)"
      end.

(** The extension and type of an attached kind, and the connection string. *)
Definition attach_target (d : EngineSourceDef) (workspace_dir : string)
    : result string (option string * string) :=
  match es_kind d with
  | KPostgres => rmap (λ c, (Some "postgres", c)) (postgres_mysql_conn (es_config d))
  | KMysql => rmap (λ c, (Some "mysql", c)) (postgres_mysql_conn (es_config d))
  | KSnowflake => rmap (λ c, (Some "snowflake", c)) (snowflake_conn (es_config d))
  | KDuckdb => rmap (λ p, (None, resolve_local workspace_dir p)) (duckdb_file_path (es_config d))
  | k => Err ("register_attach called for " +:+ tick (SourceKind_as_str k))
  end.

Definition is_snowflake (k : SourceKind) : bool := match k with KSnowflake => true | _ => false end.

(** Snowflake's extension comes from the community repository. *)
Definition load_extension (d : EngineSourceDef) (ext : option string) : prog (result string ()) :=
  if is_snowflake (es_kind d) then
    do offline <- (ask Offline);
    ask (Execute (if offline then "LOAD snowflake;" else "INSTALL snowflake FROM community; LOAD snowflake;"))
  else match ext with
       | Some ext => ask (EnsureExtension ext)
       | None => Ret (Ok ())
       end.

Definition register_attach (d : EngineSourceDef) (workspace_dir : string) : prog (result string RegisterReport) :=
  match attach_target d workspace_dir with
  | Err e => Ret (Err e)
  | Ok (ty, conn) =>
      do? _ <- (load_extension d ty);
      do? _ <- (ask (Execute (attach_sql ty (is_snowflake (es_kind d)) conn (es_name d))));
      attached_report (es_name d)
  end.

(** The loop over the declared tables; [relation_of] gives a table's relation. *)
Fixpoint register_tables (schema : string) (relation_of : EngineTableDef → result string string)
    (done : list TableSummary) (tables : list EngineTableDef) : prog (result string RegisterReport) :=
  match tables with
  | [] => Ret (Ok (report done))
  | t :: tables =>
      match relation_of t with
      | Err e => Ret (Err e)
      | Ok relation =>
          do? p <- (try_new_provider relation);
          do? _ <- (ask (RegisterTable schema (et_name t) p));
          register_tables schema relation_of (done ++ [plain_summary (et_name t) (et_description t)]) tables
      end
  end.

Definition missing_location (t : EngineTableDef) : string :=
  "table " +:+ tick (et_name t) +:+ " is missing `path`/`location`".

Definition scan_relation (ext workspace_dir : string) (t : EngineTableDef) : result string string :=
  let? loc := ok_or (missing_location t) (table_location (et_config t)) in
  Ok (ext +:+ "_scan(" +:+ quoted (resolve_local workspace_dir loc) +:+ ")").

Definition register_scan (d : EngineSourceDef) (workspace_dir : string) : prog (result string RegisterReport) :=
  match match es_kind d with KIceberg => Some "iceberg" | KDelta => Some "delta" | _ => None end with
  | None => Ret (Err ("register_scan called for " +:+ tick (SourceKind_as_str (es_kind d))))
  | Some ext =>
      do? _ <- (ask (EnsureExtension ext));
      do? _ <- (ensure_memory_schema (es_name d));
      register_tables (es_name d) (scan_relation ext workspace_dir) [] (es_tables d)
  end.

Section registration.
Context {SF : StorageFormats}.

(** The secrets of a source, one after the other. *)
Definition create_secrets (d : EngineSourceDef) : prog (result string ()) :=
  match build_secret_sql d with
  | Err e => Ret (Err e)
  | Ok sqls => execute_all sqls
  end.

Definition ducklake_attach_sql (d : EngineSourceDef) (workspace_dir catalog_uri : string) : string :=
  "ATTACH " +:+ quoted ("ducklake:" +:+ resolve_local workspace_dir catalog_uri) +:+ " AS " +:+ dq (es_name d) +:+ " "
  +:+ match get_str (es_config d) "data_path" with
      | Some dp => "(DATA_PATH " +:+ quoted (resolve_local workspace_dir dp) +:+ ", READ_ONLY)"
      | None => "(READ_ONLY)"
      end.

Definition register_ducklake (d : EngineSourceDef) (workspace_dir : string) : prog (result string RegisterReport) :=
  do? _ <- (ask (EnsureExtension "ducklake"));
  match get_str (es_config d) "catalog" with
  | None => Ret (Err "`kind: ducklake` requires `config.catalog`")
  | Some catalog_uri =>
      do? _ <- (match storage d with
                | Some _ => do? _ <- (ask (EnsureExtension "httpfs")); create_secrets d
                | None => Ret (Ok ())
                end);
      do? _ <- (ask (Execute (ducklake_attach_sql d workspace_dir catalog_uri)));
      attached_report (es_name d)
  end.

(** Plain HTTP has no directories to glob. *)
Definition object_relation (workspace_dir : string) (t : EngineTableDef) : result string string :=
  let? url := ok_or (missing_location t) (resolve_local workspace_dir <$> table_location (et_config t)) in
  let path_only := before_query url in
  if (match classify_scheme url with StHttp => true | _ => false end)
     && (contains_chr "*" path_only || contains_chr "[" path_only)
  then Err ("table " +:+ tick (et_name t) +:+ ": http(s) paths cannot be globbed; list each file as a table")
  else Ok (reader_for url (get_str (et_config t) "format") +:+ "(" +:+ quoted url +:+ ")").

Definition register_object_store (d : EngineSourceDef) (workspace_dir : string) : prog (result string RegisterReport) :=
  do? _ <- (ask (EnsureExtension "httpfs"));
  do? _ <- (create_secrets d);
  do? _ <- (ensure_memory_schema (es_name d));
  register_tables (es_name d) (object_relation workspace_dir) [] (es_tables d).

Definition register_duckdb_source (d : EngineSourceDef) (workspace_dir : string)
    : prog (result string RegisterReport) :=
  match es_kind d with
  | KPostgres | KMysql | KSnowflake | KDuckdb => register_attach d workspace_dir
  | KIceberg | KDelta => register_scan d workspace_dir
  | KDucklake => register_ducklake d workspace_dir
  | KFile => register_object_store d workspace_dir
  | k => Ret (Err ("register_duckdb_source called for unsupported kind " +:+ tick (SourceKind_as_str k)))
  end.
End registration.

(** ** Attached databases ([DuckDbSchemaProvider]) *)

(** The providers built so far. *)
Abbreviation ProviderCache := (gmap string DuckDbTableProvider).

Definition table_names (db_name : string) : prog (list string) :=
  do r <- (ask (FetchStrings ("SELECT table_name FROM information_schema.tables WHERE table_catalog = " +:+ quoted db_name)));
  Ret (match r with Ok names => names | Err _ => [] end).

(** [table]: the cached provider, or one built over the first schema that has the table. *)
Definition lookup_table (db_name name : string) (cache : ProviderCache)
    : prog (result string (option DuckDbTableProvider) * ProviderCache) :=
  match cache !! name with
  | Some p => Ret (Ok (Some p), cache)
  | None =>
      do r <- (ask (FetchStrings ("SELECT table_schema FROM information_schema.tables WHERE table_catalog = "
                                  +:+ quoted db_name +:+ " AND table_name = " +:+ quoted name +:+ " LIMIT 1")));
      match r with
      | Err e => Ret (Err e, cache)
      | Ok [] => Ret (Ok None, cache)
      | Ok (table_schema :: _) =>
          do p <- (try_new_provider (dq db_name +:+ "." +:+ dq table_schema +:+ "." +:+ dq name));
          Ret (match p with
               | Ok p => (Ok (Some p), <[name := p]> cache)
               | Err e => (Err e, cache)
               end)
      end
  end.

Definition table_exist (db_name name : string) (cache : ProviderCache) : prog bool :=
  if decide (is_Some (cache !! name)) then Ret true
  else do names <- (table_names db_name); Ret (bool_decide (name ∈ names)).

(** ** Sources behind DuckDB: credentials stay data, databases stay read-only, tables come in order *)

Open Scope prog_scope.

(** ** Texts with the same structure *)

(** Outside of quotes, or just behind a literal. *)
Definition outside (m : lexmode) : Prop := m = MCode ∨ m = MQuote.

(** Two texts that differ in the contents of literals only, and end outside of quotes. *)
Definition same_text (a b : string) : Prop :=
  lex MCode a = lex MCode b ∧ outside (lex MCode a).1.

Lemma same_refl a : outside (lex MCode a).1 → same_text a a.
Proof. done. Qed.

(** A separator between two texts. *)
Lemma same_sep sep a1 a2 b1 b2 :
  (∀ m, outside m → (lex m sep).1 = MCode) →
  same_text a1 a2 → same_text b1 b2 → same_text (a1 +:+ sep +:+ b1) (a2 +:+ sep +:+ b2).
Proof.
  intros Hsep [Ha Hm] [Hb Hn]. unfold same_text. rewrite !lex_app, <-Ha.
  destruct (lex MCode a1) as [m e]; cbn [fst] in *. rewrite !lex_app. pose proof (Hsep m Hm) as Hs.
  destruct (lex m sep) as [m' e']; simpl in Hs; subst m'. rewrite <-Hb.
  by destruct (lex MCode b1).
Qed.

(** After code. *)
Lemma same_after a b1 b2 :
  (lex MCode a).1 = MCode → same_text b1 b2 → same_text (a +:+ b1) (a +:+ b2).
Proof.
  intros Ha [Hb Hn]. unfold same_text. rewrite !lex_app. destruct (lex MCode a) as [m e]; simpl in Ha; subst m.
  rewrite <-Hb. by destruct (lex MCode b1).
Qed.

Lemma same_quoted v1 v2 : same_text (quoted v1) (quoted v2).
Proof.
  unfold same_text. change quoted with lit. rewrite !lex_lit. split; [done|by right].
Qed.

Lemma comma_code m : outside m → (lex m ", ").1 = MCode.
Proof. by intros [-> | ->]. Qed.

Lemma same_join sep l1 l2 :
  (∀ m, outside m → (lex m sep).1 = MCode) →
  Forall2 same_text l1 l2 → same_text (join sep l1) (join sep l2).
Proof.
  intros Hsep Hl. unfold join. induction Hl as [|a b l1 l2 Hab Hl IH]; [by split; [|left]|].
  destruct Hl as [|a' b' l1 l2 Hab' Hl]; [done|].
  change (same_text (a +:+ sep +:+ String.concat sep (a' :: l1)) (b +:+ sep +:+ String.concat sep (b' :: l2))).
  by apply same_sep.
Qed.

(** A doubled quote leaves a quoted identifier as it was. *)
Lemma lex_ident_escaped s :
  (lex MIdent (replace s (chr dquote) (chr dquote +:+ chr dquote))).1 = MIdent.
Proof.
  induction s as [|a s IH]; [done|]. rewrite replace_chr_cons, lex_app. case_decide.
  - simpl. by destruct (lex MIdent _).
  - simpl. rewrite decide_False by done. by destruct (lex MIdent _).
Qed.

Definition plain_char (c : ascii) : bool := negb (bool_decide (c = squote)) && negb (bool_decide (c = dquote)).

Lemma lex_ident_plain f s : (∀ c, plain_char (f c) = true) → (lex MIdent (map_chars f s)).1 = MIdent.
Proof.
  intros Hf. induction s as [|a s IH]; [done|]. cbn [map_chars lex]. specialize (Hf a).
  apply andb_true_iff in Hf as [_ Hd%negb_true_iff%bool_decide_eq_false].
  cbn [lex_step]. rewrite decide_False by done. by destruct (lex MIdent _).
Qed.

(** ** Secrets *)

Lemma is_alnum_plain c : plain_char (if is_alnum c then c else "_"%char) = true.
Proof. by destruct c as [[] [] [] [] [] [] [] []]. Qed.

(** The name of a secret, as a quoted identifier, starts and ends in code. *)
Lemma lex_secret_name name suffix :
  (lex MIdent suffix).1 = MIdent →
  (lex MCode (dq (replace name (chr dquote) (chr dquote +:+ chr dquote) +:+ suffix))).1 = MCode.
Proof.
  intros Hs. unfold dq. rewrite lex_app. change (lex MCode (chr dquote)) with (MIdent, chr dquote).
  cbv beta iota. rewrite !lex_app. pose proof (lex_ident_escaped name) as Hn.
  destruct (lex MIdent (replace _ _ _)) as [m e]; simpl in Hn; subst m.
  destruct (lex MIdent suffix) as [m e']; simpl in Hs; by subst m.
Qed.

Lemma lex_code_app a b : (lex MCode a).1 = MCode → (lex MCode (a +:+ b)).1 = (lex MCode b).1.
Proof. rewrite lex_app. destruct (lex MCode a) as [m e]; simpl; intros ->. by destruct (lex MCode b). Qed.

(** A statement that is closed, and the same but for its literals. *)
Definition same_stmt (a b : string) : Prop := lex MCode a = lex MCode b ∧ (lex MCode a).1 = MCode.

Lemma same_closed a b : same_text a b → same_stmt (a +:+ ")") (b +:+ ")").
Proof.
  intros [Hab Ha]. unfold same_stmt. rewrite !lex_app, <-Hab.
  destruct (lex MCode a) as [m e]; cbn [fst] in Ha. by destruct Ha as [-> | ->].
Qed.

Lemma same_stmt_after a b1 b2 :
  (lex MCode a).1 = MCode → same_stmt b1 b2 → same_stmt (a +:+ b1) (a +:+ b2).
Proof.
  intros Ha [Hb Hm]. unfold same_stmt. rewrite lex_code_app by done. split; [|done].
  rewrite !lex_app. destruct (lex MCode a) as [m e]; simpl in Ha; subst m. by rewrite <-Hb.
Qed.

Lemma sanitized_ident origin : (lex MIdent (sanitize_authority origin)).1 = MIdent.
Proof. apply (lex_ident_plain (λ c, if is_alnum c then c else "_"%char)), is_alnum_plain. Qed.

Lemma same_scoped d1 d2 provider inner1 inner2 :
  es_name d1 = es_name d2 → secret_origins d1 provider = secret_origins d2 provider →
  same_text inner1 inner2 →
  Forall2 same_stmt (scoped_secrets d1 provider inner1) (scoped_secrets d2 provider inner2).
Proof.
  intros Hn Ho Hi. unfold scoped_secrets. rewrite <-Hn, <-Ho. destruct (secret_origins d1 provider) as [|o os].
  - constructor; [|done]. apply same_stmt_after; [done|].
    rewrite <-(app_nil_r' (replace _ _ _)). apply same_stmt_after; [by apply lex_secret_name|].
    apply same_stmt_after; [done|]. by apply same_closed.
  - apply Forall2_fmap, Forall_Forall2_diag, Forall_true. intros origin; simpl.
    apply same_stmt_after; [done|]. apply same_stmt_after.
    { apply lex_secret_name. pose proof (sanitized_ident origin) as Hs. rewrite lex_app.
      change (lex MIdent "__") with (MIdent, "__"). cbv beta iota.
      by destruct (lex MIdent (sanitize_authority origin)). }
    apply same_stmt_after; [done|].
    assert (∀ i, i +:+ ", SCOPE " +:+ quoted origin +:+ ")" = (i +:+ ", SCOPE " +:+ quoted origin) +:+ ")") as Hr
      by (intros i; by rewrite !app_assoc').
    rewrite !Hr. apply same_closed, (same_sep ", SCOPE "); [|done|apply same_quoted].
    by intros m [-> | ->].
Qed.

(** A parameter is given on both sides or on neither. *)
Definition same_param (a b : string * option string) : Prop := a.1 = b.1 ∧ is_some a.2 = is_some b.2.

(** Keys are code, and a provider is no credential. *)
Definition good_param (kv : string * option string) : Prop :=
  (lex MCode (kv.1 +:+ " ")).1 = MCode ∧ (kv.1 = "PROVIDER" → kv.2 = Some "credential_chain").

Lemma secret_pairs_good storage provider : Forall good_param (secret_pairs storage provider).
Proof.
  unfold secret_pairs. case_match; [|case_match; [|case_match]]; repeat constructor; done.
Qed.

Lemma same_secret_param a b :
  same_param a b → good_param a → good_param b → Forall2 same_text (secret_param a) (secret_param b).
Proof.
  destruct a as [k v1], b as [k' v2]. intros [Hk Hv] [Hc H1] [_ H2]. cbn [fst snd] in *. subst k'.
  unfold secret_param; cbn [fst snd]. destruct v1 as [v1|], v2 as [v2|]; try done.
  case_decide as Hp; constructor; [|constructor| |constructor].
  - specialize (H1 Hp). specialize (H2 Hp). simplify_eq. apply same_refl. by left.
  - rewrite <-!(app_assoc' k " "). apply same_after; [done|apply same_quoted].
Qed.

Lemma same_params l1 l2 :
  Forall2 same_param l1 l2 → Forall good_param l1 → Forall good_param l2 →
  Forall2 same_text (l1 ≫= secret_param) (l2 ≫= secret_param).
Proof.
  induction 1 as [|a b l1 l2 Hab Hl IH]; intros H1 H2; [done|].
  inversion H1; inversion H2; subst. cbn [mbind list_bind]. apply Forall2_app; [by apply same_secret_param|].
  by apply IH.
Qed.

(** The same credentials but for their texts. *)
Definition same_http (a b : result string (option string * list (string * string))) : Prop :=
  match a, b with
  | Ok (b1, h1), Ok (b2, h2) => is_some b1 = is_some b2 ∧ length h1 = length h2
  | Err _, Err _ => True
  | _, _ => False
  end.

Lemma same_header kv1 kv2 :
  same_text (quoted kv1.1 +:+ ": " +:+ quoted kv1.2) (quoted kv2.1 +:+ ": " +:+ quoted kv2.2).
Proof. apply same_sep; [by intros m [-> | ->]|apply same_quoted..]. Qed.

Lemma same_http_params b1 b2 h1 h2 :
  is_some b1 = is_some b2 → length h1 = length h2 →
  Forall2 same_text (http_secret_params b1 h1) (http_secret_params b2 h2).
Proof.
  intros Hb Hh. unfold http_secret_params. apply Forall2_app.
  - destruct b1, b2; try done. constructor; [|done]. apply same_after; [done|apply same_quoted].
  - assert (Forall2 same_text ((λ kv, quoted kv.1 +:+ ": " +:+ quoted kv.2) <$> h1)
                              ((λ kv, quoted kv.1 +:+ ": " +:+ quoted kv.2) <$> h2)) as Hl.
    { apply Forall2_fmap, Forall2_same_length_lookup. split; [done|]. intros; apply same_header. }
    destruct h1, h2; try done. constructor; [|done].
    apply same_after; [done|]. rewrite <-(app_nil_r' " }").
    apply (same_sep " }"); [by intros m [-> | ->]| |by split; [|left]].
    apply same_join; [apply comma_code|done].
Qed.

(** Two sources that differ in what their credentials say, not in which are given. *)
Record alike `{!StorageFormats} (d1 d2 : EngineSourceDef) : Prop := {
  al_name : es_name d1 = es_name d2;
  al_locations : table_location <$> configs d1 = table_location <$> configs d2;
  al_type : effective_storage_type d1 = effective_storage_type d2;
  al_params : match storage d1, storage d2 with
              | Some s1, Some s2 => ∀ provider, Forall2 same_param (secret_pairs s1 provider) (secret_pairs s2 provider)
              | None, None => True
              | _, _ => False
              end;
  al_http : same_http (http_auth d1) (http_auth d2)
}.

Lemma origins_of_locations d1 d2 provider :
  table_location <$> configs d1 = table_location <$> configs d2 →
  secret_origins d1 provider = secret_origins d2 provider.
Proof.
  unfold secret_origins. generalize (@nil string) as out.
  generalize (configs d2) as l2. induction (configs d1) as [|c1 l1 IH]; intros [|c2 l2] out H; [done..|].
  cbn [fmap list_fmap] in H. injection H as Hc Hl. cbn [foldl]. rewrite (IH l2) by done. f_equal.
  unfold push_origin. by rewrite Hc.
Qed.

Section credentials.
Context {SF : StorageFormats}.

(** Secrets of two lists of parameters. *)
Lemma same_secrets d1 d2 provider ty ps1 ps2 :
  alike d1 d2 → outside (lex MCode ty).1 → Forall2 same_text ps1 ps2 →
  Forall2 same_stmt
    match ps1 with [] => [] | _ => scoped_secrets d1 provider (join ", " (ty :: ps1)) end
    match ps2 with [] => [] | _ => scoped_secrets d2 provider (join ", " (ty :: ps2)) end.
Proof.
  intros [Hn Hl _ _ _] Hty Hps. inversion Hps; subst; [done|].
  apply same_scoped; [done|by apply origins_of_locations|].
  apply same_join; [apply comma_code|]. constructor; [by apply same_refl|]. by constructor.
Qed.

(** C27: what a source's credentials say cannot change a statement sent to DuckDB for them: the
    secrets of two sources that differ only in the texts of their keys, tokens, passwords and headers
    (whatever quotes those hold) are, one by one, the same SQL but for the contents of string
    literals, and each is complete, with no quote left open; one has no statements because of a
    mistake exactly if the other has. *)
Theorem credentials_are_data d1 d2 :
  alike d1 d2 →
  match build_secret_sql d1, build_secret_sql d2 with
  | Ok l1, Ok l2 => Forall2 same_stmt l1 l2
  | Err _, Err _ => True
  | _, _ => False
  end.
Proof.
  intros Ha. pose proof Ha as [Hn Hl Ht Hp Hh]. unfold build_secret_sql. rewrite <-Ht.
  destruct (effective_storage_type d1) as [provider|]; [|done]. case_decide as Ehttp.
  - unfold build_http_secret_sql. destruct (http_auth d1) as [[b1 h1]|], (http_auth d2) as [[b2 h2]|]; try done.
    destruct Hh as [Hb Hh]. cbn [rbind fst snd]. pose proof (same_http_params b1 b2 h1 h2 Hb Hh) as Hps.
    pose proof (same_secrets d1 d2 "http" "TYPE http" _ _ Ha (or_introl eq_refl) Hps) as Hs.
    destruct (http_secret_params b1 h1), (http_secret_params b2 h2); try by inversion Hps.
  - case_bool_decide as Hprov; [|done]. unfold build_object_store_secret_sql.
    destruct (storage d1) as [s1|], (storage d2) as [s2|]; try done.
    assert ((lex MCode ("TYPE " +:+ provider)).1 = MCode) as Hty by set_solver.
    pose proof (same_params _ _ (Hp provider) (secret_pairs_good s1 _) (secret_pairs_good s2 _)) as Hps.
    pose proof (same_secrets d1 d2 provider _ _ _ Ha (or_introl Hty) Hps) as Hs.
    by destruct (secret_pairs s1 provider ≫= _), (secret_pairs s2 provider ≫= _).
Qed.
End credentials.

(** ** What registering asks for *)

(** A statement as code, contents of string literals and quoted identifiers, each followed by code
    ([None] if a quote is left open). *)
Inductive Segment := SCode (s : string) | SLit (s : string) | SIdent (s : string).
Inductive segmode := InCode | InLit | InIdent.

Fixpoint segments_from (m : segmode) (acc s : string) : option (list Segment) :=
  match s with
  | "" => match m with InCode => Some [SCode acc] | _ => None end
  | String c s' =>
      match m with
      | InCode =>
          if decide (c = squote) then cons (SCode acc) <$> segments_from InLit "" s'
          else if decide (c = dquote) then cons (SCode acc) <$> segments_from InIdent "" s'
          else segments_from InCode (acc +:+ chr c) s'
      | InLit =>
          if decide (c = squote) then
            match s' with
            | String c' s'' => if decide (c' = squote) then segments_from InLit (acc +:+ chr squote) s''
                               else cons (SLit acc) <$> segments_from InCode "" s'
            | "" => cons (SLit acc) <$> segments_from InCode "" s'
            end
          else segments_from InLit (acc +:+ chr c) s'
      | InIdent =>
          if decide (c = dquote) then
            match s' with
            | String c' s'' => if decide (c' = dquote) then segments_from InIdent (acc +:+ chr dquote) s''
                               else cons (SIdent acc) <$> segments_from InCode "" s'
            | "" => cons (SIdent acc) <$> segments_from InCode "" s'
            end
          else segments_from InIdent (acc +:+ chr c) s'
      end
  end.

Definition segments (sql : string) : option (list Segment) := segments_from InCode "" sql.

(** No quote of a literal, of an identifier. *)
Definition no_squote (s : string) : bool := all_chars (λ c, negb (bool_decide (c = squote))) s.
Definition no_dquote (s : string) : bool := all_chars (λ c, negb (bool_decide (c = dquote))) s.

Definition starts_code (s : string) : bool :=
  match s with "" => true | String c _ => negb (bool_decide (c = squote)) && negb (bool_decide (c = dquote)) end.

Lemma chr_app c s : chr c +:+ s = String c s.
Proof. done. Qed.

Lemma segments_code acc a s :
  no_squote a = true → no_dquote a = true →
  segments_from InCode acc (a +:+ s) = segments_from InCode (acc +:+ a) s.
Proof.
  revert acc. induction a as [|c a IH]; intros acc; [by rewrite app_nil_r'|].
  unfold no_squote, no_dquote. rewrite app_cons'. cbn [all_chars segments_from].
  intros [Hs%negb_true_iff%bool_decide_eq_false Ha]%andb_true_iff
         [Hd%negb_true_iff%bool_decide_eq_false Hb]%andb_true_iff.
  rewrite decide_False, decide_False by done. rewrite IH by done. by rewrite app_assoc'.
Qed.

(** The rest of a literal, of an identifier. *)
Lemma segments_in_lit acc v s :
  starts_code s = true →
  segments_from InLit acc (sql_quote v +:+ chr squote +:+ s) = cons (SLit (acc +:+ v)) <$> segments_from InCode "" s.
Proof.
  intros Hs. unfold sql_quote. revert acc. induction v as [|c v IH]; intros acc.
  - rewrite app_nil_r', app_nil_l', chr_app. cbn [segments_from]. rewrite decide_True by done.
    destruct s as [|c s]; [done|].
    apply andb_true_iff in Hs as [Hc%negb_true_iff%bool_decide_eq_false _]. by rewrite decide_False by done.
  - rewrite replace_chr_cons, app_assoc'. case_decide as Hc; [subst c; rewrite app_assoc', chr_app|];
      rewrite chr_app; cbn [segments_from].
    + rewrite !decide_True by done. rewrite IH. by rewrite app_assoc'.
    + rewrite decide_False by done. rewrite IH. by rewrite app_assoc'.
Qed.

Lemma segments_in_ident acc name s :
  no_dquote name = true → starts_code s = true →
  segments_from InIdent acc (name +:+ chr dquote +:+ s) = cons (SIdent (acc +:+ name)) <$> segments_from InCode "" s.
Proof.
  intros Hn Hs. unfold no_dquote in Hn. revert acc. induction name as [|c name IH]; intros acc.
  - rewrite app_nil_r', app_nil_l', chr_app. cbn [segments_from]. rewrite decide_True by done.
    destruct s as [|c s]; [done|].
    apply andb_true_iff in Hs as [_ Hc%negb_true_iff%bool_decide_eq_false]. by rewrite decide_False by done.
  - cbn [all_chars] in Hn. apply andb_true_iff in Hn as [Hc%negb_true_iff%bool_decide_eq_false Hn].
    rewrite app_cons'. cbn [segments_from]. rewrite decide_False by done. rewrite IH by done.
    by rewrite app_assoc'.
Qed.

Lemma segments_lit acc v s :
  starts_code s = true →
  segments_from InCode acc (quoted v +:+ s) = (λ l, SCode acc :: SLit v :: l) <$> segments_from InCode "" s.
Proof.
  intros Hs. unfold quoted. rewrite !app_assoc', chr_app. cbn [segments_from]. rewrite decide_True by done.
  rewrite segments_in_lit, app_nil_l' by done. by destruct (segments_from InCode "" s).
Qed.

Lemma segments_ident acc name s :
  no_dquote name = true → starts_code s = true →
  segments_from InCode acc (dq name +:+ s) = (λ l, SCode acc :: SIdent name :: l) <$> segments_from InCode "" s.
Proof.
  intros Hn Hs. unfold dq. rewrite !app_assoc', chr_app. cbn [segments_from].
  rewrite decide_False, decide_True by done.
  rewrite segments_in_ident, app_nil_l' by done. by destruct (segments_from InCode "" s).
Qed.

(** The statement of some segments. *)
Definition render_segment (x : Segment) : string :=
  match x with SCode s => s | SLit v => quoted v | SIdent n => dq n end.

Fixpoint render (l : list Segment) : string :=
  match l with [] => "" | x :: l => render_segment x +:+ render l end.

Definition segment_ok (x : Segment) : bool :=
  match x with SCode s => no_squote s && no_dquote s | SLit _ => true | SIdent n => no_dquote n end.

(** Code stands between quoted things, and at both ends. *)
Fixpoint alternates (l : list Segment) : bool :=
  match l with
  | [SCode _] => true
  | SCode _ :: (SLit _ | SIdent _) :: ((SCode s :: _) as l) => negb (bool_decide (s = "")) && alternates l
  | _ => false
  end.

Lemma render_starts s l :
  s ≠ "" → segment_ok (SCode s) = true → starts_code (render (SCode s :: l)) = true.
Proof.
  intros Hs Hok. destruct s as [|c s]; [done|]. cbn [render render_segment]. rewrite app_cons'.
  unfold segment_ok, no_squote, no_dquote in Hok. cbn [all_chars] in Hok. simpl.
  apply andb_true_iff in Hok as [[H1 _]%andb_true_iff [H2 _]%andb_true_iff]. by rewrite H1, H2.
Qed.

Lemma segments_render l :
  forallb segment_ok l = true → alternates l = true → segments (render l) = Some l.
Proof.
  unfold segments. remember (length l) as n eqn:Hn. revert l Hn.
  induction n as [n IH] using lt_wf_ind. intros l -> Hok Ha.
  destruct l as [|[c|?|?] l]; [done| |done..]. cbn [forallb] in Hok.
  apply andb_true_iff in Hok as [[Hs Hd]%andb_true_iff Hok].
  cbn [render render_segment]. rewrite segments_code by done. rewrite app_nil_l'.
  destruct l as [|x l]; [done|]. cbn [forallb] in Hok. apply andb_true_iff in Hok as [Hx Hok].
  destruct x as [c'|v|n']; [done|..].
  all: destruct l as [|[c''|?|?] l]; try done; cbn [alternates] in Ha;
    apply andb_true_iff in Ha as [Hne%negb_true_iff%bool_decide_eq_false Ha];
    pose proof Hok as Hok'; cbn [forallb] in Hok'; apply andb_true_iff in Hok' as [Hc'' _];
    pose proof (render_starts c'' l Hne Hc'') as Hstart;
    pose proof (IH (length (SCode c'' :: l)) ltac:(simpl; lia) (SCode c'' :: l) eq_refl Hok Ha) as Hl;
    revert Hstart Hl; generalize (SCode c'' :: l); intros rest Hstart Hl; cbn [render render_segment].
  - by rewrite segments_lit, Hl.
  - by rewrite segments_ident, Hl.
Qed.

(** [sql] has these segments. *)
Lemma segments_of sql l :
  sql = render l → forallb segment_ok l = true → alternates l = true → segments sql = Some l.
Proof. intros ->. apply segments_render. Qed.

Section registering.
Context {SF : StorageFormats} (d : EngineSourceDef) (workspace_dir : string).

(** The options of an attachment: read-only, but for Snowflake, which does not know the option. *)
Definition attach_options : string :=
  match es_kind d with
  | KPostgres => " (TYPE postgres, READ_ONLY)"
  | KMysql => " (TYPE mysql, READ_ONLY)"
  | KSnowflake => " (TYPE snowflake)"
  | _ => " (READ_ONLY)"
  end.

(** The attachment of a target under the name of the source. *)
Definition attachment (target : string) (options : list Segment) : list Segment :=
  [SCode "ATTACH "; SLit target; SCode " AS "; SIdent (es_name d)] ++ options.

Definition lake_options : list Segment :=
  match get_str (es_config d) "data_path" with
  | Some dp => [SCode " (DATA_PATH "; SLit (resolve_local workspace_dir dp); SCode ", READ_ONLY)"]
  | None => [SCode " (READ_ONLY)"]
  end.

(** A statement registering the source may run: one of its secrets, the loading of the extension
    of Snowflake, and the attachment of the database or the catalog configured. *)
Inductive permitted : string → Prop :=
| P_secret sqls sql : build_secret_sql d = Ok sqls → sql ∈ sqls → permitted sql
| P_snowflake sql :
    es_kind d = KSnowflake →
    sql ∈ ["LOAD snowflake;"; "INSTALL snowflake FROM community; LOAD snowflake;"] → permitted sql
| P_attach ty target sql :
    attach_target d workspace_dir = Ok (ty, target) →
    segments sql = Some (attachment target [SCode attach_options]) → permitted sql
| P_lake uri sql :
    es_kind d = KDucklake → get_str (es_config d) "catalog" = Some uri →
    segments sql = Some (attachment ("ducklake:" +:+ resolve_local workspace_dir uri) lake_options) →
    permitted sql.

(** A probe of a declared table, and the listing of an attached database. *)
Definition probe (sql : string) : Prop :=
  ∃ reader t loc, reader ∈ ["iceberg_scan"; "delta_scan"; "read_csv"; "read_json"; "read_parquet"] ∧
    t ∈ es_tables d ∧ table_location (et_config t) = Some loc ∧
    segments sql = Some [SCode ("SELECT * FROM " +:+ reader +:+ "(");
                         SLit (resolve_local workspace_dir loc); SCode ") WHERE 1=0"].

Definition listing (sql : string) : Prop :=
  segments sql = Some [SCode "SELECT DISTINCT table_name FROM information_schema.tables WHERE table_catalog = ";
                       SLit (es_name d); SCode " ORDER BY table_name"].

Definition op_permitted (op : DuckOp) : Prop :=
  match op with
  | Execute sql => permitted sql
  | EnsureExtension ext => ext ∈ ["postgres"; "mysql"; "iceberg"; "delta"; "ducklake"; "httpfs"]
  | FetchStrings sql => listing sql
  | FetchSchema sql => probe sql
  | HasSchema name | RegisterSchema name | RegisterTable name _ _ => name = es_name d
  | Offline => True
  end.

(** A statement that is written as its segments. *)
Ltac written := cbn [render render_segment]; rewrite ?app_assoc', ?app_nil_r'; done.

Lemma asks_ask op : op_permitted op → asks op_permitted (ask op).
Proof. done. Qed.

Lemma asks_attached : asks op_permitted (attached_report (es_name d)).
Proof.
  apply asks_try; [by apply asks_ask|intros _]. apply asks_bind; [|done].
  apply asks_bind; [|done]. apply asks_ask. cbn [op_permitted].
  apply segments_of; [written|done..].
Qed.

Lemma asks_memory_schema : asks op_permitted (ensure_memory_schema (es_name d)).
Proof. apply asks_bind; [by apply asks_ask|]. intros [|]; [done|by apply asks_ask]. Qed.

Definition probes (relation_of : EngineTableDef → result string string) : Prop :=
  ∀ t relation, t ∈ es_tables d → relation_of t = Ok relation →
    probe ("SELECT * FROM " +:+ relation +:+ " WHERE 1=0").

Lemma probe_relation reader t loc :
  reader ∈ ["iceberg_scan"; "delta_scan"; "read_csv"; "read_json"; "read_parquet"] → t ∈ es_tables d →
  table_location (et_config t) = Some loc →
  probe ("SELECT * FROM " +:+ (reader +:+ "(" +:+ quoted (resolve_local workspace_dir loc) +:+ ")") +:+ " WHERE 1=0").
Proof.
  intros Hr Ht Hl. exists reader, t, loc. split_and!; [done..|]. apply segments_of; [written| |done].
  repeat (apply elem_of_cons in Hr as [->|Hr]; [done|]). by apply elem_of_nil in Hr.
Qed.

Lemma scan_probes ext : ext ∈ ["iceberg"; "delta"] → probes (scan_relation ext workspace_dir).
Proof.
  intros He t relation Ht. unfold scan_relation. destruct (table_location (et_config t)) as [loc|] eqn:Hl; [|done].
  intros [= <-]. pose proof (probe_relation (ext +:+ "_scan") t loc) as Hp. rewrite !app_assoc' in Hp.
  rewrite !app_assoc'. apply Hp; [|done..].
  repeat (apply elem_of_cons in He as [->|He]; [set_solver|]). by apply elem_of_nil in He.
Qed.

Lemma reader_known url fmt : reader_for url fmt ∈ ["iceberg_scan"; "delta_scan"; "read_csv"; "read_json"; "read_parquet"].
Proof. unfold reader_for. repeat case_match; set_solver. Qed.

Lemma object_probes : probes (object_relation workspace_dir).
Proof.
  intros t relation Ht. unfold object_relation. destruct (table_location (et_config t)) as [loc|] eqn:Hl; [|done].
  cbn [fmap option_fmap option_map ok_or rbind]. destruct (_ && _); [done|]. intros [= <-].
  by eapply probe_relation; [apply reader_known|..].
Qed.

Lemma asks_tables relation_of done_ tables :
  probes relation_of → tables ⊆ es_tables d →
  asks op_permitted (register_tables (es_name d) relation_of done_ tables).
Proof.
  intros Hp. revert done_. induction tables as [|t tables IH]; intros done_ Hsub; [done|]. cbn [register_tables].
  destruct (relation_of t) as [relation|] eqn:Hr; [|done]. apply asks_try.
  - apply asks_try; [|done]. apply asks_ask. apply (Hp t); [set_solver|done].
  - intros p. apply asks_try; [by apply asks_ask|]. intros _. apply IH. set_solver.
Qed.

Lemma asks_execute_all sqls : Forall permitted sqls → asks op_permitted (execute_all sqls).
Proof.
  induction 1 as [|sql sqls Hs _ IH]; [done|]. apply asks_try; [by apply asks_ask|done].
Qed.

Lemma asks_secrets : asks op_permitted (create_secrets d).
Proof.
  unfold create_secrets. destruct (build_secret_sql d) as [sqls|] eqn:E; [|done].
  apply asks_execute_all, Forall_forall. intros sql Hs. by eapply P_secret.
Qed.

Lemma attach_permitted ty conn :
  no_dquote (es_name d) = true →
  attach_target d workspace_dir = Ok (ty, conn) →
  permitted (attach_sql ty (is_snowflake (es_kind d)) conn (es_name d)).
Proof.
  intros name_plain Ht. eapply P_attach; [done|]. unfold attachment, attach_options, attach_sql, attach_target in *.
  destruct (es_kind d); try done; apply rmap_ok in Ht as (c & _ & [= -> ->]);
    (apply segments_of; [written|cbn; by rewrite name_plain|done]).
Qed.

Lemma ducklake_attach_permitted uri :
  no_dquote (es_name d) = true →
  es_kind d = KDucklake → get_str (es_config d) "catalog" = Some uri →
  permitted (ducklake_attach_sql d workspace_dir uri).
Proof.
  intros name_plain Hk Hu. eapply P_lake; [done..|]. unfold attachment, lake_options, ducklake_attach_sql.
  destruct (get_str (es_config d) "data_path") as [dp|];
    (apply segments_of; [written|cbn; by rewrite name_plain|done]).
Qed.

Lemma asks_attach :
  no_dquote (es_name d) = true → asks op_permitted (register_attach d workspace_dir).
Proof.
  intros Hname.
  unfold register_attach. destruct (attach_target d workspace_dir) as [[ty conn]|] eqn:Et; [|done].
  assert (is_snowflake (es_kind d) = true → ty = Some "snowflake") as Hsf.
  { unfold attach_target in Et. destruct (es_kind d); try done. intros _.
    destruct (snowflake_conn _); [|done]. simpl in Et. congruence. }
  assert (∀ ext, is_snowflake (es_kind d) = false → ty = Some ext → ext ∈ ["postgres"; "mysql"]) as Hext.
  { intros ext Hk ->. unfold attach_target in Et. destruct (es_kind d); try done;
      [destruct (postgres_mysql_conn _)..|destruct (duckdb_file_path _)]; try done; simpl in Et; simplify_eq; set_solver. }
  apply asks_try; [|intros _; apply asks_try; [apply asks_ask|intros _; apply asks_attached]]; cbn [op_permitted].
  - unfold load_extension. destruct (is_snowflake (es_kind d)) eqn:Ek.
    + apply asks_bind; [by apply asks_ask|]. intros offline. apply asks_ask. apply P_snowflake.
      * by destruct (es_kind d).
      * destruct offline; set_solver.
    + destruct ty as [ext|]; [|done]. apply asks_ask. specialize (Hext ext eq_refl eq_refl).
      cbn [op_permitted]. set_solver.
  - by apply attach_permitted.
Qed.

(** C29: whatever DuckDB and the catalog answer, registering a source whose name holds no double
    quote runs no statements but the source's secrets, the loading of Snowflake's extension for a
    Snowflake source, and its attachment: split into code, string literals and quoted identifiers,
    that statement attaches the literal target which the configuration gives, under the source's
    own name, with exactly the options of its kind, [READ_ONLY] among them unless the source is
    Snowflake (which knows no such option), and for a lake the literal data path. Its other
    requests only load the extensions known here, probe the declared tables at their literal
    locations, list the tables of the source, or concern the source's own schema. *)
Theorem registration_is_read_only :
  no_dquote (es_name d) = true →
  always (register_duckdb_source d workspace_dir) [] (λ _ h, ∀ e, e ∈ h → op_permitted (projT1 e)).
Proof.
  intros Hname.
  eapply always_mono; [|apply (always_asks (op_permitted : @Op duck_signature → Prop))].
  { intros r h Hh e He. by destruct (Hh e He) as [?%elem_of_nil|]. }
  assert (asks op_permitted (register_scan d workspace_dir)) as Hscan.
  { unfold register_scan. destruct (es_kind d); try done; (apply asks_try; [apply asks_ask; set_solver|intros _]);
      (apply asks_try; [apply asks_memory_schema|intros _]);
      (apply asks_tables; [apply scan_probes; set_solver|done]). }
  unfold register_duckdb_source. destruct (es_kind d) eqn:Ek; try done; try by apply asks_attach.
  - apply asks_try; [apply asks_ask; set_solver|intros _].
    apply asks_try; [apply asks_secrets|intros _].
    apply asks_try; [apply asks_memory_schema|intros _; apply asks_tables; [apply object_probes|done]].
  - apply asks_try; [apply asks_ask; set_solver|intros _].
    destruct (get_str (es_config d) "catalog") as [uri|] eqn:Hu; [|done]. apply asks_try.
    { destruct (storage d); [|done]. apply asks_try; [apply asks_ask; set_solver|intros _; apply asks_secrets]. }
    intros _. apply asks_try; [by apply asks_ask, ducklake_attach_permitted|intros _; apply asks_attached].
Qed.
End registering.

(** ** Declared tables *)

(** The error of an answer that ends registering; a listing that fails is no tables. *)
Definition failed (e : @Event duck_signature) : option string :=
  match e with
  | existT op a =>
      match op return DuckAns op → option string with
      | Execute _ | EnsureExtension _ | RegisterSchema _ | RegisterTable _ _ _ =>
          λ a, match a with Err e => Some e | Ok _ => None end
      | FetchSchema _ => λ a, match a with Err e => Some e | Ok _ => None end
      | _ => λ _, None
      end a
  end.

Definition registration (e : @Event duck_signature) : option (string * DuckDbTableProvider) :=
  match e with
  | existT op a =>
      match op return DuckAns op → option (string * DuckDbTableProvider) with
      | RegisterTable _ name p => λ a, match a with Ok _ => Some (name, p) | Err _ => None end
      | _ => λ _, None
      end a
  end.

(** The tables a run has put into the catalog, in order. *)
Definition registered (h : list (@Event duck_signature)) : list (string * DuckDbTableProvider) := omap registration h.

(** Nothing has failed, or the last request has and nothing before it. *)
Definition clean (h : list (@Event duck_signature)) : Prop := Forall (λ e, failed e = None) h.
Definition stopped (msg : string) (h : list (@Event duck_signature)) : Prop :=
  ∃ h' e, h = h' ++ [e] ∧ clean h' ∧ failed e = Some msg.

Lemma clean_snoc h e : clean h → failed e = None → clean (h ++ [e]).
Proof. intros Hh He. apply Forall_app. by split; [|apply Forall_singleton]. Qed.

Lemma stopped_snoc msg h e : clean h → failed e = Some msg → stopped msg (h ++ [e]).
Proof. intros Hh He. by exists h, e. Qed.

Lemma registered_snoc h e : registered (h ++ [e]) = registered h ++ omap registration [e].
Proof. apply omap_app. Qed.

(** Programs that register no table, and end at the first failure; [D] are the mistakes in the
    definition they find. *)
Definition strict {A} (D : string → Prop) (p : prog (result string A)) : Prop :=
  ∀ h, clean h →
    always p h (λ r h', match r with
      | Ok (Ok _) => clean h' ∧ registered h' = registered h
      | Ok (Err msg) => registered h' = registered h ∧ (stopped msg h' ∨ clean h' ∧ D msg)
      | Err _ => False
      end).

Lemma strict_try {A B} D (m : prog (result string A)) (f : A → prog (result string B)) :
  strict D m → (∀ a, strict D (f a)) → strict D (ptry m f).
Proof.
  intros Hm Hf h Hh. apply always_try. eapply always_mono; [|exact (Hm h Hh)].
  intros [[a|e]|msg] h'; [|done|done]. intros [Hc Hr]. eapply always_mono; [|exact (Hf a h' Hc)].
  by rewrite Hr.
Qed.

Lemma strict_ok {A} D (a : A) : strict D (Ret (Ok a)).
Proof. intros h Hh. by split. Qed.

(** One request, and what it leaves. *)
Ltac request := unfold always; cbn [ask pbind ptry wp try_new_provider]; cbv beta.

Lemma strict_execute D sql : strict D (ask (Execute sql)).
Proof.
  intros h Hh [[]|e]; request; rewrite registered_snoc, app_nil_r.
  - split; [by apply clean_snoc|done].
  - split; [done|left]. by apply stopped_snoc.
Qed.

Lemma strict_extension D ext : strict D (ask (EnsureExtension ext)).
Proof.
  intros h Hh [[]|e]; request; rewrite registered_snoc, app_nil_r.
  - split; [by apply clean_snoc|done].
  - split; [done|left]. by apply stopped_snoc.
Qed.

Lemma strict_memory_schema D name : strict D (ensure_memory_schema name).
Proof.
  intros h Hh there. destruct there; request.
  - rewrite registered_snoc, app_nil_r. split; [by apply clean_snoc|done].
  - intros [[]|e]; request; rewrite !registered_snoc, !app_nil_r.
    + split; [by repeat apply clean_snoc|done].
    + split; [done|left]. apply stopped_snoc; [by apply clean_snoc|done].
Qed.

Lemma strict_execute_all D sqls : strict D (execute_all sqls).
Proof.
  induction sqls as [|sql sqls IH]; [apply strict_ok|]. apply strict_try; [apply strict_execute|done].
Qed.

Section declared.
Context {SF : StorageFormats} (d : EngineSourceDef) (workspace_dir : string).

(** The relation a declared table is a scan of. *)
Definition declared_relation (t : EngineTableDef) : result string string :=
  match es_kind d with
  | KIceberg => scan_relation "iceberg" workspace_dir t
  | KDelta => scan_relation "delta" workspace_dir t
  | _ => object_relation workspace_dir t
  end.

Definition declares (t : EngineTableDef) (np : string * DuckDbTableProvider) : Prop :=
  np.1 = et_name t ∧ declared_relation t = Ok (dp_relation np.2).

(** A run over the tables [tables] that starts with those of [first] registered. *)
Definition tables_outcome (first tables : list EngineTableDef)
    (r : result string (result string RegisterReport)) (h : list Event) : Prop :=
  match r with
  | Ok (Ok rep) =>
      rep = report ((λ t, plain_summary (et_name t) (et_description t)) <$> (first ++ tables)) ∧
      clean h ∧ Forall2 declares (first ++ tables) (registered h)
  | Ok (Err msg) =>
      ∃ ts rest, tables = ts ++ rest ∧ Forall2 declares (first ++ ts) (registered h) ∧
        (stopped msg h ∨
         clean h ∧ (build_secret_sql d = Err msg ∨ ∃ t, head rest = Some t ∧ declared_relation t = Err msg))
  | Err _ => False
  end.

Lemma tables_strict first tables h :
  clean h → Forall2 declares first (registered h) →
  always (register_tables (es_name d) declared_relation
            ((λ t, plain_summary (et_name t) (et_description t)) <$> first) tables) h
    (tables_outcome first tables).
Proof.
  revert first h. induction tables as [|t tables IH]; intros first h Hc Hf.
  { split; [by rewrite app_nil_r|]. by rewrite app_nil_r. }
  cbn [register_tables]. destruct (declared_relation t) as [relation|e] eqn:Er.
  2:{ exists [], (t :: tables). rewrite app_nil_r. split; [done|]. split; [done|]. right. eauto. }
  assert (∀ msg h', registered h' = registered h → stopped msg h' →
            tables_outcome first (t :: tables) (Ok (Err msg)) h') as Hstop.
  { intros msg h' Hr Hs. exists [], (t :: tables). rewrite app_nil_r, Hr. auto. }
  intros [fields|e]; request.
  2:{ apply Hstop; [by rewrite registered_snoc, app_nil_r|by apply stopped_snoc]. }
  intros [[]|e]; request.
  2:{ apply Hstop; [by rewrite !registered_snoc, !app_nil_r|]. apply stopped_snoc; [by apply clean_snoc|done]. }
  change [plain_summary (et_name t) (et_description t)]
    with ((λ t, plain_summary (et_name t) (et_description t)) <$> [t]).
  rewrite <-fmap_app.
  eapply always_mono; [|apply (IH (first ++ [t]))].
  - intros [[rep|msg]|msg] h'; unfold tables_outcome; rewrite <-?app_assoc; [done| |done].
    intros (ts & rest & -> & Hr & Hw). exists (t :: ts), rest. rewrite <-app_assoc in Hr. auto.
  - by repeat apply clean_snoc.
  - rewrite !registered_snoc, app_nil_r. apply Forall2_app; [done|]. by repeat constructor.
Qed.

Lemma secrets_strict : strict (λ msg, build_secret_sql d = Err msg) (create_secrets d).
Proof.
  unfold create_secrets. destruct (build_secret_sql d) as [sqls|e] eqn:E; [apply strict_execute_all|].
  intros h Hh. split; [done|by right].
Qed.

(** Runs with nothing registered so far. *)
Definition then_tables (p : prog (result string RegisterReport)) : Prop :=
  ∀ h, clean h → registered h = [] → always p h (tables_outcome [] (es_tables d)).

Lemma strict_then_tables {A} (m : prog (result string A)) p :
  strict (λ msg, build_secret_sql d = Err msg) m → then_tables p → then_tables (do? _ <- m; p).
Proof.
  intros Hm Hp h Hc Hr. apply always_try. eapply always_mono; [|exact (Hm h Hc)].
  intros [[a|e]|msg] h'; rewrite ?Hr; [| |done].
  - intros [Hc' Hr']. by apply Hp.
  - intros [Hr' Hs]. exists [], (es_tables d). rewrite Hr'. split; [done|]. split; [done|]. naive_solver.
Qed.

Lemma tables_then_tables :
  then_tables (register_tables (es_name d) declared_relation [] (es_tables d)).
Proof. intros h Hc Hr. apply (tables_strict [] (es_tables d)); [done|]. by rewrite Hr. Qed.

(** C28: in every run that registers a source with declared tables (a lakehouse or a remote file
    source) the tables enter the catalog in the order of their declaration, each a scan of the
    relation its path stands for, until the first failure: if registering succeeds,
    nothing has failed, every declared table is there and the report lists exactly them; if it
    does not, a first part of the declared tables is there, and the error is the answer to the last
    request, the only one that failed, or the mistake in the definition: in its credentials, or
    in the location of the table that would come next. *)
Theorem declared_tables_in_order :
  es_kind d = KIceberg ∨ es_kind d = KDelta ∨ es_kind d = KFile →
  always (register_duckdb_source d workspace_dir) [] (tables_outcome [] (es_tables d)).
Proof.
  intros Hk. pose proof tables_then_tables as Ht. unfold declared_relation in Ht.
  enough (then_tables (register_duckdb_source d workspace_dir)) as H by by apply H; [apply Forall_nil_2|].
  unfold register_duckdb_source, register_scan, register_object_store.
  destruct Hk as [Hk|[Hk|Hk]]; rewrite Hk in *; cbn beta iota; (apply strict_then_tables; [apply strict_extension|]).
  1,2: by apply strict_then_tables; [apply strict_memory_schema|].
  apply strict_then_tables; [apply secrets_strict|].
  by apply strict_then_tables; [apply strict_memory_schema|].
Qed.
End declared.

(** ** Examples *)

(** Headers in the order of their declaration; what is no such block is no authentication. *)
#[local] Instance demo_formats : StorageFormats := {|
  auth_from_json v :=
    match get v "headers" with
    | Some (JArray hs) =>
        Ok (Header ((λ h, {| ah_name := default "" (get h "name" ≫= as_str);
                             ah_bearer := get h "bearer" ≫= as_str;
                             ah_value := get h "value" ≫= as_str |}) <$> hs))
    | _ => match get v "query" with Some _ => Ok (Custom [] []) | None => Ok NoAuth end
    end;
  base64_encode := id
|}.

Definition demo_table (name path : string) : EngineTableDef :=
  {| et_name := name; et_description := None; et_wiki := None;
     et_config := JObject [("path", JString path)]; et_cache := None; et_safety := None |}.

Definition demo_source (kind : SourceKind) (config : Json) (tables : list EngineTableDef) : EngineSourceDef :=
  {| es_name := "lake"; es_kind := kind; es_description := None; es_wiki := None; es_examples := [];
     es_config := config; es_cache := PolicyNone; es_safety := None; es_tables := tables;
     es_raw_table := false; es_raw_table_safety := None |}.

Definition demo_s3 (key secret : string) (paths : list string) : EngineSourceDef :=
  demo_source KFile
    (JObject [("storage", JObject [("type", JString "s3"); ("region", JString "us-east-1");
        ("auth", JObject [("access_key_id", JString key); ("secret_access_key", JString secret)])])])
    (demo_table "t" <$> paths).

Example one_secret_per_bucket :
  build_secret_sql (demo_s3 "k" "s" ["s3://b1/a.parquet"; "s3://b2/b.parquet"; "s3://b1/c.parquet"]) =
  Ok ["CREATE OR REPLACE SECRET " +:+ dq "lake__b1" +:+ " (TYPE s3, KEY_ID 'k', SECRET 's', REGION 'us-east-1', SCOPE 's3://b1/')";
      "CREATE OR REPLACE SECRET " +:+ dq "lake__b2" +:+ " (TYPE s3, KEY_ID 'k', SECRET 's', REGION 'us-east-1', SCOPE 's3://b2/')"].
Proof. vm_compute. reflexivity. Qed.

(** Buckets whose names differ in punctuation only get secrets of one name: the second statement
    replaces the first. *)
Example colliding_buckets :
  build_secret_sql (demo_s3 "k" "s" ["s3://my-data/a.parquet"; "s3://my.data/b.parquet"]) =
  Ok ["CREATE OR REPLACE SECRET " +:+ dq "lake__my_data" +:+ " (TYPE s3, KEY_ID 'k', SECRET 's', REGION 'us-east-1', SCOPE 's3://my-data/')";
      "CREATE OR REPLACE SECRET " +:+ dq "lake__my_data" +:+ " (TYPE s3, KEY_ID 'k', SECRET 's', REGION 'us-east-1', SCOPE 's3://my.data/')"].
Proof. vm_compute. reflexivity. Qed.

Example header_secrets :
  build_secret_sql (demo_source KFile
    (JObject [("storage", JObject [("auth", JObject [("headers", JArray
       [JObject [("name", JString "authorization"); ("bearer", JString "tok")];
        JObject [("name", JString "X-K"); ("value", JString "a'b")]])])])])
    [demo_table "t" "https://api.example.com/d.csv"]) =
  Ok ["CREATE OR REPLACE SECRET " +:+ dq "lake__api_example_com"
      +:+ " (TYPE http, BEARER_TOKEN 'tok', EXTRA_HTTP_HEADERS MAP { 'X-K': 'a''b' }, SCOPE 'https://api.example.com/')"].
Proof. vm_compute. reflexivity. Qed.

Example scans :
  let p := {| dp_relation := "t"; dp_fields := ["id"; "name"] |} in
  build_sql p (Some [1]) [EqFilter (ColumnRef "id") (LiteralOf (Functions.Int64 (Some 2%Z)))] (Some 10%N) =
    "SELECT " +:+ dq "name" +:+ " FROM t WHERE " +:+ dq "id" +:+ " = 2 LIMIT 10" ∧
  build_sql p None [OtherFilter] None = "SELECT * FROM t" ∧ build_sql p (Some []) [] None = "SELECT 1 FROM t".
Proof. vm_compute. done. Qed.

Example readers :
  (λ u, reader_for u None) <$>
    ["https://h/a.CSV"; "https://h/a.jsonl.zst"; "https://h/a.parquet?sig=x"; "https://h/export?type=csv"]
  = ["read_csv"; "read_json"; "read_parquet"; "read_parquet"] ∧
  reader_for "https://h/a.csv" (Some "JSON") = "read_json".
Proof. vm_compute. done. Qed.

Example connections :
  postgres_mysql_conn (JObject [("host", JString "db.example.com"); ("port", JNumber (PosInt 5433));
    ("database", JString "analytics"); ("user", JString "ro"); ("password", JString "secret")]) =
    Ok "host=db.example.com port=5433 dbname=analytics user=ro password=secret" ∧
  is_ok (postgres_mysql_conn (JObject [("user", JString "ro")])) = false.
Proof. vm_compute. done. Qed.

Lemma credentials_are_data_witness :
  let d1 := demo_s3 "AKIA" "shh" ["s3://b/a.parquet"] in
  let d2 := demo_s3 "x'); DROP SECRET lake; --" "it''s" ["s3://b/a.parquet"] in
  match build_secret_sql d1, build_secret_sql d2 with
  | Ok l1, Ok l2 => Forall2 same_stmt l1 l2
  | Err _, Err _ => True
  | _, _ => False
  end.
Proof.
  intros d1 d2. apply credentials_are_data. split; [reflexivity..| |].
  - intros provider. unfold secret_pairs. rewrite bool_decide_eq_false_2 by (vm_compute; set_solver).
    do 2 (case_decide; [repeat constructor; reflexivity|]). repeat constructor; reflexivity.
  - vm_compute. split; reflexivity.
Defined.

Lemma declared_tables_in_order_witness :
  always (register_duckdb_source (demo_source KDelta (JObject []) [demo_table "t" "s3://b/t"]) "/w") []
    (tables_outcome (demo_source KDelta (JObject []) [demo_table "t" "s3://b/t"]) "/w" [] [demo_table "t" "s3://b/t"]).
Proof.
  apply (declared_tables_in_order (demo_source KDelta (JObject []) [demo_table "t" "s3://b/t"]) "/w").
  right. left. reflexivity.
Defined.

Definition demo_postgres : EngineSourceDef :=
  demo_source KPostgres (JObject [("dsn", JString "host=db'); DETACH x; --")]) [].

Lemma registration_is_read_only_witness :
  no_dquote (es_name demo_postgres) = true ∧
  always (register_duckdb_source demo_postgres "/w") []
    (λ _ h, ∀ e, e ∈ h → op_permitted demo_postgres "/w" (projT1 e)).
Proof.
  split; [reflexivity|]. apply (registration_is_read_only demo_postgres "/w"). reflexivity.
Defined.

(** A double quote in the name of a source ends the identifier, and what follows is code. *)
Example attach_name_unescaped :
  segments (attach_sql None false "/x" ("a" +:+ chr dquote +:+ "; ATTACH '/y' AS " +:+ chr dquote +:+ "b"))
  = Some [SCode "ATTACH "; SLit "/x"; SCode " AS "; SIdent "a"; SCode "; ATTACH "; SLit "/y"; SCode " AS "; SIdent "b";
          SCode " (READ_ONLY)"].
Proof. vm_compute. reflexivity. Qed.
