(* ===== verification/HttpRegister.v ===== *)
(** * Registering an HTTP source ([crates/pawrly-sources/http/src/register.rs], [function.rs])
    A source from its configuration: its base address, which a specification may name, its credentials,
    headers and limits, and its tables, synthesized and declared; as a program over files, the network and
    the catalog. Functions as tables that a call reads. Tracing is left out. *)

From S2P Require Export Prog Engine RawTable OpenApi.

Inductive HttpBuildError :=
| ConfigSource (table msg : string)
| ConfigFunction (namespace name msg : string)
| BadUrl (msg : string)
| SpecError (msg : string)
| DataFusion (msg : string).

Definition get_text (v : Json) (key : string) : option string := get v key ≫= as_str.

(** What is not code here: [serde]'s reading and writing of declarations, YAML, durations as texts, the
    root of a URL's origin, the hash of a text, public suffixes. *)
Class HttpForms := {
  auth_of_json : Json → option AuthSpec;
  table_of_json : Json → result string HttpTableSpec;
  json_of_table : HttpTableSpec → result string Json;
  yaml_of : string → result string Json;
  ttl_of_json : Json → option N;
  at_root : Url → Url;
  location_hash : string → N;
  public_suffix : string → option string
}.

(** A table is written as an object with its name, and read from one that has it. *)
Class HttpFormsLaws (hf : HttpForms) := {
  table_of_json_name v s : table_of_json v = Ok s → get v "name" = Some (JString (t_name s));
  json_of_table_name s v : json_of_table s = Ok v → get v "name" = Some (JString (t_name s))
}.

(** ** Parts of the configuration *)

Section parts.
Context {w : Web} {jt : JsonText} {hf : HttpForms}.

(** [map.entry(key).or_insert_with(value)]. *)
Definition entry_or_insert (key : string) (v : Json) (fields : list (string * Json)) : list (string * Json) :=
  match obj_get key fields with Some _ => fields | None => obj_insert key v fields end.

Definition with_description (t : EngineTableDef) (fields : list (string * Json)) : list (string * Json) :=
  match et_description t with
  | Some d => entry_or_insert "description" (JString d) fields
  | None => fields
  end.

Definition table_spec_from_def (t : EngineTableDef) : result HttpBuildError HttpTableSpec :=
  let fields := default [] (as_object (et_config t)) in
  let body := JObject (with_description t (obj_insert "name" (JString (et_name t)) fields)) in
  map_err (λ e, ConfigSource (et_name t) ("invalid http table `" +:+ et_name t +:+ "`: " +:+ e)) (table_of_json body).

Definition table_patch (t : EngineTableDef) : Json :=
  match et_config t with
  | JObject fields => JObject (with_description t (obj_remove "name" fields))
  | config => config
  end.

Definition merge_table_def (base : HttpTableSpec) (t : EngineTableDef) : result HttpBuildError HttpTableSpec :=
  let? value := map_err (λ e, ConfigSource (et_name t) ("serialize synthesized table `" +:+ et_name t +:+ "`: " +:+ e))
                  (json_of_table base) in
  map_err (λ e, ConfigSource (et_name t) ("invalid patch for table `" +:+ et_name t +:+ "`: " +:+ e))
    (table_of_json (deep_merge value (table_patch t))).

Definition parse_auth (config : Json) : AuthSpec :=
  match get_text config "token" with
  | Some token => bearer token
  | None =>
      match get config "auth" with
      | Some auth => default NoAuth (auth_of_json auth)
      | None => NoAuth
      end
  end.

Definition parse_allowed_hosts (config : Json) : list HostPattern :=
  match get config "allowed_hosts" ≫= as_array with
  | None => []
  | Some list =>
      omap (λ v, raw ← as_str v;
                 match HostPattern_parse public_suffix raw with Ok p => Some p | Err _ => None end) list
  end.

(** [HeaderMap::insert]: the value of a name is replaced. *)
Fixpoint header_insert (name value : string) (headers : list (string * string)) : list (string * string) :=
  match headers with
  | [] => [(name, value)]
  | (k, v) :: headers => if decide (k = name) then (k, value) :: headers else (k, v) :: header_insert name value headers
  end.

Definition parse_headers (config : Json) : list (string * string) :=
  match get config "headers" ≫= as_object with
  | None => []
  | Some map =>
      foldl (λ headers kv,
        match as_str kv.2 with
        | None => headers
        | Some val => match header_error kv.1 val with
                      | None => header_insert (to_ascii_lowercase kv.1) val headers
                      | Some _ => headers
                      end
        end) [] map
  end.

Definition u32_max : N := 4294967295.

(** [v as u32]. *)
Definition as_u32 (v : N) : N := (v mod (u32_max + 1))%N.

Definition parse_retry (config : Json) : RetryConfig :=
  match get config "retry" with
  | None => RetryConfig_default
  | Some r =>
      let number key := get r key ≫= as_u64 in
      {| max_retries := default (max_retries RetryConfig_default) (as_u32 <$> number "max_retries");
         base_backoff_ms := default (base_backoff_ms RetryConfig_default) (number "base_backoff_ms");
         max_backoff_ms := default (max_backoff_ms RetryConfig_default) (number "max_backoff_ms") |}
  end.

Definition parse_rate_limit (config : Json) : RateLimitPolicy :=
  match get config "rate_limit" with
  | None => RateLimitPolicy_default
  | Some rl =>
      {| limiter := match get rl "requests_per_second" ≫= as_u64 with
                    | Some rps => (0 <? rps)%N && (rps <=? u32_max)%N
                    | None => false
                    end;
         remaining_header := get_text rl "remaining_header";
         reset_header := get_text rl "reset_header";
         extra_statuses := match get rl "extra_statuses" ≫= as_array with
                           | Some arr => omap (λ v, n ← as_u64 v; if (n <=? u16_max)%N then Some n else None) arr
                           | None => []
                           end |}
  end.

(** A list of texts in a selector. *)
Definition selector_list (sel : Json) (field : string) : list string :=
  match get sel field ≫= as_array with Some a => omap as_str a | None => [] end.

Definition selector_of (block : option Json) (key : string) : Selector :=
  match b ← block; get b key with
  | None => {| sel_tags := []; sel_paths := []; sel_operations := [] |}
  | Some sel => {| sel_tags := selector_list sel "tags"; sel_paths := selector_list sel "paths";
                   sel_operations := selector_list sel "operations" |}
  end.

Definition openapi_options (config : Json) : SynthOptions :=
  let block := get config "openapi" in
  {| so_include := selector_of block "include"; so_exclude := selector_of block "exclude";
     so_naming := match b ← block; get_text b "naming" with
                  | Some n => if decide (n = "path") then ByPath else if decide (n = "tag") then ByTag else ByOperationId
                  | None => ByOperationId
                  end |}.

(** The first that can be read: the override, the server as it is or relative to the specification;
    without either the origin of the specification. *)
Definition effective_base (config : Json) (synth : Synthesis) (spec_location : string) : result HttpBuildError Url :=
  match b ← get config "openapi"; get_text b "base_url" with
  | Some over => map_err BadUrl (url_parse over)
  | None =>
      let named := match sy_base_url synth with
                   | Some server =>
                       match url_parse server with
                       | Ok u => Some u
                       | Err _ => match rbind (url_parse spec_location) (λ s, url_join s server) with
                                  | Ok u => Some u
                                  | Err _ => None
                                  end
                       end
                   | None => None
                   end in
      match named with
      | Some u => Ok u
      | None => rmap at_root (map_err BadUrl (url_parse spec_location))
      end
  end.

(** The source of a configuration at a base address; its client is not modelled. *)
Definition source_of (name : string) (config : Json) (base_url : Url) (dynamic : gmap string string) : HttpSource :=
  {| s_name := name; s_base_url := base_url; s_allowed_hosts := parse_allowed_hosts config;
     s_auth := parse_auth config; s_headers := parse_headers config; s_retry := parse_retry config;
     s_rate_limit := parse_rate_limit config; s_dynamic := dynamic |}.

Definition build_http_source (name : string) (config : Json) : result HttpBuildError HttpSource :=
  let base_url_str := match get_text config "base_url" with
                      | Some s => if nonempty (trim s) then s else "http://localhost/"
                      | None => "http://localhost/"
                      end in
  let? base_url := map_err BadUrl (url_parse base_url_str) in
  Ok (source_of name config base_url ∅).

(** ** Tables *)

(** A table with its limits of pages and rows. *)
Definition Slot : Type := HttpTableSpec * option N * option N.

Definition slot_name (s : Slot) : string := t_name s.1.1.

Definition opt_or {A} (a b : option A) : option A := match a with Some _ => a | None => b end.

Definition limits_of (d : EngineSourceDef) (t : EngineTableDef) : option N * option N :=
  (opt_or (et_safety t ≫= sp_max_pages) (es_safety d ≫= sp_max_pages),
   opt_or (et_safety t ≫= sp_max_rows) (es_safety d ≫= sp_max_rows)).

Definition source_slot (d : EngineSourceDef) (spec : HttpTableSpec) : Slot :=
  (spec, es_safety d ≫= sp_max_pages, es_safety d ≫= sp_max_rows).

(** One declared table: a patch of the table of its name, or a table of its own. *)
Definition declare_table (d : EngineSourceDef) (slots : list Slot) (t : EngineTableDef) : result HttpBuildError (list Slot) :=
  let with_limits spec := (spec, (limits_of d t).1, (limits_of d t).2) in
  match list_find (λ s, slot_name s = et_name t) slots with
  | Some (i, slot) => let? spec := merge_table_def slot.1.1 t in Ok (<[i := with_limits spec]> slots)
  | None => let? spec := table_spec_from_def t in Ok (slots ++ [with_limits spec])
  end.

Fixpoint declare_tables (d : EngineSourceDef) (slots : list Slot) (tables : list EngineTableDef)
    : result HttpBuildError (list Slot) :=
  match tables with
  | [] => Ok slots
  | t :: tables => let? slots := declare_table d slots t in declare_tables d slots tables
  end.

(** ** The program *)

(** A typed table or the raw one. *)
Inductive HttpProvider := Typed (p : HttpTableProvider) | RawHttp (s : HttpSource).

(** What registering asks: variables of the environment, the age of a file in nanoseconds, files,
    the specification from the network with its status, and the catalog. *)
Inductive RegOp :=
| EnvVar (name : string)
| FileAge (path : string)
| ReadFile (path : string)
| GetSpec (url : string)
| CreateDirs (path : string)
| WriteFile (path bytes : string)
| HasSchema (name : string)
| RegisterSchema (name : string)
| RegisterTable (schema name : string) (p : HttpProvider).

Definition RegAns (op : RegOp) : Type :=
  match op with
  | EnvVar _ => option string
  | FileAge _ => option N
  | ReadFile _ => result string string
  | GetSpec _ => result string (N * result string string)
  | HasSchema _ => bool
  | CreateDirs _ | WriteFile _ _ | RegisterSchema _ | RegisterTable _ _ _ => result string ()
  end.

#[export] Instance reg_signature : Signature := { Op := RegOp; Ans := RegAns }.

Definition ask (op : RegOp) : prog (RegAns op) := @Do reg_signature _ op Ret.

Open Scope prog_scope.

Record SpecCache := { sc_path : string; sc_ttl : N }.

Definition spec_cache_ttl (config : Json) : option N :=
  block ← get config "openapi"; cache ← get block "cache"; ttl_of_json cache.

(** [{:016x}]. *)
Fixpoint hex_digits (k : nat) (n : N) : string :=
  match k with
  | O => ""
  | S k => hex_digits k (n / 16) +:+ chr (Ascii.ascii_of_N (let x := (n mod 16)%N in if (x <? 10)%N then 48 + x else 87 + x))
  end.

Definition spec_dir (base : string) : string := path_join (path_join base "cache") "openapi".

Definition spec_cache_path (location : string) : prog (option string) :=
  let file base := path_join (spec_dir base) (hex_digits 16 (location_hash location) +:+ ".spec") in
  do home <- (ask (EnvVar "PAWRLY_HOME"));
  match home with
  | Some base => Ret (Some (file base))
  | None => do h <- (ask (EnvVar "HOME")); Ret ((λ h, file (path_join h ".pawrly")) <$> h)
  end.

Definition spec_cache (config : Json) (location : string) : prog (option SpecCache) :=
  if starts_with "file://" location then Ret None
  else match spec_cache_ttl config with
       | None => Ret None
       | Some ttl => do path <- (spec_cache_path location); Ret ((λ p, {| sc_path := p; sc_ttl := ttl |}) <$> path)
       end.

Definition read_if_fresh (cache : SpecCache) : prog (option string) :=
  do age <- (ask (FileAge (sc_path cache)));
  match age with
  | Some age =>
      if (age <=? sc_ttl cache)%N
      then do r <- (ask (ReadFile (sc_path cache))); Ret (match r with Ok bytes => Some bytes | Err _ => None end)
      else Ret None
  | None => Ret None
  end.

(** [Path::parent] of a file in a directory. *)
Definition parent (path : string) : string := join "/" (removelast (split "/" path)).

Definition write_cache (cache : SpecCache) (bytes : string) : prog () :=
  do made <- (ask (CreateDirs (parent (sc_path cache))));
  match made with
  | Err _ => Ret ()
  | Ok _ => do _ <- (ask (WriteFile (sc_path cache) bytes)); Ret ()
  end.

(** From the network, kept for the next time. *)
Definition download_spec (location : string) (cache : option SpecCache) : prog (result HttpBuildError string) :=
  do sent <- (ask (GetSpec location));
  match sent with
  | Err e => Ret (Err (SpecError ("fetch spec: " +:+ e)))
  | Ok (status, body) =>
      if negb (is_success status) then Ret (Err (SpecError ("fetch spec returned HTTP " +:+ show_status status)))
      else match body with
           | Err e => Ret (Err (SpecError ("read spec body: " +:+ e)))
           | Ok bytes =>
               do _ <- (match cache with Some c => write_cache c bytes | None => Ret () end);
               Ret (Ok bytes)
           end
  end.

Definition fetch_spec (location : string) (cache : option SpecCache) : prog (result HttpBuildError string) :=
  match strip_prefix "file://" location with
  | Some path =>
      do r <- (ask (ReadFile path));
      Ret (map_err (λ e, SpecError ("read spec `" +:+ path +:+ "`: " +:+ e)) r)
  | None =>
      do fresh <- (match cache with Some c => read_if_fresh c | None => Ret None end);
      match fresh with
      | Some bytes => Ret (Ok bytes)
      | None => download_spec location cache
      end
  end.

Definition ensure_schema (name : string) : prog (result HttpBuildError ()) :=
  do there <- (ask (HasSchema name));
  if there then Ret (Ok ())
  else do r <- (ask (RegisterSchema name)); Ret (map_err DataFusion r).

Record HttpTableSummary := { hs_name : string; hs_description : option string; hs_required_filters : list string }.

Record HttpSourceReport := {
  hr_table_count : N;
  hr_tables : list HttpTableSummary;
  hr_raw_table_registered : bool;
  hr_source : HttpSource
}.

Definition summary_of (spec : HttpTableSpec) : HttpTableSummary :=
  {| hs_name := t_name spec; hs_description := t_description spec;
     hs_required_filters := p_name <$> List.filter p_required (t_params spec) |}.

Definition provider_of (source : HttpSource) (s : Slot) : HttpTableProvider := with_safety source s.1.1 s.1.2 s.2.

Fixpoint register_slots (schema : string) (source : HttpSource) (slots : list Slot)
    : prog (result HttpBuildError (list HttpTableSummary)) :=
  match slots with
  | [] => Ret (Ok [])
  | s :: slots =>
      do r <- (ask (RegisterTable schema (slot_name s) (Typed (provider_of source s))));
      match r with
      | Err e => Ret (Err (DataFusion ("register table: " +:+ e)))
      | Ok _ => do? rest <- (register_slots schema source slots); Ret (Ok (summary_of s.1.1 :: rest))
      end
  end.

(** The raw table, in the default schema and in the source's own. *)
Definition register_raw (name : string) (source : HttpSource) : prog (result HttpBuildError ()) :=
  do there <- (ask (HasSchema "default"));
  if negb there then Ret (Err (DataFusion "default schema missing"))
  else
    do r <- (ask (RegisterTable "default" name (RawHttp source)));
    match r with
    | Err e => Ret (Err (DataFusion ("register raw table: " +:+ e)))
    | Ok _ =>
        do r <- (ask (RegisterTable name name (RawHttp source)));
        Ret (map_err (λ e, DataFusion ("register raw table (qualified): " +:+ e)) r)
    end.

Definition is_openapi (config : Json) : bool := bool_decide (get_text config "type" = Some "openapi").

Definition SynthError_of (e : SynthError) : HttpBuildError := SpecError (SynthError_display e).

(** The base address and the tables of the specification. *)
Definition synthesis (config : Json) (base_url_str : string) : prog (result HttpBuildError (Url * list HttpTableSpec)) :=
  if is_openapi config then
    do cache <- (spec_cache config base_url_str);
    do? bytes <- (fetch_spec base_url_str cache);
    Ret (let? doc := map_err (λ e, SpecError ("parse openapi document: " +:+ e)) (yaml_of bytes) in
         let? synth := map_err SynthError_of (synthesize doc (openapi_options config)) in
         let? base := effective_base config synth base_url_str in
         Ok (base, sy_tables synth))
  else Ret (let? base := map_err BadUrl (url_parse base_url_str) in Ok (base, [])).

Definition register_http_source_with_vars (d : EngineSourceDef) (dynamic : gmap string string)
    : prog (result HttpBuildError HttpSourceReport) :=
  let config := es_config d in
  let base_url_str := default "" (get_text config "base_url") in
  if negb (nonempty base_url_str) then Ret (Err (BadUrl "`kind: http` requires `config.base_url`"))
  else
    do? bs <- (synthesis config base_url_str);
    let source := source_of (es_name d) config bs.1 dynamic in
    do? _ <- (ensure_schema (es_name d));
    match declare_tables d (source_slot d <$> bs.2) (es_tables d) with
    | Err e => Ret (Err e)
    | Ok slots =>
        do? summaries <- (register_slots (es_name d) source slots);
        do? _ <- (if es_raw_table d then register_raw (es_name d) source else Ret (Ok ()));
        Ret (Ok {| hr_table_count := N.of_nat (length summaries) + (if es_raw_table d then 1 else 0);
                   hr_tables := summaries; hr_raw_table_registered := es_raw_table d; hr_source := source |})
    end.

Definition register_http_source (d : EngineSourceDef) : prog (result HttpBuildError HttpSourceReport) :=
  register_http_source_with_vars d ∅.
End parts.

(** ** Functions ([crates/pawrly-sources/http/src/function.rs]) *)

Section functions.
Context {w : Web} {data : Data} {hf : HttpForms} {Batch : Type}
  (try_new : list Field → list (Array (data := data)) → result string Batch).

Definition invalid_function (d : FunctionDef) (msg : string) : HttpBuildError :=
  ConfigFunction (fn_namespace d) (fn_name d) msg.

(** A parameter of an argument. *)
Definition param_json (a : FunctionArg) : Json :=
  let o := obj_insert "type" (JString (fa_type a)) (obj_insert "name" (JString (fa_name a)) []) in
  let o := if fa_required a then obj_insert "required" (JBool true) o else o in
  JObject match fa_default a with Some d => obj_insert "default" (JString d) o | None => o end.

(** The column [arg] is the echo of a parameter. *)
Definition response_column_json (c : FunctionColumn) : Json :=
  let o := obj_insert "type" (JString (fc_type c)) (obj_insert "name" (JString (fc_name c)) []) in
  JObject match fc_source c with
          | Some other => obj_insert "source" (JString (if decide (other = "arg") then "param" else other)) o
          | None => o
          end.

Definition response_json (d : FunctionDef) (response : list (string * Json)) : Json :=
  JObject (obj_insert "schema" (JArray (response_column_json <$> fn_returns d))
             (entry_or_insert "path" (JString "$") response)).

(** The declaration of a function as that of a table. *)
Definition function_table (d : FunctionDef) (body response : list (string * Json)) : Json :=
  let map := obj_insert "name" (JString (fn_name d)) body in
  let map := match fn_description d with
             | Some desc => entry_or_insert "description" (JString desc) map
             | None => map
             end in
  let map := obj_insert "params" (JArray (param_json <$> fn_args d)) map in
  JObject (obj_insert "response" (response_json d response) map).

Definition function_spec (d : FunctionDef) : result HttpBuildError HttpTableSpec :=
  let? body := match fn_body d with
               | JObject m => Ok m
               | JNull => Ok []
               | _ => Err (invalid_function d "http function `body` must be a mapping")
               end in
  let? response := match obj_get "response" body with
                   | Some (JObject r) => Ok r
                   | Some JNull | None => Ok []
                   | Some _ => Err (invalid_function d "http function `response` must be a mapping")
                   end in
  map_err (λ e, invalid_function d ("invalid http function body: " +:+ e)) (table_of_json (function_table d body response)).

(** One argument put into the response path, where it is named there, and not sent. *)
Definition place_arg (st : string * gmap string string) (kv : string * string)
    : string * gmap string string :=
  if contains_str (needle kv.1) st.1 then (replace st.1 (needle kv.1) kv.2, delete kv.1 st.2) else st.

Definition with_path (spec : HttpTableSpec) (path : string) : HttpTableSpec :=
  let r := t_response spec in
  {| t_name := t_name spec; t_endpoint := t_endpoint spec; t_method := t_method spec; t_params := t_params spec;
     t_headers := t_headers spec; t_body := t_body spec; t_requests := t_requests spec;
     t_response := {| r_path := path; r_schema := r_schema r; r_allow_404_empty := r_allow_404_empty r;
                      r_error := r_error r; r_reshape := r_reshape r |};
     t_pagination := t_pagination spec; t_description := t_description spec |}.

(** The table that one call reads, and the parameters it is sent. *)
Definition call_table (spec : HttpTableSpec) (params : gmap string string) : HttpTableSpec * gmap string string :=
  if contains_chr "{" (r_path (t_response spec)) then
    let '(path, sent) := foldl place_arg (r_path (t_response spec), params) (btree_iter params) in
    (with_path spec path, sent)
  else (spec, params).

(** [HttpFunctionExecutor::invoke]. *)
Definition invoke (source : HttpSource) (spec : HttpTableSpec) (max_pages : option N) (params : gmap string string)
    (limit : option N) : io Batch :=
  let '(spec, sent) := call_table spec params in
  scan_params try_new (with_safety source spec max_pages None) sent limit.
End functions.

(** ** Patches keep the name *)

Section names.
Context {w : Web} {jt : JsonText} {hf : HttpForms} {laws : HttpFormsLaws hf}.

Lemma obj_get_entry k k' v fields : k ≠ k' → obj_get k (entry_or_insert k' v fields) = obj_get k fields.
Proof. intros H. unfold entry_or_insert. case_match; [done|]. by apply obj_get_insert_ne. Qed.

Lemma get_name_description t fields : obj_get "name" (with_description t fields) = obj_get "name" fields.
Proof. unfold with_description. case_match; [|done]. by apply obj_get_entry. Qed.

(** A function is a table of its name, whatever its body says. *)
Lemma function_spec_name d spec : function_spec d = Ok spec → t_name spec = fn_name d.
Proof.
  unfold function_spec. intros H. inv_ok. apply table_of_json_name in H. revert H. unfold function_table. cbv zeta. cbn [get].
  rewrite !obj_get_insert_ne by done. destruct (fn_description d); rewrite ?obj_get_entry by done;
    rewrite obj_get_insert; by intros [= <-].
Qed.

Lemma table_spec_from_def_name t spec : table_spec_from_def t = Ok spec → t_name spec = et_name t.
Proof.
  unfold table_spec_from_def. intros H. inv_ok. apply table_of_json_name in H. revert H. simpl.
  rewrite get_name_description, obj_get_insert. by intros [= <-].
Qed.

Lemma merge_table_def_name base t spec : merge_table_def base t = Ok spec → t_name spec = t_name base.
Proof.
  unfold merge_table_def. intros H. inv_ok. rename x into value.
  match goal with Hj : json_of_table _ = _ |- _ => apply json_of_table_name in Hj; rename Hj into Hv end.
  apply table_of_json_name in H. unfold table_patch in H. destruct (et_config t) as [| | | | |fields];
    try by destruct value.
  assert (obj_get "name" (with_description t (obj_remove "name" fields)) = None) as Hn
    by by rewrite get_name_description, obj_get_removed.
  destruct value as [| | | | |b]; try done. simpl in Hv.
  destruct (obj_get "type" (with_description t (obj_remove "name" fields))) as [ty|] eqn:Ht.
  - cbn [deep_merge] in H. rewrite bool_decide_eq_true_2 in H by by rewrite Ht.
    simpl in H. congruence.
  - rewrite deep_merge_get in H by done. congruence.
Qed.

(** ** The tables *)

Section tables.
Context (d : EngineSourceDef) (synth : list HttpTableSpec).

Definition find_def (tables : list EngineTableDef) (n : string) : option EngineTableDef :=
  List.find (λ t, bool_decide (et_name t = n)) tables.

Definition find_spec (n : string) : option HttpTableSpec :=
  List.find (λ s, bool_decide (t_name s = n)) synth.

(** What the table of a name is: declared on its own, synthesized and patched, or as synthesized. *)
Definition slot_ok (tables : list EngineTableDef) (s : Slot) : Prop :=
  match find_def tables (slot_name s), find_spec (slot_name s) with
  | Some t, Some spec => merge_table_def spec t = Ok s.1.1 ∧ (s.1.2, s.2) = limits_of d t
  | Some t, None => table_spec_from_def t = Ok s.1.1 ∧ (s.1.2, s.2) = limits_of d t
  | None, Some spec => s = source_slot d spec
  | None, None => False
  end.

(** The synthesized tables in their order, then the declared ones with other names in theirs. *)
Definition table_names (tables : list EngineTableDef) : list string :=
  (t_name <$> synth) ++ List.filter (λ n, negb (bool_decide (n ∈ t_name <$> synth))) (et_name <$> tables).

Definition slots_ok (tables : list EngineTableDef) (slots : list Slot) : Prop :=
  slot_name <$> slots = table_names tables ∧ Forall (slot_ok tables) slots.

Hypothesis synth_distinct : NoDup (t_name <$> synth).

Lemma find_def_snoc tables t n :
  find_def (tables ++ [t]) n =
  match find_def tables n with Some t' => Some t' | None => if decide (et_name t = n) then Some t else None end.
Proof.
  unfold find_def. induction tables as [|t' tables IH]; simpl.
  - case_bool_decide; case_decide; naive_solver.
  - by destruct (bool_decide (et_name t' = n)).
Qed.

Lemma find_def_none tables n : n ∉ et_name <$> tables → find_def tables n = None.
Proof.
  unfold find_def. induction tables as [|t tables IH]; [done|]. simpl. intros Hn.
  rewrite bool_decide_eq_false_2 by set_solver. apply IH. set_solver.
Qed.

Lemma find_spec_some spec : spec ∈ synth → find_spec (t_name spec) = Some spec.
Proof using synth_distinct.
  unfold find_spec. induction synth as [|s l IH]; [by intros ?%elem_of_nil|]. simpl.
  apply NoDup_cons in synth_distinct as [Hs Hl]. intros [->|Hin]%elem_of_cons; [by rewrite bool_decide_eq_true_2|].
  rewrite bool_decide_eq_false_2; [by apply IH|]. intros Heq. apply Hs. rewrite Heq. by apply list_elem_of_fmap_2.
Qed.

Lemma find_spec_in n spec : find_spec n = Some spec → t_name spec = n ∧ n ∈ t_name <$> synth.
Proof.
  intros [Hin Hn%bool_decide_eq_true]%List.find_some. split; [done|]. subst.
  apply list_elem_of_fmap_2. by apply list_elem_of_In.
Qed.

Lemma find_spec_none n : n ∉ t_name <$> synth → find_spec n = None.
Proof. intros Hn. destruct (find_spec n) as [spec|] eqn:E; [|done]. by apply find_spec_in in E as [_ ?]. Qed.

Lemma slots_start : slots_ok [] (source_slot d <$> synth).
Proof using synth_distinct.
  split.
  - unfold table_names. simpl. rewrite app_nil_r, <-list_fmap_compose. done.
  - apply Forall_fmap, Forall_forall. intros spec Hin. unfold slot_ok. cbn -[find_spec].
    change (slot_name (source_slot d spec)) with (t_name spec). by rewrite find_spec_some.
Qed.

(** A declaration of a new name leaves the other tables alone. *)
Lemma slot_ok_snoc tables t s : slot_name s ≠ et_name t → slot_ok tables s → slot_ok (tables ++ [t]) s.
Proof.
  intros Hne. unfold slot_ok. rewrite find_def_snoc. destruct (find_def tables (slot_name s)); [done|].
  by rewrite decide_False.
Qed.

Lemma table_names_snoc tables t :
  table_names (tables ++ [t]) =
  table_names tables ++ (if decide (et_name t ∈ t_name <$> synth) then [] else [et_name t]).
Proof.
  unfold table_names. rewrite fmap_app, List.filter_app, app_assoc. f_equal. simpl.
  case_decide; by case_bool_decide.
Qed.

Lemma table_names_distinct tables : NoDup (et_name <$> tables) → NoDup (table_names tables).
Proof using synth_distinct.
  intros Hnd. unfold table_names. apply NoDup_app. split; [done|]. split.
  - intros n Hn. rewrite list_elem_of_In, List.filter_In. intros [_ Hf]. by rewrite bool_decide_eq_true_2 in Hf.
  - apply NoDup_ListNoDup, List.NoDup_filter. by apply NoDup_ListNoDup.
Qed.

Lemma declare_table_ok tables t slots slots' :
  et_name t ∉ et_name <$> tables → NoDup (et_name <$> tables) → slots_ok tables slots →
  declare_table d slots t = Ok slots' → slots_ok (tables ++ [t]) slots'.
Proof using laws synth_distinct.
  intros Hnew Hnd [Hnames Hok] H. unfold declare_table in H. unfold slots_ok. rewrite table_names_snoc.
  assert (NoDup (slot_name <$> slots)) as Hsd by (rewrite Hnames; by apply table_names_distinct).
  destruct (list_find _ slots) as [[i slot]|] eqn:Ef; inv_ok.
  - apply list_find_Some in Ef as (Hi & Hname & _). rename x into spec.
    assert (slot_name slot ∈ table_names tables) as Hin.
    { rewrite <-Hnames. apply list_elem_of_fmap_2. by eapply list_elem_of_lookup_2. }
    pose proof Hok as Hsl. rewrite Forall_lookup in Hsl. specialize (Hsl _ _ Hi). unfold slot_ok in Hsl.
    rewrite Hname, (find_def_none tables) in Hsl by done.
    destruct (find_spec (et_name t)) as [base|] eqn:Eb; [|done].
    pose proof (find_spec_in _ _ Eb) as [Hb Hbin]. rewrite decide_True, app_nil_r by done.
    assert (t_name spec = et_name t) as Hspec.
    { rewrite <-Hname. unfold slot_name. by eapply merge_table_def_name. }
    split.
    + rewrite list_fmap_insert. rewrite <-Hnames. apply list_insert_id.
      rewrite list_lookup_fmap, Hi. simpl. f_equal. unfold slot_name at 2. simpl. congruence.
    + apply Forall_lookup. intros j s Hj. destruct (decide (i = j)) as [<-|Hij].
      * rewrite list_lookup_insert_eq in Hj by by eapply lookup_lt_Some. simplify_eq.
        unfold slot_ok. change (slot_name _) with (t_name spec). rewrite Hspec, find_def_snoc, find_def_none by done.
        rewrite decide_True, Eb by done. split; [done|]. reflexivity.
      * rewrite list_lookup_insert_ne in Hj by done. apply slot_ok_snoc; [|exact (Forall_lookup_1 _ _ _ _ Hok Hj)].
        intros Heq. apply Hij. eapply (NoDup_lookup (slot_name <$> slots)); [done| |].
        -- rewrite list_lookup_fmap, Hi. done.
        -- rewrite list_lookup_fmap, Hj. simpl. congruence.
  - apply list_find_None in Ef. rename x into spec.
    match goal with Hd : table_spec_from_def t = Ok spec |- _ => rename Hd into Hdef end.
    pose proof (table_spec_from_def_name _ _ Hdef) as Hspec.
    assert (et_name t ∉ t_name <$> synth) as Hns.
    { intros Hin. assert (et_name t ∈ slot_name <$> slots) as (s & Hs & Hin')%list_elem_of_fmap
        by (rewrite Hnames; unfold table_names; set_solver).
      rewrite Forall_forall in Ef. by apply (Ef s). }
    rewrite decide_False, fmap_app, Hnames by done. split; [by rewrite <-Hspec|].
    apply Forall_app. split.
    + rewrite Forall_forall in Hok, Ef |- *. intros s Hs. apply slot_ok_snoc; [|by apply Hok].
      by apply Ef.
    + apply Forall_singleton. unfold slot_ok. change (slot_name _) with (t_name spec).
      rewrite Hspec, find_def_snoc, find_def_none, decide_True, find_spec_none by done.
      split; [done|]. reflexivity.
Qed.

Lemma declare_tables_ok first tables slots slots' :
  NoDup (et_name <$> (first ++ tables)) → slots_ok first slots →
  declare_tables d slots tables = Ok slots' → slots_ok (first ++ tables) slots'.
Proof using laws synth_distinct.
  revert first slots. induction tables as [|t tables IH]; intros first slots Hnd Hok H; simpl in H.
  - inv_ok. by rewrite app_nil_r.
  - inv_ok. rewrite cons_middle, app_assoc in Hnd |- *. eapply IH; [done| |done].
    rewrite !fmap_app in Hnd. apply NoDup_app in Hnd as (Hnd & _ & _). apply NoDup_app in Hnd as (Hnd & Hd & _).
    eapply declare_table_ok; [|done..]. intros Hin. apply (Hd _ Hin). set_solver.
Qed.
End tables.
End names.

(** ** What a run registers *)

Definition registers (op : RegOp) : bool := match op with RegisterTable _ _ _ => true | _ => false end.

Definition Registration : Type := string * string * HttpProvider.

(** The schema, name and provider of a table that was put into the catalog. *)
Definition registration (e : @Prog.Event reg_signature) : option Registration :=
  match e with
  | existT op a =>
      match op return RegAns op → option Registration with
      | RegisterTable schema name p => λ a, match a with Ok _ => Some (schema, name, p) | Err _ => None end
      | _ => λ _, None
      end a
  end.

Definition registered (h : list (@Prog.Event reg_signature)) : list Registration := omap registration h.

Lemma registrations_snoc h e : registered (h ++ [e]) = registered h ++ option_list (registration e).
Proof. unfold registered. rewrite omap_app. simpl. by destruct (registration e). Qed.

(** Programs that register no table, and what they give. *)
Definition calm {A} (P : A → Prop) (p : prog A) : Prop :=
  ∀ h, always p h (λ r h', match r with Ok a => P a ∧ registered h' = registered h | Err _ => False end).

Lemma calm_ret {A} (P : A → Prop) a : P a → calm P (Ret a).
Proof. intros Ha h. by split. Qed.

Lemma calm_bind {A B} (P : A → Prop) (Q : B → Prop) (m : prog A) (f : A → prog B) :
  calm P m → (∀ a, P a → calm Q (f a)) → calm Q (pbind m f).
Proof.
  intros Hm Hf h. apply always_bind. eapply always_mono; [|exact (Hm h)].
  intros [a|msg] h'; [|done]. intros [Ha Hr]. eapply always_mono; [|exact (Hf a Ha h')]. by rewrite Hr.
Qed.

Lemma calm_ask op : registers op = false → calm (λ _, True) (ask op).
Proof.
  intros Hop h a. unfold always. simpl. split; [done|]. rewrite registrations_snoc.
  destruct op; try done; simpl; by rewrite app_nil_r.
Qed.

Lemma calm_mono {A} (P Q : A → Prop) (p : prog A) : (∀ a, P a → Q a) → calm P p → calm Q p.
Proof. intros HPQ Hp h. eapply always_mono; [|exact (Hp h)]. intros [a|msg] h'; naive_solver. Qed.

Definition if_ok {E A} (P : A → Prop) (r : result E A) : Prop := match r with Ok a => P a | Err _ => True end.

Lemma calm_try {E A B} (P : A → Prop) (Q : result E B → Prop) (m : prog (result E A)) (f : A → prog (result E B)) :
  calm (if_ok P) m → (∀ e, Q (Err e)) → (∀ a, P a → calm Q (f a)) → calm Q (ptry m f).
Proof.
  intros Hm He Hf. eapply calm_bind; [exact Hm|]. intros [a|e] Ha; [by apply Hf|by apply calm_ret].
Qed.

Section runs.
Context {w : Web} {jt : JsonText} {hf : HttpForms} {laws : HttpFormsLaws hf}.

Lemma spec_cache_quiet config location : calm (λ _, True) (spec_cache config location).
Proof.
  unfold spec_cache, spec_cache_path. case_match; [by apply calm_ret|]. case_match; [|by apply calm_ret].
  eapply (calm_bind (λ _, True)); [|by intros; apply calm_ret]. eapply calm_bind; [by apply calm_ask|].
  intros [home|] _; [by apply calm_ret|]. eapply calm_bind; [by apply calm_ask|]. by intros; apply calm_ret.
Qed.

Lemma fetch_spec_quiet location cache : calm (λ _, True) (fetch_spec location cache).
Proof.
  unfold fetch_spec. case_match.
  { eapply calm_bind; [by apply calm_ask|]. by intros; apply calm_ret. }
  eapply (calm_bind (λ _, True)).
  { destruct cache as [c|]; [|by apply calm_ret]. eapply calm_bind; [by apply calm_ask|]. intros [age|] _.
    - case_match; [|by apply calm_ret]. eapply calm_bind; [by apply calm_ask|]. by intros; apply calm_ret.
    - by apply calm_ret. }
  intros [bytes|] _; [by apply calm_ret|]. unfold download_spec.
  eapply calm_bind; [by apply calm_ask|]. intros [[status body]|e] _; [|by apply calm_ret].
  case_match; [by apply calm_ret|]. destruct body as [bytes|e]; [|by apply calm_ret].
  eapply (calm_bind (λ _, True)); [|by intros; apply calm_ret].
  destruct cache as [c|]; [|by apply calm_ret]. eapply calm_bind; [by apply calm_ask|].
  intros [[]|e] _; [|by apply calm_ret]. eapply calm_bind; [by apply calm_ask|]. by intros; apply calm_ret.
Qed.

Lemma ensure_schema_quiet name : calm (λ _, True) (ensure_schema name).
Proof.
  eapply calm_bind; [by apply calm_ask|]. intros [] _; [by apply calm_ret|].
  eapply calm_bind; [by apply calm_ask|]. by intros; apply calm_ret.
Qed.

Section source.
Context (d : EngineSourceDef) (dynamic : gmap string string).

(** The base address of a source and the tables of its specification, as some document has them. *)
Definition built (bs : Url * list HttpTableSpec) : Prop :=
  let location := default "" (get_text (es_config d) "base_url") in
  if is_openapi (es_config d) then
    ∃ doc s, synthesize doc (openapi_options (es_config d)) = Ok s ∧
             effective_base (es_config d) s location = Ok bs.1 ∧ bs.2 = sy_tables s
  else url_parse location = Ok bs.1 ∧ bs.2 = [].

Lemma synthesis_quiet : calm (if_ok built) (synthesis (es_config d) (default "" (get_text (es_config d) "base_url"))).
Proof.
  unfold synthesis, built. destruct (is_openapi (es_config d)).
  - eapply calm_bind; [apply spec_cache_quiet|]. intros cache _.
    eapply (calm_try (λ _, True)); [|done|].
    { eapply calm_mono; [|apply fetch_spec_quiet]. by intros [a|e]. }
    intros bytes _. apply calm_ret. destruct (rbind _ _) as [bs|] eqn:E; [|done]. inv_ok.
    simpl. eauto 10.
  - apply calm_ret. destruct (rbind _ _) as [bs|] eqn:E; [|done]. by inv_ok.
Qed.

Lemma built_distinct bs : built bs → NoDup (t_name <$> bs.2).
Proof.
  unfold built. case_match; [|intros [_ ->]; constructor]. intros (doc & s & Hs & _ & ->). by eapply synthesize_names.
Qed.

(** All that a run has to put into the catalog, in order. *)
Definition typed_registrations (source : HttpSource) (slots : list Slot) : list Registration :=
  (λ s, (es_name d, slot_name s, Typed (provider_of source s))) <$> slots.

Definition raw_registrations (source : HttpSource) : list Registration :=
  if es_raw_table d then [("default", es_name d, RawHttp source); (es_name d, es_name d, RawHttp source)] else [].

(** A program that was to register [regs] has, or a first part of them when it failed. *)
Definition adds {A} (P : A → Prop) (regs : list Registration) (h : list Prog.Event)
    (r : result string (result HttpBuildError A)) (h' : list Prog.Event) : Prop :=
  match r with
  | Ok (Ok a) => P a ∧ registered h' = registered h ++ regs
  | Ok (Err _) => ∃ done_, done_ `prefix_of` regs ∧ registered h' = registered h ++ done_
  | Err _ => False
  end.

Lemma adds_none {A} (P : A → Prop) regs h e op :
  registered h = registered op → adds P regs h (Ok (Err e)) op.
Proof. intros Hr. exists []. split; [apply prefix_nil|]. by rewrite app_nil_r. Qed.

Lemma adds_cons {A B} (P : A → Prop) (Q : B → Prop) reg regs h h1 r r' h2 :
  registered h1 = registered h ++ [reg] → adds P regs h1 r h2 →
  match r, r' with Ok (Ok a), Ok (Ok b) => P a → Q b | Ok (Err _), Ok (Err _) => True | _, _ => False end →
  adds Q (reg :: regs) h r' h2.
Proof.
  intros Hr. unfold adds. rewrite Hr. destruct r as [[a|e]|msg], r' as [[b|e']|msg']; try done.
  - intros [Ha ->] HQ. split; [by apply HQ|]. by rewrite <-app_assoc.
  - intros (done_ & Hp & ->) _. exists (reg :: done_). split; [by apply prefix_cons|]. by rewrite <-app_assoc.
Qed.

Lemma register_slots_run source slots h :
  always (register_slots (es_name d) source slots) h
    (adds (λ summaries, summaries = (λ s, summary_of s.1.1) <$> slots) (typed_registrations source slots) h).
Proof.
  revert h. induction slots as [|s slots IH]; intros h; cbn [register_slots].
  { split; [done|]. by rewrite app_nil_r. }
  apply always_do. intros [[]|e]; cbn [pbind].
  - apply always_try. eapply always_mono; [|apply IH].
    intros [[summaries|e]|msg] h' Ha; [| |done]; (eapply adds_cons; [|exact Ha|]); try by rewrite registrations_snoc.
    + by intros ->.
    + done.
  - apply adds_none. rewrite registrations_snoc. simpl. by rewrite app_nil_r.
Qed.

Lemma register_raw_run source h :
  es_raw_table d = true →
  always (register_raw (es_name d) source) h (adds (λ _, True) (raw_registrations source) h).
Proof.
  intros Hraw. unfold raw_registrations. rewrite Hraw. apply always_do. intros []; cbn [pbind negb].
  2:{ apply adds_none. rewrite registrations_snoc. simpl. by rewrite app_nil_r. }
  apply always_do. intros [[]|e]; cbn [pbind].
  2:{ apply adds_none. rewrite !registrations_snoc. simpl. by rewrite !app_nil_r. }
  apply always_do. intros [[]|e].
  - split; [done|]. rewrite !registrations_snoc. simpl. by rewrite app_nil_r, <-app_assoc.
  - eexists [_]. split; [apply prefix_cons, prefix_nil|]. rewrite !registrations_snoc. simpl. by rewrite !app_nil_r.
Qed.

(** C20: in every run of registering an HTTP source whose declared tables have distinct names,
    success means that the catalog holds exactly its tables, under distinct names: the synthesized ones in
    their order, each as synthesized or with the patch of the declaration of its name, which cannot rename it,
    then the other declared ones in theirs, each with the limits of its own or of the source, and last the raw
    table where it is asked for; the report lists them. An error leaves a first part of these in the catalog. *)
Theorem http_tables_registered :
  NoDup (et_name <$> es_tables d) →
  always (register_http_source_with_vars d dynamic) [] (λ r h, match r with
    | Ok (Ok rep) =>
        ∃ base synth slots,
          built (base, synth) ∧ slots_ok d synth (es_tables d) slots ∧ NoDup (slot_name <$> slots) ∧
          hr_source rep = source_of (es_name d) (es_config d) base dynamic ∧
          registered h = typed_registrations (hr_source rep) slots ++ raw_registrations (hr_source rep) ∧
          hr_tables rep = (λ s, summary_of s.1.1) <$> slots
    | Ok (Err _) =>
        registered h = [] ∨
        ∃ base synth slots, let source := source_of (es_name d) (es_config d) base dynamic in
          built (base, synth) ∧ slots_ok d synth (es_tables d) slots ∧
          registered h `prefix_of` typed_registrations source slots ++ raw_registrations source
    | Err _ => False
    end).
Proof using laws.
  intros Hnd. unfold register_http_source_with_vars. cbv zeta. case_match; [by left|].
  apply always_try. eapply always_mono; [|apply synthesis_quiet]. intros [[[base synth]|e]|msg] h; [|by left; naive_solver|naive_solver].
  intros [Hb Hh]. cbn [fst snd]. apply always_try. eapply always_mono; [|apply ensure_schema_quiet].
  rewrite Hh. clear Hh h. intros [[[]|e]|msg] h; [|by left; naive_solver|naive_solver]. intros [_ Hh].
  pose proof (built_distinct _ Hb) as Hsd. cbn [snd] in Hsd.
  destruct (declare_tables d _ _) as [slots|e] eqn:Ed; [|by left].
  apply (declare_tables_ok d synth Hsd []) in Ed; [|done|by apply slots_start]. simpl in Ed.
  assert (NoDup (slot_name <$> slots)) as Hnames.
  { destruct Ed as [-> _]. by apply table_names_distinct. }
  set (source := source_of _ _ _ _). apply always_try. eapply always_mono; [|apply (register_slots_run source slots)].
  unfold adds. rewrite Hh. simpl. intros [[summaries|e]|msg] h1; [| |done].
  2:{ intros (done_ & Hp & ->). right. exists base, synth, slots. split_and!; [done..|]. by apply prefix_app_r. }
  intros [-> Hh1]. apply always_try.
  assert (always (if es_raw_table d then register_raw (es_name d) source else Ret (Ok ())) h1
            (adds (λ _, True) (raw_registrations source) h1)) as Hraw.
  { destruct (es_raw_table d) eqn:Hraw; [by apply register_raw_run|]. split; [done|].
    unfold raw_registrations. by rewrite Hraw, app_nil_r. }
  eapply always_mono; [|exact Hraw]. unfold adds. rewrite Hh1. intros [[u|e]|msg] h2; [| |done].
  - intros [_ Hh2]. exists base, synth, slots. by split_and!.
  - intros (done_ & Hp & ->). right. exists base, synth, slots. split_and!; [done..|]. by apply prefix_app.
Qed.
End source.
End runs.

(** ** A registration *)

Definition named_table (name endpoint : string) : HttpTableSpec :=
  {| t_name := name; t_endpoint := endpoint; t_method := "GET"; t_params := []; t_headers := ∅; t_body := None;
     t_requests := []; t_response := single_json_response; t_pagination := None; t_description := None |}.

(** Declarations of a name and an endpoint; the document of every text. *)
Definition demo_forms : HttpForms := {|
  auth_of_json _ := None;
  table_of_json v :=
    match get_text v "name", get_text v "endpoint" with
    | Some n, Some e => Ok (named_table n e)
    | _, _ => Err "missing field"
    end;
  json_of_table s := Ok (JObject [("endpoint", JString (t_endpoint s)); ("name", JString (t_name s))]);
  yaml_of _ := Ok demo_doc;
  ttl_of_json _ := None;
  at_root u := u;
  location_hash _ := 0%N;
  public_suffix _ := None
|}.

#[local] Instance demo_forms_laws : HttpFormsLaws demo_forms.
Proof.
  split.
  - intros v s. cbn [demo_forms table_of_json]. unfold get_text. destruct (get v "name") as [[]|]; try discriminate.
    simpl. destruct (get v "endpoint" ≫= as_str); [|discriminate]. by intros [= <-].
  - intros s v [= <-]. reflexivity.
Qed.

Definition demo_declared (name : string) (config : Json) : EngineTableDef :=
  {| et_name := name; et_description := None; et_wiki := None; et_config := config; et_cache := None; et_safety := None |}.

Definition demo_def : EngineSourceDef :=
  {| es_name := "crm"; es_kind := KHttp; es_description := None; es_wiki := None; es_examples := [];
     es_config := JObject [("base_url", JString "http://api.test/spec.yaml"); ("type", JString "openapi");
                           ("retry", JObject [("max_retries", JNumber (PosInt 4294967296))])];
     es_cache := PolicyNone; es_safety := None;
     es_tables := [demo_declared "list_users" (JObject [("endpoint", JString "/v2/users"); ("name", JString "x")]);
                   demo_declared "extra" (JObject [("endpoint", JString "/extra")])];
     es_raw_table := true; es_raw_table_safety := None |}.

(** Everything succeeds. *)
Definition demo_answers (op : RegOp) (w : ()) : RegAns op * () :=
  (match op return RegAns op with
   | EnvVar _ => None | FileAge _ => None | ReadFile _ => Err "no file" | GetSpec _ => Ok (200%N, Ok "spec")
   | HasSchema _ => true | CreateDirs _ | WriteFile _ _ | RegisterSchema _ | RegisterTable _ _ _ => Ok ()
   end, w).

Definition demo_register : prog (result HttpBuildError HttpSourceReport) :=
  register_http_source_with_vars (w := web_of offset_server) (jt := demo_text) (hf := demo_forms) demo_def ∅.

Example demo_registered :
  let r := exec (H := reg_signature) demo_answers demo_register () in
  let h := events (H := reg_signature) demo_answers demo_register () in
  (λ reg : Registration, (reg.1, match reg.2 with Typed p => Some (t_endpoint (h_spec p)) | RawHttp _ => None end))
    <$> registered h =
  [("crm", "list_users", Some "/v2/users"); ("crm", "list_users_2", Some "/users"); ("crm", "extra", Some "/extra");
   ("default", "crm", None); ("crm", "crm", None)] ∧
  match r.1 with
  | Ok (Ok rep) => u_text (s_base_url (hr_source rep)) = "https://eu.x{v" ∧
                   hs_name <$> hr_tables rep = ["list_users"; "list_users_2"; "extra"]
  | _ => False
  end.
Proof. vm_compute. done. Qed.

(** A count of retries past 32 bits is cut, here to none. *)
Example retries_cut : max_retries (parse_retry (es_config demo_def)) = 0%N.
Proof. reflexivity. Qed.

(** An argument named in the response path is put there and not sent; so a column that echoes it is null,
    and what stands in braces in its value is replaced by a later argument. *)
Example path_arguments :
  let spec := with_path (named_table "f" "/f") "$.{a}" in
  (λ params : list (string * string), let '(spec, sent) := call_table spec (list_to_map params) in (r_path (t_response spec), btree_iter sent))
    <$> [[("a", "rows"); ("q", "x")]; [("a", "{q}"); ("q", "x")]] =
  [("$.rows", [("q", "x")]); ("$.x", [])].
Proof. vm_compute. reflexivity. Qed.

(** A synthesized table cannot be declared without a body, say for its limits only: the patch is no object. *)
Example patch_without_body :
  is_ok (merge_table_def (hf := demo_forms) (named_table "t" "/t") (demo_declared "t" JNull)) = false.
Proof. reflexivity. Qed.

Lemma http_tables_registered_witness :
  always demo_register [] (λ r h, ∀ rep, r = Ok (Ok rep) → ∃ synth slots,
    slots_ok (hf := demo_forms) demo_def synth (es_tables demo_def) slots ∧
    registered h = typed_registrations demo_def (hr_source rep) slots ++ raw_registrations demo_def (hr_source rep)).
Proof.
  eapply always_mono; [|apply (http_tables_registered (w := web_of offset_server) (jt := demo_text)
    (hf := demo_forms) (laws := demo_forms_laws) demo_def ∅)].
  - intros r h H rep ->. destruct H as (base & synth & slots & _ & Hs & _ & _ & Hr & _). exists synth, slots.
    split; [exact Hs|exact Hr].
  - apply (bool_decide_unpack _). vm_compute. exact I.
Defined.
