(* ===== verification/McpSource.v ===== *)
(** * MCP sources ([crates/pawrly-sources/mcp/src/])
    The tools of a server as tables and functions: the client's protocol ([session.rs]), which tools are
    exposed and with what columns ([synth.rs]), calling one page by page ([provider.rs]), registration
    ([register.rs]) and functions ([function.rs]). The transports are what answers the requests. *)

From S2P Require Export Prog Engine OpenApi HttpResponse.

(** ** Data *)

Inductive McpError :=
| Transport (msg : string)
| Rpc (code : Z) (msg : string)
| Protocol (msg : string).

Definition McpError_display (e : McpError) : string :=
  match e with
  | Transport msg => "transport: " +:+ msg
  | Rpc code msg => "mcp error " +:+ show_Z code +:+ ": " +:+ msg
  | Protocol msg => "protocol: " +:+ msg
  end.

Inductive McpBuildError := BuildConfig (msg : string) | Connect (msg : string) | CatalogError (msg : string).

Record Tool := {
  tl_name : string;
  tl_description : option string;
  tl_input_schema : Json;
  tl_output_schema : option Json;
  tl_read_only : option bool;
  tl_destructive : option bool
}.

Inductive Expose := ReadOnlyTools | AllTools | ListedTools.

Record ExposeOptions := { eo_expose : Expose; eo_include : list string; eo_exclude : list string }.

Record Arg := { ar_name : string; ar_type : string; ar_required : bool; ar_tool_arg : option string }.

Definition wire_name (a : Arg) : string := default (ar_name a) (ar_tool_arg a).

Record McpColumn := { mc_name : string; mc_type : string; mc_path : list string }.

Record LimitBinding := { lb_tool_arg : string; lb_max : option N }.

Record CursorPagination := { cp_cursor_arg : string; cp_response_cursor_path : list string }.

Record McpTableSpec := {
  ms_name : string;
  ms_tool : string;
  ms_description : option string;
  ms_args : list Arg;
  ms_columns : list McpColumn;
  ms_tool_args : gmap string Json;
  ms_limit_binding : option LimitBinding;
  ms_pagination : option CursorPagination;
  ms_rows_path : list string
}.

(** What is not code here: [serde]'s reading and writing of specifications, [serde_json::from_str], a float
    as JSON, and the package's version. *)
Class McpForms := {
  spec_of_json : Json → result string McpTableSpec;
  json_of_spec : McpTableSpec → result string Json;
  json_from_str : string → option Json;
  json_of_f64 : string → option Json;
  pkg_version : string
}.

(** ** What a source asks
    Requests and notifications to the server, starting it, and the catalog. *)

Record McpProvider := { mp_spec : McpTableSpec; mp_schema : list Field; mp_max_pages : N }.

Inductive McpOp :=
| McpRequest (method : string) (params : Json)
| McpNotify (method : string) (params : Json)
| Spawn (command : string) (args : list string) (env : list (string * string))
| HasSchema (name : string)
| RegisterSchema (name : string)
| RegisterTool (schema name : string) (p : McpProvider).

Definition McpAns (op : McpOp) : Type :=
  match op with
  | McpRequest _ _ => result McpError Json
  | McpNotify _ _ => result McpError ()
  | HasSchema _ => bool
  | Spawn _ _ _ | RegisterSchema _ | RegisterTool _ _ _ => result string ()
  end.

#[export] Instance mcp_signature : Signature := { Op := McpOp; Ans := McpAns }.

Definition ask (op : McpOp) : prog (McpAns op) := @Do mcp_signature _ op Ret.

Open Scope prog_scope.

(** ** The protocol ([session.rs]) *)

Section session.
Context {mf : McpForms}.

Definition PROTOCOL_VERSION : string := "2025-06-18".

Definition initialize_params : Json :=
  JObject [("capabilities", JObject []);
           ("clientInfo", JObject [("name", JString "pawrly"); ("version", JString pkg_version)]);
           ("protocolVersion", JString PROTOCOL_VERSION)].

Definition initialize : prog (result McpError ()) :=
  do? _ <- (ask (McpRequest "initialize" initialize_params));
  ask (McpNotify "notifications/initialized" (JObject [])).

Definition parse_tool (value : Json) : option Tool :=
  name ← get value "name" ≫= as_str;
  let hint key := a ← get value "annotations"; v ← get a key; as_bool v in
  Some {| tl_name := name; tl_description := get value "description" ≫= as_str;
          tl_input_schema := default (JObject []) (get value "inputSchema");
          tl_output_schema := get value "outputSchema";
          tl_read_only := hint "readOnlyHint"; tl_destructive := hint "destructiveHint" |}.

(** The cursor of a page of tools. *)
Definition tools_cursor (result : Json) : option string :=
  next ← get result "nextCursor" ≫= as_str; if nonempty next then Some next else None.

Definition page_tools (result : Json) : list Tool :=
  match get result "tools" ≫= as_array with Some arr => omap parse_tool arr | None => [] end.

(** The code's loop has no bound; [fuel] pages are read here, and a run past them crashes. *)
Fixpoint list_tools_loop (fuel : nat) (cursor : option string) (tools : list Tool) : prog (result McpError (list Tool)) :=
  match fuel with
  | O => Crash "out of fuel"
  | S fuel =>
      let params := match cursor with Some c => JObject [("cursor", JString c)] | None => JObject [] end in
      do? result <- (ask (McpRequest "tools/list" params));
      let tools := tools ++ page_tools result in
      match tools_cursor result with
      | Some next => list_tools_loop fuel (Some next) tools
      | None => Ret (Ok tools)
      end
  end.

Definition list_tools (fuel : nat) : prog (result McpError (list Tool)) := list_tools_loop fuel None [].

Definition tool_error_text (result : Json) : string :=
  default "tool returned an error"
    (items ← get result "content" ≫= as_array; item ← head items; get item "text" ≫= as_str).

Definition call_params (name : string) (arguments : Json) : Json :=
  JObject [("arguments", arguments); ("name", JString name)].

(** A result that is flagged as an error is one. *)
Definition call_result (r : result McpError Json) : result McpError Json :=
  let? result := r in
  if decide (get result "isError" ≫= as_bool = Some true) then Err (Rpc 0 (tool_error_text result)) else Ok result.

Definition call_tool (name : string) (arguments : Json) : prog (result McpError Json) :=
  do r <- (ask (McpRequest "tools/call" (call_params name arguments)));
  Ret (call_result r).
End session.

(** ** Which tools are tables ([synth.rs]) *)

Section synth.
Context {jt : JsonText} {mf : McpForms}.

Definition admit_tool (tool : Tool) (expose : Expose) : bool :=
  if decide (tl_destructive tool = Some true) then false
  else match expose with
       | ReadOnlyTools => bool_decide (tl_read_only tool = Some true)
       | AllTools => true
       | ListedTools => false
       end.

(** Neither excluded nor left out of what is included. *)
Definition named_tool (opts : ExposeOptions) (tool : Tool) : bool :=
  negb (bool_decide (tl_name tool ∈ eo_exclude opts))
  && (bool_decide (eo_include opts = []) || bool_decide (tl_name tool ∈ eo_include opts)).

Definition result_column : McpColumn := {| mc_name := "result"; mc_type := "json"; mc_path := [] |}.

Definition mcp_column_leb (a b : McpColumn) : bool := str_leb (mc_name a) (mc_name b).

Definition columns_of (doc item : Json) : list McpColumn :=
  match get item "properties" ≫= as_object with
  | None => [result_column]
  | Some props =>
      sort_by mcp_column_leb
        ((λ kv, {| mc_name := kv.1; mc_type := column_type (deref doc kv.2); mc_path := [kv.1] |}) <$> props)
  end.

Definition deref_field (doc schema : Json) (field : string) : Json := default JNull (deref doc <$> get schema field).

Definition output_columns (output_schema : Json) : list string * list McpColumn :=
  let schema := deref output_schema output_schema in
  if is_array_schema schema then ([], columns_of output_schema (deref_field output_schema schema "items"))
  else match (if is_object schema then get schema "properties" ≫= as_object else None) with
       | Some props =>
           match rows_array output_schema props with
           | Some (prop, array) => ([prop], columns_of output_schema (deref_field output_schema array "items"))
           | None => ([], columns_of output_schema schema)
           end
       | None => ([], [result_column])
       end.

Definition arg_leb (a b : Arg) : bool := str_leb (ar_name a) (ar_name b).

Definition tool_args (input_schema : Json) : list Arg :=
  match get input_schema "properties" ≫= as_object with
  | None => []
  | Some props =>
      let required := omap as_str (array_of (get input_schema "required")) in
      sort_by arg_leb
        ((λ kv, {| ar_name := kv.1; ar_type := param_type kv.2; ar_required := bool_decide (kv.1 ∈ required);
                   ar_tool_arg := None |}) <$> props)
  end.

Definition first_arg (args : list Arg) (names : list string) : option string :=
  List.find (λ n, existsb (λ a, bool_decide (ar_name a = n)) args) names.

Definition infer_limit_binding (args : list Arg) : option LimitBinding :=
  name ← first_arg args ["limit"; "first"; "page_size"; "pageSize"; "maxResults"];
  Some {| lb_tool_arg := name; lb_max := None |}.

Definition infer_cursor (args : list Arg) : option CursorPagination :=
  name ← first_arg args ["cursor"; "after"; "startCursor"; "page_token"];
  Some {| cp_cursor_arg := name; cp_response_cursor_path := ["nextCursor"] |}.

(** The loop of [sanitize]. *)
Fixpoint sanitize_loop (s out : string) : string :=
  match s with
  | "" => out
  | String ch s =>
      if is_alnum ch then sanitize_loop s (out +:+ to_ascii_lowercase (chr ch))
      else sanitize_loop s (if ends_with "_" out then out else out +:+ "_")
  end.

Definition sanitize (name : string) : string :=
  let trimmed := trim_matches underscore (sanitize_loop name "") in
  if nonempty trimmed then trimmed else "tool".

Definition table_from_tool (tool : Tool) : McpTableSpec :=
  let args := tool_args (tl_input_schema tool) in
  let '(rows_path, columns) := match tl_output_schema tool with
                               | Some schema => output_columns schema
                               | None => ([], [result_column])
                               end in
  {| ms_name := sanitize (tl_name tool); ms_tool := tl_name tool; ms_description := tl_description tool;
     ms_args := args; ms_columns := columns; ms_tool_args := ∅; ms_limit_binding := infer_limit_binding args;
     ms_pagination := infer_cursor args; ms_rows_path := rows_path |}.

Definition held_back (tool : Tool) : Diagnostic :=
  diagnostic "MCP_TOOL_HELD_BACK" (tl_name tool)
    ("tool `" +:+ tl_name tool +:+ "` is not read-only; set `expose: all` or list it under `include`").

Fixpoint synth_loop (tools : list Tool) (opts : ExposeOptions) : list McpTableSpec * list Diagnostic :=
  match tools with
  | [] => ([], [])
  | tool :: tools =>
      let '(tables, diags) := synth_loop tools opts in
      if negb (named_tool opts tool) then (tables, diags)
      else if negb (admit_tool tool (eo_expose opts)) then (tables, held_back tool :: diags)
      else (table_from_tool tool :: tables, diags)
  end.

Definition spec_leb (a b : McpTableSpec) : bool := str_leb (ms_name a) (ms_name b).

Definition synthesize_tools (tools : list Tool) (opts : ExposeOptions) : list McpTableSpec * list Diagnostic :=
  let '(tables, diags) := synth_loop tools opts in (sort_by spec_leb tables, diags).

(** A declaration without its name, and with its description. *)
Definition declared_patch (description : option string) (body : Json) : Json :=
  match body with
  | JObject fields =>
      let fields := obj_remove "name" fields in
      JObject match description with
              | Some d => match obj_get "description" fields with
                          | Some _ => fields
                          | None => obj_insert "description" (JString d) fields
                          end
              | None => fields
              end
  | _ => body
  end.

Definition absent_tool (name tool : string) : Diagnostic :=
  diagnostic "MCP_DECLARED_TOOL_ABSENT" name ("declared tool `" +:+ tool +:+ "` is not advertised by the server").

Definition apply_table_def (tables : list McpTableSpec) (name : string) (description : option string) (body : Json)
    (tool_names : list string) (diags : list Diagnostic) : result string (list McpTableSpec * list Diagnostic) :=
  let patch := declared_patch description body in
  match list_find (λ t, ms_name t = name) tables with
  | Some (i, existing) =>
      let? value := json_of_spec existing in
      let? spec := spec_of_json (deep_merge value patch) in
      Ok (<[i := spec]> tables, diags)
  | None =>
      let value := deep_merge (JObject [("name", JString name)]) patch in
      match get value "tool" ≫= as_str with
      | None => Err ("table `" +:+ name +:+ "` does not match a synthesized tool and declares no `tool:`")
      | Some _ =>
          let? spec := spec_of_json value in
          Ok (tables ++ [spec],
              if decide (ms_tool spec ∈ tool_names) then diags else diags ++ [absent_tool name (ms_tool spec)])
      end
  end.
End synth.

(** ** A table's rows ([provider.rs]) *)

Definition DEFAULT_MAX_PAGES : N := 50.

Definition arg_is_shadowed (spec : McpTableSpec) (arg : string) : bool :=
  existsb (λ c, bool_decide (mc_name c = arg)) (ms_columns spec).

Definition arrow_type (t : string) : DataType :=
  let t := to_ascii_lowercase t in
  let is_one_of l := bool_decide (t ∈ l) in
  if is_one_of ["bool"; "boolean"] then Boolean
  else if is_one_of ["int"; "int32"; "bigint"; "int64"; "long"] then Int64
  else if is_one_of ["float"; "float32"; "double"; "float64"] then Float64
  else Utf8.

Definition field_of (name ty : string) : Field := {| f_name := name; f_type := arrow_type ty; f_nullable := true |}.

(** The arguments that are echoed. *)
Definition echoed (spec : McpTableSpec) : list Arg :=
  List.filter (λ a, negb (arg_is_shadowed spec (ar_name a))) (ms_args spec).

Definition build_schema (spec : McpTableSpec) : list Field :=
  ((λ a, field_of (ar_name a) (ar_type a)) <$> echoed spec)
  ++ ((λ c, field_of (mc_name c) (mc_type c)) <$> ms_columns spec).

Definition new_provider (spec : McpTableSpec) (max_pages : option N) : McpProvider :=
  {| mp_spec := spec; mp_schema := build_schema spec; mp_max_pages := default DEFAULT_MAX_PAGES max_pages |}.

(** DataFusion's expressions, as far as they are looked into. *)
Inductive McpExpr :=
| McpCol (name : string)
| McpLit (s : Functions.ScalarValue)
| McpEq (l r : McpExpr)
| McpOtherExpr.

Section rows.
Context {w : Web} {data : Data} {jt : JsonText} {mf : McpForms}.

Definition json_of_i64 (z : Z) : Json := JNumber (number_of_i64 z).

Definition scalar_to_json (s : Functions.ScalarValue) : Json :=
  match s with
  | Functions.Utf8 (Some s) | Functions.LargeUtf8 (Some s) => JString s
  | Functions.Int32 (Some n) | Functions.Int64 (Some n) => json_of_i64 n
  | Functions.UInt64 (Some n) => JNumber (PosInt n)
  | Functions.Boolean (Some b) => JBool b
  | Functions.Float64 (Some f) => default JNull (json_of_f64 f)
  | _ => JNull
  end.

Definition extract_eq (e : McpExpr) : option (string * Json) :=
  match e with
  | McpEq (McpCol c) (McpLit s) | McpEq (McpLit s) (McpCol c) => Some (c, scalar_to_json s)
  | _ => None
  end.

Definition is_arg (spec : McpTableSpec) (col : string) : bool :=
  existsb (λ a, bool_decide (ar_name a = col)) (ms_args spec).

(** Whether a filter is handed over, to be checked again: [Inexact]. *)
Definition inexact (spec : McpTableSpec) (f : McpExpr) : bool :=
  match extract_eq f with Some (col, _) => is_arg spec col | None => false end.

Definition bound_args (spec : McpTableSpec) (filters : list McpExpr) : gmap string Json :=
  foldl (λ bound f, match extract_eq f with
                    | Some (col, value) => if is_arg spec col then <[col := value]> bound else bound
                    | None => bound
                    end) ∅ filters.

(** What every call is given. *)
Definition base_args (spec : McpTableSpec) (bound : gmap string Json) (limit : option N) : list (string * Json) :=
  let base := obj_extend [] (btree_iter (ms_tool_args spec)) in
  let base := foldl (λ base arg, match bound !! ar_name arg with
                                 | Some value => obj_insert (wire_name arg) value base
                                 | None => base
                                 end) base (ms_args spec) in
  match ms_limit_binding spec, limit with
  | Some binding, Some limit =>
      let capped := match lb_max binding with Some m => N.min limit m | None => limit end in
      obj_insert (lb_tool_arg binding) (JNumber (PosInt capped)) base
  | _, _ => base
  end.

(** [walk]. *)
Fixpoint walk (value : Json) (path : list string) : option Json :=
  match path with
  | [] => Some value
  | key :: path => v ← get value key; walk v path
  end.

Definition text_item (i : Json) : option string :=
  if decide (get i "type" ≫= as_str = Some "text") then get i "text" ≫= as_str else None.

Definition newline : string := chr (Ascii.ascii_of_nat 10).

Definition structured_result (result : Json) : Json :=
  match get result "structuredContent" with
  | Some structured => structured
  | None =>
      match get result "content" ≫= as_array with
      | None => JNull
      | Some items =>
          match omap text_item items with
          | [only] => default (JString only) (json_from_str only)
          | [] => default JNull (get result "content")
          | many => JString (join newline many)
          end
      end
  end.

Definition is_array (v : Json) : bool := match v with JArray _ => true | _ => false end.

Definition rows_from (structured : Json) (path : list string) : list Json :=
  match walk structured path with
  | None | Some JNull => []
  | Some (JArray rows) => rows
  | Some (JObject map) =>
      match List.filter is_array map.*2 with
      | [JArray only] => only
      | _ => [JObject map]
      end
  | Some other => [other]
  end.

(** The cursor of the next page. *)
Definition next_cursor (spec : McpTableSpec) (result : Json) : option string :=
  p ← ms_pagination spec; v ← walk result (cp_response_cursor_path p); next ← as_str v;
  if nonempty next then Some next else None.

Definition page_args (spec : McpTableSpec) (base : list (string * Json)) (cursor : option string) : list (string * Json) :=
  match ms_pagination spec, cursor with
  | Some p, Some c => obj_insert (cp_cursor_arg p) (JString c) base
  | _, _ => base
  end.

Definition page_rows (spec : McpTableSpec) (result : Json) : list Json :=
  rows_from (structured_result result) (ms_rows_path spec).

Definition enough (limit : option N) (rows : list Json) : bool :=
  match limit with Some l => (l <=? N.of_nat (length rows))%N | None => false end.

(** The loop over the pages that are left. *)
Fixpoint fetch_pages (pages : nat) (spec : McpTableSpec) (base : list (string * Json)) (limit : option N)
    (cursor : option string) (rows : list Json) : prog (result McpError (list Json)) :=
  match pages with
  | O => Ret (Ok rows)
  | S pages =>
      do? result <- (call_tool (ms_tool spec) (JObject (page_args spec base cursor)));
      let rows := rows ++ page_rows spec result in
      if enough limit rows then Ret (Ok rows)
      else match next_cursor spec result with
           | Some next => fetch_pages pages spec base limit (Some next) rows
           | None => Ret (Ok rows)
           end
  end.

Definition truncate (limit : option N) (rows : list Json) : list Json :=
  match limit with Some l => take (N.to_nat l) rows | None => rows end.

Definition fetch (p : McpProvider) (bound : gmap string Json) (limit : option N) : prog (result McpError (list Json)) :=
  do? rows <- (fetch_pages (N.to_nat (mp_max_pages p)) (mp_spec p) (base_args (mp_spec p) bound limit) limit None []);
  Ret (Ok (truncate limit rows)).

(** *** Batches *)

Definition int_value (v : Json) : option Cell :=
  match v with
  | JNumber n => CInt <$> num_as_i64 n
  | JString s => CInt <$> parse_i64 s
  | _ => None
  end.

Definition float_value (v : Json) : option Cell :=
  match v with
  | JNumber n => CFloat <$> num_as_f64 n
  | JString s => CFloat <$> parse_f64 s
  | _ => None
  end.

Definition bool_value (v : Json) : option Cell := CBool <$> as_bool v.

Definition text_value (v : Json) : option Cell :=
  match v with
  | JNull => None
  | JString s => Some (CText s)
  | other => Some (CText (json_text other))
  end.

Definition column_array (ty : DataType) (values : list Json) : Array :=
  match ty with
  | Int64 => {| a_type := Int64; a_values := int_value <$> values |}
  | Float64 => {| a_type := Float64; a_values := float_value <$> values |}
  | Boolean => {| a_type := Boolean; a_values := bool_value <$> values |}
  | _ => {| a_type := Utf8; a_values := text_value <$> values |}
  end.

(** One array by the type its name has in the schema, or none. *)
Definition named_array (schema : list Field) (name : string) (values : list Json) : option Array :=
  f ← field_with_name schema name; Some (column_array (f_type f) values).

Definition mcp_arrays (schema : list Field) (spec : McpTableSpec) (bound : gmap string Json) (rows : list Json)
    : option (list Array) :=
  args ← mapM (λ a, named_array schema (ar_name a) (replicate (length rows) (default JNull (bound !! ar_name a))))
           (echoed spec);
  cols ← mapM (λ c, named_array schema (mc_name c) ((λ row, default JNull (walk row (mc_path c))) <$> rows))
           (ms_columns spec);
  Some (args ++ cols).

(** A scan up to the batch it builds. *)
Definition scan (p : McpProvider) (filters : list McpExpr) (limit : option N)
    : prog (result McpError (option (list Array))) :=
  let bound := bound_args (mp_spec p) filters in
  do? rows <- (fetch p bound limit);
  Ret (Ok (mcp_arrays (mp_schema p) (mp_spec p) bound rows)).

(** ** Functions ([function.rs]) *)

Definition typed_json (type_str value : string) : Json :=
  let ty := to_ascii_lowercase (trim type_str) in
  let is_one_of l := bool_decide (ty ∈ l) in
  if is_one_of ["int"; "integer"; "int32"; "int64"; "bigint"; "long"; "smallint"] then
    match parse_i64 value with Some z => json_of_i64 z | None => JString value end
  else if is_one_of ["double"; "float"; "float32"; "float64"; "real"; "decimal"; "numeric"] then
    default (JString value) (json_of_f64 value)
  else if is_one_of ["bool"; "boolean"] then
    (if decide (value = "true") then JBool true else if decide (value = "false") then JBool false else JString value)
  else JString value.

Definition bind_args (args : list FunctionArg) (params : gmap string string) : gmap string Json :=
  foldl (λ bound a, match params !! fa_name a with
                    | Some v => <[fa_name a := typed_json (fa_type a) v]> bound
                    | None => bound
                    end) ∅ args.

Definition function_arg_json (a : FunctionArg) : Json :=
  let o := obj_insert "type" (JString (fa_type a)) (obj_insert "name" (JString (fa_name a)) []) in
  let o := if fa_required a then obj_insert "required" (JBool true) o else o in
  JObject match fa_tool_arg a with Some t => obj_insert "tool_arg" (JString t) o | None => o end.

Definition invalid (d : FunctionDef) (msg : string) : McpBuildError :=
  BuildConfig ("function `" +:+ fn_namespace d +:+ "." +:+ fn_name d +:+ "`: " +:+ msg).

Definition function_spec (d : FunctionDef) : result McpBuildError McpTableSpec :=
  let? map := match fn_body d with
              | JObject m => Ok m
              | JNull => Ok []
              | _ => Err (invalid d "mcp function `body` must be a mapping")
              end in
  let map := obj_insert "name" (JString (fn_name d)) map in
  let map := match fn_description d with
             | Some desc => match obj_get "description" map with
                            | Some _ => map
                            | None => obj_insert "description" (JString desc) map
                            end
             | None => map
             end in
  let map := obj_insert "args" (JArray (function_arg_json <$> fn_args d)) map in
  let map := obj_insert "columns" (JArray []) map in
  map_err (λ e, invalid d ("invalid mcp function body: " +:+ e)) (spec_of_json (JObject map)).

Definition path_segments (src : option string) (default_name : string) : list string :=
  match src with
  | None => [default_name]
  | Some s =>
      let trimmed := trim_start_matches2 "$" "." s in
      if nonempty trimmed then split "." trimmed else []
  end.

Definition function_values (c : FunctionColumn) (bound : gmap string Json) (rows : list Json) : list Json :=
  if decide (fc_source c = Some "arg") then replicate (length rows) (default JNull (bound !! fc_name c))
  else (λ row, default JNull (walk row (path_segments (fc_source c) (fc_name c)))) <$> rows.

Definition function_schema (returns : list FunctionColumn) : list Field := (λ c, field_of (fc_name c) (fc_type c)) <$> returns.

Definition function_arrays (schema : list Field) (returns : list FunctionColumn) (bound : gmap string Json)
    (rows : list Json) : option (list Array) :=
  mapM (λ c, named_array schema (fc_name c) (function_values c bound rows)) returns.

(** [invoke] of a function whose specification is [spec], up to the batch. *)
Definition invoke (d : FunctionDef) (spec : McpTableSpec) (max_pages : option N) (params : gmap string string)
    (limit : option N) : prog (result McpError (option (list Array))) :=
  let bound := bind_args (fn_args d) params in
  do? rows <- (fetch (new_provider spec max_pages) bound limit);
  Ret (Ok (function_arrays (function_schema (fn_returns d)) (fn_returns d) bound rows)).
End rows.

(** ** Registration ([register.rs]) *)

Section register.
Context {jt : JsonText} {mf : McpForms}.

Definition parse_command (cfg : Json) : result McpBuildError (string * list string) :=
  match get cfg "command" with
  | Some (JArray parts) =>
      match omap as_str parts with
      | program :: args => Ok (program, args)
      | [] => Err (BuildConfig "`config.command` array is empty")
      end
  | Some (JString program) => Ok (program, omap as_str (array_of (get cfg "args")))
  | _ => Err (BuildConfig "`transport: stdio` requires `config.command`")
  end.

Definition parse_env (cfg : Json) : list (string * string) :=
  match get cfg "env" ≫= as_object with
  | Some map => omap (λ kv, v ← as_str kv.2; Some (kv.1, v)) map
  | None => []
  end.

(** The transport as [{other:?}] shows it, for a text without characters to escape. *)
Definition bad_transport (other : option string) : McpBuildError :=
  BuildConfig ("`kind: mcp` requires `config.transport` of `stdio` or `streamable_http` (got "
               +:+ match other with Some t => "Some(" +:+ quoted t +:+ ")" | None => "None" end +:+ ")").

(** The HTTP transport is built without asking anything. *)
Definition build_transport (cfg : Json) : prog (result McpBuildError ()) :=
  match get cfg "transport" ≫= as_str with
  | None => Ret (Err (bad_transport None))
  | Some t =>
      if decide (t = "stdio") then
        match parse_command cfg with
        | Err e => Ret (Err e)
        | Ok (command, args) =>
            do r <- (ask (Spawn command args (parse_env cfg)));
            Ret (map_err Connect r)
        end
      else if decide (t = "streamable_http") then
        Ret (match get cfg "url" ≫= as_str with
             | Some _ => Ok ()
             | None => Err (BuildConfig "`streamable_http` requires `config.url`")
             end)
      else Ret (Err (bad_transport (Some t)))
  end.

Definition connect_error {A} (m : prog (result McpError A)) : prog (result McpBuildError A) :=
  do r <- m; Ret (map_err (λ e, Connect (McpError_display e)) r).

Definition tool_list (cfg : Json) (key : string) : list string :=
  omap as_str (array_of (v ← get cfg key; get v "tools")).

Definition expose_options (cfg : Json) : ExposeOptions :=
  {| eo_expose := match get cfg "expose" ≫= as_str with
                  | Some e => if decide (e = "all") then AllTools else if decide (e = "listed") then ListedTools
                              else ReadOnlyTools
                  | None => ReadOnlyTools
                  end;
     eo_include := tool_list cfg "include"; eo_exclude := tool_list cfg "exclude" |}.

Fixpoint apply_defs (defs : list EngineTableDef) (tool_names : list string) (tables : list McpTableSpec)
    (diags : list Diagnostic) : result McpBuildError (list McpTableSpec * list Diagnostic) :=
  match defs with
  | [] => Ok (tables, diags)
  | t :: defs =>
      let? td := map_err (λ e, BuildConfig ("table `" +:+ et_name t +:+ "`: " +:+ e))
                   (apply_table_def tables (et_name t) (et_description t) (et_config t) tool_names diags) in
      apply_defs defs tool_names td.1 td.2
  end.

Definition ensure_schema (name : string) : prog (result McpBuildError ()) :=
  do there <- (ask (HasSchema name));
  if there then Ret (Ok ())
  else do r <- (ask (RegisterSchema name)); Ret (map_err CatalogError r).

Fixpoint register_specs (schema : string) (max_pages : option N) (specs : list McpTableSpec)
    : prog (result McpBuildError (list (string * option string))) :=
  match specs with
  | [] => Ret (Ok [])
  | spec :: specs =>
      do r <- (ask (RegisterTool schema (ms_name spec) (new_provider spec max_pages)));
      match r with
      | Err e => Ret (Err (CatalogError ("register table: " +:+ e)))
      | Ok _ =>
          do? rest <- (register_specs schema max_pages specs);
          Ret (Ok ((ms_name spec, ms_description spec) :: rest))
      end
  end.

(** The names and descriptions of the tables of a source. *)
Definition register_mcp_source (fuel : nat) (d : EngineSourceDef)
    : prog (result McpBuildError (list (string * option string))) :=
  let cfg := es_config d in
  do? _ <- (build_transport cfg);
  do? _ <- (connect_error initialize);
  do? tools <- (connect_error (list_tools fuel));
  let '(tables, diags) := synthesize_tools tools (expose_options cfg) in
  match apply_defs (es_tables d) (tl_name <$> tools) tables diags with
  | Err e => Ret (Err e)
  | Ok (tables, _) =>
      do? _ <- (ensure_schema (es_name d));
      register_specs (es_name d) (es_safety d ≫= sp_max_pages) tables
  end.
End register.

(** ** Paging *)

Section paging.
Context {w : Web} {data : Data} {jt : JsonText} {mf : McpForms} (spec : McpTableSpec) (base : list (string * Json))
  (limit : option N).

Definition call_event (cursor : option string) (r : result McpError Json) : Prog.Event :=
  existT (McpRequest "tools/call" (call_params (ms_tool spec) (JObject (page_args spec base cursor)))) r.

(** The calls that give [results], each with the cursor of the result before. *)
Fixpoint calls (cursor : option string) (results : list Json) : list Prog.Event :=
  match results with
  | [] => []
  | result :: results => call_event cursor (Ok result) :: calls (next_cursor spec result) results
  end.

Definition last_cursor (cursor : option string) (results : list Json) : option string :=
  match last results with Some result => next_cursor spec result | None => cursor end.

Definition all_rows (rows : list Json) (results : list Json) : list Json :=
  rows ++ mjoin (page_rows spec <$> results).

(** Another page is read only for want of rows and with a cursor to go on. *)
Fixpoint wanted (rows : list Json) (results : list Json) : Prop :=
  match results with
  | [] | [_] => True
  | result :: results =>
      enough limit (rows ++ page_rows spec result) = false ∧ is_Some (next_cursor spec result) ∧
      wanted (rows ++ page_rows spec result) results
  end.

(** The pages have run out, or there are enough rows, or there is no next page. *)
Definition ended (pages : nat) (rows : list Json) (results : list Json) : Prop :=
  length results = pages ∨
  results ≠ [] ∧ (enough limit (all_rows rows results) = true ∨ last_cursor None results = None).

Lemma last_cursor_cons cursor result results :
  last_cursor cursor (result :: results) = last_cursor (next_cursor spec result) results.
Proof. unfold last_cursor. rewrite last_cons. by destruct (last results). Qed.

Lemma all_rows_cons rows result results :
  all_rows rows (result :: results) = all_rows (rows ++ page_rows spec result) results.
Proof. unfold all_rows. simpl. by rewrite <-app_assoc. Qed.

Definition pages_outcome (pages : nat) (cursor : option string) (rows : list Json) (h : list Prog.Event)
    (r : result string (result McpError (list Json))) (h' : list Prog.Event) : Prop :=
  ∃ results, Forall (λ result, call_result (Ok result) = Ok result) results ∧ wanted rows results ∧
    match r with
    | Ok (Ok out) =>
        h' = h ++ calls cursor results ∧ length results ≤ pages ∧ out = all_rows rows results ∧ ended pages rows results
    | Ok (Err e) =>
        ∃ a, h' = h ++ calls cursor results ++ [call_event (last_cursor cursor results) a] ∧
             length results < pages ∧ call_result a = Err e
    | Err _ => False
    end.

Lemma call_result_ok a result : call_result a = Ok result → a = Ok result ∧ call_result (Ok result) = Ok result.
Proof.
  destruct a as [x|e]; [|done]. cbn [call_result rbind]. destruct (decide _) as [|Hn]; [done|].
  intros [= ->]. cbn [call_result rbind]. by rewrite decide_False.
Qed.

(** One page that is followed by others, or by none. *)
Lemma pages_outcome_cons pages cursor rows h result next r h' :
  call_result (Ok result) = Ok result → next_cursor spec result = Some next →
  enough limit (rows ++ page_rows spec result) = false →
  pages_outcome pages (Some next) (rows ++ page_rows spec result) (h ++ [call_event cursor (Ok result)]) r h' →
  pages_outcome (S pages) cursor rows h r h'.
Proof.
  intros Hr Hn He (results & Hg & Hw & H). exists (result :: results). split; [by constructor|]. split.
  { destruct results; [done|]. split; [done|]. split; [by rewrite Hn|done]. }
  cbn [calls]. rewrite last_cursor_cons, all_rows_cons, Hn. destruct r as [[out|e]|msg]; [| |done].
  - destruct H as (-> & Hlen & -> & Hend). rewrite <-app_assoc. split_and!; [done|simpl; lia|done|].
    destruct Hend as [<-|[Hne Hend]]; [by left|]. right. split; [done|]. rewrite all_rows_cons, last_cursor_cons.
    destruct Hend as [?|Hend]; [by left|]. right. unfold last_cursor in *. destruct results; [done|].
    rewrite last_cons in *. by destruct (last results).
  - destruct H as (a & -> & Hlen & Ha). exists a. rewrite <-app_assoc. split_and!; [done|simpl; lia|done].
Qed.

Lemma pages_outcome_last pages cursor rows h result :
  call_result (Ok result) = Ok result →
  enough limit (rows ++ page_rows spec result) = true ∨ next_cursor spec result = None →
  pages_outcome (S pages) cursor rows h (Ok (Ok (rows ++ page_rows spec result))) (h ++ [call_event cursor (Ok result)]).
Proof.
  intros Hr He. exists [result]. split; [by constructor|]. split; [done|].
  assert (all_rows rows [result] = rows ++ page_rows spec result) as Ha.
  { unfold all_rows. simpl. by rewrite app_nil_r. }
  split_and!; [done|simpl; lia|done|]. right. split; [done|]. by rewrite Ha.
Qed.

Lemma fetch_pages_run pages cursor rows h :
  always (fetch_pages pages spec base limit cursor rows) h (pages_outcome pages cursor rows h).
Proof.
  revert cursor rows h. induction pages as [|pages IH]; intros cursor rows h; cbn [fetch_pages].
  { exists []. split; [constructor|]. split; [done|]. unfold all_rows. simpl. rewrite !app_nil_r.
    split_and!; [done|done|done|by left]. }
  apply always_do. intros a. cbn [pbind]. destruct (call_result a) as [result|e] eqn:Ha.
  2:{ exists []. split; [constructor|]. split; [done|]. exists a. split; [done|]. split; [simpl; lia|done]. }
  apply call_result_ok in Ha as [-> Hr]. cbn [pbind].
  destruct (enough limit (rows ++ page_rows spec result)) eqn:He.
  { apply pages_outcome_last; [done|by left]. }
  destruct (next_cursor spec result) as [next|] eqn:Hn.
  - eapply always_mono; [|apply IH]. intros r h' Ho. by eapply pages_outcome_cons.
  - apply pages_outcome_last; [done|by right].
Qed.
End paging.

(** C24: in every run, fetching a table's rows calls only its tool, at most as often as pages are allowed,
    each time with the same arguments and the cursor that the result before named. It goes on
    only while rows are wanted and there is a next page; it gives the rows of the results in order, cut to the
    limit, and stops early only with enough of them or on the last page. It fails as a call fails, the
    last one. *)
Theorem tool_rows_paged {w : Web} {data : Data} {jt : JsonText} {mf : McpForms} p bound limit :
  let spec := mp_spec p in
  let base := base_args spec bound limit in
  let pages := N.to_nat (mp_max_pages p) in
  always (fetch p bound limit) [] (λ r h, ∃ results,
    Forall (λ result, call_result (Ok result) = Ok result) results ∧ wanted spec limit [] results ∧
    match r with
    | Ok (Ok rows) =>
        h = calls spec base None results ∧ length results ≤ pages ∧
        rows = truncate limit (mjoin (page_rows spec <$> results)) ∧ ended spec limit pages [] results
    | Ok (Err e) =>
        ∃ a, h = calls spec base None results ++ [call_event spec base (last_cursor spec None results) a] ∧
             length results < pages ∧ call_result a = Err e
    | Err _ => False
    end).
Proof.
  intros spec base pages. apply always_try. eapply always_mono; [|apply fetch_pages_run].
  intros [[rows|e]|msg] h (results & Hg & Hw & H); [| |done].
  - destruct H as (-> & Hl & -> & He). exists results. by split_and!.
  - destruct H as (a & -> & Hl & Ha). exists results. split_and!; [done..|]. by exists a.
Qed.

(** ** Exposure *)

Class McpFormsLaws (mf : McpForms) := {
  spec_of_json_name v s : spec_of_json v = Ok s → get v "name" = Some (JString (ms_name s));
  json_of_spec_name s v : json_of_spec s = Ok v → get v "name" = Some (JString (ms_name s))
}.

(** What a configuration exposes: never what is destructive or excluded, only what is included if anything is,
    and of that by default what is read-only. *)
Definition exposed (opts : ExposeOptions) (tool : Tool) : Prop :=
  tl_destructive tool ≠ Some true ∧ tl_name tool ∉ eo_exclude opts ∧
  (eo_include opts = [] ∨ tl_name tool ∈ eo_include opts) ∧
  match eo_expose opts with
  | ReadOnlyTools => tl_read_only tool = Some true
  | AllTools => True
  | ListedTools => False
  end.

Lemma exposed_spec opts tool : named_tool opts tool && admit_tool tool (eo_expose opts) = true ↔ exposed opts tool.
Proof.
  unfold named_tool, admit_tool, exposed. rewrite !andb_true_iff, negb_true_iff, orb_true_iff, bool_decide_eq_false.
  rewrite !bool_decide_eq_true. destruct (decide (tl_destructive tool = Some true)), (eo_expose opts);
    rewrite ?bool_decide_eq_true; naive_solver.
Qed.

(** What a configuration may expose by the documents, which disagree on a tool that [include] names although
    [expose] does not admit it: here it may be exposed. *)
Definition exposable (opts : ExposeOptions) (tool : Tool) : Prop :=
  tl_destructive tool ≠ Some true ∧ tl_name tool ∉ eo_exclude opts ∧
  (tl_name tool ∈ eo_include opts ∨
   eo_include opts = [] ∧ match eo_expose opts with
                          | ReadOnlyTools => tl_read_only tool = Some true
                          | AllTools => True
                          | ListedTools => False
                          end).

Lemma exposed_exposable opts tool : exposed opts tool → exposable opts tool.
Proof. unfold exposed, exposable. naive_solver. Qed.

(** The tools the server has advertised, and the tables put into the catalog. *)
Definition advertised_by (e : @Prog.Event mcp_signature) : list Tool :=
  match e with
  | existT op a =>
      match op return McpAns op → list Tool with
      | McpRequest method _ => λ a, match a with
                                    | Ok result => if decide (method = "tools/list") then page_tools result else []
                                    | Err _ => []
                                    end
      | _ => λ _, []
      end a
  end.

Definition registered_by (e : @Prog.Event mcp_signature) : list (string * string * McpProvider) :=
  match e with
  | existT op a =>
      match op return McpAns op → list (string * string * McpProvider) with
      | RegisterTool schema name p => λ a, match a with Ok _ => [(schema, name, p)] | Err _ => [] end
      | _ => λ _, []
      end a
  end.

Definition advertised (h : list (@Prog.Event mcp_signature)) : list Tool := mjoin (advertised_by <$> h).
Definition tool_tables (h : list (@Prog.Event mcp_signature)) : list (string * string * McpProvider) :=
  mjoin (registered_by <$> h).

Lemma advertised_snoc h e : advertised (h ++ [e]) = advertised h ++ advertised_by e.
Proof. unfold advertised. rewrite fmap_app, join_app. simpl. by rewrite app_nil_r. Qed.

Lemma tool_tables_snoc h e : tool_tables (h ++ [e]) = tool_tables h ++ registered_by e.
Proof. unfold tool_tables. rewrite fmap_app, join_app. simpl. by rewrite app_nil_r. Qed.

(** Programs that register nothing, with the tools advertised meanwhile. *)
Definition surveys {A} (P : A → list Tool → Prop) (p : prog A) : Prop :=
  ∀ h, always p h (λ r h', tool_tables h' = tool_tables h ∧
    ∃ new, advertised h' = advertised h ++ new ∧ match r with Ok a => P a new | Err _ => True end).

Lemma surveys_ret {A} (P : A → list Tool → Prop) a : P a [] → surveys P (Ret a).
Proof. intros Ha h. split; [done|]. exists []. by rewrite app_nil_r. Qed.

Lemma surveys_bind {A B} (P : A → list Tool → Prop) (Q : B → list Tool → Prop) (m : prog A) (f : A → prog B) :
  surveys P m → (∀ a new, P a new → surveys (λ b new', Q b (new ++ new')) (f a)) → surveys Q (pbind m f).
Proof.
  intros Hm Hf h. apply always_bind. eapply always_mono; [|exact (Hm h)].
  intros [a|msg] h' (Ht & new & Ha & HP).
  - eapply always_mono; [|exact (Hf a new HP h')]. intros r h2 (Ht2 & new2 & Ha2 & HQ). rewrite Ht2. split; [done|].
    exists (new ++ new2). by rewrite Ha2, Ha, app_assoc.
  - split; [done|]. by exists new.
Qed.

Lemma surveys_ask op (P : McpAns op → list Tool → Prop) :
  (∀ a, registered_by (existT op a) = [] ∧ P a (advertised_by (existT op a))) → surveys P (ask op).
Proof.
  intros H h a. destruct (H a) as [Hr HP]. unfold always. simpl. rewrite tool_tables_snoc, advertised_snoc. split; [|eauto].
  exact (eq_trans (f_equal (app (tool_tables h)) Hr) (app_nil_r _)).
Qed.

Lemma surveys_mono {A} (P Q : A → list Tool → Prop) (p : prog A) :
  (∀ a new, P a new → Q a new) → surveys P p → surveys Q p.
Proof.
  intros HPQ Hp h. eapply always_mono; [|exact (Hp h)]. intros [a|msg] h' (Ht & new & Ha & HP); eauto.
Qed.

(** Nothing advertised, whatever comes back. *)
Definition none {A} (a : A) (new : list Tool) : Prop := new = [].

Section exposure.
Context {jt : JsonText} {mf : McpForms} {laws : McpFormsLaws mf}.

Lemma surveys_done {A} (a : A) : surveys none (Ret a).
Proof. by apply surveys_ret. Qed.

Lemma surveys_quiet {A} op (f : McpAns op → A) :
  (∀ a, registered_by (existT op a) = [] ∧ advertised_by (existT op a) = []) →
  surveys none (do a <- (ask op); Ret (f a)).
Proof.
  intros H. eapply surveys_bind; [by apply (surveys_ask op (λ _ new, new = []))|]. intros a new ->. apply surveys_done.
Qed.

Lemma surveys_transport cfg : surveys none (build_transport cfg).
Proof.
  unfold build_transport. destruct (_ ≫= as_str) as [t|]; [|apply surveys_done].
  destruct (decide (t = "stdio")) as [|_]; [|destruct (decide (t = "streamable_http")); apply surveys_done].
  destruct (parse_command cfg) as [[command args]|err]; [by apply surveys_quiet|apply surveys_done].
Qed.

Lemma surveys_schema name : surveys none (ensure_schema name).
Proof.
  eapply surveys_bind; [by apply (surveys_ask _ (λ _ new, new = []))|]. intros there new ->. simpl.
  destruct there; [apply surveys_done|by apply surveys_quiet].
Qed.

Lemma surveys_initialize : surveys none (connect_error initialize).
Proof.
  eapply (surveys_bind (λ _ new, new = [])); [|by intros a new ->; apply surveys_done].
  eapply (surveys_bind (λ _ new, new = [])); [apply (surveys_ask _ (λ _ new, new = [])); by intros []|].
  intros r new ->. simpl.
  destruct r; [|apply (surveys_done (Err _))]. apply (surveys_ask _ none). by intros [].
Qed.

(** Reading the tools gives those that are advertised meanwhile. *)
Definition lists_tools (tools : list Tool) (r : result McpError (list Tool)) (new : list Tool) : Prop :=
  match r with Ok all => all = tools ++ new | Err _ => True end.

Lemma surveys_list fuel cursor tools : surveys (lists_tools tools) (list_tools_loop fuel cursor tools).
Proof.
  revert cursor tools. induction fuel as [|fuel IH]; intros cursor tools h.
  { split; [done|]. exists []. by rewrite app_nil_r. }
  revert h. cbn [list_tools_loop]. eapply surveys_bind.
  { apply (surveys_ask (McpRequest "tools/list" _)
             (λ (a : result McpError Json) new, match a with Ok result => new = page_tools result | Err _ => True end)).
    by intros []. }
  intros [result|e] new Hnew; [|by apply surveys_ret]. subst new.
  destruct (tools_cursor result).
  - eapply surveys_mono; [|apply IH]. intros [all|e] new; [|done]. simpl. by rewrite app_assoc.
  - apply surveys_ret. simpl. by rewrite app_nil_r.
Qed.

(** ** What is registered *)

Lemma deep_merge_named value patch description body v :
  patch = declared_patch description body →
  get (deep_merge value patch) "name" = Some (JString v) → get value "name" = Some (JString v).
Proof.
  intros ->. destruct body as [| | | | |fields]; try by destruct value. unfold declared_patch.
  set (p := match description with Some _ => _ | None => _ end). intros H.
  assert (obj_get "name" p = None) as Hn.
  { unfold p. pose proof (obj_get_removed "name" fields) as Hr. destruct description; [|done]. case_match; [done|].
    by rewrite obj_get_insert_ne. }
  destruct value as [| | | | |b]; try (simpl in H; congruence).
  destruct (obj_get "type" p) as [ty|] eqn:Ht; [|by rewrite deep_merge_get in H].
  cbn [deep_merge] in H. rewrite bool_decide_eq_true_2 in H by by rewrite Ht. simpl in H. congruence.
Qed.
Lemma synth_exposed tools opts spec :
  spec ∈ (synthesize_tools tools opts).1 ↔
  ∃ tool, tool ∈ tools ∧ exposed opts tool ∧ spec = table_from_tool tool.
Proof.
  assert ((synthesize_tools tools opts).1 ≡ₚ (synth_loop tools opts).1) as ->.
  { unfold synthesize_tools. destruct (synth_loop tools opts). apply sort_by_perm. }
  induction tools as [|tool tools IH]; [set_solver|]. cbn [synth_loop].
  destruct (synth_loop tools opts) as [tables diags]. cbn [fst] in IH.
  assert (∀ l : list McpTableSpec, (spec ∈ l ↔ (exposed opts tool ∧ spec = table_from_tool tool) ∨ spec ∈ tables) →
            spec ∈ l ↔ ∃ t, t ∈ tool :: tools ∧ exposed opts t ∧ spec = table_from_tool t) as Hstep.
  { intros l ->. rewrite IH. split.
    - intros [[? ?]|(t & ? & ? & ?)]; eexists; (split; [|by split]); set_solver.
    - intros (t & [->|Ht]%elem_of_cons & ? & ?); [by left|right; eauto]. }
  apply Hstep. rewrite <-exposed_spec.
  destruct (named_tool opts tool), (admit_tool tool (eo_expose opts)); cbn [negb fst andb].
  - rewrite elem_of_cons. naive_solver.
  - naive_solver.
  - naive_solver.
  - naive_solver.
Qed.

Lemma patched_name value description body spec name :
  spec_of_json (deep_merge value (declared_patch description body)) = Ok spec →
  get value "name" = Some (JString name) → ms_name spec = name.
Proof using laws.
  intros H%spec_of_json_name Hv. eapply deep_merge_named in H; [|done]. congruence.
Qed.

(** A declaration changes the table of its name only, and there is one afterwards. *)
Lemma apply_table_def_spec tables name description body tool_names diags tables' diags' :
  apply_table_def tables name description body tool_names diags = Ok (tables', diags') →
  (∀ spec, spec ∈ tables' → spec ∈ tables ∨ ms_name spec = name) ∧
  (∀ n, n ∈ ms_name <$> tables' ↔ n ∈ ms_name <$> tables ∨ n = name).
Proof using laws.
  unfold apply_table_def. intros H. destruct (list_find _ tables) as [[i existing]|] eqn:Ef.
  - apply list_find_Some in Ef as (Hi & Hname & _). inv_ok. simplify_eq. rename x0 into spec.
    assert (ms_name spec = ms_name existing) as Hspec.
    { eapply patched_name; [done|]. by apply json_of_spec_name. }
    split.
    + intros s Hs. apply list_elem_of_lookup in Hs as [j Hj]. destruct (decide (i = j)) as [<-|Hij].
      * rewrite list_lookup_insert_eq in Hj by by eapply lookup_lt_Some. simplify_eq. by right.
      * rewrite list_lookup_insert_ne in Hj by done. left. by eapply list_elem_of_lookup_2.
    + intros n. rewrite list_fmap_insert, list_insert_id by (by rewrite list_lookup_fmap, Hi, Hspec).
      split; [by left|]. intros [?| ->]; [done|]. apply list_elem_of_fmap_2. by eapply list_elem_of_lookup_2.
  - destruct (get _ "tool" ≫= as_str); [|done]. inv_ok. simplify_eq. rename x into spec.
    assert (ms_name spec = name) as Hspec by by eapply patched_name.
    split; [|intros n; rewrite fmap_app]; set_solver.
Qed.

Lemma apply_defs_spec defs tool_names tables diags tables' diags' :
  apply_defs defs tool_names tables diags = Ok (tables', diags') →
  (∀ spec, spec ∈ tables' → spec ∈ tables ∨ ms_name spec ∈ et_name <$> defs) ∧
  (∀ n, n ∈ ms_name <$> tables' ↔ n ∈ ms_name <$> tables ∨ n ∈ et_name <$> defs).
Proof using laws.
  revert tables diags. induction defs as [|t defs IH]; intros tables diags H; simpl in H.
  - simplify_eq. split; set_solver.
  - inv_ok. destruct x as [tables1 diags1].
    match goal with Ha : apply_table_def _ _ _ _ _ _ = Ok _ |- _ => apply apply_table_def_spec in Ha as [H1 H2] end.
    apply IH in H as [H3 H4]. simpl in *. split.
    + intros spec [Hs|Hs]%H3; [apply H1 in Hs as [?|?]|]; set_solver.
    + intros n. rewrite H4, H2. set_solver.
Qed.

Definition spec_tables (schema : string) (max_pages : option N) (specs : list McpTableSpec) : list (string * string * McpProvider) :=
  (λ spec, (schema, ms_name spec, new_provider spec max_pages)) <$> specs.

Lemma register_specs_run schema max_pages specs h :
  always (register_specs schema max_pages specs) h (λ r h', advertised h' = advertised h ∧
    ∃ done_, done_ `prefix_of` spec_tables schema max_pages specs ∧ tool_tables h' = tool_tables h ++ done_ ∧
      (is_ok (default (Err (CatalogError "")) (match r with Ok r => Some r | Err _ => None end)) = true →
       done_ = spec_tables schema max_pages specs)).
Proof.
  revert h. induction specs as [|spec specs IH]; intros h; cbn [register_specs].
  { split; [done|]. exists []. rewrite app_nil_r. by split_and!; [apply prefix_nil| |]. }
  apply always_do. intros [[]|e]; cbn [pbind].
  - apply always_try. eapply always_mono; [|apply IH]. rewrite advertised_snoc, tool_tables_snoc. simpl.
    intros r h' (Ha & done_ & Hp & Ht & Hok). rewrite app_nil_r in Ha.
    assert (advertised h' = advertised h ∧ ∃ done_, done_ `prefix_of` spec_tables schema max_pages (spec :: specs) ∧
      tool_tables h' = tool_tables h ++ done_ ∧
      (is_ok (default (Err (CatalogError "")) (match r with Ok r => Some r | Err _ => None end)) = true →
       done_ = spec_tables schema max_pages (spec :: specs))) as H.
    { split; [done|]. exists ((schema, ms_name spec, new_provider spec max_pages) :: done_).
      split; [by apply prefix_cons|]. rewrite Ht, <-app_assoc. split; [done|]. intros Hr%Hok. by rewrite Hr. }
    destruct r as [[rest|e]|msg]; exact H.
  - split; [by rewrite advertised_snoc, app_nil_r|]. exists []. split; [apply prefix_nil|]. rewrite tool_tables_snoc. done.
Qed.

(** What may be a table of a source: a declared one, or that of an advertised tool that may be exposed. *)
Definition permitted (d : EngineSourceDef) (tools : list Tool) (spec : McpTableSpec) : Prop :=
  ms_name spec ∈ et_name <$> es_tables d ∨
  ∃ tool, tool ∈ tools ∧ exposable (expose_options (es_config d)) tool ∧ spec = table_from_tool tool.

Definition exposure (d : EngineSourceDef) (r : result string (result McpBuildError (list (string * option string))))
    (h : list Prog.Event) : Prop :=
  Forall (λ snp, snp.1 = (es_name d, ms_name (mp_spec snp.2)) ∧ permitted d (advertised h) (mp_spec snp.2)) (tool_tables h) ∧
  match r with
  | Ok (Ok _) =>
      ∀ n, n ∈ et_name <$> es_tables d ∨
           (∃ tool, tool ∈ advertised h ∧ exposed (expose_options (es_config d)) tool ∧ n = sanitize (tl_name tool)) →
           n ∈ (tool_tables h).*1.*2
  | _ => True
  end.

Lemma exposure_failed d h e : tool_tables h = [] → exposure d (Ok (Err e)) h.
Proof. intros Ht. unfold exposure. rewrite Ht. by split; [constructor|]. Qed.

Lemma exposure_crashed d h msg : tool_tables h = [] → exposure d (Err msg) h.
Proof. intros Ht. unfold exposure. rewrite Ht. by split; [constructor|]. Qed.

(** A part that registers nothing, and what follows it. *)
Lemma exposure_after {A} d (P : A → list Tool → Prop) (m : prog (result McpBuildError A))
    (f : A → prog (result McpBuildError (list (string * option string)))) h :
  surveys (λ r new, match r with Ok a => P a new | Err _ => True end) m → tool_tables h = [] →
  (∀ a new h', P a new → tool_tables h' = [] → advertised h' = advertised h ++ new → always (f a) h' (exposure d)) →
  always (ptry m f) h (exposure d).
Proof.
  intros Hm Hh Hf. apply always_try. eapply always_mono; [|exact (Hm h)].
  intros [[a|e]|msg] h' (Ht & new & Ha & HP); rewrite Hh in Ht; [by eapply Hf| |].
  - by apply exposure_failed.
  - by apply exposure_crashed.
Qed.

Lemma surveys_none {A} (m : prog (result McpBuildError A)) :
  surveys none m → surveys (λ r new, match r with Ok _ => new = [] | Err _ => True end) m.
Proof. apply surveys_mono. by intros [a|e] new. Qed.

Lemma surveys_tools fuel :
  surveys (λ r new, match r with Ok tools => new = tools | Err _ => True end) (connect_error (list_tools fuel)).
Proof.
  eapply surveys_bind; [apply surveys_list|]. intros [tools|e] new Hn; apply surveys_ret; simpl in *; [|done].
  by rewrite app_nil_r, Hn.
Qed.

(** C23: in every run of registering an MCP source, whatever the server says, each table that enters
    the catalog, under the source's name, is a declared one or that of a tool which the server
    advertised, with the arguments and columns of its schemas, which is not destructive and not excluded, which
    [include] names if it names any, and which otherwise [expose] admits; success means that every declared table
    is there, under its name, and that of every advertised tool which passes all these tests, [expose] included.
    Nothing is said of a tool that [include] names and [expose] does not admit: the documents disagree on it. *)
Theorem mcp_tables_exposed fuel d :
  always (register_mcp_source fuel d) [] (λ r h,
    Forall (λ snp, snp.1 = (es_name d, ms_name (mp_spec snp.2)) ∧ permitted d (advertised h) (mp_spec snp.2)) (tool_tables h) ∧
    match r with
    | Ok (Ok _) =>
        ∀ n, n ∈ et_name <$> es_tables d ∨
             (∃ tool, tool ∈ advertised h ∧ exposed (expose_options (es_config d)) tool ∧ n = sanitize (tl_name tool)) →
             n ∈ (tool_tables h).*1.*2
    | _ => True
    end).
Proof using laws.
  change (always (register_mcp_source fuel d) [] (exposure d)). unfold register_mcp_source.
  eapply exposure_after; [apply surveys_none, surveys_transport|done|]. intros [] new1 h1 -> Ht1 Ha1.
  eapply exposure_after; [apply surveys_none, surveys_initialize|done|]. intros [] new2 h2 -> Ht2 Ha2.
  eapply exposure_after; [apply surveys_tools|done|]. intros tools new3 h3 -> Ht3 Ha3.
  rewrite Ha2, Ha1 in Ha3. simpl in Ha3. clear h1 h2 Ht1 Ht2 Ha1 Ha2.
  pose proof (synth_exposed tools (expose_options (es_config d))) as Hsynth.
  destruct (synthesize_tools tools (expose_options (es_config d))) as [synth diags]. cbn [fst] in Hsynth.
  destruct (apply_defs _ _ synth diags) as [[specs diags']|e] eqn:Ed; [|by apply exposure_failed].
  apply apply_defs_spec in Ed as [Hin Hnames].
  eapply exposure_after; [apply surveys_none, surveys_schema|done|]. intros [] new4 h4 -> Ht4 Ha4.
  rewrite app_nil_r, Ha3 in Ha4. eapply always_mono; [|apply register_specs_run].
  intros r h (Ha & done_ & Hp & Ht & Hok). rewrite Ha4 in Ha. rewrite Ht4 in Ht. simpl in Ht.
  unfold exposure. rewrite Ha, Ht. split.
  - assert (Forall (λ snp, snp.1 = (es_name d, ms_name (mp_spec snp.2)) ∧ permitted d tools (mp_spec snp.2))
      (spec_tables (es_name d) (es_safety d ≫= sp_max_pages) specs)) as Hall.
    { apply Forall_fmap, Forall_forall. intros spec Hs. split; [done|]. simpl. destruct (Hin spec Hs) as [Hs'|?]; [|by left].
      right. apply Hsynth in Hs' as (tool & ? & He & ?). exists tool. eauto using exposed_exposable. }
    destruct Hp as [rest Hp]. rewrite Hp in Hall. by apply Forall_app in Hall as [? _].
  - destruct r as [[rep|e]|msg]; [|done..]. rewrite (Hok eq_refl). intros n.
    assert ((spec_tables (es_name d) (es_safety d ≫= sp_max_pages) specs).*1.*2 = ms_name <$> specs) as ->.
    { unfold spec_tables. rewrite <-!list_fmap_compose. done. }
    intros Hn. rewrite Hnames. destruct Hn as [?|(tool & ? & ? & ->)]; [by right|]. left.
    apply list_elem_of_fmap. exists (table_from_tool tool). split.
    + unfold table_from_tool. by destruct (match tl_output_schema tool with Some _ => _ | None => _ end).
    + apply Hsynth. eauto.
Qed.
End exposure.

(** ** A server *)

Definition demo_spec (name tool : string) : McpTableSpec :=
  {| ms_name := name; ms_tool := tool; ms_description := None; ms_args := []; ms_columns := [result_column];
     ms_tool_args := ∅; ms_limit_binding := None; ms_pagination := None; ms_rows_path := [] |}.

(** Specifications of a name and a tool. *)
Definition demo_mcp : McpForms := {|
  spec_of_json v := match get v "name", get v "tool" with
                    | Some (JString n), Some (JString t) => Ok (demo_spec n t)
                    | _, _ => Err "missing field"
                    end;
  json_of_spec s := Ok (JObject [("name", JString (ms_name s)); ("tool", JString (ms_tool s))]);
  json_from_str _ := None;
  json_of_f64 _ := None;
  pkg_version := "0.1.0"
|}.

#[local] Instance demo_mcp_laws : McpFormsLaws demo_mcp.
Proof.
  split.
  - intros v s. cbn [demo_mcp spec_of_json]. destruct (get v "name") as [[]|]; try discriminate.
    destruct (get v "tool") as [[]|]; try discriminate. by intros [= <-].
  - intros s v [= <-]. reflexivity.
Qed.

Definition demo_tool (name : string) (hint : string) (props : list string) : Json :=
  JObject [("name", JString name); ("annotations", JObject [(hint, JBool true)]);
           ("inputSchema", JObject [("properties", JObject ((λ p, (p, JObject [("type", JString "string")])) <$> props))])].

(** Tools on two pages; each call of one gives two rows and a cursor for three pages. *)
Definition demo_server (op : McpOp) (n : nat) : McpAns op * nat :=
  (match op return McpAns op with
   | McpRequest "tools/list" params =>
       Ok (if decide (get params "cursor" = None)
           then JObject [("tools", JArray [demo_tool "listIssues" "readOnlyHint" ["team"; "cursor"; "limit"];
                                           demo_tool "drop_all" "destructiveHint" []]);
                         ("nextCursor", JString "p2")]
           else JObject [("tools", JArray [demo_tool "edit" "openWorldHint" []])])
   | McpRequest _ _ =>
       Ok (JObject [("structuredContent", JArray [JBool true; JNull]);
                    ("nextCursor", if (n <? 5)%nat then JString (show_N (N.of_nat n)) else JNull)])
   | McpNotify _ _ => Ok ()
   | HasSchema _ => true
   | Spawn _ _ _ | RegisterSchema _ | RegisterTool _ _ _ => Ok ()
   end, S n).

Definition demo_mcp_source (expose : string) : EngineSourceDef :=
  {| es_name := "linear"; es_kind := KMcp; es_description := None; es_wiki := None; es_examples := [];
     es_config := JObject [("transport", JString "stdio"); ("command", JString "npx"); ("expose", JString expose);
                           ("include", JObject [("tools", JArray [JString "listIssues"; JString "edit"; JString "drop_all"])])];
     es_cache := PolicyNone; es_safety := None;
     es_tables := [{| et_name := "purge"; et_description := None; et_wiki := None;
                      et_config := JObject [("tool", JString "drop_all")]; et_cache := None; et_safety := None |}];
     es_raw_table := false; es_raw_table_safety := None |}.

Definition demo_mcp_run (expose : string) : prog (result McpBuildError (list (string * option string))) :=
  register_mcp_source (jt := demo_text) (mf := demo_mcp) 5 (demo_mcp_source expose).

(** Including a tool by name does not expose it, against what the diagnostic of a tool that is held back says. *)
Example exposed_tables :
  (λ expose, (λ snp, (snp.1.2, ms_tool (mp_spec snp.2))) <$>
     tool_tables (events (H := mcp_signature) demo_server (demo_mcp_run expose) O)) <$> ["read_only"; "all"; "listed"] =
  [[("listissues", "listIssues"); ("purge", "drop_all")];
   [("edit", "edit"); ("listissues", "listIssues"); ("purge", "drop_all")];
   [("purge", "drop_all")]].
Proof. vm_compute. reflexivity. Qed.

(** Tools that differ in case or punctuation get tables of one name. *)
Example table_names_collide : sanitize <$> ["list-items"; "list_items"; "List.Items"] = ["list_items"; "list_items"; "list_items"].
Proof. vm_compute. reflexivity. Qed.

(** Three pages of two rows, cut to a limit. *)
Example paged_rows :
  let p := new_provider {| ms_name := "t"; ms_tool := "t"; ms_description := None; ms_args := [];
             ms_columns := [result_column]; ms_tool_args := ∅; ms_limit_binding := None;
             ms_pagination := Some {| cp_cursor_arg := "cursor"; cp_response_cursor_path := ["nextCursor"] |};
             ms_rows_path := [] |} None in
  (λ limit, let r := exec (H := mcp_signature) demo_server (fetch (mf := demo_mcp) p ∅ limit) 3%nat in (r.1, r.2)) <$>
    [None; Some 3%N] =
  [(Ok (Ok [JBool true; JNull; JBool true; JNull; JBool true; JNull]), 6%nat);
   (Ok (Ok [JBool true; JNull; JBool true]), 5%nat)].
Proof. vm_compute. reflexivity. Qed.

(** A server that always names a next page is listed without end. *)
Definition endless_server (op : McpOp) (w : ()) : McpAns op * () :=
  (match op return McpAns op with
   | McpRequest _ _ => Ok (JObject [("nextCursor", JString "more")])
   | McpNotify _ _ => Ok ()
   | HasSchema _ => true
   | Spawn _ _ _ | RegisterSchema _ | RegisterTool _ _ _ => Ok ()
   end, w).

Lemma endless_tools fuel :
  exec (H := mcp_signature) endless_server (list_tools fuel) () = (Err "out of fuel", ()).
Proof.
  unfold list_tools. generalize (@None string) (@nil Tool). induction fuel as [|fuel IH]; intros cursor tools; [done|].
  simpl. rewrite IH. done.
Qed.

Lemma mcp_tables_exposed_witness :
  always (demo_mcp_run "read_only") [] (λ r h,
    Forall (λ snp : string * string * McpProvider, snp.1.1 = "linear" ∧
      (snp.1.2 = "purge" ∨ ∃ tool, tool ∈ advertised h ∧ tl_destructive tool ≠ Some true)) (tool_tables h)).
Proof.
  eapply always_mono; [|exact (mcp_tables_exposed (jt := demo_text) (mf := demo_mcp) (laws := demo_mcp_laws)
                                 5 (demo_mcp_source "read_only"))].
  intros r h [H _]. eapply Forall_impl; [exact H|]. intros [sn p] [Hsn Hp]. cbn [fst snd] in *. subst sn.
  split; [reflexivity|]. cbn [snd]. destruct Hp as [Hp|(tool & Ht & He & _)].
  - left. cbn in Hp. apply elem_of_cons in Hp as [Hp|Hp]; [exact Hp|by apply elem_of_nil in Hp].
  - right. exists tool. split; [exact Ht|]. exact (proj1 He).
Defined.
